(* ===== verification/_CoqProject ===== *)
-Q . S2P
Prelude.v
Platform.v
Labels.v
Allocator.v
UnionTable.v
Union.v
Z3.v
State.v
Files.v
Denote.v
Shadow.v
ShadowSpec.v
Serialize.v
Solver.v
FlagParser.v
Init.v
Libc.v
SanLibc.v
SanPrintf.v
SanPrintfSpec.v
CustomStr.v
CustomFile.v
CustomSys.v
Printf.v
CustomSpec.v
Invariant.v
Calls.v
Ir.v
Pass.v
PassModule.v
PassRun.v
PassSpec.v
PassMem.v
PassVisit.v
PassStep.v
PassSound.v
PassFun.v
PassInter.v
PassContext.v
PassCall.v
PassAbi.v
PassDecl.v
EndToEnd.v
FromStart.v
PlainLabels.v
FirstBranch.v
Angora.v
AngoraIds.v
AngoraSpec.v
AngoraRun.v
AngoraSafe.v
AngoraErase.v
AngoraCmp.v
AllocInl.v
KoClang.v
