(* ===== verification/Prelude.v ===== *)
(** * A verification of Kirenenko, a concolic executor built on data-flow labels

    Kirenenko compiles a program with an LLVM pass that gives every value a
    label and calls a runtime at each operation, load, store, call and branch.
    Labels name the expressions that computed the values from the bytes of an
    input file. At a branch on a labelled condition the runtime turns the label
    into a Z3 formula, asks for an input that takes the other side, and writes
    it to a file.

    ** Parts, and where they are modelled

    All paths are under [src/llvm_mode/]; definitions keep the names of the
    source where Rocq allows it ([__taint_union] is [taint_union], [__dfsw_f] is
    [dfsw_f]).

    - [Prelude.v]: machine integers at their width, the monad [M] of state,
      exceptions and process ends, its program logics ([wp], [wpd], [hoare],
      [pres]) and the tactics and hints built on them.
    - The label store, [dfsan_rt/dfsan/]. [Platform.v]: address-space layout and
      shadow translation ([dfsan_platform.h], [dfsan.h]). [Labels.v]: operators
      and the record of a label ([dfsan.h]). [Allocator.v]: bump allocator
      ([taint_allocator.cc]). [UnionTable.v]: hash table with chains in memory
      ([union_hashtable.cc], [union_util.cc]). [Union.v]: [__taint_union],
      [dfsan_create_label] and queries ([dfsan.cc]).
    - The runtime state. [Z3.v]: the solver's API as a class with its documented
      laws and a concrete instance. [State.v]: the static variables of
      [dfsan.cc] as the record [rt]. [Files.v]: files and descriptors
      ([sanitizer_posix.cc]).
    - Symbolic execution ([dfsan.cc]). [Denote.v]: the meaning of labels, the
      specification. [Shadow.v], [ShadowSpec.v]: [__taint_union_load], [_store]
      and the [dfsan_*] accessors. [Serialize.v]: [serialize] and its caches.
      [Solver.v]: branch dependencies, [__solve_cond], [generate_input], the
      [__taint_trace_*] callbacks.
    - Start-up. [FlagParser.v]: option strings and include files
      ([sanitizer_flag_parser.cc], [sanitizer_flags.cc]). [Init.v]:
      [dfsan_init], the taint source, the label dump.
    - The C library ([dfsan_custom.cc], [dfsan_interceptors.cc]). [Libc.v]:
      memory and strings of the host. [SanLibc.v]: the runtime's own string
      functions ([sanitizer_libc.cc]). [CustomStr.v], [CustomFile.v],
      [CustomSys.v], [Printf.v]: every [__dfsw_] wrapper. [CustomSpec.v]: what
      they guarantee. [SanPrintf.v], [SanPrintfSpec.v]: the runtime's own
      [internal_snprintf], [Printf] and [Report] ([sanitizer_printf.cc]).
      [Invariant.v], [Calls.v]: the invariant of the running
      program, that every entry point keeps it, and runs of programs.
    - The instrumentation pass ([pass/TaintPass.cc]). [Ir.v]: the fragment of
      LLVM IR it inspects. [Pass.v]: [TaintFunction] and [TaintVisitor].
      [PassModule.v]: the class [Taint]. [PassRun.v]: the meaning of the IR and
      of the inserted code. [PassSpec.v]: labels as functions of the input.
      [PassMem.v]: the same for every byte of memory. [PassVisit.v]: what each
      visit inserts, against the final state of the pass. [PassStep.v]: one
      instruction executed, original and instrumented. [PassSound.v]: paths
      through the blocks of a function. [PassFun.v]: a function from its
      arguments to its result. [PassInter.v]: that function as a callee of
      instrumented code. [PassContext.v]: calling contexts and shadow
      addresses. [PassCall.v]: custom calls and trampolines. [PassAbi.v]: the
      prototypes of the wrappers against what the pass calls. [PassDecl.v]: the
      runtime functions the pass declares, against their definitions and the
      calls it inserts. [EndToEnd.v]: pass, label store, serializer and solver
      together at a branch. [FromStart.v]: start-up, opening and reading the
      input, and an instrumented function, one after the other. [PlainLabels.v]:
      the label store as long as no condition is solved. [FirstBranch.v]: from
      start-up to the first labelled branch and the file written there.
    - The coverage pass ([pass/AngoraPass.cc], [pass/UnfoldBranchPass.cc]), which
      this project keeps from the fuzzer it derives from. [Angora.v]: both passes.
      [AngoraIds.v]: identifiers. [AngoraSpec.v]: the shape of the output.
      [AngoraRun.v]: runs of instrumented programs. [AngoraSafe.v]: counters and
      contexts. [AngoraErase.v]: what the passes leave of the program.
      [AngoraCmp.v]: what is reported of a comparison.
    - The compiler driver. [AllocInl.v]: its allocator with canaries
      ([include/alloc_inl.h]). [KoClang.v]: the command line that loads the pass
      and links the runtime ([compiler/ko_clang.c]).

    State and effects: an operation is a function of the component's state
    ([lstate] for labels, [rt] for the runtime, [os] for files, [fstate] for the
    option parser, [tf] and [ast] for the passes, [mach] and [amach] for a
    running program, [heap] for the driver's allocator) into
    [outcome]: a return, a C++ exception, or an end of the process (a fatal
    report, a segmentation fault, an uncaught exception). Larger states contain
    smaller ones, and [zoom] runs a component's operation inside its owner.
    Memory is a map from addresses to bytes and the shadow a map from slot
    addresses to labels, shared by all operations that alias them.

    ** What the theorems show

    - Label store: [__taint_union] refines a finite map from expressions to
      labels; it is injective and commutes where the operator does; the hash
      table refines a finite map; allocations are disjoint.
    - Meaning: loads and stores of labels denote the little-endian value of the
      bytes; a store followed by a load gives the label back; the expression
      [serialize] returns evaluates to what the label denotes on every input,
      and its dependency set covers what that value depends on.
    - Solving: a generated input satisfies the negated condition and the
      recorded constraints; the closure of dependencies terminates and is
      exactly what they reach; branch counters stay within their bound; the new file is the
      old input with the solved bytes.
    - Program: in every state reached from start-up through wrappers and inserted
      calls, of a program that passes only labels it was given, the labels in the
      shadow and in the program's hands are the constant or recorded labels, and
      beside them the initializing label [-1] if the program maps the input past
      its end (what is assumed of the calls is said in [Calls.v]);
      wrappers move labels with the bytes; the option parser terminates, and
      printing settings and parsing them is the identity.
    - Pass: an instrumented function (integer operations, branches, switches,
      selects, phi nodes and so loops, address computations, loads, stores,
      [memset] and [memcpy], calls of instrumented functions and returns)
      computes along every path the values and the memory of the
      original, with labels that denote, for every input, what the same path
      computes on it; the label of an argument arrives in the callee, and that of
      the result is left for the caller, so that the function is such a callee
      itself and calls nest to any depth. So an instrumented branch writes an
      input on which the original program, after the same path, takes the other
      side, and it does when there is one and the solver does not give up. A call
      of a custom function has
      the type the pass declares, and each parameter of a wrapper of the runtime
      receives what it stands for, except in the thirteen wrappers defined with
      other parameters or another result than the pass assumes; every inserted call of the runtime has the declared types,
      which are those of the definitions but for what the theorem names; trampolines forward labels; the calling context is restored
      on every return; inserted shadow addresses are the runtime's.
    - From start-up on: with a readable input file, the runtime starts, [open] and
      [read] of the file return with labelled bytes, and an instrumented function
      called then computes the labels of its result as above. When it reaches a
      branch whose condition depends on the input, the first one of the run, the
      runtime is ready to solve it (no other condition is on record, the offsets
      lie in the file), and on the file written the original program, from its
      start, takes the other side.
    - Coverage: every byte the inserted code writes is a nonzero counter inside the
      shared map, through nested calls, and the context at a return is that of the
      call (shifted, when a number of contexts is set); the two passes leave every
      instruction of the program where it was; a comparison is reported with its
      operands; identifiers are unique and the search for one ends.
    - Allocator: the routines with canaries refine a map from pointers to byte
      strings; the canaries never fire for a caller that stays inside its buffers,
      but for [DFL_ck_memdup_str].
    - Strings: the runtime's string functions return what the C library's do, with
      [signed char] comparisons where the theorem says so.
    - Text: [internal_snprintf] is C's [snprintf] on the formats it supports, so
      that the names of generated inputs and the lines of the label dump are
      those the model writes; [Printf] and [Report] print whole messages or end
      the process.
    - Driver: the arguments of the user are kept; the options added, and when, are
      those that load the pass, set the mode and link the runtime; and the array of
      parameters suffices.
    - Errors: the theorems [load_shape_confusion], [stdin_pipe_dies],
      [dfsw_getline_eof] and [memdup_str_unfreeable] state where the code does not
      do what it means to.

    ** Parameters, fuel and bounds

    Code outside the repository is a parameter with its documented behaviour:
    Z3 (classes [Z3] and [Z3Laws], instance [Ref.z3]), LLVM's opcode numbers
    (class [LlvmOps], instance [llvm7]), data layout and analyses ([DataLayout],
    [PassEnv], [AngoraEnv]), the ABI list matcher, the C library's allocator
    ([Host]), and results of host calls. Recursion over
    labels takes as fuel the label plus one: operands of a recorded label are
    smaller, which is part of the invariant [wf]. Loops over bytes take the
    number of bytes, the closure of dependencies the number of offsets of the
    input, the option parser the length of the string, and the search for a free
    identifier the number of identifiers in use plus one; the theorems show
    that these never run out, but for a load that meets a label of fewer than 8
    bits, where the loop of [__taint_union_load] does not advance: the source then
    runs for ever, the model ends with [HFuel]. Integers are [Z] with the wrap-around of their
    width written out.

    The theorems about instrumented functions cover the integer fragment above;
    outside them are stack variables with a label slot, floating point, and
    indirect calls, invokes and calls of custom functions inside the path (which
    the theorems on calls treat one by one). The IR model has no targets of
    branches: a path is any sequence of blocks, and the way a callee takes is a
    function of its arguments and of memory. A function that calls itself is a
    callee at each depth of the recursion. Ids the pass invents are above those of
    the instructions. The theorems assume clean loads and stores
    ([clean_path]): the labels met are not of the shapes the runtime confuses,
    which [load_shape_confusion] shows exist.

    ** Not modelled

    A write to a file writes all bytes or fails; a system may write a part, which
    the source takes for success. Plain [char] is signed, as on x86_64, whose
    address-space layout is the one used (the layouts of the other platforms are
    modelled, their unsigned [char] is not).

    Threads: the label counter and the shadow are those of one thread, and
    thread creation runs the new thread's code as a step of its own. The time
    and memory the solver uses, its timeouts, and hash collisions in Z3's
    expression ids. In the pass: alignments, the debugging option
    [-taint-debug-nonzero-labels], linkage and attributes of functions, unwinding
    of a frame without a landing pad. In the coverage pass: the declarations of
    its runtime functions, and the runtime itself, which is not in the
    repository. The allocator's leak tracking in debug builds. The weak coverage
    hooks of [dfsan_custom.cc] are the empty ones it defines; a program may link
    others. The pass [DFSanPass.cc], which the
    driver does not load, and the rest of the vendored [sanitizer_common],
    [interception] and [builtins] are not part of the model. *)

From stdpp Require Export base tactics numbers list strings gmap fin_maps sets.
From Stdlib Require Export ZArith Lia.

#[global] Open Scope Z_scope.

(** ** Machine integers

    A C integer is a [Z]; [u8] ... [u64] are the conversions to the unsigned
    types of [sanitizer_internal_defs.h], [s8], [s32], [s64] those to the
    two's complement types. *)
Definition wrap (w x : Z) : Z := x mod 2 ^ w.
Definition u8 (x : Z) : Z := wrap 8 x.
Definition u16 (x : Z) : Z := wrap 16 x.
Definition u32 (x : Z) : Z := wrap 32 x.
Definition u64 (x : Z) : Z := wrap 64 x.

Definition swrap (w x : Z) : Z :=
  let y := wrap w x in if y <? 2 ^ (w - 1) then y else y - 2 ^ w.
Definition s8 (x : Z) : Z := swrap 8 x.
Definition s32 (x : Z) : Z := swrap 32 x.
Definition s64 (x : Z) : Z := swrap 64 x.

(** The value range of an unsigned [w]-bit type. *)
Definition in_range (w x : Z) : Prop := 0 ≤ x < 2 ^ w.

(** ** Outcomes and the state-and-exception monad

    The runtime is C++: a call returns, throws a [z3::exception], or ends the
    process ([Die()], a failed [assert], an access to an unmapped page). Every
    outcome keeps the state reached, since a C++ handler and the exit callbacks
    see the side effects made before the throw or the death. [HTerminate] is a
    C++ exception no handler of the runtime takes. [HFuel] is the
    outcome of a bounded loop that ran out of its bound; the theorems show it
    does not occur. *)
Inductive halt : Type :=
| HDie (msg : string)
| HAssert (cond : string)
| HSegv
| HTerminate (exn : string)
| HFuel.

(** [Die()] after a diagnostic, as opposed to a crash. *)
Definition is_die (h : halt) : Prop := match h with HDie _ => True | _ => False end.

Inductive outcome (S A : Type) : Type :=
| Ret (a : A) (s : S)
| Throw (e : string) (s : S)
| Halt (h : halt) (s : S).
Arguments Ret {S A} a s.
Arguments Throw {S A} e s.
Arguments Halt {S A} h s.

(** The state and the value of an outcome. *)
Definition at_state {S A} (o : outcome S A) : S :=
  match o with Ret _ s | Throw _ s | Halt _ s => s end.
Definition returned {S A} (o : outcome S A) : option A :=
  match o with Ret a _ => Some a | _ => None end.

Definition M (S A : Type) : Type := S → outcome S A.

#[export] Instance M_ret {S} : MRet (M S) := λ A a s, Ret a s.
#[export] Instance M_bind {S} : MBind (M S) := λ A B f m s,
  match m s with
  | Ret a s' => f a s'
  | Throw e s' => Throw e s'
  | Halt h s' => Halt h s'
  end.

Definition get {S} : M S S := λ s, Ret s s.
Definition put {S} (s : S) : M S () := λ _, Ret () s.
Definition gets {S A} (f : S → A) : M S A := λ s, Ret (f s) s.
Definition modify {S} (f : S → S) : M S () := λ s, Ret () (f s).
Definition throw {S A} (e : string) : M S A := λ s, Throw e s.
Definition die {S A} (msg : string) : M S A := λ s, Halt (HDie msg) s.
Definition segv {S A} : M S A := λ s, Halt HSegv s.
Definition terminate {S A} (e : string) : M S A := λ s, Halt (HTerminate e) s.
Definition out_of_fuel {S A} : M S A := λ s, Halt HFuel s.
Definition assert_ {S} (c : string) (b : bool) : M S () :=
  λ s, if b then Ret () s else Halt (HAssert c) s.

(** [try { m } catch (z3::exception e) { h e }] *)
Definition catch {S A} (m : M S A) (h : string → M S A) : M S A := λ s,
  match m s with
  | Throw e s' => h e s'
  | o => o
  end.

(** Running an operation of a component on its part of the whole state. *)
Definition zoom {S T A} (g : S → T) (p : T → S → S) (m : M T A) : M S A := λ s,
  match m (g s) with
  | Ret a t => Ret a (p t s)
  | Throw e t => Throw e (p t s)
  | Halt h t => Halt h (p t s)
  end.

(** [for (x : l) f(x)] *)
Fixpoint for_each {S A} (l : list A) (f : A → M S ()) : M S () :=
  match l with
  | [] => mret ()
  | x :: l => f x ;; for_each l f
  end.

(** A counted loop [for (i = lo; i < hi; i++)]: the list of its indices. *)
Definition range (lo hi : Z) : list Z := seqZ lo (hi - lo).

(** ** Reasoning about computations

    - [wp m Q X s]: from [s], [m] does not end the process; it returns in a
      state satisfying [Q] or throws in one satisfying [X] (total correctness).
    - [hoare P m Q X]: partial correctness, nothing is said of a halt.
    - [wpd m Q s]: from [s], [m] returns in a state satisfying [Q], or ends the
      process with a diagnostic because a resource is exhausted; it neither
      throws nor crashes.
    - [pres I m]: [m] preserves the invariant [I], on return and on a throw. *)
Definition wp {S A} (m : M S A) (Q : A → S → Prop) (X : string → S → Prop)
    (s : S) : Prop :=
  match m s with
  | Ret a s' => Q a s'
  | Throw e s' => X e s'
  | Halt _ _ => False
  end.

Definition no_throw {S} : string → S → Prop := λ _ _, False.

Definition wpd {S A} (m : M S A) (Q : A → S → Prop) (s : S) : Prop :=
  match m s with
  | Ret a s' => Q a s'
  | Throw _ _ => False
  | Halt h _ => is_die h
  end.

Definition hoare {S A} (P : S → Prop) (m : M S A) (Q : A → S → Prop)
    (X : S → Prop) : Prop :=
  ∀ s, P s →
    match m s with
    | Ret a s' => Q a s'
    | Throw _ s' => X s'
    | Halt _ _ => True
    end.

Definition pres {S A} (I : S → Prop) (m : M S A) : Prop :=
  hoare I m (λ _, I) I.

(** Stepping through a computation whose first part is known. *)
Lemma bind_run {S A B} (m : M S A) (f : A → M S B) s a s' :
  m s = Ret a s' → (m ≫= f) s = f a s'.
Proof. unfold mbind, M_bind. by intros ->. Qed.
Lemma bind_halt {S A B} (m : M S A) (f : A → M S B) s h s' :
  m s = Halt h s' → (m ≫= f) s = Halt h s'.
Proof. unfold mbind, M_bind. by intros ->. Qed.
Lemma bind_throw {S A B} (m : M S A) (f : A → M S B) s e s' :
  m s = Throw e s' → (m ≫= f) s = Throw e s'.
Proof. unfold mbind, M_bind. by intros ->. Qed.
Lemma bind_gets {S A B} (g : S → A) (f : A → M S B) s : (gets g ≫= f) s = f (g s) s.
Proof. done. Qed.
Lemma bind_get {S B} (f : S → M S B) s : (get ≫= f) s = f s s.
Proof. done. Qed.
Lemma bind_modify {S B} (g : S → S) (f : () → M S B) s : (modify g ≫= f) s = f () (g s).
Proof. done. Qed.
Lemma for_each_snoc {S A} (l : list A) x (f : A → M S ()) s :
  for_each (l ++ [x]) f s = (for_each l f ;; f x) s.
Proof.
  revert s. induction l as [|y l IH]; intros s; cbn [for_each app]; unfold mbind, M_bind.
  - unfold mret, M_ret. by destruct (f x s) as [[] ?| |].
  - destruct (f y s) as [[] s'| |]; [|done|done]. apply IH.
Qed.
Lemma assert_run {S} c b (s : S) : b = true → assert_ c b s = Ret () s.
Proof. by intros ->. Qed.

Create HintDb rt discriminated.

Section wp_rules.
Context {S : Type}.

Lemma wp_ret {A} (a : A) Q X (s : S) : Q a s → wp (mret a) Q X s.
Proof. done. Qed.
Lemma wp_bind {A B} (m : M S A) (f : A → M S B) Q X s :
  wp m (λ a, wp (f a) Q X) X s → wp (m ≫= f) Q X s.
Proof. unfold wp, mbind, M_bind. by destruct (m s). Qed.
Lemma wp_mono {A} (m : M S A) (Q Q' : A → S → Prop) (X X' : string → S → Prop) s :
  wp m Q X s → (∀ a s', Q a s' → Q' a s') → (∀ e s', X e s' → X' e s') →
  wp m Q' X' s.
Proof. unfold wp. destruct (m s); naive_solver. Qed.
Lemma wp_gets {A} (f : S → A) Q X s : Q (f s) s → wp (gets f) Q X s.
Proof. done. Qed.
Lemma wp_get Q X (s : S) : Q s s → wp get Q X s.
Proof. done. Qed.
Lemma wp_modify (f : S → S) Q X s : Q () (f s) → wp (modify f) Q X s.
Proof. done. Qed.
Lemma wp_throw {A} e (Q : A → S → Prop) X s : X e s → wp (throw e) Q X s.
Proof. done. Qed.
Lemma wp_assert c b Q X (s : S) : b = true → Q () s → wp (assert_ c b) Q X s.
Proof. by intros ->. Qed.
Lemma wp_catch {A} (m : M S A) h Q X s :
  wp m Q (λ e, wp (h e) Q X) s → wp (catch m h) Q X s.
Proof. unfold wp, catch. by destruct (m s). Qed.
Lemma wp_zoom {T A} (g : S → T) p (m : M T A) Q X s :
  wp m (λ a t, Q a (p t s)) (λ e t, X e (p t s)) (g s) →
  wp (zoom g p m) Q X s.
Proof. unfold wp, zoom. by destruct (m (g s)). Qed.

Lemma wpd_ret {A} (a : A) Q (s : S) : Q a s → wpd (mret a) Q s.
Proof. done. Qed.
Lemma wpd_bind {A B} (m : M S A) (f : A → M S B) Q s :
  wpd m (λ a, wpd (f a) Q) s → wpd (m ≫= f) Q s.
Proof. unfold wpd, mbind, M_bind. by destruct (m s). Qed.
Lemma wpd_mono {A} (m : M S A) (Q Q' : A → S → Prop) s :
  wpd m Q s → (∀ a s', Q a s' → Q' a s') → wpd m Q' s.
Proof. unfold wpd. destruct (m s); naive_solver. Qed.
Lemma wpd_run {A} (m : M S A) Q s a s' : m s = Ret a s' → Q a s' → wpd m Q s.
Proof. unfold wpd. by intros ->. Qed.
Lemma wpd_gets {A} (f : S → A) Q s : Q (f s) s → wpd (gets f) Q s.
Proof. done. Qed.
Lemma wpd_modify (f : S → S) Q s : Q () (f s) → wpd (modify f) Q s.
Proof. done. Qed.
Lemma wpd_assert c b Q (s : S) : b = true → Q () s → wpd (assert_ c b) Q s.
Proof. by intros ->. Qed.

(** The loop rules: an invariant indexed by the elements already visited. *)
Lemma wpd_for_each {A} (I : list A → S → Prop) (l : list A) f s :
  (∀ done x todo s, l = done ++ x :: todo → I done s →
     wpd (f x) (λ _, I (done ++ [x])) s) →
  I [] s → wpd (for_each l f) (λ _, I l) s.
Proof.
  assert (∀ todo done s, (∀ done' x todo' s, done ++ todo = done' ++ x :: todo' →
      I done' s → wpd (f x) (λ _, I (done' ++ [x])) s) →
    I done s → wpd (for_each todo f) (λ _, I (done ++ todo)) s) as H.
  { clear. induction todo as [|x todo IH]; intros done s Hf HI; simpl.
    - by rewrite app_nil_r.
    - apply wpd_bind. eapply wpd_mono; [by eapply Hf|].
      intros [] s' HI'. rewrite (cons_middle x done todo), (app_assoc done [x] todo).
      apply IH; [|done]. intros done' y todo'. rewrite <-(app_assoc done [x] todo). apply Hf. }
  intros Hf HI. by apply (H l [] s).
Qed.
Lemma wp_for_each {A} (I : list A → S → Prop) (l : list A) f X s :
  (∀ done x todo s, l = done ++ x :: todo → I done s →
     wp (f x) (λ _, I (done ++ [x])) X s) →
  I [] s → wp (for_each l f) (λ _, I l) X s.
Proof.
  assert (∀ todo done s, (∀ done' x todo' s, done ++ todo = done' ++ x :: todo' →
      I done' s → wp (f x) (λ _, I (done' ++ [x])) X s) →
    I done s → wp (for_each todo f) (λ _, I (done ++ todo)) X s) as H.
  { clear. induction todo as [|x todo IH]; intros done s Hf HI; simpl.
    - by rewrite app_nil_r.
    - apply wp_bind. eapply wp_mono; [by eapply Hf| |done].
      intros [] s' HI'. rewrite (cons_middle x done todo), (app_assoc done [x] todo).
      apply IH; [|done]. intros done' y todo'. rewrite <-(app_assoc done [x] todo). apply Hf. }
  intros Hf HI. by apply (H l [] s).
Qed.
End wp_rules.

Section hoare_rules.
Context {S : Type}.

Lemma hoare_bind {A B} (P : S → Prop) (m : M S A) R (f : A → M S B) Q X :
  hoare P m R X → (∀ a, hoare (R a) (f a) Q X) → hoare P (m ≫= f) Q X.
Proof.
  intros Hm Hf s HP. specialize (Hm s HP). unfold mbind, M_bind.
  destruct (m s) as [a s'| |]; [|done..]. by apply Hf.
Qed.
Lemma hoare_conseq {A} (P P' : S → Prop) (m : M S A) (Q Q' : A → S → Prop)
    (X X' : S → Prop) :
  hoare P m Q X → (∀ s, P' s → P s) → (∀ a s, Q a s → Q' a s) →
  (∀ s, X s → X' s) → hoare P' m Q' X'.
Proof. intros Hm ??? s HP. specialize (Hm s). destruct (m s); naive_solver. Qed.
Lemma hoare_ret {A} (a : A) (Q : A → S → Prop) X : hoare (Q a) (mret a) Q X.
Proof. by intros s. Qed.
Lemma hoare_wp {A} (P : S → Prop) (m : M S A) Q X :
  (∀ s, P s → wp m Q (λ _, X) s) → hoare P m Q X.
Proof. intros H s HP. specialize (H s HP). unfold wp in H. by destruct (m s). Qed.

(** Invariant preservation. *)
Implicit Type I : S → Prop.
Lemma pres_ret {A} I (a : A) : pres I (mret a).
Proof. by intros s. Qed.
Lemma pres_bind {A B} I (m : M S A) (f : A → M S B) :
  pres I m → (∀ a, pres I (f a)) → pres I (m ≫= f).
Proof. apply hoare_bind. Qed.
Lemma pres_gets {A} I (f : S → A) : pres I (gets f).
Proof. by intros s. Qed.
Lemma pres_get I : pres I get.
Proof. by intros s. Qed.
Lemma pres_modify I (f : S → S) : (∀ s, I s → I (f s)) → pres I (modify f).
Proof. intros H s. apply H. Qed.
Lemma pres_throw {A} I e : pres (A:=A) I (throw e).
Proof. by intros s. Qed.
Lemma pres_die {A} I e : pres (A:=A) I (die e).
Proof. by intros s. Qed.
Lemma pres_segv {A} I : pres (A:=A) I segv.
Proof. by intros s. Qed.
Lemma pres_terminate {A} I e : pres (A:=A) I (terminate e).
Proof. by intros s. Qed.
Lemma pres_fuel {A} I : pres (A:=A) I out_of_fuel.
Proof. by intros s. Qed.
Lemma pres_assert I c b : pres I (assert_ c b).
Proof. intros s. unfold assert_. by destruct b. Qed.
Lemma pres_catch {A} I (m : M S A) h :
  pres I m → (∀ e, pres I (h e)) → pres I (catch m h).
Proof.
  intros Hm Hh s HI. specialize (Hm s HI). unfold catch.
  destruct (m s); [done| |done]. by apply Hh.
Qed.
Lemma pres_for_each {A} I (l : list A) f :
  (∀ x, x ∈ l → pres I (f x)) → pres I (for_each l f).
Proof.
  induction l as [|x l IH]; intros Hf; simpl; [apply pres_ret|].
  apply pres_bind; [apply Hf; by left|]. intros _. apply IH.
  intros y Hy. apply Hf. by right.
Qed.
Lemma pres_zoom {T A} (J : T → Prop) I (g : S → T) p (m : M T A) :
  pres J m → (∀ s, I s → J (g s)) → (∀ s t, I s → J t → I (p t s)) →
  pres I (zoom g p m).
Proof.
  intros Hm Hg Hp s HI. unfold zoom. specialize (Hm (g s) (Hg s HI)).
  destruct (m (g s)); auto.
Qed.

End hoare_rules.

#[export] Hint Resolve pres_ret pres_gets pres_get pres_throw pres_die pres_segv
  pres_terminate pres_fuel pres_assert : rt.

(** One step of a preservation proof: a structural rule, a case analysis, or a
    lemma of the [rt] hint database. *)
Ltac pres_step :=
  match goal with
  | |- ∀ _, _ => intros ?
  | |- pres _ (_ ≫= _) => apply pres_bind
  | |- pres _ (catch _ _) => apply pres_catch
  | |- pres _ (for_each _ _) => apply pres_for_each
  | |- pres _ (if ?b then _ else _) => destruct b eqn:?
  | |- pres _ (match ?x with _ => _ end) => destruct x eqn:?
  | |- pres _ _ => solve [eauto with rt]
  end.
Ltac pres_auto := repeat pres_step.

(** ** Shared arithmetic lemmas *)
Lemma wrap_range w x : 0 ≤ w → in_range w (wrap w x).
Proof. intros. unfold in_range, wrap. apply Z.mod_pos_bound. by apply Z.pow_pos_nonneg. Qed.
Lemma wrap_small w x : in_range w x → wrap w x = x.
Proof. apply Z.mod_small. Qed.
Lemma u8_range x : in_range 8 (u8 x). Proof. by apply wrap_range. Qed.
Lemma u16_range x : in_range 16 (u16 x). Proof. by apply wrap_range. Qed.
Lemma u32_range x : in_range 32 (u32 x). Proof. by apply wrap_range. Qed.
Lemma u64_range x : in_range 64 (u64 x). Proof. by apply wrap_range. Qed.
#[export] Hint Resolve u8_range u16_range u32_range u64_range : rt.

Lemma u8_idemp x : u8 (u8 x) = u8 x.
Proof. apply wrap_small, u8_range. Qed.

(** Bit operations stay in the range of the width. *)
Lemma log2_range w n : 0 ≤ w → 0 ≤ n → (0 < n → Z.log2 n < w) → in_range w n.
Proof.
  intros Hw Hn Hl. split; [done|]. destruct (decide (n = 0)) as [->|]; [by apply Z.pow_pos_nonneg|].
  apply Z.log2_lt_pow2; lia.
Qed.
Lemma range_log2 w n : in_range w n → 0 < n → Z.log2 n < w.
Proof. intros [? ?] ?. by apply Z.log2_lt_pow2. Qed.

Lemma land_range w a b : 0 ≤ w → in_range w a → in_range w b → in_range w (Z.land a b).
Proof.
  intros Hw Ha Hb. pose proof (range_log2 _ _ Ha). pose proof (range_log2 _ _ Hb).
  destruct Ha, Hb. apply log2_range; [done|by apply Z.land_nonneg; left|]. intros Hp.
  pose proof (Z.log2_land a b ltac:(done) ltac:(done)).
  destruct (decide (a = 0)) as [->|]; [by rewrite Z.land_0_l in Hp|]. lia.
Qed.
Lemma lor_range w a b : 0 ≤ w → in_range w a → in_range w b → in_range w (Z.lor a b).
Proof.
  intros Hw Ha Hb. pose proof (range_log2 _ _ Ha). pose proof (range_log2 _ _ Hb).
  destruct Ha as [Ha ?], Hb as [Hb ?]. apply log2_range; [done|by apply Z.lor_nonneg|]. intros Hp.
  rewrite Z.log2_lor by done. pose proof (Z.log2_nonneg a). pose proof (Z.log2_nonneg b).
  destruct (decide (a = 0)) as [->|], (decide (b = 0)) as [->|];
    rewrite ?Z.lor_0_l, ?Z.lor_0_r in *; change (Z.log2 0) with 0 in *; lia.
Qed.
Lemma lxor_range w a b : 0 ≤ w → in_range w a → in_range w b → in_range w (Z.lxor a b).
Proof.
  intros Hw Ha Hb. pose proof (range_log2 _ _ Ha). pose proof (range_log2 _ _ Hb).
  destruct Ha as [Ha ?], Hb as [Hb ?].
  apply log2_range; [done|by apply Z.lxor_nonneg|]. intros Hp.
  pose proof (Z.log2_lxor a b Ha Hb).
  destruct (decide (a = 0)) as [->|], (decide (b = 0)) as [->|];
    rewrite ?Z.lxor_0_l, ?Z.lxor_0_r in *; try lia.
Qed.

(** Masking with a value whose low [k] bits are the mask is the remainder. *)
Lemma land_mask_low a m w k :
  0 ≤ k → 0 ≤ w → in_range w a → Z.land (Z.ones w) m = Z.ones k →
  Z.land a m = a mod 2 ^ k.
Proof.
  intros Hk Hw Ha Hm.
  rewrite <-(wrap_small w a Ha) at 1. unfold wrap.
  rewrite <-Z.land_ones, <-Z.land_assoc, Hm by done. by apply Z.land_ones.
Qed.

(** Disjoint high and low parts: [|] is [+]. *)
Lemma lor_low_high a b k :
  0 ≤ k → in_range k a → Z.lor a (b * 2 ^ k) = a + b * 2 ^ k.
Proof.
  intros Hk Ha. symmetry. apply Z.add_nocarry_lor.
  apply Z.bits_inj'. intros n Hn. rewrite Z.land_spec, Z.bits_0.
  destruct (decide (n < k)).
  - rewrite Z.mul_pow2_bits_low by lia. apply andb_false_r.
  - replace (Z.testbit a n) with false; [done|]. symmetry.
    rewrite <-(wrap_small k a Ha). unfold wrap. apply Z.mod_pow2_bits_high. lia.
Qed.

Lemma elem_of_range x lo hi : x ∈ range lo hi ↔ lo ≤ x < hi.
Proof. unfold range. rewrite elem_of_seqZ. lia. Qed.

Lemma range_nil lo hi : hi ≤ lo → range lo hi = [].
Proof. intros. apply seqZ_nil. lia. Qed.
Lemma range_cons lo hi : lo < hi → range lo hi = lo :: range (lo + 1) hi.
Proof.
  intros. unfold range. rewrite seqZ_cons by lia. f_equal. f_equal; lia.
Qed.
Lemma range_snoc lo hi : lo < hi → range lo hi = range lo (hi - 1) ++ [hi - 1].
Proof.
  intros. unfold range.
  replace (hi - lo) with ((hi - 1 - lo) + 1) by lia.
  rewrite seqZ_app by lia. f_equal. rewrite seqZ_cons by lia.
  rewrite seqZ_nil by lia. f_equal. lia.
Qed.
