(* ===== verification/Platform.v ===== *)
(** * Address-space layout ([dfsan_platform.h], [shadow_for] and [app_for] of [dfsan.h])

    The runtime splits the 64-bit address space into application memory, the
    shadow memory (one 4-byte label per application byte), the union table and
    the hash table. The file models the mapping constants of every supported
    architecture, the two address translations, and proves the layout
    consistent on x86_64 (and shows it is not for some of the others). *)
From S2P Require Import Prelude.

(** [struct Mapping], [Mapping39], [Mapping42], [Mapping48] *)
Record Mapping := {
  kShadowAddr : Z;
  kUnionTableAddr : Z;
  kHashTableAddr : Z;
  kAppAddr : Z;
  kAppBaseAddr : Z;
  kShadowMask : Z;
}.

Definition Mapping_x86_64 : Mapping := {|
  kShadowAddr := 0x10000;
  kUnionTableAddr := 0x400000000000;
  kHashTableAddr := 0x400c00000000;
  kAppAddr := 0x700000040000;
  kAppBaseAddr := 0x700000000000;
  kShadowMask := u64 (Z.lnot 0x700000000000);
|}.
Definition Mapping_mips64 : Mapping := {|
  kShadowAddr := 0x10000;
  kUnionTableAddr := 0x2000000000;
  kHashTableAddr := 0x3000000000;
  kAppAddr := 0xF000008000;
  kAppBaseAddr := 0xF000000000;
  kShadowMask := u64 (Z.lnot 0xF000000000);
|}.
Definition Mapping39 : Mapping := {|
  kShadowAddr := 0x10000;
  kUnionTableAddr := 0x1000000000;
  kHashTableAddr := 0x2000000000;
  kAppAddr := 0x7000008000;
  kAppBaseAddr := 0x7000000000;
  kShadowMask := u64 (Z.lnot 0x7800000000);
|}.
Definition Mapping42 : Mapping := {|
  kShadowAddr := 0x10000;
  kUnionTableAddr := 0x8000000000;
  kHashTableAddr := 0x9000000000;
  kAppAddr := 0x3ff00008000;
  kAppBaseAddr := 0x3ff00000000;
  kShadowMask := u64 (Z.lnot 0x3c000000000);
|}.
Definition Mapping48 : Mapping := {|
  kShadowAddr := 0x10000;
  kUnionTableAddr := 0x8000000000;
  kHashTableAddr := 0x9000000000;
  kAppAddr := 0xffff00008000;
  kAppBaseAddr := 0xffff00000000;
  kShadowMask := u64 (Z.lnot 0xfffff0000000);
|}.

Inductive MappingType :=
| MAPPING_SHADOW_ADDR
| MAPPING_UNION_TABLE_ADDR
| MAPPING_APP_ADDR
| MAPPING_APP_BASE_ADDR
| MAPPING_SHADOW_MASK
| MAPPING_HASH_TABLE_ADDR.

Definition MappingImpl (m : Mapping) (type : MappingType) : Z :=
  match type with
  | MAPPING_SHADOW_ADDR => kShadowAddr m
  | MAPPING_UNION_TABLE_ADDR => kUnionTableAddr m
  | MAPPING_APP_ADDR => kAppAddr m
  | MAPPING_APP_BASE_ADDR => kAppBaseAddr m
  | MAPPING_SHADOW_MASK => kShadowMask m
  | MAPPING_HASH_TABLE_ADDR => kHashTableAddr m
  end.

(** The preprocessor's choice of architecture; on aarch64 the VMA size is found
    at run time. *)
Inductive arch := x86_64 | mips64 | aarch64 (vmaSize : Z).

Definition MappingArchImpl (a : arch) (type : MappingType) : Z :=
  match a with
  | x86_64 => MappingImpl Mapping_x86_64 type
  | mips64 => MappingImpl Mapping_mips64 type
  | aarch64 vmaSize =>
      if vmaSize =? 39 then MappingImpl Mapping39 type
      else if vmaSize =? 42 then MappingImpl Mapping42 type
      else if vmaSize =? 48 then MappingImpl Mapping48 type
      else 0
  end.

(** The accessors, on the architecture the README names (Linux-amd64). *)
Definition ShadowAddr : Z := MappingArchImpl x86_64 MAPPING_SHADOW_ADDR.
Definition UnionTableAddr : Z := MappingArchImpl x86_64 MAPPING_UNION_TABLE_ADDR.
Definition AppAddr : Z := MappingArchImpl x86_64 MAPPING_APP_ADDR.
Definition ShadowMask : Z := MappingArchImpl x86_64 MAPPING_SHADOW_MASK.
Definition HashTableAddr : Z := MappingArchImpl x86_64 MAPPING_HASH_TABLE_ADDR.
Definition AppBaseAddr : Z := MappingArchImpl x86_64 MAPPING_APP_BASE_ADDR.

(** [hashtable_size] and [UnusedAddr] of [dfsan.cc]. *)
Definition hashtable_size : Z := 2 ^ 32.
Definition UnusedAddr : Z :=
  MappingArchImpl x86_64 MAPPING_HASH_TABLE_ADDR + hashtable_size.

(** Address translation, for a mapping [a] and on x86_64. *)
Definition shadow_for_arch (a : arch) (ptr : Z) : Z :=
  u64 (Z.shiftl (Z.land ptr (MappingArchImpl a MAPPING_SHADOW_MASK)) 2).
Definition shadow_for (ptr : Z) : Z :=
  u64 (Z.shiftl (Z.land ptr ShadowMask) 2).
Definition app_for (l : Z) : Z := Z.lor (Z.shiftr l 2) AppBaseAddr.

(** The application addresses of x86_64: from [kAppAddr] to the top of the
    user half of the address space, [0x800000000000]. *)
Definition app_addr (ptr : Z) : Prop := AppAddr ≤ ptr < 2 ^ 47.
#[export] Instance app_addr_dec ptr : Decision (app_addr ptr) := _.

(** ** Lemmas *)
Lemma shadow_for_app ptr :
  AppBaseAddr ≤ ptr < 2 ^ 47 → shadow_for ptr = 4 * (ptr - AppBaseAddr).
Proof.
  intros Hp. assert (AppBaseAddr = 7 * 2 ^ 44) as HB by reflexivity.
  unfold shadow_for. rewrite (land_mask_low ptr ShadowMask 47 44); [|lia..| |reflexivity].
  2:{ unfold in_range. lia. }
  assert (ptr mod 2 ^ 44 = ptr - AppBaseAddr) as ->.
  { symmetry. apply (Z.mod_unique_pos _ _ 7); lia. }
  rewrite Z.shiftl_mul_pow2 by lia. unfold u64. rewrite wrap_small; [lia|].
  unfold in_range. lia.
Qed.

(** The shadow slot [4 * k] below [4 * 2^44] translates back. *)
Lemma app_for_slot k : in_range 44 k → app_for (4 * k) = AppBaseAddr + k.
Proof.
  intros Hk. unfold app_for. rewrite Z.shiftr_div_pow2 by lia.
  replace (4 * k / 2 ^ 2) with k by (apply (Z.div_unique _ _ _ 0); lia).
  change AppBaseAddr with (7 * 2 ^ 44). rewrite lor_low_high by (done || lia). lia.
Qed.

Lemma shadow_for_add ptr i :
  AppBaseAddr ≤ ptr → 0 ≤ i → ptr + i < 2 ^ 47 →
  shadow_for (ptr + i) = shadow_for ptr + 4 * i.
Proof. intros. rewrite !shadow_for_app by lia. lia. Qed.

(** ** Properties *)

(** On x86_64 the shadow translation is invertible on application
    addresses: [app_for] recovers from a shadow slot the application byte it
    labels. *)
Theorem app_for_shadow_for ptr : app_addr ptr → app_for (shadow_for ptr) = ptr.
Proof.
  intros [Hl Hh]. assert (AppAddr = 7 * 2 ^ 44 + 0x40000) as HA by reflexivity.
  assert (AppBaseAddr = 7 * 2 ^ 44) as HB by reflexivity.
  rewrite shadow_for_app, app_for_slot; [lia| |lia]. unfold in_range. lia.
Qed.

Lemma app_for_shadow_for_witness :
  app_for (shadow_for 0x7fffffffe010) = 0x7fffffffe010.
Proof. apply app_for_shadow_for. split; vm_compute; congruence. Defined.

(** On x86_64 the layout is consistent: the shadow of an application byte
    is a 4-byte slot inside the shadow region, below the union table; distinct
    application bytes have distinct, non-overlapping slots; and the regions
    (shadow, union table, hash table, unused, application) come in this order
    without overlap. *)
Theorem shadow_layout_x86_64 p q :
  app_addr p → app_addr q →
  (ShadowAddr ≤ shadow_for p ∧ shadow_for p + 4 ≤ UnionTableAddr) ∧
  (p ≠ q → shadow_for p + 4 ≤ shadow_for q ∨ shadow_for q + 4 ≤ shadow_for p) ∧
  ShadowAddr < UnionTableAddr < HashTableAddr ∧
  HashTableAddr < UnusedAddr < AppAddr.
Proof.
  intros [Hp1 Hp2] [Hq1 Hq2].
  assert (AppAddr = 7 * 2 ^ 44 + 0x40000) as HA by reflexivity.
  assert (AppBaseAddr = 7 * 2 ^ 44) as HB by reflexivity.
  assert (ShadowAddr = 0x10000) as HS by reflexivity.
  assert (UnionTableAddr = 4 * 2 ^ 44) as HU by reflexivity.
  rewrite !shadow_for_app by lia.
  repeat split; try lia; vm_compute; congruence.
Qed.

Lemma shadow_layout_x86_64_witness :
  shadow_for AppAddr + 4 ≤ shadow_for (AppAddr + 1) ∨
  shadow_for (AppAddr + 1) + 4 ≤ shadow_for AppAddr.
Proof.
  apply (shadow_layout_x86_64 AppAddr (AppAddr + 1));
    [split; vm_compute; congruence..|]. vm_compute. congruence.
Defined.

(** The 4-byte labels double the size of the shadow, which the mappings
    of mips64 and of aarch64 with a 39- or 42-bit VMA do not leave room for:
    each has an application address whose shadow slot does not lie below the
    union table. *)
Theorem shadow_overlaps_union_table :
  Forall (λ '(a, ptr),
    MappingArchImpl a MAPPING_APP_ADDR ≤ ptr ∧
    MappingArchImpl a MAPPING_UNION_TABLE_ADDR ≤ shadow_for_arch a ptr)
    [(mips64, 0xF800000000); (aarch64 39, 0x7400000000); (aarch64 42, 0x3ff00008000)].
Proof. repeat constructor; vm_compute; congruence. Qed.
