(* ===== verification/Labels.v ===== *)
(** * Labels, operators and the label-info record ([dfsan.h])

    A label is a 32-bit index into the union table; label 0 is the constant
    label and [-1] the initializing label. A label's record holds the operator
    that produced it with its operands: two labels [l1], [l2] and two concrete
    values [op1], [op2]. The operator numbers of LLVM come from
    [llvm/IR/Instruction.def], which is not part of the repository: they are
    the fields of a class, with the facts the runtime relies on as its laws. *)
From S2P Require Import Prelude.

(** [enum operators]: the LLVM opcodes the runtime names. *)
Class LlvmOps := {
  op_Add : Z; op_Sub : Z; op_Mul : Z; op_UDiv : Z; op_SDiv : Z; op_URem : Z;
  op_SRem : Z; op_Shl : Z; op_LShr : Z; op_AShr : Z; op_And : Z; op_Or : Z;
  op_Xor : Z; op_Trunc : Z; op_ZExt : Z; op_SExt : Z; op_ICmp : Z;
  last_llvm_op : Z;
  (** the opcodes are distinct, above the self-defined [Not] and [Neg], and all
      operators fit in the low byte of the [op] field *)
  llvm_ops_nodup :
    NoDup [op_Add; op_Sub; op_Mul; op_UDiv; op_SDiv; op_URem; op_SRem; op_Shl;
           op_LShr; op_AShr; op_And; op_Or; op_Xor; op_Trunc; op_ZExt; op_SExt;
           op_ICmp];
  llvm_ops_range :
    Forall (λ o, 2 < o ≤ last_llvm_op)
      [op_Add; op_Sub; op_Mul; op_UDiv; op_SDiv; op_URem; op_SRem; op_Shl;
       op_LShr; op_AShr; op_And; op_Or; op_Xor; op_Trunc; op_ZExt; op_SExt;
       op_ICmp];
  last_llvm_op_bound : last_llvm_op + 8 < 256;
}.

(** The numbering of LLVM 7's [Instruction.def]. *)
#[export] Program Instance llvm7 : LlvmOps := {|
  op_Add := 11; op_Sub := 13; op_Mul := 15; op_UDiv := 17; op_SDiv := 18;
  op_URem := 20; op_SRem := 21; op_Shl := 23; op_LShr := 24; op_AShr := 25;
  op_And := 26; op_Or := 27; op_Xor := 28; op_Trunc := 36; op_ZExt := 37;
  op_SExt := 38; op_ICmp := 51; last_llvm_op := 64
|}.
Next Obligation. apply (bool_decide_unpack _). by vm_compute. Qed.
Next Obligation. repeat constructor; lia. Qed.
Next Obligation. done. Qed.

Definition CONST_OFFSET : Z := 1.
Definition CONST_LABEL : Z := 0.
Definition B_FLIPPED : Z := 1.
Definition PATH_MAX : Z := 4096.
(** [static const dfsan_label kInitializingLabel = -1] *)
Definition kInitializingLabel : Z := u32 (-1).

Section operators.
Context {Ops : LlvmOps}.
Definition op_Not : Z := 1.
Definition op_Neg : Z := 2.
Definition op_Load : Z := last_llvm_op + 3.
Definition op_Extract : Z := last_llvm_op + 4.
Definition op_Concat : Z := last_llvm_op + 5.
Definition op_fmemcmp : Z := last_llvm_op + 6.
Definition op_fsize : Z := last_llvm_op + 7.
Definition op_fcrc32 : Z := last_llvm_op + 8.

(** [static inline bool is_commutative(unsigned char op)]: the argument is
    truncated to 8 bits at the call. *)
Definition is_commutative (op : Z) : bool :=
  let op := u8 op in
  (op =? op_Not) || (op =? op_And) || (op =? op_Or) || (op =? op_Xor)
  || (op =? op_Add) || (op =? op_Mul) || (op =? op_fmemcmp).
End operators.

(** [enum predicate]: LLVM's integer predicates. *)
Definition bveq : Z := 32.
Definition bvneq : Z := 33.
Definition bvugt : Z := 34.
Definition bvuge : Z := 35.
Definition bvult : Z := 36.
Definition bvule : Z := 37.
Definition bvsgt : Z := 38.
Definition bvsge : Z := 39.
Definition bvslt : Z := 40.
Definition bvsle : Z := 41.

(** [struct dfsan_label_info]; [E] is the type of Z3 expressions, [expr] and
    [deps] are null pointers ([None]) until the label is serialized. *)
Record dfsan_label_info (E : Type) := LabelInfo {
  li_l1 : Z;
  li_l2 : Z;
  li_op1 : Z;
  li_op2 : Z;
  li_op : Z;
  li_size : Z;
  li_flags : Z;
  li_tree_size : Z;
  li_hash : Z;
  li_expr : option E;
  li_deps : option (gset Z);
}.
Arguments LabelInfo {E}.
Arguments li_l1 {E}. Arguments li_l2 {E}. Arguments li_op1 {E}.
Arguments li_op2 {E}. Arguments li_op {E}. Arguments li_size {E}.
Arguments li_flags {E}. Arguments li_tree_size {E}. Arguments li_hash {E}.
Arguments li_expr {E}. Arguments li_deps {E}.

(** [sizeof(dfsan_label_info)] on LP64: two [u32], two [u64], two [u16], a
    [u8] padded to a word, two [u32] and two pointers. *)
Definition sizeof_label_info : Z := 4 + 4 + 8 + 8 + 2 + 2 + (1 + 3) + 4 + 4 + 8 + 8.

Section label_info.
Context {E : Type}.
Implicit Types i j : dfsan_label_info E.

Definition zero_info : dfsan_label_info E :=
  LabelInfo 0 0 0 0 0 0 0 0 0 None None.

Definition set_size (n : Z) i : dfsan_label_info E :=
  LabelInfo (li_l1 i) (li_l2 i) (li_op1 i) (li_op2 i) (li_op i) n
    (li_flags i) (li_tree_size i) (li_hash i) (li_expr i) (li_deps i).
Definition set_op1 (v : Z) i : dfsan_label_info E :=
  LabelInfo (li_l1 i) (li_l2 i) v (li_op2 i) (li_op i) (li_size i)
    (li_flags i) (li_tree_size i) (li_hash i) (li_expr i) (li_deps i).
Definition set_flags (f : Z) i : dfsan_label_info E :=
  LabelInfo (li_l1 i) (li_l2 i) (li_op1 i) (li_op2 i) (li_op i) (li_size i)
    f (li_tree_size i) (li_hash i) (li_expr i) (li_deps i).
Definition set_tree_size (n : Z) i : dfsan_label_info E :=
  LabelInfo (li_l1 i) (li_l2 i) (li_op1 i) (li_op2 i) (li_op i) (li_size i)
    (li_flags i) n (li_hash i) (li_expr i) (li_deps i).
Definition set_cache (e : E) (d : gset Z) i : dfsan_label_info E :=
  LabelInfo (li_l1 i) (li_l2 i) (li_op1 i) (li_op2 i) (li_op i) (li_size i)
    (li_flags i) (li_tree_size i) (li_hash i) (Some e) (Some d).
Definition set_hash (h : Z) i : dfsan_label_info E :=
  LabelInfo (li_l1 i) (li_l2 i) (li_op1 i) (li_op2 i) (li_op i) (li_size i)
    (li_flags i) (li_tree_size i) h (li_expr i) (li_deps i).

(** The part of the record that identifies the expression of a label. *)
Definition ikey : Type := Z * Z * Z * Z * Z * Z.
Definition key_of i : Z * Z * Z * Z * Z * Z :=
  (li_l1 i, li_l2 i, li_op i, li_size i, li_op1 i, li_op2 i).

(** [operator==] of [union_util.cc] *)
Definition info_eqb i j : bool :=
  (li_l1 i =? li_l1 j) && (li_l2 i =? li_l2 j) && (li_op i =? li_op j)
  && (li_size i =? li_size j) && (li_op1 i =? li_op1 j)
  && (li_op2 i =? li_op2 j).

Lemma info_eqb_spec i j : info_eqb i j = true ↔ key_of i = key_of j.
Proof.
  unfold info_eqb, key_of. rewrite !andb_true_iff, !Z.eqb_eq. split.
  - by intros (((((-> & ->) & ->) & ->) & ->) & ->).
  - by intros [= -> -> -> -> -> ->].
Qed.
End label_info.

(** [struct taint_file]; [filename] is the resolved path, [buf] the mapped
    copy of the input ([None]: no mapping). *)
Record taint_file := TaintFile {
  tf_filename : string;
  tf_fd : Z;
  tf_offset : Z;
  tf_offset_label : Z;
  tf_label : Z;
  tf_size : Z;
  tf_is_stdin : Z;
  tf_is_utmp : Z;
  tf_buf : option (list Z);
  tf_buf_size : Z;
}.

(** ** Facts about the operator numbers *)
Section operator_facts.
Context {Ops : LlvmOps}.

Lemma llvm_op_bounds :
  2 < op_Add ≤ last_llvm_op ∧
  2 < op_Sub ≤ last_llvm_op ∧
  2 < op_Mul ≤ last_llvm_op ∧
  2 < op_UDiv ≤ last_llvm_op ∧
  2 < op_SDiv ≤ last_llvm_op ∧
  2 < op_URem ≤ last_llvm_op ∧
  2 < op_SRem ≤ last_llvm_op ∧
  2 < op_Shl ≤ last_llvm_op ∧
  2 < op_LShr ≤ last_llvm_op ∧
  2 < op_AShr ≤ last_llvm_op ∧
  2 < op_And ≤ last_llvm_op ∧
  2 < op_Or ≤ last_llvm_op ∧
  2 < op_Xor ≤ last_llvm_op ∧
  2 < op_Trunc ≤ last_llvm_op ∧
  2 < op_ZExt ≤ last_llvm_op ∧
  2 < op_SExt ≤ last_llvm_op ∧
  2 < op_ICmp ≤ last_llvm_op.
Proof. pose proof llvm_ops_range as H. rewrite !Forall_cons in H. tauto. Qed.

Lemma last_llvm_op_lower : 2 < last_llvm_op.
Proof. pose proof llvm_op_bounds. lia. Qed.
End operator_facts.

(** Arithmetic on operator numbers: bounds of the LLVM opcodes, and the
    definitions of the self-defined ones. *)
Ltac op_lia :=
  pose proof llvm_op_bounds; pose proof last_llvm_op_bound;
  unfold op_Not, op_Neg, op_Load, op_Extract, op_Concat, op_fmemcmp, op_fsize, op_fcrc32 in *;
  lia.

(** Decides the tests on operator numbers at the head of the goal's [if]s. *)
Ltac op_test :=
  match goal with
  | |- context [?a =? ?b] =>
      first [ rewrite (proj2 (Z.eqb_neq a b)) by op_lia | rewrite (proj2 (Z.eqb_eq a b)) by op_lia ]
  end.
Ltac op_tests := repeat op_test.
