(* ===== verification/Allocator.v ===== *)
(** * The hash table's bump allocator ([taint_allocator.cc])

    Allocation never frees: [next_usable_byte] moves from [begin] towards
    [end]. The abstract promise is that the returned blocks are disjoint and
    inside the region; [alloc_all] performs a sequence of allocations to state
    it. *)
From S2P Require Import Prelude.

Record allocator := Allocator {
  begin_addr : Z;
  next_usable_byte : Z;
  end_addr : Z;
}.

(** The static variables before [allocator_init]. *)
Definition allocator_static : allocator := Allocator 0 0 0.

Definition allocator_init (begin end_ : Z) : M allocator () :=
  put (Allocator begin begin end_).

Definition allocator_alloc (size : Z) : M allocator Z :=
  a ← get;
  if begin_addr a =? 0 then die "Allocator not initialized" else
  let retval := next_usable_byte a in
  put (Allocator (begin_addr a) (u64 (retval + size)) (end_addr a)) ;;
  if end_addr a <=? u64 (retval + size) then die "Allocate size exceeded"
  else mret retval.

Definition allocator_dealloc (addr : Z) : M allocator () := mret ().

(** A run of allocations. *)
Fixpoint alloc_all (sizes : list Z) : M allocator (list Z) :=
  match sizes with
  | [] => mret []
  | n :: sizes => p ← allocator_alloc n; ps ← alloc_all sizes; mret (p :: ps)
  end.

(** The allocator has been initialized with a region of the address space. *)
Definition alloc_wf (a : allocator) : Prop :=
  0 < begin_addr a ≤ next_usable_byte a ∧
  next_usable_byte a < end_addr a ∧ end_addr a < 2 ^ 63.

Definition block_in (a : allocator) (b : Z * Z) : Prop :=
  next_usable_byte a ≤ b.1 ∧ b.1 + b.2 < end_addr a.
Definition blocks_disjoint (b c : Z * Z) : Prop := b.1 + b.2 ≤ c.1 ∨ c.1 + c.2 ≤ b.1.

(** What a sequence of allocations promises: pairwise disjoint blocks of the
    requested sizes. *)
Fixpoint disjoint_blocks (bs : list (Z * Z)) : Prop :=
  match bs with
  | [] => True
  | b :: bs => Forall (blocks_disjoint b) bs ∧ disjoint_blocks bs
  end.

(** The total size of a list of requests. *)
Definition total (sizes : list Z) : Z := foldr Z.add 0 sizes.

(** ** Behaviour of one allocation *)
Lemma alloc_ok a n :
  alloc_wf a → 0 ≤ n < 2 ^ 63 → next_usable_byte a + n < end_addr a →
  allocator_alloc n a =
    Ret (next_usable_byte a)
        (Allocator (begin_addr a) (next_usable_byte a + n) (end_addr a)).
Proof.
  intros (Hb & Hn & He) Hs Hlt. unfold allocator_alloc, mbind, M_bind, get, put.
  rewrite (proj2 (Z.eqb_neq _ _)) by lia. unfold u64.
  rewrite wrap_small by (unfold in_range; lia).
  by rewrite (proj2 (Z.leb_gt _ _)) by lia.
Qed.

Lemma alloc_exhausted a n :
  alloc_wf a → 0 ≤ n < 2 ^ 63 → end_addr a ≤ next_usable_byte a + n →
  ∃ a', allocator_alloc n a = Halt (HDie "Allocate size exceeded") a'.
Proof.
  intros (Hb & Hn & He) Hs Hlt. unfold allocator_alloc, mbind, M_bind, get, put.
  rewrite (proj2 (Z.eqb_neq _ _)) by lia. unfold u64.
  rewrite wrap_small by (unfold in_range; lia).
  rewrite (proj2 (Z.leb_le _ _)) by lia. eauto.
Qed.

Lemma alloc_uninitialized n :
  allocator_alloc n allocator_static = Halt (HDie "Allocator not initialized") allocator_static.
Proof. done. Qed.

Lemma total_nonneg sizes : Forall (λ n, 0 ≤ n < 2 ^ 63) sizes → 0 ≤ total sizes.
Proof. induction 1; simpl; [done|]. unfold total in *. lia. Qed.

(** Refinement of the allocator's promise: from an initialized allocator, a
    sequence of requests that fits in the region (one byte is kept free by the
    [>=] test) returns blocks of the requested sizes that lie in the region and
    do not overlap. *)
Theorem alloc_all_disjoint a sizes :
  alloc_wf a → Forall (λ n, 0 ≤ n < 2 ^ 63) sizes →
  next_usable_byte a + total sizes < end_addr a →
  ∃ ps a', alloc_all sizes a = Ret ps a' ∧ alloc_wf a' ∧
    length ps = length sizes ∧
    Forall (block_in a) (zip ps sizes) ∧ disjoint_blocks (zip ps sizes) ∧
    next_usable_byte a' = next_usable_byte a + total sizes.
Proof.
  intros Hwf Hs. revert a Hwf. induction Hs as [|n sizes Hn Hs IH]; intros a Hwf Hfit.
  { exists [], a. simpl. unfold total. simpl. auto with lia. }
  pose proof (total_nonneg _ Hs) as Ht. unfold total in Hfit, Ht; simpl in Hfit.
  fold (total sizes) in Hfit, Ht. cbn [alloc_all]. unfold mbind, M_bind at 1.
  rewrite alloc_ok by (done || lia).
  set (a1 := Allocator _ _ _).
  destruct (IH a1) as (ps & a' & Hrun & Hwf' & Hlen & Hin & Hdis & Hnext).
  { destruct Hwf as (?&?&?). repeat split; simpl; lia. }
  { simpl. lia. }
  exists (next_usable_byte a :: ps), a'. unfold M_bind. rewrite Hrun.
  split; [done|]. split; [done|]. split; [simpl; by rewrite Hlen|]. simpl.
  assert (Forall (block_in a) (zip ps sizes)) as Hin'.
  { eapply Forall_impl; [exact Hin|]. intros [p m] [H1 H2]. split; simpl in *; lia. }
  split_and!; [| |done|].
  - constructor; [|done]. split; simpl; lia.
  - eapply Forall_impl; [exact Hin|]. intros [p m] [H1 H2]. left. simpl in *. lia.
  - simpl in Hnext. rewrite Hnext. unfold total. simpl. lia.
Qed.

Lemma alloc_all_disjoint_witness :
  ∃ ps a', alloc_all [24; 24; 8] (Allocator 4096 4096 8192) = Ret ps a' ∧
    alloc_wf a' ∧ length ps = 3%nat ∧
    Forall (block_in (Allocator 4096 4096 8192)) (zip ps [24; 24; 8]) ∧
    disjoint_blocks (zip ps [24; 24; 8]) ∧ next_usable_byte a' = 4096 + 56.
Proof.
  apply (alloc_all_disjoint (Allocator 4096 4096 8192) [24; 24; 8]).
  - unfold alloc_wf. simpl. lia.
  - repeat constructor; lia.
  - vm_compute. reflexivity.
Defined.
