(* ===== verification/UnionTable.v ===== *)
(** * The union hash table ([union_hashtable.cc], [union_util.cc])

    The table maps the identifying part of a label-info record to the label
    that already stands for it. It is modelled as the code lays it out: an
    array of bucket heads, and list nodes in memory obtained from the bump
    allocator, whose [key] fields are pointers into the label-info array. The
    abstract specification is a finite map from keys to labels; [table_rep]
    relates the two, and [lookup] and [insert] are proved to implement the map's
    lookup and insertion. *)
From S2P Require Import Prelude Labels Allocator.

(** [class option] *)
Record taint_option := TaintOption { isa : bool; content : Z }.
Definition some_dfsan_label (x : Z) : taint_option := TaintOption true x.
Definition none : taint_option := TaintOption false 0.
Definition option_eqb (lhs rhs : taint_option) : bool :=
  if negb (isa lhs) then negb (isa rhs)
  else isa rhs && (content lhs =? content rhs).
Definition option_neqb (lhs rhs : taint_option) : bool := negb (option_eqb lhs rhs).
Definition option_deref (o : taint_option) : Z := content o.

(** [struct union_hashtable_entry]: [key] points to [__dfsan_label_info[n_key]]. *)
Record union_hashtable_entry := Entry {
  n_key : Z;
  n_entry : Z;
  n_next : Z;
}.

(** [class union_hashtable] with the memory it owns: [cells] is the bucket
    array (a missing cell is a null pointer), [nodes] the entries by address. *)
Record union_hashtable := UnionHashtable {
  bucket : Z;
  bucket_size : Z;
  cells : gmap Z Z;
  nodes : gmap Z union_hashtable_entry;
}.

Definition sizeof_ptr : Z := 8.
Definition sizeof_entry : Z := 8 + (4 + 4) + 8.

(** The label store: the counter [__dfsan_last_label], the array
    [__dfsan_label_info] (zero-filled memory: a missing entry is all zeroes),
    the union table and the allocator behind it. *)
Record lstate (E : Type) := LState {
  last_label : Z;
  infos : gmap Z (dfsan_label_info E);
  table : union_hashtable;
  alloc : allocator;
}.
Arguments LState {E}.
Arguments last_label {E}. Arguments infos {E}. Arguments table {E}.
Arguments alloc {E}.

Section table.
Context {E : Type}.
Implicit Type ls : lstate E.
Implicit Type i : dfsan_label_info E.

Definition info_at ls (l : Z) : dfsan_label_info E := default zero_info (infos ls !! l).
Definition cell (t : union_hashtable) (idx : Z) : Z := default 0 (cells t !! idx).

Definition set_last (n : Z) ls : lstate E := LState n (infos ls) (table ls) (alloc ls).
Definition set_info (l : Z) i ls : lstate E :=
  LState (last_label ls) (<[l := i]> (infos ls)) (table ls) (alloc ls).
Definition set_table (t : union_hashtable) ls : lstate E :=
  LState (last_label ls) (infos ls) t (alloc ls).
Definition set_alloc (a : allocator) ls : lstate E :=
  LState (last_label ls) (infos ls) (table ls) a.

Definition lalloc (n : Z) : M (lstate E) Z :=
  zoom alloc set_alloc (allocator_alloc n).

(** The constructor: [memset] leaves every bucket null. *)
Definition union_hashtable_new (n : Z) : M (lstate E) () :=
  b ← lalloc (n * sizeof_ptr);
  modify (λ ls, set_table (UnionHashtable b n ∅ (nodes (table ls))) ls).

(** [union_hashtable::hash]: [l1 + l2] is a 32-bit sum, the rest 64 bits. *)
Definition hash (t : union_hashtable) i : Z :=
  Z.land
    (Z.lxor
      (Z.lxor (u64 (u64 (u32 (li_l1 i + li_l2 i) + li_op1 i) + li_op2 i))
              (Z.shiftl (li_op i) 3))
      (li_size i))
    (bucket_size t - 1).

(** [union_hashtable::insert(&__dfsan_label_info[key], entry)] *)
Definition insert_entry (key entry : Z) : M (lstate E) () :=
  index ← gets (λ ls, hash (table ls) (info_at ls key));
  curr ← lalloc sizeof_entry;
  modify (λ ls,
    let t := table ls in
    set_table
      (UnionHashtable (bucket t) (bucket_size t) (<[index := curr]> (cells t))
         (<[curr := Entry key entry (cell t index)]> (nodes t))) ls).

(** The [while (curr)] walk of [union_hashtable::lookup]. *)
Fixpoint lookup_from (fuel : nat) (curr : Z) i : M (lstate E) taint_option :=
  if curr =? 0 then mret none else
  match fuel with
  | O => out_of_fuel
  | S fuel =>
      ls ← get;
      match nodes (table ls) !! curr with
      | None => segv
      | Some n =>
          if info_eqb (info_at ls (n_key n)) i
          then mret (some_dfsan_label (n_entry n))
          else lookup_from fuel (n_next n) i
      end
  end.

(** [union_hashtable::lookup]; the walk visits each node at most once, so the
    number of nodes bounds it. *)
Definition lookup_entry i : M (lstate E) taint_option :=
  ls ← get;
  let t := table ls in
  lookup_from (S (size (nodes t))) (cell t (hash t i)) i.

(** ** The abstract table *)

(** A null-terminated list of nodes; addresses decrease along [next]. *)
Inductive chain (ns : gmap Z union_hashtable_entry) : Z → list union_hashtable_entry → Prop :=
| chain_nil : chain ns 0 []
| chain_cons p n l :
    ns !! p = Some n → 0 ≤ n_next n < p → chain ns (n_next n) l → chain ns p (n :: l).

Definition node_key ls (n : union_hashtable_entry) := key_of (info_at ls (n_key n)).

(** [table_rep ls m]: the table represents the map [m]. *)
Record table_rep ls (m : gmap (Z * Z * Z * Z * Z * Z) Z) : Prop := {
  rep_alloc : alloc_wf (alloc ls);
  rep_addr p n : nodes (table ls) !! p = Some n →
    0 < p < next_usable_byte (alloc ls);
  rep_chain idx : ∃ l, chain (nodes (table ls)) (cell (table ls) idx) l ∧
    Forall (λ n, hash (table ls) (info_at ls (n_key n)) = idx) l;
  rep_sound idx l n : chain (nodes (table ls)) (cell (table ls) idx) l → n ∈ l →
    m !! node_key ls n = Some (n_entry n);
  rep_complete k e : m !! k = Some e → ∃ idx l n,
    chain (nodes (table ls)) (cell (table ls) idx) l ∧ n ∈ l ∧
    node_key ls n = k ∧ n_entry n = e;
}.

(** ** Lemmas *)
Lemma hash_key t i j : key_of i = key_of j → hash t i = hash t j.
Proof. intros [= H1 H2 H3 H4 H5 H6]. unfold hash. by rewrite H1, H2, H3, H4, H5, H6. Qed.

Lemma chain_det ns p l l' : chain ns p l → chain ns p l' → l = l'.
Proof.
  intros H. revert l'. induction H as [|p n l Hn Hlt Hc IH]; intros l' H'.
  - inversion H'; [done|lia].
  - inversion H' as [|? n' ? Hn']; [subst; lia|]. simplify_eq. f_equal. by apply IH.
Qed.

Lemma chain_insert ns p l q e :
  chain ns p l → ns !! q = None → chain (<[q := e]> ns) p l.
Proof.
  intros H Hq. induction H as [|p n l Hn Hlt Hc IH]; [constructor|].
  econstructor; [|done..]. rewrite lookup_insert_ne; [done|]. intros ->. congruence.
Qed.

(** A chain has no more nodes than the memory: its addresses are distinct. *)
Lemma chain_addrs ns p l : chain ns p l → ∃ ps : list Z,
  length ps = length l ∧ NoDup ps ∧ Forall (λ q, q ∈ dom ns ∧ q ≤ p) ps.
Proof.
  induction 1 as [|p n l Hn Hlt Hc (ps & Hlen & Hnd & Hps)].
  { exists []. by split_and!; [|constructor|constructor]. }
  exists (p :: ps). split_and!; [simpl; by rewrite Hlen| |].
  - constructor; [|done]. intros Hin. rewrite Forall_forall in Hps.
    destruct (Hps _ Hin). lia.
  - constructor; [split; [by apply elem_of_dom_2 in Hn|lia]|].
    eapply Forall_impl; [exact Hps|]. intros q [? ?]. split; [done|lia].
Qed.
Lemma chain_length ns p l : chain ns p l → (length l ≤ size ns)%nat.
Proof.
  intros (ps & <- & Hnd & Hps)%chain_addrs. rewrite <-size_dom.
  rewrite <-(size_list_to_set (C:=gset Z) ps Hnd). apply subseteq_size.
  intros q Hq%elem_of_list_to_set. rewrite Forall_forall in Hps. by destruct (Hps _ Hq).
Qed.

Lemma lookup_from_spec ls fuel p l i :
  chain (nodes (table ls)) p l → (length l < fuel)%nat →
  lookup_from fuel p i ls =
    Ret (match list_find (λ n, info_eqb (info_at ls (n_key n)) i = true) l with
         | Some (_, n) => some_dfsan_label (n_entry n)
         | None => none
         end) ls.
Proof.
  intros Hc. revert fuel. induction Hc as [|p n l Hn Hlt Hc IH]; intros fuel Hf.
  { by destruct fuel. }
  destruct fuel as [|fuel]; [simpl in Hf; lia|]. simpl.
  rewrite (proj2 (Z.eqb_neq p 0)) by lia.
  unfold mbind, M_bind, get. rewrite Hn.
  destruct (info_eqb (info_at ls (n_key n)) i) eqn:He.
  - by rewrite decide_True.
  - rewrite decide_False by done. rewrite IH by (simpl in Hf; lia).
    by destruct (list_find _ l) as [[]|].
Qed.

Lemma lookup_entry_run ls m i :
  table_rep ls m →
  lookup_entry i ls =
    Ret (match m !! key_of i with Some l => some_dfsan_label l | None => none end) ls.
Proof.
  intros [Ha Hadr Hch Hs Hc]. unfold lookup_entry, mbind at 1, M_bind at 1, get at 1.
  destruct (Hch (hash (table ls) i)) as (l & Hl & Hidx).
  rewrite (lookup_from_spec _ _ _ l) by (done || (apply chain_length in Hl; lia)).
  f_equal. destruct (list_find _ l) as [[k n]|] eqn:Hf.
  - apply list_find_Some in Hf as (Hn & He%info_eqb_spec & _).
    apply list_elem_of_lookup_2 in Hn. specialize (Hs _ _ _ Hl Hn).
    unfold node_key in Hs. by rewrite <-He, Hs.
  - apply list_find_None in Hf. destruct (m !! key_of i) as [e|] eqn:Hm; [|done].
    apply Hc in Hm as (idx & l' & n & Hl' & Hn & Hk & He).
    exfalso. rewrite Forall_forall in Hf. destruct (Hch idx) as (l2 & Hl2 & Hidx2).
    rewrite (chain_det _ _ _ _ Hl' Hl2) in Hn.
    assert (idx = hash (table ls) i) as ->.
    { rewrite Forall_forall in Hidx2. rewrite <-(Hidx2 _ Hn). by apply hash_key. }
    rewrite (chain_det _ _ _ _ Hl2 Hl) in Hn.
    apply (Hf _ Hn), info_eqb_spec, Hk.
Qed.

(** An empty bucket array represents the empty map. *)
Lemma table_rep_empty ls :
  alloc_wf (alloc ls) → cells (table ls) = ∅ → nodes (table ls) = ∅ → table_rep ls ∅.
Proof.
  intros Ha Hc Hn.
  assert (∀ idx, cell (table ls) idx = 0) as Hcell.
  { intros idx. unfold cell. by rewrite Hc, lookup_empty. }
  assert (∀ idx l, chain (nodes (table ls)) (cell (table ls) idx) l → l = []) as Hnil.
  { intros idx l. rewrite Hcell, Hn. inversion 1; [done|]. by simplify_map_eq. }
  split; [done|..].
  - intros p n. by rewrite Hn, lookup_empty.
  - intros idx. exists []. split; [rewrite Hcell; constructor|constructor].
  - intros idx l n Hl Hin. apply Hnil in Hl as ->. by apply not_elem_of_nil in Hin.
  - intros k e. by rewrite lookup_empty.
Qed.

(** The representation depends on the records only through the keys of the
    labels the table holds. *)
Lemma table_rep_frame ls ls' m :
  table_rep ls m → table ls' = table ls → alloc ls' = alloc ls →
  (∀ p n, nodes (table ls) !! p = Some n →
     key_of (info_at ls' (n_key n)) = key_of (info_at ls (n_key n))) →
  table_rep ls' m.
Proof.
  intros [Ha Hadr Hch Hs Hc] Ht Hal Hk.
  assert (∀ q l n, chain (nodes (table ls)) q l → n ∈ l →
    ∃ p, nodes (table ls) !! p = Some n) as Hin.
  { induction 1; intros Hn; [by apply not_elem_of_nil in Hn|].
    apply elem_of_cons in Hn as [->|Hn]; eauto. }
  split; rewrite ?Ht, ?Hal; [done|done|..].
  - intros idx. destruct (Hch idx) as (l & Hl & Hidx). exists l. split; [done|].
    rewrite Forall_forall in *. intros n Hn. rewrite <-(Hidx n Hn).
    destruct (Hin _ _ _ Hl Hn) as [p Hp]. apply hash_key. eauto.
  - intros idx l n Hl Hn. destruct (Hin _ _ _ Hl Hn) as [p Hp].
    unfold node_key. rewrite (Hk _ _ Hp). by eapply Hs.
  - intros k e (idx & l & n & Hl & Hn & Hkey & He)%Hc.
    exists idx, l, n. destruct (Hin _ _ _ Hl Hn) as [p Hp].
    unfold node_key. rewrite (Hk _ _ Hp). done.
Qed.

(** The state after a successful [insert]. *)
Definition inserted (key entry : Z) ls : lstate E :=
  let t := table ls in
  let index := hash t (info_at ls key) in
  let curr := next_usable_byte (alloc ls) in
  set_table
    (UnionHashtable (bucket t) (bucket_size t) (<[index := curr]> (cells t))
       (<[curr := Entry key entry (cell t index)]> (nodes t)))
    (set_alloc (Allocator (begin_addr (alloc ls)) (curr + sizeof_entry)
       (end_addr (alloc ls))) ls).

Lemma insert_entry_run ls key entry :
  alloc_wf (alloc ls) → next_usable_byte (alloc ls) + sizeof_entry < end_addr (alloc ls) →
  insert_entry key entry ls = Ret () (inserted key entry ls).
Proof.
  intros Ha Hroom. unfold insert_entry, lalloc, zoom, mbind, M_bind, gets, modify.
  rewrite alloc_ok by (done || (vm_compute; split; congruence)). done.
Qed.

Lemma chain_ge ns p l : chain ns p l → 0 ≤ p.
Proof. inversion 1; lia. Qed.

Section inserted.
Context (ls : lstate E) (m : gmap (Z * Z * Z * Z * Z * Z) Z) (key entry : Z).
Context (Hrep : table_rep ls m).
Let new := next_usable_byte (alloc ls).
Let idx0 := hash (table ls) (info_at ls key).
Let n0 := Entry key entry (cell (table ls) idx0).
Let ls' := inserted key entry ls.

Lemma inserted_fresh : nodes (table ls) !! new = None.
Proof.
  destruct (_ !! _) eqn:He; [|done]. apply (rep_addr _ _ Hrep) in He.
  unfold new in *. lia.
Qed.
Lemma inserted_cell idx :
  cell (table ls') idx = if decide (idx0 = idx) then new else cell (table ls) idx.
Proof.
  unfold cell, ls', inserted, idx0, new; simpl. rewrite lookup_insert.
  by destruct (decide _).
Qed.

(** The chains after the insertion: the new node heads its bucket. *)
Lemma inserted_chain idx l :
  chain (nodes (table ls)) (cell (table ls) idx) l →
  chain (nodes (table ls')) (cell (table ls') idx)
    (if decide (idx0 = idx) then n0 :: l else l).
Proof.
  intros Hl. rewrite inserted_cell.
  pose proof (chain_insert _ _ _ new n0 Hl inserted_fresh) as Hl'.
  case_decide; [subst idx|done].
  econstructor; [simpl; by rewrite lookup_insert_eq| |done]. simpl.
  split; [by eapply chain_ge|]. destruct (rep_alloc _ _ Hrep).
  unfold new. inversion Hl as [|? ? ? Hn]; [lia|].
  apply (rep_addr _ _ Hrep) in Hn. fold idx0. lia.
Qed.
Lemma inserted_chain_inv idx l :
  chain (nodes (table ls')) (cell (table ls') idx) l →
  ∃ l', chain (nodes (table ls)) (cell (table ls) idx) l' ∧
    l = if decide (idx0 = idx) then n0 :: l' else l'.
Proof.
  intros Hl. destruct (rep_chain _ _ Hrep idx) as (l' & Hl' & _).
  exists l'. split; [done|]. eapply chain_det; [exact Hl|]. by apply inserted_chain.
Qed.
End inserted.

Lemma inserted_rep ls m key entry :
  table_rep ls m → next_usable_byte (alloc ls) + sizeof_entry < end_addr (alloc ls) →
  m !! key_of (info_at ls key) = None →
  table_rep (inserted key entry ls) (<[key_of (info_at ls key) := entry]> m).
Proof.
  intros Hrep Hroom Hm. pose proof Hrep as [Ha Hadr Hch Hs Hc].
  unfold alloc_wf, sizeof_entry in *. split.
  - unfold alloc_wf. simpl. unfold sizeof_entry. lia.
  - intros p n. simpl. rewrite lookup_insert. unfold sizeof_entry. case_decide.
    + intros _. lia.
    + intros Hp%Hadr. lia.
  - intros idx. destruct (Hch idx) as (l & Hl & Hidx).
    eexists. split; [by apply (inserted_chain _ _ _ _ Hrep)|].
    case_decide; [constructor|]; done.
  - intros idx l n (l' & Hl' & ->)%(inserted_chain_inv _ _ _ _ Hrep) Hn.
    assert (n ∈ l' → m !! node_key ls n = Some (n_entry n)) as Hold by eauto.
    change (node_key (inserted key entry ls) n) with (node_key ls n).
    assert (n ∈ l' → <[key_of (info_at ls key):=entry]> m !! node_key ls n
      = Some (n_entry n)) as Hnew.
    { intros Hn'. rewrite lookup_insert_ne; [by auto|]. intros Heq.
      rewrite Heq, Hold in Hm by done. congruence. }
    case_decide; [|by auto]. apply elem_of_cons in Hn as [->|Hn]; [|by auto].
    apply lookup_insert_eq.
  - intros k e. rewrite lookup_insert. case_decide as Hd.
    + intros [= <-]. destruct (Hch (hash (table ls) (info_at ls key))) as (l & Hl & _).
      apply (inserted_chain _ _ key entry Hrep) in Hl. rewrite decide_True in Hl by done.
      eexists _, _, _. split_and!; [exact Hl|by left|done|done].
    + intros (idx & l & n & Hl & Hn & Hk & He)%Hc.
      apply (inserted_chain _ _ key entry Hrep) in Hl.
      eexists idx, _, n. split_and!; [exact Hl| |done|done].
      case_decide; [by right|done].
Qed.

(** C31: the union hash table implements the abstract map it represents. [lookup]
    terminates, leaves the state unchanged, and returns the label the map holds
    for the key, or [none]; [insert], when the key of the record it is given is
    new and the allocator has room for a node, returns, leaves the records and the
    label counter unchanged, and the table then represents the map extended with
    the key. *)
Theorem union_table_refines ls m :
  table_rep ls m →
  (∀ i, lookup_entry i ls =
     Ret (match m !! key_of i with Some l => some_dfsan_label l | None => none end) ls) ∧
  ∀ key entry, next_usable_byte (alloc ls) + sizeof_entry < end_addr (alloc ls) →
    m !! key_of (info_at ls key) = None →
    ∃ ls', insert_entry key entry ls = Ret () ls' ∧
      infos ls' = infos ls ∧ last_label ls' = last_label ls ∧
      table_rep ls' (<[key_of (info_at ls key) := entry]> m).
Proof.
  intros Hrep. split; [intros i; by apply lookup_entry_run|]. intros key entry Hroom Hm.
  exists (inserted key entry ls). rewrite insert_entry_run by (done || apply (rep_alloc _ _ Hrep)).
  split_and!; [done..|by apply inserted_rep].
Qed.

(** The bucket index stays inside the bucket array. *)
Lemma hash_range t i k : 0 ≤ k → bucket_size t = 2 ^ k → in_range k (hash t i).
Proof.
  intros Hk Hb. unfold hash. rewrite Hb, Z.sub_1_r, <-Z.ones_equiv.
  rewrite Z.land_ones by done. by apply wrap_range.
Qed.
End table.

(** A two-bucket table over records without cached expressions, for the
    witnesses. *)
Definition demo_lstate : lstate unit :=
  LState 2 {[ 1 := LabelInfo 0 0 0 0 0 8 0 0 0 None None;
              2 := LabelInfo 1 0 0 7 11 8 0 0 0 None None ]}
    (UnionHashtable 4096 2 ∅ ∅) (Allocator 4096 4112 8192).

Lemma demo_table_rep : table_rep demo_lstate ∅.
Proof. apply table_rep_empty; [|done..]. unfold alloc_wf; simpl; lia. Qed.

Lemma union_table_refines_witness :
  (∃ ls', insert_entry 2 2 demo_lstate = Ret () ls' ∧
     infos ls' = infos demo_lstate ∧ last_label ls' = 2 ∧
     table_rep ls' (<[key_of (info_at demo_lstate 2) := 2]> ∅)) ∧
  lookup_entry (info_at demo_lstate 2) (inserted 2 2 demo_lstate) =
    Ret (some_dfsan_label 2) (inserted 2 2 demo_lstate).
Proof.
  split.
  - destruct (union_table_refines demo_lstate ∅ demo_table_rep) as [_ Hins].
    apply (Hins 2 2); [vm_compute; reflexivity|done].
  - destruct (union_table_refines (inserted 2 2 demo_lstate) (<[key_of (info_at demo_lstate 2) := 2]> ∅))
      as [Hlook _].
    { by apply inserted_rep; [exact demo_table_rep|vm_compute; reflexivity|]. }
    rewrite Hlook. by vm_compute.
Defined.
