(* ===== verification/Union.v ===== *)
(** * Label creation and hash-consing ([__taint_union], [dfsan_create_label] of [dfsan.cc])

    [taint_union] gives a label to an operator applied to two operands. It
    normalizes the operands of commutative operators, returns the constant label
    when no operand is tainted, and otherwise returns the label already recorded
    for the same expression, or a fresh one. The invariant [wf] relates the
    label array, the counter and the hash table; the abstract state is the
    counter and a finite map from expressions to labels. *)
From S2P Require Import Prelude Platform Labels Allocator UnionTable.

Section union.
Context {E : Type} {Ops : LlvmOps}.
Implicit Type ls : lstate E.

(** The address of a record of the label-info array. *)
Definition label_addr (l : Z) : Z := UnionTableAddr + sizeof_label_info * l.

(** Dereferencing [&__dfsan_label_info[label]]: records at or above the hash
    table are not label records (for [kInitializingLabel] the page is
    unmapped). *)
Definition get_label_info (l : Z) : M (lstate E) (dfsan_label_info E) :=
  ls ← get;
  if HashTableAddr <=? label_addr l then segv else mret (info_at ls l).

Definition is_constant_label (label : Z) : bool := label =? CONST_LABEL.
Definition is_kind_of_label (label kind : Z) : M (lstate E) bool :=
  info ← get_label_info label; mret (li_op info =? kind).

(** [isZeroOrPowerOfTwo(uint16_t x)]: [x & (x - 1)] is computed on [int]. *)
Definition isZeroOrPowerOfTwo (x : Z) : bool := Z.land (u16 x) (u16 x - 1) =? 0.

Definition dfsan_check_label (label : Z) : M (lstate E) () :=
  if label =? kInitializingLabel then die "Taint: out of labels"
  else if HashTableAddr <=? u64 (label_addr label) then die "Exhausted labels"
  else mret ().

(** [xxhash] on three 32-bit words. *)
Definition rotl32 (x r : Z) : Z := Z.lor (u32 (Z.shiftl x r)) (Z.shiftr x (32 - r)).
Definition xxhash (h1 h2 h3 : Z) : Z :=
  let PRIME32_2 := 2246822519 in
  let PRIME32_3 := 3266489917 in
  let PRIME32_4 := 668265263 in
  let PRIME32_5 := 374761393 in
  let h32 := PRIME32_5 in
  let h32 := u32 (h32 + u32 (h1 * PRIME32_3)) in
  let h32 := u32 (rotl32 h32 17 * PRIME32_4) in
  let h32 := u32 (h32 + u32 (h2 * PRIME32_3)) in
  let h32 := u32 (rotl32 h32 17 * PRIME32_4) in
  let h32 := u32 (h32 + u32 (h3 * PRIME32_3)) in
  let h32 := u32 (rotl32 h32 17 * PRIME32_4) in
  let h32 := Z.lxor h32 (Z.shiftr h32 15) in
  let h32 := u32 (h32 * PRIME32_2) in
  let h32 := Z.lxor h32 (Z.shiftr h32 13) in
  let h32 := u32 (h32 * PRIME32_3) in
  Z.lxor h32 (Z.shiftr h32 16).

(** [atomic_fetch_add(&__dfsan_last_label, 1) + 1] *)
Definition next_label : M (lstate E) Z :=
  l ← gets last_label;
  modify (set_last (u32 (l + 1))) ;; mret (u32 (l + 1)).

Definition hash_of (l : Z) : M (lstate E) Z :=
  if l =? 0 then mret 0 else info ← get_label_info l; mret (li_hash info).

(** The swap at the head of [__taint_union]. *)
Definition swap_operands (l1 l2 op op1 op2 : Z) : Z * Z * Z * Z :=
  if (l2 <? l1) && is_commutative op then (l2, l1, op2, op1) else (l1, l2, op1, op2).

(** [__taint_union]; the parameters have the C types [dfsan_label] (u32),
    [u16] and [u64]. *)
Definition taint_union (l1 l2 op size op1 op2 : Z) : M (lstate E) Z :=
  let op := u16 op in
  let size := u16 size in
  let '(l1, l2, op1, op2) := swap_operands (u32 l1) (u32 l2) op (u64 op1) (u64 op2) in
  if (l1 =? 0) && (l2 <? CONST_OFFSET) && negb (op =? op_fsize) then mret 0 else
  if (l1 =? kInitializingLabel) || (l2 =? kInitializingLabel)
  then mret kInitializingLabel else
  let op1 := if CONST_OFFSET <=? l1 then 0 else op1 in
  let op2 := if CONST_OFFSET <=? l2 then 0 else op2 in
  let label_info := LabelInfo l1 l2 op1 op2 op size 0 0 0 None None in
  res ← lookup_entry label_info;
  if option_neqb res none then mret (option_deref res) else
  l ← gets last_label;
  assert_ "l1 <= l && l2 <= l" ((l1 <=? l) && (l2 <=? l)) ;;
  label ← next_label;
  dfsan_check_label label ;;
  assert_ "label > l1 && label > l2" ((l1 <? label) && (l2 <? label)) ;;
  h1 ← hash_of l1;
  h2 ← hash_of l2;
  let h3 := Z.lor (u32 (Z.shiftl op 16)) size in
  modify (set_info label (set_hash (xxhash h1 h2 h3) label_info)) ;;
  insert_entry label label ;;
  mret label.

(** [dfsan_union]: its [size] parameter is a [u8]. *)
Definition dfsan_union (l1 l2 op size op1 op2 : Z) : M (lstate E) Z :=
  taint_union l1 l2 op (u8 size) op1 op2.

Definition dfsan_create_label (offset : Z) : M (lstate E) Z :=
  label ← next_label;
  dfsan_check_label label ;;
  modify (set_info label zero_info) ;;
  modify (λ ls, set_info label (set_size 8 (info_at ls label)) ls) ;;
  modify (λ ls, set_info label (set_op1 (u64 offset) (info_at ls label)) ls) ;;
  mret label.

(** [dfsan_has_label]: the recursion follows [l1] when it is not constant and
    [l2] otherwise; labels decrease, so the label bounds the depth. *)
Fixpoint has_label_fuel (fuel : nat) (label elem : Z) : M (lstate E) bool :=
  if label =? elem then mret true else
  match fuel with
  | O => out_of_fuel
  | S fuel =>
      info ← get_label_info label;
      if negb (li_l1 info =? 0) then has_label_fuel fuel (li_l1 info) elem
      else if negb (li_l2 info =? 0) then has_label_fuel fuel (li_l2 info) elem
      else mret false
  end.
Definition dfsan_has_label (label elem : Z) : M (lstate E) bool :=
  has_label_fuel (S (Z.to_nat label)) label elem.

Definition dfsan_get_label_count : M (lstate E) Z := gets last_label.

(** ** The invariant *)
Definition input_info (i : dfsan_label_info E) : Prop :=
  li_op i = 0 ∧ li_l1 i = 0 ∧ li_l2 i = 0 ∧ li_op2 i = 0 ∧ li_size i = 8.

Definition info_range (i : dfsan_label_info E) : Prop :=
  in_range 32 (li_l1 i) ∧ in_range 32 (li_l2 i) ∧ in_range 16 (li_op i) ∧
  in_range 16 (li_size i) ∧ in_range 64 (li_op1 i) ∧ in_range 64 (li_op2 i).

Record wf ls (m : gmap (Z * Z * Z * Z * Z * Z) Z) : Prop := {
  wf_last : 0 ≤ last_label ls ∧ label_addr (last_label ls) < HashTableAddr;
  wf_dom l : is_Some (infos ls !! l) → 0 ≤ l ≤ last_label ls;
  wf_zero : key_of (info_at ls 0) = (0, 0, 0, 8, 0, 0);
  wf_label l : 1 ≤ l ≤ last_label ls →
    input_info (info_at ls l) ∨
    (li_l1 (info_at ls l) < l ∧ li_l2 (info_at ls l) < l ∧
     m !! key_of (info_at ls l) = Some l);
  wf_range l : info_range (info_at ls l);
  wf_table k l : m !! k = Some l → 1 ≤ l ≤ last_label ls ∧ key_of (info_at ls l) = k;
  wf_nodes p n : nodes (table ls) !! p = Some n → 1 ≤ n_key n ≤ last_label ls;
  wf_rep : table_rep ls m;
}.
Definition wf_labels ls : Prop := ∃ m, wf ls m.

(** Room for one more label: in the array, and for a node in the table. *)
Definition label_room ls : Prop := label_addr (last_label ls + 1) < HashTableAddr.
Definition node_room ls : Prop :=
  next_usable_byte (alloc ls) + sizeof_entry < end_addr (alloc ls).

(** ** Lemmas *)
Lemma label_addr_bound l :
  label_addr l < HashTableAddr → l < 2 ^ 32 - 2.
Proof.
  unfold label_addr. change sizeof_label_info with 56.
  change UnionTableAddr with 0x400000000000. change HashTableAddr with 0x400c00000000. lia.
Qed.
Lemma label_addr_mono l l' : l ≤ l' → label_addr l ≤ label_addr l'.
Proof. unfold label_addr. change sizeof_label_info with 56. lia. Qed.

Lemma last_bound ls m : wf ls m → 0 ≤ last_label ls < 2 ^ 32 - 2.
Proof. intros [[? ?%label_addr_bound]]. lia. Qed.

Lemma get_label_info_run ls l :
  label_addr l < HashTableAddr → get_label_info l ls = Ret (info_at ls l) ls.
Proof.
  intros H. unfold get_label_info, mbind, M_bind, get.
  by rewrite (proj2 (Z.leb_gt _ _)) by done.
Qed.
Lemma get_label_info_wf ls m l :
  wf ls m → l ≤ last_label ls → get_label_info l ls = Ret (info_at ls l) ls.
Proof.
  intros Hwf Hl. apply get_label_info_run. destruct (wf_last _ _ Hwf).
  pose proof (label_addr_mono _ _ Hl). lia.
Qed.

Lemma next_label_run ls m :
  wf ls m →
  next_label ls = Ret (last_label ls + 1) (set_last (last_label ls + 1) ls).
Proof.
  intros Hwf%last_bound. unfold next_label, mbind, M_bind, gets, modify.
  unfold u32. rewrite wrap_small by (unfold in_range; lia). done.
Qed.

Lemma check_label_run ls l :
  0 ≤ l → label_addr l < HashTableAddr → dfsan_check_label l ls = Ret () ls.
Proof.
  intros H0 Hl. pose proof (label_addr_bound _ Hl). unfold dfsan_check_label.
  rewrite (proj2 (Z.eqb_neq _ _)) by (change kInitializingLabel with (2 ^ 32 - 1); lia).
  unfold u64. rewrite wrap_small.
  - by rewrite (proj2 (Z.leb_gt _ _)) by done.
  - unfold in_range. assert (0 ≤ label_addr l).
    { unfold label_addr. change sizeof_label_info with 56.
      change UnionTableAddr with 0x400000000000. lia. }
    assert (HashTableAddr < 2 ^ 64) by reflexivity. lia.
Qed.
Lemma check_label_die ls l :
  0 ≤ l < 2 ^ 32 → HashTableAddr ≤ label_addr l →
  ∃ msg, dfsan_check_label l ls = Halt (HDie msg) ls.
Proof.
  intros H0 Hl. unfold dfsan_check_label. destruct (_ =? _); [by eexists|].
  unfold u64. rewrite wrap_small.
  - rewrite (proj2 (Z.leb_le _ _)) by done. by eexists.
  - unfold in_range, label_addr. change sizeof_label_info with 56.
    change UnionTableAddr with 0x400000000000. lia.
Qed.

Lemma hash_of_run ls l :
  label_addr l < HashTableAddr → ∃ h, hash_of l ls = Ret h ls.
Proof.
  intros Hl. unfold hash_of. destruct (l =? 0); [by eexists|].
  rewrite (bind_run _ _ _ _ _ (get_label_info_run _ _ Hl)). by eexists.
Qed.

Lemma info_at_set ls l l' i :
  info_at (set_info l i ls) l' = if decide (l = l') then i else info_at ls l'.
Proof. unfold info_at. simpl. rewrite lookup_insert. by destruct (decide _). Qed.
Lemma info_at_set_eq ls l i : info_at (set_info l i ls) l = i.
Proof. by rewrite info_at_set, decide_True. Qed.
Lemma info_at_set_ne ls l l' i : l ≠ l' → info_at (set_info l i ls) l' = info_at ls l'.
Proof. intros. by rewrite info_at_set, decide_False. Qed.

(** Two stores agree on the labels up to [n], caches and flags included. *)
Definition same_upto (n : Z) ls ls' : Prop :=
  ∀ l, l ≤ n → info_at ls' l = info_at ls l.

(** The state after a fresh label has been recorded with record [i]. *)
Definition recorded (i : dfsan_label_info E) ls : lstate E :=
  let l := last_label ls + 1 in inserted l l (set_info l i (set_last l ls)).

Lemma recorded_info i ls l :
  info_at (recorded i ls) l = if decide (last_label ls + 1 = l) then i else info_at ls l.
Proof.
  change (info_at (recorded i ls) l) with
    (info_at (set_info (last_label ls + 1) i (set_last (last_label ls + 1) ls)) l).
  by rewrite info_at_set.
Qed.

(** Recording a fresh key preserves the invariant. *)
Lemma recorded_wf ls m i :
  wf ls m → label_room ls → node_room ls → m !! key_of i = None → info_range i →
  li_l1 i ≤ last_label ls → li_l2 i ≤ last_label ls →
  wf (recorded i ls) (<[key_of i := last_label ls + 1]> m).
Proof.
  intros Hwf Hlr Hnr Hm Hr H1 H2. pose proof (last_bound _ _ Hwf) as Hlast.
  set (ls1 := set_info (last_label ls + 1) i (set_last (last_label ls + 1) ls)).
  assert (table_rep ls1 m) as Hrep1.
  { apply (table_rep_frame ls); [apply (wf_rep _ _ Hwf)|done|done|].
    intros p n Hn%(wf_nodes _ _ Hwf). unfold ls1. rewrite info_at_set_ne by lia. done. }
  assert (key_of (info_at ls1 (last_label ls + 1)) = key_of i) as Hk.
  { unfold ls1. by rewrite info_at_set_eq. }
  split.
  - simpl. split; [lia|done].
  - intros l. simpl. rewrite lookup_insert_is_Some'. intros [<-|Hl]; [lia|].
    apply (wf_dom _ _ Hwf) in Hl. lia.
  - rewrite recorded_info, decide_False by lia. apply (wf_zero _ _ Hwf).
  - intros l Hl. rewrite recorded_info. case_decide as Hd.
    + right. subst l. rewrite lookup_insert_eq. split_and!; [lia|lia|done].
    + destruct (wf_label _ _ Hwf l) as [?|(?&?&Hml)]; [simpl in Hl; lia|by left|].
      right. rewrite lookup_insert_ne; [done|]. intros Heq. by rewrite Heq, Hml in Hm.
  - intros l. rewrite recorded_info. case_decide; [done|]. apply (wf_range _ _ Hwf).
  - intros k l. simpl. rewrite recorded_info, lookup_insert. case_decide as Hd.
    + intros [= <-]. rewrite decide_True by done. split; [lia|done].
    + intros [Hl Hkl]%(wf_table _ _ Hwf). rewrite decide_False by lia. split; [lia|done].
  - intros p n. simpl. rewrite lookup_insert. case_decide as Hd.
    + intros [= <-]. simpl. lia.
    + intros Hn%(wf_nodes _ _ Hwf). lia.
  - rewrite <-Hk. apply inserted_rep; [done|done|]. by rewrite Hk.
Qed.

(** ** The specification of [taint_union] *)

(** What a call asks for: a label that needs no record, or the record of an
    expression, its operands normalized. *)
Definition union_request (l1 l2 op size op1 op2 : Z) : Z + dfsan_label_info E :=
  let '(l1, l2, op1, op2) := swap_operands (u32 l1) (u32 l2) (u16 op) (u64 op1) (u64 op2) in
  if (l1 =? 0) && (l2 =? 0) && negb (u16 op =? op_fsize) then inl 0
  else if (l1 =? kInitializingLabel) || (l2 =? kInitializingLabel)
  then inl kInitializingLabel
  else inr (LabelInfo l1 l2 (if l1 =? 0 then op1 else 0) (if l2 =? 0 then op2 else 0)
              (u16 op) (u16 size) 0 0 0 None None).

(** A request without a record is constant, or has an operand that is the
    initializing label. *)
Lemma union_request_inl l1 l2 op size op1 op2 l :
  union_request l1 l2 op size op1 op2 = inl l →
  l = 0 ∨ l = kInitializingLabel ∧ (u32 l1 = kInitializingLabel ∨ u32 l2 = kInitializingLabel).
Proof.
  unfold union_request. destruct (swap_operands _ _ _ _ _) as [[[a b] c] d] eqn:Hs.
  assert (a = u32 l1 ∧ b = u32 l2 ∨ a = u32 l2 ∧ b = u32 l1) as Hab.
  { revert Hs. unfold swap_operands. repeat case_match; intros [=]; auto. }
  destruct (_ && _); [intros [= <-]; by left|].
  destruct (Z.eqb_spec a kInitializingLabel), (Z.eqb_spec b kInitializingLabel); cbn [orb];
    intros [=]; right; (split; [congruence|]); destruct Hab as [[]|[]]; (left + right); congruence.
Qed.

(** The part of [taint_union] that interns a record. *)
Definition intern (i : dfsan_label_info E) : M (lstate E) Z :=
  res ← lookup_entry i;
  if option_neqb res none then mret (option_deref res) else
  l ← gets last_label;
  assert_ "l1 <= l && l2 <= l" ((li_l1 i <=? l) && (li_l2 i <=? l)) ;;
  label ← next_label;
  dfsan_check_label label ;;
  assert_ "label > l1 && label > l2" ((li_l1 i <? label) && (li_l2 i <? label)) ;;
  h1 ← hash_of (li_l1 i);
  h2 ← hash_of (li_l2 i);
  let h3 := Z.lor (u32 (Z.shiftl (li_op i) 16)) (li_size i) in
  modify (set_info label (set_hash (xxhash h1 h2 h3) i)) ;;
  insert_entry label label ;;
  mret label.

Lemma swap_operands_range l1 l2 op op1 op2 a b c d :
  swap_operands (u32 l1) (u32 l2) op (u64 op1) (u64 op2) = (a, b, c, d) →
  in_range 32 a ∧ in_range 32 b ∧ in_range 64 c ∧ in_range 64 d.
Proof. unfold swap_operands. case_match; intros [= <- <- <- <-]; auto with rt. Qed.

Lemma taint_union_intern l1 l2 op size op1 op2 ls :
  taint_union l1 l2 op size op1 op2 ls =
  match union_request l1 l2 op size op1 op2 with
  | inl l => Ret l ls
  | inr i => intern i ls
  end.
Proof.
  unfold taint_union, union_request, CONST_OFFSET.
  destruct (swap_operands _ _ _ _ _) as [[[a b] c] d] eqn:Hs.
  apply swap_operands_range in Hs as (Ha & Hb & _ & _). unfold in_range in *.
  replace (b <? 1) with (b =? 0) by (apply eq_true_iff_eq; rewrite Z.eqb_eq, Z.ltb_lt; lia).
  destruct (_ && _ && _); [done|]. destruct (_ || _); [done|].
  replace (if 1 <=? a then 0 else c) with (if a =? 0 then c else 0).
  2:{ destruct (Z.leb_spec 1 a), (Z.eqb_spec a 0); done || lia. }
  replace (if 1 <=? b then 0 else d) with (if b =? 0 then d else 0); [done|].
  destruct (Z.leb_spec 1 b), (Z.eqb_spec b 0); done || lia.
Qed.

Lemma union_request_range l1 l2 op size op1 op2 i :
  union_request l1 l2 op size op1 op2 = inr i → info_range i.
Proof.
  unfold union_request. destruct (swap_operands _ _ _ _ _) as [[[a b] c] d] eqn:Hs.
  apply swap_operands_range in Hs as (Ha & Hb & Hc & Hd).
  destruct (_ && _ && _); [done|]. destruct (_ || _); [done|]. intros [= <-].
  unfold info_range; simpl. split_and!; auto with rt.
  - by destruct (a =? 0).
  - by destruct (b =? 0).
Qed.

Lemma intern_found ls m i l :
  wf ls m → m !! key_of i = Some l → intern i ls = Ret l ls.
Proof.
  intros Hwf Hm. unfold intern, mbind, M_bind.
  rewrite (lookup_entry_run _ _ _ (wf_rep _ _ Hwf)), Hm. done.
Qed.

Lemma intern_fresh ls m i :
  wf ls m → m !! key_of i = None → li_l1 i ≤ last_label ls → li_l2 i ≤ last_label ls →
  label_room ls → node_room ls →
  ∃ h, intern i ls = Ret (last_label ls + 1) (recorded (set_hash h i) ls).
Proof.
  intros Hwf Hm H1 H2 Hlr Hnr. pose proof (last_bound _ _ Hwf) as Hlast.
  set (ls1 := set_last (last_label ls + 1) ls).
  assert (∀ l, l ≤ last_label ls → ∃ h, hash_of l ls1 = Ret h ls1) as Hh.
  { intros l Hl. apply hash_of_run. destruct (wf_last _ _ Hwf).
    pose proof (label_addr_mono _ _ Hl). lia. }
  destruct (Hh _ H1) as [h1 Hh1], (Hh _ H2) as [h2 Hh2].
  eexists. unfold intern.
  rewrite (bind_run _ _ _ _ _ (lookup_entry_run _ _ _ (wf_rep _ _ Hwf))), Hm.
  cbn [option_neqb option_eqb negb none isa].
  rewrite bind_gets.
  erewrite bind_run by (apply assert_run; lia).
  rewrite (bind_run _ _ _ _ _ (next_label_run _ _ Hwf)). fold ls1.
  erewrite bind_run by (apply check_label_run; [lia|done]).
  erewrite bind_run by (apply assert_run; lia).
  rewrite (bind_run _ _ _ _ _ Hh1), (bind_run _ _ _ _ _ Hh2).
  rewrite bind_modify.
  erewrite bind_run by (apply insert_entry_run; [apply (wf_rep _ _ Hwf)|done]). done.
Qed.

(** Every outcome of [intern] in a well-formed state: the recorded label, a
    fresh one, or the end of the process. *)
Lemma intern_cases ls m i :
  wf ls m → info_range i →
  match intern i ls with
  | Ret l ls' =>
      (m !! key_of i = Some l ∧ ls' = ls) ∨
      (m !! key_of i = None ∧ l = last_label ls + 1 ∧
       li_l1 i ≤ last_label ls ∧ li_l2 i ≤ last_label ls ∧
       (∃ h, ls' = recorded (set_hash h i) ls) ∧ wf ls' (<[key_of i := l]> m))
  | Throw _ _ => False
  | Halt h _ => li_l1 i ≤ last_label ls → li_l2 i ≤ last_label ls → is_die h
  end.
Proof.
  intros Hwf Hr. destruct (m !! key_of i) as [l|] eqn:Hm.
  { rewrite (intern_found _ _ _ _ Hwf Hm). by left. }
  pose proof (last_bound _ _ Hwf) as Hlast.
  destruct (decide (li_l1 i ≤ last_label ls ∧ li_l2 i ≤ last_label ls ∧
    label_room ls ∧ node_room ls)) as [(H1 & H2 & Hlr & Hnr)|Hn].
  { destruct (intern_fresh _ _ _ Hwf Hm H1 H2 Hlr Hnr) as [h ->]. right.
    split_and!; [done..|by eexists|].
    apply (recorded_wf ls m (set_hash h i)); done. }
  unfold intern. rewrite (bind_run _ _ _ _ _ (lookup_entry_run _ _ _ (wf_rep _ _ Hwf))), Hm.
  cbn [option_neqb option_eqb negb none isa]. rewrite bind_gets.
  destruct ((li_l1 i <=? last_label ls) && (li_l2 i <=? last_label ls)) eqn:Hle; [|simpl; lia].
  erewrite bind_run by (by apply assert_run).
  rewrite (bind_run _ _ _ _ _ (next_label_run _ _ Hwf)).
  set (ls1 := set_last (last_label ls + 1) ls).
  destruct (decide (label_room ls)) as [Hlr|Hlr].
  2:{ destruct (check_label_die ls1 (last_label ls + 1)) as [msg Hd];
        [lia|unfold label_room in Hlr; lia|]. by rewrite (bind_halt _ _ _ _ _ Hd). }
  erewrite bind_run by (apply check_label_run; [lia|done]).
  erewrite bind_run by (apply assert_run; lia).
  destruct (hash_of_run ls1 (li_l1 i)) as [h1 Hh1].
  { pose proof (label_addr_mono (li_l1 i) (last_label ls + 1)). unfold label_room in Hlr. lia. }
  destruct (hash_of_run ls1 (li_l2 i)) as [h2 Hh2].
  { pose proof (label_addr_mono (li_l2 i) (last_label ls + 1)). unfold label_room in Hlr. lia. }
  rewrite (bind_run _ _ _ _ _ Hh1), (bind_run _ _ _ _ _ Hh2), bind_modify.
  set (ls2 := set_info _ _ _).
  destruct (alloc_exhausted (alloc ls2) sizeof_entry) as [a' Ha'];
    [apply (wf_rep _ _ Hwf)|vm_compute; split; congruence| |].
  { destruct (decide (node_room ls)) as [Hnr|Hnr]; [|unfold node_room in Hnr; simpl; lia].
    exfalso. apply Hn. split_and!; [lia|lia|done|done]. }
  unfold insert_entry, lalloc, zoom, mbind, M_bind, gets. by rewrite Ha'.
Qed.

Definition valid_label ls (l : Z) : Prop := 0 ≤ l ≤ last_label ls ∨ l = kInitializingLabel.

(** Labels only accumulate: the counter grows and recorded labels keep their
    records. *)
Definition labels_kept ls ls' : Prop :=
  last_label ls ≤ last_label ls' ∧
  ∀ l, l ≤ last_label ls → key_of (info_at ls' l) = key_of (info_at ls l).

#[export] Instance labels_kept_preorder : PreOrder labels_kept.
Proof.
  split; [by intros ls|]. intros a b c [H1 H2] [H3 H4]. split; [lia|].
  intros l Hl. rewrite H4, H2 by lia. done.
Qed.

Lemma recorded_kept i ls : labels_kept ls (recorded i ls).
Proof.
  split; [simpl; lia|]. intros l Hl. by rewrite recorded_info, decide_False by lia.
Qed.

(** The outcomes of [taint_union], in one place. *)
Lemma taint_union_cases ls m l1 l2 op size op1 op2 :
  wf ls m →
  match taint_union l1 l2 op size op1 op2 ls with
  | Ret l ls' => wf_labels ls' ∧ valid_label ls' l ∧ labels_kept ls ls' ∧
      match union_request l1 l2 op size op1 op2 with
      | inl l' => l = l' ∧ ls' = ls
      | inr i => key_of (info_at ls' l) = key_of i ∧ 1 ≤ l ≤ last_label ls' ∧
          same_upto (last_label ls) ls ls' ∧
          (m !! key_of i = Some l ∧ ls' = ls ∨
           m !! key_of i = None ∧ l = last_label ls + 1 ∧ wf ls' (<[key_of i := l]> m))
      end
  | Throw _ _ => False
  | Halt h _ =>
      match union_request l1 l2 op size op1 op2 with
      | inl _ => False
      | inr i => li_l1 i ≤ last_label ls → li_l2 i ≤ last_label ls → is_die h
      end
  end.
Proof.
  intros Hwf. rewrite taint_union_intern.
  destruct (union_request _ _ _ _ _ _) as [l|i] eqn:Hu.
  { split_and!; [by eexists| |done..]. revert Hu. unfold union_request, valid_label.
    pose proof (last_bound _ _ Hwf).
    repeat case_match; intros; simplify_eq; auto with lia. }
  apply union_request_range in Hu as Hr. pose proof (intern_cases _ _ _ Hwf Hr) as Hc.
  destruct (intern i ls) as [l ls'| |]; [|done..].
  destruct Hc as [[Hm ->]|(Hm & -> & H1 & H2 & [h ->] & Hwf')].
  - destruct (wf_table _ _ Hwf _ _ Hm) as [Hl Hk].
    split_and!; [by eexists|left; lia|done|done|lia|lia|done|by left].
  - pose proof (last_bound _ _ Hwf).
    split_and!; [by eexists|left; simpl; lia|apply recorded_kept|..].
    + by rewrite recorded_info, decide_True.
    + lia.
    + simpl; lia.
    + intros l Hl. by rewrite recorded_info, decide_False by lia.
    + by right.
Qed.

(** ** Properties *)

(** C9: refinement: [taint_union] implements interning in the abstract map of
    expressions. A request that needs no record, or whose expression is
    already recorded, returns its label and changes nothing; otherwise, when
    the operands are existing labels and the array and the allocator have
    room, it returns the next label, records exactly the requested
    expression, leaves every earlier record alone and re-establishes the
    invariant. *)
Theorem taint_union_refines ls m l1 l2 op size op1 op2 :
  wf ls m →
  match union_request l1 l2 op size op1 op2 with
  | inl l => taint_union l1 l2 op size op1 op2 ls = Ret l ls
  | inr i =>
      match m !! key_of i with
      | Some l => taint_union l1 l2 op size op1 op2 ls = Ret l ls
      | None =>
          li_l1 i ≤ last_label ls → li_l2 i ≤ last_label ls →
          label_room ls → node_room ls →
          ∃ ls', taint_union l1 l2 op size op1 op2 ls = Ret (last_label ls + 1) ls' ∧
            last_label ls' = last_label ls + 1 ∧
            key_of (info_at ls' (last_label ls + 1)) = key_of i ∧
            same_upto (last_label ls) ls ls' ∧
            wf ls' (<[key_of i := last_label ls + 1]> m)
      end
  end.
Proof.
  intros Hwf. rewrite taint_union_intern.
  destruct (union_request _ _ _ _ _ _) as [l|i] eqn:Hu; [done|].
  apply union_request_range in Hu.
  destruct (m !! key_of i) as [l|] eqn:Hm; [by eapply intern_found|].
  intros H1 H2 Hlr Hnr. destruct (intern_fresh _ _ _ Hwf Hm H1 H2 Hlr Hnr) as [h ->].
  eexists. split_and!; [done|done| | |].
  - by rewrite recorded_info, decide_True.
  - intros l Hl. by rewrite recorded_info, decide_False by lia.
  - by apply (recorded_wf ls m (set_hash h i)).
Qed.

(** A commutative operator is interned independently of the order of its
    operands: swapping the labels together with the concrete values gives the
    same result and the same final state, from any state. *)
Theorem taint_union_comm l1 l2 op size op1 op2 ls :
  is_commutative (u16 op) = true →
  taint_union l1 l2 op size op1 op2 ls = taint_union l2 l1 op size op2 op1 ls.
Proof.
  intros Hc. rewrite !taint_union_intern. unfold union_request, swap_operands.
  rewrite Hc, !andb_true_r.
  destruct (Z.ltb_spec (u32 l2) (u32 l1)), (Z.ltb_spec (u32 l1) (u32 l2)); [lia|done|done|].
  assert (u32 l2 = u32 l1) as -> by lia.
  destruct (Z.eqb_spec (u32 l1) 0); [|done].
  assert ((u16 op =? op_fsize) = false) as ->; [|done].
  apply Z.eqb_neq. intros He. rewrite He in Hc. revert Hc. unfold is_commutative.
  unfold u8. rewrite wrap_small by (unfold in_range; op_lia). op_lia.
Qed.

(** Hash-consing: a label obtained from [taint_union] is found again: the
    same call in the resulting state returns the same label and changes
    nothing. *)
Theorem taint_union_idempotent ls l1 l2 op size op1 op2 l ls' :
  wf_labels ls →
  taint_union l1 l2 op size op1 op2 ls = Ret l ls' →
  taint_union l1 l2 op size op1 op2 ls' = Ret l ls'.
Proof.
  intros [m Hwf] Hrun. pose proof (taint_union_cases ls m l1 l2 op size op1 op2 Hwf) as Hc.
  rewrite Hrun in Hc. destruct Hc as (_ & _ & _ & Hc). rewrite taint_union_intern.
  destruct (union_request _ _ _ _ _ _) as [l'|i]; [by destruct Hc as [-> _]|].
  destruct Hc as (_ & _ & _ & [[Hm ->]|(_ & -> & Hwf')]); [by eapply intern_found|].
  eapply intern_found; [done|]. apply lookup_insert_eq.
Qed.

(** Labels stand for expressions one-to-one: in a well-formed state, two
    calls that ask for records return the same label exactly when the records
    ask for the same normalized expression. *)
Theorem taint_union_injective ls l1 l2 op size op1 op2 l1' l2' op' size' op1' op2'
    i i' l l' ls1 ls2 :
  wf_labels ls →
  union_request l1 l2 op size op1 op2 = inr i →
  union_request l1' l2' op' size' op1' op2' = inr i' →
  taint_union l1 l2 op size op1 op2 ls = Ret l ls1 →
  taint_union l1' l2' op' size' op1' op2' ls1 = Ret l' ls2 →
  l = l' ↔ key_of i = key_of i'.
Proof.
  intros [m Hwf] Hu Hu' Hrun Hrun'.
  pose proof (taint_union_cases ls m l1 l2 op size op1 op2 Hwf) as Hc.
  rewrite Hrun, Hu in Hc. destruct Hc as ([m1 Hwf1] & _ & _ & Hk & Hl & _ & _).
  pose proof (taint_union_cases ls1 m1 l1' l2' op' size' op1' op2' Hwf1) as Hc.
  rewrite Hrun', Hu' in Hc. destruct Hc as (_ & _ & _ & Hk' & Hl' & Hs & Hm).
  split.
  - intros <-. rewrite <-Hk, <-Hk', Hs by lia. done.
  - intros Heq. destruct (wf_label _ _ Hwf1 l Hl) as [Hin|(_ & _ & Hml)].
    + exfalso. clear Hm Hs. unfold input_info in Hin. revert Hk Hu.
      unfold key_of. destruct Hin as (-> & -> & -> & -> & ->).
      unfold union_request. destruct (swap_operands _ _ _ _ _) as [[[a b] c] d].
      destruct (_ && _ && _) eqn:Hz; [done|]. destruct (_ || _); [done|].
      intros Hk [= <-]. injection Hk as H1 H2 H3 H4 H5 H6. simpl in *.
      rewrite <-H1, <-H2, <-H3 in Hz. op_lia.
    + rewrite Hk in Hml. rewrite Heq in Hml.
      destruct Hm as [[Hm _]|[Hm _]]; congruence.
Qed.

(** [taint_union] preserves the invariant of the label store from every
    well-formed state and for every argument: calls with labels that do not
    exist, or without room, end the process before the store is corrupted. *)
Theorem taint_union_pres l1 l2 op size op1 op2 :
  pres wf_labels (taint_union l1 l2 op size op1 op2).
Proof.
  intros ls [m Hwf]. pose proof (taint_union_cases ls m l1 l2 op size op1 op2 Hwf) as H.
  destruct (taint_union _ _ _ _ _ _ ls); naive_solver.
Qed.

(** The record [dfsan_create_label] gives to the input byte at [offset]. *)
Definition input_record (offset : Z) : dfsan_label_info E :=
  LabelInfo 0 0 (u64 offset) 0 0 8 0 0 0 None None.

(** The state after a label has been created for an input byte. *)
Definition created (offset : Z) ls : lstate E :=
  let l := last_label ls + 1 in
  set_info l (input_record offset) (set_last l ls).

Lemma create_label_run ls m offset :
  wf ls m → label_room ls →
  dfsan_create_label offset ls = Ret (last_label ls + 1) (created offset ls).
Proof.
  intros Hwf Hlr. pose proof (last_bound _ _ Hwf) as Hl. unfold dfsan_create_label.
  rewrite (bind_run _ _ _ _ _ (next_label_run _ _ Hwf)).
  erewrite bind_run by (apply check_label_run; [lia|done]).
  rewrite !bind_modify, !info_at_set_eq. unfold created, set_info; simpl.
  by rewrite !insert_insert_eq.
Qed.
Lemma create_label_full ls m offset :
  wf ls m → ¬ label_room ls →
  ∃ msg ls', dfsan_create_label offset ls = Halt (HDie msg) ls'.
Proof.
  intros Hwf Hlr. pose proof (last_bound _ _ Hwf) as Hl. unfold dfsan_create_label.
  rewrite (bind_run _ _ _ _ _ (next_label_run _ _ Hwf)).
  edestruct check_label_die as [msg Hd]; [| |rewrite (bind_halt _ _ _ _ _ Hd); by eexists _, _].
  - lia.
  - unfold label_room in Hlr. lia.
Qed.

Lemma created_info offset ls l :
  info_at (created offset ls) l =
    if decide (last_label ls + 1 = l) then input_record offset else info_at ls l.
Proof. unfold created. by rewrite info_at_set. Qed.

Lemma created_wf ls m offset : wf ls m → label_room ls → wf (created offset ls) m.
Proof.
  intros Hwf Hlr. pose proof (last_bound _ _ Hwf) as Hlast. split.
  - simpl. split; [lia|done].
  - intros l. simpl. rewrite lookup_insert_is_Some'. intros [<-|Hl]; [lia|].
    apply (wf_dom _ _ Hwf) in Hl. lia.
  - rewrite created_info, decide_False by lia. apply (wf_zero _ _ Hwf).
  - intros l Hl. simpl in Hl. rewrite created_info. case_decide; [by left|].
    apply (wf_label _ _ Hwf). lia.
  - intros l. rewrite created_info. case_decide; [|apply (wf_range _ _ Hwf)].
    unfold info_range; simpl. split_and!; auto with rt; done.
  - intros k l Hk%(wf_table _ _ Hwf). simpl. rewrite created_info, decide_False by lia.
    split; [lia|]. naive_solver.
  - intros p n Hn%(wf_nodes _ _ Hwf). simpl. lia.
  - apply (table_rep_frame ls); [apply (wf_rep _ _ Hwf)|done|done|].
    intros p n Hn%(wf_nodes _ _ Hwf). by rewrite created_info, decide_False by lia.
Qed.

(** [dfsan_create_label] returns the next label, whose record is that of
    the input byte at the given offset, leaves the earlier records alone and
    preserves the invariant; it ends the process exactly when the label array
    is full. *)
Theorem create_label_spec ls m offset :
  wf ls m →
  if decide (label_room ls) then
    ∃ ls', dfsan_create_label offset ls = Ret (last_label ls + 1) ls' ∧
      last_label ls' = last_label ls + 1 ∧
      info_at ls' (last_label ls + 1) = input_record offset ∧
      same_upto (last_label ls) ls ls' ∧ wf ls' m
  else ∃ msg ls', dfsan_create_label offset ls = Halt (HDie msg) ls'.
Proof.
  intros Hwf. case_decide as Hlr; [|by eapply create_label_full].
  exists (created offset ls). split_and!; [by eapply create_label_run|done| | |].
  - by rewrite created_info, decide_True.
  - intros l Hl. by rewrite created_info, decide_False by lia.
  - by apply created_wf.
Qed.

Lemma create_label_pres offset : pres wf_labels (dfsan_create_label offset).
Proof.
  intros ls [m Hwf]. destruct (decide (label_room ls)) as [Hlr|Hlr].
  - rewrite (create_label_run _ _ _ Hwf Hlr). exists m. by apply created_wf.
  - by destruct (create_label_full _ _ offset Hwf Hlr) as (? & ? & ->).
Qed.

(** The labels an expression is built from, through both operands. *)
Inductive reaches ls : Z → Z → Prop :=
| reaches_refl l : reaches ls l l
| reaches_l1 l e : li_l1 (info_at ls l) ≠ 0 → reaches ls (li_l1 (info_at ls l)) e → reaches ls l e
| reaches_l2 l e : li_l2 (info_at ls l) ≠ 0 → reaches ls (li_l2 (info_at ls l)) e → reaches ls l e.

Lemma operands_smaller ls m l :
  wf ls m → 0 ≤ l ≤ last_label ls →
  (li_l1 (info_at ls l) ≠ 0 → 0 ≤ li_l1 (info_at ls l) < l) ∧
  (li_l2 (info_at ls l) ≠ 0 → 0 ≤ li_l2 (info_at ls l) < l).
Proof.
  intros Hwf Hl. destruct (wf_range _ _ Hwf l) as ([? _] & [? _] & _).
  destruct (decide (l = 0)) as [->|].
  { pose proof (wf_zero _ _ Hwf) as [= -> -> _ _ _ _]. done. }
  destruct (wf_label _ _ Hwf l) as [(_ & -> & -> & _)|(? & ? & _)]; [lia|done|lia].
Qed.

Lemma has_label_run ls m fuel label elem :
  wf ls m → 0 ≤ label ≤ last_label ls → (Z.to_nat label < fuel)%nat →
  ∃ b, has_label_fuel fuel label elem ls = Ret b ls ∧ (b = true → reaches ls label elem).
Proof.
  intros Hwf. revert label. induction fuel as [|fuel IH]; intros label Hl Hf; [lia|].
  simpl. destruct (Z.eqb_spec label elem) as [->|Hne].
  { exists true. split; [done|]. constructor. }
  rewrite (bind_run _ _ _ _ _ (get_label_info_wf _ _ label Hwf ltac:(lia))).
  destruct (operands_smaller _ _ _ Hwf Hl) as [H1 H2].
  destruct (Z.eqb_spec (li_l1 (info_at ls label)) 0) as [_|Hz1]; simpl.
  - destruct (Z.eqb_spec (li_l2 (info_at ls label)) 0) as [_|Hz2]; simpl.
    { by exists false. }
    destruct (IH (li_l2 (info_at ls label))) as (b & -> & Hb); [lia|lia|].
    exists b. split; [done|]. intros ?. by apply reaches_l2; auto.
  - destruct (IH (li_l1 (info_at ls label))) as (b & -> & Hb); [lia|lia|].
    exists b. split; [done|]. intros ?. by apply reaches_l1; auto.
Qed.

(** In a well-formed state [dfsan_has_label] terminates on every existing
    label, changes nothing, and answers [true] only for a label the
    expression is built from. *)
Theorem has_label_sound ls label elem :
  wf_labels ls → 0 ≤ label ≤ last_label ls →
  ∃ b, dfsan_has_label label elem ls = Ret b ls ∧ (b = true → reaches ls label elem).
Proof. intros [m Hwf] Hl. apply (has_label_run _ _ _ _ _ Hwf Hl). lia. Qed.
End union.

(** The label store when the runtime has been initialized and before the first
    input byte is labelled (see [Init.v], which shows it is what [dfsan_init]
    and the table's constructor leave). *)
Definition union_table_size : Z := 2 ^ 18.
Definition boot_lstate (E : Type) : lstate E :=
  LState 0 {[ 0 := set_size 8 zero_info ]}
    (UnionHashtable HashTableAddr union_table_size ∅ ∅)
    (Allocator HashTableAddr (HashTableAddr + union_table_size * sizeof_ptr)
       (HashTableAddr + hashtable_size)).

Lemma boot_wf E : wf (boot_lstate E) ∅.
Proof.
  split.
  - by vm_compute.
  - intros l. simpl. intros [i Hi]. destruct (decide (0 = l)) as [<-|]; [done|].
    by rewrite lookup_singleton_ne in Hi.
  - done.
  - simpl. lia.
  - intros l. unfold info_at. simpl. destruct (decide (0 = l)) as [<-|].
    + rewrite lookup_singleton_eq. unfold info_range, in_range; simpl. lia.
    + rewrite lookup_singleton_ne by done. unfold info_range, in_range; simpl. lia.
  - intros k l. by rewrite lookup_empty.
  - intros p n. simpl. by rewrite lookup_empty.
  - apply table_rep_empty; [|done..]. by vm_compute.
Qed.

(** ** Witnesses and findings *)

(** A store with the labels 1 and 2 of two input bytes. *)
Definition two_bytes : lstate unit := created 1 (created 0 (boot_lstate unit)).

Lemma two_bytes_wf : wf two_bytes ∅.
Proof. do 2 (apply created_wf; [|by vm_compute]). apply boot_wf. Qed.

(** [x + y] for the two input bytes. *)
Definition sum_lstate : lstate unit :=
  match taint_union 1 2 op_Add 8 0 0 two_bytes with
  | Ret _ s | Throw _ s | Halt _ s => s
  end.

Lemma sum_lstate_wf : wf_labels sum_lstate.
Proof.
  pose proof (taint_union_cases two_bytes ∅ 1 2 op_Add 8 0 0 two_bytes_wf) as H.
  assert (taint_union 1 2 op_Add 8 0 0 two_bytes = Ret 3 sum_lstate) as Hr by by vm_compute.
  rewrite Hr in H. exact (proj1 H).
Qed.

Lemma taint_union_refines_witness :
  ∃ ls', taint_union 2 1 op_Add 8 0 0 two_bytes = Ret 3 ls' ∧
    last_label ls' = 3 ∧
    key_of (info_at ls' 3) = (1, 2, op_Add, 8, 0, 0) ∧
    same_upto 2 two_bytes ls' ∧ wf ls' {[ (1, 2, op_Add, 8, 0, 0) := 3 ]}.
Proof.
  pose proof (taint_union_refines two_bytes ∅ 2 1 op_Add 8 0 0 two_bytes_wf) as H.
  assert (union_request 2 1 op_Add 8 0 0 =
    inr (LabelInfo (E:=unit) 1 2 0 0 op_Add 8 0 0 0 None None)) as Hu by by vm_compute.
  rewrite Hu, lookup_empty in H. apply H; vm_compute; congruence.
Defined.

Lemma taint_union_comm_witness :
  taint_union 0 1 op_Add 8 5 0 two_bytes = taint_union 1 0 op_Add 8 0 5 two_bytes.
Proof. apply taint_union_comm. reflexivity. Defined.

Lemma taint_union_idempotent_witness :
  taint_union 1 2 op_Add 8 0 0 sum_lstate = Ret 3 sum_lstate.
Proof.
  apply (taint_union_idempotent two_bytes).
  - exists ∅. exact two_bytes_wf.
  - by vm_compute.
Defined.

(** The same sum asked for again, operands swapped: one label. *)
Lemma taint_union_injective_witness :
  3 = 3 ↔ (1, 2, op_Add, 8, 0, 0) = (1, 2, op_Add, 8, 0, 0).
Proof.
  apply (taint_union_injective two_bytes 1 2 op_Add 8 0 0 2 1 op_Add 8 0 0
    (LabelInfo 1 2 0 0 op_Add 8 0 0 0 None None)
    (LabelInfo 1 2 0 0 op_Add 8 0 0 0 None None) 3 3 sum_lstate sum_lstate).
  - exists ∅. exact two_bytes_wf.
  - by vm_compute.
  - by vm_compute.
  - by vm_compute.
  - by vm_compute.
Defined.

Lemma create_label_spec_witness :
  ∃ ls', dfsan_create_label 7 two_bytes = Ret 3 ls' ∧
    last_label ls' = 3 ∧ info_at ls' 3 = input_record 7 ∧
    same_upto 2 two_bytes ls' ∧ wf ls' ∅.
Proof.
  pose proof (create_label_spec two_bytes ∅ 7 two_bytes_wf) as H.
  rewrite decide_True in H by by vm_compute. exact H.
Defined.

Lemma has_label_sound_witness :
  ∃ b, dfsan_has_label 3 1 sum_lstate = Ret b sum_lstate ∧ (b = true → reaches sum_lstate 3 1).
Proof. apply has_label_sound; [apply sum_lstate_wf|vm_compute; split; congruence]. Defined.

(** [dfsan_has_label] is not complete: once a label has a tainted first
    operand the second one is never searched, so the label of [x + y] is said
    not to contain the label of [y]. *)
Theorem has_label_misses_second_operand :
  reaches sum_lstate 3 2 ∧ dfsan_has_label 3 2 sum_lstate = Ret false sum_lstate.
Proof.
  split; [|by vm_compute]. apply reaches_l2; [by vm_compute|].
  change (li_l2 (info_at sum_lstate 3)) with 2. constructor.
Qed.

(** The exhaustion test of [dfsan_check_label] compares the start of the
    record with the hash table: it accepts exactly the labels up to 920350134,
    and the record of this last one reaches 8 bytes into the first bucket of
    the hash table. *)
Theorem check_label_last_record_overlaps {E} (ls : lstate E) l :
  0 ≤ l < 2 ^ 32 →
  (dfsan_check_label l ls = Ret () ls ↔ l ≤ 920350134) ∧
  label_addr 920350134 + sizeof_label_info = HashTableAddr + 8.
Proof.
  intros Hl. split; [|by vm_compute]. split.
  - intros Hr. destruct (decide (label_addr l < HashTableAddr)) as [Hlt|Hge].
    + revert Hlt. unfold label_addr. change sizeof_label_info with 56.
      change UnionTableAddr with 0x400000000000. change HashTableAddr with 0x400c00000000. lia.
    + destruct (check_label_die ls l Hl) as [msg Hd]; [lia|]. congruence.
  - intros Hle. apply check_label_run; [lia|]. unfold label_addr. change sizeof_label_info with 56.
    change UnionTableAddr with 0x400000000000. change HashTableAddr with 0x400c00000000. lia.
Qed.

Lemma check_label_last_record_overlaps_witness :
  (dfsan_check_label 920350134 two_bytes = Ret () two_bytes ↔ 920350134 ≤ 920350134) ∧
  label_addr 920350134 + sizeof_label_info = HashTableAddr + 8.
Proof. apply check_label_last_record_overlaps. lia. Defined.
