(* ===== verification/Z3.v ===== *)
(** * The interface to the Z3 solver ([z3++.h])

    Z3 is a third-party library: the runtime is modelled against an interface,
    the class [Z3], with the functions of the C++ API the runtime calls, and
    [Z3Laws], which states the documented behaviour it relies on: well-sorted
    applications build an expression with the SMT-LIB meaning of the operator,
    [simplify] keeps the meaning, expressions with one id are the same, and a
    model returned by a [sat] check satisfies the assertions. A reference
    implementation on first-order terms shows the laws can hold and lets the
    witnesses compute. *)
From S2P Require Import Prelude.

(** ** Sorts, values and operators *)

(** [z3::symbol]: an integer or a string. *)
Inductive symbol := SInt (n : Z) | SStr (s : string).
#[export] Instance symbol_eq_dec : EqDecision symbol.
Proof. solve_decision. Defined.

Inductive sort := SBool | SBV (w : Z).
#[export] Instance sort_eq_dec : EqDecision sort.
Proof. solve_decision. Defined.

(** A Boolean, or a bit-vector of width [w] by its unsigned value. *)
Inductive value := VBool (b : bool) | VBV (w n : Z).
#[export] Instance value_eq_dec : EqDecision value.
Proof. solve_decision. Defined.

Definition value_sort (v : value) : sort :=
  match v with VBool _ => SBool | VBV w _ => SBV w end.

(** The constructors of the API, named after the C++ functions and operators. *)
Inductive z3op :=
| ZConst (s : symbol) (w : Z)
| ZBvVal (n w : Z)
| ZBoolVal (b : bool)
| ZIte
| ZConcat
| ZZext (i : Z)
| ZSext (i : Z)
| ZExtract (hi lo : Z)
| ZNot
| ZNeg
| ZEq
| ZNe
| ZUgt | ZUge | ZUlt | ZUle
| ZSgt | ZSge | ZSlt | ZSle
| ZBvAnd | ZBvOr | ZAnd | ZOr | ZBvXor
| ZShl | ZLshr | ZAshr
| ZAdd | ZSub | ZMul
| ZUdiv | ZSdiv | ZUrem | ZSrem.
#[export] Instance z3op_eq_dec : EqDecision z3op.
Proof. solve_decision. Defined.

(** ** Bit-vector arithmetic (SMT-LIB [FixedSizeBitVectors]) *)
Definition bvneg (w a : Z) : Z := wrap w (- a).
Definition bvadd (w a b : Z) : Z := wrap w (a + b).
Definition bvsub (w a b : Z) : Z := wrap w (a - b).
Definition bvmul (w a b : Z) : Z := wrap w (a * b).
Definition bvudiv (w a b : Z) : Z := if b =? 0 then 2 ^ w - 1 else a / b.
Definition bvurem (w a b : Z) : Z := if b =? 0 then a else a mod b.
Definition bvsdiv (w a b : Z) : Z :=
  let x := swrap w a in let y := swrap w b in
  if y =? 0 then (if x <? 0 then 1 else 2 ^ w - 1) else wrap w (Z.quot x y).
Definition bvsrem (w a b : Z) : Z :=
  let x := swrap w a in let y := swrap w b in
  if y =? 0 then a else wrap w (Z.rem x y).
Definition bvshl (w a b : Z) : Z := if w <=? b then 0 else wrap w (Z.shiftl a b).
Definition bvlshr (w a b : Z) : Z := if w <=? b then 0 else Z.shiftr a b.
Definition bvashr (w a b : Z) : Z :=
  wrap w (Z.shiftr (swrap w a) (Z.min b w)).
Definition bvextract (hi lo a : Z) : Z := wrap (hi - lo + 1) (Z.shiftr a lo).
Definition bvconcat (wb a b : Z) : Z := Z.lor (Z.shiftl a wb) b.
Definition bvsext (w i a : Z) : Z := wrap (w + i) (swrap w a).

(** The sort of an application; [None]: the API reports an error. *)
Definition bv2 (s : Z → sort) (args : list sort) : option sort :=
  match args with
  | [SBV w; SBV w'] => if w =? w' then Some (s w) else None
  | _ => None
  end.
Definition op_sort (o : z3op) (args : list sort) : option sort :=
  match o, args with
  | ZConst _ w, [] => if 0 <? w then Some (SBV w) else None
  | ZBvVal _ w, [] => if 0 <? w then Some (SBV w) else None
  | ZBoolVal _, [] => Some SBool
  | ZIte, [SBool; s; s'] => if decide (s = s') then Some s else None
  | ZConcat, [SBV w; SBV w'] => Some (SBV (w + w'))
  | ZZext i, [SBV w] => if 0 <=? i then Some (SBV (w + i)) else None
  | ZSext i, [SBV w] => if 0 <=? i then Some (SBV (w + i)) else None
  | ZExtract hi lo, [SBV w] =>
      if (0 <=? lo) && (lo <=? hi) && (hi <? w) then Some (SBV (hi - lo + 1)) else None
  | ZNot, [SBool] => Some SBool
  | ZNeg, [SBV w] => Some (SBV w)
  | (ZEq | ZNe), [s; s'] => if decide (s = s') then Some SBool else None
  | (ZUgt | ZUge | ZUlt | ZUle | ZSgt | ZSge | ZSlt | ZSle), _ => bv2 (λ _, SBool) args
  | (ZAnd | ZOr), [SBool; SBool] => Some SBool
  | (ZBvAnd | ZBvOr | ZBvXor | ZShl | ZLshr | ZAshr | ZAdd | ZSub | ZMul
     | ZUdiv | ZSdiv | ZUrem | ZSrem), _ => bv2 SBV args
  | _, _ => None
  end.

(** The meaning of an application of the right sort, in an environment giving
    the constants; outside the sorting rules the value is arbitrary. *)
Definition op_sem (env : symbol → Z) (o : z3op) (args : list value) : value :=
  match o, args with
  | ZConst s w, [] => VBV w (wrap w (env s))
  | ZBvVal n w, [] => VBV w (wrap w n)
  | ZBoolVal b, [] => VBool b
  | ZIte, [VBool c; v; v'] => if c then v else v'
  | ZConcat, [VBV w a; VBV w' b] => VBV (w + w') (bvconcat w' a b)
  | ZZext i, [VBV w a] => VBV (w + i) a
  | ZSext i, [VBV w a] => VBV (w + i) (bvsext w i a)
  | ZExtract hi lo, [VBV w a] => VBV (hi - lo + 1) (bvextract hi lo a)
  | ZNot, [VBool b] => VBool (negb b)
  | ZNeg, [VBV w a] => VBV w (bvneg w a)
  | ZEq, [v; v'] => VBool (bool_decide (v = v'))
  | ZNe, [v; v'] => VBool (negb (bool_decide (v = v')))
  | ZUgt, [VBV w a; VBV _ b] => VBool (b <? a)
  | ZUge, [VBV w a; VBV _ b] => VBool (b <=? a)
  | ZUlt, [VBV w a; VBV _ b] => VBool (a <? b)
  | ZUle, [VBV w a; VBV _ b] => VBool (a <=? b)
  | ZSgt, [VBV w a; VBV _ b] => VBool (swrap w b <? swrap w a)
  | ZSge, [VBV w a; VBV _ b] => VBool (swrap w b <=? swrap w a)
  | ZSlt, [VBV w a; VBV _ b] => VBool (swrap w a <? swrap w b)
  | ZSle, [VBV w a; VBV _ b] => VBool (swrap w a <=? swrap w b)
  | ZAnd, [VBool a; VBool b] => VBool (a && b)
  | ZOr, [VBool a; VBool b] => VBool (a || b)
  | ZBvAnd, [VBV w a; VBV _ b] => VBV w (Z.land a b)
  | ZBvOr, [VBV w a; VBV _ b] => VBV w (Z.lor a b)
  | ZBvXor, [VBV w a; VBV _ b] => VBV w (Z.lxor a b)
  | ZShl, [VBV w a; VBV _ b] => VBV w (bvshl w a b)
  | ZLshr, [VBV w a; VBV _ b] => VBV w (bvlshr w a b)
  | ZAshr, [VBV w a; VBV _ b] => VBV w (bvashr w a b)
  | ZAdd, [VBV w a; VBV _ b] => VBV w (bvadd w a b)
  | ZSub, [VBV w a; VBV _ b] => VBV w (bvsub w a b)
  | ZMul, [VBV w a; VBV _ b] => VBV w (bvmul w a b)
  | ZUdiv, [VBV w a; VBV _ b] => VBV w (bvudiv w a b)
  | ZSdiv, [VBV w a; VBV _ b] => VBV w (bvsdiv w a b)
  | ZUrem, [VBV w a; VBV _ b] => VBV w (bvurem w a b)
  | ZSrem, [VBV w a; VBV _ b] => VBV w (bvsrem w a b)
  | _, _ => VBool false
  end.

(** ** The interface *)

(** [z3::check_result] together with the model of a [sat] answer: the constants
    it interprets, with the unsigned values of their numerals. *)
Inductive check_result :=
| Sat (m : list (symbol * Z))
| Unsat
| Unknown.

Class Z3 := {
  expr : Type;
  (** an application; [inl] is a thrown [z3::exception] *)
  z3_mk : z3op → list expr → string + expr;
  z3_simplify : expr → expr;
  z3_sort : expr → sort;
  (** [lhs.id() == rhs.id()] *)
  z3_same : expr → expr → bool;
  (** the answer of the [n]-th [check()] on the asserted expressions *)
  z3_check : Z → list expr → check_result;
  (** the meaning of an expression (used by specifications only) *)
  z3_eval : (symbol → Z) → expr → value;
}.

Definition agrees (env : symbol → Z) (m : list (symbol * Z)) : Prop :=
  ∀ s v, (s, v) ∈ m → env s = v.

Class Z3Laws (Zi : Z3) : Prop := {
  mk_well_sorted o es s :
    op_sort o (map z3_sort es) = Some s →
    ∃ e, z3_mk o es = inr e ∧ z3_sort e = s ∧
      ∀ env, z3_eval env e = op_sem env o (map (z3_eval env) es);
  simplify_sort e : z3_sort (z3_simplify e) = z3_sort e;
  simplify_eval env e : z3_eval env (z3_simplify e) = z3_eval env e;
  same_eval e e' : z3_same e e' = true → ∀ env, z3_eval env e = z3_eval env e';
  same_refl e : z3_same e e = true;
  check_sat n es m env e :
    z3_check n es = Sat m → agrees env m → e ∈ es → z3_eval env e = VBool true;
  (** a model interprets a constant once *)
  check_model n es m : z3_check n es = Sat m → NoDup m.*1;
  (** the constants named by integers are declared at 8 bits, so the numerals a
      model gives them are bytes *)
  check_bytes n es m k v : z3_check n es = Sat m → (SInt k, v) ∈ m → in_range 8 v;
}.

(** ** A reference implementation *)
Module Ref.
Inductive term :=
| T0 (o : z3op)
| T1 (o : z3op) (a : term)
| T2 (o : z3op) (a b : term)
| T3 (o : z3op) (a b c : term).
#[export] Instance term_eq_dec : EqDecision term.
Proof. solve_decision. Defined.

Definition app (o : z3op) (ts : list term) : string + term :=
  match ts with
  | [] => inr (T0 o)
  | [a] => inr (T1 o a)
  | [a; b] => inr (T2 o a b)
  | [a; b; c] => inr (T3 o a b c)
  | _ => inl "wrong number of arguments"
  end.

Fixpoint tsort (t : term) : sort :=
  default SBool
    match t with
    | T0 o => op_sort o []
    | T1 o a => op_sort o [tsort a]
    | T2 o a b => op_sort o [tsort a; tsort b]
    | T3 o a b c => op_sort o [tsort a; tsort b; tsort c]
    end.

Fixpoint teval (env : symbol → Z) (t : term) : value :=
  match t with
  | T0 o => op_sem env o []
  | T1 o a => op_sem env o [teval env a]
  | T2 o a b => op_sem env o [teval env a; teval env b]
  | T3 o a b c => op_sem env o [teval env a; teval env b; teval env c]
  end.

Definition mk (o : z3op) (ts : list term) : string + term :=
  match op_sort o (map tsort ts) with
  | Some _ => app o ts
  | None => inl "Sorts are incompatible"
  end.

Definition op_symbols (o : z3op) : list symbol :=
  match o with ZConst s _ => [s] | _ => [] end.
Fixpoint symbols (t : term) : list symbol :=
  match t with
  | T0 o => op_symbols o
  | T1 o a => op_symbols o ++ symbols a
  | T2 o a b => op_symbols o ++ symbols a ++ symbols b
  | T3 o a b c => op_symbols o ++ symbols a ++ symbols b ++ symbols c
  end.

Definition env_of (m : list (symbol * Z)) (s : symbol) : Z :=
  match list_find (λ p, p.1 = s) m with Some (_, p) => p.2 | None => 0 end.

Definition holds (m : list (symbol * Z)) (t : term) : bool :=
  bool_decide (teval (env_of m) t = VBool true).

(** Exhaustive search over the values below [bound] of the constants. *)
Fixpoint search (bound : nat) (ss : list symbol) (m : list (symbol * Z)) (ts : list term)
    : option (list (symbol * Z)) :=
  match ss with
  | [] => if forallb (holds m) ts then Some m else None
  | s :: ss =>
      (fix try (n : nat) : option (list (symbol * Z)) :=
         match n with
         | O => None
         | S n => match search bound ss ((s, Z.of_nat n) :: m) ts with
                  | Some m' => Some m'
                  | None => try n
                  end
         end) bound
  end.

Definition check (n : Z) (ts : list term) : check_result :=
  match search 256 (remove_dups (concat (map symbols ts))) [] ts with
  | Some m => Sat m
  | None => Unknown
  end.

Lemma search_spec bound ss m ts m' :
  search bound ss m ts = Some m' →
  (∃ m0, m' = m0 ++ m ∧ m0.*1 = reverse ss) ∧ Forall (λ t, holds m' t = true) ts.
Proof.
  revert m. induction ss as [|s ss IH]; intros m; cbn [search].
  { destruct (forallb _ _) eqn:Hf; [|done]. intros [= <-]. split; [by exists []|].
    apply Forall_forall. intros t Ht. rewrite forallb_forall in Hf.
    by apply Hf, list_elem_of_In. }
  generalize bound at 2. intros n. induction n as [|n IHn]; [by intros H|].
  destruct (search bound ss _ ts) as [m1|] eqn:Hs; [|by apply IHn].
  intros [= <-]. apply IH in Hs as [(m0 & -> & Hm0) Hh]. split; [|done].
  exists (m0 ++ [(s, Z.of_nat n)]). rewrite <-(assoc_L (++)). split; [done|].
  rewrite fmap_app, Hm0, reverse_cons. done.
Qed.

Lemma search_bytes bound ss m ts m' :
  search bound ss m ts = Some m' →
  Forall (λ p, 0 ≤ p.2 < Z.of_nat bound) m → Forall (λ p, 0 ≤ p.2 < Z.of_nat bound) m'.
Proof.
  revert m. induction ss as [|s ss IH]; intros m; cbn [search].
  { destruct (forallb _ _); [|done]. by intros [= <-]. }
  assert (∀ n, (n ≤ bound)%nat → (fix try (n : nat) : option (list (symbol * Z)) :=
    match n with
    | O => None
    | S n => match search bound ss ((s, Z.of_nat n) :: m) ts with
             | Some m' => Some m' | None => try n end
    end) n = Some m' → Forall (λ p, 0 ≤ p.2 < Z.of_nat bound) m →
    Forall (λ p, 0 ≤ p.2 < Z.of_nat bound) m') as H; [|by apply H].
  induction n as [|n IHn]; intros Hn; [done|].
  destruct (search bound ss _ ts) as [m1|] eqn:Hs; [|apply IHn; lia].
  intros [= <-] Hm. eapply IH; [done|]. apply Forall_cons. split; [simpl; lia|done].
Qed.

Lemma op_sem_env env env' o vs :
  (∀ s, s ∈ op_symbols o → env s = env' s) → op_sem env o vs = op_sem env' o vs.
Proof.
  intros H. destruct o as [s w| | | | | | | | | | | | | | | | | | | | | | | | | | | | | | | | | |];
    [|done..]. simpl. destruct vs; [|done]. by rewrite H by (simpl; set_solver).
Qed.

Lemma teval_env env env' t :
  (∀ s, s ∈ symbols t → env s = env' s) → teval env t = teval env' t.
Proof.
  induction t; simpl; intros Hs;
    repeat match goal with IH : _ → teval env ?a = _ |- _ =>
      rewrite IH by set_solver; clear IH end; apply op_sem_env; set_solver.
Qed.

(** The search finds a model when an environment of values below the bound
    satisfies the terms. *)
Lemma search_complete bound env ss m ts :
  (∀ s, 0 ≤ env s < Z.of_nat bound) → (∀ t, t ∈ ts → teval env t = VBool true) →
  (∀ t s, t ∈ ts → s ∈ symbols t → s ∈ ss ∨ env_of m s = env s) →
  ∃ m', search bound ss m ts = Some m'.
Proof.
  intros Henv Hts. revert m. induction ss as [|s ss IH]; intros m Hm; cbn [search].
  { exists m. rewrite (proj2 (forallb_forall _ _)); [done|]. intros t Ht%list_elem_of_In.
    apply bool_decide_eq_true. rewrite <-(Hts t Ht). apply teval_env. intros x Hx.
    destruct (Hm t x Ht Hx) as [H|H]; [by apply not_elem_of_nil in H|done]. }
  assert (Hmore : ∃ m', search bound ss ((s, Z.of_nat (Z.to_nat (env s))) :: m) ts = Some m').
  { apply IH. intros t x Ht Hx. unfold env_of. simpl. case_decide as Hs; simpl.
    - right. subst x. specialize (Henv s). lia.
    - destruct (Hm t x Ht Hx) as [[->|H]%elem_of_cons|H]; [done|by left|right].
      rewrite <-H. unfold env_of. by destruct (list_find _ m) as [[]|]. }
  assert (Z.to_nat (env s) < bound)%nat as Hb by (specialize (Henv s); lia).
  revert Hb. generalize bound at 1 3. intros n. induction n as [|n IHn]; intros Hn; [lia|].
  destruct (search bound ss ((s, Z.of_nat n) :: m) ts) as [m1|] eqn:Hs; [by eexists|].
  apply IHn. destruct (decide (n = Z.to_nat (env s))) as [->|]; [|lia].
  destruct Hmore as [m' Hm']. congruence.
Qed.
Lemma check_complete env n ts :
  (∀ s, 0 ≤ env s < 256) → (∀ t, t ∈ ts → teval env t = VBool true) → ∃ m, check n ts = Sat m.
Proof.
  intros Henv Hts.
  destruct (search_complete 256 env (remove_dups (concat (map symbols ts))) [] ts) as [m Hm]; [done|done| |].
  - intros t s Ht Hs. left. apply elem_of_remove_dups, list_elem_of_In, in_concat. exists (symbols t).
    split; [by apply in_map, list_elem_of_In|by apply list_elem_of_In].
  - exists m. unfold check. by rewrite Hm.
Qed.

Lemma env_of_agrees m s v : NoDup m.*1 → (s, v) ∈ m → env_of m s = v.
Proof.
  unfold env_of. induction m as [|[s' v'] m IH]; intros Hnd Hin; [by apply not_elem_of_nil in Hin|].
  apply NoDup_cons in Hnd as [Hn Hnd]. simpl. case_decide as Hs; simpl in *.
  - apply elem_of_cons in Hin as [[= -> ->]|Hin]; [done|]. subst s'.
    exfalso. apply Hn. by apply (list_elem_of_fmap_2 fst) in Hin.
  - apply elem_of_cons in Hin as [[= -> ->]|Hin]; [done|].
    specialize (IH Hnd Hin). by destruct (list_find _ m) as [[]|].
Qed.

#[export] Instance z3 : Z3 := {|
  expr := term;
  z3_mk := mk;
  z3_simplify := λ t, t;
  z3_sort := tsort;
  z3_same := λ a b, bool_decide (a = b);
  z3_check := check;
  z3_eval := teval;
|}.

#[export] Instance z3_laws : Z3Laws z3.
Proof.
  split.
  - intros o es s Hs. simpl in *. unfold mk. rewrite Hs.
    destruct es as [|a [|b [|c [|d es]]]]; simpl in *;
      [by eexists; split_and!; [done|simpl; by rewrite Hs|done]..|].
    exfalso. destruct o; simpl in Hs; try done; repeat case_match; done.
  - done.
  - done.
  - intros e e' He env. simpl in *. apply bool_decide_eq_true in He. by subst.
  - intros e. simpl. by apply bool_decide_eq_true.
  - intros n es m env e Hc Ha He. simpl in *. unfold check in Hc.
    destruct (search _ _ _) as [m'|] eqn:Hs; simplify_eq.
    apply search_spec in Hs as [(m0 & -> & Hm0) Hh]. rewrite app_nil_r in *.
    rewrite Forall_forall in Hh. specialize (Hh e He). apply bool_decide_eq_true in Hh.
    rewrite <-Hh. apply teval_env. intros s Hsym.
    assert (NoDup m0.*1) as Hnd by (rewrite Hm0, reverse_Permutation; apply NoDup_remove_dups).
    assert (s ∈ m0.*1) as Hin.
    { rewrite Hm0, elem_of_reverse, elem_of_remove_dups.
      apply list_elem_of_In, in_concat. exists (symbols e).
      split; [by apply in_map, list_elem_of_In|by apply list_elem_of_In]. }
    apply list_elem_of_fmap in Hin as ([s' v] & -> & Hin). simpl in *.
    rewrite (env_of_agrees _ _ _ Hnd Hin). by apply Ha.
  - intros n es m Hc. simpl in Hc. unfold check in Hc.
    destruct (search _ _ _) as [m'|] eqn:Hs; simplify_eq.
    apply search_spec in Hs as [(m0 & -> & Hm0) _]. rewrite app_nil_r, Hm0.
    rewrite reverse_Permutation. apply NoDup_remove_dups.
  - intros n es m k v Hc Hin. simpl in Hc. unfold check in Hc.
    destruct (search _ _ _) as [m'|] eqn:Hs; simplify_eq.
    apply search_bytes in Hs; [|done]. rewrite Forall_forall in Hs. by apply Hs in Hin.
Qed.
End Ref.

#[export] Existing Instance Ref.z3_laws.
