(* ===== verification/State.v ===== *)
(** * The state of the runtime

    The static variables of [dfsan.cc], grouped by component, with the memories
    they manage: the label store, the shadow and application memories, the
    taint source, the solver, the branch bookkeeping and the output files. *)
From S2P Require Import Prelude Labels UnionTable Union Z3.

(** ** Memories: zero-filled, byte- or slot-addressed *)
Definition peek (m : gmap Z Z) (a : Z) : Z := default 0 (m !! a).
Definition poke (m : gmap Z Z) (a v : Z) : gmap Z Z := <[a := v]> m.

Lemma peek_poke m a b v : peek (poke m a v) b = if decide (a = b) then v else peek m b.
Proof. unfold peek, poke. rewrite lookup_insert. by destruct (decide (a = b)). Qed.
Lemma peek_poke_eq m a v : peek (poke m a v) a = v.
Proof. by rewrite peek_poke, decide_True. Qed.
Lemma peek_poke_ne m a b v : a ≠ b → peek (poke m a v) b = peek m b.
Proof. intros. by rewrite peek_poke, decide_False. Qed.

(** ** Files: contents by path, open descriptors with their offsets

    [os_denied] are the paths [open] refuses; [os_write_ok] is whether
    [write(2)] succeeds. *)
Record os := Os {
  os_files : gmap string (list Z);
  os_fds : gmap Z (string * Z);
  os_next_fd : Z;
  os_denied : gset string;
  os_write_ok : bool;
}.

(** [struct Flags] ([dfsan_flags.inc]) *)
Record Flags := MkFlags {
  warn_unimplemented : bool;
  warn_nonzero_labels : bool;
  strict_data_dependencies : bool;
  dump_labels_at_exit : string;
  fl_taint_file : string;
  fl_union_table : string;
  fl_output_dir : string;
  fl_instance_id : Z;
  fl_session_id : Z;
  fl_debug : bool;
}.

Section state.
Context {Zi : Z3}.

(** [branch_dep_t]: [expr_deps] is a set up to [z3_same]. *)
Record branch_dep_t := BranchDep {
  expr_deps : list expr;
  input_deps : gset Z;
}.

(** [z3::solver]: the stack of assertion frames, the number of checks made
    and the timeout parameter. *)
Record solver := Solver {
  sv_frames : list (list expr);
  sv_checks : Z;
  sv_timeout : option Z;
}.

(** [__output_dir], [__instance_id], [__session_id], [__current_index] *)
Record output := Output {
  output_dir : string;
  instance_id : Z;
  session_id : Z;
  current_index : Z;
}.

Record rt := Rt {
  rt_labels : lstate expr;
  rt_shadow : gmap Z Z;
  rt_mem : gmap Z Z;
  rt_tainted : taint_file;
  rt_solver : solver;
  rt_callstack : Z;
  rt_branches : gmap (Z * Z) Z;
  rt_branch_deps : list (option branch_dep_t);
  rt_output : output;
  rt_flags : Flags;
  rt_os : os;
}.

Definition set_labels (x : lstate expr) (s : rt) : rt :=
  Rt x (rt_shadow s) (rt_mem s) (rt_tainted s) (rt_solver s) (rt_callstack s)
    (rt_branches s) (rt_branch_deps s) (rt_output s) (rt_flags s) (rt_os s).
Definition set_shadow (x : gmap Z Z) (s : rt) : rt :=
  Rt (rt_labels s) x (rt_mem s) (rt_tainted s) (rt_solver s) (rt_callstack s)
    (rt_branches s) (rt_branch_deps s) (rt_output s) (rt_flags s) (rt_os s).
Definition set_mem (x : gmap Z Z) (s : rt) : rt :=
  Rt (rt_labels s) (rt_shadow s) x (rt_tainted s) (rt_solver s) (rt_callstack s)
    (rt_branches s) (rt_branch_deps s) (rt_output s) (rt_flags s) (rt_os s).
Definition set_tainted (x : taint_file) (s : rt) : rt :=
  Rt (rt_labels s) (rt_shadow s) (rt_mem s) x (rt_solver s) (rt_callstack s)
    (rt_branches s) (rt_branch_deps s) (rt_output s) (rt_flags s) (rt_os s).
Definition set_solver_st (x : solver) (s : rt) : rt :=
  Rt (rt_labels s) (rt_shadow s) (rt_mem s) (rt_tainted s) x (rt_callstack s)
    (rt_branches s) (rt_branch_deps s) (rt_output s) (rt_flags s) (rt_os s).
Definition set_branches (x : gmap (Z * Z) Z) (s : rt) : rt :=
  Rt (rt_labels s) (rt_shadow s) (rt_mem s) (rt_tainted s) (rt_solver s) (rt_callstack s)
    x (rt_branch_deps s) (rt_output s) (rt_flags s) (rt_os s).
Definition set_branch_deps (x : list (option branch_dep_t)) (s : rt) : rt :=
  Rt (rt_labels s) (rt_shadow s) (rt_mem s) (rt_tainted s) (rt_solver s) (rt_callstack s)
    (rt_branches s) x (rt_output s) (rt_flags s) (rt_os s).
Definition set_output (x : output) (s : rt) : rt :=
  Rt (rt_labels s) (rt_shadow s) (rt_mem s) (rt_tainted s) (rt_solver s) (rt_callstack s)
    (rt_branches s) (rt_branch_deps s) x (rt_flags s) (rt_os s).
Definition set_flags_st (x : Flags) (s : rt) : rt :=
  Rt (rt_labels s) (rt_shadow s) (rt_mem s) (rt_tainted s) (rt_solver s) (rt_callstack s)
    (rt_branches s) (rt_branch_deps s) (rt_output s) x (rt_os s).
Definition set_os (x : os) (s : rt) : rt :=
  Rt (rt_labels s) (rt_shadow s) (rt_mem s) (rt_tainted s) (rt_solver s) (rt_callstack s)
    (rt_branches s) (rt_branch_deps s) (rt_output s) (rt_flags s) x.

(** An operation of the label store run on the whole state. *)
Definition on_labels {A} (m : M (lstate expr) A) : M rt A := zoom rt_labels set_labels m.

(** The invariant of the label store, on the whole state. *)
Definition rt_wf (s : rt) : Prop := wf_labels (rt_labels s).

Lemma pres_on_labels {A} (m : M (lstate expr) A) :
  pres wf_labels m → pres rt_wf (on_labels m).
Proof. intros Hm. by apply (pres_zoom wf_labels). Qed.

(** A step that leaves the label store alone preserves its invariant. *)
Lemma pres_keep_labels (f : rt → rt) :
  (∀ s, rt_labels (f s) = rt_labels s) → pres rt_wf (modify f).
Proof. intros Hf. apply pres_modify. intros s. unfold rt_wf. by rewrite Hf. Qed.

(** Labels accumulate along every outcome. *)
Definition rt_kept (s s' : rt) : Prop := labels_kept (rt_labels s) (rt_labels s').
#[export] Instance rt_kept_preorder : PreOrder rt_kept.
Proof.
  split; [intros s; apply labels_kept_preorder|]. intros a b c. apply labels_kept_preorder.
Qed.

(** A state with given labels, shadow and memory; nothing is open, asserted or
    recorded. *)
Definition no_flags : Flags := MkFlags false false false "" "" "" "" 0 0 false.
Definition no_os : os := Os ∅ ∅ 3 ∅ true.
Definition rt_of (ls : lstate expr) (shadow mem : gmap Z Z) (tf : taint_file) : rt :=
  Rt ls shadow mem tf (Solver [[]] 0 None) 0 ∅ [] (Output "." 0 0 0) no_flags no_os.

(** No record has a cached expression. *)
Definition no_caches (ls : lstate expr) : bool :=
  forallb (λ p, match li_expr p.2 with None => true | Some _ => false end)
    (map_to_list (infos ls)).
Lemma no_caches_spec ls l : no_caches ls = true → li_expr (info_at ls l) = None.
Proof.
  unfold no_caches, info_at. intros H. rewrite forallb_forall in H.
  destruct (infos ls !! l) as [i|] eqn:Hi; [|done]. specialize (H (l, i)).
  simpl in *. destruct (li_expr i); [|done]. exfalso. assert (false = true); [|done].
  apply H, list_elem_of_In. by apply elem_of_map_to_list.
Qed.
End state.

#[export] Hint Resolve pres_on_labels pres_keep_labels : rt.
