(* ===== verification/Files.v ===== *)
(** * Files ([OpenFile], [WriteToFile], [CloseFile] of [sanitizer_posix.cc])

    The file operations the runtime uses to write generated inputs and label
    dumps, on a table of file contents and open descriptors with the POSIX
    meaning of [open], [write], [lseek], [ftruncate] and [close]. *)
From S2P Require Import Prelude Labels UnionTable Union Z3 State.

(** The byte at an offset; 0 beyond the end. *)
Definition byte_at (c : list Z) (k : Z) : Z :=
  if k <? 0 then 0 else default 0 (c !! Z.to_nat k).

(** [write(2)] at an offset: a gap is filled with zeros. *)
Definition write_at (c : list Z) (off : Z) (bs : list Z) : list Z :=
  match bs with
  | [] => c
  | _ =>
      let n := Z.to_nat off in
      take n c ++ replicate (n - length c) 0 ++ bs ++ drop (n + length bs) c
  end.
(** [ftruncate(2)] *)
Definition truncate_to (c : list Z) (size : Z) : list Z :=
  let n := Z.to_nat size in take n c ++ replicate (n - length c) 0.

Definition kInvalidFd : Z := -1.

Definition with_files (f : gmap string (list Z)) (o : os) : os :=
  Os f (os_fds o) (os_next_fd o) (os_denied o) (os_write_ok o).
Definition with_fds (f : gmap Z (string * Z)) (o : os) : os :=
  Os (os_files o) f (os_next_fd o) (os_denied o) (os_write_ok o).

(** [OpenFile(path, WrOnly)]: [O_WRONLY | O_CREAT | O_TRUNC] *)
Definition OpenFile_wr (path : string) : M os Z :=
  o ← get;
  if decide (path ∈ os_denied o) then mret kInvalidFd else
  let fd := os_next_fd o in
  put (Os (<[path := []]> (os_files o)) (<[fd := (path, 0)]> (os_fds o)) (fd + 1)
         (os_denied o) (os_write_ok o)) ;;
  mret fd.

(** [WriteToFile(fd, buf, size)]: whether the write succeeded; [None] is a null
    buffer. All bytes are written or none (a partial write, which [write] may do
    and the source takes for success, is not modelled). *)
Definition WriteToFile (fd : Z) (buf : option (list Z)) : M os bool :=
  o ← get;
  match os_fds o !! fd, buf with
  | Some (path, off), Some bs =>
      if os_write_ok o then
        let c := default [] (os_files o !! path) in
        put (with_fds (<[fd := (path, off + Z.of_nat (length bs))]> (os_fds o))
              (with_files (<[path := write_at c off bs]> (os_files o)) o)) ;;
        mret true
      else mret false
  | _, _ => mret false
  end.

(** [internal_lseek(fd, offset, SEEK_SET)]: a negative offset is refused. *)
Definition lseek_set (fd offset : Z) : M os () :=
  modify (λ o,
    match os_fds o !! fd with
    | Some (path, _) => if offset <? 0 then o else with_fds (<[fd := (path, offset)]> (os_fds o)) o
    | None => o
    end).

Definition internal_ftruncate (fd size : Z) : M os () :=
  modify (λ o,
    match os_fds o !! fd with
    | Some (path, _) =>
        if size <? 0 then o
        else with_files (<[path := truncate_to (default [] (os_files o !! path)) size]> (os_files o)) o
    | None => o
    end).

Definition CloseFile (fd : Z) : M os () := modify (λ o, with_fds (delete fd (os_fds o)) o).

(** ** Lemmas *)
Lemma byte_at_write c off v k :
  0 ≤ off → 0 ≤ k → byte_at (write_at c off [v]) k = if decide (k = off) then v else byte_at c k.
Proof.
  intros Ho Hk. unfold byte_at, write_at. rewrite (proj2 (Z.ltb_ge k 0)) by done.
  cbn [length]. set (n := Z.to_nat off). set (j := Z.to_nat k).
  assert (k = off ↔ j = n) as Heq by (unfold j, n; lia).
  destruct (decide (k = off)) as [E|E].
  - apply Heq in E as ->. rewrite app_assoc. rewrite lookup_app_r.
    + rewrite length_app, length_take, length_replicate.
      replace (n - _)%nat with 0%nat by lia. done.
    + rewrite length_app, length_take, length_replicate. lia.
  - assert (j ≠ n) as Hj by tauto.
    destruct (decide (j < n)%nat) as [Hlt|Hge].
    + rewrite app_assoc, lookup_app_l by (rewrite length_app, length_take, length_replicate; lia).
      destruct (decide (j < length c)%nat).
      * rewrite lookup_app_l by (rewrite length_take; lia). by rewrite lookup_take_lt.
      * rewrite lookup_app_r by (rewrite length_take; lia).
        rewrite (lookup_ge_None_2 c) by lia.
        destruct (replicate _ 0 !! _) as [x|] eqn:Hx; [|done].
        apply lookup_replicate in Hx as [-> _]. done.
    + rewrite app_assoc, lookup_app_r
        by (rewrite length_app, length_take, length_replicate; lia).
      rewrite length_app, length_take, length_replicate.
      rewrite lookup_app_r by (simpl; lia). rewrite lookup_drop. cbn [length].
      replace (n + 1 + _)%nat with j by lia. done.
Qed.

Lemma byte_at_take c k n : 0 ≤ k < n → byte_at (take (Z.to_nat n) c) k = byte_at c k.
Proof.
  intros Hk. unfold byte_at. rewrite (proj2 (Z.ltb_ge k 0)) by lia.
  by rewrite lookup_take_lt by lia.
Qed.
Lemma write_at_empty bs : write_at [] 0 bs = bs.
Proof. destruct bs as [|b bs]; [done|]. unfold write_at. simpl. by rewrite app_nil_r. Qed.
