(* ===== verification/Denote.v ===== *)
(** * The meaning of labels

    The specification the symbolic executor is measured against: the value a
    label stands for, as a function of the input file. It is defined directly
    on the records of the label store with arithmetic on integers, without
    expressions, caches or effects. [None] is the meaning of a record the
    solver's sorting rules reject. *)
From S2P Require Import Prelude Labels UnionTable Union Z3 State.

(** An input: its bytes and the value of its size. *)
Record input := Input { in_byte : Z → Z; in_size : Z }.

(** How the runtime names the parts of the input: bytes by integer symbols, the
    size by the string symbol [fsize]. *)
Definition env_of (inp : input) (s : symbol) : Z :=
  match s with
  | SInt k => in_byte inp k
  | SStr n => if decide (n = "fsize"%string) then in_size inp else 0
  end.

(** Little-endian value of a list of bytes. *)
Fixpoint le_combine (bs : list Z) : Z :=
  match bs with
  | [] => 0
  | b :: bs => u8 b + 2 ^ 8 * le_combine bs
  end.

Definition same_width (f : Z → Z → Z → value) (v v' : value) : option value :=
  match v, v' with
  | VBV w a, VBV w' b => if w =? w' then Some (f w a b) else None
  | _, _ => None
  end.

Section operators.
Context {Ops : LlvmOps}.

(** LLVM's integer predicates. *)
Definition cmp_sem (pred : Z) (v v' : value) : option value :=
  let signed (f : Z → Z → bool) :=
    same_width (λ w a b, VBool (f (swrap w a) (swrap w b))) v v' in
  let unsigned (f : Z → Z → bool) := same_width (λ w a b, VBool (f a b)) v v' in
  if pred =? bveq then
    (if decide (value_sort v = value_sort v') then Some (VBool (bool_decide (v = v'))) else None)
  else if pred =? bvneq then
    (if decide (value_sort v = value_sort v') then Some (VBool (negb (bool_decide (v = v')))) else None)
  else if pred =? bvugt then unsigned (λ a b, b <? a)
  else if pred =? bvuge then unsigned (λ a b, b <=? a)
  else if pred =? bvult then unsigned Z.ltb
  else if pred =? bvule then unsigned Z.leb
  else if pred =? bvsgt then signed (λ a b, b <? a)
  else if pred =? bvsge then signed (λ a b, b <=? a)
  else if pred =? bvslt then signed Z.ltb
  else if pred =? bvsle then signed Z.leb
  else None.

(** A binary operator of a record with operator field [op] and size [size]. *)
Definition bin_sem (op size : Z) (v v' : value) : option value :=
  let kind := Z.land op 255 in
  let bv f := same_width (λ w a b, VBV w (f w a b)) v v' in
  let logical (f : bool → bool → bool) (g : Z → Z → Z) :=
    if size =? 1 then
      match v, v' with VBool a, VBool b => Some (VBool (f a b)) | _, _ => None end
    else bv (λ _, g) in
  if kind =? op_And then logical andb Z.land
  else if kind =? op_Or then logical orb Z.lor
  else if kind =? op_Xor then bv (λ _, Z.lxor)
  else if kind =? op_Shl then bv bvshl
  else if kind =? op_LShr then bv bvlshr
  else if kind =? op_AShr then bv bvashr
  else if kind =? op_Add then bv bvadd
  else if kind =? op_Sub then bv bvsub
  else if kind =? op_Mul then bv bvmul
  else if kind =? op_UDiv then bv bvudiv
  else if kind =? op_SDiv then bv bvsdiv
  else if kind =? op_URem then bv bvurem
  else if kind =? op_SRem then bv bvsrem
  else if kind =? op_ICmp then cmp_sem (Z.shiftr op 8) v v'
  else if kind =? op_Concat then
    match v, v' with
    | VBV w a, VBV w' b => Some (VBV (w + w') (a + 2 ^ w * b))
    | _, _ => None
    end
  else None.
End operators.

Section denote.
Context {E : Type} {Ops : LlvmOps}.
Context (ls : lstate E) (mem : gmap Z Z).

Definition mem_bytes (addr n : Z) : list Z :=
  map (λ i, peek mem (addr + i)) (range 0 n).
Definition input_bytes (inp : input) (offset n : Z) : list Z :=
  map (λ i, in_byte inp (s32 (offset + i))) (range 0 n).

(** The widths of the concrete operands of a record ([u8 size] in
    [serialize]). *)
Definition size_a (i : dfsan_label_info E) : Z :=
  if (li_op i =? op_Concat) && (li_l1 i =? 0)
  then u8 (li_size i - li_size (info_at ls (li_l2 i))) else u8 (li_size i).
Definition size_b (i : dfsan_label_info E) : Z :=
  if (li_op i =? op_Concat) && (li_l2 i =? 0)
  then u8 (li_size i - li_size (info_at ls (li_l1 i))) else size_a i.

(** A concrete operand. *)
Definition concrete (size w n : Z) : value :=
  if size =? 1 then VBool (n =? 1) else VBV w (wrap w n).

Definition zext_sem (size : Z) (v : value) : option value :=
  match v with
  | VBool b => if 1 <=? size then Some (VBV size (Z.b2z b)) else None
  | VBV w a => if w <=? size then Some (VBV size a) else None
  end.
Definition sext_sem (size : Z) (v : value) : option value :=
  match v with
  | VBV w a => if w <=? size then Some (VBV size (wrap size (swrap w a))) else None
  | VBool _ => None
  end.
Definition slice_sem (lo size : Z) (v : value) : option value :=
  match v with
  | VBV w a =>
      if (1 <=? size) && (lo + size <=? w) && (lo + size <? 2 ^ 32)
      then Some (VBV size ((a / 2 ^ lo) mod 2 ^ size)) else None
  | VBool _ => None
  end.
Definition not_sem (v : value) : option value :=
  match v with VBool b => Some (VBool (negb b)) | VBV _ _ => None end.
Definition neg_sem (v : value) : option value :=
  match v with VBV w a => Some (VBV w (bvneg w a)) | VBool _ => None end.

(** The value of a record, given the values [rec] of the operand labels. *)
Definition denote_info (inp : input) (rec : Z → option value) (i : dfsan_label_info E)
    : option value :=
  let op := li_op i in
  if op =? 0 then Some (VBV 8 (u8 (in_byte inp (s32 (li_op1 i)))))
  else if op =? op_Load then
    let n := Z.max 1 (li_l2 i) in
    Some (VBV (8 * n) (le_combine (input_bytes inp (li_op1 (info_at ls (li_l1 i))) n)))
  else if op =? op_ZExt then v ← rec (li_l1 i); zext_sem (li_size i) v
  else if op =? op_SExt then v ← rec (li_l1 i); sext_sem (li_size i) v
  else if op =? op_Trunc then v ← rec (li_l1 i); slice_sem 0 (li_size i) v
  else if op =? op_Extract then v ← rec (li_l1 i); slice_sem (li_op2 i) (li_size i) v
  else if op =? op_Not then
    if (li_l2 i =? 0) || negb (li_size i =? 1) then None
    else v ← rec (li_l2 i); not_sem v
  else if op =? op_Neg then
    if li_l2 i =? 0 then None else v ← rec (li_l2 i); neg_sem v
  else if op =? op_fmemcmp then
    v ← (if 1 <=? li_l1 i then rec (li_l1 i)
         else if li_op1 i =? 0 then None
         else let n := Z.max 1 (u8 (li_size i)) in
              Some (VBV (8 * n) (le_combine (mem_bytes (li_op1 i) n))));
    if li_l2 i <? 1 then None else
    v' ← rec (li_l2 i);
    if decide (value_sort v = value_sort v')
    then Some (VBV 32 (if decide (v = v') then 0 else 1)) else None
  else if op =? op_fsize then
    if 0 <? li_size i
    then Some (VBV (li_size i) (wrap (li_size i) (in_size inp - li_op1 i))) else None
  else
    if (0 <? size_a i) && (0 <? size_b i) && ((1 <=? li_l1 i) || (1 <=? li_l2 i)) then
      v ← (if 1 <=? li_l1 i then rec (li_l1 i)
           else Some (concrete (li_size i) (size_a i) (li_op1 i)));
      v' ← (if 1 <=? li_l2 i then rec (li_l2 i)
            else Some (concrete (li_size i) (size_b i) (li_op2 i)));
      bin_sem op (li_size i) v v'
    else None.

Definition denote_step (inp : input) (rec : Z → option value) (label : Z) : option value :=
  if (label <? 1) || (label =? kInitializingLabel) then None
  else denote_info inp rec (info_at ls label).

(** The operands of a record are smaller labels, so the label itself bounds
    the depth. *)
Fixpoint denote_fuel (fuel : nat) (inp : input) (label : Z) : option value :=
  match fuel with
  | O => None
  | S fuel => denote_step inp (denote_fuel fuel inp) label
  end.
Definition denote (inp : input) (label : Z) : option value :=
  denote_fuel (S (Z.to_nat label)) inp label.

(** The offsets of the input bytes a label reads ([u32] keys of [deps]). *)
Definition deps_info (rec : Z → gset Z) (i : dfsan_label_info E) : gset Z :=
  let op := li_op i in
  if op =? 0 then {[ u32 (li_op1 i) ]}
  else if op =? op_Load then
    list_to_set (map (λ k, u32 (li_op1 (info_at ls (li_l1 i)) + k))
                   (range 0 (Z.max 1 (li_l2 i))))
  else if (op =? op_ZExt) || (op =? op_SExt) || (op =? op_Trunc) || (op =? op_Extract)
  then rec (li_l1 i)
  else if (op =? op_Not) || (op =? op_Neg) then rec (li_l2 i)
  else if op =? op_fsize then ∅
  else (if 1 <=? li_l1 i then rec (li_l1 i) else ∅) ∪
       (if 1 <=? li_l2 i then rec (li_l2 i) else ∅).
Definition deps_step (rec : Z → gset Z) (label : Z) : gset Z :=
  if (label <? 1) || (label =? kInitializingLabel) then ∅
  else deps_info rec (info_at ls label).
Fixpoint deps_fuel (fuel : nat) (label : Z) : gset Z :=
  match fuel with
  | O => ∅
  | S fuel => deps_step (deps_fuel fuel) label
  end.
Definition label_deps (label : Z) : gset Z := deps_fuel (S (Z.to_nat label)) label.
End denote.

(** ** Lemmas *)
Section lemmas.
Context {E : Type} {Ops : LlvmOps}.
Implicit Types ls : lstate E.

(** What the meaning of a label reads of the store. *)
Definition same_record ls ls' (l : Z) : Prop :=
  key_of (info_at ls' l) = key_of (info_at ls l) ∧
  key_of (info_at ls' (li_l1 (info_at ls l))) = key_of (info_at ls (li_l1 (info_at ls l))) ∧
  key_of (info_at ls' (li_l2 (info_at ls l))) = key_of (info_at ls (li_l2 (info_at ls l))).

Lemma denote_step_ext ls ls' mem inp rec rec' l :
  same_record ls ls' l →
  rec (li_l1 (info_at ls l)) = rec' (li_l1 (info_at ls l)) →
  rec (li_l2 (info_at ls l)) = rec' (li_l2 (info_at ls l)) →
  denote_step ls' mem inp rec' l = denote_step ls mem inp rec l.
Proof.
  intros (Hk & Hk1 & Hk2) H1 H2. unfold denote_step, denote_info, size_b, size_a. cbv zeta.
  injection Hk as E1 E2 E3 E4 E5 E6. injection Hk1 as _ _ _ Hs1 Ho1 _.
  injection Hk2 as _ _ _ Hs2 _ _.
  by rewrite ?E1, ?E2, ?E3, ?E4, ?E5, ?E6, ?Hs1, ?Ho1, ?Hs2, ?H1, ?H2.
Qed.
Lemma deps_step_ext ls ls' rec rec' l :
  same_record ls ls' l →
  rec (li_l1 (info_at ls l)) = rec' (li_l1 (info_at ls l)) →
  rec (li_l2 (info_at ls l)) = rec' (li_l2 (info_at ls l)) →
  deps_step ls' rec' l = deps_step ls rec l.
Proof.
  intros (Hk & Hk1 & Hk2) H1 H2. unfold deps_step, deps_info. cbv zeta.
  injection Hk as E1 E2 E3 E4 E5 E6. injection Hk1 as _ _ _ _ Ho1 _.
  by rewrite ?E1, ?E2, ?E3, ?E4, ?E5, ?E6, ?Ho1, ?H1, ?H2.
Qed.

(** Only the key of a record matters. *)
Lemma denote_info_key ls mem inp rec i i' :
  key_of i = key_of i' → denote_info ls mem inp rec i = denote_info ls mem inp rec i'.
Proof.
  intros Hk. injection Hk as E1 E2 E3 E4 E5 E6. unfold denote_info, size_b, size_a.
  by rewrite E1, E2, E3, E4, E5, E6.
Qed.
Lemma deps_info_key ls rec i i' :
  key_of i = key_of i' → deps_info ls rec i = deps_info ls rec i'.
Proof.
  intros Hk. injection Hk as E1 E2 E3 E4 E5 E6. unfold deps_info.
  by rewrite E1, E2, E3, E5.
Qed.

(** The meaning of the records the shadow operations build. *)
Lemma denote_concat ls mem inp rec i :
  li_op i = op_Concat → 1 ≤ li_l1 i → 0 < u8 (li_size i) → 0 < size_b ls i →
  denote_info ls mem inp rec i =
    v ← rec (li_l1 i);
    v' ← (if 1 <=? li_l2 i then rec (li_l2 i)
          else Some (concrete (li_size i) (size_b ls i) (li_op2 i)));
    match v, v' with
    | VBV w a, VBV w' b => Some (VBV (w + w') (a + 2 ^ w * b))
    | _, _ => None
    end.
Proof.
  intros Hop Hl1 Ha Hb.
  assert (Z.land op_Concat 255 = op_Concat) as Hkind.
  { change 255 with (Z.ones 8). rewrite Z.land_ones by done. apply Z.mod_small. op_lia. }
  assert (0 < size_a ls i) as Ha'.
  { unfold size_a. by rewrite (proj2 (Z.eqb_neq (li_l1 i) 0)), andb_false_r by lia. }
  unfold denote_info. cbv zeta. rewrite Hop. unfold bin_sem. rewrite Hkind. cbv zeta.
  op_tests.
  rewrite !(proj2 (Z.ltb_lt 0 _)), (proj2 (Z.leb_le 1 (li_l1 i))) by done. done.
Qed.
Lemma denote_extract ls mem inp rec i :
  li_op i = op_Extract →
  denote_info ls mem inp rec i = v ← rec (li_l1 i); slice_sem (li_op2 i) (li_size i) v.
Proof. intros Hop. unfold denote_info. cbv zeta. rewrite Hop. op_tests. done. Qed.
Lemma denote_load ls mem inp rec i :
  li_op i = op_Load →
  denote_info ls mem inp rec i =
    Some (VBV (8 * Z.max 1 (li_l2 i))
      (le_combine (input_bytes inp (li_op1 (info_at ls (li_l1 i))) (Z.max 1 (li_l2 i))))).
Proof. intros Hop. unfold denote_info. cbv zeta. rewrite Hop. op_tests. done. Qed.

Lemma operand_bounds ls m l :
  wf ls m → l ≤ last_label ls →
  0 ≤ li_l1 (info_at ls l) ≤ Z.max 0 (l - 1) ∧ 0 ≤ li_l2 (info_at ls l) ≤ Z.max 0 (l - 1).
Proof.
  intros Hwf Hl. destruct (wf_range _ _ Hwf l) as ([? _] & [? _] & _).
  destruct (decide (l < 0)) as [Hneg|].
  { unfold info_at. destruct (infos ls !! l) eqn:Hi; [|simpl; lia].
    assert (is_Some (infos ls !! l)) as Hs by eauto. apply (wf_dom _ _ Hwf) in Hs. lia. }
  destruct (operands_smaller ls m l Hwf) as [H1 H2]; [lia|].
  split; destruct (decide (li_l1 (info_at ls l) = 0)), (decide (li_l2 (info_at ls l) = 0)); lia.
Qed.

Lemma kept_same_record ls m ls' l :
  wf ls m → labels_kept ls ls' → l ≤ last_label ls → same_record ls ls' l.
Proof.
  intros Hwf [_ Hk] Hl. pose proof (operand_bounds _ _ _ Hwf Hl).
  pose proof (last_bound _ _ Hwf). split_and!; apply Hk; lia.
Qed.

Lemma denote_fuel_kept ls m ls' mem inp f f' l :
  wf ls m → labels_kept ls ls' → l ≤ last_label ls →
  (Z.to_nat l < f)%nat → (Z.to_nat l < f')%nat →
  denote_fuel ls' mem f' inp l = denote_fuel ls mem f inp l.
Proof.
  intros Hwf Hk. revert f' l. induction f as [|f IH]; intros [|f'] l Hl Hf Hf'; try lia.
  simpl. destruct (decide (l < 1)) as [Hlt|Hge].
  { unfold denote_step. by rewrite (proj2 (Z.ltb_lt _ _) Hlt). }
  pose proof (operand_bounds _ _ _ Hwf Hl).
  apply denote_step_ext; [by eapply kept_same_record|..]; symmetry; apply IH; lia.
Qed.
Lemma deps_fuel_kept ls m ls' f f' l :
  wf ls m → labels_kept ls ls' → l ≤ last_label ls →
  (Z.to_nat l < f)%nat → (Z.to_nat l < f')%nat →
  deps_fuel ls' f' l = deps_fuel ls f l.
Proof.
  intros Hwf Hk. revert f' l. induction f as [|f IH]; intros [|f'] l Hl Hf Hf'; try lia.
  simpl. destruct (decide (l < 1)) as [Hlt|Hge].
  { unfold deps_step. by rewrite (proj2 (Z.ltb_lt _ _) Hlt). }
  pose proof (operand_bounds _ _ _ Hwf Hl).
  apply deps_step_ext; [by eapply kept_same_record|..]; symmetry; apply IH; lia.
Qed.

(** The defining equations, without fuel. *)
Lemma denote_unfold ls m mem inp l :
  wf ls m → l ≤ last_label ls → denote ls mem inp l = denote_step ls mem inp (denote ls mem inp) l.
Proof.
  intros Hwf Hl. unfold denote at 1. cbn [denote_fuel].
  destruct (decide (l < 1)) as [Hlt|Hge].
  { unfold denote_step. by rewrite (proj2 (Z.ltb_lt _ _) Hlt). }
  pose proof (operand_bounds _ _ _ Hwf Hl).
  symmetry. apply denote_step_ext; [done|..];
    (eapply denote_fuel_kept; [done|done|lia|lia|lia]).
Qed.
Lemma label_deps_unfold ls m l :
  wf ls m → l ≤ last_label ls → label_deps ls l = deps_step ls (label_deps ls) l.
Proof.
  intros Hwf Hl. unfold label_deps at 1. cbn [deps_fuel].
  destruct (decide (l < 1)) as [Hlt|Hge].
  { unfold deps_step. by rewrite (proj2 (Z.ltb_lt _ _) Hlt). }
  pose proof (operand_bounds _ _ _ Hwf Hl).
  symmetry. apply deps_step_ext; [done|..]; (eapply deps_fuel_kept; [done|done|lia|lia|lia]).
Qed.

(** The meaning of a label is stable: later unions and serializations do not
    change it. *)
Lemma denote_kept ls m ls' mem inp l :
  wf ls m → labels_kept ls ls' → l ≤ last_label ls →
  denote ls' mem inp l = denote ls mem inp l.
Proof. intros. eapply denote_fuel_kept; [done|done|done|lia|lia]. Qed.
Lemma label_deps_kept ls m ls' l :
  wf ls m → labels_kept ls ls' → l ≤ last_label ls → label_deps ls' l = label_deps ls l.
Proof. intros. eapply deps_fuel_kept; [done|done|done|lia|lia]. Qed.
End lemmas.

(** ** Values stay in the range of their width *)
Definition value_ok (v : value) : Prop :=
  match v with VBool _ => True | VBV w n => 0 < w ∧ in_range w n end.

Lemma udiv_range w a b : 0 ≤ w → in_range w a → in_range w b → in_range w (bvudiv w a b).
Proof.
  intros Hw [? ?] [? ?]. unfold bvudiv. destruct (Z.eqb_spec b 0) as [->|].
  - split; lia.
  - split; [apply Z.div_pos; lia|]. apply Z.le_lt_trans with a; [|done].
    apply Z.div_le_upper_bound; nia.
Qed.
Lemma urem_range w a b : 0 ≤ w → in_range w a → in_range w b → in_range w (bvurem w a b).
Proof.
  intros Hw [? ?] [? ?]. unfold bvurem. destruct (Z.eqb_spec b 0); [done|].
  pose proof (Z.mod_pos_bound a b ltac:(lia)). unfold in_range. lia.
Qed.
Lemma one_range w : 0 < w → in_range w 1.
Proof. intros. pose proof (Z.pow_gt_1 2 w). unfold in_range. lia. Qed.
Lemma zero_range w : 0 ≤ w → in_range w 0.
Proof. intros. split; [done|]. by apply Z.pow_pos_nonneg. Qed.
Lemma ones_range w : 0 ≤ w → in_range w (2 ^ w - 1).
Proof. intros. pose proof (Z.pow_pos_nonneg 2 w). unfold in_range. lia. Qed.
Lemma lshr_range w a b : 0 ≤ w → in_range w a → in_range w b → in_range w (bvlshr w a b).
Proof.
  intros Hw [? ?] [? ?]. unfold bvlshr. case_match; [by apply zero_range|].
  rewrite Z.shiftr_div_pow2 by done. pose proof (Z.pow_pos_nonneg 2 b).
  split; [apply Z.div_pos; lia|]. apply Z.le_lt_trans with a; [|done].
  apply Z.div_le_upper_bound; nia.
Qed.
Lemma sdiv_range w a b : 0 < w → in_range w a → in_range w b → in_range w (bvsdiv w a b).
Proof.
  intros Hw Ha Hb. unfold bvsdiv. cbv zeta. case_match; [|apply wrap_range; lia].
  case_match; [by apply one_range|apply ones_range; lia].
Qed.
Lemma srem_range w a b : 0 ≤ w → in_range w a → in_range w b → in_range w (bvsrem w a b).
Proof. intros. unfold bvsrem. cbv zeta. case_match; [done|by apply wrap_range]. Qed.
Lemma shl_range w a b : 0 ≤ w → in_range w a → in_range w b → in_range w (bvshl w a b).
Proof. intros. unfold bvshl. case_match; [by apply zero_range|by apply wrap_range]. Qed.

Lemma concat_range w a w' b :
  0 ≤ w → 0 ≤ w' → in_range w a → in_range w' b → in_range (w + w') (a + 2 ^ w * b).
Proof. intros ?? [? ?] [? ?]. unfold in_range. rewrite Z.pow_add_r by done. nia. Qed.

Lemma le_combine_range bs : in_range (8 * Z.of_nat (length bs)) (le_combine bs).
Proof.
  induction bs as [|b bs IH]; [done|]. cbn [le_combine length].
  replace (8 * Z.of_nat (S (length bs))) with (8 + 8 * Z.of_nat (length bs)) by lia.
  apply concat_range; [lia|lia|apply u8_range|done].
Qed.

Lemma le_combine_snoc bs b :
  le_combine (bs ++ [b]) = le_combine bs + 2 ^ (8 * Z.of_nat (length bs)) * u8 b.
Proof.
  induction bs as [|b' bs IH]; [simpl; lia|]. cbn [le_combine app length]. rewrite IH.
  replace (8 * Z.of_nat (S (length bs))) with (8 + 8 * Z.of_nat (length bs)) by lia.
  rewrite Z.pow_add_r by lia. ring.
Qed.

(** [concat] on values: the first argument is the high part. *)
Lemma bvconcat_add w a b : 0 ≤ w → in_range w b → bvconcat w a b = b + 2 ^ w * a.
Proof.
  intros Hw Hb. unfold bvconcat. rewrite Z.lor_comm, Z.shiftl_mul_pow2 by done.
  rewrite lor_low_high by done. lia.
Qed.

#[export] Hint Resolve land_range lor_range lxor_range udiv_range urem_range lshr_range
  sdiv_range srem_range shl_range zero_range one_range : rt.
#[export] Hint Extern 2 (in_range _ (wrap _ _)) => apply wrap_range : rt.

Lemma same_width_ok f v v' r :
  same_width f v v' = Some r → value_ok v → value_ok v' →
  (∀ w a b, 0 < w → in_range w a → in_range w b → value_ok (f w a b)) → value_ok r.
Proof.
  destruct v as [c|w a], v' as [c'|w' b]; simpl; try done.
  destruct (Z.eqb_spec w w') as [->|]; [|done]. intros [= <-] [? ?] [? ?] Hf. by apply Hf.
Qed.

Section range.
Context {E : Type} {Ops : LlvmOps}.

Lemma cmp_sem_ok p v v' r : cmp_sem p v v' = Some r → value_ok r.
Proof.
  unfold cmp_sem. cbv zeta. intros Hr.
  repeat (case_match; simplify_eq; try done);
    destruct v, v'; simpl in Hr; repeat case_match; simplify_eq; done.
Qed.

Lemma bin_sem_ok op size v v' r :
  bin_sem op size v v' = Some r → value_ok v → value_ok v' → value_ok r.
Proof.
  intros Hr Hv Hv'. unfold bin_sem in Hr. cbv zeta in Hr.
  repeat match type of Hr with
  | (if ?b then _ else _) = _ => destruct b
  end;
    try (eapply same_width_ok; [exact Hr|done|done|]; intros w a b Hw Ha Hb; simpl;
         split; [done|]; unfold bvadd, bvsub, bvmul, bvashr; solve [auto with rt lia]);
    try exact (cmp_sem_ok _ _ _ _ Hr); try done.
  - destruct v, v'; simplify_eq; done.
  - destruct v, v'; simplify_eq; done.
  - destruct v as [c|w a], v' as [c'|w' b]; simplify_eq. simpl in *.
    destruct Hv, Hv'. split; [lia|]. apply concat_range; (lia || done).
Qed.

(** A record gives values in range when its operands do. *)
Lemma denote_step_ok (ls : lstate E) mem inp rec l v :
  (∀ l v, rec l = Some v → value_ok v) → info_range (info_at ls l) →
  denote_step ls mem inp rec l = Some v → value_ok v.
Proof.
  intros Hrec Hr. unfold denote_step, denote_info. cbv zeta. set (i := info_at ls l) in *.
  destruct Hr as (_ & _ & _ & [Hs _] & _ & [Hop2 _]).
  case_match; [done|]. case_match.
  { intros [= <-]. split; [done|apply u8_range]. }
  case_match.
  { intros [= <-]. unfold input_bytes. split; [lia|].
    pose proof (le_combine_range (map (λ i0, in_byte inp
      (s32 (li_op1 (info_at ls (li_l1 i)) + i0))) (range 0 (1 `max` li_l2 i)))) as H'.
    revert H'. rewrite length_map. unfold range. rewrite length_seqZ, Z2Nat.id by lia.
    by rewrite Z.sub_0_r. }
  case_match.
  { intros (w & Hw%Hrec & Hz)%bind_Some. unfold zext_sem in Hz.
    destruct w as [b|w a]; case_match; simplify_eq; simpl in *.
    - split; [lia|]. destruct b; [apply one_range|apply zero_range]; lia.
    - split; [lia|]. destruct Hw as [? [? ?]]. split; [done|].
      pose proof (Z.pow_le_mono_r 2 w (li_size i)). lia. }
  case_match.
  { intros (w & Hw%Hrec & Hz)%bind_Some. unfold sext_sem in Hz.
    destruct w as [b|w a]; [done|]. case_match; simplify_eq; simpl in *.
    split; [lia|]. apply wrap_range. lia. }
  assert (∀ lo, (w ← rec (li_l1 i); slice_sem lo (li_size i) w) = Some v → value_ok v) as Hsl.
  { intros lo (w & Hw%Hrec & Hz)%bind_Some. unfold slice_sem in Hz.
    destruct w as [b|w a]; [done|]. case_match; simplify_eq; simpl in *.
    split; [lia|]. apply (wrap_range (li_size i)). lia. }
  case_match; [by apply Hsl|]. case_match; [by apply Hsl|]. case_match.
  { case_match; [done|]. intros (w & Hw%Hrec & Hz)%bind_Some. by destruct w; simplify_eq/=. }
  case_match.
  { case_match; [done|]. intros (w & Hw%Hrec & Hz)%bind_Some.
    destruct w; simplify_eq/=. destruct Hw. split; [done|]. apply wrap_range. lia. }
  case_match.
  { intros (w & _ & Hz)%bind_Some. case_match; [done|].
    apply bind_Some in Hz as (w' & _ & Hz). case_match; simplify_eq. by case_match. }
  case_match.
  { case_match; [|done]. intros [= <-]. split; [lia|]. apply wrap_range. lia. }
  case_match; [|done].
  assert (∀ w n, 0 < w → value_ok (concrete (li_size i) w n)) as Hcon.
  { intros w n Hw. unfold concrete. case_match; [done|]. split; [done|]. apply wrap_range. lia. }
  intros (w & Hw & (w' & Hw' & Hz)%bind_Some)%bind_Some.
  eapply bin_sem_ok; [exact Hz|..].
  - destruct (1 <=? li_l1 i); [by eapply Hrec|]. simplify_eq. apply Hcon. lia.
  - destruct (1 <=? li_l2 i); [by eapply Hrec|]. simplify_eq. apply Hcon. lia.
Qed.

Lemma denote_ok (ls : lstate E) m mem inp l v :
  wf ls m → denote ls mem inp l = Some v → value_ok v.
Proof.
  intros Hwf. unfold denote. generalize (S (Z.to_nat l)). intros f.
  revert l v. induction f as [|f IH]; intros l v; [done|].
  apply denote_step_ok; [done|]. apply (wf_range _ _ Hwf).
Qed.
End range.

(** ** A label depends only on the bytes it reads *)

(** Two inputs agree on a set of offsets (and on the size). *)
Definition agree_on (d : gset Z) (inp inp' : input) : Prop :=
  in_size inp = in_size inp' ∧
  ∀ k, k ∈ d → u8 (in_byte inp (s32 k)) = u8 (in_byte inp' (s32 k)).

Lemma agree_on_subseteq d d' inp inp' : d ⊆ d' → agree_on d' inp inp' → agree_on d inp inp'.
Proof. intros Hd [? H]. split; [done|]. intros k Hk. by apply H, Hd. Qed.

Lemma s32_u32 x : s32 (u32 x) = s32 x.
Proof. unfold s32, swrap, u32, wrap. by rewrite Z.mod_mod. Qed.

Lemma le_combine_ext bs bs' :
  map u8 bs = map u8 bs' → le_combine bs = le_combine bs'.
Proof.
  revert bs'. induction bs as [|b bs IH]; intros [|b' bs']; try done.
  cbn [map le_combine]. intros [= -> H%IH]. by rewrite H.
Qed.
Lemma le_combine_bytes bs bs' :
  length bs = length bs' → le_combine bs = le_combine bs' → map u8 bs = map u8 bs'.
Proof.
  revert bs'. induction bs as [|b bs IH]; intros [|b' bs']; [done..|].
  cbn [map le_combine length]. intros [= Hl] H. pose proof (u8_range b) as [? ?]. pose proof (u8_range b') as [? ?].
  assert (u8 b = u8 b' ∧ le_combine bs = le_combine bs') as [-> H'] by (change (2 ^ 8) with 256 in *; lia).
  by rewrite (IH bs' Hl H').
Qed.

(** The meaning of a label is a function of the input bytes at the offsets
    [label_deps] computes (and of the file size): inputs that agree there give
    the label the same value. *)
Theorem denote_depends {E} {Ops : LlvmOps} (ls : lstate E) mem inp inp' l :
  wf_labels ls → l ≤ last_label ls → agree_on (label_deps ls l) inp inp' →
  denote ls mem inp l = denote ls mem inp' l.
Proof.
  intros [m Hwf]. unfold denote. generalize (S (Z.to_nat l)). intros f.
  revert l. induction f as [|f IH]; intros l Hl Hag; [done|].
  simpl. rewrite (label_deps_unfold _ _ _ Hwf Hl) in Hag.
  pose proof (operand_bounds _ _ _ Hwf Hl) as [Hb1 Hb2].
  assert (∀ l', l' ≤ last_label ls → agree_on (label_deps ls l') inp inp' →
    denote_fuel ls mem f inp l' = denote_fuel ls mem f inp' l') as IH' by eauto.
  pose proof (last_bound _ _ Hwf).
  unfold denote_step, denote_info. unfold deps_step, deps_info in Hag. cbv zeta in *.
  set (i := info_at ls l) in *. destruct (_ || _); [done|]. destruct (li_op i =? 0).
  { destruct Hag as [_ Hag]. specialize (Hag _ (proj2 (elem_of_singleton _ _) eq_refl)).
    by rewrite !s32_u32 in Hag; rewrite Hag. }
  destruct (li_op i =? op_Load).
  { f_equal. f_equal. apply le_combine_ext. unfold input_bytes. rewrite !map_map.
    apply map_ext_in. intros k Hk. destruct Hag as [_ Hag].
    specialize (Hag (u32 (li_op1 (info_at ls (li_l1 i)) + k))). rewrite !s32_u32 in Hag.
    apply Hag. apply elem_of_list_to_set, list_elem_of_In, in_map_iff. eauto. }
  destruct (li_op i =? op_ZExt); simpl in Hag; [by rewrite IH' by (done || lia)|].
  destruct (li_op i =? op_SExt); simpl in Hag; [by rewrite IH' by (done || lia)|].
  destruct (li_op i =? op_Trunc); simpl in Hag; [by rewrite IH' by (done || lia)|].
  destruct (li_op i =? op_Extract); simpl in Hag; [by rewrite IH' by (done || lia)|].
  destruct (li_op i =? op_Not); simpl in Hag; [by rewrite IH' by (done || lia)|].
  destruct (li_op i =? op_Neg); simpl in Hag; [by rewrite IH' by (done || lia)|].
  assert ((li_op i =? op_fsize) = false →
    ((1 <=? li_l1 i) = true → denote_fuel ls mem f inp (li_l1 i) = denote_fuel ls mem f inp' (li_l1 i)) ∧
    ((1 <=? li_l2 i) = true → denote_fuel ls mem f inp (li_l2 i) = denote_fuel ls mem f inp' (li_l2 i)))
    as Hops.
  { intros Hfs. rewrite Hfs in Hag. split; intros Hc; rewrite Hc in Hag; apply IH'; try lia;
      (eapply agree_on_subseteq; [|exact Hag]); set_solver. }
  destruct (li_op i =? op_fmemcmp) eqn:Hm.
  { assert ((li_op i =? op_fsize) = false) as Hfs by op_lia.
    destruct (Hops Hfs) as [H1 H2]. destruct (1 <=? li_l1 i); [rewrite H1 by done|];
      (destruct (Z.ltb_spec (li_l2 i) 1); [done|]; by rewrite H2 by lia). }
  destruct (li_op i =? op_fsize).
  { destruct Hag as [-> _]. done. }
  destruct (Hops eq_refl) as [H1 H2].
  destruct (1 <=? li_l1 i), (1 <=? li_l2 i); rewrite ?H1, ?H2 by done; done.
Qed.

(** Label 3 of [sum_lstate] is the sum of input bytes 0 and 1: bytes from
    offset 2 on do not matter. *)
Lemma denote_depends_witness :
  denote sum_lstate ∅ (Input (λ k, if k <? 2 then k + 5 else 0) 8) 3 =
  denote sum_lstate ∅ (Input (λ k, if k <? 2 then k + 5 else 77) 8) 3.
Proof.
  apply denote_depends.
  - apply sum_lstate_wf.
  - by vm_compute.
  - split; [done|].
    assert (set_Forall (λ k, u8 (if s32 k <? 2 then s32 k + 5 else 0) =
      u8 (if s32 k <? 2 then s32 k + 5 else 77)) (label_deps sum_lstate 3)) as H
      by (apply (bool_decide_unpack _); by vm_compute).
    exact H.
Defined.
