(* ===== verification/Shadow.v ===== *)
(** * Shadow memory: loading and storing labels ([dfsan.cc])

    Each application byte has a 4-byte label slot. [taint_union_load] builds
    the label of an [n]-byte value from the labels of its bytes,
    [taint_union_store] spreads the label of a value over its bytes, and the
    [dfsan_*] interface functions set, read and dump labels. *)
From S2P Require Import Prelude Platform Labels UnionTable Union Z3 State.

Section shadow.
Context {Zi : Z3} {Ops : LlvmOps}.

(** [ls[i]] for a shadow pointer [ls] *)
Definition slot (ls i : Z) : Z := ls + 4 * i.
Definition shadow_at (ls i : Z) : M rt Z := gets (λ s, peek (rt_shadow s) (slot ls i)).
Definition shadow_put (ls i l : Z) : M rt () :=
  modify (λ s, set_shadow (poke (rt_shadow s) (slot ls i) l) s).

Definition r_info (l : Z) : M rt (dfsan_label_info expr) := on_labels (get_label_info l).
Definition r_union (l1 l2 op size op1 op2 : Z) : M rt Z :=
  on_labels (taint_union l1 l2 op size op1 op2).
Definition r_dfsan_union (l1 l2 op size op1 op2 : Z) : M rt Z :=
  on_labels (dfsan_union l1 l2 op size op1 op2).

(** The shape loop [for (i = 1; i != n; ++i)]: [inl] is an early return of
    the function, [inr] the final value of [shape]. The loop has [n - 1]
    rounds; for [n = 0], which no caller passes, the bound is reported. *)
Fixpoint shape_loop (fuel : nat) (ls n offset i : Z) : M rt (Z + bool) :=
  if i =? n then mret (inr true) else
  match fuel with
  | O => out_of_fuel
  | S fuel =>
      next_label ← shadow_at ls i;
      if next_label =? kInitializingLabel then mret (inl kInitializingLabel) else
      info ← r_info next_label;
      if negb (li_op1 info =? u64 (offset + i)) then mret (inr false)
      else shape_loop fuel ls n offset (i + 1)
  end.

(** The loop of fast path 2: the width covered by a prefix of the bytes that
    are consecutive extracts of [parent]. *)
Fixpoint extract_loop (fuel : nat) (ls n parent offset i : Z) : M rt Z :=
  if n <=? i then mret offset else
  match fuel with
  | O => out_of_fuel
  | S fuel =>
      li ← shadow_at ls i;
      info ← r_info li;
      if negb (li_op info =? op_Extract) || negb (offset =? li_op2 info)
         || negb (parent =? li_l1 info)
      then mret offset
      else extract_loop fuel ls n parent (u64 (offset + li_size info)) (i + 1)
  end.

(** The slow path: concatenate piece by piece from byte [i] on. A label of fewer
    than 8 bits does not advance [i]: the source loops for ever, here the fuel
    runs out. *)
Fixpoint concat_loop (fuel : nat) (ls n label i : Z) : M rt Z :=
  if n <=? i then mret label else
  match fuel with
  | O => out_of_fuel
  | S fuel =>
      next_label ← shadow_at ls i;
      next_info ← r_info next_label;
      let next_size := li_size next_info in
      if negb (is_constant_label next_label) then
        if next_size <=? u64 ((n - i) * 8) then
          let i := i + next_size / 8 in
          label ← r_union label next_label op_Concat (i * 8) 0 0;
          concat_loop fuel ls n label i
        else
          let size := n - i in
          trunc ← r_union next_label CONST_LABEL op_Trunc (size * 8) 0 0;
          r_union label trunc op_Concat (n * 8) 0 0
      else
        (* [*c] is a (signed) char of application memory *)
        c ← gets (λ s, s8 (peek (rt_mem s) (app_for (slot ls i))));
        let i := i + 1 in
        label ← r_union label 0 op_Concat (i * 8) 0 c;
        concat_loop fuel ls n label i
  end.

Definition all_constant (ls n : Z) : M rt bool :=
  gets (λ s, forallb (λ i, is_constant_label (peek (rt_shadow s) (slot ls i))) (range 1 n)).

(** [__taint_union_load] *)
Definition taint_union_load (ls n : Z) : M rt Z :=
  label0 ← shadow_at ls 0;
  if label0 =? kInitializingLabel then mret kInitializingLabel else
  (if CONST_OFFSET <=? label0 then
     info ← r_info label0; assert_ "size != 0" (negb (li_size info =? 0))
   else mret ()) ;;
  (* fast path 1: constant *)
  constant ← (if is_constant_label label0 then all_constant ls n else mret false);
  if (constant : bool) then mret CONST_LABEL else
  (* shape *)
  info0 ← r_info label0;
  shape ← (if negb (li_op info0 =? 0) then mret (inr false)
           else shape_loop (Z.to_nat n) ls n (li_op1 info0) 1);
  match shape with
  | inl early => mret early
  | inr true =>
      if n =? 1 then mret label0
      else r_union label0 n op_Load (n * 8) 0 0
  | inr false =>
      (* fast path 2: all bytes are extracted from one value of this size *)
      fast ← (if li_op info0 =? op_Extract then
                let parent := li_l1 info0 in
                offset ← extract_loop (Z.to_nat n) ls n parent 0 0;
                pinfo ← r_info parent;
                mret (if (li_size pinfo =? offset) && (offset =? u64 (n * 8))
                      then Some parent else None)
              else mret None);
      match fast with
      | Some parent => mret parent
      | None => concat_loop (S (Z.to_nat n)) ls n label0 (li_size info0 / 8)
      end
  end.

(** [__taint_union_store] *)
Definition taint_union_store (l ls n : Z) : M rt () :=
  if l =? kInitializingLabel then
    for_each (range 0 n) (λ i, shadow_put ls i l)
  else
    h ← gets (λ s, last_label (rt_labels s));
    assert_ "l <= h" (l <=? h) ;;
    (* fast path 1: constant *)
    if l =? 0 then for_each (range 0 n) (λ i, shadow_put ls i l) else
    info ← r_info l;
    (* fast path 2: single byte *)
    if (n =? 1) && (li_size info =? 8) then shadow_put ls 0 l else
    (* fast path 3: load *)
    if li_op info =? op_Load then
      for_each (range 0 n) (λ i, shadow_put ls i (u32 (li_l1 info + i)))
    else
      for_each (range 0 n) (λ i,
        x ← r_union l CONST_LABEL op_Extract 8 0 (i * 8);
        shadow_put ls i x).

Definition dfsan_store_label (l addr size : Z) : M rt () :=
  if l =? 0 then mret () else taint_union_store l (shadow_for addr) size.

(** [__dfsan_set_label]: a slot is written only when it changes. *)
Definition dfsan_set_label (label addr size : Z) : M rt () :=
  for_each (range 0 size) (λ i,
    old ← shadow_at (shadow_for addr) i;
    if label =? old then mret () else shadow_put (shadow_for addr) i label).

(** [dfsan_add_label]: its [op] parameter is a [u8]. *)
Definition dfsan_add_label (label op addr size : Z) : M rt () :=
  for_each (range 0 size) (λ i,
    old ← shadow_at (shadow_for addr) i;
    x ← r_union old label (u8 op) 1 0 0;
    shadow_put (shadow_for addr) i x).

Definition dfsw_dfsan_get_label (data data_label : Z) : M rt (Z * Z) :=
  mret (data_label, 0).

Definition dfsan_read_label (addr size : Z) : M rt Z :=
  if size =? 0 then mret 0 else taint_union_load (shadow_for addr) size.

Definition dfsan_get_label (addr : Z) : M rt Z := shadow_at (shadow_for addr) 0.

(** [__dfsan_unimplemented], [__dfsan_nonzero_label]: only reports;
    [__dfsan_vararg_wrapper] ends the process. *)
Definition dfsan_vararg_wrapper (fname : string) : M rt () :=
  die "unsupported indirect call to vararg function".
End shadow.
