(* ===== verification/ShadowSpec.v ===== *)
(** * What loads and stores of labels mean

    Specifications of [Shadow.v] over the meaning of labels: the label
    [taint_union_load] returns denotes the little-endian combination of the
    values of the bytes; [taint_union_store] followed by a load gives the label
    back; every shadow operation keeps the label store well-formed. *)
From S2P Require Import Prelude Platform Labels UnionTable Union Z3 State Denote Shadow.

Section spec.
Context {Zi : Z3} {Ops : LlvmOps}.

(** [s'] extends [s] by new labels and changes nothing else. *)
Definition grew (s s' : rt) : Prop := s' = set_labels (rt_labels s') s ∧ rt_kept s s'.
#[export] Instance grew_preorder : PreOrder grew.
Proof.
  split; [intros s; split; [by destruct s|done]|].
  intros a b c [Hb ?] [Hc ?]. split; [by rewrite Hc, Hb|by etrans].
Qed.
Lemma grew_shadow s s' : grew s s' → rt_shadow s' = rt_shadow s.
Proof. by intros [-> _]. Qed.
Lemma grew_mem s s' : grew s s' → rt_mem s' = rt_mem s.
Proof. by intros [-> _]. Qed.
Lemma grew_last s s' : grew s s' → last_label (rt_labels s) ≤ last_label (rt_labels s').
Proof. by intros [_ [? _]]. Qed.
Lemma grew_key s s' l :
  grew s s' → l ≤ last_label (rt_labels s) →
  key_of (info_at (rt_labels s') l) = key_of (info_at (rt_labels s) l).
Proof. intros [_ [_ H]]. apply H. Qed.

(** The value of a label in a state. *)
Definition sden (s : rt) (inp : input) (l : Z) : option value :=
  denote (rt_labels s) (rt_mem s) inp l.
Lemma grew_sden s s' inp l :
  rt_wf s → grew s s' → l ≤ last_label (rt_labels s) → sden s' inp l = sden s inp l.
Proof.
  intros [m Hwf] Hg Hl. unfold sden. rewrite (grew_mem _ _ Hg).
  apply (denote_kept _ m); [done|apply Hg|done].
Qed.

(** The value of an existing label, from any record with its key. *)
Lemma sden_key s l (i : dfsan_label_info expr) inp :
  rt_wf s → 1 ≤ l ≤ last_label (rt_labels s) →
  key_of (info_at (rt_labels s) l) = key_of i →
  sden s inp l = denote_info (rt_labels s) (rt_mem s) inp (sden s inp) i.
Proof.
  intros [m Hwf] Hl Hk. pose proof (last_bound _ _ Hwf). unfold sden at 1.
  rewrite (denote_unfold _ m) by (done || lia). unfold denote_step.
  assert ((l <? 1) || (l =? kInitializingLabel) = false) as ->.
  { change kInitializingLabel with (2 ^ 32 - 1). lia. }
  by apply denote_info_key.
Qed.

(** ** Rules *)
Lemma wpd_info l Q s :
  rt_wf s → l ≤ last_label (rt_labels s) → Q (info_at (rt_labels s) l) s → wpd (r_info l) Q s.
Proof.
  intros [m Hwf] Hl HQ. unfold wpd, r_info, on_labels, zoom.
  rewrite (get_label_info_wf _ m) by done. by destruct s.
Qed.
Lemma wpd_shadow_at ls i Q s : Q (peek (rt_shadow s) (slot ls i)) s → wpd (shadow_at ls i) Q s.
Proof. done. Qed.

Lemma wpd_union l1 l2 op size op1 op2 (i : dfsan_label_info expr) Q s :
  rt_wf s → union_request l1 l2 op size op1 op2 = inr i →
  li_l1 i ≤ last_label (rt_labels s) → li_l2 i ≤ last_label (rt_labels s) →
  (∀ l s', rt_wf s' → grew s s' → 1 ≤ l ≤ last_label (rt_labels s') →
     key_of (info_at (rt_labels s') l) = key_of i → Q l s') →
  wpd (r_union l1 l2 op size op1 op2) Q s.
Proof.
  intros [m Hwf] Hu H1 H2 HQ.
  pose proof (taint_union_cases _ _ l1 l2 op size op1 op2 Hwf) as Hc.
  unfold wpd, r_union, on_labels, zoom. rewrite Hu in Hc.
  destruct (taint_union _ _ _ _ _ _ _) as [l ls'| |h ls']; [|done|by apply Hc].
  destruct Hc as (Hwf' & _ & Hk & Hkey & Hl & _). by apply HQ.
Qed.

(** The requests the shadow operations make. *)
Lemma request_left l1 l2 op size op1 op2 :
  1 ≤ l1 < 2 ^ 32 - 1 → 0 ≤ l2 < 2 ^ 32 - 1 → 0 ≤ op < 2 ^ 16 → is_commutative op = false →
  in_range 16 size → 
  union_request (E:=expr) l1 l2 op size op1 op2 =
    inr (LabelInfo l1 l2 0 (if l2 =? 0 then u64 op2 else 0) op size 0 0 0 None None).
Proof.
  intros H1 H2 Hop Hc Hs. unfold union_request, swap_operands, u32, u16.
  rewrite !(wrap_small 32), !(wrap_small 16) by (unfold in_range in *; lia).
  rewrite Hc, andb_false_r.
  rewrite (proj2 (Z.eqb_neq l1 0)) by lia. simpl.
  change kInitializingLabel with (2 ^ 32 - 1).
  rewrite !(proj2 (Z.eqb_neq _ (2 ^ 32 - 1))) by lia. done.
Qed.

Lemma key_size (i j : dfsan_label_info expr) : key_of i = key_of j → li_size i = li_size j.
Proof. unfold key_of. congruence. Qed.
Lemma key_op (i j : dfsan_label_info expr) : key_of i = key_of j → li_op i = li_op j.
Proof. unfold key_of. congruence. Qed.
Lemma key_op1 (i j : dfsan_label_info expr) : key_of i = key_of j → li_op1 i = li_op1 j.
Proof. unfold key_of. congruence. Qed.

(** ** The slow path of loads *)

(** The byte at index [i] of the shadow pointer [ls] has the value [b]: a
    constant byte its value in memory, a tainted one the value of its 8-bit
    label. *)
Definition byte_ok (s : rt) (ls i : Z) (b : input → Z) : Prop :=
  let l := peek (rt_shadow s) (slot ls i) in
  (l = 0 ∧ ∀ inp, b inp = u8 (peek (rt_mem s) (app_for (slot ls i)))) ∨
  (1 ≤ l ≤ last_label (rt_labels s) ∧ li_size (info_at (rt_labels s) l) = 8 ∧
   ∀ inp, sden s inp l = Some (VBV 8 (b inp))).

Lemma byte_ok_grew s s' ls i b : rt_wf s → grew s s' → byte_ok s ls i b → byte_ok s' ls i b.
Proof.
  intros Hwf Hg. unfold byte_ok. rewrite (grew_shadow _ _ Hg), (grew_mem _ _ Hg).
  intros [H|(Hl & Hs & Hd)]; [by left|right]. pose proof (grew_last _ _ Hg).
  split; [lia|]. split.
  - rewrite <-Hs. apply key_size. apply grew_key; [done|lia].
  - intros inp. rewrite (grew_sden s) by (done || lia). apply Hd.
Qed.

(** The little-endian value of the first [i] bytes. *)
Definition le_value (b : Z → input → Z) (i : Z) (inp : input) : Z :=
  le_combine (map (λ k, b k inp) (range 0 i)).
Lemma le_value_snoc b i inp :
  0 ≤ i → le_value b (i + 1) inp = le_value b i inp + 2 ^ (8 * i) * u8 (b i inp).
Proof.
  intros Hi. unfold le_value. rewrite (range_snoc 0 (i + 1)) by lia.
  replace (i + 1 - 1) with i by lia. rewrite map_app. simpl map. rewrite le_combine_snoc.
  unfold range. rewrite length_map, length_seqZ, Z2Nat.id by lia. by rewrite Z.sub_0_r.
Qed.

Lemma le_value_one b inp : le_value b 1 inp = u8 (b 0 inp).
Proof. change (le_value b 1 inp) with (le_combine [b 0 inp]). cbn [le_combine]. lia. Qed.

(** [label] is the label of the first [i] bytes. *)
Definition prefix_ok (s : rt) (b : Z → input → Z) (i label : Z) : Prop :=
  1 ≤ label ≤ last_label (rt_labels s) ∧
  li_size (info_at (rt_labels s) label) = 8 * i ∧
  ∀ inp, sden s inp label = Some (VBV (8 * i) (le_value b i inp)).

(** The record of a concatenation denotes one byte more. *)
Lemma concat_denotes s b i label next op2 l :
  rt_wf s → 1 ≤ i < 31 → prefix_ok s b i label → 0 ≤ next →
  key_of (info_at (rt_labels s) l) = (label, next, op_Concat, 8 * (i + 1), 0, op2) →
  1 ≤ l ≤ last_label (rt_labels s) →
  (∀ inp, if next =? 0 then u8 op2 = u8 (b i inp)
          else sden s inp next = Some (VBV 8 (u8 (b i inp)))) →
  prefix_ok s b (i + 1) l.
Proof.
  intros Hwf Hi (Hlab & Hsz & Hden) Hn Hk Hl Hnext.
  set (r := LabelInfo (E:=expr) label next 0 op2 op_Concat (8 * (i + 1)) 0 0 0 None None).
  assert (key_of (info_at (rt_labels s) l) = key_of r) as Hkr by done.
  split; [done|]. split; [by rewrite (key_size _ _ Hkr)|]. intros inp.
  rewrite (sden_key s l r inp Hwf Hl Hkr).
  assert (u8 (8 * (i + 1)) = 8 * (i + 1)) as Hu by (apply wrap_small; unfold in_range; lia).
  assert (size_b (rt_labels s) r = if next =? 0 then 8 else 8 * (i + 1)) as Hb.
  { unfold size_b, size_a, r. simpl. rewrite Z.eqb_refl, (proj2 (Z.eqb_neq label 0)) by lia.
    simpl. rewrite Hsz, Hu. by replace (8 * (i + 1) - 8 * i) with 8 by lia. }
  rewrite denote_concat; [|done|simpl; lia|simpl; lia|rewrite Hb; case_match; lia].
  rewrite Hb. specialize (Hnext inp). simpl li_l1. rewrite Hden. cbn [mbind option_bind].
  simpl li_l2. simpl li_op2. simpl li_size. rewrite le_value_snoc by lia.
  replace (8 * (i + 1)) with (8 * i + 8) by lia.
  destruct (Z.eqb_spec next 0) as [->|Hn0]; simpl.
  - unfold concrete. rewrite (proj2 (Z.eqb_neq _ 1)) by lia. cbn. fold (u8 op2). by rewrite Hnext.
  - rewrite (proj2 (Z.leb_le 1 next)) by lia. by rewrite Hnext.
Qed.

Lemma value_byte s inp l b :
  rt_wf s → sden s inp l = Some (VBV 8 b) → u8 b = b.
Proof. intros [m Hwf] Hd. apply wrap_small. by destruct (denote_ok _ _ _ _ _ _ Hwf Hd). Qed.

Lemma u8_s8 x : u8 (u64 (s8 x)) = u8 x.
Proof.
  unfold u8, u64, s8, swrap, wrap. rewrite Z.mod_mod_divide by (by exists (2 ^ 56)).
  case_match.
  - by rewrite Z.mod_mod.
  - rewrite Zminus_mod, Z_mod_same_full, Z.sub_0_r, !Z.mod_mod; done.
Qed.
Lemma concat_noncomm : is_commutative op_Concat = false.
Proof.
  unfold is_commutative. unfold u8. rewrite wrap_small by (unfold in_range; op_lia).
  op_tests. done.
Qed.

(** The slow path builds the label of the whole value. *)
Lemma concat_loop_ok ls n b fuel i label s :
  rt_wf s → 1 ≤ i ≤ n → n ≤ 31 → (Z.to_nat (n - i) < fuel)%nat →
  (∀ k, i ≤ k < n → byte_ok s ls k (b k)) → prefix_ok s b i label →
  wpd (concat_loop fuel ls n label i)
    (λ l s', rt_wf s' ∧ grew s s' ∧ prefix_ok s' b n l) s.
Proof.
  revert i label s. induction fuel as [|fuel IH]; intros i label s Hwf Hi Hn Hf Hb Hp; [lia|].
  cbn [concat_loop]. destruct (Z.leb_spec n i) as [Hle|Hlt].
  { apply wpd_ret. replace n with i by lia. split_and!; done. }
  apply wpd_bind, wpd_shadow_at. pose proof (Hb i ltac:(lia)) as Hbi.
  unfold byte_ok in Hbi. cbv zeta in Hbi.
  assert (∃ m, wf (rt_labels s) m) as [m Hm] by done. pose proof (last_bound _ _ Hm) as Hlast.
  set (next := peek (rt_shadow s) (slot ls i)) in *.
  assert (0 ≤ next ≤ last_label (rt_labels s)) as Hnext by (destruct Hbi as [[? _]|[? _]]; lia).
  apply wpd_bind, wpd_info; [done|lia|]. cbv zeta. unfold is_constant_label, CONST_LABEL.
  assert (∀ l s', rt_wf s' → grew s s' → prefix_ok s' b (i + 1) l →
    wpd (concat_loop fuel ls n l (i + 1))
      (λ l s', rt_wf s' ∧ grew s s' ∧ prefix_ok s' b n l) s') as Hrec.
  { intros l s' Hwf' Hg Hp'. eapply wpd_mono; [apply IH; try done; try lia|].
    - intros k Hk. apply (byte_ok_grew s); [done|done|]. apply Hb. lia.
    - intros l' s'' (? & ? & ?). split_and!; [done|by etrans|done]. }
  assert (∀ s', grew s s' → prefix_ok s' b i label) as Hpg.
  { intros s' Hg. destruct Hp as (Hlab & Hsz & Hden). pose proof (grew_last _ _ Hg).
    split; [lia|]. split; [rewrite <-Hsz; apply key_size, grew_key; [done|lia]|].
    intros inp. rewrite (grew_sden s) by (done || lia). apply Hden. }
  destruct Hp as (Hlab & _).
  destruct Hbi as [(Hz & Hbv)|(Hnl & Hns & Hbv)].
  - rewrite Hz. simpl. apply wpd_bind, wpd_gets, wpd_bind.
    eapply wpd_union; [done|apply request_left; try lia; [op_lia|apply concat_noncomm|unfold in_range; lia]
      |simpl; lia|simpl; lia|].
    intros l s' Hwf' Hg Hl Hk. apply Hrec; [done|done|].
    eapply (concat_denotes s' b i label 0); [done|lia|by apply Hpg|done| |done|].
    + rewrite Hk. unfold key_of. simpl. do 3 f_equal. lia.
    + intros inp. simpl. by rewrite u8_s8, Hbv, (u8_idemp).
  - rewrite (proj2 (Z.eqb_neq next 0)) by lia. simpl negb. cbv iota. rewrite Hns.
    assert (u64 ((n - i) * 8) = (n - i) * 8) as -> by (apply wrap_small; unfold in_range; lia).
    rewrite (proj2 (Z.leb_le 8 _)) by lia. change (8 / 8) with 1. apply wpd_bind.
    eapply wpd_union; [done|apply request_left; try lia; [op_lia|apply concat_noncomm|unfold in_range; lia]
      |simpl; lia|simpl; lia|].
    intros l s' Hwf' Hg Hl Hk. apply Hrec; [done|done|].
    eapply (concat_denotes s' b i label next); [done|lia|by apply Hpg|lia| |done|].
    + rewrite Hk. unfold key_of. simpl. do 3 f_equal. lia.
    + intros inp. rewrite (proj2 (Z.eqb_neq next 0)) by lia.
      rewrite (grew_sden s) by (done || lia). rewrite Hbv. by rewrite (value_byte s inp next).
Qed.

(** ** The fast paths of loads *)
Section load.
Context (s : rt) (ls n : Z) (b : Z → input → Z).
Context (Hwf : rt_wf s) (Hn : 1 ≤ n ≤ 31).
Context (Hb : ∀ k, 0 ≤ k < n → byte_ok s ls k (b k)).

Definition lab (k : Z) : Z := peek (rt_shadow s) (slot ls k).
Definition rec_at (k : Z) : dfsan_label_info expr := info_at (rt_labels s) (lab k).

Lemma lab_bound k : 0 ≤ k < n → 0 ≤ lab k ≤ last_label (rt_labels s).
Proof.
  intros Hk. destruct Hwf as [m Hm]. pose proof (last_bound _ _ Hm).
  destruct (Hb k Hk) as [[H' _]|[? _]]; unfold lab in *; lia.
Qed.
Lemma lab_not_init k : 0 ≤ k < n → lab k ≠ kInitializingLabel.
Proof.
  intros Hk. pose proof (lab_bound k Hk). destruct Hwf as [m Hm].
  pose proof (last_bound _ _ Hm). change kInitializingLabel with (2 ^ 32 - 1). lia.
Qed.

Lemma shape_loop_ok off fuel i :
  1 ≤ i ≤ n → (Z.to_nat (n - i) ≤ fuel)%nat →
  wpd (shape_loop fuel ls n off i)
    (λ r s', s' = s ∧ ∃ c, r = inr c ∧
       (c = true → ∀ k, i ≤ k < n → li_op1 (rec_at k) = u64 (off + k))) s.
Proof.
  revert i. induction fuel as [|fuel IH]; intros i Hi Hf; cbn [shape_loop].
  { rewrite (proj2 (Z.eqb_eq i n)) by lia. apply wpd_ret. split; [done|].
    exists true. split; [done|lia]. }
  destruct (Z.eqb_spec i n) as [->|Hne].
  { apply wpd_ret. split; [done|]. exists true. split; [done|]. lia. }
  apply wpd_bind, wpd_shadow_at. fold (lab i).
  rewrite (proj2 (Z.eqb_neq _ _)) by (apply lab_not_init; lia).
  apply wpd_bind, wpd_info; [done|apply lab_bound; lia|]. fold (rec_at i).
  destruct (Z.eqb_spec (li_op1 (rec_at i)) (u64 (off + i))) as [He|He]; simpl.
  - eapply wpd_mono; [apply IH; lia|]. intros r s' (-> & c & -> & Hc). split; [done|].
    exists c. split; [done|]. intros -> k Hk. destruct (decide (k = i)) as [->|]; [done|].
    apply Hc; [done|lia].
  - split; [done|]. by exists false.
Qed.

(** The byte at index [k] is the [k]-th byte of [parent]. *)
Definition is_extract (parent k : Z) : Prop :=
  li_op (rec_at k) = op_Extract ∧ li_op2 (rec_at k) = 8 * k ∧ li_l1 (rec_at k) = parent.

Lemma rec_at_size k : 0 ≤ k < n → li_op (rec_at k) = op_Extract → li_size (rec_at k) = 8.
Proof.
  intros Hk Hop. destruct (Hb k Hk) as [[Hz _]|(_ & Hs & _)]; [|done].
  exfalso. revert Hop. unfold rec_at, lab. rewrite Hz. destruct Hwf as [m Hm].
  pose proof (wf_zero _ _ Hm) as Hz'. injection Hz' as _ _ -> _ _ _. op_lia.
Qed.

Lemma extract_loop_ok parent fuel i :
  0 ≤ i ≤ n → (Z.to_nat (n - i) ≤ fuel)%nat →
  wpd (extract_loop fuel ls n parent (8 * i) i)
    (λ o s', s' = s ∧ (o = 8 * n → ∀ k, i ≤ k < n → is_extract parent k)) s.
Proof.
  revert i. induction fuel as [|fuel IH]; intros i Hi Hf; cbn [extract_loop].
  { rewrite (proj2 (Z.leb_le n i)) by lia. apply wpd_ret. split; [done|lia]. }
  destruct (Z.leb_spec n i) as [Hle|Hlt].
  { apply wpd_ret. split; [done|]. lia. }
  apply wpd_bind, wpd_shadow_at. fold (lab i).
  apply wpd_bind, wpd_info; [done|apply lab_bound; lia|]. fold (rec_at i).
  destruct (_ || _) eqn:Hc; [split; [done|lia]|].
  rewrite rec_at_size by lia. unfold u64. rewrite wrap_small by (unfold in_range; lia).
  replace (8 * i + 8) with (8 * (i + 1)) by lia.
  eapply wpd_mono; [apply IH; lia|]. intros o s' [-> Ho]. split; [done|].
  intros -> k Hk. destruct (decide (k = i)) as [->|]; [|apply Ho; [done|lia]].
  unfold is_extract. lia.
Qed.

Lemma le_value_ext b1 b2 i inp :
  (∀ k, 0 ≤ k < i → u8 (b1 k inp) = u8 (b2 k inp)) → le_value b1 i inp = le_value b2 i inp.
Proof.
  intros H. apply le_combine_ext. rewrite !map_map. apply map_ext_in.
  intros k Hk%list_elem_of_In%elem_of_range. by apply H.
Qed.
(** The bytes of a value give the value back. *)
Lemma le_value_slices a i inp :
  0 ≤ i → le_value (λ k _, (a / 2 ^ (8 * k)) mod 2 ^ 8) i inp = a mod 2 ^ (8 * i).
Proof.
  intros Hi. pattern i. apply natlike_ind; [by rewrite Z.mod_1_r| |done].
  intros k Hk IH. rewrite <-Z.add_1_r, le_value_snoc, IH by done.
  unfold u8, wrap. rewrite Z.mod_mod by done.
  replace (8 * (k + 1)) with (8 * k + 8) by lia.
  rewrite Z.pow_add_r, Z.rem_mul_r by lia. done.
Qed.

Lemma tainted_byte k :
  0 ≤ k < n → lab k ≠ 0 →
  1 ≤ lab k ≤ last_label (rt_labels s) ∧ li_size (rec_at k) = 8 ∧
  ∀ inp, sden s inp (lab k) = Some (VBV 8 (b k inp)).
Proof. intros Hk Hz. by destruct (Hb k Hk) as [[? _]|?]. Qed.

(** Consecutive extracts of a whole value: its label. *)
Lemma extracts_denote parent inp :
  (∀ k, 0 ≤ k < n → is_extract parent k) →
  (∀ w a, sden s inp parent = Some (VBV w a) → w = 8 * n) →
  sden s inp parent = Some (VBV (8 * n) (le_value b n inp)).
Proof.
  intros Hex Hw.
  assert (∀ k, 0 ≤ k < n → ∃ v, sden s inp parent = Some v ∧
    slice_sem (8 * k) 8 v = Some (VBV 8 (b k inp))) as Hk.
  { intros k Hk. destruct (Hex k Hk) as (Hop & Ho2 & Hp).
    assert (lab k ≠ 0) as Hz.
    { intros Hz. revert Hop. unfold rec_at. rewrite Hz. destruct Hwf as [m Hm].
      pose proof (wf_zero _ _ Hm) as Hz'. injection Hz' as _ _ -> _ _ _. op_lia. }
    destruct (tainted_byte k Hk Hz) as (Hl & Hs & Hd).
    specialize (Hd inp). rewrite (sden_key s _ (rec_at k) inp Hwf Hl eq_refl) in Hd.
    rewrite denote_extract, Hp, Ho2, Hs in Hd by done. by apply bind_Some in Hd. }
  destruct (Hk 0 ltac:(lia)) as (v & Hv & H0). destruct v as [c|w a]; [done|].
  pose proof (Hw _ _ Hv) as ->. rewrite Hv. f_equal. f_equal.
  destruct Hwf as [m Hm]. destruct (denote_ok _ _ _ _ _ _ Hm Hv) as [_ Hr].
  rewrite <-(wrap_small _ _ Hr) at 1. unfold wrap.
  rewrite <-(le_value_slices a n inp) by lia. apply le_value_ext. intros k Hk'.
  destruct (Hk k Hk') as (v & Hv' & Hs). rewrite Hv in Hv'. injection Hv' as <-.
  simpl in Hs. case_match; [|done]. by injection Hs as <-.
Qed.

(** Labels of consecutive input bytes are distinct, so there are at least
    as many labels as bytes. *)
Lemma shape_count off :
  (∀ k, 0 ≤ k < n → lab k ≠ 0 ∧ li_op1 (rec_at k) = u64 (off + k)) →
  n ≤ last_label (rt_labels s).
Proof.
  intros Hk. destruct Hwf as [m Hm]. pose proof (last_bound _ _ Hm) as Hlast.
  assert (NoDup (map lab (range 0 n))) as Hnd.
  { apply NoDup_fmap_2_strong; [|apply NoDup_seqZ].
    intros x y Hx%elem_of_range Hy%elem_of_range He.
    destruct (Hk x Hx) as [_ Hx'], (Hk y Hy) as [_ Hy'].
    unfold rec_at in Hx', Hy'. rewrite He, Hy' in Hx'. unfold u64, wrap in Hx'.
    change (2 ^ 64) with 18446744073709551616 in Hx'.
    Z.to_euclidean_division_equations. lia. }
  assert (map lab (range 0 n) ⊆+ range 1 (last_label (rt_labels s) + 1)) as Hsub.
  { apply NoDup_submseteq; [done|]. intros x Hx. apply list_elem_of_fmap in Hx as (k & -> & Hk').
    apply elem_of_range in Hk'. pose proof (lab_bound k Hk'). destruct (Hk k Hk').
    apply elem_of_range. lia. }
  apply submseteq_length in Hsub. unfold range in Hsub.
  rewrite length_map, !length_seqZ in Hsub. lia.
Qed.

(** What a load promises. *)
Definition load_post (l : Z) (s' : rt) : Prop :=
  rt_wf s' ∧ grew s s' ∧ 1 ≤ l ≤ last_label (rt_labels s') ∧
  ∀ inp, sden s' inp l = Some (VBV (8 * n) (le_value b n inp)).

Lemma load_noncomm : is_commutative op_Load = false.
Proof.
  unfold is_commutative. unfold u8. rewrite wrap_small by (unfold in_range; op_lia).
  op_tests. done.
Qed.

Lemma input_byte k inp :
  0 ≤ k < n → lab k ≠ 0 → li_op (rec_at k) = 0 →
  b k inp = u8 (in_byte inp (s32 (li_op1 (rec_at k)))).
Proof.
  intros Hk Hz Hop. destruct (tainted_byte k Hk Hz) as (Hl & _ & Hd). specialize (Hd inp).
  rewrite (sden_key s _ (rec_at k) inp Hwf Hl eq_refl) in Hd. unfold denote_info in Hd.
  rewrite Hop in Hd. by injection Hd as <-.
Qed.

Lemma s32_u64 x : s32 (u64 x) = s32 x.
Proof. unfold s32, swrap, u64, wrap. by rewrite Z.mod_mod_divide by (by exists (2 ^ 32)). Qed.

Lemma load_shape_ok :
  (∀ k, 0 ≤ k < n → lab k ≠ 0 ∧ li_op (rec_at k) = 0 ∧
     li_op1 (rec_at k) = u64 (li_op1 (rec_at 0) + k)) →
  wpd (if n =? 1 then mret (lab 0) else r_union (lab 0) n op_Load (n * 8) 0 0) load_post s.
Proof.
  intros Hk. destruct (Hk 0 ltac:(lia)) as (H0 & Hop0 & _).
  destruct (tainted_byte 0 ltac:(lia) H0) as (Hl0 & _ & Hd0).
  destruct (Z.eqb_spec n 1) as [Hn1|Hn1].
  - apply wpd_ret. split_and!; [done|done|lia|lia|]. intros inp. rewrite Hd0, Hn1.
    by rewrite le_value_one, (value_byte _ _ _ _ Hwf (Hd0 inp)).
  - assert (∃ m, wf (rt_labels s) m) as [m Hm] by done. pose proof (last_bound _ _ Hm).
    assert (n ≤ last_label (rt_labels s)) as Hnl.
    { apply (shape_count (li_op1 (rec_at 0))). intros k Hk'. by destruct (Hk k Hk') as (? & ? & ?). }
    eapply wpd_union; [done|apply request_left; try lia;
      [op_lia|apply load_noncomm|unfold in_range; lia]|simpl; lia|simpl; lia|].
    intros l s' Hwf' Hg Hl Hkey. split_and!; [done|done|lia|lia|]. intros inp.
    rewrite (sden_key s' l _ inp Hwf' Hl Hkey), denote_load by done. simpl li_l2. simpl li_l1.
    rewrite (key_op1 _ _ (grew_key _ _ _ Hg (proj2 Hl0))). rewrite Z.max_r by lia.
    do 2 f_equal. apply le_combine_ext. unfold input_bytes. rewrite !map_map.
    apply map_ext_in. intros k Hk'%list_elem_of_In%elem_of_range.
    destruct (Hk k Hk') as (Hz & Hop & Ho1). fold (rec_at 0).
    rewrite (input_byte k inp Hk' Hz Hop), Ho1, u8_idemp, s32_u64. done.
Qed.

Lemma load_ok :
  lab 0 ≠ 0 →
  (li_op (rec_at 0) = 0 → ∀ k, 1 ≤ k < n →
     li_op1 (rec_at k) = u64 (li_op1 (rec_at 0) + k) →
     lab k ≠ 0 ∧ li_op (rec_at k) = 0) →
  (li_op (rec_at 0) = op_Extract → ∀ inp w a,
     sden s inp (li_l1 (rec_at 0)) = Some (VBV w a) →
     w = li_size (info_at (rt_labels s) (li_l1 (rec_at 0)))) →
  wpd (taint_union_load ls n) load_post s.
Proof.
  intros H0 Hin Hpar. destruct (tainted_byte 0 ltac:(lia) H0) as (Hl0 & Hs0 & Hd0).
  assert (∃ m, wf (rt_labels s) m) as [m Hm] by done. pose proof (last_bound _ _ Hm) as Hlast.
  unfold taint_union_load, CONST_OFFSET, is_constant_label, CONST_LABEL.
  apply wpd_bind, wpd_shadow_at. fold (lab 0).
  rewrite (proj2 (Z.eqb_neq _ kInitializingLabel)) by (apply lab_not_init; lia).
  rewrite (proj2 (Z.leb_le 1 (lab 0))), (proj2 (Z.eqb_neq (lab 0) 0)) by lia.
  apply wpd_bind, wpd_bind, wpd_info; [done|lia|]. fold (rec_at 0).
  apply wpd_assert; [by rewrite Hs0|]. apply wpd_bind, wpd_ret.
  apply wpd_bind, wpd_info; [done|lia|]. fold (rec_at 0).
  assert (prefix_ok s b 1 (lab 0)) as Hp1.
  { split; [lia|]. split; [done|]. intros inp.
    by rewrite Hd0, le_value_one, (value_byte _ _ _ _ Hwf (Hd0 inp)). }
  assert (wpd (concat_loop (S (Z.to_nat n)) ls n (lab 0) (li_size (rec_at 0) / 8))
    load_post s) as Hslow.
  { rewrite Hs0. change (8 / 8) with 1.
    eapply wpd_mono; [apply (concat_loop_ok ls n b); try done; try lia|].
    - intros k Hk. apply Hb. lia.
    - intros l s' (Hwf' & Hg & Hl & _ & Hd). split_and!; (done || lia). }
  apply wpd_bind. destruct (Z.eqb_spec (li_op (rec_at 0)) 0) as [Hop|Hop]; simpl negb; cbv iota.
  - eapply wpd_mono; [apply shape_loop_ok; lia|]. intros r s' (-> & c & -> & Hc).
    destruct c.
    + apply load_shape_ok. intros k Hk. destruct (decide (k = 0)) as [->|Hk0].
      * split_and!; [done|done|]. rewrite Z.add_0_r. symmetry. apply wrap_small.
        apply (wf_range _ _ Hm).
      * specialize (Hc eq_refl k ltac:(lia)). destruct (Hin Hop k ltac:(lia) Hc). done.
    + apply wpd_bind. rewrite (proj2 (Z.eqb_neq _ _)) by (rewrite Hop; op_lia). done.
  - apply wpd_ret. apply wpd_bind.
    destruct (Z.eqb_spec (li_op (rec_at 0)) op_Extract) as [Hex|Hex]; [|done].
    pose proof (operand_bounds _ _ (lab 0) Hm ltac:(lia)) as [Hpb _]. fold (rec_at 0) in Hpb.
    apply wpd_bind. eapply wpd_mono; [apply (extract_loop_ok _ _ 0); lia|].
    intros o s' [-> Ho]. apply wpd_bind, wpd_info; [done|lia|].
    destruct (_ && _) eqn:Hc; [|done].
    assert (u64 (n * 8) = 8 * n) as Hu by (unfold u64; rewrite wrap_small; unfold in_range; lia).
    assert (o = 8 * n) as -> by lia. apply wpd_ret.
    specialize (Ho eq_refl).
    assert (∀ inp, sden s inp (li_l1 (rec_at 0)) = Some (VBV (8 * n) (le_value b n inp))) as Hd.
    { intros inp. apply extracts_denote; [done|]. intros w a Hv. rewrite (Hpar Hex inp w a Hv). lia. }
    split_and!; [done|done| |lia|done].
    destruct (decide (1 ≤ li_l1 (rec_at 0))); [done|]. specialize (Hd (Input (λ _, 0) 0)).
    unfold sden, denote in Hd. cbn [denote_fuel] in Hd. unfold denote_step in Hd.
    by rewrite (proj2 (Z.ltb_lt _ 1)) in Hd by lia.
Qed.

End load.

(** ** Stores *)
Lemma slot_inj ls i j : slot ls i = slot ls j → i = j.
Proof. unfold slot. lia. Qed.
Lemma extract_noncomm : is_commutative op_Extract = false.
Proof.
  unfold is_commutative. unfold u8. rewrite wrap_small by (unfold in_range; op_lia).
  op_tests. done.
Qed.

(** [s'] is [s] after labels were created and the slots [ls[0..n-1]] were
    written; the slots hold what [P] says. *)
Definition stored (s : rt) (ls n : Z) (P : rt → Z → Z → Prop) (s' : rt) : Prop :=
  rt_wf s' ∧ rt_kept s s' ∧ s' = set_shadow (rt_shadow s') (set_labels (rt_labels s') s) ∧
  (∀ a, (∀ k, 0 ≤ k < n → a ≠ slot ls k) → peek (rt_shadow s') a = peek (rt_shadow s) a) ∧
  ∀ k, 0 ≤ k < n → P s' k (peek (rt_shadow s') (slot ls k)).

(** The loop of a store, for a body that computes the label of each byte. *)
Lemma store_loop_ok s ls n (P : rt → Z → Z → Prop) (body : Z → M rt Z) :
  rt_wf s → 0 ≤ n →
  (∀ s1 s2 k x, rt_wf s1 → rt_kept s1 s2 → P s1 k x → P s2 k x) →
  (∀ s1 s2 k x, rt_labels s1 = rt_labels s2 → P s1 k x → P s2 k x) →
  (∀ s1 k, rt_wf s1 → rt_kept s s1 → 0 ≤ k < n →
     wpd (body k) (λ x s2, rt_wf s2 ∧ grew s1 s2 ∧ P s2 k x) s1) →
  wpd (for_each (range 0 n) (λ k, x ← body k; shadow_put ls k x)) (λ _, stored s ls n P) s.
Proof.
  intros Hwf Hn Hmono Hlab Hbody.
  eapply wpd_mono; [apply (wpd_for_each (λ done s', stored s ls (Z.of_nat (length done)) P s'))|].
  - intros done k todo s1 Hr (Hwf1 & Hk1 & Hr1 & Hf1 & HP1).
    assert (k = Z.of_nat (length done) ∧ k < n) as [Hk Hkn].
    { assert (range 0 n !! length done = Some k) as Hlk by (rewrite Hr; by apply list_lookup_middle).
      unfold range in Hlk. apply lookup_seqZ in Hlk. lia. }
    apply wpd_bind. eapply wpd_mono; [apply Hbody; [done|done|lia]|].
    intros x s2 (Hwf2 & Hg & HP). apply wpd_modify. rewrite length_app. simpl length.
    set (s3 := set_shadow _ s2).
    assert (rt_shadow s2 = rt_shadow s1) as Hsh by by apply grew_shadow.
    split_and!; [done| | | |].
    + etrans; [exact Hk1|]. apply Hg.
    + unfold s3. simpl. rewrite (proj1 Hg), Hr1. done.
    + intros a Ha. unfold s3. simpl. rewrite peek_poke, decide_False, Hsh.
      * apply Hf1. intros j Hj. apply Ha. lia.
      * intros <-. apply (Ha k); [lia|done].
    + intros j Hj. unfold s3. simpl. rewrite peek_poke, Hsh. case_decide as He.
      * apply slot_inj in He as <-. by apply (Hlab s2).
      * assert (j ≠ k) by (by intros ->). apply (Hlab s2); [done|].
        apply (Hmono s1); [done|apply Hg|]. apply HP1. lia.
  - split_and!; [done|done|by destruct s|done|simpl; lia].
  - intros [] s' Hs'. unfold range in Hs'. rewrite length_seqZ in Hs'.
    by replace (Z.of_nat (Z.to_nat (n - 0))) with n in Hs' by lia.
Qed.

(** The slots hold the bytes of [l] as extracts. *)
Definition extract_slot (l : Z) (s : rt) (k x : Z) : Prop :=
  1 ≤ x ≤ last_label (rt_labels s) ∧
  key_of (info_at (rt_labels s) x) = (l, 0, op_Extract, 8, 0, 8 * k).

Lemma extract_all s ls n l fuel i :
  rt_wf s → 0 ≤ i ≤ n → 8 * n < 2 ^ 64 → (Z.to_nat (n - i) ≤ fuel)%nat →
  (∀ k, 0 ≤ k < n → extract_slot l s k (peek (rt_shadow s) (slot ls k))) →
  extract_loop fuel ls n l (8 * i) i s = Ret (8 * n) s.
Proof.
  intros Hwf Hi Hn Hf Hk. revert i Hi Hf. induction fuel as [|fuel IH]; intros i Hi Hf;
    cbn [extract_loop].
  { rewrite (proj2 (Z.leb_le n i)) by lia. replace i with n by lia. done. }
  destruct (Z.leb_spec n i) as [Hle|Hlt]; [by replace i with n by lia|].
  destruct (Hk i ltac:(lia)) as [Hl Hkey]. unfold shadow_at. rewrite bind_gets.
  destruct Hwf as [m Hm].
  assert (r_info (peek (rt_shadow s) (slot ls i)) s =
    Ret (info_at (rt_labels s) (peek (rt_shadow s) (slot ls i))) s) as Hr.
  { unfold r_info, on_labels, zoom. rewrite (get_label_info_wf _ m) by (done || lia). by destruct s. }
  rewrite (bind_run _ _ _ _ _ Hr). injection Hkey as H1 _ H2 H3 _ H4.
  rewrite H1, H2, H3, H4, !Z.eqb_refl. simpl. unfold u64. rewrite wrap_small by (unfold in_range; lia).
  replace (8 * i + 8) with (8 * (i + 1)) by lia. apply IH; lia.
Qed.

Lemma r_info_run s l :
  rt_wf s → l ≤ last_label (rt_labels s) → r_info l s = Ret (info_at (rt_labels s) l) s.
Proof.
  intros [m Hm] Hl. unfold r_info, on_labels, zoom.
  rewrite (get_label_info_wf _ m) by (done || lia). by destruct s.
Qed.

(** The start of a load whose first byte is tainted. *)
Lemma load_start s ls n :
  let l0 := peek (rt_shadow s) (slot ls 0) in
  let i0 := info_at (rt_labels s) l0 in
  rt_wf s → 1 ≤ l0 ≤ last_label (rt_labels s) → li_size i0 ≠ 0 →
  taint_union_load ls n s =
    ((if negb (li_op i0 =? 0) then mret (inr false)
      else shape_loop (Z.to_nat n) ls n (li_op1 i0) 1) ≫= λ shape,
     match shape with
     | inl early => mret early
     | inr true => if n =? 1 then mret l0 else r_union l0 n op_Load (n * 8) 0 0
     | inr false =>
         fast ← (if li_op i0 =? op_Extract then
                   let parent := li_l1 i0 in
                   offset ← extract_loop (Z.to_nat n) ls n parent 0 0;
                   pinfo ← r_info parent;
                   mret (if (li_size pinfo =? offset) && (offset =? u64 (n * 8))
                         then Some parent else None)
                 else mret None);
         match fast with
         | Some parent => mret parent
         | None => concat_loop (S (Z.to_nat n)) ls n l0 (li_size i0 / 8)
         end
     end) s.
Proof.
  intros l0 i0 Hwf Hl Hsz. pose proof Hwf as [m Hm]. pose proof (last_bound _ _ Hm).
  unfold taint_union_load, shadow_at. rewrite bind_gets. fold l0.
  rewrite (proj2 (Z.eqb_neq _ kInitializingLabel))
    by (change kInitializingLabel with (2 ^ 32 - 1); lia).
  unfold CONST_OFFSET, is_constant_label, CONST_LABEL.
  rewrite (proj2 (Z.leb_le 1 l0)), (proj2 (Z.eqb_neq l0 0)) by lia.
  pose proof (r_info_run s l0 Hwf ltac:(lia)) as Hr. fold i0 in Hr.
  erewrite bind_run; [|rewrite (bind_run _ _ _ _ _ Hr); apply assert_run;
    by rewrite (proj2 (Z.eqb_neq _ _))].
  erewrite bind_run by done. cbv iota. by rewrite (bind_run _ _ _ _ _ Hr).
Qed.

(** ** Labels that look like input bytes *)
Section confusion.
Context (s : rt) (ls n : Z) (b : Z → input → Z).
Context (Hwf : rt_wf s) (Hn : 2 ≤ n ≤ 31).
Context (Hb : ∀ k, 0 ≤ k < n → byte_ok s ls k (b k)).
Local Abbreviation lab := (lab s ls).
Local Abbreviation rec_at := (rec_at s ls).
Local Abbreviation offset := (li_op1 (rec_at 0)).
Context (H0 : lab 0 ≠ 0) (Hop : li_op (rec_at 0) = 0).
Context (Hshape : ∀ k, 1 ≤ k < n → lab k ≠ 0 ∧ li_op1 (rec_at k) = u64 (offset + k)).

Lemma shape_taken fuel i :
  1 ≤ i ≤ n → (Z.to_nat (n - i) ≤ fuel)%nat → shape_loop fuel ls n offset i s = Ret (inr true) s.
Proof.
  revert i. induction fuel as [|fuel IH]; intros i Hi Hf; cbn [shape_loop].
  { by rewrite (proj2 (Z.eqb_eq i n)) by lia. }
  destruct (Z.eqb_spec i n) as [->|Hne]; [done|].
  unfold shadow_at. rewrite bind_gets. fold (lab i).
  rewrite (proj2 (Z.eqb_neq _ kInitializingLabel)) by (apply (lab_not_init s ls n b); done || lia).
  pose proof (lab_bound s ls n b Hwf Hb i ltac:(lia)) as [_ Hl].
  rewrite (bind_run _ _ _ _ _ (r_info_run s _ Hwf Hl)). fold (rec_at i).
  destruct (Hshape i ltac:(lia)) as [_ ->]. rewrite Z.eqb_refl. cbn [negb]. apply IH; lia.
Qed.
Lemma byte_value k inp : 0 ≤ k < n → u8 (b k inp) = b k inp.
Proof.
  intros Hk. destruct (Hb k Hk) as [[_ ->]|(_ & _ & Hd)]; [apply u8_idemp|by eapply value_byte].
Qed.

(** C40: the shape test of [__taint_union_load] looks at [op1] only, which also
    holds the concrete operand of other records. Take [n] bytes with 8-bit labels,
    the first that of an input byte at [offset], each other with [offset + k] in
    [op1], whatever its operation. The load returns a label that denotes the input
    bytes from [offset] on. So it denotes the loaded value exactly on the inputs on
    which each byte has the value of the input byte it is taken for: on all others
    it is wrong. *)
Theorem load_shape_confusion :
  wpd (taint_union_load ls n)
    (λ l s', rt_wf s' ∧ grew s s' ∧ 1 ≤ l ≤ last_label (rt_labels s') ∧
       ∀ inp, sden s' inp l = Some (VBV (8 * n) (le_combine (input_bytes inp offset n))) ∧
         (sden s' inp l = Some (VBV (8 * n) (le_value b n inp)) ↔
          ∀ k, 0 ≤ k < n → b k inp = u8 (in_byte inp (s32 (offset + k))))) s.
Proof.
  destruct (tainted_byte s ls n b Hb 0 ltac:(lia) H0) as (Hl0 & Hs0 & _).
  assert (∃ m, wf (rt_labels s) m) as [m Hm] by done. pose proof (last_bound _ _ Hm).
  assert (n ≤ last_label (rt_labels s)) as Hnl.
  { apply (shape_count s ls n b Hwf ltac:(lia) Hb offset). intros k Hk. destruct (decide (k = 0)) as [->|].
    - split; [done|]. rewrite Z.add_0_r. symmetry. apply wrap_small, (wf_range _ _ Hm).
    - apply Hshape. lia. }
  unfold wpd. rewrite load_start by (done || (fold (lab 0) (rec_at 0); lia)). fold (lab 0) (rec_at 0).
  rewrite Hop, (bind_run _ _ _ _ _ (shape_taken (Z.to_nat n) 1 ltac:(lia) ltac:(lia))).
  rewrite (proj2 (Z.eqb_neq n 1)) by lia.
  eapply wpd_union; [done|apply request_left; try lia;
      [op_lia|apply load_noncomm|unfold in_range; lia]|simpl; lia|simpl; lia|].
  intros l s' Hwf' Hg Hl Hkey. split_and!; [done|done|lia|lia|]. intros inp.
  assert (sden s' inp l = Some (VBV (8 * n) (le_combine (input_bytes inp offset n)))) as Hd.
  { rewrite (sden_key s' l _ inp Hwf' Hl Hkey), denote_load by done. simpl li_l2. simpl li_l1.
    rewrite (key_op1 _ _ (grew_key _ _ _ Hg (proj2 Hl0))). by rewrite Z.max_r by lia. }
  split; [exact Hd|]. rewrite Hd. unfold le_value, input_bytes. split.
  - intros [= He]. apply le_combine_bytes in He; [|by rewrite !length_map]. rewrite !map_map in He.
    intros k Hk. rewrite <-byte_value by done. symmetry.
    apply (ext_in_map He). by apply list_elem_of_In, elem_of_range.
  - intros He. do 2 f_equal. apply le_combine_ext. rewrite !map_map. apply map_ext_in.
    intros k Hk%list_elem_of_In%elem_of_range. rewrite (byte_value k inp Hk). by rewrite He.
Qed.
End confusion.

(** C12: a stored label is loaded back. For a label of [n] bytes ([n] at least
    2) that is not itself a load, [__taint_union_store] writes extracts to the
    [n] slots, leaves every other slot and the memory alone, keeps all
    labels, and [__taint_union_load] of the same bytes then returns the very
    label that was stored, creating nothing. *)
Theorem store_load_roundtrip s l ls n :
  rt_wf s → 1 ≤ l ≤ last_label (rt_labels s) → 2 ≤ n →
  li_size (info_at (rt_labels s) l) = 8 * n → li_op (info_at (rt_labels s) l) ≠ op_Load →
  wpd (taint_union_store l ls n)
    (λ _ s', stored s ls n (extract_slot l) s' ∧ taint_union_load ls n s' = Ret l s') s.
Proof.
  intros Hwf Hl Hn Hsz Hop. pose proof Hwf as [m Hm]. pose proof (last_bound _ _ Hm) as Hlast.
  destruct (wf_range _ _ Hm l) as (_ & _ & _ & [_ Hs16] & _).
  unfold taint_union_store, CONST_LABEL. rewrite (proj2 (Z.eqb_neq _ kInitializingLabel))
    by (change kInitializingLabel with (2 ^ 32 - 1); lia).
  apply wpd_bind, wpd_gets, wpd_bind, wpd_assert; [lia|].
  rewrite (proj2 (Z.eqb_neq l 0)) by lia. apply wpd_bind, wpd_info; [done|lia|].
  rewrite (proj2 (Z.eqb_neq n 1)), (proj2 (Z.eqb_neq _ op_Load)) by (done || lia). simpl.
  eapply wpd_mono; [apply (store_loop_ok s ls n (extract_slot l)); [done|lia|..]|].
  - intros s1 s2 k x _ [Hkl Hkk] [Hx Hkey]. split; [lia|]. rewrite Hkk by lia. done.
  - intros s1 s2 k x Heq [Hx Hkey]. unfold extract_slot. by rewrite <-Heq.
  - intros s1 k Hwf1 [Hkl _] Hk. pose proof Hwf1 as [m1 Hm1]. pose proof (last_bound _ _ Hm1).
    eapply wpd_union; [done|apply request_left; try lia;
      [op_lia|apply extract_noncomm|unfold in_range; lia]|simpl; lia|simpl; lia|].
    intros x s2 Hwf2 Hg Hx Hkey. split_and!; [done|done|]. split; [lia|]. rewrite Hkey.
    unfold key_of. simpl. unfold u64. rewrite wrap_small by (unfold in_range; lia).
    by rewrite Z.mul_comm.
  - intros [] s' Hst. split; [done|]. destruct Hst as (Hwf' & [Hkl Hkk] & _ & _ & Hsl).
    destruct (Hsl 0 ltac:(lia)) as [Hx Hkey]. injection Hkey as K1 K2 K3 K4 K5 K6.
    rewrite load_start by (done || lia). rewrite K1, K3, K4.
    rewrite (proj2 (Z.eqb_neq op_Extract 0)) by op_lia. simpl negb. cbv iota.
    erewrite bind_run by done. rewrite Z.eqb_refl. cbv zeta.
    pose proof (extract_all s' ls n l (Z.to_nat n) 0 Hwf' ltac:(lia) ltac:(lia) ltac:(lia) Hsl) as He.
    erewrite bind_run; [|erewrite bind_run by (exact He);
      erewrite bind_run by (apply r_info_run; [done|lia]); done].
    pose proof (key_size _ _ (Hkk l ltac:(lia))) as ->. rewrite Hsz, Z.eqb_refl.
    unfold u64. rewrite wrap_small by (unfold in_range; lia).
    by rewrite (proj2 (Z.eqb_eq (8 * n) (n * 8))) by lia.
Qed.

(** The slots [ls[0..n-1]] hold [f 0 .. f (n-1)], the rest is as in [s]. *)
Definition slots_set (s : rt) (ls n : Z) (f : Z → Z) (s' : rt) : Prop :=
  s' = set_shadow (rt_shadow s') s ∧
  (∀ a, (∀ k, 0 ≤ k < n → a ≠ slot ls k) → peek (rt_shadow s') a = peek (rt_shadow s) a) ∧
  ∀ k, 0 ≤ k < n → peek (rt_shadow s') (slot ls k) = f k.

(** A loop whose body makes slot [k] hold [f k]. *)
Lemma put_loop_ok s ls n f (body : Z → M rt ()) :
  0 ≤ n →
  (∀ s1 k, s1 = set_shadow (rt_shadow s1) s → 0 ≤ k < n →
     wp (body k) (λ _ s2, s2 = set_shadow (rt_shadow s2) s1 ∧
     ∀ a, peek (rt_shadow s2) a =
       if decide (slot ls k = a) then f k else peek (rt_shadow s1) a) no_throw s1) →
  wp (for_each (range 0 n) body) (λ _, slots_set s ls n f) no_throw s.
Proof.
  intros Hn Hbody.
  eapply wp_mono; [apply (wp_for_each (λ done s', slots_set s ls (Z.of_nat (length done)) f s'))| |done].
  - intros done k todo s1 Hr (Hs1 & Hf1 & HP1).
    assert (k = Z.of_nat (length done) ∧ k < n) as [Hk Hkn].
    { assert (range 0 n !! length done = Some k) as Hlk by (rewrite Hr; by apply list_lookup_middle).
      unfold range in Hlk. apply lookup_seqZ in Hlk. lia. }
    eapply wp_mono; [apply Hbody; [done|lia]| |done]. intros [] s2 [Hs2 Hp].
    rewrite length_app. simpl. split_and!.
    + by rewrite Hs2, Hs1.
    + intros a Ha. rewrite Hp, decide_False; [apply Hf1; intros j Hj; apply Ha; lia|].
      intros <-. apply (Ha k); [lia|done].
    + intros j Hj. rewrite Hp. case_decide as He; [by apply slot_inj in He as <-|].
      assert (j ≠ k) by (by intros ->). apply HP1. lia.
  - split_and!; [by destruct s|done|simpl; lia].
  - intros [] s' Hs'. unfold range in Hs'. rewrite length_seqZ in Hs'.
    by replace (Z.of_nat (Z.to_nat (n - 0))) with n in Hs' by lia.
Qed.
Lemma shadow_put_ok s1 ls k l :
  wp (shadow_put ls k l) (λ _ s2, s2 = set_shadow (rt_shadow s2) s1 ∧
    ∀ a, peek (rt_shadow s2) a =
      if decide (slot ls k = a) then l else peek (rt_shadow s1) a) no_throw s1.
Proof. apply wp_modify. split; [done|]. intros a. simpl. by rewrite peek_poke. Qed.

(** The labels [l1 .. l1+n-1] are those of consecutive input bytes. *)
Definition input_run (s : rt) (l1 n : Z) : Prop :=
  ∀ k, 0 ≤ k < n → 1 ≤ l1 + k ≤ last_label (rt_labels s) ∧
    input_info (info_at (rt_labels s) (l1 + k)) ∧
    li_op1 (info_at (rt_labels s) (l1 + k)) = li_op1 (info_at (rt_labels s) l1) + k.

Lemma input_run_shape s ls l1 n fuel i :
  rt_wf s → input_run s l1 n → 0 ≤ i ≤ n → (Z.to_nat (n - i) ≤ fuel)%nat →
  (∀ k, 0 ≤ k < n → peek (rt_shadow s) (slot ls k) = l1 + k) →
  shape_loop fuel ls n (li_op1 (info_at (rt_labels s) l1)) i s = Ret (inr true) s.
Proof.
  intros Hwf Hrun Hi Hf Hsl. pose proof Hwf as [m Hm]. pose proof (last_bound _ _ Hm).
  revert i Hi Hf. induction fuel as [|fuel IH]; intros i Hi Hf; cbn [shape_loop].
  { by rewrite (proj2 (Z.eqb_eq i n)) by lia. }
  destruct (Z.eqb_spec i n) as [->|Hne]; [done|].
  unfold shadow_at. rewrite bind_gets, Hsl by lia.
  destruct (Hrun i ltac:(lia)) as (Hl & _ & Ho).
  rewrite (proj2 (Z.eqb_neq _ kInitializingLabel))
    by (change kInitializingLabel with (2 ^ 32 - 1); lia).
  rewrite (bind_run _ _ _ _ _ (r_info_run s _ Hwf (proj2 Hl))), Ho.
  assert (u64 (li_op1 (info_at (rt_labels s) l1) + i) = li_op1 (info_at (rt_labels s) l1) + i) as ->.
  { rewrite <-Ho. apply wrap_small, (wf_range _ _ Hm). }
  rewrite Z.eqb_refl. simpl. apply IH; lia.
Qed.

(** A stored load of consecutive input labels is loaded back. Its bytes get
    the input labels themselves, and the load finds the recorded [Load]. *)
Theorem store_load_inputs s l ls l1 n :
  rt_wf s → 1 ≤ l ≤ last_label (rt_labels s) → 2 ≤ n →
  key_of (info_at (rt_labels s) l) = (l1, n, op_Load, 8 * n, 0, 0) → input_run s l1 n →
  wp (taint_union_store l ls n)
    (λ _ s', stored s ls n (λ _ k x, x = l1 + k) s' ∧ taint_union_load ls n s' = Ret l s')
    no_throw s.
Proof.
  intros Hwf Hl Hn Hkey Hrun. pose proof Hwf as [m Hm]. pose proof (last_bound _ _ Hm) as Hlast.
  pose proof Hkey as Hkey'. injection Hkey' as K1 K2 K3 K4 K5 K6.
  destruct (wf_range _ _ Hm l) as (_ & _ & _ & [_ Hs16] & _).
  unfold taint_union_store. rewrite (proj2 (Z.eqb_neq _ kInitializingLabel))
    by (change kInitializingLabel with (2 ^ 32 - 1); lia).
  apply wp_bind, wp_gets, wp_bind, wp_assert; [lia|].
  rewrite (proj2 (Z.eqb_neq l 0)) by lia. apply wp_bind.
  unfold wp at 1. rewrite r_info_run by (done || lia). cbv beta iota.
  rewrite (proj2 (Z.eqb_neq n 1)), K3, Z.eqb_refl, K1 by lia. simpl.
  assert (∀ k, 0 ≤ k < n → u32 (l1 + k) = l1 + k) as Hu.
  { intros k Hk. destruct (Hrun k Hk) as [? _]. apply wrap_small. unfold in_range. lia. }
  eapply wp_mono; [apply (put_loop_ok s ls n (λ k, l1 + k)); [lia|]| |done].
  - intros s1 k _ Hk. eapply wp_mono; [apply shadow_put_ok| |done].
    intros [] s2 [? Hp]. split; [done|]. intros a. by rewrite Hp, Hu.
  - intros [] s' (Hs' & Hf & Hsl).
    assert (rt_labels s' = rt_labels s) as Hlab by by rewrite Hs'.
    assert (rt_wf s') as Hwf' by (unfold rt_wf; by rewrite Hlab).
    split; [split_and!; [done|unfold rt_kept; by rewrite Hlab|by rewrite Hs'|done|done]|].
    destruct (Hrun 0 ltac:(lia)) as (Hl1 & (Hop & _ & _ & _ & Hsz) & _). rewrite Z.add_0_r in *.
    pose proof (Hsl 0 ltac:(lia)) as Hs0. rewrite Z.add_0_r in Hs0.
    rewrite load_start; rewrite ?Hs0, ?Hlab; [|done|lia|lia]. rewrite Hop. simpl negb. cbv iota.
    pose proof (input_run_shape s' ls l1 n (Z.to_nat n) 1 Hwf') as Hsh. rewrite Hlab in Hsh.
    unfold input_run in Hsh. rewrite Hlab in Hsh.
    erewrite bind_run by (apply Hsh; [done|lia|lia|done]). cbv iota.
    rewrite (proj2 (Z.eqb_neq n 1)) by lia.
    unfold r_union, on_labels, zoom. rewrite Hlab, taint_union_intern.
    rewrite request_left; [|lia..|op_lia|apply load_noncomm|unfold in_range; lia].
    rewrite (intern_found _ m _ l Hm).
    + rewrite <-Hlab. by destruct s'.
    + assert (m !! key_of (info_at (rt_labels s) l) = Some l) as Hml.
      { destruct (wf_label _ _ Hm l Hl) as [(Hop0 & _)|(_ & _ & ?)]; [|done].
        rewrite Hop0 in K3. op_lia. }
      rewrite Hkey in Hml. unfold key_of. simpl. rewrite (proj2 (Z.eqb_neq n 0)) by lia.
      by rewrite (Z.mul_comm n 8).
Qed.

Lemma set_label_ok s label addr size :
  0 ≤ size →
  wp (dfsan_set_label label addr size)
    (λ _, slots_set s (shadow_for addr) size (λ _, label)) no_throw s.
Proof.
  intros Hn. apply (put_loop_ok s); [done|]. intros s1 k _ Hk.
  apply wp_bind, wp_gets. destruct (Z.eqb_spec label (peek (rt_shadow s1) (slot (shadow_for addr) k)))
    as [He|He]; [|apply shadow_put_ok].
  apply wp_ret. split; [by destruct s1|]. intros a. by case_decide; subst.
Qed.

(** [dfsan_set_label] makes exactly the [size] slots of the given bytes
    hold the label, whatever they held before: every other slot, the memory
    and the label store are unchanged; it never fails. *)
Theorem set_label_spec s label addr size :
  0 ≤ size →
  wp (dfsan_set_label label addr size)
    (λ _, slots_set s (shadow_for addr) size (λ _, label)) no_throw s.
Proof. apply set_label_ok. Qed.
End spec.

(** ** Witnesses and findings *)

(** A state with the labels 1 and 2 of the first two input bytes. *)
Definition no_taint_file : taint_file := TaintFile "" (-1) 0 0 0 0 0 0 None 0.
Definition bytes_with (shadow mem : gmap Z Z) : @rt Ref.z3 :=
  rt_of (Zi:=Ref.z3) (created 1 (created 0 (boot_lstate Ref.term))) shadow mem no_taint_file.
Lemma bytes_with_wf shadow mem : wf (rt_labels (bytes_with shadow mem)) ∅.
Proof. do 2 (apply created_wf; [|by vm_compute]). apply boot_wf. Qed.

(** The first byte is input byte 0, the second the constant 7. *)
Definition mixed_rt : @rt Ref.z3 := bytes_with {[ 0x1000 := 1 ]} {[ app_for 0x1004 := 7 ]}.

(** The 16-bit value of the two input bytes is label 3, zero-extended it is
    label 4. *)
Definition load_rt : @rt Ref.z3 := at_state (r_union 1 2 op_Load 16 0 0 (bytes_with ∅ ∅)).
Definition word_rt : @rt Ref.z3 := at_state (r_union 3 0 op_ZExt 32 0 0 load_rt).
Lemma word_rt_wf : rt_wf word_rt.
Proof.
  pose proof (taint_union_cases _ ∅ 1 2 op_Load 16 0 0 (bytes_with_wf ∅ ∅)) as H.
  assert (taint_union 1 2 op_Load 16 0 0 (rt_labels (bytes_with ∅ ∅)) = Ret 3 (rt_labels load_rt))
    as Hr by by vm_compute.
  assert (taint_union 3 0 op_ZExt 32 0 0 (rt_labels load_rt) = Ret 4 (rt_labels word_rt))
    as Hr' by by vm_compute.
  rewrite Hr in H. destruct H as ([m Hm] & _).
  pose proof (taint_union_cases _ m 3 0 op_ZExt 32 0 0 Hm) as H. rewrite Hr' in H. exact (proj1 H).
Qed.

Lemma store_load_roundtrip_witness :
  wpd (taint_union_store 4 0x1000 4)
    (λ _ s', stored word_rt 0x1000 4 (extract_slot 4) s' ∧
       taint_union_load 0x1000 4 s' = Ret 4 s') word_rt.
Proof.
  apply store_load_roundtrip.
  - exact word_rt_wf.
  - by vm_compute.
  - lia.
  - by vm_compute.
  - by vm_compute.
Defined.

Lemma store_load_inputs_witness :
  wp (taint_union_store 3 0x1000 2)
    (λ _ s', stored word_rt 0x1000 2 (λ _ k x, x = 1 + k) s' ∧
       taint_union_load 0x1000 2 s' = Ret 3 s') no_throw word_rt.
Proof.
  apply store_load_inputs.
  - exact word_rt_wf.
  - by vm_compute.
  - lia.
  - by vm_compute.
  - intros k Hk. assert (k = 0 ∨ k = 1) as [-> | ->] by lia; by vm_compute.
Defined.

Lemma set_label_spec_witness :
  wp (dfsan_set_label 1 0x500000000000 4)
    (λ _, slots_set mixed_rt (shadow_for 0x500000000000) 4 (λ _, 1)) no_throw mixed_rt.
Proof. apply set_label_spec. lia. Defined.

Definition zeros : input := Input (λ _, 0) 2.

(** The byte 0 of the input followed by [1 + y], [y] the byte 1: the load is taken
    for a load of two input bytes, which on the all-zero input are 0 and 0, not 0
    and 1. *)
Definition confused_rt : @rt Ref.z3 :=
  at_state (r_union 2 0 op_Add 8 0 1 (bytes_with {[ 0x1000 := 1; 0x1004 := 3 ]} ∅)).
Definition confused_byte (k : Z) (inp : input) : Z :=
  if k =? 0 then u8 (in_byte inp 0) else bvadd 8 1 (u8 (in_byte inp 1)).
Lemma confused_wf : rt_wf confused_rt.
Proof.
  pose proof (taint_union_cases _ ∅ 2 0 op_Add 8 0 1 (bytes_with_wf {[ 0x1000 := 1; 0x1004 := 3 ]} ∅)) as H.
  assert (taint_union 2 0 op_Add 8 0 1 (rt_labels (bytes_with {[ 0x1000 := 1; 0x1004 := 3 ]} ∅)) =
    Ret 3 (rt_labels confused_rt)) as Hr by by vm_compute.
  rewrite Hr in H. exact (proj1 H).
Qed.
Lemma confused_bytes k : 0 ≤ k < 2 → byte_ok confused_rt 0x1000 k (confused_byte k).
Proof.
  intros Hk. assert (k = 0 ∨ k = 1) as [-> | ->] by lia; right;
    (split; [by vm_compute|]; split; [by vm_compute|]; intros inp).
  - rewrite (sden_key confused_rt _ (input_record 0)); [by vm_compute|exact confused_wf|by vm_compute|by vm_compute].
  - assert (sden confused_rt inp 2 = Some (VBV 8 (u8 (in_byte inp 1)))) as H2.
    { rewrite (sden_key confused_rt _ (input_record 1)); [by vm_compute|exact confused_wf|by vm_compute|by vm_compute]. }
    change (peek (rt_shadow confused_rt) (slot 0x1000 1)) with 3.
    rewrite (sden_key confused_rt 3 (LabelInfo 0 2 1 0 op_Add 8 0 0 0 None None));
      [|exact confused_wf|by vm_compute|by vm_compute].
    change (denote_info (rt_labels confused_rt) (rt_mem confused_rt) inp (sden confused_rt inp)
      (LabelInfo 0 2 1 0 op_Add 8 0 0 0 None None))
      with (v' ← sden confused_rt inp 2; bin_sem op_Add 8 (VBV 8 1) v').
    rewrite H2. reflexivity.
Qed.
Lemma load_shape_confusion_witness :
  ∃ s', taint_union_load 0x1000 2 confused_rt = Ret 4 s' ∧
    sden s' zeros 4 = Some (VBV 16 0) ∧ le_value confused_byte 2 zeros = 256 ∧
    sden s' zeros 4 ≠ Some (VBV 16 (le_value confused_byte 2 zeros)).
Proof.
  pose proof (load_shape_confusion confused_rt 0x1000 2 confused_byte confused_wf ltac:(lia) confused_bytes
    ltac:(by vm_compute) ltac:(by vm_compute)
    ltac:(intros k Hk; assert (k = 1) as -> by lia; by vm_compute)) as H.
  assert (returned (taint_union_load 0x1000 2 confused_rt) = Some 4) as Hr by by vm_compute.
  unfold wpd in H. destruct (taint_union_load 0x1000 2 confused_rt) as [l s'| |]; [|discriminate Hr..].
  injection Hr as ->. destruct H as (_ & _ & _ & H). destruct (H zeros) as [Hd Hiff].
  exists s'. split; [reflexivity|]. split; [exact Hd|]. split; [by vm_compute|].
  intros Hc. pose proof (proj1 Hiff Hc 1 ltac:(lia)) as H1. revert H1. by vm_compute.
Defined.

(** A leading constant byte is lost: the slow path passes 0 as the concrete
    value of the first operand, so loading the constant 65 followed by an input
    byte gives a label whose low byte denotes 0. *)
Theorem load_loses_leading_constant :
  let s := bytes_with {[ 0x1004 := 1 ]} {[ app_for 0x1000 := 65 ]} in
  let s' := at_state (taint_union_load 0x1000 2 s) in
  returned (taint_union_load 0x1000 2 s) = Some 3 ∧ sden s' zeros 3 = Some (VBV 16 0).
Proof. cbv zeta. split_and!; by vm_compute. Qed.
