(* ===== verification/Serialize.v ===== *)
(** * From labels to Z3 expressions ([read_concrete], [get_cmd], [cache_expr], [serialize] of [dfsan.cc])

    [serialize] turns the record of a label into a solver expression, caching
    the expression and the set of input offsets it reads in the record. The
    main theorem relates it to the meaning of labels ([Denote.v]): the returned
    expression evaluates, on every input, to the value the label denotes, and
    the returned set covers every byte that value depends on. *)
From S2P Require Import Prelude Platform Labels UnionTable Union Z3 State Denote Shadow ShadowSpec.

Section serialize.
Context {Zi : Z3} {Ops : LlvmOps}.

(** A call to the API: a [z3::exception] propagates. *)
Definition zmk (o : z3op) (es : list expr) : M rt expr :=
  match z3_mk o es with inl e => throw e | inr e => mret e end.

Definition update_info (l : Z) (f : dfsan_label_info expr → dfsan_label_info expr) : M rt () :=
  on_labels (modify (λ ls, set_info l (f (info_at ls l)) ls)).

(** [info->tree_size = n] *)
Definition set_tree (label n : Z) : M rt () := update_info label (set_tree_size (u32 n)).
(** [info->tree_size = get_label_info(l)->tree_size] *)
Definition copy_tree (label l : Z) : M rt () :=
  i ← r_info l; set_tree label (li_tree_size i).

Definition cache_expr (label : Z) (e : expr) (deps : gset Z) : M rt expr :=
  update_info label (set_cache e deps) ;; mret e.

(** The loop of [read_concrete]: higher bytes are concatenated on the left. *)
Fixpoint read_loop (addr : Z) (idx : list Z) (val : expr) : M rt expr :=
  match idx with
  | [] => mret val
  | i :: idx =>
      b ← gets (λ s, peek (rt_mem s) (addr + i));
      c ← zmk (ZBvVal b 8) [];
      val ← zmk ZConcat [c; val];
      read_loop addr idx val
  end.
Definition read_concrete (addr size : Z) : M rt expr :=
  let size := u8 size in
  if addr =? 0 then throw "invalid concrete address" else
  b ← gets (λ s, peek (rt_mem s) addr);
  val ← zmk (ZBvVal b 8) [];
  read_loop addr (range 1 size) val.

Definition get_cmd (lhs rhs : expr) (predicate : Z) : M rt expr :=
  if predicate =? bveq then zmk ZEq [lhs; rhs]
  else if predicate =? bvneq then zmk ZNe [lhs; rhs]
  else if predicate =? bvugt then zmk ZUgt [lhs; rhs]
  else if predicate =? bvuge then zmk ZUge [lhs; rhs]
  else if predicate =? bvult then zmk ZUlt [lhs; rhs]
  else if predicate =? bvule then zmk ZUle [lhs; rhs]
  else if predicate =? bvsgt then zmk ZSgt [lhs; rhs]
  else if predicate =? bvsge then zmk ZSge [lhs; rhs]
  else if predicate =? bvslt then zmk ZSlt [lhs; rhs]
  else if predicate =? bvsle then zmk ZSle [lhs; rhs]
  else throw "unsupported predicate".

(** The constant for an input byte: [int_symbol] takes an [int]. *)
Definition input_const (offset : Z) : M rt expr := zmk (ZConst (SInt (s32 offset)) 8) [].

(** The loop of the [Load] case. *)
Fixpoint load_loop (offset : Z) (idx : list Z) (out : expr) (deps : gset Z)
    : M rt (expr * gset Z) :=
  match idx with
  | [] => mret (out, deps)
  | i :: idx =>
      c ← input_const (offset + i);
      out ← zmk ZConcat [c; out];
      load_loop offset idx out ({[ u32 (offset + i) ]} ∪ deps)
  end.

(** The [switch] over the common operators. *)
Definition bin_expr (info : dfsan_label_info expr) (op1 op2 : expr) : M rt expr :=
  let kind := Z.land (li_op info) 255 in
  if kind =? op_And then zmk (if negb (li_size info =? 1) then ZBvAnd else ZAnd) [op1; op2]
  else if kind =? op_Or then zmk (if negb (li_size info =? 1) then ZBvOr else ZOr) [op1; op2]
  else if kind =? op_Xor then zmk ZBvXor [op1; op2]
  else if kind =? op_Shl then zmk ZShl [op1; op2]
  else if kind =? op_LShr then zmk ZLshr [op1; op2]
  else if kind =? op_AShr then zmk ZAshr [op1; op2]
  else if kind =? op_Add then zmk ZAdd [op1; op2]
  else if kind =? op_Sub then zmk ZSub [op1; op2]
  else if kind =? op_Mul then zmk ZMul [op1; op2]
  else if kind =? op_UDiv then zmk ZUdiv [op1; op2]
  else if kind =? op_SDiv then zmk ZSdiv [op1; op2]
  else if kind =? op_URem then zmk ZUrem [op1; op2]
  else if kind =? op_SRem then zmk ZSrem [op1; op2]
  else if kind =? op_ICmp then get_cmd op1 op2 (Z.shiftr (li_op info) 8)
  else if kind =? op_Concat then zmk ZConcat [op2; op1]
  else throw "unsupported operator".

(** [base.get_sort().bv_size()] *)
Definition bv_size (e : expr) : M rt Z :=
  match z3_sort e with SBV w => mret w | SBool => throw "bv sort expected" end.
Definition is_bool (e : expr) : bool := bool_decide (z3_sort e = SBool).

(** The cases of [serialize]. [deps] is the reference parameter, threaded
    through; [rec] is the recursive call. *)
Definition ser_input (label : Z) (info : dfsan_label_info expr) (deps : gset Z)
    : M rt (expr * gset Z) :=
  c ← input_const (li_op1 info);
  set_tree label 1 ;;
  mret (c, {[ u32 (li_op1 info) ]} ∪ deps).

Definition ser_load (label : Z) (info : dfsan_label_info expr) (deps : gset Z)
    : M rt (expr * gset Z) :=
  info1 ← r_info (li_l1 info);
  let offset := li_op1 info1 in
  out ← input_const offset;
  '(out, deps) ← load_loop offset (range 1 (li_l2 info)) out ({[ u32 offset ]} ∪ deps);
  set_tree label 1 ;;
  e ← cache_expr label out deps; mret (e, deps).

(** [z3::ite(base, bv_val(1, 1), bv_val(0, 1))] for a Boolean [base] *)
Definition bool_to_bv (base : expr) : M rt expr :=
  if is_bool base then
    one ← zmk (ZBvVal 1 1) []; zero ← zmk (ZBvVal 0 1) [];
    zmk ZIte [base; one; zero]
  else mret base.

Section cases.
Context (rec : Z → gset Z → M rt (expr * gset Z)).

Definition ser_zext (label : Z) (info : dfsan_label_info expr) (deps : gset Z)
    : M rt (expr * gset Z) :=
  '(base, deps) ← rec (li_l1 info) deps;
  base ← bool_to_bv base;
  base_size ← bv_size base;
  copy_tree label (li_l1 info) ;;
  e ← zmk (ZZext (u32 (li_size info - base_size))) [base];
  e ← cache_expr label e deps; mret (e, deps).

Definition ser_sext (label : Z) (info : dfsan_label_info expr) (deps : gset Z)
    : M rt (expr * gset Z) :=
  '(base, deps) ← rec (li_l1 info) deps;
  base_size ← bv_size base;
  copy_tree label (li_l1 info) ;;
  e ← zmk (ZSext (u32 (li_size info - base_size))) [base];
  e ← cache_expr label e deps; mret (e, deps).

(** [Trunc] and [Extract]: [base.extract(hi, lo)] *)
Definition ser_extract (hi lo label : Z) (info : dfsan_label_info expr) (deps : gset Z)
    : M rt (expr * gset Z) :=
  '(base, deps) ← rec (li_l1 info) deps;
  copy_tree label (li_l1 info) ;;
  e ← zmk (ZExtract (u32 hi) (u32 lo)) [base];
  e ← cache_expr label e deps; mret (e, deps).

Definition ser_not (label : Z) (info : dfsan_label_info expr) (deps : gset Z)
    : M rt (expr * gset Z) :=
  if (li_l2 info =? 0) || negb (li_size info =? 1) then throw "invalid Not operation" else
  '(e, deps) ← rec (li_l2 info) deps;
  copy_tree label (li_l2 info) ;;
  if negb (is_bool e) then throw "Only LNot should be recorded" else
  e ← zmk ZNot [e];
  e ← cache_expr label e deps; mret (e, deps).

Definition ser_neg (label : Z) (info : dfsan_label_info expr) (deps : gset Z)
    : M rt (expr * gset Z) :=
  if li_l2 info =? 0 then throw "invalid Neg predicate" else
  '(e, deps) ← rec (li_l2 info) deps;
  copy_tree label (li_l2 info) ;;
  e ← zmk ZNeg [e];
  e ← cache_expr label e deps; mret (e, deps).

(** [fmemcmp]: not cached *)
Definition ser_memcmp (label : Z) (info : dfsan_label_info expr) (deps : gset Z)
    : M rt (expr * gset Z) :=
  '(op1, deps) ← (if CONST_OFFSET <=? li_l1 info then rec (li_l1 info) deps
                  else e ← read_concrete (li_op1 info) (li_size info); mret (e, deps));
  if li_l2 info <? CONST_OFFSET then throw "invalid memcmp operand2" else
  '(op2, deps) ← rec (li_l2 info) deps;
  set_tree label 1 ;;
  eq ← zmk ZEq [op1; op2];
  zero ← zmk (ZBvVal 0 32) [];
  one ← zmk (ZBvVal 1 32) [];
  e ← zmk ZIte [eq; zero; one];
  mret (e, deps).

Definition ser_fsize (label : Z) (info : dfsan_label_info expr) (deps : gset Z)
    : M rt (expr * gset Z) :=
  base ← zmk (ZConst (SStr "fsize") (li_size info)) [];
  set_tree label 1 ;;
  if negb (li_op1 info =? 0) then
    offset ← zmk (ZBvVal (li_op1 info) (li_size info)) [];
    e ← zmk ZSub [base; offset]; mret (e, deps)
  else mret (base, deps).

(** The width of the concrete operand of a [Concat] whose operand [this] is
    constant and whose operand [other] is not. *)
Definition concat_size (info : dfsan_label_info expr) (this other size : Z) : M rt Z :=
  if (li_op info =? op_Concat) && (this =? 0) then
    assert_ "other >= CONST_OFFSET" (CONST_OFFSET <=? other) ;;
    i ← r_info other; mret (u8 (li_size info - li_size i))
  else mret size.

(** One operand of the common operators: [n] is the concrete value. *)
Definition ser_operand (info : dfsan_label_info expr) (l n size : Z) (deps : gset Z)
    : M rt (expr * gset Z) :=
  op ← zmk (ZBvVal n size) [];
  if CONST_OFFSET <=? l then
    '(e, deps) ← rec l deps; mret (z3_simplify e, deps)
  else if li_size info =? 1 then
    e ← zmk (ZBoolVal (n =? 1)) []; mret (e, deps)
  else mret (op, deps).

(** The common operators: the second operand collects its own set, merged
    afterwards. *)
Definition ser_common (label : Z) (info : dfsan_label_info expr) (deps : gset Z)
    : M rt (expr * gset Z) :=
  size ← concat_size info (li_l1 info) (li_l2 info) (u8 (li_size info));
  '(op1, deps) ← ser_operand info (li_l1 info) (li_op1 info) size deps;
  size ← concat_size info (li_l2 info) (li_l1 info) size;
  '(op2, deps2) ← ser_operand info (li_l2 info) (li_op2 info) size ∅;
  let deps := deps ∪ deps2 in
  i1 ← r_info (li_l1 info);
  i2 ← r_info (li_l2 info);
  set_tree label (li_tree_size i1 + li_tree_size i2) ;;
  e ← bin_expr info op1 op2;
  e ← cache_expr label e deps; mret (e, deps).

(** The dispatch on the operator of an uncached record. *)
Definition ser_case (label : Z) (info : dfsan_label_info expr) (deps : gset Z)
    : M rt (expr * gset Z) :=
  let op := li_op info in
  (* special ops *)
  if op =? 0 then ser_input label info deps
  else if op =? op_Load then ser_load label info deps
  else if op =? op_ZExt then ser_zext label info deps
  else if op =? op_SExt then ser_sext label info deps
  else if op =? op_Trunc then ser_extract (li_size info - 1) 0 label info deps
  else if op =? op_Extract then
    ser_extract (li_op2 info + li_size info - 1) (li_op2 info) label info deps
  else if op =? op_Not then ser_not label info deps
  else if op =? op_Neg then ser_neg label info deps
  (* higher-order *)
  else if op =? op_fmemcmp then ser_memcmp label info deps
  else if op =? op_fsize then ser_fsize label info deps
  (* common ops *)
  else ser_common label info deps.
End cases.

(** [serialize]: the operands are smaller labels, which bounds the
    recursion. *)
Fixpoint serialize_fuel (fuel : nat) (label : Z) (deps : gset Z) : M rt (expr * gset Z) :=
  if (label <? CONST_OFFSET) || (label =? kInitializingLabel) then throw "invalid label" else
  match fuel with
  | O => out_of_fuel
  | S fuel =>
      info ← r_info label;
      match li_expr info with
      | Some e =>
          match li_deps info with
          | Some d => mret (e, deps ∪ d)
          | None => segv
          end
      | None => ser_case (serialize_fuel fuel) label info deps
      end
  end.
Definition serialize (label : Z) (deps : gset Z) : M rt (expr * gset Z) :=
  serialize_fuel (S (Z.to_nat label)) label deps.
End serialize.

(** ** Soundness *)
Section sound.
Context {Zi : Z3} {Laws : Z3Laws Zi} {Ops : LlvmOps}.
Context (s0 : rt) (m : gmap (Z * Z * Z * Z * Z * Z) Z).
Context (Hwf0 : wf (rt_labels s0) m).

(** The value of a label in the initial state. *)
Definition den (inp : input) (l : Z) : option value :=
  denote (rt_labels s0) (rt_mem s0) inp l.

(** The expression [e] evaluates to the value of [l] on every input. *)
Definition means (l : Z) (e : expr) : Prop :=
  ∀ inp, den inp l = Some (z3_eval (env_of inp) e) ∧
    value_sort (z3_eval (env_of inp) e) = z3_sort e.

(** The states [serialize] goes through: only caches and tree sizes of the
    records change, and every cached expression means its label and comes
    with a set that covers its dependencies. *)
Definition cached_ok (ls : lstate expr) : Prop :=
  ∀ l e, li_expr (info_at ls l) = Some e →
    ∃ d, li_deps (info_at ls l) = Some d ∧ means l e ∧
      label_deps (rt_labels s0) l ⊆ d.
Record during (s : rt) : Prop := {
  during_wf : wf (rt_labels s) m;
  during_rest : s = set_labels (rt_labels s) s0;
  during_last : last_label (rt_labels s) = last_label (rt_labels s0);
  during_keys l : key_of (info_at (rt_labels s) l) = key_of (info_at (rt_labels s0) l);
  during_flags l : li_flags (info_at (rt_labels s) l) = li_flags (info_at (rt_labels s0) l);
  during_cache : cached_ok (rt_labels s);
}.

Lemma wf_update (ls : lstate expr) l i :
  wf ls m → 0 ≤ l ≤ last_label ls → key_of i = key_of (info_at ls l) →
  wf (set_info l i ls) m.
Proof.
  intros Hwf Hl Hk.
  assert (∀ l', key_of (info_at (set_info l i ls) l') = key_of (info_at ls l')) as Hkeys.
  { intros l'. rewrite info_at_set. case_decide; [by subst|done]. }
  assert (∀ l', info_range (info_at (set_info l i ls) l')) as Hrange.
  { intros l'. pose proof (wf_range _ _ Hwf l') as Hr. specialize (Hkeys l').
    injection Hkeys as E1 E2 E3 E4 E5 E6. unfold info_range in *.
    by rewrite E1, E2, E3, E4, E5, E6. }
  split; [apply Hwf|..].
  - intros l'. simpl. rewrite lookup_insert_is_Some'.
    intros [<-|Hl']; [done|by apply (wf_dom _ _ Hwf)].
  - rewrite Hkeys. apply Hwf.
  - intros l' Hl'. rewrite Hkeys. specialize (Hkeys l').
    injection Hkeys as E1 E2 E3 E4 E5 E6. unfold input_info.
    rewrite E1, E2, E3, E4, E6. by apply (wf_label _ _ Hwf).
  - done.
  - intros k l' Hm. rewrite Hkeys. by apply (wf_table _ _ Hwf).
  - apply (wf_nodes _ _ Hwf).
  - apply (table_rep_frame ls); [apply (wf_rep _ _ Hwf)|done|done|auto].
Qed.

Lemma during_label_le s l : during s → l ≤ last_label (rt_labels s0) →
  label_addr l < HashTableAddr.
Proof.
  intros Hs Hl. destruct (wf_last _ _ Hwf0). pose proof (label_addr_mono _ _ Hl). lia.
Qed.

(** ** Rules for the steps of [serialize] *)
Lemma wp_r_info l Q X s :
  during s → l ≤ last_label (rt_labels s0) → Q (info_at (rt_labels s) l) s →
  wp (r_info l) Q X s.
Proof.
  intros Hs Hl HQ. apply wp_zoom. unfold wp.
  rewrite get_label_info_run by (by eapply during_label_le).
  by destruct s.
Qed.

Lemma wp_zmk o es srt (Q : expr → rt → Prop) s :
  op_sort o (map z3_sort es) = Some srt →
  (∀ e, z3_sort e = srt →
     (∀ env, z3_eval env e = op_sem env o (map (z3_eval env) es)) → Q e s) →
  wp (zmk o es) Q no_throw s.
Proof.
  intros Hs HQ. destruct (mk_well_sorted o es srt Hs) as (e & He & ? & ?).
  unfold zmk. rewrite He. by apply HQ.
Qed.

Lemma wp_update_info l f (Q : () → rt → Prop) X s :
  during s → 0 ≤ l ≤ last_label (rt_labels s0) →
  (∀ i, key_of (f i) = key_of i ∧ li_flags (f i) = li_flags i) →
  (∀ i e, info_at (rt_labels s) l = i → li_expr (f i) = Some e →
     ∃ d, li_deps (f i) = Some d ∧ means l e ∧ label_deps (rt_labels s0) l ⊆ d) →
  (∀ s', during s' → Q () s') →
  wp (update_info l f) Q X s.
Proof.
  intros Hs Hl Hf Hc HQ. pose proof (during_last _ Hs) as Hlast.
  apply wp_zoom, wp_modify, HQ. split; simpl.
  - apply wf_update; [apply Hs|lia|apply Hf].
  - pose proof (during_rest _ Hs) as Hr. destruct s. by injection Hr as -> -> -> -> -> -> -> -> -> ->.
  - done.
  - intros l'. rewrite info_at_set. case_decide as Hd; [subst l'|apply (during_keys _ Hs)].
    rewrite (proj1 (Hf _)). apply (during_keys _ Hs).
  - intros l'. rewrite info_at_set. case_decide as Hd; [subst l'|apply (during_flags _ Hs)].
    rewrite (proj2 (Hf _)). apply (during_flags _ Hs).
  - intros l' e. rewrite info_at_set. case_decide as Hd; [subst l'|apply (during_cache _ Hs)]. by apply Hc.
Qed.
Lemma wp_set_tree l n (Q : () → rt → Prop) X s :
  during s → 0 ≤ l ≤ last_label (rt_labels s0) → (∀ s', during s' → Q () s') →
  wp (set_tree l n) Q X s.
Proof.
  intros Hs Hl HQ. apply wp_update_info; [done..| |done].
  intros i e <-. apply (during_cache _ Hs).
Qed.
Lemma wp_copy_tree l l' (Q : () → rt → Prop) X s :
  during s → 0 ≤ l ≤ last_label (rt_labels s0) → l' ≤ last_label (rt_labels s0) →
  (∀ s', during s' → Q () s') → wp (copy_tree l l') Q X s.
Proof.
  intros. apply wp_bind, wp_r_info; [done..|]. by apply wp_set_tree.
Qed.
Lemma wp_cache_expr l e d (Q : expr → rt → Prop) X s :
  during s → 0 ≤ l ≤ last_label (rt_labels s0) → means l e →
  label_deps (rt_labels s0) l ⊆ d → (∀ s', during s' → Q e s') →
  wp (cache_expr l e d) Q X s.
Proof.
  intros Hs Hl He Hd HQ. apply wp_bind, wp_update_info; [done..| |done].
  intros i e' <- [= <-]. eauto.
Qed.
(** The common end of the cached cases. *)
Lemma wp_cache_ret l e d Q X s :
  during s → 0 ≤ l ≤ last_label (rt_labels s0) → means l e →
  label_deps (rt_labels s0) l ⊆ d → (∀ s', during s' → Q (e, d) s') →
  wp (e' ← cache_expr l e d; mret (e', d)) Q X s.
Proof. intros. apply wp_bind. by apply wp_cache_expr. Qed.

Lemma sort_bv v w : value_sort v = SBV w → ∃ n, v = VBV w n.
Proof. destruct v; simpl; intros; simplify_eq. eauto. Qed.
Lemma sort_bool v : value_sort v = SBool → ∃ b, v = VBool b.
Proof. destruct v; simpl; intros; simplify_eq. eauto. Qed.

(** ** The binary operators *)
Section binary.
Context (e1 e2 : expr) (s : rt).
Context (He1 : ∀ inp, value_sort (z3_eval (env_of inp) e1) = z3_sort e1).
Context (He2 : ∀ inp, value_sort (z3_eval (env_of inp) e2) = z3_sort e2).
Context (Hok1 : ∀ inp, value_ok (z3_eval (env_of inp) e1)).

(** The result applies [F] to the values of the operands. *)
Definition bin_post (F : value → value → option value) (e : expr) (s' : rt) : Prop :=
  s' = s ∧ ∀ inp,
    F (z3_eval (env_of inp) e1) (z3_eval (env_of inp) e2) = Some (z3_eval (env_of inp) e) ∧
    value_sort (z3_eval (env_of inp) e) = z3_sort e.
(** [F] is defined at the sorts of the operands. *)
Definition defined_at (F : value → value → option value) : Prop :=
  ∃ v v', value_sort v = z3_sort e1 ∧ value_sort v' = z3_sort e2 ∧ is_Some (F v v').

Lemma wp_bin o (F : value → value → option value) srt :
  op_sort o [z3_sort e1; z3_sort e2] = Some srt →
  (∀ env v v', value_ok v → value_sort v = z3_sort e1 → value_sort v' = z3_sort e2 →
     F v v' = Some (op_sem env o [v; v']) ∧ value_sort (op_sem env o [v; v']) = srt) →
  wp (zmk o [e1; e2]) (bin_post F) no_throw s.
Proof.
  intros Hs HF. eapply wp_zmk; [exact Hs|]. intros e Hse He. split; [done|].
  intros inp. rewrite He, Hse. by apply HF.
Qed.

Lemma wp_same_width o f S :
  (∀ args, op_sort o args = bv2 S args) →
  (∀ env w a b, op_sem env o [VBV w a; VBV w b] = f w a b) →
  (∀ w a b, value_sort (f w a b) = S w) →
  defined_at (same_width f) → wp (zmk o [e1; e2]) (bin_post (same_width f)) no_throw s.
Proof.
  intros Hso Hsem Hsf (v & v' & Hv & Hv' & Hdef).
  destruct v as [c|w a], v' as [c'|w' b]; try (by destruct Hdef). simpl in *.
  destruct (Z.eqb_spec w w') as [<-|]; [|by destruct Hdef].
  apply (wp_bin _ _ (S w)); [rewrite Hso, <-Hv, <-Hv'; simpl; by rewrite Z.eqb_refl|].
  rewrite <-Hv, <-Hv'. intros env x y _ [n ->]%sort_bv [n' ->]%sort_bv. simpl.
  by rewrite Z.eqb_refl, Hsem.
Qed.

Lemma wp_bool o (f : bool → bool → bool) :
  op_sort o [SBool; SBool] = Some SBool →
  (∀ env a b, op_sem env o [VBool a; VBool b] = VBool (f a b)) →
  let F v v' := match v, v' with VBool a, VBool b => Some (VBool (f a b)) | _, _ => None end in
  defined_at F → wp (zmk o [e1; e2]) (bin_post F) no_throw s.
Proof.
  intros Hso Hsem F (v & v' & Hv & Hv' & Hdef).
  destruct v as [c|w a], v' as [c'|w' b]; try (by destruct Hdef). simpl in *.
  apply (wp_bin _ _ SBool); [by rewrite <-Hv, <-Hv'|].
  rewrite <-Hv, <-Hv'. intros env x y _ [n ->]%sort_bool [n' ->]%sort_bool. simpl.
  by rewrite Hsem.
Qed.

Lemma wp_equality o (f : bool → bool) :
  (∀ srt, op_sort o [srt; srt] = Some SBool) →
  (∀ env v v', op_sem env o [v; v'] = VBool (f (bool_decide (v = v')))) →
  let F v v' := if decide (value_sort v = value_sort v')
                then Some (VBool (f (bool_decide (v = v')))) else None in
  defined_at F → wp (zmk o [e1; e2]) (bin_post F) no_throw s.
Proof.
  intros Hso Hsem F (v & v' & Hv & Hv' & Hdef). unfold F in Hdef.
  destruct (decide _) as [Heq|]; [|by destruct Hdef]. rewrite Hv, Hv' in Heq.
  apply (wp_bin _ _ SBool); [by rewrite Heq|]. intros env x y _ Hx Hy. unfold F.
  rewrite decide_True by congruence. by rewrite Hsem.
Qed.

Lemma get_cmd_ok p :
  defined_at (cmp_sem p) → wp (get_cmd e1 e2 p) (bin_post (cmp_sem p)) no_throw s.
Proof.
  unfold get_cmd, cmp_sem. cbv zeta. intros Hdef.
  repeat match goal with
  | |- context [if ?b then _ else _] =>
      match b with (p =? _) => destruct b eqn:? end
  end; try (by destruct Hdef as (? & ? & _ & _ & [? ?]));
    try (eapply (wp_same_width _ _ (λ _, SBool)); [done|done|done|exact Hdef]).
  - apply (wp_equality ZEq id); [|done|exact Hdef]. intros srt. simpl. by rewrite decide_True.
  - apply (wp_equality ZNe negb); [|done|exact Hdef]. intros srt. simpl. by rewrite decide_True.
Qed.

Lemma bin_expr_ok info :
  defined_at (bin_sem (li_op info) (li_size info)) →
  wp (bin_expr info e1 e2) (bin_post (bin_sem (li_op info) (li_size info))) no_throw s.
Proof.
  unfold bin_expr, bin_sem. cbv zeta. set (kind := Z.land (li_op info) 255). intros Hdef.
  repeat match goal with
  | |- context [if ?b then _ else _] =>
      match b with (kind =? _) => destruct b eqn:? end
  end; try (by destruct Hdef as (? & ? & _ & _ & [? ?]));
    try (eapply (wp_same_width _ _ SBV); [done|done|done|exact Hdef]);
    try exact (get_cmd_ok _ Hdef).
  - destruct (li_size info =? 1); simpl.
    + by apply (wp_bool ZAnd andb).
    + eapply (wp_same_width _ _ SBV); [done|done|done|exact Hdef].
  - destruct (li_size info =? 1); simpl.
    + by apply (wp_bool ZOr orb).
    + eapply (wp_same_width _ _ SBV); [done|done|done|exact Hdef].
  - destruct Hdef as (v & v' & Hv & Hv' & Hdef).
    destruct v as [c|w a], v' as [c'|w' b]; try (by destruct Hdef). simpl in Hv, Hv'.
    eapply wp_zmk; [simpl; by rewrite <-Hv, <-Hv'|]. intros e Hse He. split; [done|].
    intros inp. rewrite He, Hse. simpl map. specialize (Hok1 inp).
    specialize (He1 inp). specialize (He2 inp). rewrite <-Hv in He1. rewrite <-Hv' in He2.
    apply sort_bv in He1 as [n Hn]. apply sort_bv in He2 as [n' Hn'].
    rewrite Hn, Hn' in *. destruct Hok1. simpl. rewrite bvconcat_add by (lia || done).
    by rewrite (Z.add_comm w').
Qed.
End binary.

(** What a call promises, [rec_ok] for the recursive calls. *)
Definition ser_post (l : Z) (deps : gset Z) (r : expr * gset Z) (s : rt) : Prop :=
  during s ∧ means l r.1 ∧ deps ∪ label_deps (rt_labels s0) l ⊆ r.2.
Definition rec_ok (rec : Z → gset Z → M rt (expr * gset Z)) (l : Z) : Prop :=
  ∀ deps s, during s → (∃ inp, is_Some (den inp l)) →
    wp (rec l deps) (ser_post l deps) no_throw s.

Lemma wp_rec rec l deps (Q : expr * gset Z → rt → Prop) s :
  rec_ok rec l → during s → (∃ inp, is_Some (den inp l)) →
  (∀ e d s', during s' → means l e → deps ∪ label_deps (rt_labels s0) l ⊆ d → Q (e, d) s') →
  wp (rec l deps) Q no_throw s.
Proof.
  intros Hrec Hs Hd HQ. eapply wp_mono; [by apply Hrec| |done].
  intros [e d] s' (? & ? & ?). by apply HQ.
Qed.

(** A meaning at one input fixes the sort of the expression. *)
Lemma means_sort l e inp v : means l e → den inp l = Some v → z3_sort e = value_sort v.
Proof.
  intros H Hv. destruct (H inp) as [Hd <-]. rewrite Hv in Hd.
  by injection Hd as <-.
Qed.

Lemma means_ok l e inp : means l e → value_ok (z3_eval (env_of inp) e).
Proof. intros H. destruct (H inp) as [Hd _]. exact (denote_ok _ _ _ _ _ _ Hwf0 Hd). Qed.

(** An expression built from the expression of an operand. *)
Lemma means_unary l l1 f e1 e o srt :
  (∀ inp, den inp l = den inp l1 ≫= f) → means l1 e1 → z3_sort e = srt →
  (∀ env, z3_eval env e = op_sem env o [z3_eval env e1]) →
  (∀ env v, value_ok v → value_sort v = z3_sort e1 →
     f v = Some (op_sem env o [v]) ∧ value_sort (op_sem env o [v]) = srt) →
  means l e.
Proof.
  intros Hl He1 Hsrt Hev Hf inp. pose proof (means_ok _ _ inp He1) as Hok.
  destruct (He1 inp) as [Hd Hs]. destruct (Hf (env_of inp) _ Hok Hs) as [Hfv Hsv].
  rewrite Hl, Hev, Hsrt. by rewrite Hd.
Qed.

(** The operand is defined where the record is. *)
Lemma operand_defined {l l1} {f : value → option value} :
  (∀ inp, den inp l = den inp l1 ≫= f) → (∃ inp, is_Some (den inp l)) →
  ∃ inp v, den inp l1 = Some v ∧ is_Some (f v).
Proof.
  intros Hl (inp & r & Hr). rewrite Hl in Hr. apply bind_Some in Hr as (v & Hv & Hf).
  exists inp, v. eauto.
Qed.

Lemma wp_cache_post l e deps d s :
  during s → 0 ≤ l ≤ last_label (rt_labels s0) → means l e →
  deps ∪ label_deps (rt_labels s0) l ⊆ d →
  wp (e' ← cache_expr l e d; mret (e', d)) (ser_post l deps) no_throw s.
Proof. intros. apply wp_cache_ret; [done|done|done|set_solver|].
  intros s' Hs'. split; [done|]. by split. Qed.

Section cases.
Context (rec : Z → gset Z → M rt (expr * gset Z)) (label : Z).
Context (Hlabel : 0 ≤ label ≤ last_label (rt_labels s0)).
Context (info : dfsan_label_info expr).

(** The cases with one operand [l1], whose meaning is a function of it. *)
Section unary.
Context (l1 : Z) (f : value → option value).
Context (Hl1 : l1 ≤ last_label (rt_labels s0)) (Hrec : rec_ok rec l1).
Context (Hden : ∀ inp, den inp label = den inp l1 ≫= f).
Context (Hdeps : label_deps (rt_labels s0) label = label_deps (rt_labels s0) l1).
Context (Hdef : ∃ inp, is_Some (den inp label)).

Lemma wp_operand deps s (k : expr * gset Z → M rt (expr * gset Z)) Q :
  during s →
  (∀ e1 d s1 v, during s1 → means l1 e1 → value_ok v → value_sort v = z3_sort e1 → is_Some (f v) →
     deps ∪ label_deps (rt_labels s0) label ⊆ d → wp (k (e1, d)) Q no_throw s1) →
  wp (rec l1 deps ≫= k) Q no_throw s.
Proof.
  intros Hs Hk. destruct (operand_defined Hden Hdef) as (inp & v & Hv & Hfv).
  apply wp_bind, wp_rec; [done|done|by exists inp; eexists|].
  intros e1 d s1 Hs1 He1 Hd. rewrite <-Hdeps in Hd.
  apply (Hk e1 d s1 v); [done|done|exact (denote_ok _ _ _ _ _ _ Hwf0 Hv)| |done|done].
  symmetry. by eapply means_sort.
Qed.

(** The last steps: one application to the operand, and the cache. *)
Lemma wp_unary_op deps d e1 o srt s :
  during s → means l1 e1 → deps ∪ label_deps (rt_labels s0) label ⊆ d →
  op_sort o [z3_sort e1] = Some srt →
  (∀ env v, value_ok v → value_sort v = z3_sort e1 →
     f v = Some (op_sem env o [v]) ∧ value_sort (op_sem env o [v]) = srt) →
  wp (e ← zmk o [e1]; e ← cache_expr label e d; mret (e, d))
    (ser_post label deps) no_throw s.
Proof.
  intros Hs He1 Hd Hsrt Hsem. apply wp_bind. eapply wp_zmk; [exact Hsrt|].
  intros e He Hev. apply wp_cache_post; [done|done| |done].
  by eapply (means_unary label l1).
Qed.

Lemma wp_copy_operand k (Q : expr * gset Z → rt → Prop) s :
  during s → (∀ s', during s' → wp k Q no_throw s') →
  wp (copy_tree label l1 ;; k) Q no_throw s.
Proof. intros. apply wp_bind, wp_copy_tree; done. Qed.

Lemma ser_sext_ok deps s :
  during s → li_l1 info = l1 → li_size info < 2 ^ 16 →
  f = sext_sem (li_size info) →
  wp (ser_sext rec label info deps) (ser_post label deps) no_throw s.
Proof.
  intros Hs E1 Hsz Hf. unfold ser_sext. rewrite E1. apply wp_operand; [done|].
  intros e1 d s1 v Hs1 He1 Hok Hv Hfv Hd. rewrite Hf in Hfv.
  destruct v as [c|w a]; [by destruct Hfv|]. simpl in Hok, Hv, Hfv.
  destruct (Z.leb_spec w (li_size info)) as [Hw|]; [|by destruct Hfv].
  apply wp_bind. unfold bv_size. rewrite <-Hv. apply wp_ret.
  apply wp_copy_operand; [done|]. intros s2 Hs2.
  unfold u32. rewrite (wrap_small 32) by (unfold in_range; lia).
  eapply wp_unary_op; [done|done|done|rewrite <-Hv; simpl; by rewrite (proj2 (Z.leb_le _ _)) by lia|].
  intros env v' Hok' Hv'. rewrite <-Hv in Hv'. apply sort_bv in Hv' as [n ->]. rewrite Hf. simpl.
  rewrite (proj2 (Z.leb_le _ _)) by lia. unfold bvsext.
  by replace (w + (li_size info - w)) with (li_size info) by lia.
Qed.

Lemma ser_extract_ok lo deps s :
  during s → li_l1 info = l1 → 0 ≤ lo → f = slice_sem lo (li_size info) →
  wp (ser_extract rec (lo + li_size info - 1) lo label info deps)
    (ser_post label deps) no_throw s.
Proof.
  intros Hs E1 Hlo Hf. unfold ser_extract. rewrite E1. apply wp_operand; [done|].
  intros e1 d s1 v Hs1 He1 Hok Hv Hfv Hd. rewrite Hf in Hfv.
  destruct v as [c|w a]; [by destruct Hfv|]. simpl in Hok, Hv, Hfv.
  destruct (_ && _) eqn:Hc; [|by destruct Hfv].
  apply wp_copy_operand; [done|]. intros s2 Hs2.
  unfold u32. rewrite !(wrap_small 32) by (unfold in_range; lia).
  eapply wp_unary_op; [done|done|done|rewrite <-Hv; simpl|].
  { rewrite (proj2 (andb_true_iff _ _)); [done|]. lia. }
  intros env v' Hok' Hv'. rewrite <-Hv in Hv'. apply sort_bv in Hv' as [n ->]. rewrite Hf. simpl.
  rewrite Hc. unfold bvextract, wrap. rewrite Z.shiftr_div_pow2 by done.
  by replace (lo + li_size info - 1 - lo + 1) with (li_size info) by lia.
Qed.

Lemma ser_not_ok deps s :
  during s → li_l2 info = l1 → l1 ≠ 0 → li_size info = 1 → f = not_sem →
  wp (ser_not rec label info deps) (ser_post label deps) no_throw s.
Proof.
  intros Hs E1 Hz Hsz Hf. unfold ser_not. rewrite E1, Hsz, (proj2 (Z.eqb_neq _ _)) by done.
  apply wp_operand; [done|].
  intros e1 d s1 v Hs1 He1 Hok Hv Hfv Hd. rewrite Hf in Hfv.
  destruct v as [c|w a]; [|by destruct Hfv]. simpl in Hv.
  apply wp_copy_operand; [done|]. intros s2 Hs2.
  unfold is_bool. rewrite bool_decide_true by done.
  eapply wp_unary_op; [done|done|done|by rewrite <-Hv|].
  intros env v' Hok' Hv'. rewrite <-Hv in Hv'. rewrite Hf. by apply sort_bool in Hv' as [n ->].
Qed.

Lemma ser_neg_ok deps s :
  during s → li_l2 info = l1 → l1 ≠ 0 → f = neg_sem →
  wp (ser_neg rec label info deps) (ser_post label deps) no_throw s.
Proof.
  intros Hs E1 Hz Hf. unfold ser_neg. rewrite E1, (proj2 (Z.eqb_neq _ _)) by done.
  apply wp_operand; [done|].
  intros e1 d s1 v Hs1 He1 Hok Hv Hfv Hd. rewrite Hf in Hfv.
  destruct v as [c|w a]; [by destruct Hfv|]. simpl in Hv.
  apply wp_copy_operand; [done|]. intros s2 Hs2.
  eapply wp_unary_op; [done|done|done|by rewrite <-Hv|].
  intros env v' Hok' Hv'. rewrite <-Hv in Hv'. rewrite Hf. by apply sort_bv in Hv' as [n ->].
Qed.

(** [ZExt] works on the operand as a bit-vector. *)
Definition as_bv (v : value) : value :=
  match v with VBool b => VBV 1 (Z.b2z b) | _ => v end.

Lemma bool_to_bv_ok e1 s (Q : expr → rt → Prop) :
  means l1 e1 →
  (∀ e w, z3_sort e = SBV w → (z3_sort e1 = SBV w ∨ z3_sort e1 = SBool ∧ w = 1) →
     (∀ inp, z3_eval (env_of inp) e = as_bv (z3_eval (env_of inp) e1)) → Q e s) →
  wp (bool_to_bv e1) Q no_throw s.
Proof.
  intros He1 HQ. unfold bool_to_bv, is_bool. case_bool_decide as Hb.
  - apply wp_bind. eapply wp_zmk; [done|]. intros one Ho1 Ho2.
    apply wp_bind. eapply wp_zmk; [done|]. intros zero Hz1 Hz2.
    eapply wp_zmk; [simpl; by rewrite Hb, Ho1, Hz1|]. intros e He1' He2.
    apply (HQ e 1); [done|by right|]. intros inp. destruct (He1 inp) as [_ Hs].
    rewrite Hb in Hs. apply sort_bool in Hs as [c Hc].
    rewrite He2. simpl. rewrite Hc, Ho2, Hz2. by destruct c.
  - destruct (z3_sort e1) as [|w] eqn:Hs1; [done|].
    apply wp_ret, (HQ e1 w); [done|by left|]. intros inp. destruct (He1 inp) as [_ Hs].
    rewrite Hs1 in Hs. by apply sort_bv in Hs as [n ->].
Qed.

Lemma zext_as_bv env size v w :
  value_ok v → value_sort (as_bv v) = SBV w → w ≤ size →
  zext_sem size v = Some (op_sem env (ZZext (size - w)) [as_bv v]) ∧
  value_sort (op_sem env (ZZext (size - w)) [as_bv v]) = SBV (w + (size - w)).
Proof.
  destruct v as [c|w' a]; simpl; intros Hok [= <-] Hw;
    rewrite (proj2 (Z.leb_le _ _)) by lia.
  - by replace (1 + (size - 1)) with size by lia.
  - by replace (w' + (size - w')) with size by lia.
Qed.

Lemma ser_zext_ok deps s :
  during s → li_l1 info = l1 → li_size info < 2 ^ 16 →
  f = zext_sem (li_size info) →
  wp (ser_zext rec label info deps) (ser_post label deps) no_throw s.
Proof.
  intros Hs E1 Hsz Hf. unfold ser_zext. rewrite E1. apply wp_operand; [done|].
  intros e1 d s1 v Hs1 He1 Hok Hv Hfv Hd. rewrite Hf in Hfv.
  apply wp_bind, bool_to_bv_ok; [done|]. intros e2 w Hs2 Hsw Hev2.
  assert (0 < w ≤ li_size info) as Hw.
  { destruct v as [c|w' a]; simpl in Hok, Hv, Hfv;
      case_match; destruct Hfv; try done; rewrite <-Hv in Hsw; naive_solver lia. }
  apply wp_bind. unfold bv_size. rewrite Hs2. apply wp_ret.
  apply wp_copy_operand; [done|]. intros s3 Hs3.
  unfold u32. rewrite (wrap_small 32) by (unfold in_range; lia).
  apply wp_bind. eapply wp_zmk.
  { simpl. rewrite Hs2. by rewrite (proj2 (Z.leb_le _ _)) by lia. }
  intros e He Hev. apply wp_cache_post; [done|done| |done].
  intros inp. rewrite Hden, Hev, Hf, He. destruct (He1 inp) as [-> Hsv]. simpl map.
  rewrite Hev2. apply (zext_as_bv _ (li_size info) _ w); [|..|lia].
  - by apply (means_ok l1).
  - destruct (z3_eval (env_of inp) e1); simpl in *; rewrite <-Hsv in Hsw; naive_solver.
Qed.
End unary.

(** One more byte on the left of a little-endian value. *)
Lemma concat_byte env b bs :
  op_sem env ZConcat [VBV 8 (u8 b); VBV (8 * Z.of_nat (length bs)) (le_combine bs)] =
  VBV (8 * Z.of_nat (length (bs ++ [b]))) (le_combine (bs ++ [b])).
Proof.
  simpl. rewrite length_app, le_combine_snoc, bvconcat_add by (lia || apply le_combine_range).
  f_equal. simpl. lia.
Qed.

Lemma le_combine_one b bs : bs = [b] → le_combine bs = wrap 8 b.
Proof. intros ->. cbn [le_combine]. unfold u8. lia. Qed.

(** [e] is the little-endian value of the bytes [B inp]. *)
Definition is_bytes (n : Z) (B : input → list Z) (e : expr) : Prop :=
  z3_sort e = SBV (8 * n) ∧
  ∀ inp, Z.of_nat (length (B inp)) = n ∧
    z3_eval (env_of inp) e = VBV (8 * n) (le_combine (B inp)).

Lemma wp_concat_byte n B (b : input → Z) c e (Q : expr → rt → Prop) s :
  is_bytes n B e → z3_sort c = SBV 8 →
  (∀ inp, z3_eval (env_of inp) c = VBV 8 (u8 (b inp))) →
  (∀ e', is_bytes (n + 1) (λ inp, B inp ++ [b inp]) e' → Q e' s) →
  wp (zmk ZConcat [c; e]) Q no_throw s.
Proof.
  intros [Hs He] Hsc Hc HQ. eapply wp_zmk; [simpl; by rewrite Hsc, Hs|].
  intros e' Hs' He'. apply HQ. split.
  - rewrite Hs'. f_equal. lia.
  - intros inp. destruct (He inp) as [Hn Hev]. rewrite length_app. simpl. split; [lia|].
    rewrite He'. simpl map. rewrite Hc, Hev, <-Hn, concat_byte, length_app. simpl.
    f_equal. lia.
Qed.

Lemma input_const_ok offset (Q : expr → rt → Prop) s :
  (∀ e, z3_sort e = SBV 8 →
     (∀ inp, z3_eval (env_of inp) e = VBV 8 (u8 (in_byte inp (s32 offset)))) → Q e s) →
  wp (input_const offset) Q no_throw s.
Proof. intros HQ. eapply wp_zmk; [done|]. intros e Hs He. by apply HQ. Qed.

Lemma load_loop_ok off n k out deps s (Q : expr * gset Z → rt → Prop) :
  1 ≤ k → is_bytes k (λ inp, input_bytes inp off k) out →
  (∀ e, is_bytes (Z.max k n) (λ inp, input_bytes inp off (Z.max k n)) e →
     Q (e, list_to_set (map (λ i, u32 (off + i)) (range k n)) ∪ deps) s) →
  wp (load_loop off (range k n) out deps) Q no_throw s.
Proof.
  intros Hk. remember (Z.to_nat (n - k)) as len eqn:Hlen. revert k Hk out deps Hlen.
  induction len as [|len IH]; intros k Hk out deps Hlen Hout HQ.
  { rewrite range_nil in * by lia. rewrite Z.max_l in HQ by lia. apply wp_ret.
    specialize (HQ out Hout). simpl in HQ. by rewrite (left_id_L ∅ (∪)) in HQ. }
  rewrite (range_cons k n) in * by lia. cbn [load_loop].
  apply wp_bind, input_const_ok. intros c Hsc Hc.
  apply wp_bind. apply (wp_concat_byte k _ (λ inp, in_byte inp (s32 (off + k))) _ _ _ _ Hout Hsc Hc).
  intros e He. apply (IH (k + 1)); [lia|lia|..].
  - split; [apply He|]. intros inp. destruct He as [_ He]. destruct (He inp) as [Hl Hev].
    unfold input_bytes. rewrite (range_snoc 0 (k + 1)) by lia.
    replace (k + 1 - 1) with k by lia. rewrite map_app. by split.
  - intros e' He'.
    replace (Z.max (k + 1) n) with (Z.max k n) in He' by lia.
    specialize (HQ e' He'). cbn [map list_to_set] in HQ.
    rewrite (assoc_L (∪)), (comm_L (∪) _ {[ _ ]}). exact HQ.
Qed.

Lemma read_loop_ok addr n k val s (Q : expr → rt → Prop) :
  1 ≤ k → is_bytes k (λ _, mem_bytes (rt_mem s) addr k) val →
  (∀ e, is_bytes (Z.max k n) (λ _, mem_bytes (rt_mem s) addr (Z.max k n)) e → Q e s) →
  wp (read_loop addr (range k n) val) Q no_throw s.
Proof.
  intros Hk. remember (Z.to_nat (n - k)) as len eqn:Hlen. revert k Hk val Hlen.
  induction len as [|len IH]; intros k Hk val Hlen Hval HQ.
  { rewrite range_nil by lia. rewrite Z.max_l in HQ by lia. by apply wp_ret, HQ. }
  rewrite (range_cons k n) by lia. cbn [read_loop]. apply wp_bind, wp_gets.
  apply wp_bind. eapply wp_zmk; [done|]. intros c Hsc Hc.
  apply wp_bind, (wp_concat_byte k _ (λ _, peek (rt_mem s) (addr + k)) _ _ _ _ Hval Hsc);
    [intros inp; apply Hc|].
  intros e He. apply (IH (k + 1)); [lia|lia|..].
  - split; [apply He|]. intros inp. destruct He as [_ He]. destruct (He inp) as [Hl Hev].
    unfold mem_bytes. rewrite (range_snoc 0 (k + 1)) by lia.
    replace (k + 1 - 1) with k by lia. rewrite map_app. by split.
  - intros e' He'. apply HQ. by replace (Z.max k n) with (Z.max (k + 1) n) by lia.
Qed.

Lemma read_concrete_ok addr size s (Q : expr → rt → Prop) :
  addr ≠ 0 →
  (∀ e, is_bytes (Z.max 1 (u8 size))
          (λ _, mem_bytes (rt_mem s) addr (Z.max 1 (u8 size))) e → Q e s) →
  wp (read_concrete addr size) Q no_throw s.
Proof.
  intros Ha HQ. unfold read_concrete. cbv zeta. rewrite (proj2 (Z.eqb_neq _ _)) by done.
  apply wp_bind, wp_gets, wp_bind. eapply wp_zmk; [done|]. intros c Hsc Hc.
  apply read_loop_ok; [done| |done]. split; [done|]. intros inp. split; [done|].
  rewrite Hc.
  by rewrite (le_combine_one (peek (rt_mem s) addr))
    by (unfold mem_bytes, input_bytes, range; simpl; by rewrite Z.add_0_r).
Qed.

Lemma ser_input_ok deps s :
  during s →
  (∀ inp, den inp label = Some (VBV 8 (u8 (in_byte inp (s32 (li_op1 info)))))) →
  label_deps (rt_labels s0) label = {[ u32 (li_op1 info) ]} →
  wp (ser_input label info deps) (ser_post label deps) no_throw s.
Proof.
  intros Hs Hden Hdeps. apply wp_bind, input_const_ok. intros e Hse He.
  apply wp_bind, wp_set_tree; [done|done|]. intros s' Hs'. split; [done|].
  split; [|rewrite Hdeps; simpl; set_solver].
  intros inp. simpl. by rewrite Hden, Hse, He.
Qed.

Lemma ser_load_ok deps s :
  let off := li_op1 (info_at (rt_labels s0) (li_l1 info)) in
  let n := Z.max 1 (li_l2 info) in
  during s → li_l1 info ≤ last_label (rt_labels s0) →
  (∀ inp, den inp label = Some (VBV (8 * n) (le_combine (input_bytes inp off n)))) →
  label_deps (rt_labels s0) label =
    list_to_set (map (λ k, u32 (off + k)) (range 0 n)) →
  wp (ser_load label info deps) (ser_post label deps) no_throw s.
Proof.
  intros off n Hs Hl1 Hden Hdeps. apply wp_bind, wp_r_info; [done|done|].
  assert (li_op1 (info_at (rt_labels s) (li_l1 info)) = off) as Hoff.
  { pose proof (during_keys _ Hs (li_l1 info)) as Hk. by injection Hk. }
  cbv zeta. rewrite Hoff. apply wp_bind, input_const_ok. intros c Hsc Hc.
  apply wp_bind, load_loop_ok; [done|..].
  { split; [done|]. intros inp. split; [done|]. rewrite Hc.
    by rewrite (le_combine_one (in_byte inp (s32 off)))
      by (unfold mem_bytes, input_bytes, range; simpl; by rewrite Z.add_0_r). }
  intros e [Hse He]. apply wp_bind, wp_set_tree; [done|done|]. intros s1 Hs1.
  apply wp_cache_post; [done|done| |].
  - intros inp. destruct (He inp) as [_ Hev]. by rewrite Hden, Hev, Hse.
  - rewrite Hdeps. unfold n. rewrite (range_cons 0) by lia. simpl. rewrite Z.add_0_r.
    destruct (decide (1 ≤ li_l2 info)); [rewrite Z.max_r by lia; set_solver|].
    rewrite Z.max_l by lia. rewrite !range_nil by lia. set_solver.
Qed.

Lemma ser_fsize_ok deps s :
  during s → 0 < li_size info →
  (∀ inp, den inp label =
     Some (VBV (li_size info) (wrap (li_size info) (in_size inp - li_op1 info)))) →
  label_deps (rt_labels s0) label = ∅ →
  wp (ser_fsize label info deps) (ser_post label deps) no_throw s.
Proof.
  intros Hs Hsz Hden Hdeps. apply wp_bind.
  eapply wp_zmk; [simpl; by rewrite (proj2 (Z.ltb_lt _ _) Hsz)|]. intros base Hsb Hb.
  apply wp_bind, wp_set_tree; [done|done|]. intros s1 Hs1.
  assert (∀ e, z3_sort e = SBV (li_size info) →
    (∀ inp, z3_eval (env_of inp) e =
       VBV (li_size info) (wrap (li_size info) (in_size inp - li_op1 info))) →
    ser_post label deps (e, deps) s1) as Hpost.
  { intros e Hse He. split; [done|]. split; [|rewrite Hdeps; simpl; set_solver].
    intros inp. simpl. by rewrite Hden, He, Hse. }
  destruct (Z.eqb_spec (li_op1 info) 0) as [Hz|Hz]; simpl.
  - apply wp_ret, Hpost; [done|]. intros inp. rewrite Hb, Hz, Z.sub_0_r. done.
  - apply wp_bind. eapply wp_zmk; [simpl; by rewrite (proj2 (Z.ltb_lt _ _) Hsz)|].
    intros off Hso Ho. apply wp_bind.
    eapply wp_zmk; [simpl; rewrite Hsb, Hso; simpl; by rewrite Z.eqb_refl|].
    intros e Hse He. apply wp_ret, Hpost; [done|]. intros inp. rewrite He. simpl map.
    rewrite Hb, Ho. simpl. unfold bvsub, wrap. by rewrite <-Zminus_mod.
Qed.

(** An operand that may be concrete: its value [V] and its offsets. *)
Definition operand_ok (V : input → option value) (e : expr) : Prop :=
  ∀ inp, V inp = Some (z3_eval (env_of inp) e) ∧
    value_sort (z3_eval (env_of inp) e) = z3_sort e ∧ value_ok (z3_eval (env_of inp) e).
Definition operand_deps (l : Z) : gset Z :=
  if 1 <=? l then label_deps (rt_labels s0) l else ∅.

Lemma means_operand l e : means l e → operand_ok (λ inp, den inp l) e.
Proof. intros He inp. destruct (He inp). split_and!; [done|done|]. by eapply means_ok. Qed.
Lemma operand_sort V e inp v : operand_ok V e → V inp = Some v → value_sort v = z3_sort e.
Proof. intros He Hv. destruct (He inp) as (Hd & <- & _). rewrite Hv in Hd. by injection Hd as <-. Qed.

Lemma bytes_operand n B e :
  0 < n → is_bytes n B e → operand_ok (λ inp, Some (VBV (8 * n) (le_combine (B inp)))) e.
Proof.
  intros Hn [Hs He] inp. destruct (He inp) as [Hl ->]. split_and!; [done|by rewrite Hs|].
  split; [lia|]. rewrite <-Hl. apply le_combine_range.
Qed.

Lemma memcmp_operand_ok deps s (Q : expr * gset Z → rt → Prop) :
  let V inp := if 1 <=? li_l1 info then den inp (li_l1 info)
               else if li_op1 info =? 0 then None
               else Some (VBV (8 * Z.max 1 (u8 (li_size info)))
                 (le_combine (mem_bytes (rt_mem s0) (li_op1 info)
                                (Z.max 1 (u8 (li_size info)))))) in
  during s → (1 ≤ li_l1 info → rec_ok rec (li_l1 info)) → (∃ inp, is_Some (V inp)) →
  (∀ e d s', during s' → operand_ok V e → deps ∪ operand_deps (li_l1 info) ⊆ d → Q (e, d) s') →
  wp (if CONST_OFFSET <=? li_l1 info then rec (li_l1 info) deps
      else e ← read_concrete (li_op1 info) (li_size info); mret (e, deps)) Q no_throw s.
Proof.
  intros V Hs Hrec Hdef HQ. unfold CONST_OFFSET, operand_deps in *. unfold V in *. clear V.
  destruct (Z.leb_spec 1 (li_l1 info)) as [Hl|Hl].
  - apply wp_rec; [by apply Hrec|done|done|]. intros e d s' Hs' He Hd.
    apply HQ; [done|by apply means_operand|done].
  - destruct (Z.eqb_spec (li_op1 info) 0) as [|Hz]; [by destruct Hdef as (? & ? & ?)|].
    assert (rt_mem s = rt_mem s0) as Hmem by (by rewrite (during_rest _ Hs)).
    apply wp_bind, read_concrete_ok; [done|]. intros e He. rewrite Hmem in He.
    apply wp_ret, HQ; [done| |set_solver]. by apply bytes_operand in He; [|lia].
Qed.

Lemma ser_memcmp_ok deps s :
  let V inp := if 1 <=? li_l1 info then den inp (li_l1 info)
               else if li_op1 info =? 0 then None
               else Some (VBV (8 * Z.max 1 (u8 (li_size info)))
                 (le_combine (mem_bytes (rt_mem s0) (li_op1 info)
                                (Z.max 1 (u8 (li_size info)))))) in
  during s → (1 ≤ li_l1 info → rec_ok rec (li_l1 info)) → rec_ok rec (li_l2 info) →
  (∀ inp, den inp label = v ← V inp;
     if li_l2 info <? 1 then None else
     v' ← den inp (li_l2 info);
     if decide (value_sort v = value_sort v')
     then Some (VBV 32 (if decide (v = v') then 0 else 1)) else None) →
  (∃ inp, is_Some (den inp label)) →
  label_deps (rt_labels s0) label = operand_deps (li_l1 info) ∪ operand_deps (li_l2 info) →
  wp (ser_memcmp rec label info deps) (ser_post label deps) no_throw s.
Proof.
  intros V Hs Hrec1 Hrec2 Hden (inp0 & r & Hr) Hdeps. rewrite Hden in Hr.
  apply bind_Some in Hr as (v & Hv & Hr).
  destruct (Z.ltb_spec (li_l2 info) 1) as [|Hl2]; [done|].
  apply bind_Some in Hr as (v' & Hv' & Hr).
  apply wp_bind, memcmp_operand_ok; [done|done|exists inp0; by eexists|].
  intros e1 d1 s1 Hs1 He1 Hd1. rewrite (proj2 (Z.ltb_ge _ _)) by done.
  apply wp_bind, wp_rec; [done|done|exists inp0; by eexists|].
  intros e2 d2 s2 Hs2 He2%means_operand Hd2.
  apply wp_bind, wp_set_tree; [done|done|]. intros s3 Hs3.
  pose proof (operand_sort _ _ _ _ He1 Hv) as Hsv.
  pose proof (operand_sort _ _ _ _ He2 Hv') as Hsv'.
  destruct (decide _) as [Hsrt|]; [|done].
  apply wp_bind. eapply wp_zmk; [simpl; rewrite decide_True by congruence; done|]. intros eq Hse Heq.
  apply wp_bind. eapply wp_zmk; [done|]. intros zero Hsz Hzero.
  apply wp_bind. eapply wp_zmk; [done|]. intros one Hso Hone.
  apply wp_bind. eapply wp_zmk; [simpl; rewrite Hse, Hsz, Hso, decide_True by done; done|].
  intros e Hs' He. apply wp_ret. split; [done|]. split.
  - intros inp. simpl. rewrite He. simpl map. rewrite Heq, Hzero, Hone, Hs'. simpl.
    destruct (He1 inp) as (Hd1' & Hs1' & _), (He2 inp) as (Hd2' & Hs2' & _).
    rewrite Hden. unfold V. rewrite Hd1'. cbn [mbind option_bind].
    rewrite ?(proj2 (Z.ltb_ge _ _)) by done. rewrite Hd2'. cbn [mbind option_bind].
    rewrite (decide_True (P := value_sort _ = value_sort _)) by congruence.
    destruct (decide (z3_eval (env_of inp) e1 = z3_eval (env_of inp) e2)) as [Hd|Hd].
    + by rewrite bool_decide_true.
    + by rewrite bool_decide_false.
  - rewrite Hdeps. unfold operand_deps at 2. rewrite (proj2 (Z.leb_le _ _)) by lia.
    simpl. set_solver.
Qed.

(** The operands of the common operators. *)
Definition operand_value (l n w : Z) (inp : input) : option value :=
  if 1 <=? l then den inp l else Some (concrete (li_size info) w n).

Lemma ser_operand_ok l n w deps s (Q : expr * gset Z → rt → Prop) :
  during s → (1 ≤ l → rec_ok rec l) → 0 < w →
  (∃ inp, is_Some (operand_value l n w inp)) →
  (∀ e d s', during s' → operand_ok (operand_value l n w) e →
     deps ∪ operand_deps l ⊆ d → Q (e, d) s') →
  wp (ser_operand rec info l n w deps) Q no_throw s.
Proof.
  intros Hs Hrec Hw Hdef HQ. unfold ser_operand, CONST_OFFSET.
  apply wp_bind. eapply wp_zmk; [simpl; by rewrite (proj2 (Z.ltb_lt _ _) Hw)|].
  intros op Hso Hop. unfold operand_value, operand_deps in *.
  destruct (1 <=? l) eqn:Hl.
  - apply wp_bind, wp_rec; [apply Hrec; lia|done|done|].
    intros e d s' Hs' He%means_operand Hd. apply wp_ret, HQ; [done| |done].
    intros inp. rewrite simplify_eval, simplify_sort. apply He.
  - destruct (li_size info =? 1) eqn:H1.
    + apply wp_bind. eapply wp_zmk; [done|]. intros e Hse He.
      apply wp_ret, HQ; [done| |set_solver]. intros inp. unfold concrete.
      rewrite He, Hse, H1. by split_and!.
    + apply wp_ret, HQ; [done| |set_solver]. intros inp. unfold concrete. rewrite Hop, Hso, H1.
      split_and!; [done|done|]. split; [done|]. apply wrap_range. lia.
Qed.

Lemma concat_size_ok this other size s (Q : Z → rt → Prop) :
  during s → other ≤ last_label (rt_labels s0) →
  (li_op info = op_Concat → this = 0 → 1 ≤ other) →
  Q (if (li_op info =? op_Concat) && (this =? 0)
     then u8 (li_size info - li_size (info_at (rt_labels s0) other)) else size) s →
  wp (concat_size info this other size) Q no_throw s.
Proof.
  intros Hs Ho H1 HQ. unfold concat_size, CONST_OFFSET.
  destruct ((_ =? _) && (_ =? 0)) eqn:Hc; [|done].
  assert (1 ≤ other) by (apply H1; lia).
  apply wp_bind, wp_assert; [lia|]. apply wp_bind, wp_r_info; [done|done|].
  apply wp_ret. pose proof (during_keys _ Hs other) as Hk. by injection Hk as _ _ _ -> _ _.
Qed.

Lemma ser_common_ok deps s :
  let a := size_a (rt_labels s0) info in
  let b := size_b (rt_labels s0) info in
  during s → 0 ≤ li_l1 info ≤ last_label (rt_labels s0) →
  0 ≤ li_l2 info ≤ last_label (rt_labels s0) →
  (1 ≤ li_l1 info → rec_ok rec (li_l1 info)) → (1 ≤ li_l2 info → rec_ok rec (li_l2 info)) →
  (∀ inp, den inp label =
     if (0 <? a) && (0 <? b) && ((1 <=? li_l1 info) || (1 <=? li_l2 info)) then
       v ← operand_value (li_l1 info) (li_op1 info) a inp;
       v' ← operand_value (li_l2 info) (li_op2 info) b inp;
       bin_sem (li_op info) (li_size info) v v'
     else None) →
  (∃ inp, is_Some (den inp label)) →
  label_deps (rt_labels s0) label = operand_deps (li_l1 info) ∪ operand_deps (li_l2 info) →
  wp (ser_common rec label info deps) (ser_post label deps) no_throw s.
Proof.
  intros a b Hs Hl1 Hl2 Hrec1 Hrec2 Hden (inp0 & r & Hr) Hdeps. rewrite Hden in Hr.
  destruct (_ && _) eqn:Hab; [|done].
  apply andb_true_iff in Hab as [[Ha%Z.ltb_lt Hb%Z.ltb_lt]%andb_true_iff Hcat].
  apply bind_Some in Hr as (v & Hv & Hr). apply bind_Some in Hr as (v' & Hv' & Hr).
  apply wp_bind, concat_size_ok; [done|lia|lia|]. fold (size_a (rt_labels s0) info). fold a.
  apply wp_bind, ser_operand_ok; [done|done|done|exists inp0; by eexists|].
  intros e1 d1 s1 Hs1 He1 Hd1. apply wp_bind, concat_size_ok; [done|lia|lia|].
  match goal with |- context [if ?c then ?x else a] => change (if c then x else a) with b end.
  apply wp_bind, ser_operand_ok; [done|done|done|exists inp0; by eexists|].
  intros e2 d2 s2 Hs2 He2 Hd2. cbv zeta.
  apply wp_bind, wp_r_info; [done|lia|]. apply wp_bind, wp_r_info; [done|lia|].
  apply wp_bind, wp_set_tree; [done|done|]. intros s3 Hs3.
  apply wp_bind. eapply wp_mono; [apply bin_expr_ok|..|done].
  - apply He1.
  - apply He2.
  - apply He1.
  - exists v, v'. split; [by eapply operand_sort|]. split; [by eapply operand_sort|by eexists].
  - intros e s4 [-> He]. apply wp_cache_post; [done|done| |rewrite Hdeps; set_solver].
    intros inp. destruct (He inp) as [Hev Hse]. split; [|done].
    destruct (He1 inp) as (Hv1 & _), (He2 inp) as (Hv2 & _). by rewrite Hden, Hv1, Hv2.
Qed.
End cases.

(** ** The dispatch and the recursion *)
Lemma rec_ok_const rec l : l < 1 → rec_ok rec l.
Proof.
  intros Hl deps s Hs (inp & v & Hv). exfalso. revert Hv. unfold den, denote.
  cbn [denote_fuel]. unfold denote_step. by rewrite (proj2 (Z.ltb_lt _ _) Hl).
Qed.

Lemma ser_case_ok rec label info deps s :
  during s → 1 ≤ label ≤ last_label (rt_labels s0) →
  key_of info = key_of (info_at (rt_labels s0) label) →
  (∀ l, l < label → rec_ok rec l) → (∃ inp, is_Some (den inp label)) →
  wp (ser_case rec label info deps) (ser_post label deps) no_throw s.
Proof.
  intros Hs Hl Hk Hrec Hdef. pose proof (last_bound _ _ Hwf0) as Hlast.
  pose proof (operand_bounds _ _ label Hwf0 ltac:(lia)) as [Hb1 Hb2].
  pose proof (wf_range _ _ Hwf0 label) as (_ & _ & Hop & [_ Hsz] & _ & [Hop2 _]).
  assert ((label <? 1) || (label =? kInitializingLabel) = false) as Hnc.
  { change kInitializingLabel with (2 ^ 32 - 1). lia. }
  assert (∀ inp, den inp label =
    denote_info (rt_labels s0) (rt_mem s0) inp (den inp) info) as Hden.
  { intros inp. unfold den at 1. rewrite (denote_unfold _ m) by (done || lia).
    unfold denote_step. rewrite Hnc. symmetry. by apply denote_info_key. }
  assert (label_deps (rt_labels s0) label =
    deps_info (rt_labels s0) (label_deps (rt_labels s0)) info) as Hdeps.
  { rewrite (label_deps_unfold _ m) by (done || lia).
    unfold deps_step. rewrite Hnc. symmetry. by apply deps_info_key. }
  injection Hk as E1 E2 E3 E4 E5 E6. rewrite <-E1, <-E2, <-E3, <-E4, <-E6 in *.
  unfold ser_case. unfold denote_info in Hden. unfold deps_info in Hdeps. cbv zeta in *.
  assert (0 ≤ label ≤ last_label (rt_labels s0)) as Hl0 by lia.
  destruct (li_op info =? 0); [by apply ser_input_ok|].
  destruct (li_op info =? op_Load); [apply ser_load_ok; (done || lia)|].
  assert (li_l1 info ≤ last_label (rt_labels s0)) as Hle1 by lia.
  assert (li_l2 info ≤ last_label (rt_labels s0)) as Hle2 by lia.
  assert (rec_ok rec (li_l1 info)) as Hr1 by (apply Hrec; lia).
  assert (rec_ok rec (li_l2 info)) as Hr2 by (apply Hrec; lia).
  destruct (li_op info =? op_ZExt) eqn:O3; simpl in Hdeps.
  { exact (ser_zext_ok rec _ Hl0 info _ _ Hle1 Hr1 Hden Hdeps Hdef _ _ Hs eq_refl Hsz eq_refl). }
  destruct (li_op info =? op_SExt) eqn:O4; simpl in Hdeps.
  { exact (ser_sext_ok rec _ Hl0 info _ _ Hle1 Hr1 Hden Hdeps Hdef _ _ Hs eq_refl Hsz eq_refl). }
  destruct (li_op info =? op_Trunc) eqn:O5; simpl in Hdeps.
  { exact (ser_extract_ok rec _ Hl0 info _ _ Hle1 Hr1 Hden Hdeps Hdef 0 _ _ Hs eq_refl
      (Z.le_refl 0) eq_refl). }
  destruct (li_op info =? op_Extract) eqn:O6; simpl in Hdeps.
  { exact (ser_extract_ok rec _ Hl0 info _ _ Hle1 Hr1 Hden Hdeps Hdef _ _ _ Hs eq_refl
      Hop2 eq_refl). }
  destruct (li_op info =? op_Not) eqn:O7; simpl in Hdeps.
  { destruct ((li_l2 info =? 0) || negb (li_size info =? 1)) eqn:Hc.
    { destruct Hdef as (inp & v & Hv). by rewrite Hden in Hv. }
    eapply (ser_not_ok rec _ Hl0 info _ _ Hle2 Hr2 Hden Hdeps Hdef); [done|done|lia|lia|done]. }
  destruct (li_op info =? op_Neg) eqn:O8; simpl in Hdeps.
  { destruct (li_l2 info =? 0) eqn:Hc.
    { destruct Hdef as (inp & v & Hv). by rewrite Hden in Hv. }
    eapply (ser_neg_ok rec _ Hl0 info _ _ Hle2 Hr2 Hden Hdeps Hdef); [done|done|lia|done]. }
  destruct (li_op info =? op_fmemcmp) eqn:O9.
  { assert ((li_op info =? op_fsize) = false) as Hfs by op_lia. rewrite Hfs in Hdeps.
    exact (ser_memcmp_ok rec _ Hl0 info _ _ Hs (λ _, Hr1) Hr2 Hden Hdef Hdeps). }
  destruct (li_op info =? op_fsize) eqn:O10.
  { destruct (Z.ltb_spec 0 (li_size info)).
    - by apply ser_fsize_ok.
    - destruct Hdef as (inp & v & Hv). by rewrite Hden in Hv. }
  exact (ser_common_ok rec _ Hl0 info _ _ Hs (conj (proj1 Hb1) Hle1) (conj (proj1 Hb2) Hle2)
    (λ _, Hr1) (λ _, Hr2) Hden Hdef Hdeps).
Qed.

Lemma serialize_fuel_ok fuel label :
  label ≤ last_label (rt_labels s0) → (Z.to_nat label < fuel)%nat →
  rec_ok (serialize_fuel fuel) label.
Proof.
  revert label. induction fuel as [|fuel IH]; intros label Hl Hf; [lia|].
  destruct (decide (label < 1)) as [Hc|Hc]; [by apply rec_ok_const|].
  intros deps s Hs Hdef. cbn [serialize_fuel]. pose proof (last_bound _ _ Hwf0) as Hlast.
  assert ((label <? CONST_OFFSET) || (label =? kInitializingLabel) = false) as ->.
  { change kInitializingLabel with (2 ^ 32 - 1). unfold CONST_OFFSET. lia. }
  apply wp_bind, wp_r_info; [done|done|].
  destruct (li_expr (info_at (rt_labels s) label)) as [e|] eqn:He.
  - destruct (during_cache _ Hs _ _ He) as (d & -> & Hm & Hd). apply wp_ret.
    split; [done|]. split; [done|]. simpl. set_solver.
  - apply ser_case_ok; [done|lia|apply (during_keys _ Hs)| |done].
    intros l Hlt. destruct (decide (l < 1)); [by apply rec_ok_const|]. apply IH; lia.
Qed.
End sound.

(** ** The contract of [serialize] *)
Section contract.
Context {Zi : Z3} {Laws : Z3Laws Zi} {Ops : LlvmOps}.

(** Every cached expression means its label and is cached with a set that
    covers the label's offsets. *)
Definition caches_sound (s : rt) : Prop := cached_ok s (rt_labels s).

(** [s'] differs from [s] in caches and tree sizes only. *)
Definition only_caches (s s' : rt) : Prop :=
  s' = set_labels (rt_labels s') s ∧
  last_label (rt_labels s') = last_label (rt_labels s) ∧
  ∀ l, key_of (info_at (rt_labels s') l) = key_of (info_at (rt_labels s) l) ∧
       li_flags (info_at (rt_labels s') l) = li_flags (info_at (rt_labels s) l).

#[export] Instance only_caches_preorder : PreOrder only_caches.
Proof.
  split.
  - intros s. split; [by destruct s|done].
  - intros a b c (Hb & Hl & Hk) (Hc & Hl' & Hk'). split; [|split].
    + rewrite Hc, Hb. done.
    + congruence.
    + intros l. destruct (Hk l), (Hk' l). split; congruence.
Qed.

Lemma only_caches_kept s s' : only_caches s s' → rt_kept s s'.
Proof. intros (_ & Hl & Hk). split; [lia|]. intros l _. apply Hk. Qed.

Lemma only_caches_denote s m s' inp l :
  wf (rt_labels s) m → only_caches s s' → l ≤ last_label (rt_labels s) →
  denote (rt_labels s') (rt_mem s') inp l = denote (rt_labels s) (rt_mem s) inp l.
Proof.
  intros Hwf Ho Hl. assert (rt_mem s' = rt_mem s) as -> by (by rewrite (proj1 Ho)).
  by apply (denote_kept _ m); [done|apply only_caches_kept|].
Qed.
Lemma only_caches_deps s m s' l :
  wf (rt_labels s) m → only_caches s s' → l ≤ last_label (rt_labels s) →
  label_deps (rt_labels s') l = label_deps (rt_labels s) l.
Proof. intros Hwf Ho Hl. by apply (label_deps_kept _ m); [done|apply only_caches_kept|]. Qed.

Lemma during_caches s m s' :
  wf (rt_labels s) m → during s m s' →
  only_caches s s' ∧ wf (rt_labels s') m ∧ caches_sound s'.
Proof.
  intros Hwf H. assert (only_caches s s') as Ho.
  { split; [apply H|]. split; [apply H|]. intros l. split; [apply (during_keys _ _ _ H)|apply (during_flags _ _ _ H)]. }
  split; [done|]. split; [apply H|]. intros l e He.
  assert (l ≤ last_label (rt_labels s)) as Hl.
  { unfold info_at in He. destruct (infos (rt_labels s') !! l) eqn:Hi; [|done].
    assert (is_Some (infos (rt_labels s') !! l)) as Hs by eauto.
    apply (wf_dom _ _ (during_wf _ _ _ H)) in Hs. rewrite (during_last _ _ _ H) in Hs. lia. }
  destruct (during_cache _ _ _ H l e He) as (d & ? & Hm & ?). exists d. split; [done|]. split.
  - intros inp. unfold den. rewrite (only_caches_denote s m) by done. apply Hm.
  - by rewrite (only_caches_deps s m).
Qed.

(** On every path, errors included, [serialize] of an existing label changes
    caches only. *)
Section frame.
Context (s0 : rt) (m : gmap (Z * Z * Z * Z * Z * Z) Z) (Hwf0 : wf (rt_labels s0) m).
Definition caches_from (s : rt) : Prop := wf (rt_labels s) m ∧ only_caches s0 s.

Lemma update_info_pres l f :
  0 ≤ l ≤ last_label (rt_labels s0) →
  (∀ i, key_of (f i) = key_of i ∧ li_flags (f i) = li_flags i) →
  pres caches_from (update_info l f).
Proof.
  intros Hl Hf s [Hwf Ho]. unfold update_info, on_labels, zoom, modify.
  assert (only_caches s (set_labels (set_info l (f (info_at (rt_labels s) l)) (rt_labels s)) s)).
  { split; [by destruct s|]. split; [done|]. intros l'. simpl. rewrite info_at_set.
    case_decide as Hd; [subst l'|done]. apply Hf. }
  split; [|by etrans]. simpl. apply wf_update; [done| |apply Hf].
  destruct Ho as (_ & -> & _). done.
Qed.
Lemma set_tree_pres l n :
  0 ≤ l ≤ last_label (rt_labels s0) → pres caches_from (set_tree l n).
Proof. intros. by apply update_info_pres. Qed.
Lemma r_info_pres (I : rt → Prop) l : pres I (r_info l).
Proof.
  intros s Hs. unfold r_info, on_labels, zoom, get_label_info, mbind, M_bind, get.
  by destruct (_ <=? _), s.
Qed.
Lemma zmk_pres (I : rt → Prop) o es : pres I (zmk o es).
Proof. unfold zmk. pres_auto. Qed.
Lemma cache_expr_pres l e d :
  0 ≤ l ≤ last_label (rt_labels s0) → pres caches_from (cache_expr l e d).
Proof. intros. apply pres_bind; [by apply update_info_pres|auto with rt]. Qed.
Lemma read_loop_pres (I : rt → Prop) a idx e : pres I (read_loop a idx e).
Proof.
  revert e. induction idx as [|i idx IH]; intros e; simpl; [auto with rt|].
  repeat (apply pres_bind; [auto using zmk_pres with rt|intros ?]). apply IH.
Qed.
Lemma load_loop_pres (I : rt → Prop) a idx e d : pres I (load_loop a idx e d).
Proof.
  revert e d. induction idx as [|i idx IH]; intros e d; simpl; [auto with rt|].
  repeat (apply pres_bind; [apply zmk_pres|intros ?]). apply IH.
Qed.
Hint Resolve set_tree_pres r_info_pres zmk_pres cache_expr_pres read_loop_pres
  load_loop_pres : rt.

Lemma ser_case_frame rec label info deps :
  0 ≤ label ≤ last_label (rt_labels s0) →
  (∀ d, pres caches_from (rec (li_l1 info) d)) →
  (∀ d, pres caches_from (rec (li_l2 info) d)) →
  pres caches_from (ser_case rec label info deps).
Proof.
  intros Hl H1 H2. unfold ser_case, ser_input, ser_load, ser_zext, ser_sext, ser_extract,
    ser_not, ser_neg, ser_memcmp, ser_fsize, ser_common, ser_operand, concat_size, bin_expr,
    get_cmd, read_concrete, bool_to_bv, bv_size, copy_tree, input_const. cbv zeta. pres_auto.
Qed.

Lemma serialize_frame fuel label deps :
  label ≤ last_label (rt_labels s0) → pres caches_from (serialize_fuel fuel label deps).
Proof.
  revert label deps. induction fuel as [|fuel IH]; intros label deps Hl; cbn [serialize_fuel];
    [pres_auto|].
  destruct (label <? CONST_OFFSET) eqn:Hc; [by intros s Hs|]. simpl. case_match; [by intros s Hs|].
  assert (0 ≤ label ≤ last_label (rt_labels s0)) as Hlab by (unfold CONST_OFFSET in Hc; lia).
  intros s [Hwf Ho]. assert (r_info label s = Ret (info_at (rt_labels s) label) s) as Hr.
  { unfold r_info, on_labels, zoom. destruct Ho as (_ & Hlast & _).
    rewrite (get_label_info_wf _ m) by (done || lia). by destruct s. }
  rewrite (bind_run _ _ _ _ _ Hr). set (i := info_at (rt_labels s) label).
  assert (li_l1 i ≤ last_label (rt_labels s0) ∧ li_l2 i ≤ last_label (rt_labels s0)) as [H1 H2].
  { destruct Ho as (_ & Hlast & _).
    destruct (operand_bounds _ _ label Hwf ltac:(lia)) as [? ?]. unfold i. lia. }
  assert (pres caches_from match li_expr i with
    | Some e => match li_deps i with Some d => mret (e, deps ∪ d) | None => segv end
    | None => ser_case (serialize_fuel fuel) label i deps end) as Hp; [|by apply Hp].
  pres_auto. apply ser_case_frame; auto.
Qed.
End frame.

(** What a call to [serialize] guarantees. *)
Lemma serialize_run s m label deps inp0 :
  wf (rt_labels s) m → caches_sound s → label ≤ last_label (rt_labels s) →
  is_Some (denote (rt_labels s) (rt_mem s) inp0 label) →
  ∃ e d s', serialize label deps s = Ret (e, d) s' ∧
    (∀ inp, denote (rt_labels s) (rt_mem s) inp label = Some (z3_eval (env_of inp) e) ∧
       value_sort (z3_eval (env_of inp) e) = z3_sort e) ∧
    deps ∪ label_deps (rt_labels s) label ⊆ d ∧
    only_caches s s' ∧ wf (rt_labels s') m ∧ caches_sound s'.
Proof.
  intros Hwf Hc Hl Hdef.
  assert (during s m s) as Hd by (split; (done || (by destruct s))).
  pose proof (serialize_fuel_ok s m Hwf (S (Z.to_nat label)) label Hl ltac:(lia) deps s Hd
    (ex_intro _ inp0 Hdef)) as H.
  unfold wp in H. unfold serialize. destruct (serialize_fuel _ _ _ s) as [[e d] s'| |]; [|done..].
  destruct H as (Hs' & Hm & Hde). apply during_caches in Hs' as (? & ? & ?); [|done].
  eexists e, d, s'. split_and!; done.
Qed.

(** C10: [serialize] is correct: in a well-formed state whose caches are sound,
    for a label whose expression is well-sorted, the call returns (it neither
    throws nor ends the process); on every input the returned expression
    evaluates to the value the label denotes; the returned set contains the
    given one and every offset the label reads; and the state changes only in
    caches, which stay sound. *)
Theorem serialize_sound s label deps inp0 :
  rt_wf s → caches_sound s → label ≤ last_label (rt_labels s) →
  is_Some (denote (rt_labels s) (rt_mem s) inp0 label) →
  ∃ e d s', serialize label deps s = Ret (e, d) s' ∧
    (∀ inp, denote (rt_labels s) (rt_mem s) inp label = Some (z3_eval (env_of inp) e)) ∧
    deps ∪ label_deps (rt_labels s) label ⊆ d ∧
    only_caches s s' ∧ rt_wf s' ∧ caches_sound s'.
Proof.
  intros [m Hwf] Hc Hl Hdef.
  destruct (serialize_run s m label deps inp0) as (e & d & s' & ? & He & ? & ? & ? & ?); [done..|].
  exists e, d, s'. split_and!; [done|apply He|done|done|by exists m|done].
Qed.
End contract.

(** ** Witness: [x + y] for two input bytes *)
Definition sum_rt : @rt Ref.z3 :=
  at_state (r_union 1 2 op_Add 8 0 0 (bytes_with ∅ ∅)).
Lemma sum_rt_wf : rt_wf sum_rt.
Proof.
  pose proof (taint_union_cases _ ∅ 1 2 op_Add 8 0 0 (bytes_with_wf ∅ ∅)) as H.
  assert (taint_union 1 2 op_Add 8 0 0 (rt_labels (bytes_with ∅ ∅)) = Ret 3 (rt_labels sum_rt)) as Hr
    by by vm_compute.
  rewrite Hr in H. exact (proj1 H).
Qed.
Lemma no_caches_sound (s : @rt Ref.z3) : no_caches (rt_labels s) = true → caches_sound s.
Proof. intros H l e He. by rewrite no_caches_spec in He. Qed.

Lemma serialize_sound_witness :
  ∃ e d s', serialize 3 ∅ sum_rt = Ret (e, d) s' ∧
    (∀ inp, denote (rt_labels sum_rt) (rt_mem sum_rt) inp 3 = Some (z3_eval (env_of inp) e)) ∧
    ∅ ∪ label_deps (rt_labels sum_rt) 3 ⊆ d ∧
    only_caches sum_rt s' ∧ rt_wf s' ∧ caches_sound s'.
Proof.
  apply (serialize_sound sum_rt 3 ∅ (Input (λ _, 7) 2)).
  - exact sum_rt_wf.
  - apply no_caches_sound. by vm_compute.
  - by vm_compute.
  - eexists. vm_compute. reflexivity.
Defined.
