(* ===== verification/Solver.v ===== *)
(** * Solving branches ([dfsan.cc]: branch dependencies, [generate_input],
    [__solve_cond], [add_constraints] and the [__taint_trace_*] callbacks)

    At a branch on a tainted condition the runtime asks Z3 for an input that
    takes the other side: it collects the offsets the condition depends on,
    directly or through earlier branches, asserts the negated condition, then
    the constraints of earlier branches on those offsets, writes a model as a
    new input file and remembers the taken side as a constraint. *)
From stdpp Require Import pretty.
From S2P Require Import Prelude Labels UnionTable Union Z3 State Files Denote Shadow ShadowSpec Serialize.

Section solver.
Context {Zi : Z3} {Ops : LlvmOps}.

Definition on_os {A} (m : M os A) : M rt A := zoom rt_os set_os m.

(** ** Branch dependencies *)

(** [if (tainted.is_stdin && n >= __branch_deps->size()) resize(n + 1)] *)
Definition resize_deps (n : Z) : M rt () :=
  modify (λ s,
    if negb (tf_is_stdin (rt_tainted s) =? 0)
       && (Z.of_nat (length (rt_branch_deps s)) <=? n)
    then set_branch_deps
           (rt_branch_deps s ++ replicate (Z.to_nat n + 1 - length (rt_branch_deps s)) None) s
    else s).
(** [std::vector::at] throws [std::out_of_range]; only [z3::exception] is
    handled. *)
Definition get_branch_dep (n : Z) : M rt (option branch_dep_t) :=
  resize_deps n ;;
  v ← gets rt_branch_deps;
  match v !! Z.to_nat n with
  | Some d => mret d
  | None => terminate "std::out_of_range"
  end.
Definition set_branch_dep (n : Z) (dep : option branch_dep_t) : M rt () :=
  resize_deps n ;;
  v ← gets rt_branch_deps;
  match v !! Z.to_nat n with
  | Some _ => modify (set_branch_deps (<[Z.to_nat n := dep]> v))
  | None => terminate "std::out_of_range"
  end.

(** [expr_set_t::insert]: expressions are compared by id. *)
Definition expr_mem (e : expr) (l : list expr) : bool := existsb (z3_same e) l.
Definition expr_insert (e : expr) (l : list expr) : list expr :=
  if expr_mem e l then l else l ++ [e].

(** One round of the loops that record a constraint: a missing entry is
    allocated, the offsets are merged, then the constraint [mk] is built and
    inserted. *)
Definition record_dep (inputs : gset Z) (mk : M rt expr) (off : Z) : M rt () :=
  c ← get_branch_dep off;
  c ← match c with
      | Some c => mret c
      | None => let c := BranchDep [] ∅ in set_branch_dep off (Some c) ;; mret c
      end;
  let c := BranchDep (expr_deps c) (input_deps c ∪ inputs) in
  set_branch_dep off (Some c) ;;
  e ← mk;
  set_branch_dep off (Some (BranchDep (expr_insert e (expr_deps c)) (input_deps c))).

(** [info->flags |= B_FLIPPED] and its test *)
Definition is_flipped (label : Z) : M rt bool :=
  info ← r_info label; mret (negb (Z.land (li_flags info) B_FLIPPED =? 0)).
Definition mark_flipped (label : Z) : M rt () :=
  info ← r_info label;
  update_info label (λ i, set_flags (Z.lor (li_flags i) B_FLIPPED) i).

Definition add_constraints (label : Z) : M rt () :=
  flipped ← is_flipped label;
  if (flipped : bool) then mret () else
  catch
    ('(cond, inputs) ← serialize label ∅;
     for_each (elements inputs) (record_dep inputs (mret cond)))
    (λ _, mret ()) ;;
  mark_flipped label.

(** The worklist: every offset reached through the recorded dependencies. The
    vector is used as a stack, its back is the head of the list. *)
Fixpoint closure_loop (fuel : nat) (worklist : list Z) (inputs : gset Z) : M rt (gset Z) :=
  match worklist with
  | [] => mret inputs
  | off :: worklist =>
      match fuel with
      | O => out_of_fuel
      | S fuel =>
          deps ← get_branch_dep off;
          match deps with
          | None => closure_loop fuel worklist inputs
          | Some d =>
              closure_loop fuel (reverse (elements (input_deps d ∖ inputs)) ++ worklist)
                (inputs ∪ input_deps d)
          end
      end
  end.
(** Every offset is pushed at most once: the offsets known at the start bound
    the number of rounds. *)
Definition all_offsets (s : rt) (inputs : gset Z) : gset Z :=
  inputs ∪ ⋃ (input_deps <$> omap id (rt_branch_deps s)).
Definition input_closure (inputs : gset Z) : M rt (gset Z) :=
  s ← get;
  closure_loop (size (all_offsets s inputs)) (reverse (elements inputs)) inputs.

(** ** The solver object *)
Definition on_solver {A} (m : M solver A) : M rt A := zoom rt_solver set_solver_st m.
Definition solver_reset : M solver () :=
  modify (λ v, Solver [[]] (sv_checks v) (sv_timeout v)).
Definition solver_add (e : expr) : M solver () :=
  modify (λ v, match sv_frames v with
               | f :: fs => Solver ((f ++ [e]) :: fs) (sv_checks v) (sv_timeout v)
               | [] => Solver [[e]] (sv_checks v) (sv_timeout v)
               end).
Definition solver_push : M solver () :=
  modify (λ v, Solver ([] :: sv_frames v) (sv_checks v) (sv_timeout v)).
Definition assertions (v : solver) : list expr := concat (reverse (sv_frames v)).
Definition solver_check : M solver check_result :=
  v ← get;
  put (Solver (sv_frames v) (sv_checks v + 1) (sv_timeout v)) ;;
  mret (z3_check (sv_checks v) (assertions v)).

(** ** Writing a model as a new input *)
Definition input_path (o : output) (index : Z) : string :=
  String.substring 0 (Z.to_nat (PATH_MAX - 1))
    (output_dir o +:+ "/id-" +:+ pretty (s32 (instance_id o)) +:+ "-"
       +:+ pretty (s32 (session_id o)) +:+ "-" +:+ pretty (s32 index)).

(** [__current_index++] *)
Definition next_index : M rt Z :=
  o ← gets rt_output;
  let i := current_index o in
  modify (set_output (Output (output_dir o) (instance_id o) (session_id o) (u32 (i + 1)))) ;;
  mret i.

(** The round of the loop of [generate_input] for one constant of the model. *)
Definition write_const (fd : Z) (c : symbol * Z) : M rt () :=
  match c with
  | (SInt offset, n) =>
      if (n <? - 2 ^ 31) || (2 ^ 31 <=? n) then throw "numeral does not fit in machine int" else
      on_os (lseek_set fd offset) ;;
      ok ← on_os (WriteToFile fd (Some [u8 n]));
      mret ()
  | (SStr name, n) =>
      if decide (name = "fsize"%string) then
        if (n <? - 2 ^ 63) || (2 ^ 63 <=? n) then throw "numeral does not fit in machine int" else
        tf ← gets rt_tainted;
        (if tf_size tf <? n then
           on_os (lseek_set fd n) ;;
           ok ← on_os (WriteToFile fd (Some [0])); mret ()
         else on_os (internal_ftruncate fd n)) ;;
        throw "skip fsize constraints"
      else mret ()
  end.

Definition generate_input (m : list (symbol * Z)) : M rt () :=
  index ← next_index;
  o ← gets rt_output;
  fd ← on_os (OpenFile_wr (input_path o index));
  if fd =? kInvalidFd then throw "failed to open new input file for write" else
  tf ← gets rt_tainted;
  (if tf_is_stdin tf =? 0 then
     ok ← on_os (WriteToFile fd (take (Z.to_nat (tf_size tf)) <$> tf_buf tf));
     if (ok : bool) then mret () else throw "failed to copy original input"
   else throw "original input is stdin") ;;
  for_each m (write_const fd) ;;
  on_os (CloseFile fd).

(** ** Solving a condition *)

(** The nested constraints of the offsets, each expression asserted once. *)
Fixpoint assert_exprs (es added : list expr) : M rt (list expr) :=
  match es with
  | [] => mret added
  | e :: es =>
      if expr_mem e added then assert_exprs es added
      else on_solver (solver_add e) ;; assert_exprs es (expr_insert e added)
  end.
Fixpoint assert_deps (offs : list Z) (added : list expr) : M rt (list expr) :=
  match offs with
  | [] => mret added
  | off :: offs =>
      deps ← get_branch_dep off;
      added ← match deps with
              | None => mret added
              | Some d => assert_exprs (expr_deps d) added
              end;
      assert_deps offs added
  end.

(** The two checks: the negated condition alone, then with the nested
    constraints; the model of the first one is the fallback. *)
Definition solve (cond result : expr) (inputs : gset Z) : M rt () :=
  on_solver solver_reset ;;
  ne ← zmk ZNe [cond; result];
  on_solver (solver_add ne) ;;
  res ← on_solver solver_check;
  match res with
  | Sat m_opt =>
      on_solver solver_push ;;
      added ← assert_deps (elements inputs) [];
      res ← on_solver solver_check;
      match res with
      | Sat m => generate_input m
      | _ => generate_input m_opt
      end
  | _ => mret ()
  end.

(** [__solve_cond] *)
Definition solve_cond (label : Z) (result : expr) (add_nested : bool) : M rt () :=
  flipped ← is_flipped label;
  if (flipped : bool) then mret () else
  catch
    ('(cond, inputs) ← serialize label ∅;
     inputs ← input_closure inputs;
     solve cond result inputs ;;
     (if add_nested then
        for_each (elements inputs) (record_dep inputs (zmk ZEq [cond; result]))
      else mret ()) ;;
     mark_flipped label)
    (λ _, mret ()).

(** ** The callbacks of the instrumented program *)
Definition MAX_BRANCH_COUNT : Z := 16.
(** Whether the branch at [addr] is still to be solved in this context. *)
Definition count_branch (addr : Z) : M rt bool :=
  ctx ← gets rt_callstack;
  b ← gets rt_branches;
  match b !! (ctx, addr) with
  | None => modify (set_branches (<[(ctx, addr) := 1]> b)) ;; mret true
  | Some n =>
      if n <? MAX_BRANCH_COUNT
      then modify (set_branches (<[(ctx, addr) := u16 (n + 1)]> b)) ;; mret true
      else mret false
  end.

Definition taint_trace_cmp (op1 op2 size predicate c1 c2 addr : Z) : M rt () :=
  if (op1 =? 0) && (op2 =? 0) then mret () else
  go ← count_branch addr;
  if negb go then mret () else
  temp ← r_dfsan_union op1 op2 (Z.lor (u32 (Z.shiftl predicate 8)) op_ICmp) size c1 c2;
  bv_c1 ← zmk (ZBvVal c1 size) [];
  bv_c2 ← zmk (ZBvVal c2 size) [];
  r ← get_cmd bv_c1 bv_c2 predicate;
  solve_cond temp (z3_simplify r) (c1 =? c2).

Definition taint_trace_cond (label r addr : Z) : M rt () :=
  if label =? 0 then mret () else
  go ← count_branch addr;
  if negb go then mret () else
  result ← zmk (ZBoolVal (negb (r =? 0))) [];
  solve_cond label result true.

Definition taint_trace_indcall (label : Z) : M rt () := mret ().

(** [__taint_trace_gep] returns before its solving part. *)
Definition taint_trace_gep (label r : Z) : M rt () :=
  if label =? 0 then mret () else
  flipped ← is_flipped label; mret ().

Definition taint_debug (op1 op2 predicate size target : Z) : M rt () := mret ().
End solver.

(** ** Lemmas on branch dependencies *)
Section deps.
Context {Zi : Z3} {Ops : LlvmOps}.

(** The entry of an offset; absent entries are null. *)
Definition dep_at (s : rt) (n : Z) : option branch_dep_t := mjoin (rt_branch_deps s !! Z.to_nat n).
(** The offset has an entry, or gets one by resizing. *)
Definition deps_room (s : rt) (n : Z) : Prop :=
  0 ≤ n ∧ (n < Z.of_nat (length (rt_branch_deps s)) ∨ tf_is_stdin (rt_tainted s) ≠ 0).

(** [s'] is [s] with null entries appended. *)
Definition padded (s s' : rt) : Prop :=
  ∃ k, s' = set_branch_deps (rt_branch_deps s ++ replicate k None) s.
#[export] Instance padded_preorder : PreOrder padded.
Proof.
  split.
  - intros s. exists 0%nat. rewrite app_nil_r. by destruct s.
  - intros a b c [k ->] [j ->]. exists (k + j)%nat. simpl.
    by rewrite <-app_assoc, replicate_add.
Qed.
Lemma padded_dep s s' n : padded s s' → dep_at s' n = dep_at s n.
Proof.
  intros [k ->]. unfold dep_at. simpl. destruct (decide (Z.to_nat n < length (rt_branch_deps s))%nat).
  - by rewrite lookup_app_l.
  - rewrite lookup_app_r by lia. rewrite (lookup_ge_None_2 (rt_branch_deps s)) by lia.
    destruct (replicate _ _ !! _) eqn:He; [|done]. by apply lookup_replicate in He as [-> _].
Qed.
Lemma padded_room s s' n : padded s s' → deps_room s n → deps_room s' n.
Proof. intros [k ->] [? ?]. split; [done|]. simpl. rewrite length_app. destruct_or!; auto with lia. Qed.
Lemma padded_rest s s' : padded s s' → s' = set_branch_deps (rt_branch_deps s') s.
Proof. by intros [k ->]. Qed.

Lemma wp_resize n (Q : () → rt → Prop) X s :
  deps_room s n →
  (∀ s', padded s s' → (Z.to_nat n < length (rt_branch_deps s'))%nat → Q () s') →
  wp (resize_deps n) Q X s.
Proof.
  intros [Hn Hr] HQ. apply wp_modify. destruct (_ && _) eqn:Hc.
  - apply HQ; [by eexists|]. simpl. rewrite length_app, length_replicate. lia.
  - apply HQ; [done|]. destruct Hr; [lia|].
    rewrite (proj2 (Z.eqb_neq _ _)) in Hc by done. simpl in Hc. lia.
Qed.
Lemma wp_get_dep n (Q : option branch_dep_t → rt → Prop) X s :
  deps_room s n → (∀ s', padded s s' → Q (dep_at s n) s') → wp (get_branch_dep n) Q X s.
Proof.
  intros Hr HQ. apply wp_bind, wp_resize; [done|]. intros s' Hp Hl.
  apply wp_bind, wp_gets. destruct (lookup_lt_is_Some_2 _ _ Hl) as [d Hd]. rewrite Hd.
  apply wp_ret. pose proof (HQ s' Hp) as HQ'. rewrite <-(padded_dep _ _ _ Hp) in HQ'.
  unfold dep_at in HQ'. by rewrite Hd in HQ'.
Qed.
(** Setting an entry: the others keep their values. *)
Lemma wp_set_dep n d (Q : () → rt → Prop) X s :
  deps_room s n →
  (∀ s', s' = set_branch_deps (rt_branch_deps s') s →
     (∀ k, 0 ≤ k → dep_at s' k = if decide (k = n) then d else dep_at s k) →
     (∀ k, deps_room s k → deps_room s' k) → Q () s') →
  wp (set_branch_dep n d) Q X s.
Proof.
  intros Hr HQ. apply wp_bind, wp_resize; [done|]. intros s' Hp Hl.
  apply wp_bind, wp_gets. destruct (lookup_lt_is_Some_2 _ _ Hl) as [d' Hd]. rewrite Hd.
  apply wp_modify, HQ.
  - simpl. by rewrite (padded_rest _ _ Hp).
  - intros k Hk. rewrite <-(padded_dep _ _ k Hp). unfold dep_at. simpl.
    destruct Hr as [Hn _]. case_decide as He.
    + subst k. by rewrite list_lookup_insert_eq.
    + by rewrite list_lookup_insert_ne by lia.
  - intros k Hk. apply (padded_room _ _ _ Hp) in Hk as [? Hk]. split; [done|]. simpl.
    by rewrite length_insert.
Qed.

(** ** The worklist computes the offsets reachable through earlier branches *)
Definition dep_edge (s : rt) (a b : Z) : Prop := ∃ d, dep_at s a = Some d ∧ b ∈ input_deps d.

Lemma elem_all_offsets s inputs n d x :
  dep_at s n = Some d → x ∈ input_deps d → x ∈ all_offsets s inputs.
Proof.
  intros Hd Hx. unfold all_offsets, dep_at in *.
  destruct (rt_branch_deps s !! Z.to_nat n) as [o|] eqn:Hl; [|done]. simpl in Hd. subst o.
  apply elem_of_union_r, elem_of_union_list. exists (input_deps d). split; [|done].
  apply list_elem_of_fmap_2. apply list_elem_of_omap. exists (Some d). split; [|done].
  by apply list_elem_of_lookup_2 in Hl.
Qed.

Lemma closure_loop_ok s0 inputs0 fuel worklist inputs s :
  let U := all_offsets s0 inputs0 in
  (∀ x, x ∈ U → deps_room s0 x) → padded s0 s →
  inputs0 ⊆ inputs → inputs ⊆ U → (∀ x, x ∈ worklist → x ∈ inputs) →
  (∀ x d, x ∈ inputs → x ∉ worklist → dep_at s0 x = Some d → input_deps d ⊆ inputs) →
  (∀ x, x ∈ inputs → ∃ y, y ∈ inputs0 ∧ rtc (dep_edge s0) y x) →
  (length worklist + size (U ∖ inputs) ≤ fuel)%nat →
  wp (closure_loop fuel worklist inputs)
    (λ r s', padded s0 s' ∧ inputs0 ⊆ r ∧ r ⊆ U ∧
       (∀ x d, x ∈ r → dep_at s0 x = Some d → input_deps d ⊆ r) ∧
       (∀ x, x ∈ r → ∃ y, y ∈ inputs0 ∧ rtc (dep_edge s0) y x)) no_throw s.
Proof.
  intros U Hroom. revert worklist inputs s.
  induction fuel as [|fuel IH]; intros [|off wl] inputs s Hp Hin HU Hwl Hcl Hre Hf; cbn [closure_loop].
  - apply wp_ret. split_and!; [done..|set_solver|done].
  - simpl in Hf. lia.
  - apply wp_ret. split_and!; [done..|set_solver|done].
  - assert (off ∈ inputs) as Hoff by (apply Hwl; by left).
    apply wp_bind, wp_get_dep; [apply (padded_room _ _ _ Hp), Hroom; set_solver|].
    intros s' Hp'. rewrite (padded_dep _ _ _ Hp). simpl in Hf.
    destruct (dep_at s0 off) as [d|] eqn:Hd.
    + assert (input_deps d ⊆ U) as HdU by (intros x Hx; by eapply elem_all_offsets).
      apply IH; [by etrans|set_solver|set_solver|..].
      * intros x. rewrite elem_of_app, elem_of_reverse, elem_of_elements. set_solver.
      * intros x d' Hx Hn Hd'. rewrite elem_of_app, elem_of_reverse, elem_of_elements in Hn.
        destruct (decide (x = off)) as [->|Hne]; [rewrite Hd in Hd'; simplify_eq; set_solver|].
        assert (x ∈ inputs) as Hxi by set_solver.
        pose proof (Hcl x d' Hxi) as Hc. set_solver.
      * intros x [Hx|Hx]%elem_of_union; [by apply Hre|].
        destruct (Hre off Hoff) as (y & Hy & Hr). exists y. split; [done|].
        eapply rtc_r; [done|]. by exists d.
      * rewrite length_app, length_reverse.
        change (length (elements (input_deps d ∖ inputs))) with (size (input_deps d ∖ inputs)).
        assert (size (U ∖ inputs) =
          (size (input_deps d ∖ inputs) + size (U ∖ (inputs ∪ input_deps d)))%nat) as Hsz.
        { rewrite <-size_union by set_solver. f_equal. apply set_eq. intros x.
          destruct (decide (x ∈ input_deps d)), (decide (x ∈ inputs)); set_solver. }
        lia.
    + apply IH; [by etrans|done|done|set_solver|..|done|lia].
      intros x d' Hx Hn Hd'. destruct (decide (x = off)) as [->|]; [congruence|].
      apply (Hcl x d'); set_solver.
Qed.

Lemma input_closure_run s inputs (Q : gset Z → rt → Prop) :
  (∀ x, x ∈ all_offsets s inputs → deps_room s x) →
  (∀ r s', padded s s' → inputs ⊆ r → r ⊆ all_offsets s inputs →
     (∀ x, x ∈ r ↔ ∃ y, y ∈ inputs ∧ rtc (dep_edge s) y x) → Q r s') →
  wp (input_closure inputs) Q no_throw s.
Proof.
  intros Hroom HQ. apply wp_bind, wp_get.
  eapply wp_mono; [apply (closure_loop_ok s inputs); try done| |done].
  - unfold all_offsets. set_solver.
  - intros x. by rewrite elem_of_reverse, elem_of_elements.
  - intros x d Hx Hn. rewrite elem_of_reverse, elem_of_elements in Hn. done.
  - intros x Hx. by exists x.
  - rewrite length_reverse. change (length (elements inputs)) with (size inputs).
    rewrite <-size_union by set_solver. apply subseteq_size. unfold all_offsets.
    intros x. destruct (decide (x ∈ inputs)); set_solver.
  - intros r s' (Hp & Hi & HU & Hcl & Hre). apply HQ; [done..|]. intros x. split; [apply Hre|].
    intros (y & Hy & Hr). apply Hi in Hy.
    induction Hr as [|y z x (d & Hd & Hz) _ IH]; [done|]. apply IH. by apply (Hcl y d Hy Hd).
Qed.

(** C27: the worklist of [__solve_cond] terminates and computes exactly the
    offsets reachable from those of the condition through the dependencies
    recorded by earlier branches; it changes nothing but the length of the
    dependency vector. *)
Theorem input_closure_spec s inputs :
  (∀ x, x ∈ all_offsets s inputs → deps_room s x) →
  wp (input_closure inputs)
    (λ r s', padded s s' ∧ ∀ x, x ∈ r ↔ ∃ y, y ∈ inputs ∧ rtc (dep_edge s) y x) no_throw s.
Proof. intros Hroom. apply input_closure_run; [done|]. auto. Qed.
End deps.

(** ** Generated inputs *)
Section generate.
Context {Zi : Z3} {Ops : LlvmOps}.

(** A model that only assigns input bytes at non-negative offsets. *)
Definition byte_const (c : symbol * Z) : Prop :=
  match c with (SInt k, v) => 0 ≤ k ∧ in_range 8 v | (SStr _, _) => False end.
Definition byte_model (m : list (symbol * Z)) : Prop := Forall byte_const m.

(** The contents after writing the constants of a model. *)
Definition apply_const (c : list Z) (x : symbol * Z) : list Z :=
  match x with (SInt k, v) => write_at c k [u8 v] | _ => c end.
Definition apply_model (c : list Z) (m : list (symbol * Z)) : list Z := foldl apply_const c m.

(** The file [path] is open as [fd] with contents [c]. *)
Definition writing (s : rt) (fd : Z) (path : string) (c : list Z) (s' : rt) : Prop :=
  ∃ pos, s' = set_os (Os (<[path := c]> (os_files (rt_os s)))
                        (<[fd := (path, pos)]> (os_fds (rt_os s)))
                        (os_next_fd (rt_os s)) (os_denied (rt_os s)) true) s.

Lemma write_const_run s fd path c x s1 :
  byte_const x → writing s fd path c s1 →
  ∃ s2, write_const fd x s1 = Ret () s2 ∧ writing s fd path (apply_const c x) s2.
Proof.
  destruct x as [[k|n] v]; [|done]. intros [Hk Hv] [pos ->]. unfold write_const.
  destruct Hv as [Hv0 Hv]. change (2 ^ 8) with 256 in Hv.
  rewrite (proj2 (Z.ltb_ge _ _)), (proj2 (Z.leb_gt _ _)) by lia. simpl.
  eexists. split.
  - unfold on_os, zoom, lseek_set, WriteToFile, modify, mbind, M_bind, get, put, mret, M_ret. simpl.
    rewrite lookup_insert_eq. simpl. rewrite (proj2 (Z.ltb_ge k 0)) by done. simpl.
    rewrite lookup_insert_eq. simpl. rewrite !lookup_insert_eq. simpl. done.
  - eexists. simpl. by rewrite !insert_insert_eq.
Qed.
Lemma write_consts_run s fd path c m s1 :
  byte_model m → writing s fd path c s1 →
  ∃ s2, for_each m (write_const fd) s1 = Ret () s2 ∧ writing s fd path (apply_model c m) s2.
Proof.
  intros Hm. revert c s1. induction Hm as [|x m Hx Hm IH]; intros c s1 Hw; [by exists s1|].
  destruct (write_const_run _ _ _ _ _ _ Hx Hw) as (s2 & Hr & Hw2).
  destruct (IH _ _ Hw2) as (s3 & Hr3 & Hw3). exists s3. split; [|done].
  simpl. by rewrite (bind_run _ _ _ _ _ Hr).
Qed.

(** The environment of the runtime lets a new input be written. *)
Record can_write (s : rt) (buf : list Z) : Prop := {
  cw_file : tf_is_stdin (rt_tainted s) = 0;
  cw_buf : tf_buf (rt_tainted s) = Some buf;
  cw_fd : 0 ≤ os_next_fd (rt_os s);
  cw_allowed : input_path (rt_output s) (current_index (rt_output s)) ∉ os_denied (rt_os s);
  cw_ok : os_write_ok (rt_os s) = true;
}.
(** The original input. *)
Definition original (s : rt) (buf : list Z) : list Z := take (Z.to_nat (tf_size (rt_tainted s))) buf.
Definition next_path (s : rt) : string := input_path (rt_output s) (current_index (rt_output s)).

Lemma generate_run s buf m :
  can_write s buf → byte_model m →
  ∃ s', generate_input m s = Ret () s' ∧
    s' = set_os (rt_os s') (set_output (rt_output s') s) ∧
    os_files (rt_os s') = <[next_path s := apply_model (original s buf) m]> (os_files (rt_os s)) ∧
    current_index (rt_output s') = u32 (current_index (rt_output s) + 1).
Proof.
  intros [Hst Hb Hfd Hden Hok] Hm. unfold generate_input, next_index.
  set (s1 := set_output (Output (output_dir (rt_output s)) (instance_id (rt_output s))
    (session_id (rt_output s)) (u32 (current_index (rt_output s) + 1))) s).
  erewrite bind_run; [|erewrite bind_run by done; rewrite bind_modify; done].
  fold s1. rewrite bind_gets.
  set (path := input_path _ _).
  assert (path = next_path s) as Hpath by done.
  set (fd := os_next_fd (rt_os s)).
  set (base := set_os (Os (os_files (rt_os s)) (os_fds (rt_os s)) (fd + 1) (os_denied (rt_os s))
    true) s1).
  set (s2 := set_os (Os (<[path := []]> (os_files (rt_os s))) (<[fd := (path, 0)]> (os_fds (rt_os s)))
    (fd + 1) (os_denied (rt_os s)) true) base).
  assert (on_os (OpenFile_wr path) s1 = Ret fd s2) as Hopen.
  { unfold on_os, zoom, OpenFile_wr, mbind, M_bind, get, put, mret, M_ret. simpl.
    rewrite decide_False by (by rewrite Hpath). by rewrite Hok. }
  rewrite (bind_run _ _ _ _ _ Hopen).
  rewrite (proj2 (Z.eqb_neq fd kInvalidFd)) by (unfold kInvalidFd, fd; lia).
  rewrite bind_gets. change (rt_tainted s2) with (rt_tainted s). rewrite Hst, Hb. cbv iota.
  assert (∃ s3, on_os (WriteToFile fd (Some (original s buf))) s2 = Ret true s3 ∧
    writing base fd path (original s buf) s3) as (s3 & Hwr & Hw3).
  { eexists. split.
    - unfold on_os, zoom, WriteToFile, mbind, M_bind, get, put, mret, M_ret. simpl.
      rewrite !lookup_insert_eq. simpl. done.
    - eexists. simpl. by rewrite !insert_insert_eq, write_at_empty. }
  rewrite Z.eqb_refl. erewrite bind_run; [|erewrite bind_run by exact Hwr; done].
  destruct (write_consts_run _ _ _ _ _ _ Hm Hw3) as (s4 & Hr4 & [pos ->]).
  rewrite (bind_run _ _ _ _ _ Hr4).
  eexists. split; [done|]. simpl. split_and!; [done| |done]. by rewrite Hpath.
Qed.

(** The generated file as an input. *)
Definition input_of_file (c : list Z) : input := Input (byte_at c) (Z.of_nat (length c)).

Lemma apply_model_ne c m k :
  byte_model m → 0 ≤ k → (∀ v, (SInt k, v) ∉ m) → byte_at (apply_model c m) k = byte_at c k.
Proof.
  intros Hm Hk. revert c. induction Hm as [|[[j|n] v] m Hx Hm IH]; intros c Hn; [done| |done].
  change (apply_model c ((SInt j, v) :: m)) with (apply_model (write_at c j [u8 v]) m).
  rewrite IH by (intros v' Hv'; apply (Hn v'); by right).
  destruct Hx as [Hj _]. rewrite byte_at_write, decide_False; [done| |done|done].
  intros ->. apply (Hn v). by left.
Qed.
Lemma apply_model_eq c m k v :
  byte_model m → NoDup m.*1 → (SInt k, v) ∈ m → byte_at (apply_model c m) k = v.
Proof.
  intros Hm. revert c. induction Hm as [|[[j|n] v'] m Hx Hm IH]; intros c Hnd Hin;
    [by apply not_elem_of_nil in Hin| |done].
  apply NoDup_cons in Hnd as [Hj Hnd]. destruct Hx as [Hj0 Hv'].
  apply elem_of_cons in Hin as [[= -> ->]|Hin]; [|by apply IH].
  change (apply_model c ((SInt j, v') :: m)) with (apply_model (write_at c j [u8 v']) m).
  rewrite apply_model_ne; [|done|done|].
  - rewrite byte_at_write, decide_True by done. by apply wrap_small.
  - intros v Hv. apply Hj. simpl. by apply (list_elem_of_fmap_2 fst) in Hv.
Qed.

(** The generated input satisfies the model it was generated from. *)
Lemma generated_agrees c m :
  byte_model m → NoDup m.*1 → agrees (env_of (input_of_file (apply_model c m))) m.
Proof.
  intros Hm Hnd x v Hin. pose proof Hm as Hm'. unfold byte_model in Hm'.
  rewrite Forall_forall in Hm'. specialize (Hm' _ Hin). destruct x as [k|n]; [|done].
  by apply apply_model_eq.
Qed.

(** C25: when the model only assigns input bytes, [generate_input] writes, at a
    path named by the current index, the original input with exactly the
    bytes of the model replaced, advances the index, and touches no other
    file; the new input satisfies the model. *)
Theorem generate_input_spec s buf m :
  can_write s buf → byte_model m → NoDup m.*1 →
  ∃ s' c, generate_input m s = Ret () s' ∧
    s' = set_os (rt_os s') (set_output (rt_output s') s) ∧
    os_files (rt_os s') = <[next_path s := c]> (os_files (rt_os s)) ∧
    current_index (rt_output s') = u32 (current_index (rt_output s) + 1) ∧
    agrees (env_of (input_of_file c)) m ∧
    ∀ k, 0 ≤ k → (∀ v, (SInt k, v) ∉ m) → byte_at c k = byte_at (original s buf) k.
Proof.
  intros Hc Hm Hnd. destruct (generate_run s buf m Hc Hm) as (s' & ? & ? & ? & ?).
  exists s', (apply_model (original s buf) m). split_and!; [done..| |].
  - by apply generated_agrees.
  - intros k Hk Hn. by apply apply_model_ne.
Qed.
End generate.

(** ** Solving *)
Section solving.
Context {Zi : Z3} {Laws : Z3Laws Zi} {Ops : LlvmOps}.

(** The nested constraints of a list of offsets, without duplicates. *)
Definition add_exprs (added es : list expr) : list expr := foldl (λ a e, expr_insert e a) added es.
Definition dep_exprs (s : rt) (off : Z) : list expr :=
  match dep_at s off with Some d => expr_deps d | None => [] end.
Definition nested_exprs (s : rt) (offs : list Z) : list expr :=
  foldl (λ a off, add_exprs a (dep_exprs s off)) [] offs.

(** The model an input is generated from, if any, given the negated condition
    and the nested constraints. *)
Definition answer (n : Z) (ne : expr) (es : list expr) : option (list (symbol * Z)) :=
  match z3_check n [ne] with
  | Sat m_opt => Some (match z3_check (n + 1) (ne :: es) with Sat m => m | _ => m_opt end)
  | _ => None
  end.

Lemma add_exprs_incl added es e :
  (∃ e', e' ∈ added ∧ z3_same e e' = true) ∨ e ∈ es →
  ∃ e', e' ∈ add_exprs added es ∧ z3_same e e' = true.
Proof.
  revert added. induction es as [|x es IH]; intros added H; simpl.
  { destruct H as [H|H]; [done|by apply not_elem_of_nil in H]. }
  apply IH. unfold expr_insert. destruct H as [(e' & He & Hs)|[->|He]%elem_of_cons].
  - left. exists e'. split; [|done]. destruct (expr_mem x added); set_solver.
  - left. destruct (expr_mem x added) eqn:Hm.
    + apply existsb_exists in Hm as (e' & He%list_elem_of_In & Hs). eauto.
    + exists x. split; [set_solver|apply same_refl].
  - by right.
Qed.
(** Every constraint of an offset is asserted, up to identity. *)
Lemma nested_exprs_incl s offs off e :
  off ∈ offs → e ∈ dep_exprs s off → ∃ e', e' ∈ nested_exprs s offs ∧ z3_same e e' = true.
Proof.
  unfold nested_exprs. generalize (@nil expr). 
  induction offs as [|o offs IH]; intros added Hoff He; [by apply not_elem_of_nil in Hoff|].
  simpl. apply elem_of_cons in Hoff as [<-|Hoff]; [|by apply IH].
  destruct (add_exprs_incl added (dep_exprs s off) e (or_intror He)) as (e' & He' & Hs).
  clear IH. revert He'. generalize (add_exprs added (dep_exprs s off)). clear added.
  assert (∀ added, (∃ e', e' ∈ added ∧ z3_same e e' = true) →
    ∃ e', e' ∈ foldl (λ a off, add_exprs a (dep_exprs s off)) added offs ∧ z3_same e e' = true) as H.
  { induction offs as [|o offs IH]; intros added Ha; [done|]. simpl. apply IH.
    apply add_exprs_incl. by left. }
  intros added Hin. apply H. eauto.
Qed.

(** [s'] is [s] up to the solver and null dependency entries. *)
Definition quiet (s s' : rt) : Prop :=
  ∃ v s1, padded s s1 ∧ s' = set_solver_st v s1.
Lemma quiet_refl s : quiet s s.
Proof. exists (rt_solver s), s. split; [done|by destruct s]. Qed.
Lemma quiet_pad s s1 s2 : quiet s s1 → padded s1 s2 → quiet s s2.
Proof.
  intros (v & s1' & [k ->] & ->) [j ->]. eexists v, _. split; [exists (k + j)%nat; done|].
  simpl. by rewrite <-app_assoc, replicate_add.
Qed.
Lemma quiet_solver s s1 v : quiet s s1 → quiet s (set_solver_st v s1).
Proof. intros (v' & s' & Hp & ->). exists v, s'. done. Qed.
Lemma quiet_dep s s' n : quiet s s' → dep_at s' n = dep_at s n.
Proof. intros (v & s1 & Hp & ->). by rewrite <-(padded_dep _ _ _ Hp). Qed.
Lemma quiet_room s s' n : quiet s s' → deps_room s n → deps_room s' n.
Proof. intros (v & s1 & Hp & ->) Hr. by apply (padded_room _ _ _ Hp) in Hr. Qed.

Lemma wp_assert_exprs es added fs (Q : list expr → rt → Prop) X s0 s :
  quiet s0 s → sv_frames (rt_solver s) = added :: fs →
  (∀ s', quiet s0 s' → sv_frames (rt_solver s') = add_exprs added es :: fs →
     sv_checks (rt_solver s') = sv_checks (rt_solver s) → Q (add_exprs added es) s') →
  wp (assert_exprs es added) Q X s.
Proof.
  revert added s. induction es as [|e es IH]; intros added s Hq Hf HQ; cbn [assert_exprs].
  { apply wp_ret. by apply HQ. }
  change (add_exprs added (e :: es)) with (add_exprs (expr_insert e added) es) in HQ.
  unfold expr_insert in *. destruct (expr_mem e added); [by apply IH|].
  apply wp_bind, wp_zoom, wp_modify. apply IH.
  - by apply quiet_solver.
  - simpl. by rewrite Hf.
  - intros s' Hq' Hf' Hc'. apply HQ; [done|done|]. rewrite Hc'. simpl. by rewrite Hf.
Qed.

Lemma wp_assert_deps offs added fs (Q : list expr → rt → Prop) X s0 s :
  quiet s0 s → (∀ x, x ∈ offs → deps_room s0 x) → sv_frames (rt_solver s) = added :: fs →
  (∀ s', quiet s0 s' →
     let es := foldl (λ a off, add_exprs a (dep_exprs s0 off)) added offs in
     sv_frames (rt_solver s') = es :: fs →
     sv_checks (rt_solver s') = sv_checks (rt_solver s) → Q es s') →
  wp (assert_deps offs added) Q X s.
Proof.
  revert added s. induction offs as [|o offs IH]; intros added s Hq Hr Hf HQ; cbn [assert_deps].
  { apply wp_ret. by apply HQ. }
  apply wp_bind, wp_get_dep; [apply (quiet_room s0); [done|apply Hr; by left]|].
  intros s1 Hp. assert (rt_solver s1 = rt_solver s) as Hsv by (by rewrite (padded_rest _ _ Hp)).
  rewrite (quiet_dep _ _ _ Hq). apply wp_bind.
  assert (∀ s2, quiet s0 s2 → sv_frames (rt_solver s2) = add_exprs added (dep_exprs s0 o) :: fs →
    sv_checks (rt_solver s2) = sv_checks (rt_solver s) →
    wp (assert_deps offs (add_exprs added (dep_exprs s0 o))) Q X s2) as Hk.
  { intros s2 Hq2 Hf2 Hc2. apply IH; [done|intros x Hx; apply Hr; by right|done|].
    intros s' Hq' es Hf' Hc'. apply HQ; [done|done|congruence]. }
  assert (dep_exprs s0 o = match dep_at s0 o with Some d => expr_deps d | None => [] end) as Hde
    by done.
  destruct (dep_at s0 o) as [d|]; rewrite Hde in Hk.
  - eapply wp_assert_exprs; [by eapply quiet_pad|by rewrite Hsv|].
    intros s2 Hq2 Hf2 Hc2. apply Hk; [done|done|by rewrite Hc2, Hsv].
  - apply wp_ret, Hk; [by eapply quiet_pad|by rewrite Hsv|by rewrite Hsv].
Qed.

Lemma wp_solve s cond result inputs (Q : () → rt → Prop) X :
  z3_sort cond = z3_sort result → (∀ x, x ∈ inputs → deps_room s x) →
  (∀ ne s1, quiet s s1 →
     (∀ env, z3_eval env ne =
        VBool (negb (bool_decide (z3_eval env cond = z3_eval env result)))) →
     match answer (sv_checks (rt_solver s)) ne (nested_exprs s (elements inputs)) with
     | Some m => wp (generate_input m) Q X s1
     | None => Q () s1
     end) →
  wp (solve cond result inputs) Q X s.
Proof.
  intros Hsort Hroom HQ. unfold solve. apply wp_bind, wp_zoom, wp_modify. cbn [set_solver_st].
  destruct (mk_well_sorted ZNe [cond; result] SBool) as (ne & Hne & _ & Hev).
  { simpl. by rewrite Hsort, decide_True. }
  apply wp_bind. unfold wp at 1, zmk at 1. rewrite Hne. cbv beta iota.
  apply wp_bind, wp_zoom, wp_modify. apply wp_bind, wp_zoom. simpl.
  unfold solver_check. apply wp_bind, wp_get, wp_bind. unfold wp at 1, put at 1. apply wp_ret. simpl.
  specialize (HQ ne). unfold answer in HQ. unfold assertions. simpl.
  assert (∀ v, quiet s (set_solver_st v s)) as Hq by (intros v; apply quiet_solver, quiet_refl).
  destruct (z3_check (sv_checks (rt_solver s)) [ne]) as [m0| |];
    [|apply wp_ret; exact (HQ _ (Hq _) Hev)..].
  apply wp_bind, wp_zoom, wp_modify, wp_bind.
  eapply (wp_assert_deps _ [] [[ne]] _ _ s); [apply Hq|intros x; rewrite elem_of_elements; apply Hroom|done|].
  intros s1 Hq1 es Hf Hc. simpl in Hc. apply wp_bind, wp_zoom. unfold solver_check.
  apply wp_bind, wp_get, wp_bind. unfold wp at 1, put at 1. apply wp_ret. simpl.
  specialize (HQ _ (quiet_solver _ _ (Solver (sv_frames (rt_solver s1))
    (sv_checks (rt_solver s1) + 1) (sv_timeout (rt_solver s1))) Hq1) Hev).
  unfold assertions. rewrite Hc, Hf. simpl. change es with (nested_exprs s (elements inputs)).
  rewrite app_nil_r. rewrite Hc, Hf in HQ.
  change es with (nested_exprs s (elements inputs)) in HQ.
  by destruct (z3_check _ (ne :: _)).
Qed.

(** What [generate_input] may change: files and the output index. *)
Definition files_only (s s' : rt) : Prop := s' = set_os (rt_os s') (set_output (rt_output s') s).
Lemma files_only_refl s : files_only s s.
Proof. unfold files_only. by destruct s. Qed.
Lemma files_only_trans s1 s2 s3 : files_only s1 s2 → files_only s2 s3 → files_only s1 s3.
Proof. unfold files_only. intros -> ->. done. Qed.

Lemma wp_on_os {A} (m : M os A) (Q : A → rt → Prop) X s0 s :
  files_only s0 s → (∀ o, ∃ a o', m o = Ret a o') →
  (∀ a s', files_only s0 s' → Q a s') → wp (on_os m) Q X s.
Proof.
  intros Hf Hm HQ. apply wp_zoom. unfold wp. destruct (Hm (rt_os s)) as (a & o' & ->).
  apply HQ. eapply files_only_trans; [done|]. by destruct s.
Qed.
Lemma write_total fd b o : ∃ a o', WriteToFile fd b o = Ret a o'.
Proof.
  unfold WriteToFile, mbind, M_bind, get, put, mret, M_ret.
  destruct (os_fds o !! fd) as [[path off]|], b; try (by do 2 eexists).
  destruct (os_write_ok o); by do 2 eexists.
Qed.
Lemma modify_total (f : os → os) o : ∃ a o', modify f o = Ret a o'.
Proof. by do 2 eexists. Qed.
Lemma open_total path o : ∃ a o', OpenFile_wr path o = Ret a o'.
Proof.
  unfold OpenFile_wr, mbind, M_bind, get, put, mret, M_ret. destruct (decide _); by do 2 eexists.
Qed.

Lemma generate_total m s :
  wp (generate_input m) (λ _, files_only s) (λ _, files_only s) s.
Proof.
  assert (∀ fd x s1, files_only s s1 →
    wp (write_const fd x) (λ _, files_only s) (λ _, files_only s) s1) as Hc.
  { intros fd [[k|n] v] s1 Hf; unfold write_const.
    - destruct (_ || _); [done|]. apply wp_bind.
      eapply wp_on_os; [done|intros; apply modify_total|]. intros [] s2 Hf2.
      apply wp_bind. eapply wp_on_os; [done|intros; apply write_total|].
        intros ok s3 Hf3. exact Hf3.
    - destruct (decide _); [|done]. destruct (_ || _); [done|].
      apply wp_bind, wp_gets, wp_bind. destruct (_ <? _).
      + apply wp_bind. eapply wp_on_os; [done|intros; apply modify_total|]. intros [] s2 Hf2.
        apply wp_bind. eapply wp_on_os; [done|intros; apply write_total|].
        intros ok s3 Hf3. exact Hf3.
      + eapply wp_on_os; [done|intros; apply modify_total|]. intros [] s2 Hf2. exact Hf2. }
  unfold generate_input. apply wp_bind. unfold next_index. apply wp_bind, wp_gets, wp_bind, wp_modify, wp_ret.
  set (s1 := set_output _ s). assert (files_only s s1) as Hf1 by (by destruct s).
  apply wp_bind, wp_gets, wp_bind. eapply wp_on_os; [done|intros; apply open_total|].
  intros fd s2 Hf2. destruct (fd =? kInvalidFd); [done|]. apply wp_bind, wp_gets, wp_bind.
  destruct (_ =? 0); [|done]. apply wp_bind. eapply wp_on_os; [done|intros; apply write_total|].
  intros ok s3 Hf3. destruct ok; [|done]. apply wp_ret, wp_bind.
  apply (wp_mono _ (λ _, files_only s) _ (λ _, files_only s));
    [apply (wp_for_each (λ _, files_only s)); [|done]| |done].
  - intros done x todo s4 _ Hf4. by apply Hc.
  - intros [] s4 Hf4. eapply wp_on_os; [exact Hf4|intros; apply modify_total|].
    intros [] s5 Hf5. exact Hf5.
Qed.

(** ** Recording a constraint *)
Definition dep_inputs (s : rt) (off : Z) : gset Z :=
  match dep_at s off with Some d => input_deps d | None => ∅ end.
Definition updated (s : rt) (inputs : gset Z) (e : expr) (off : Z) : branch_dep_t :=
  BranchDep (expr_insert e (dep_exprs s off)) (dep_inputs s off ∪ inputs).
(** [s'] is [s] after the constraint [e] was recorded for the offsets [offs]. *)
Definition recorded_deps (s : rt) (inputs : gset Z) (e : expr) (offs : list Z) (s' : rt) : Prop :=
  s' = set_branch_deps (rt_branch_deps s') s ∧
  (∀ k, deps_room s k → deps_room s' k) ∧
  ∀ k, 0 ≤ k → dep_at s' k = if decide (k ∈ offs) then Some (updated s inputs e k) else dep_at s k.

Lemma wp_record_dep inputs mk e off (Q : () → rt → Prop) X s :
  deps_room s off → (∀ s1, mk s1 = Ret e s1) →
  (∀ s', recorded_deps s inputs e [off] s' → Q () s') →
  wp (record_dep inputs mk off) Q X s.
Proof.
  intros Hr Hmk HQ. pose proof Hr as [Hoff _]. apply wp_bind, wp_get_dep; [done|]. intros s1 Hp.
  set (c0 := default (BranchDep [] ∅) (dep_at s off)).
  assert (updated s inputs e off =
    BranchDep (expr_insert e (expr_deps c0)) (input_deps c0 ∪ inputs)) as Hu.
  { unfold updated, dep_exprs, dep_inputs, c0. by destruct (dep_at s off). }
  apply wp_bind.
  assert (∀ s2, s2 = set_branch_deps (rt_branch_deps s2) s →
    (∀ k, 0 ≤ k → k ≠ off → dep_at s2 k = dep_at s k) →
    (∀ k, deps_room s k → deps_room s2 k) →
    wp (let c := BranchDep (expr_deps c0) (input_deps c0 ∪ inputs) in
        set_branch_dep off (Some c) ;; e ← mk;
        set_branch_dep off (Some (BranchDep (expr_insert e (expr_deps c)) (input_deps c)))) Q X s2)
    as Hk.
  { intros s2 Hs2 Hd2 Hr2. cbv zeta. apply wp_bind, wp_set_dep; [by apply Hr2|].
    intros s3 Hs3 Hd3 Hr3. apply wp_bind. unfold wp at 1. rewrite Hmk.
    apply wp_set_dep; [by apply Hr3, Hr2|]. intros s4 Hs4 Hd4 Hr4. apply HQ. split_and!.
    - by rewrite Hs4, Hs3, Hs2.
    - intros k Hk. by apply Hr4, Hr3, Hr2.
    - intros k Hk. rewrite Hd4 by done. case_decide as He.
      + subst k. rewrite decide_True by (by left). by rewrite Hu.
      + rewrite (decide_False (P := k ∈ [off])) by set_solver.
        rewrite Hd3, decide_False, Hd2 by done. done. }
  unfold c0 in Hk. destruct (dep_at s off) as [c|] eqn:Hd; simpl in Hk.
  - apply wp_ret, Hk; [by apply padded_rest| |by intros; eapply padded_room].
    intros k _ _. by apply padded_dep.
  - apply wp_bind, wp_set_dep; [by eapply padded_room|]. intros s2 Hs2 Hd2 Hr2. apply wp_ret, Hk.
    + rewrite Hs2, (padded_rest _ _ Hp). done.
    + intros k Hk0 Hne. by rewrite Hd2, decide_False, (padded_dep _ _ _ Hp).
    + intros k Hk0. by apply Hr2, (padded_room _ _ _ Hp).
Qed.

Lemma wp_record_loop inputs mk e offs (Q : () → rt → Prop) X s :
  NoDup offs → (∀ x, x ∈ offs → deps_room s x) → (∀ s1, mk s1 = Ret e s1) →
  (∀ s', recorded_deps s inputs e offs s' → Q () s') →
  wp (for_each offs (record_dep inputs mk)) Q X s.
Proof.
  intros Hnd Hroom Hmk HQ.
  apply (wp_mono _ (λ _, recorded_deps s inputs e offs) _ X); [|intros []; apply HQ|done].
  apply (wp_for_each (λ done, recorded_deps s inputs e done)).
  - intros done x todo s1 -> (Hs1 & Hr1 & Hd1).
    apply NoDup_app in Hnd as (_ & Hnx & [Hx _]%NoDup_cons).
    assert (x ∉ done) as Hxd by (intros Hin; apply (Hnx x Hin); by left).
    assert (deps_room s x) as Hrx by (apply Hroom; set_solver). pose proof Hrx as [Hx0 _].
    apply (wp_record_dep _ _ e); [by apply Hr1|done|]. intros s2 (Hs2 & Hr2 & Hd2). split_and!.
    + by rewrite Hs2, Hs1.
    + intros k Hk. by apply Hr2, Hr1.
    + intros k Hk. rewrite Hd2, Hd1 by done. destruct (decide (k = x)) as [->|Hne].
      * rewrite decide_True by set_solver. rewrite (decide_True (P := x ∈ done ++ [x])) by set_solver.
        unfold updated, dep_exprs, dep_inputs. rewrite Hd1 by done. by rewrite !decide_False.
      * rewrite decide_False by set_solver.
        destruct (decide (k ∈ done)); [by rewrite !decide_True by set_solver|].
        by rewrite !decide_False by set_solver.
  - split_and!; [by destruct s|done|]. intros k Hk. by rewrite decide_False by set_solver.
Qed.

(** ** [__solve_cond] *)
Definition flipped (s : rt) (label : Z) : bool :=
  negb (Z.land (li_flags (info_at (rt_labels s) label)) B_FLIPPED =? 0).

Lemma is_flipped_run s label :
  rt_wf s → label ≤ last_label (rt_labels s) → is_flipped label s = Ret (flipped s label) s.
Proof. intros Hwf Hl. unfold is_flipped. by rewrite (bind_run _ _ _ _ _ (r_info_run _ _ Hwf Hl)). Qed.

Lemma mark_flipped_run s label :
  rt_wf s → label ≤ last_label (rt_labels s) →
  ∃ s', mark_flipped label s = Ret () s' ∧ s' = set_labels (rt_labels s') s ∧
    flipped s' label = true.
Proof.
  intros Hwf Hl. unfold mark_flipped. rewrite (bind_run _ _ _ _ _ (r_info_run _ _ Hwf Hl)).
  eexists. split; [done|]. split; [done|].
  unfold flipped, B_FLIPPED. simpl. rewrite info_at_set_eq. simpl.
  apply negb_true_iff, Z.eqb_neq. intros H. apply (f_equal (λ z, Z.testbit z 0)) in H. revert H.
  rewrite Z.land_spec, Z.lor_spec, Z.bits_0. change (Z.testbit 1 0) with true.
  by rewrite orb_true_r.
Qed.

Lemma quiet_same s s' :
  quiet s s' → rt_labels s' = rt_labels s ∧ rt_mem s' = rt_mem s ∧
    rt_tainted s' = rt_tainted s ∧ rt_output s' = rt_output s ∧ rt_os s' = rt_os s.
Proof. by intros (v & s1 & [k ->] & ->). Qed.
Lemma padded_quiet s s' : padded s s' → quiet s s'.
Proof. intros Hp. exists (rt_solver s'), s'. split; [done|by destruct s']. Qed.

(** The result of the two checks on the generated input. *)
Lemma answer_sat n ne es m env :
  answer n ne es = Some m → agrees env m →
  z3_eval env ne = VBool true ∧
  (z3_check (n + 1) (ne :: es) = Sat m → ∀ e, e ∈ es → z3_eval env e = VBool true) ∧ NoDup m.*1.
Proof.
  unfold answer. destruct (z3_check n [ne]) as [m0| |] eqn:H0; [|done..]. intros [= Hm] Ha.
  destruct (z3_check (n + 1) (ne :: es)) as [m1| |] eqn:H1; subst.
  - split; [by eapply check_sat; [done|done|left]|]. split; [|by eapply check_model].
    intros _ e He. eapply check_sat; [done|done|by right].
  - split; [by eapply check_sat; [done|done|left]|]. split; [done|by eapply check_model].
  - split; [by eapply check_sat; [done|done|left]|]. split; [done|by eapply check_model].
Qed.

Section cond.
Context (s : rt) (label : Z) (result : expr) (r : bool) (inp0 : input) (buf : list Z).
Context (Hwf : rt_wf s) (Hcs : caches_sound s).
Context (Hl : label ≤ last_label (rt_labels s)) (Hnf : flipped s label = false).
Context (Hden : ∃ v, denote (rt_labels s) (rt_mem s) inp0 label = Some (VBool v)).
Context (Hrs : z3_sort result = SBool) (Hre : ∀ env, z3_eval env result = VBool r).
Context (Hroom : ∀ e d s1, serialize label ∅ s = Ret (e, d) s1 →
                   ∀ x, x ∈ all_offsets s d → deps_room s x).

(** The part of [__solve_cond] up to the solver: what it knows. *)
Lemma solve_cond_start nested (Q : () → rt → Prop) :
  (∀ cond d inputs s1,
     (∀ inp, denote (rt_labels s) (rt_mem s) inp label = Some (z3_eval (env_of inp) cond)) →
     z3_sort cond = SBool → (∀ inp, value_sort (z3_eval (env_of inp) cond) = SBool) →
     label_deps (rt_labels s) label ⊆ d →
     (∀ x, x ∈ inputs ↔ ∃ y, y ∈ d ∧ rtc (dep_edge s) y x) →
     (∀ x, x ∈ inputs → deps_room s1 x) → (∀ k, dep_at s1 k = dep_at s k) →
     only_caches s (set_branch_deps (rt_branch_deps s) s1) → rt_wf s1 →
     caches_sound s1 → sv_checks (rt_solver s1) = sv_checks (rt_solver s) →
     wp (solve cond result inputs ;;
         (if (nested : bool) then
            for_each (elements inputs) (record_dep inputs (zmk ZEq [cond; result]))
          else mret ()) ;;
         mark_flipped label) Q (λ _, Q ()) s1) →
  wp (solve_cond label result nested) Q no_throw s.
Proof.
  intros HQ. unfold solve_cond. apply wp_bind. unfold wp at 1.
  rewrite is_flipped_run, Hnf by done. apply wp_catch.
  destruct Hwf as [m Hm]. destruct Hden as [v Hv].
  destruct (serialize_run s m label ∅ inp0) as (cond & d & s1 & Hser & Hev & Hd & Ho & Hm1 & Hcs1);
    [done..|by eexists|].
  apply wp_bind. unfold wp at 1. rewrite Hser. cbv beta iota zeta.
  assert (rt_branch_deps s1 = rt_branch_deps s) as Hbd by (by rewrite (proj1 Ho)).
  assert (rt_tainted s1 = rt_tainted s) as Htf by (by rewrite (proj1 Ho)).
  assert (∀ k, dep_at s1 k = dep_at s k) as Hdep by (intros k; unfold dep_at; by rewrite Hbd).
  assert (∀ a b, dep_edge s1 a b ↔ dep_edge s a b) as Hedge.
  { intros a b. unfold dep_edge. by setoid_rewrite Hdep. }
  assert (all_offsets s1 d = all_offsets s d) as Hao by (unfold all_offsets; by rewrite Hbd).
  assert (∀ x, x ∈ all_offsets s1 d → deps_room s1 x) as Hroom1.
  { intros x Hx. rewrite Hao in Hx. destruct (Hroom _ _ _ Hser x Hx) as [? ?].
    split; [done|]. by rewrite Hbd, Htf. }
  apply wp_bind. eapply wp_mono; [apply (input_closure_run s1 d); [done|]| |done].
  - intros inputs s2 Hp Hi HU Hx.
    instantiate (1 := λ inputs s2, padded s1 s2 ∧ inputs ⊆ all_offsets s1 d ∧
      ∀ x, x ∈ inputs ↔ ∃ y, y ∈ d ∧ rtc (dep_edge s1) y x). done.
  - intros inputs s2 (Hp & HU & Hx). apply (HQ cond d inputs s2).
    + intros inp. apply Hev.
    + destruct (Hev inp0) as [He <-]. rewrite Hv in He. by injection He as <-.
    + intros inp. destruct (Hev inp) as [_ ->], (Hev inp0) as [He <-].
      rewrite Hv in He. by injection He as <-.
    + set_solver.
    + intros x. rewrite Hx. split; intros (y & Hy & Hr); exists y; (split; [done|]);
        (eapply rtc_subrel; [|exact Hr]); intros ?? ?; by apply Hedge.
    + intros x Hxi. apply (padded_room _ _ _ Hp), Hroom1. set_solver.
    + intros k. by rewrite (padded_dep _ _ _ Hp).
    + destruct Hp as [k ->]. simpl. rewrite <-Hbd. by destruct s1.
    + destruct Hp as [k ->]. by exists m.
    + destruct Hp as [k ->]. exact Hcs1.
    + destruct Hp as [k ->]. simpl. by rewrite (proj1 Ho).
Qed.

(** The end of [__solve_cond]: record the taken side, mark the label. *)
Lemma solve_cond_end nested cond inputs s1 (Q : () → rt → Prop) X :
  rt_wf s1 → label ≤ last_label (rt_labels s1) → z3_sort cond = SBool →
  (∀ x, x ∈ inputs → deps_room s1 x) →
  (∀ eq s2 s', (∀ env, z3_eval env eq =
       VBool (bool_decide (z3_eval env cond = z3_eval env result))) →
     (if (nested : bool) then recorded_deps s1 inputs eq (elements inputs) s2 else s2 = s1) →
     s' = set_labels (rt_labels s') s2 → flipped s' label = true → Q () s') →
  wp ((if nested then
         for_each (elements inputs) (record_dep inputs (zmk ZEq [cond; result]))
       else mret ()) ;; mark_flipped label) Q X s1.
Proof.
  intros Hwf1 Hl1 Hsc Hr HQ.
  destruct (mk_well_sorted ZEq [cond; result] SBool) as (eq & Heq & _ & Hev).
  { simpl. by rewrite Hsc, Hrs, decide_True. }
  assert (∀ s1, zmk ZEq [cond; result] s1 = Ret eq s1) as Hmk by (unfold zmk; by rewrite Heq).
  assert (∀ s2, (if (nested : bool) then recorded_deps s1 inputs eq (elements inputs) s2 else s2 = s1) →
    rt_labels s2 = rt_labels s1 → wp (mark_flipped label) Q X s2) as Hend.
  { intros s2 Hrec Hlab. destruct (mark_flipped_run s2 label) as (s' & Hm & Hs' & Hf).
    - unfold rt_wf. by rewrite Hlab.
    - by rewrite Hlab.
    - unfold wp. rewrite Hm. by apply (HQ eq s2). }
  apply wp_bind. destruct nested.
  - apply (wp_record_loop _ _ eq).
    + apply NoDup_elements.
    + intros x. rewrite elem_of_elements. apply Hr.
    + done.
    + intros s2 Hrec. apply Hend; [done|]. by rewrite (proj1 Hrec).
  - apply wp_ret. by apply Hend.
Qed.

(** The constraints recorded for the offsets the condition depends on,
    directly or through earlier branches. *)
Definition path_constraint (e : expr) : Prop :=
  ∃ x off d, x ∈ label_deps (rt_labels s) label ∧ rtc (dep_edge s) x off ∧
    dep_at s off = Some d ∧ e ∈ expr_deps d.

(** What is known of a generated input [c]. *)
Definition flips (m : list (symbol * Z)) (full : Prop) (c : list Z) : Prop :=
  denote (rt_labels s) (rt_mem s) (input_of_file c) label = Some (VBool (negb r)) ∧
  (full → ∀ e, path_constraint e → z3_eval (env_of (input_of_file c)) e = VBool true) ∧
  ∀ k, 0 ≤ k → (∀ v, (SInt k, v) ∉ m) → byte_at c k = byte_at (original s buf) k.

#[local] Instance byte_const_dec x : Decision (byte_const x).
Proof. unfold byte_const, in_range. destruct x as [[k|n] v]; apply _. Defined.

(** The asserted negation picks out the inputs of the other side. *)
Lemma negated_iff cond ne :
  (∀ inp, denote (rt_labels s) (rt_mem s) inp label = Some (z3_eval (env_of inp) cond)) →
  (∀ inp, value_sort (z3_eval (env_of inp) cond) = SBool) →
  (∀ env, z3_eval env ne =
     VBool (negb (bool_decide (z3_eval env cond = z3_eval env result)))) →
  ∀ inp, z3_eval (env_of inp) ne = VBool true ↔
    denote (rt_labels s) (rt_mem s) inp label = Some (VBool (negb r)).
Proof.
  intros Hcond Hcsort Hne inp. rewrite Hne, Hre, Hcond.
  destruct (sort_bool _ (Hcsort inp)) as [v ->].
  destruct v, r; simpl; (split; [|by intros [=]]); try done.
Qed.

Lemma flips_generated m ne es cond :
  byte_model m → answer (sv_checks (rt_solver s)) ne es = Some m →
  (∀ inp, denote (rt_labels s) (rt_mem s) inp label = Some (z3_eval (env_of inp) cond)) →
  (∀ inp, value_sort (z3_eval (env_of inp) cond) = SBool) →
  (∀ env, z3_eval env ne =
     VBool (negb (bool_decide (z3_eval env cond = z3_eval env result)))) →
  (∀ e, path_constraint e → ∃ e', e' ∈ es ∧ z3_same e e' = true) →
  flips m (z3_check (sv_checks (rt_solver s) + 1) (ne :: es) = Sat m)
    (apply_model (original s buf) m).
Proof.
  intros Hm Ha Hcond Hcs' Hne Hes.
  assert (NoDup m.*1) as Hnd.
  { revert Ha. unfold answer. destruct (z3_check _ [ne]) eqn:H0; [|done..]. intros [= <-].
    destruct (z3_check _ (ne :: es)) eqn:H1; by eapply check_model. }
  pose proof (generated_agrees (original s buf) m Hm Hnd) as Hag.
  destruct (answer_sat _ _ _ _ _ Ha Hag) as (Hn & Hf & _). split_and!.
  - rewrite Hcond. rewrite Hne, Hre in Hn. injection Hn as Hn.
    apply negb_true_iff, bool_decide_eq_false in Hn.
    destruct (sort_bool _ (Hcs' (input_of_file (apply_model (original s buf) m)))) as [v Hv].
    rewrite Hv in *. do 2 f_equal. destruct v, r; done.
  - intros Hfull e (e' & He' & Hsame)%Hes. rewrite (same_eval e e' Hsame). by apply Hf.
  - intros k Hk Hno. by apply apply_model_ne.
Qed.

(** The outcome of solving: a negated condition [ne] and nested constraints
    [es], and what the answer of the solver on them leads to. *)
Definition solved (s' : rt) : Prop :=
  ∃ ne es,
    (∀ inp, z3_eval (env_of inp) ne = VBool true ↔
       denote (rt_labels s) (rt_mem s) inp label = Some (VBool (negb r))) ∧
    (∀ e, path_constraint e → ∃ e', e' ∈ es ∧ z3_same e e' = true) ∧
    match answer (sv_checks (rt_solver s)) ne es with
    | None => rt_os s' = rt_os s ∧ flipped s' label = true
    | Some m =>
        byte_model m → flipped s' label = true ∧
        ∃ c, os_files (rt_os s') = <[next_path s := c]> (os_files (rt_os s)) ∧
          flips m (z3_check (sv_checks (rt_solver s) + 1) (ne :: es) = Sat m) c
    end.

Lemma solve_cond_solved nested :
  can_write s buf → ∃ s', solve_cond label result nested s = Ret () s' ∧ solved s'.
Proof.
  intros Hcw.
  assert (wp (solve_cond label result nested) (λ _, solved) no_throw s) as H.
  2:{ unfold wp in H. destruct (solve_cond _ _ _ s) as [[] s'| |]; [|done..]. by exists s'. }
  apply solve_cond_start. intros cond d inputs s1 Hcond Hsc Hcsort Hd Hinp Hr Hdep Ho Hwf1 Hcs1 Hchk.
  apply wp_bind, wp_solve; [by rewrite Hsc|done|]. intros ne s2 Hq Hne. rewrite Hchk.
  set (es := nested_exprs s1 (elements inputs)).
  pose proof (negated_iff _ _ Hcond Hcsort Hne) as Hneg.
  assert (∀ e, path_constraint e → ∃ e', e' ∈ es ∧ z3_same e e' = true) as Hes.
  { intros e (x & off & dd & Hx & Hreach & Hdd & He). apply (nested_exprs_incl s1 _ off).
    - apply elem_of_elements, Hinp. exists x. split; [set_solver|done].
    - unfold dep_exprs. by rewrite Hdep, Hdd. }
  destruct (quiet_same _ _ Hq) as (Q1 & Q2 & Q3 & Q4 & Q5).
  assert (rt_os s1 = rt_os s ∧ rt_tainted s1 = rt_tainted s ∧ rt_output s1 = rt_output s)
    as (O1 & O2 & O3) by (destruct Ho as [Ho _]; destruct s1; simpl in Ho; by injection Ho).
  assert (last_label (rt_labels s1) = last_label (rt_labels s)) as Hlast by apply Ho.
  assert (∀ s3 (P : () → rt → Prop) X, files_only s2 s3 →
    (∀ s', rt_os s' = rt_os s3 → flipped s' label = true → P () s') →
    wp ((if nested then
           for_each (elements inputs) (record_dep inputs (zmk ZEq [cond; result]))
         else mret ()) ;; mark_flipped label) P X s3) as Hend.
  { intros s3 P X Hf HP. unfold files_only in Hf.
    assert (rt_labels s3 = rt_labels s1) as Hl3 by (rewrite Hf; simpl; done).
    apply solve_cond_end; [unfold rt_wf; by rewrite Hl3|by rewrite Hl3, Hlast|done| |].
    - intros x Hx. rewrite Hf. change (deps_room s2 x).
      apply (quiet_room s1); [done|by apply Hr].
    - intros eq s4 s' _ Hs4 Hs' Hfl. apply HP; [|done]. rewrite Hs'. simpl.
      destruct nested; [by rewrite (proj1 Hs4)|by rewrite Hs4]. }
  destruct (answer (sv_checks (rt_solver s)) ne es) as [m|] eqn:Ha.
  - destruct (decide (byte_model m)) as [Hbm|Hbm].
    + destruct (generate_run s2 buf m) as (s3 & Hg & Hf & Hfiles & _); [|done|].
      { destruct Hcw. split; rewrite ?Q3, ?Q4, ?Q5, ?O1, ?O2, ?O3; done. }
      unfold wp at 1. rewrite Hg. apply Hend; [done|]. intros s' Hos Hfl.
      exists ne, es. split_and!; [done|done|]. rewrite Ha. intros _. split; [done|].
      exists (apply_model (original s buf) m). split.
      * rewrite Hos, Hfiles. unfold next_path, original. by rewrite Q3, Q4, Q5, O1, O2, O3.
      * by eapply flips_generated.
    + assert (∀ s', solved s') as Hany by (intros s'; exists ne, es; rewrite Ha; done).
      eapply wp_mono; [apply generate_total|..].
      * intros [] s3 Hf. apply Hend; [done|]. intros s' _ _. apply Hany.
      * intros ? s3 _. apply Hany.
  - apply Hend; [apply files_only_refl|]. intros s' Hos Hfl. exists ne, es.
    split_and!; [done|done|]. rewrite Ha. split; [by rewrite Hos, Q5|done].
Qed.

(** C13: solving a branch. For a Boolean label that is not yet flipped and
    whose branch went the way [r], [__solve_cond] returns, and there is a
    negated condition [ne], true on exactly the inputs where the label
    denotes the other side, and a set [es] that covers every path
    constraint of the offsets the label depends on, such that: if Z3 finds
    no model of [ne], no file is written; otherwise, when the model chosen
    (that of [ne] with [es] if there is one, else that of [ne]) only assigns
    input bytes, the next output file holds the original input changed at
    the bytes of the model, the label denotes the other side on it, and, in
    the first case, all path constraints hold on it; the label is then
    marked as flipped. *)
Theorem solve_cond_flips nested :
  can_write s buf → ∃ s', solve_cond label result nested s = Ret () s' ∧ solved s'.
Proof. apply solve_cond_solved. Qed.

(** The recorded constraints hold on an input. *)
Definition constraints_hold (inp : input) (s' : rt) : Prop :=
  ∀ off d e, 0 ≤ off → dep_at s' off = Some d → e ∈ expr_deps d →
    z3_eval (env_of inp) e = VBool true.

Lemma constraints_recorded inp s1 s2 inputs eq :
  constraints_hold inp s1 → z3_eval (env_of inp) eq = VBool true →
  recorded_deps s1 inputs eq (elements inputs) s2 → constraints_hold inp s2.
Proof.
  intros Hc Heq (_ & _ & Hd) off d e Hoff Hdep He. rewrite Hd in Hdep by done.
  case_decide; [|by eapply Hc]. injection Hdep as <-. simpl in He. unfold expr_insert in He.
  assert (e ∈ dep_exprs s1 off ∨ e = eq) as [He' | ->]; [|clear He|done].
  { destruct (expr_mem _ _); [by left|]. apply elem_of_app in He as [?|?]; [by left|right]. set_solver. }
  unfold dep_exprs in He'. destruct (dep_at s1 off) as [d'|] eqn:Hd'; [by eapply Hc|].
  by apply not_elem_of_nil in He'.
Qed.

(** C26: path constraints are sound: if every recorded constraint holds on an
    input on which the branch goes the way [r] (the input of the current
    execution), the same is true after [__solve_cond], which records that
    the branch went the way [r], whatever the solver answers and whether or
    not an input could be written. *)
Theorem solve_cond_constraints inp nested :
  denote (rt_labels s) (rt_mem s) inp label = Some (VBool r) → constraints_hold inp s →
  ∃ s', solve_cond label result nested s = Ret () s' ∧ constraints_hold inp s'.
Proof.
  intros Hinp Hc.
  assert (wp (solve_cond label result nested) (λ _, constraints_hold inp) no_throw s) as H.
  2:{ unfold wp in H. destruct (solve_cond _ _ _ s) as [[] s'| |]; [|done..]. by exists s'. }
  apply solve_cond_start. intros cond d inputs s1 Hcond Hsc _ _ _ Hr Hdep Ho Hwf1 _ _.
  assert (∀ s2, (∀ k, dep_at s2 k = dep_at s k) → constraints_hold inp s2) as Hsame.
  { intros s2 H2 off d' e Hoff. rewrite H2. by apply Hc. }
  assert (∀ s3, quiet s1 s3 ∨ (∃ s2, quiet s1 s2 ∧ files_only s2 s3) →
    wp ((if nested then
           for_each (elements inputs) (record_dep inputs (zmk ZEq [cond; result]))
         else mret ()) ;; mark_flipped label) (λ _, constraints_hold inp)
      (λ _, constraints_hold inp) s3 ∧ constraints_hold inp s3) as Hend.
  { intros s3 Hs3.
    assert (rt_labels s3 = rt_labels s1 ∧ (∀ k, dep_at s3 k = dep_at s k) ∧
      ∀ x, x ∈ inputs → deps_room s3 x) as (Hlab & Hd3 & Hr3).
    { destruct Hs3 as [Hq|(s2 & Hq & ->)]; (split; [apply (quiet_same _ _ Hq)|]);
        (split; [intros k; rewrite <-Hdep; by apply (quiet_dep _ _ k) in Hq|]);
        intros x Hx; by apply (quiet_room _ _ x Hq), Hr. }
    split; [|by apply Hsame].
    apply solve_cond_end; [unfold rt_wf; by rewrite Hlab| |done|done|].
    - destruct Ho as (_ & Hlast & _). simpl in Hlast. by rewrite Hlab, Hlast.
    - intros eq s4 s' Heq Hs4 -> _.
      assert (constraints_hold inp s4) as H4; [|exact H4].
      destruct nested; [|subst s4; by apply Hsame].
      eapply constraints_recorded; [by apply Hsame| |exact Hs4].
      rewrite Heq, Hre. specialize (Hcond inp). rewrite Hinp in Hcond. injection Hcond as <-.
      by rewrite bool_decide_true. }
  apply wp_bind, wp_solve; [by rewrite Hsc|done|]. intros ne s2 Hq _.
  destruct (answer _ _ _) as [m|]; [|apply Hend; by left].
  eapply wp_mono; [apply generate_total|..].
  - intros [] s3 Hf. apply Hend. right. by exists s2.
  - intros ? s3 Hf. apply Hend. right. by exists s2.
Qed.
End cond.
End solving.

(** ** The branch counter and the size of generated files *)
Section counters.
Context {Zi : Z3} {Ops : LlvmOps}.

(** The counter of a branch in the current calling context. *)
Definition branch_count (s : rt) (addr : Z) : Z :=
  default 0 (rt_branches s !! (rt_callstack s, addr)).
Definition counts_ok (s : rt) : Prop :=
  ∀ k n, rt_branches s !! k = Some n → 1 ≤ n ≤ MAX_BRANCH_COUNT.

(** C32: each branch is solved at most [MAX_BRANCH_COUNT] times per calling
    context: the counters stay between 1 and 16; a visit below the bound
    increments its own counter only and lets the branch be solved, and at the
    bound [__taint_trace_cond] returns at once, changing nothing. *)
Theorem branch_count_spec s addr :
  counts_ok s →
  (branch_count s addr < MAX_BRANCH_COUNT →
     ∃ s', count_branch addr s = Ret true s' ∧ counts_ok s' ∧
       s' = set_branches (<[(rt_callstack s, addr) := branch_count s addr + 1]> (rt_branches s)) s) ∧
  (MAX_BRANCH_COUNT ≤ branch_count s addr →
     ∀ label r, taint_trace_cond label r addr s = Ret () s).
Proof.
  intros Hok. unfold branch_count. set (k := (rt_callstack s, addr)).
  assert (∀ n, 0 ≤ n < MAX_BRANCH_COUNT →
    counts_ok (set_branches (<[k := n + 1]> (rt_branches s)) s)) as Hins.
  { intros n Hn k' n'. simpl. rewrite lookup_insert. case_decide; [|apply Hok].
    intros [= <-]. unfold MAX_BRANCH_COUNT in *. lia. }
  unfold MAX_BRANCH_COUNT in *. destruct (rt_branches s !! k) as [n|] eqn:Hk; simpl.
  - pose proof (Hok _ _ Hk) as Hn. unfold MAX_BRANCH_COUNT in Hn. split.
    + intros Hlt. exists (set_branches (<[k := n + 1]> (rt_branches s)) s).
      split_and!; [|apply Hins; lia|done].
      unfold count_branch. rewrite !bind_gets. fold k. rewrite Hk.
      rewrite (proj2 (Z.ltb_lt _ _)) by (unfold MAX_BRANCH_COUNT; lia). rewrite bind_modify.
      unfold u16. by rewrite wrap_small by (unfold in_range; lia).
    + intros Hge label r. unfold taint_trace_cond. destruct (label =? 0); [done|].
      assert (count_branch addr s = Ret false s) as Hc.
      { unfold count_branch. rewrite !bind_gets. fold k. rewrite Hk.
        by rewrite (proj2 (Z.ltb_ge _ _)) by (unfold MAX_BRANCH_COUNT; lia). }
      by rewrite (bind_run _ _ _ _ _ Hc).
  - split; [|lia]. intros _. exists (set_branches (<[k := 0 + 1]> (rt_branches s)) s).
    split_and!; [|apply Hins; lia|done].
    unfold count_branch. rewrite !bind_gets. fold k. by rewrite Hk.
Qed.

Lemma for_each_app {A} (l1 l2 : list A) (f : A → M rt ()) s :
  for_each (l1 ++ l2) f s = (for_each l1 f ;; for_each l2 f) s.
Proof.
  revert s. induction l1 as [|x l1 IH]; intros s; [done|]. simpl. unfold mbind, M_bind.
  destruct (f x s) as [[] s'| |]; [|done..]. apply IH.
Qed.
Lemma write_fsize_throws fd n s : ∃ e s', write_const fd (SStr "fsize", n) s = Throw e s'.
Proof.
  unfold write_const. rewrite decide_True by done. destruct (_ || _); [by do 2 eexists|].
  rewrite bind_gets. destruct (_ <? n).
  - set (s1 := set_os (at_state (lseek_set fd n (rt_os s))) s).
    assert (on_os (lseek_set fd n) s = Ret () s1) as H1 by done.
    destruct (write_total fd (Some [0]) (rt_os s1)) as (a & o' & Hw).
    assert (on_os (WriteToFile fd (Some [0])) s1 = Ret a (set_os o' s1)) as H2
      by (unfold on_os, zoom; by rewrite Hw).
    do 2 eexists. erewrite bind_run; [done|].
    rewrite (bind_run _ _ _ _ _ H1), (bind_run _ _ _ _ _ H2). done.
  - by do 2 eexists.
Qed.

(** A model that also constrains the file size is only written up to the
    size: [generate_input] leaves its loop by an exception at the [fsize]
    constant, so the bytes the model assigns after it never reach the file. *)
Theorem generate_stops_at_fsize m1 n m2 s :
  generate_input (m1 ++ (SStr "fsize", n) :: m2) s = generate_input (m1 ++ [(SStr "fsize", n)]) s.
Proof.
  unfold generate_input. unfold mbind, M_bind. destruct (next_index s) as [i s1| |]; [|done..].
  destruct (gets rt_output s1) as [o s2| |]; [|done..].
  destruct (on_os (OpenFile_wr _) s2) as [fd s3| |]; [|done..].
  destruct (fd =? kInvalidFd); [done|]. destruct (gets rt_tainted s3) as [tf s4| |]; [|done..].
  match goal with |- match ?m with _ => _ end = _ => destruct m as [[] s5| |]; [|done..] end.
  rewrite !for_each_app. unfold mbind, M_bind.
  destruct (for_each m1 _ s5) as [[] s6| |]; [|done..]. cbn [for_each]. unfold mbind, M_bind.
  destruct (write_fsize_throws fd n s6) as (e & s7 & ->). done.
Qed.
End counters.

(** ** Witnesses *)

(** The input file is [1; 2]; label 3 is [x == 5] for its first byte. *)
Definition two_byte_file : taint_file := TaintFile "in" 3 0 0 0 2 0 0 (Some [1; 2]) 4096.
Definition cond_rt : @rt Ref.z3 :=
  set_branch_deps [None; None]
    (set_tainted two_byte_file
       (at_state (r_union 1 0 (bveq * 256 + op_ICmp) 8 0 5 (bytes_with ∅ ∅)))).
Lemma cond_rt_wf : rt_wf cond_rt.
Proof.
  pose proof (taint_union_cases _ ∅ 1 0 (bveq * 256 + op_ICmp) 8 0 5 (bytes_with_wf ∅ ∅)) as H.
  assert (taint_union 1 0 (bveq * 256 + op_ICmp) 8 0 5 (rt_labels (bytes_with ∅ ∅)) =
    Ret 3 (rt_labels cond_rt)) as Hr by by vm_compute.
  rewrite Hr in H. exact (proj1 H).
Qed.
Definition went_false : @expr Ref.z3 := Ref.T0 (ZBoolVal false).
Definition file_input : input := input_of_file [1; 2].

Lemma cond_rt_room e d s1 :
  serialize 3 ∅ cond_rt = Ret (e, d) s1 → ∀ x, x ∈ all_offsets cond_rt d → deps_room cond_rt x.
Proof.
  intros Hs. assert (snd <$> returned (serialize 3 ∅ cond_rt) = Some {[ 0 ]}) as Hd by by vm_compute.
  rewrite Hs in Hd. simpl in Hd. injection Hd as ->.
  assert (all_offsets cond_rt {[ 0 ]} = {[ 0 ]}) as -> by by vm_compute.
  intros x ->%elem_of_singleton. split; [done|left]. by vm_compute.
Qed.
Lemma cond_rt_can_write : can_write cond_rt [1; 2].
Proof. by split; vm_compute. Qed.
Lemma cond_rt_denote : denote (rt_labels cond_rt) (rt_mem cond_rt) file_input 3 = Some (VBool false).
Proof. by vm_compute. Qed.

Lemma input_closure_spec_witness :
  wp (input_closure {[ 0 ]})
    (λ r s', padded cond_rt s' ∧ ∀ x, x ∈ r ↔ ∃ y, y ∈ ({[ 0 ]} : gset Z) ∧ rtc (dep_edge cond_rt) y x)
    no_throw cond_rt.
Proof.
  apply input_closure_spec. assert (all_offsets cond_rt {[ 0 ]} = {[ 0 ]}) as -> by by vm_compute.
  intros x ->%elem_of_singleton. split; [done|left]. by vm_compute.
Defined.

Lemma generate_input_spec_witness :
  ∃ s' c, generate_input [(SInt 0, 5)] cond_rt = Ret () s' ∧
    s' = set_os (rt_os s') (set_output (rt_output s') cond_rt) ∧
    os_files (rt_os s') = <[next_path cond_rt := c]> (os_files (rt_os cond_rt)) ∧
    current_index (rt_output s') = u32 (current_index (rt_output cond_rt) + 1) ∧
    agrees (env_of (input_of_file c)) [(SInt 0, 5)] ∧
    ∀ k, 0 ≤ k → (∀ v, (SInt k, v) ∉ [(SInt 0, 5)]) →
      byte_at c k = byte_at (original cond_rt [1; 2]) k.
Proof.
  apply generate_input_spec.
  - exact cond_rt_can_write.
  - repeat constructor; done.
  - simpl. apply NoDup_singleton.
Defined.

Lemma solve_cond_flips_witness :
  ∃ s', solve_cond 3 went_false true cond_rt = Ret () s' ∧
    solved cond_rt 3 false [1; 2] s'.
Proof.
  apply (solve_cond_flips cond_rt 3 went_false false file_input [1; 2]).
  - exact cond_rt_wf.
  - apply no_caches_sound. by vm_compute.
  - by vm_compute.
  - by vm_compute.
  - exists false. exact cond_rt_denote.
  - reflexivity.
  - reflexivity.
  - exact cond_rt_room.
  - exact cond_rt_can_write.
Defined.

Lemma solve_cond_constraints_witness :
  ∃ s', solve_cond 3 went_false true cond_rt = Ret () s' ∧
    constraints_hold file_input s'.
Proof.
  apply (solve_cond_constraints cond_rt 3 went_false false file_input).
  - exact cond_rt_wf.
  - apply no_caches_sound. by vm_compute.
  - by vm_compute.
  - by vm_compute.
  - exists false. exact cond_rt_denote.
  - reflexivity.
  - reflexivity.
  - exact cond_rt_room.
  - exact cond_rt_denote.
  - intros off d e Hoff Hd. exfalso. unfold dep_at in Hd. simpl in Hd.
    destruct (Z.to_nat off) as [|[|n]]; done.
Defined.

(** The run of the solver on this state: the new input is [5; 2]. *)
Example solve_cond_example :
  os_files (rt_os (at_state (taint_trace_cond 3 0 0x400123 cond_rt))) !! "./id-0-0-0" = Some [5; 2].
Proof. by vm_compute. Qed.

(** Growing the file overshoots: for a solved size of 5 the generated file
    has 6 bytes, because a byte is written at offset 5. *)
Theorem generate_grows_too_far :
  (length <$> os_files (rt_os (at_state (generate_input [(SStr "fsize", 5)] cond_rt)))
     !! next_path cond_rt) = Some 6%nat.
Proof. by vm_compute. Qed.

Lemma branch_count_spec_witness :
  (branch_count cond_rt 7 < MAX_BRANCH_COUNT →
     ∃ s', count_branch 7 cond_rt = Ret true s' ∧ counts_ok s' ∧
       s' = set_branches (<[(rt_callstack cond_rt, 7) := branch_count cond_rt 7 + 1]>
              (rt_branches cond_rt)) cond_rt) ∧
  (MAX_BRANCH_COUNT ≤ branch_count cond_rt 7 →
     ∀ label r, taint_trace_cond label r 7 cond_rt = Ret () cond_rt).
Proof.
  apply branch_count_spec. intros k n H.
  change (rt_branches cond_rt) with (∅ : gmap (Z * Z) Z) in H. by rewrite lookup_empty in H.
Defined.
