(* ===== verification/FlagParser.v ===== *)
(** * Options ([sanitizer_flag_parser.cc], [sanitizer_flags.cc], [dfsan_flags.inc])

    The [TAINT_OPTIONS] string is a sequence of [name=value] settings separated
    by blanks, commas or colons, with optional quotes. The parser runs the
    handler registered for each name; the variables a handler writes (the fields
    of [CommonFlags] and [Flags]) are kept by field name. The unread suffix
    [buf_ + pos_] is the state of the scanner; the end of the string stands for
    its NUL. *)
From stdpp Require Import pretty.
From Stdlib Require Import Ascii.
From S2P Require Import Prelude Labels UnionTable Union Z3 State.

(** The template instances of [FlagHandler], and [FlagHandlerInclude]. *)
Inductive flag_kind := KBool | KStr | KInt | KUptr | KSignal | KInclude (ignore_missing : bool).
Inductive flag_val := VBool (b : bool) | VStr (s : string) | VInt (z : Z) | VUptr (z : Z)
  | VSignal (mode : Z).

(** The variables handlers write, and [UnknownFlags]. *)
Record fstate := FState {
  fs_vars : gmap string flag_val;
  fs_unknown : list string;
}.
Definition set_var (n : string) (v : flag_val) (s : fstate) : fstate :=
  FState (<[n := v]> (fs_vars s)) (fs_unknown s).

(** ** Scanning *)
Definition code (c : ascii) : Z := Z.of_nat (nat_of_ascii c).
Definition quote1 : ascii := "'".
Definition quote2 : ascii := ascii_of_nat 34.

Definition is_space (c : ascii) : bool :=
  existsb (Z.eqb (code c)) [32 (* blank *); 44 (* , *); 58 (* : *); 10; 9; 13].

(** [while (p(buf_[pos_])) ++pos_]: the text passed and the rest. *)
Fixpoint scan (p : ascii → bool) (s : string) : string * string :=
  match s with
  | EmptyString => (EmptyString, EmptyString)
  | String c s' => if p c then let '(a, b) := scan p s' in (String c a, b) else (EmptyString, s)
  end.
Definition skip_whitespace (s : string) : string := (scan is_space s).2.

(** ** Values *)
Definition ParseBool (value : string) : option bool :=
  if String.eqb value "0" || String.eqb value "no" || String.eqb value "false" then Some false
  else if String.eqb value "1" || String.eqb value "yes" || String.eqb value "true" then Some true
  else None.

Definition IsSpace (c : Z) : bool := existsb (Z.eqb c) [32; 10; 9; 12; 13; 11].
Definition IsDigit (c : Z) : bool := (48 <=? c) && (c <=? 57).
Definition UINT64_MAX : Z := 2 ^ 64 - 1.
Definition INT64_MAX : Z := 2 ^ 63 - 1.
Definition INT64_MIN : Z := - 2 ^ 63.

(** The digit loop of [internal_simple_strtoll]: it saturates. *)
Fixpoint strtoll_digits (s : string) (res : Z) (have_digits : bool) : Z * bool * string :=
  match s with
  | EmptyString => (res, have_digits, s)
  | String c s' =>
      if IsDigit (code c) then
        let res := if res <=? UINT64_MAX / 10 then res * 10 else UINT64_MAX in
        let digit := code c - 48 in
        let res := if res <=? UINT64_MAX - digit then res + digit else UINT64_MAX in
        strtoll_digits s' res true
      else (res, have_digits, s)
  end.
(** [internal_simple_strtoll(nptr, &end, 10)]: the value and the text at [end]. *)
Definition internal_simple_strtoll (nptr : string) : Z * string :=
  let nptr := (scan (λ c, IsSpace (code c)) nptr).2 in
  let old_nptr := nptr in
  let '(sgn, nptr) :=
    match nptr with
    | String c s' => if code c =? 43 then (1, s') else if code c =? 45 then (-1, s') else (1, nptr)
    | EmptyString => (1, nptr)
    end in
  let '(res, have_digits, nptr) := strtoll_digits nptr 0 false in
  let endptr := if have_digits : bool then nptr else old_nptr in
  (if 0 <? sgn then Z.min INT64_MAX res
   else if INT64_MAX <? res then INT64_MIN else - res, endptr).

(** [FlagHandler<T>::Parse]: the value stored, and whether the text was valid
    (the integer handlers store before they check). *)
Definition parse_int (value : string) : Z * bool :=
  let '(v, e) := internal_simple_strtoll value in (v, String.eqb e "").
Definition handler_parse (k : flag_kind) (n value : string) : M fstate bool :=
  match k with
  | KBool =>
      match ParseBool value with
      | Some b => modify (set_var n (VBool b)) ;; mret true
      | None => mret false
      end
  | KSignal =>
      match ParseBool value with
      | Some b => modify (set_var n (VSignal (if b then 1 else 0))) ;; mret true
      | None =>
          if String.eqb value "2" || String.eqb value "exclusive"
          then modify (set_var n (VSignal 2)) ;; mret true
          else mret false
      end
  | KStr => modify (set_var n (VStr value)) ;; mret true
  | KInt => modify (set_var n (VInt (s32 (parse_int value).1))) ;; mret (parse_int value).2
  | KUptr => modify (set_var n (VUptr (u64 (parse_int value).1))) ;; mret (parse_int value).2
  | KInclude _ => mret false
  end.

(** ** Registered flags *)
Definition common_flags : list (string * flag_kind) :=
  [
    ("symbolize", KBool); ("external_symbolizer_path", KStr); ("allow_addr2line", KBool);
    ("strip_path_prefix", KStr); ("fast_unwind_on_check", KBool);
    ("fast_unwind_on_fatal", KBool); ("fast_unwind_on_malloc", KBool); ("handle_ioctl", KBool);
    ("malloc_context_size", KInt); ("log_path", KStr); ("log_exe_name", KBool);
    ("log_to_syslog", KBool); ("verbosity", KInt); ("strip_env", KBool);
    ("detect_leaks", KBool); ("leak_check_at_exit", KBool);
    ("allocator_may_return_null", KBool); ("print_summary", KBool); ("print_module_map", KInt);
    ("check_printf", KBool); ("handle_segv", KSignal); ("handle_sigbus", KSignal);
    ("handle_abort", KSignal); ("handle_sigill", KSignal); ("handle_sigtrap", KSignal);
    ("handle_sigfpe", KSignal); ("allow_user_segv_handler", KBool); ("use_sigaltstack", KBool);
    ("detect_deadlocks", KBool); ("clear_shadow_mmap_threshold", KUptr); ("color", KStr);
    ("legacy_pthread_cond", KBool); ("intercept_tls_get_addr", KBool); ("help", KBool);
    ("mmap_limit_mb", KUptr); ("hard_rss_limit_mb", KUptr); ("soft_rss_limit_mb", KUptr);
    ("heap_profile", KBool); ("allocator_release_to_os_interval_ms", KInt);
    ("can_use_proc_maps_statm", KBool); ("coverage", KBool); ("coverage_dir", KStr);
    ("full_address_space", KBool); ("print_suppressions", KBool); ("disable_coredump", KBool);
    ("use_madv_dontdump", KBool); ("symbolize_inline_frames", KBool);
    ("symbolize_vs_style", KBool); ("dedup_token_length", KInt); ("stack_trace_format", KStr);
    ("no_huge_pages_for_shadow", KBool); ("strict_string_checks", KBool);
    ("intercept_strstr", KBool); ("intercept_strspn", KBool); ("intercept_strtok", KBool);
    ("intercept_strpbrk", KBool); ("intercept_strlen", KBool); ("intercept_strndup", KBool);
    ("intercept_strchr", KBool); ("intercept_memcmp", KBool); ("strict_memcmp", KBool);
    ("intercept_memmem", KBool); ("intercept_intrin", KBool); ("intercept_stat", KBool);
    ("intercept_send", KBool); ("decorate_proc_maps", KBool); ("exitcode", KInt);
    ("abort_on_error", KBool); ("suppress_equal_pcs", KBool); ("print_cmdline", KBool);
    ("html_cov_report", KBool); ("sancov_path", KStr); ("dump_instruction_bytes", KBool);
    ("dump_registers", KBool); ("detect_write_exec", KBool)
  ].
Definition include_flags : list (string * flag_kind) :=
  [("include", KInclude false); ("include_if_exists", KInclude true)].
Definition dfsan_flags : list (string * flag_kind) :=
  [("warn_unimplemented", KBool); ("warn_nonzero_labels", KBool);
   ("strict_data_dependencies", KBool); ("dump_labels_at_exit", KStr); ("taint_file", KStr);
   ("union_table", KStr); ("output_dir", KStr); ("instance_id", KInt); ("session_id", KInt);
   ("debug", KBool)].
(** The handlers in the order [InitializeFlags] registers them. *)
Definition registered : list (string * flag_kind) := common_flags ++ include_flags ++ dfsan_flags.

(** [UnknownFlags::Add] *)
Definition kMaxUnknownFlags : nat := 20.
Definition unknown_flags_add (n : string) : M fstate () :=
  s ← get;
  if Nat.ltb (length (fs_unknown s)) kMaxUnknownFlags
  then put (FState (fs_vars s) (fs_unknown s ++ [n]))
  else die "CHECK_LT(n_unknown_flags_, kMaxUnknownFlags)".

Fixpoint find_flag (flags : list (string * flag_kind)) (n : string) : option flag_kind :=
  match flags with
  | [] => None
  | (m, k) :: flags => if String.eqb n m then Some k else find_flag flags n
  end.

Definition kMaxPathLength : nat := 4096.

Section parser.
(** What the handlers of [include] read: [ReadFileToBuffer], the process name
    and the process id; and the flags registered with the parser. *)
Variable read_file : string → option string.
Variable process_name : string.
Variable pid : Z.
Variable flags : list (string * flag_kind).

(** [SubstituteForFlagValue]: a copy that fills the buffer fails the final
    [CHECK]. *)
Fixpoint substitute (s : string) : string :=
  match s with
  | String "%" (String "b" s') => process_name +:+ substitute s'
  | String "%" (String "p" s') => pretty pid +:+ substitute s'
  | String c s' => String c (substitute s')
  | EmptyString => EmptyString
  end.
Definition SubstituteForFlagValue (s : string) : M fstate string :=
  let out := substitute s in
  if Nat.ltb (String.length out) (kMaxPathLength - 1) then mret out
  else die "CHECK(out < out_end - 1)".

Section run.
(** [ParseString], for the files an [include] names *)
Variable ParseString_rec : string → M fstate ().

Definition ParseFile (path : string) (ignore_missing : bool) : M fstate bool :=
  match read_file path with
  | None => mret ignore_missing
  | Some data => ParseString_rec data ;; mret true
  end.

Definition run_handler (n value : string) : M fstate bool :=
  match find_flag flags n with
  | Some (KInclude ignore_missing) =>
      path ← (if existsb (λ c, code c =? 37) (String.list_ascii_of_string value)
              then SubstituteForFlagValue value else mret value);
      ParseFile path ignore_missing
  | Some k => handler_parse k n value
  | None => unknown_flags_add n ;; mret true
  end.

(** [parse_flag]: returns the unread text. *)
Definition parse_flag (s : string) : M fstate string :=
  let '(n, s) := scan (λ c, negb (Ascii.eqb c "=") && negb (is_space c)) s in
  match s with
  | String "=" s =>
      '(value, s) ← (match s with
        | String q s' =>
            if Ascii.eqb q quote1 || Ascii.eqb q quote2 then
              let '(value, rest) := scan (λ c, negb (Ascii.eqb c q)) s' in
              match rest with
              | EmptyString => die "unterminated string"
              | String _ rest => mret (value, rest)
              end
            else mret (scan (λ c, negb (is_space c)) s)
        | EmptyString => mret (EmptyString, EmptyString)
        end : M fstate (string * string));
      res ← run_handler n value;
      if (res : bool) then mret s else die "Flag parsing failed."
  | _ => die "expected '='"
  end.

Fixpoint parse_flags_fuel (fuel : nat) (s : string) : M fstate () :=
  match skip_whitespace s with
  | EmptyString => mret ()
  | s' =>
      match fuel with
      | O => out_of_fuel
      | S fuel => rest ← parse_flag s'; parse_flags_fuel fuel rest
      end
  end.
(** [parse_flags]: each setting takes at least its [=], so the length of the
    text bounds the rounds. *)
Definition parse_flags (s : string) : M fstate () :=
  parse_flags_fuel (String.length s) s ;;
  modify (λ st,
    match fs_vars st !! "malloc_context_size" with
    | Some (VInt z) =>
        if z <? 1 then set_var "malloc_context_size" (VInt 1) st else st
    | _ => st
    end).
End run.

(** [FlagParser::ParseString]; [depth] bounds the nesting of [include]s. *)
Fixpoint ParseString (depth : nat) (s : string) : M fstate () :=
  match depth with
  | O => out_of_fuel
  | S depth => parse_flags (ParseString depth) s
  end.
End parser.

(** ** Scanning lemmas *)
Fixpoint str_all (p : ascii → bool) (s : string) : bool :=
  match s with EmptyString => true | String c s => p c && str_all p s end.
(** [s] does not start with a character that satisfies [p]. *)
Definition stops (p : ascii → bool) (s : string) : bool :=
  match s with EmptyString => true | String c _ => negb (p c) end.

Lemma scan_app p a b : str_all p a = true → stops p b = true → scan p (a +:+ b) = (a, b).
Proof.
  intros Ha Hb. induction a as [|c a IH]; simpl in *.
  - destruct b as [|c b]; [done|]. simpl in *. by destruct (p c).
  - apply andb_prop in Ha as [-> Ha]. by rewrite (IH Ha).
Qed.
Lemma scan_length p s : (String.length (scan p s).2 ≤ String.length s)%nat.
Proof.
  induction s as [|c s IH]; simpl; [done|]. destruct (p c); simpl; [|done].
  destruct (scan p s); simpl in *. lia.
Qed.
Lemma string_app_assoc (a b c : string) : (a +:+ b) +:+ c = a +:+ (b +:+ c).
Proof. induction a as [|x a IH]; [done|]. exact (f_equal (String x) IH). Qed.

Lemma string_cons_app c (a b : string) : String c a +:+ b = String c (a +:+ b).
Proof. done. Qed.

(** ** Printing settings

    A setting is a name, the quote around its value, if any, and the value. *)
Record setting := Setting { st_name : string; st_quote : option ascii; st_value : string }.
Definition name_char (c : ascii) : bool := negb (Ascii.eqb c "=") && negb (is_space c).
Definition is_quote (c : ascii) : bool := Ascii.eqb c quote1 || Ascii.eqb c quote2.
Definition print_setting (o : setting) : string :=
  st_name o +:+ String "=" (
  match st_quote o with
  | None => st_value o
  | Some q => String q (st_value o +:+ String q "")
  end).
Definition print_settings (os : list setting) : string :=
  foldr (λ o s, print_setting o +:+ String ":" s) "" os.
(** What can be written: names without [=] and separators; bare values without
    separators and leading quote; quoted values without their quote. *)
Definition printable (o : setting) : bool :=
  str_all name_char (st_name o) &&
  (match st_name o with EmptyString => true | String c _ => negb (is_space c) end) &&
  match st_quote o with
  | None => str_all (λ c, negb (is_space c)) (st_value o) && stops is_quote (st_value o)
  | Some q => is_quote q && str_all (λ c, negb (Ascii.eqb c q)) (st_value o)
  end.

Section parser_spec.
Variable read_file : string → option string.
Variable process_name : string.
Variable pid : Z.
Variable flags : list (string * flag_kind).
Variable rec : string → M fstate ().
Local Abbreviation run := (run_handler read_file process_name pid flags rec).
Local Abbreviation parse1 := (parse_flag read_file process_name pid flags rec).
Local Abbreviation parse := (parse_flags read_file process_name pid flags rec).

(** What one setting does. *)
Definition apply_setting (o : setting) : M fstate () :=
  res ← run (st_name o) (st_value o);
  if (res : bool) then mret () else die "Flag parsing failed.".

Lemma parse_flag_print o s st :
  printable o = true →
  parse1 (print_setting o +:+ String ":" s) st =
  (apply_setting o ;; mret (String ":" s)) st.
Proof.
  unfold printable, print_setting. rewrite !andb_true_iff. intros [[Hn _] Hv].
  unfold parse_flag. rewrite string_app_assoc, scan_app by done.
  rewrite string_cons_app. cbv beta iota.
  unfold apply_setting. destruct o as [n [q|] v]; cbn [st_name st_quote st_value] in *.
  - apply andb_prop in Hv as [Hq Hv]. unfold is_quote in Hq.
    rewrite string_cons_app. cbv beta iota. rewrite Hq.
    rewrite string_app_assoc, scan_app; [|done|rewrite string_cons_app; unfold stops; by rewrite Ascii.eqb_refl].
    rewrite string_cons_app. unfold mbind, M_bind, mret, M_ret. by destruct (run n v st) as [[] ?| |].
  - apply andb_prop in Hv as [Hv Hq].
    destruct v as [|c v].
    { change ("" +:+ String ":" s) with (String ":" s). cbv beta iota.
      change (Ascii.eqb ":" quote1 || Ascii.eqb ":" quote2) with false. cbv iota.
      change (scan (λ c, negb (is_space c)) (String ":" s)) with ("", String ":" s).
      unfold mbind, M_bind, mret, M_ret. by destruct (run n "" st) as [[] ?| |]. }
    rewrite string_cons_app. cbv beta iota. simpl in Hq. apply negb_true_iff in Hq.
    unfold is_quote in Hq. rewrite Hq, <- string_cons_app, scan_app by done.
    unfold mbind, M_bind, mret, M_ret. by destruct (run n _ st) as [[] ?| |].
Qed.

Lemma skip_print o s :
  printable o = true → skip_whitespace (print_setting o +:+ s) = print_setting o +:+ s.
Proof.
  unfold printable. rewrite !andb_true_iff. intros [[_ Hn] _].
  unfold skip_whitespace, print_setting. destruct (st_name o) as [|c n]; [done|].
  rewrite !string_cons_app. cbn [scan]. apply negb_true_iff in Hn. by rewrite Hn.
Qed.

Lemma skip_colon s : skip_whitespace (String ":" s) = skip_whitespace s.
Proof. unfold skip_whitespace. cbn [scan]. change (is_space ":") with true. by destruct (scan is_space s). Qed.

Lemma parse_fuel_print os fuel st :
  forallb printable os = true → (length os ≤ fuel)%nat →
  parse_flags_fuel read_file process_name pid flags rec fuel (print_settings os) st =
  for_each os apply_setting st.
Proof.
  revert fuel st. induction os as [|o os IH]; intros fuel st Hp Hf; [by destruct fuel|].
  simpl in Hp. apply andb_prop in Hp as [Ho Hp]. simpl in Hf.
  destruct fuel as [|fuel]; [lia|].
  cbn [print_settings foldr]. cbn [parse_flags_fuel]. rewrite skip_print by done.
  assert (∃ c r, print_setting o +:+ String ":" (print_settings os) = String c r) as (c & r & E).
  { unfold print_setting. destruct (st_name o); eauto. }
  fold (print_settings os). rewrite E, <- E. cbn [for_each].
  unfold mbind, M_bind. rewrite parse_flag_print by done.
  unfold mbind, M_bind, mret, M_ret. destruct (apply_setting o st) as [? st'| |]; [|done|done].
  rewrite <- (IH fuel st' Hp) by lia.
  by destruct fuel; cbn [parse_flags_fuel]; rewrite skip_colon.
Qed.

Lemma print_length os : (length os ≤ String.length (print_settings os))%nat.
Proof.
  assert (∀ a b : string, String.length (a +:+ b) = (String.length a + String.length b)%nat)
    as Happ by (induction a as [|c a IHa]; intros b; [done|]; exact (f_equal S (IHa b))).
  induction os as [|o os IH]; [done|]. cbn [print_settings foldr length].
  fold (print_settings os). rewrite Happ. simpl. lia.
Qed.

(** C37: Parsing is the inverse of printing. For settings that can be written,
    [parse_flags] on their printed form runs exactly the handlers of the
    settings, in order, each with the printed name and value, quoted or not,
    and dies as soon as one refuses its value; the check of
    [malloc_context_size] follows. *)
Theorem parse_print_settings os st :
  forallb printable os = true →
  parse (print_settings os) st =
  (for_each os apply_setting ;;
   modify (λ st,
     match fs_vars st !! "malloc_context_size" with
     | Some (VInt z) => if z <? 1 then set_var "malloc_context_size" (VInt 1) st else st
     | _ => st
     end)) st.
Proof.
  intros Hp. unfold parse_flags, mbind, M_bind.
  by rewrite parse_fuel_print by (done || apply print_length).
Qed.
End parser_spec.

(** ** The parser always finishes *)
Section stuck.
(** Every outcome but running out of rounds. *)
Definition never_stuck {A} (m : M fstate A) : Prop := ∀ s s', m s ≠ Halt HFuel s'.

Lemma stuck_bind {A B} (m : M fstate A) (f : A → M fstate B) :
  never_stuck m → (∀ a, never_stuck (f a)) → never_stuck (m ≫= f).
Proof.
  intros Hm Hf s s'. unfold mbind, M_bind. specialize (Hm s).
  destruct (m s) as [a t|e t|h t]; [apply Hf|done|]. intros [= -> ->]. by eapply Hm.
Qed.
Lemma stuck_ret {A} (a : A) : never_stuck (mret a).
Proof. done. Qed.
Lemma stuck_die {A} e : never_stuck (A:=A) (die e).
Proof. done. Qed.
Lemma stuck_modify f : never_stuck (modify f).
Proof. done. Qed.
End stuck.
#[export] Hint Resolve stuck_bind stuck_ret stuck_die stuck_modify : rt.

Section parser_total.
Variable read_file : string → option string.
Variable process_name : string.
Variable pid : Z.
Variable flags : list (string * flag_kind).
Variable rec : string → M fstate ().

Lemma run_handler_finishes n v :
  (∀ s, never_stuck (rec s)) →
  never_stuck (run_handler read_file process_name pid flags rec n v).
Proof.
  intros Hrec. unfold run_handler. destruct (find_flag flags n) as [k|].
  2:{ apply stuck_bind; [|done]. intros s s'. unfold unknown_flags_add, get, mbind, M_bind.
      by destruct (Nat.ltb _ _). }
  destruct k; try by (intros s s'; unfold handler_parse; repeat case_match).
  apply stuck_bind.
  - destruct (existsb _ _); [|done]. intros s s'. unfold SubstituteForFlagValue.
    by destruct (Nat.ltb _ _).
  - intros path. unfold ParseFile. destruct (read_file path); [|done].
    by apply stuck_bind.
Qed.

(** One setting consumes at least its [=]. *)
Lemma parse_flag_shorter s st rest st' :
  parse_flag read_file process_name pid flags rec s st = Ret rest st' →
  (String.length rest < String.length s)%nat.
Proof.
  unfold parse_flag. pose proof (scan_length (λ c, negb (Ascii.eqb c "=") && negb (is_space c)) s)
    as Hl. destruct (scan _ s) as [n s1]. simpl in Hl. destruct s1 as [|c s1]; [done|].
  simpl in Hl. intros H.
  enough (String.length rest ≤ String.length s1)%nat by lia.
  revert H. destruct c as [[] [] [] [] [] [] [] []]; try done.
  set (b := match s1 with EmptyString => _ | _ => _ end).
  assert (∀ st v r st'', b st = Ret (v, r) st'' → (String.length r ≤ String.length s1)%nat) as Hb.
  { intros st0 v r st''. unfold b. destruct s1 as [|q s2]; [by intros [= <- <- <-]|].
    destruct (_ || _).
    - pose proof (scan_length (λ c, negb (Ascii.eqb c q)) s2) as Hq.
      destruct (scan _ s2) as [v' [|c' r']]; [done|]. simpl in Hq. intros [= <- <- <-]. simpl. lia.
    - pose proof (scan_length (λ c, negb (is_space c)) (String q s2)) as Hq.
      destruct (scan _ _) as [v' r']. by intros [= <- <- <-]. }
  unfold mbind, M_bind. destruct (b st) as [[v r] st1| |] eqn:Eb; [|done|done].
  destruct (run_handler _ _ _ _ _ _ _ _) as [[] st2| |]; [|done|done|done].
  intros [= <- <-]. by eapply Hb.
Qed.

Lemma parse_flag_finishes s :
  (∀ s, never_stuck (rec s)) →
  never_stuck (parse_flag read_file process_name pid flags rec s).
Proof.
  intros Hrec. unfold parse_flag. destruct (scan _ s) as [n s1].
  destruct s1 as [|c s1]; [done|]. destruct c as [[] [] [] [] [] [] [] []]; try done.
  apply stuck_bind.
  - destruct s1 as [|q s2]; [done|]. destruct (_ || _); [|done].
    by destruct (scan _ s2) as [v' [|c' r']].
  - intros [v r]. apply stuck_bind; [by apply run_handler_finishes|]. by intros [].
Qed.

(** C38: The parser never loops: whatever the text, the length of the text
    bounds the rounds of [parse_flags], provided the files read through
    [include] are themselves parsed in finite time. *)
Theorem parse_flags_finishes s st st' :
  (∀ s, never_stuck (rec s)) →
  parse_flags read_file process_name pid flags rec s st ≠ Halt HFuel st'.
Proof.
  intros Hrec. unfold parse_flags. apply stuck_bind; [|done]. clear st st'.
  assert (∀ fuel s, (String.length s ≤ fuel)%nat →
    never_stuck (parse_flags_fuel read_file process_name pid flags rec fuel s)) as H;
    [|by apply H].
  induction fuel as [|fuel IH]; intros t Ht st st'; cbn [parse_flags_fuel];
    pose proof (scan_length is_space t) as Hs; unfold skip_whitespace;
    destruct (scan is_space t).2 as [|c r]; try done; simpl in Hs; [lia|].
  unfold mbind, M_bind. destruct (parse_flag _ _ _ _ _ _ st) as [rest st1| |h st1] eqn:E; [|done|].
  - apply parse_flag_shorter in E. apply IH. simpl in E. lia.
  - intros [= -> ->]. by eapply parse_flag_finishes.
Qed.
End parser_total.
