(* ===== verification/Init.v ===== *)
(** * Start-up, the taint source and shutdown ([dfsan.cc])

    [dfsan_init] runs from [.preinit_array]: it parses the options, maps the
    memories, labels the bytes of the input and sets the output directory; the
    constructors of the static objects ([__union_table], [__z3_solver]) run
    after it. The functions of the taint source tell the wrappers of the C
    library which descriptor is the input. *)
From stdpp Require Import pretty.
From S2P Require Import Prelude Platform Labels Allocator UnionTable Union Z3 State Files FlagParser Solver.

(** What the process finds at start-up: [realpath] (its result, and the text
    it leaves in its buffer), the contents of descriptor 0 when [fstat] accepts
    it, whether the kernel grants the mappings, [TAINT_OPTIONS], the name and id
    of the process and [__AFL_SHM_ID]. *)
Class Env := {
  env_realpath : string → bool * string;
  env_stdin : option (list Z);
  env_mmap_ok : bool;
  env_options : option string;
  env_process_name : string;
  env_pid : Z;
  env_shm_id : option Z;
}.

Section init.
Context {Zi : Z3} {Ops : LlvmOps} {En : Env}.

(** ** Options *)

(** [Flags::SetDefaults] *)
Definition SetDefaults : gmap string flag_val :=
  list_to_map
    [("warn_unimplemented", VBool true); ("warn_nonzero_labels", VBool false);
     ("strict_data_dependencies", VBool true); ("dump_labels_at_exit", VStr "");
     ("taint_file", VStr ""); ("union_table", VStr "union.txt"); ("output_dir", VStr ".");
     ("instance_id", VInt 0); ("session_id", VInt 0); ("debug", VBool false)]%string.

Definition get_bool (m : gmap string flag_val) (n : string) : bool :=
  match m !! n with Some (VBool b) => b | _ => false end.
Definition get_str (m : gmap string flag_val) (n : string) : string :=
  match m !! n with Some (VStr s) => s | _ => ""%string end.
Definition get_int (m : gmap string flag_val) (n : string) : Z :=
  match m !! n with Some (VInt z) => z | _ => 0 end.
(** The fields of [Flags] among the variables. *)
Definition flags_of (m : gmap string flag_val) : Flags :=
  MkFlags (get_bool m "warn_unimplemented") (get_bool m "warn_nonzero_labels")
    (get_bool m "strict_data_dependencies") (get_str m "dump_labels_at_exit")
    (get_str m "taint_file") (get_str m "union_table") (get_str m "output_dir")
    (get_int m "instance_id") (get_int m "session_id") (get_bool m "debug").

(** [ReadFileToBuffer] for [include]: at most 32768 bytes, up to a NUL. *)
Definition kMaxIncludeSize : nat := Z.to_nat 32768.
Fixpoint string_of_bytes (bs : list Z) : string :=
  match bs with
  | [] => EmptyString
  | b :: bs =>
      if b =? 0 then EmptyString
      else String (Ascii.ascii_of_nat (Z.to_nat b)) (string_of_bytes bs)
  end.
Definition read_options (o : os) (path : string) : option string :=
  if decide (path ∈ os_denied o) then None
  else string_of_bytes <$> (take kMaxIncludeSize <$> os_files o !! path).

(** [InitializeFlags]; [include]s nested deeper than the bound are refused. *)
Definition include_depth : nat := 64.
Definition InitializeFlags : M rt () := λ s,
  match env_options with
  | None => Ret () (set_flags_st (flags_of SetDefaults) s)
  | Some text =>
      match ParseString (read_options (rt_os s)) env_process_name env_pid registered include_depth
              text (FState SetDefaults []) with
      | Ret _ fs => Ret () (set_flags_st (flags_of (fs_vars fs)) s)
      | Throw e fs => Throw e (set_flags_st (flags_of (fs_vars fs)) s)
      | Halt h fs => Halt h (set_flags_st (flags_of (fs_vars fs)) s)
      end
  end.

(** On x86_64 the address-space size is fixed, so nothing is checked. *)
Definition InitializePlatformEarly : M rt () := mret ().

(** ** Mapping the input *)
Definition PageSize : Z := 4096.
Definition RoundUpTo (size boundary : Z) : Z :=
  Z.land (u64 (size + boundary - 1)) (Z.lnot (boundary - 1)).

(** [internal_mmap] of a file: an empty range is refused (EINVAL); the last
    page is filled with zeroes. *)
Definition map_bytes (c : list Z) (size : Z) : option (list Z) :=
  if env_mmap_ok && (0 <? size)
  then Some (c ++ replicate (Z.to_nat size - length c) 0) else None.

Definition OpenFile_rd (path : string) : M os Z :=
  o ← get;
  if decide (path ∈ os_denied o) then mret kInvalidFd else
  match os_files o !! path with
  | None => mret kInvalidFd
  | Some _ =>
      let fd := os_next_fd o in
      put (Os (os_files o) (<[fd := (path, 0)]> (os_fds o)) (fd + 1) (os_denied o)
             (os_write_ok o)) ;;
      mret fd
  end.

(** [MapFileToMemory]: the mapping and its size; the descriptor stays open. *)
Definition MapFileToMemory (file_name : string) : M os (option (list Z) * Z) :=
  fd ← OpenFile_rd file_name;
  if fd =? kInvalidFd then die "CHECK(fd != kInvalidFd)" else
  o ← get;
  let c := default [] (os_files o !! file_name) in
  let fsize := Z.of_nat (length c) in
  if fsize =? 0 then die "CHECK_GT(fsize, 0)" else
  let buff_size := RoundUpTo fsize PageSize in
  mret (map_bytes c buff_size, buff_size).

Definition upd_tainted (f : taint_file → taint_file) : M rt () :=
  modify (λ s, set_tainted (f (rt_tainted s)) s).
Definition with_fd (fd : Z) (t : taint_file) : taint_file :=
  TaintFile (tf_filename t) fd (tf_offset t) (tf_offset_label t) (tf_label t) (tf_size t)
    (tf_is_stdin t) (tf_is_utmp t) (tf_buf t) (tf_buf_size t).
Definition with_filename (f : string) (t : taint_file) : taint_file :=
  TaintFile f (tf_fd t) (tf_offset t) (tf_offset_label t) (tf_label t) (tf_size t)
    (tf_is_stdin t) (tf_is_utmp t) (tf_buf t) (tf_buf_size t).
Definition with_size (n is_stdin : Z) (t : taint_file) : taint_file :=
  TaintFile (tf_filename t) (tf_fd t) (tf_offset t) (tf_offset_label t) (tf_label t) n
    is_stdin (tf_is_utmp t) (tf_buf t) (tf_buf_size t).
Definition with_buf (b : option (list Z)) (n : Z) (t : taint_file) : taint_file :=
  TaintFile (tf_filename t) (tf_fd t) (tf_offset t) (tf_offset_label t) (tf_label t) (tf_size t)
    (tf_is_stdin t) (tf_is_utmp t) b n.
Definition with_utmp (v : Z) (t : taint_file) : taint_file :=
  TaintFile (tf_filename t) (tf_fd t) (tf_offset t) (tf_offset_label t) (tf_label t) (tf_size t)
    (tf_is_stdin t) v (tf_buf t) (tf_buf_size t).
Definition with_offset (v : Z) (t : taint_file) : taint_file :=
  TaintFile (tf_filename t) (tf_fd t) v (tf_offset_label t) (tf_label t) (tf_size t)
    (tf_is_stdin t) (tf_is_utmp t) (tf_buf t) (tf_buf_size t).
Definition with_offset_label (v : Z) (t : taint_file) : taint_file :=
  TaintFile (tf_filename t) (tf_fd t) (tf_offset t) v (tf_label t) (tf_size t)
    (tf_is_stdin t) (tf_is_utmp t) (tf_buf t) (tf_buf_size t).

(** A label per input byte. *)
Definition label_input (i : Z) : M rt () :=
  label ← on_labels (dfsan_create_label i);
  on_labels (dfsan_check_label label).

(** The end of [InitializeTaintFile]: labels for the bytes of a file, and the
    branch dependencies. *)
Definition label_inputs : M rt () :=
  tf ← gets rt_tainted;
  (if negb (tf_fd tf =? -1) && (tf_is_stdin tf =? 0)
   then for_each (range 0 (tf_size tf)) label_input else mret ()) ;;
  modify (set_branch_deps (replicate (Z.to_nat (tf_size tf)) None)).

(** [InitializeTaintFile]; the three cases of the option. *)
Definition InitializeTaintFile : M rt () :=
  for_each (range 1 CONST_OFFSET) (λ i,
    label ← on_labels (dfsan_create_label i); assert_ "label == i" (label =? i)) ;;
  filename ← gets (λ s, fl_taint_file (rt_flags s));
  if String.eqb filename "stdin" then
    upd_tainted (with_fd 0) ;;
    match env_stdin with
    | Some c =>
        upd_tainted (with_size (Z.of_nat (length c)) 0) ;;
        let buf_size := RoundUpTo (Z.of_nat (length c)) PageSize in
        match map_bytes c buf_size with
        | None => die "failed to map a copy of input file"
        | Some m => upd_tainted (with_buf (Some m) buf_size) ;; label_inputs
        end
    | None => upd_tainted (with_size 1 1) ;; label_inputs
    end
  else if String.eqb filename "" then upd_tainted (with_fd (-1)) ;; label_inputs
  else
    let '(ok, path) := env_realpath filename in
    upd_tainted (with_filename path) ;;
    if negb ok then mret () else
    n ← gets (λ s, Z.of_nat (length (default [] (os_files (rt_os s) !! filename))));
    upd_tainted (with_size n 0) ;;
    '(buf, buf_size) ← on_os (MapFileToMemory filename);
    upd_tainted (with_buf buf buf_size) ;;
    match buf with
    | None => die "failed to map a copy of input file"
    | Some _ => label_inputs
    end.

(** [InitializeSolver] *)
Definition InitializeSolver : M rt () :=
  modify (λ s, set_output
    (Output (fl_output_dir (rt_flags s)) (u32 (fl_instance_id (rt_flags s)))
       (u32 (fl_session_id (rt_flags s))) (current_index (rt_output s))) s).

(** [MmapFixedNoReserve]: a refusal is reported, and the first access faults. *)
Definition touch_mapping : M rt () := if env_mmap_ok then mret () else segv.

Definition dfsan_init : M rt () :=
  InitializeFlags ;;
  InitializePlatformEarly ;;
  touch_mapping ;;
  on_labels (modify (λ ls, set_info CONST_LABEL (set_size 8 (info_at ls CONST_LABEL)) ls)) ;;
  on_labels (zoom alloc set_alloc (allocator_init HashTableAddr (HashTableAddr + hashtable_size))) ;;
  InitializeTaintFile ;;
  InitializeSolver.

(** The constructors of the static objects. *)
Definition construct_globals : M rt () :=
  on_labels (union_hashtable_new union_table_size) ;;
  modify (set_solver_st (Solver [[]] 0 None)) ;;
  modify (set_branches ∅).

Definition startup : M rt () := dfsan_init ;; construct_globals.

(** The static variables before [dfsan_init]. *)
Definition rt_static (shadow mem : gmap Z Z) (o : os) : rt :=
  Rt (LState 0 ∅ (UnionHashtable 0 0 ∅ ∅) allocator_static) shadow mem
    (TaintFile "" 0 0 0 0 0 0 0 None 0) (Solver [] 0 None) 0 ∅ [] (Output "" 0 0 0) no_flags o.

(** ** The taint source *)
Definition taint_set_file (filename : string) (fd : Z) : M rt () :=
  t ← gets rt_tainted;
  if String.eqb (tf_filename t) (env_realpath filename).2 then
    upd_tainted (with_fd fd) ;;
    modify (λ s, set_solver_st
      (Solver (sv_frames (rt_solver s)) (sv_checks (rt_solver s)) (Some 5000)) s)
  else mret ().
Definition is_taint_file (filename : string) : M rt Z :=
  t ← gets rt_tainted;
  if String.eqb (tf_filename t) (env_realpath filename).2
  then upd_tainted (with_utmp 1) ;; mret 1
  else upd_tainted (with_utmp 0) ;; mret 0.
Definition taint_get_file (fd : Z) : M rt Z :=
  gets (λ s, if tf_fd (rt_tainted s) =? fd then tf_size (rt_tainted s) else 0).
Definition taint_close_file (fd : Z) : M rt () :=
  t ← gets rt_tainted;
  if fd =? tf_fd t then upd_tainted (with_fd (-1)) else mret ().
Definition is_stdin_taint : M rt Z := gets (λ s, tf_is_stdin (rt_tainted s)).
Definition is_utmp_taint : M rt Z := gets (λ s, tf_is_utmp (rt_tainted s)).
Definition set_utmp_offset (offset : Z) : M rt () := upd_tainted (with_offset offset).
Definition get_utmp_offset : M rt Z := gets (λ s, tf_offset (rt_tainted s)).
Definition taint_set_offset_label (label : Z) : M rt () := upd_tainted (with_offset_label label).
Definition taint_get_offset_label : M rt Z := gets (λ s, tf_offset_label (rt_tainted s)).

(** ** Shutdown *)
Definition bytes_of_string (s : string) : list Z :=
  (λ c, Z.of_nat (Ascii.nat_of_ascii c)) <$> String.list_ascii_of_string s.
Definition label_line (l : Z) (i : dfsan_label_info expr) : string :=
  pretty (u32 l) +:+ " (" +:+ pretty (li_l1 i) +:+ " " +:+ pretty (li_l2 i) +:+ " "
    +:+ pretty (li_op i) +:+ " " +:+ pretty (li_size i) +:+ ")".
Definition dfsan_dump_labels (fd : Z) : M rt () :=
  last ← gets (λ s, last_label (rt_labels s));
  for_each (range 1 (last + 1)) (λ l,
    i ← on_labels (get_label_info l);
    ok ← on_os (WriteToFile fd (Some (bytes_of_string (label_line l i))));
    ok ← on_os (WriteToFile fd (Some (bytes_of_string (String (Ascii.ascii_of_nat 10) ""))));
    mret ()).

(** [dfsan_fini]: the result is what is stored in the AFL shared memory. *)
Definition dfsan_fini : M rt (option Z) :=
  path ← gets (λ s, dump_labels_at_exit (rt_flags s));
  let finish :=
    gets (λ s, match env_shm_id with
               | Some _ => Some (current_index (rt_output s)) | None => None end) in
  if String.eqb path "" then finish else
  fd ← on_os (OpenFile_wr path);
  if fd =? kInvalidFd then mret None else
  dfsan_dump_labels fd ;;
  on_os (CloseFile fd) ;;
  finish.
End init.

(** ** The label store after start-up *)
Section input_labels.
Context {E : Type}.
Implicit Type ls : lstate E.

(** Labels for the bytes [0 .. n-1], on top of a store. *)
Fixpoint input_labels (n : nat) ls : lstate E :=
  match n with O => ls | S n => created (Z.of_nat n) (input_labels n ls) end.

Lemma input_labels_last n ls : last_label (input_labels n ls) = last_label ls + Z.of_nat n.
Proof.
  induction n as [|n IH]; cbn [input_labels]; [lia|].
  change (last_label (input_labels n ls) + 1 = last_label ls + Z.of_nat (S n)). lia.
Qed.

Lemma input_labels_info n ls l :
  last_label ls = 0 →
  info_at (input_labels n ls) l =
    if decide (1 ≤ l ≤ Z.of_nat n) then input_record (l - 1) else info_at ls l.
Proof.
  intros H0. induction n as [|n IH].
  { cbn [input_labels]. by rewrite decide_False by lia. }
  cbn [input_labels]. rewrite created_info, input_labels_last, H0.
  destruct (decide (0 + Z.of_nat n + 1 = l)) as [Hl|Hl].
  - rewrite decide_True by lia. f_equal. lia.
  - rewrite IH. by do 2 case_decide; try lia.
Qed.

Lemma input_labels_wf n ls m :
  wf ls m → last_label ls = 0 → label_addr (Z.of_nat n) < HashTableAddr →
  wf (input_labels n ls) m.
Proof.
  intros Hwf H0. induction n as [|n IH]; intros Hn; [done|]. cbn [input_labels].
  apply created_wf.
  - apply IH. pose proof (label_addr_mono (Z.of_nat n) (Z.of_nat (S n))). lia.
  - unfold label_room. rewrite input_labels_last, H0.
    by replace (0 + Z.of_nat n + 1) with (Z.of_nat (S n)) by lia.
Qed.

(** Creating a label reads only the counter. *)
Lemma create_label_any ls offset :
  0 ≤ last_label ls → label_room ls →
  dfsan_create_label offset ls = Ret (last_label ls + 1) (created offset ls).
Proof.
  intros H0 Hlr. unfold label_room in Hlr.
  pose proof (label_addr_bound (last_label ls + 1)) as Hb.
  unfold dfsan_create_label, next_label.
  rewrite (bind_run _ _ ls (last_label ls + 1) (set_last (last_label ls + 1) ls)).
  - erewrite bind_run by (apply check_label_run; [lia|done]).
    rewrite !bind_modify, !info_at_set_eq. unfold created, set_info; simpl.
    by rewrite !insert_insert_eq.
  - rewrite bind_gets, bind_modify. unfold u32. rewrite wrap_small by (unfold in_range; lia).
    done.
Qed.
End input_labels.

Section startup_spec.
Context {Zi : Z3} {Ops : LlvmOps} {En : Env}.

Lemma label_input_run i s :
  0 ≤ last_label (rt_labels s) → label_room (rt_labels s) →
  label_input i s = Ret () (set_labels (created i (rt_labels s)) s).
Proof.
  intros H0 Hlr. unfold label_input.
  rewrite (bind_run _ _ s (last_label (rt_labels s) + 1) (set_labels (created i (rt_labels s)) s)).
  - unfold on_labels, zoom. cbn [set_labels rt_labels].
    by rewrite check_label_run by (done || lia).
  - unfold on_labels, zoom. by rewrite create_label_any by done.
Qed.

Lemma label_loop n s :
  last_label (rt_labels s) = 0 → label_addr (Z.of_nat n) < HashTableAddr →
  for_each (range 0 (Z.of_nat n)) label_input s =
  Ret () (set_labels (input_labels n (rt_labels s)) s).
Proof.
  intros H0. induction n as [|n IH]; intros Hn; [by destruct s|].
  rewrite range_snoc by lia. replace (Z.of_nat (S n) - 1) with (Z.of_nat n) by lia.
  rewrite for_each_snoc. unfold mbind, M_bind. rewrite IH.
  - rewrite label_input_run; [done| |].
    + cbn [rt_labels set_labels]. rewrite input_labels_last. lia.
    + cbn [rt_labels set_labels]. unfold label_room. rewrite input_labels_last, H0.
      by replace (0 + Z.of_nat n + 1) with (Z.of_nat (S n)) by lia.
  - pose proof (label_addr_mono (Z.of_nat n) (Z.of_nat (S n))). lia.
Qed.

(** Options that name an input file and an output directory. *)
Definition launch (F D : string) : list setting :=
  [Setting "taint_file" None F; Setting "output_dir" None D].
Definition launch_flags (F D : string) : Flags :=
  flags_of (<["output_dir" := VStr D]> (<["taint_file" := VStr F]> SetDefaults)).

Lemma InitializeFlags_run F D s :
  env_options = Some (print_settings (launch F D)) →
  forallb printable (launch F D) = true →
  InitializeFlags s = Ret () (set_flags_st (launch_flags F D) s).
Proof.
  intros He Hp. unfold InitializeFlags. rewrite He.
  change include_depth with 64%nat. cbn [ParseString]. unfold parse_flags, mbind, M_bind.
  rewrite parse_fuel_print by (done || apply print_length).
  reflexivity.
Qed.

(** The label store [dfsan_init] leaves before it labels the input: the table
    is constructed later. *)
Definition preinit_lstate : lstate expr :=
  LState 0 {[ 0 := set_size 8 zero_info ]} (UnionHashtable 0 0 ∅ ∅)
    (Allocator HashTableAddr HashTableAddr (HashTableAddr + hashtable_size)).
Definition with_table (t : union_hashtable) (a : allocator) (ls : lstate expr) : lstate expr :=
  LState (last_label ls) (infos ls) t a.
Lemma input_labels_table n t a ls :
  with_table t a (input_labels n ls) = input_labels n (with_table t a ls).
Proof. induction n as [|n IH]; [done|]. cbn [input_labels]. by rewrite <- IH. Qed.

Lemma construct_table_run n :
  union_hashtable_new union_table_size (input_labels n preinit_lstate) =
  Ret () (input_labels n (boot_lstate expr)).
Proof.
  assert (alloc (input_labels n preinit_lstate) = alloc preinit_lstate
    ∧ table (input_labels n preinit_lstate) = table preinit_lstate) as [Ha Ht]
    by (induction n; done).
  unfold union_hashtable_new, lalloc, mbind, M_bind, zoom. rewrite Ha.
  assert (allocator_alloc (union_table_size * sizeof_ptr) (alloc preinit_lstate) =
    Ret HashTableAddr (alloc (boot_lstate expr))) as -> by reflexivity.
  unfold modify, set_alloc, set_table. cbn [table infos last_label alloc]. rewrite Ht.
  change (boot_lstate expr) with
    (with_table (table (boot_lstate expr)) (alloc (boot_lstate expr)) preinit_lstate) at 2.
  by rewrite <- input_labels_table.
Qed.

Lemma RoundUpTo_page n : 0 ≤ n < 2 ^ 63 → RoundUpTo n PageSize = (n + 4095) / 4096 * 4096.
Proof.
  intros Hn. unfold RoundUpTo, PageSize, u64. rewrite wrap_small by (unfold in_range; lia).
  change (4096 - 1) with (Z.ones 12). rewrite <- Z.ldiff_land, Z.ldiff_ones_r by lia.
  rewrite Z.shiftl_mul_pow2, Z.shiftr_div_pow2 by lia. do 2 f_equal.
  change (Z.ones 12) with 4095. lia.
Qed.

(** The descriptor [MapFileToMemory] leaves open. *)
Definition mapped_os (F : string) (o : os) : os :=
  Os (os_files o) (<[os_next_fd o := (F, 0)]> (os_fds o)) (os_next_fd o + 1)
     (os_denied o) (os_write_ok o).
Lemma MapFileToMemory_run F c o :
  env_mmap_ok = true → F ∉ os_denied o → os_files o !! F = Some c → c ≠ [] →
  0 ≤ os_next_fd o → Z.of_nat (length c) < 2 ^ 63 →
  let bs := RoundUpTo (Z.of_nat (length c)) PageSize in
  MapFileToMemory F o =
  Ret (Some (c ++ replicate (Z.to_nat bs - length c) 0), bs) (mapped_os F o).
Proof.
  intros Hm Hd Hf Hc Hn Hl63 bs. unfold MapFileToMemory, OpenFile_rd, mbind, M_bind, get.
  rewrite decide_False by done. rewrite Hf. unfold put, mret, M_ret, mbind, M_bind.
  rewrite (proj2 (Z.eqb_neq _ _)) by (unfold kInvalidFd; lia).
  fold (mapped_os F o). change (os_files (mapped_os F o)) with (os_files o). rewrite Hf. simpl.
  assert (0 < Z.of_nat (length c)) by (destruct c; [done|simpl; lia]).
  rewrite (proj2 (Z.eqb_neq _ _)) by lia. unfold map_bytes. rewrite Hm. fold bs.
  rewrite (proj2 (Z.ltb_lt 0 bs)); [done|]. unfold bs. rewrite RoundUpTo_page by lia.
  assert (1 ≤ (Z.of_nat (length c) + 4095) / 4096); [|lia].
  apply Z.div_le_lower_bound; lia.
Qed.

(** The state after start-up on the file [F] with contents [c]. *)
Definition started (F D p : string) (c : list Z) (shadow mem : gmap Z Z) (o : os) : rt :=
  let n := length c in
  let bs := RoundUpTo (Z.of_nat n) PageSize in
  Rt (input_labels n (boot_lstate expr)) shadow mem
    (TaintFile p 0 0 0 0 (Z.of_nat n) 0 0 (Some (c ++ replicate (Z.to_nat bs - n) 0)) bs)
    (Solver [[]] 0 None) 0 ∅ (replicate n None) (Output D 0 0 0) (launch_flags F D)
    (mapped_os F o).

Definition file_source (p : string) (c : list Z) : taint_file :=
  let bs := RoundUpTo (Z.of_nat (length c)) PageSize in
  TaintFile p 0 0 0 0 (Z.of_nat (length c)) 0 0
    (Some (c ++ replicate (Z.to_nat bs - length c) 0)) bs.

Lemma InitializeTaintFile_run F p c ls sh mem sv cs br bd ou fl o :
  fl_taint_file fl = F → F ≠ "stdin" → F ≠ "" →
  env_mmap_ok = true → env_realpath F = (true, p) →
  F ∉ os_denied o → os_files o !! F = Some c → c ≠ [] → 0 ≤ os_next_fd o →
  last_label ls = 0 → label_addr (Z.of_nat (length c)) < HashTableAddr →
  InitializeTaintFile (Rt ls sh mem (TaintFile "" 0 0 0 0 0 0 0 None 0) sv cs br bd ou fl o) =
  Ret () (Rt (input_labels (length c) ls) sh mem (file_source p c) sv cs br
            (replicate (length c) None) ou fl (mapped_os F o)).
Proof.
  intros HF Hs Hemp Hm Hr Hd Hf Hc Hn H0 Hl. unfold InitializeTaintFile.
  erewrite bind_run by reflexivity. rewrite bind_gets. cbn [rt_flags]. rewrite HF.
  rewrite (proj2 (String.eqb_neq F "stdin")), (proj2 (String.eqb_neq F "")) by done.
  rewrite Hr. erewrite bind_run by reflexivity. cbn [negb].
  rewrite bind_gets. cbn [rt_os set_tainted]. rewrite Hf. cbn [default].
  erewrite bind_run by reflexivity. unfold mbind at 1, M_bind at 1, on_os at 1, zoom at 1.
  cbn [rt_os set_tainted]. pose proof (label_addr_bound _ Hl).
  erewrite (MapFileToMemory_run F c) by (done || lia). cbv beta iota zeta.
  erewrite bind_run by reflexivity. unfold label_inputs. rewrite bind_gets.
  cbn [rt_tainted set_tainted set_os with_buf with_size with_filename tf_fd tf_is_stdin tf_size
       negb andb Z.eqb].
  erewrite bind_run by (apply label_loop; [exact H0|exact Hl]).
  cbn [modify]. rewrite Nat2Z.id. reflexivity.
Qed.

Lemma startup_run F D p c shadow mem o :
  env_options = Some (print_settings (launch F D)) →
  forallb printable (launch F D) = true → F ≠ "stdin" → F ≠ "" →
  env_mmap_ok = true → env_realpath F = (true, p) →
  F ∉ os_denied o → os_files o !! F = Some c → c ≠ [] → 0 ≤ os_next_fd o →
  label_addr (Z.of_nat (length c)) < HashTableAddr →
  startup (rt_static shadow mem o) = Ret () (started F D p c shadow mem o).
Proof.
  intros He Hp Hs Hemp Hm Hr Hd Hf Hc Hn Hl. unfold startup.
  set (sa := λ ou, Rt (input_labels (length c) preinit_lstate) shadow mem
      (file_source p c) (Solver [] 0 None) 0 ∅
      (replicate (length c) None) ou (launch_flags F D) (mapped_os F o)).
  rewrite (bind_run _ _ _ () (sa (Output D 0 0 0))).
  { unfold construct_globals.
    rewrite (bind_run _ _ _ ()
      (set_labels (input_labels (length c) (boot_lstate expr)) (sa (Output D 0 0 0))));
      [reflexivity|].
    unfold on_labels, zoom, sa. cbn [rt_labels]. by rewrite construct_table_run. }
  unfold dfsan_init. erewrite bind_run by (by apply InitializeFlags_run).
  erewrite bind_run by reflexivity.
  unfold touch_mapping. rewrite Hm. do 3 erewrite bind_run by reflexivity.
  rewrite (bind_run _ _ _ () (sa (Output "" 0 0 0))); [reflexivity|].
  unfold sa. change (rt_static shadow mem o) with
    (Rt (LState 0 ∅ (UnionHashtable 0 0 ∅ ∅) allocator_static) shadow mem
      (TaintFile "" 0 0 0 0 0 0 0 None 0) (Solver [] 0 None) 0 ∅ [] (Output "" 0 0 0) no_flags o).
  by apply InitializeTaintFile_run.
Qed.

(** C16: Start-up on an input file. When the options name a readable, non-empty
    file that fits in the label array, [dfsan_init] and the constructors
    return; the invariant of the label store holds, the labels [1 .. n] are
    the input bytes [0 .. n-1] in order, the source is the resolved path with a
    copy of the contents, no branch is recorded, and generated inputs go to
    the directory of the options. *)
Theorem startup_spec F D p c shadow mem o :
  env_options = Some (print_settings (launch F D)) →
  forallb printable (launch F D) = true → F ≠ "stdin" → F ≠ "" →
  env_mmap_ok = true → env_realpath F = (true, p) →
  F ∉ os_denied o → os_files o !! F = Some c → c ≠ [] → 0 ≤ os_next_fd o →
  label_addr (Z.of_nat (length c)) < HashTableAddr →
  ∃ s, startup (rt_static shadow mem o) = Ret () s ∧ rt_wf s ∧
    last_label (rt_labels s) = Z.of_nat (length c) ∧
    (∀ l, 1 ≤ l ≤ Z.of_nat (length c) → info_at (rt_labels s) l = input_record (l - 1)) ∧
    tf_filename (rt_tainted s) = p ∧ tf_size (rt_tainted s) = Z.of_nat (length c) ∧
    take (length c) <$> tf_buf (rt_tainted s) = Some c ∧
    rt_branch_deps s = replicate (length c) None ∧ output_dir (rt_output s) = D.
Proof.
  intros. eexists. split; [by eapply startup_run|]. split_and!; try done.
  - exists ∅. by apply input_labels_wf; [apply boot_wf| |].
  - cbn [started rt_labels]. by rewrite input_labels_last.
  - intros l Hl. cbn [started rt_labels]. by rewrite input_labels_info, decide_True by done.
  - cbn. by rewrite take_app_length.
Qed.
End startup_spec.

(** ** Dumping the labels *)
Section dump_spec.
Context {Zi : Z3} {Ops : LlvmOps} {En : Env}.

(** What [dump_labels_at_exit] writes for the labels [1 .. n]. *)
Definition dumped (ls : lstate expr) (n : Z) : list Z :=
  concat ((λ l, bytes_of_string (label_line l (info_at ls l)) ++ [10]) <$> range 1 (n + 1)).

Lemma write_at_end (c bs : list Z) : write_at c (Z.of_nat (length c)) bs = c ++ bs.
Proof.
  unfold write_at. destruct bs as [|b bs]; [by rewrite app_nil_r|]. rewrite Nat2Z.id.
  rewrite take_ge by lia. rewrite drop_ge by lia. by rewrite Nat.sub_diag, app_nil_r.
Qed.

(** The descriptor is at the end of the file, which holds [c]. *)
Definition appending (fd : Z) (path : string) (c : list Z) (o : os) : Prop :=
  os_fds o !! fd = Some (path, Z.of_nat (length c)) ∧ os_files o !! path = Some c ∧
  os_write_ok o = true.

Lemma WriteToFile_append fd path c bs s :
  appending fd path c (rt_os s) →
  ∃ o', on_os (WriteToFile fd (Some bs)) s = Ret true (set_os o' s) ∧
    appending fd path (c ++ bs) o'.
Proof.
  intros (Hfd & Hc & Hw). eexists. split.
  - unfold on_os, zoom, WriteToFile, mbind, M_bind, get. rewrite Hfd, Hw. cbn. reflexivity.
  - rewrite Hc. unfold appending, with_fds, with_files. cbn [os_fds os_files os_write_ok default].
    rewrite !lookup_insert_eq, write_at_end, length_app. split_and!; [|done|done].
    by rewrite Nat2Z.inj_add.
Qed.

Lemma dump_loop fd path n s c :
  rt_wf s → 0 ≤ n ≤ last_label (rt_labels s) → appending fd path c (rt_os s) →
  ∃ o', for_each (range 1 (n + 1)) (λ l,
      i ← on_labels (get_label_info l);
      ok ← on_os (WriteToFile fd (Some (bytes_of_string (label_line l i))));
      ok ← on_os (WriteToFile fd (Some (bytes_of_string (String (Ascii.ascii_of_nat 10) ""))));
      mret ()) s = Ret () (set_os o' s) ∧
    appending fd path (c ++ dumped (rt_labels s) n) o'.
Proof.
  intros [m Hwf] Hn Hap. destruct Hn as [Hn0 Hn]. revert Hn. pattern n.
  apply natlike_ind; [|clear n Hn0; intros n Hn0 IH|done].
  { intros _. exists (rt_os s). rewrite range_nil by lia. split; [by destruct s|].
    unfold dumped. rewrite range_nil by lia. by rewrite app_nil_r. }
  intros Hn. destruct IH as (o1 & Hr & Ha1); [lia|].
  unfold dumped. replace (range 1 (Z.succ n + 1)) with (range 1 (n + 1) ++ [n + 1]).
  2:{ rewrite (range_snoc 1 (Z.succ n + 1)) by lia. by replace (Z.succ n + 1 - 1) with (n + 1) by lia. }
  rewrite for_each_snoc. rewrite (bind_run _ _ _ _ _ Hr).
  erewrite bind_run.
  2:{ unfold on_labels, zoom. cbn [rt_labels set_os].
      by rewrite (get_label_info_wf _ _ _ Hwf) by lia. }
  destruct (WriteToFile_append fd path _
    (bytes_of_string (label_line (n + 1) (info_at (rt_labels s) (n + 1)))) (set_os o1 s) Ha1)
    as (o2 & Hw2 & Ha2).
  destruct (WriteToFile_append fd path _
    (bytes_of_string (String (Ascii.ascii_of_nat 10) "")) (set_os o2 s) Ha2) as (o3 & Hw3 & Ha3).
  change (set_labels (rt_labels s) (set_os o1 s)) with (set_os o1 s).
  rewrite (bind_run _ _ _ _ _ Hw2).
  change (set_os o2 (set_os o1 s)) with (set_os o2 s).
  rewrite (bind_run _ _ _ _ _ Hw3). exists o3. split; [done|].
  rewrite fmap_app, concat_app. cbn. rewrite app_nil_r. rewrite <- !app_assoc in Ha3.
  exact Ha3.
Qed.

(** With [dump_labels_at_exit] set to a writable path, [dfsan_fini] returns
    and the file holds one line per label, in the order of the labels, with
    the operands, the operator and the size recorded for it; the count of
    generated inputs is what the fuzzer reads from shared memory. *)
Theorem dfsan_fini_dumps s path :
  rt_wf s → dump_labels_at_exit (rt_flags s) = path → path ≠ "" →
  path ∉ os_denied (rt_os s) → os_write_ok (rt_os s) = true → 0 ≤ os_next_fd (rt_os s) →
  ∃ s', dfsan_fini s =
      Ret (match env_shm_id with Some _ => Some (current_index (rt_output s)) | None => None end) s' ∧
    os_files (rt_os s') !! path = Some (dumped (rt_labels s) (last_label (rt_labels s))) ∧
    rt_labels s' = rt_labels s.
Proof.
  intros Hwf Hp Hne Hd Hw Hfd. pose proof Hwf as [m [[Hl0 _] _ _ _ _ _ _ _]].
  unfold dfsan_fini. rewrite bind_gets, Hp.
  rewrite (proj2 (String.eqb_neq path "")) by done.
  set (o1 := Os (<[path:=[]]> (os_files (rt_os s)))
    (<[os_next_fd (rt_os s):=(path, 0)]> (os_fds (rt_os s))) (os_next_fd (rt_os s) + 1)
    (os_denied (rt_os s)) (os_write_ok (rt_os s))).
  rewrite (bind_run _ _ s (os_next_fd (rt_os s)) (set_os o1 s)).
  2:{ unfold on_os, zoom, OpenFile_wr, mbind, M_bind, get. by rewrite decide_False. }
  rewrite (proj2 (Z.eqb_neq _ _)) by (unfold kInvalidFd; lia).
  destruct (dump_loop (os_next_fd (rt_os s)) path (last_label (rt_labels s)) (set_os o1 s) [])
    as (o2 & Hr & Ha); [done|cbn [rt_labels set_os]; lia| |].
  { unfold appending. cbn. by rewrite !lookup_insert_eq. }
  unfold dfsan_dump_labels. rewrite (bind_run _ _ (set_os o1 s) () (set_os o2 s)); [|exact Hr].
  eexists. split; [reflexivity|]. split; [|done]. apply Ha.
Qed.
End dump_spec.

(** ** Findings and witnesses *)

(** With the option [taint_file=stdin] and a descriptor 0 whose [st_size] is 0
    (a pipe, a terminal or an empty file), start-up ends the process: the branch
    for a real standard input is taken only when [fstat] fails, and mapping an
    empty range is refused. *)
Theorem stdin_pipe_dies {Zi : Z3} {En : Env} s :
  fl_taint_file (rt_flags s) = "stdin" → env_stdin = Some [] →
  ∃ s', InitializeTaintFile s = Halt (HDie "failed to map a copy of input file") s'.
Proof.
  intros Hf He. unfold InitializeTaintFile. erewrite bind_run by reflexivity.
  rewrite bind_gets, Hf. cbn [String.eqb Ascii.eqb Bool.eqb].
  change (String.eqb "stdin" "stdin") with true. cbv iota.
  erewrite bind_run by reflexivity. rewrite He. erewrite bind_run by reflexivity.
  unfold map_bytes. change (0 <? RoundUpTo _ _) with false. rewrite andb_false_r. by eexists.
Qed.

Definition demo_env (opts : string) (stdin : option (list Z)) : Env :=
  Build_Env (λ f, (true, "/in/" +:+ f)) stdin true (Some opts) "prog" 42 (Some 7).
Definition demo_os : os := Os {[ "seed" := [10; 20; 30] ]} ∅ 3 ∅ true.

Lemma stdin_pipe_dies_witness :
  ∃ s', InitializeTaintFile (Zi:=Ref.z3) (En:=demo_env "taint_file=stdin" (Some []))
    (set_flags_st (flags_of (<["taint_file" := VStr "stdin"]> SetDefaults))
       (rt_static (Zi:=Ref.z3) ∅ ∅ demo_os))
    = Halt (HDie "failed to map a copy of input file") s'.
Proof.
  apply (stdin_pipe_dies (Zi:=Ref.z3) (En:=demo_env "taint_file=stdin" (Some []))); reflexivity.
Defined.

Lemma startup_spec_witness :
  let En := demo_env (print_settings (launch "seed" "out")) None in
  ∃ s, startup (Zi:=Ref.z3) (En:=En) (rt_static (Zi:=Ref.z3) ∅ ∅ demo_os) = Ret () s ∧
    last_label (rt_labels s) = 3 ∧
    info_at (rt_labels s) 2 = input_record 1 ∧ output_dir (rt_output s) = "out".
Proof.
  intros En.
  destruct (startup_spec (Zi:=Ref.z3) (En:=En) "seed" "out" "/in/seed" [10; 20; 30] ∅ ∅ demo_os
    eq_refl eq_refl ltac:(discriminate) ltac:(discriminate) eq_refl eq_refl
    ltac:(apply not_elem_of_empty) eq_refl ltac:(discriminate) ltac:(simpl; lia)
    ltac:(reflexivity)) as (s & Hs & _ & Hl & Hi & _ & _ & _ & _ & Ho).
  exists s. split; [exact Hs|]. split; [exact Hl|]. split; [|exact Ho].
  apply (Hi 2). simpl. lia.
Defined.

Lemma parse_print_settings_witness :
  returned (parse_flags (λ _, None) "prog" 42 registered (λ _, mret ())
    "taint_file='a b':debug=1:" (FState ∅ [])) = Some () ∧
  at_state (parse_flags (λ _, None) "prog" 42 registered (λ _, mret ())
    (print_settings [Setting "taint_file" (Some quote1) "a b"; Setting "debug" None "1"])
    (FState ∅ [])) =
  FState (<["debug" := VBool true]> (<["taint_file" := VStr "a b"]> ∅)) [].
Proof.
  split; [reflexivity|].
  rewrite (parse_print_settings (λ _, None) "prog" 42 registered (λ _, mret ())
    [Setting "taint_file" (Some quote1) "a b"; Setting "debug" None "1"] (FState ∅ []) eq_refl).
  reflexivity.
Defined.
Lemma parse_flags_finishes_witness :
  parse_flags (λ _, None) "prog" 42 registered (λ _, mret ()) "a=b" (FState ∅ [])
    ≠ Halt HFuel (FState ∅ []).
Proof. apply parse_flags_finishes. intros s st st'. discriminate. Defined.

Definition dump_rt : rt (Zi:=Ref.z3) :=
  set_flags_st (flags_of (<["dump_labels_at_exit" := VStr "labels"]> SetDefaults))
    (rt_of (Zi:=Ref.z3) (input_labels 2 (boot_lstate Ref.term)) ∅ ∅ (file_source "f" [1; 2])).
Lemma dfsan_fini_dumps_witness :
  let En := demo_env "" None in
  ∃ s', dfsan_fini (Zi:=Ref.z3) (En:=En) dump_rt = Ret (Some 0) s' ∧
    os_files (rt_os s') !! "labels" =
      Some (bytes_of_string ("1 (0 0 0 8)" +:+ String (Ascii.ascii_of_nat 10)
        ("2 (0 0 0 8)" +:+ String (Ascii.ascii_of_nat 10) ""))).
Proof.
  intros En.
  destruct (dfsan_fini_dumps (Zi:=Ref.z3) (En:=En) dump_rt "labels") as (s' & Hr & Hf & _).
  - exists ∅. apply input_labels_wf; [apply boot_wf|reflexivity|by vm_compute].
  - reflexivity.
  - discriminate.
  - apply not_elem_of_empty.
  - reflexivity.
  - simpl. lia.
  - exists s'. split; [exact Hr|]. rewrite Hf. by vm_compute.
Defined.
