(* ===== verification/Libc.v ===== *)
(** * Memory and strings of the host C library, and [sanitizer_libc.cc]

    Application memory is byte-addressed, the shadow is label-addressed (a
    stride of 4). The copy loops of [internal_memcpy] and [internal_memmove] are
    folds over the indices in the order of the code; [memcpy] on the shadow
    copies whole labels, which is the same as copying their bytes in order since
    label slots differ by multiples of 4. The C library's string functions are
    functions of the memory. *)
From S2P Require Import Prelude Platform Labels UnionTable Union Z3 State Shadow.

(** ** Copies on a memory *)

(** [for (i = 0; i < n; ++i) d[i] = s[i]] *)
Definition copy_fwd (stride : Z) (m : gmap Z Z) (d s n : Z) : gmap Z Z :=
  foldl (λ m i, poke m (d + stride * i) (peek m (s + stride * i))) m (range 0 n).
(** [for (i = n - 1; i >= 0; --i) d[i] = s[i]] *)
Definition copy_bwd (stride : Z) (m : gmap Z Z) (d s n : Z) : gmap Z Z :=
  foldl (λ m i, poke m (d + stride * i) (peek m (s + stride * i))) m (reverse (range 0 n)).
(** [for (i = 0; i < n; ++i) s[i] = c] *)
Definition fill (m : gmap Z Z) (s c n : Z) : gmap Z Z :=
  foldl (λ m i, poke m (s + i) c) m (range 0 n).
(** The bytes [bs] stored from address [a] on. *)
Fixpoint store_bytes (m : gmap Z Z) (a : Z) (bs : list Z) : gmap Z Z :=
  match bs with [] => m | b :: bs => store_bytes (poke m a b) (a + 1) bs end.

(** ** Strings in memory *)

(** The characters from [a] up to the first NUL; a memory of [n] bytes has no
    longer string. *)
Fixpoint str_from (fuel : nat) (m : gmap Z Z) (a : Z) : list Z :=
  match fuel with
  | O => []
  | S fuel => if peek m a =? 0 then [] else peek m a :: str_from fuel m (a + 1)
  end.
Definition cstr (m : gmap Z Z) (a : Z) : list Z := str_from (size m) m a.
Definition strlen (m : gmap Z Z) (a : Z) : Z := Z.of_nat (length (cstr m a)).
Definition bytes_of (m : gmap Z Z) (a n : Z) : list Z := (λ i, peek m (a + i)) <$> range 0 n.

(** Lexicographic comparison of characters as [unsigned char]. *)
Fixpoint compare_bytes (x y : list Z) : Z :=
  match x, y with
  | [], [] => 0
  | [], _ :: _ => -1
  | _ :: _, [] => 1
  | a :: x, b :: y => if a =? b then compare_bytes x y else if a <? b then -1 else 1
  end.
Definition memcmp (m : gmap Z Z) (s1 s2 n : Z) : Z :=
  compare_bytes (bytes_of m s1 n) (bytes_of m s2 n).
Definition strcmp (m : gmap Z Z) (s1 s2 : Z) : Z := compare_bytes (cstr m s1) (cstr m s2).
Definition strncmp (m : gmap Z Z) (s1 s2 n : Z) : Z :=
  compare_bytes (take (Z.to_nat n) (cstr m s1)) (take (Z.to_nat n) (cstr m s2)).
Definition tolower (c : Z) : Z := if (65 <=? c) && (c <=? 90) then c + 32 else c.
Definition strcasecmp (m : gmap Z Z) (s1 s2 : Z) : Z :=
  compare_bytes (tolower <$> cstr m s1) (tolower <$> cstr m s2).
Definition strncasecmp (m : gmap Z Z) (s1 s2 n : Z) : Z :=
  compare_bytes (take (Z.to_nat n) (tolower <$> cstr m s1)) (take (Z.to_nat n) (tolower <$> cstr m s2)).

(** The address of the first, or last, element of [bs] (stored from [a]) that
    equals [c]; the null pointer if there is none. *)
Fixpoint find_from (a c : Z) (bs : list Z) : Z :=
  match bs with [] => 0 | b :: bs => if b =? c then a else find_from (a + 1) c bs end.
Fixpoint find_last (a c acc : Z) (bs : list Z) : Z :=
  match bs with [] => acc | b :: bs => find_last (a + 1) c (if b =? c then a else acc) bs end.
Definition strchr (m : gmap Z Z) (s c : Z) : Z := find_from s (u8 c) (cstr m s ++ [0]).
Definition strrchr (m : gmap Z Z) (s c : Z) : Z := find_last s (u8 c) 0 (cstr m s ++ [0]).
Definition memchr (m : gmap Z Z) (s c n : Z) : Z := find_from s (u8 c) (bytes_of m s n).
Fixpoint find_sub (a : Z) (needle bs : list Z) : Z :=
  if decide (take (length needle) bs = needle) then a else
  match bs with [] => 0 | _ :: bs => find_sub (a + 1) needle bs end.
Definition strstr (m : gmap Z Z) (haystack needle : Z) : Z :=
  find_sub haystack (cstr m needle) (cstr m haystack).

(** ** The operations on the state *)

(** A call into the host: its result and the bytes it stores in memory. *)
Record sys := Sys { sys_ret : Z; sys_writes : list (Z * list Z) }.

Section libc.
Context {Zi : Z3}.

Definition in_mem {A} (f : gmap Z Z → A) : M rt A := gets (λ s, f (rt_mem s)).
Definition upd_mem (f : gmap Z Z → gmap Z Z) : M rt () := modify (λ s, set_mem (f (rt_mem s)) s).
Definition upd_shadow (f : gmap Z Z → gmap Z Z) : M rt () :=
  modify (λ s, set_shadow (f (rt_shadow s)) s).

Definition host (h : sys) : M rt Z :=
  upd_mem (λ m, foldl (λ m w, store_bytes m w.1 w.2) m (sys_writes h)) ;; mret (sys_ret h).

Definition internal_memcpy (dest src n : Z) : M rt Z :=
  upd_mem (λ m, copy_fwd 1 m dest src n) ;; mret dest.
Definition internal_memmove (dest src n : Z) : M rt Z :=
  if s64 n <? 0 then die "CHECK_GE(signed_n, 0)" else
  (if dest <? src then upd_mem (λ m, copy_fwd 1 m dest src n)
   else if (src <? dest) && (0 <? n) then upd_mem (λ m, copy_bwd 1 m dest src n)
   else mret ()) ;;
  mret dest.
Definition internal_memset (s c n : Z) : M rt () := upd_mem (λ m, fill m s (u8 c) n).
(** [internal_memcpy] of [n] labels between shadow pointers *)
Definition shadow_memcpy (sdest ssrc n : Z) : M rt () :=
  upd_shadow (λ m, copy_fwd 4 m sdest ssrc n).
End libc.

(** ** Lemmas on copies *)

(** [m'] is [m] with [n] cells from [s] copied to [d]. *)
Definition copied (stride : Z) (m m' : gmap Z Z) (d s n : Z) : Prop :=
  (∀ i, 0 ≤ i < n → peek m' (d + stride * i) = peek m (s + stride * i)) ∧
  (∀ a, (∀ i, 0 ≤ i < n → a ≠ d + stride * i) → peek m' a = peek m a).

Lemma copy_steps stride m d s (l : list Z) :
  0 < stride → NoDup l →
  (∀ p i q, l = p ++ i :: q → Forall (λ j, d + stride * j ≠ s + stride * i) p) →
  let m' := foldl (λ m i, poke m (d + stride * i) (peek m (s + stride * i))) m l in
  (∀ i, i ∈ l → peek m' (d + stride * i) = peek m (s + stride * i)) ∧
  (∀ a, (∀ i, i ∈ l → a ≠ d + stride * i) → peek m' a = peek m a).
Proof.
  intros Hs. induction l as [|x l IH] using rev_ind; intros Hd Hr.
  { split; [|done]. intros i Hi. by apply elem_of_nil in Hi. }
  apply NoDup_app in Hd as (Hd & Hx & _).
  assert (x ∉ l) as Hxl by (intros Hin; apply (Hx _ Hin); set_solver).
  destruct IH as [IH1 IH2]; [done| |].
  { intros p i q ->. apply (Hr p i (q ++ [x])). by rewrite <- app_assoc. }
  rewrite foldl_app. cbn [foldl]. set (m1 := foldl _ m l) in *.
  assert (peek m1 (s + stride * x) = peek m (s + stride * x)) as Hv.
  { apply IH2. intros i Hi E. specialize (Hr l x [] eq_refl).
    rewrite Forall_forall in Hr. by apply (Hr i Hi). }
  split.
  - intros i [Hi| ->%list_elem_of_singleton]%elem_of_app.
    + rewrite peek_poke_ne; [by apply IH1|]. intros E. assert (x = i) as -> by nia. done.
    + by rewrite peek_poke_eq.
  - intros a Ha. rewrite peek_poke_ne; [apply IH2|].
    + intros i Hi. apply Ha. set_solver.
    + intros <-. apply (Ha x); set_solver.
Qed.

Lemma range_NoDup lo hi : NoDup (range lo hi).
Proof. apply NoDup_seqZ. Qed.
Lemma range_split lo hi p i q :
  range lo hi = p ++ i :: q → Forall (λ j, lo ≤ j < i) p ∧ Forall (λ j, i < j < hi) q ∧ lo ≤ i < hi.
Proof.
  intros E. assert (∀ k x, range lo hi !! k = Some x → x = lo + Z.of_nat k ∧ x < hi) as Hk.
  { intros k x [-> Hx]%lookup_seqZ. lia. }
  assert (i = lo + Z.of_nat (length p) ∧ i < hi) as [-> Hi].
  { apply Hk. rewrite E. by apply list_lookup_middle. }
  split_and!; [| |lia|done]; apply Forall_lookup_2; intros k x Hx.
  - destruct (Hk k x). { rewrite E. by apply lookup_app_l_Some. }
    apply lookup_lt_Some in Hx. lia.
  - destruct (Hk (length p + S k)%nat x); [|lia].
    rewrite E, lookup_app_r by lia. by replace (length p + S k - length p)%nat with (S k) by lia.
Qed.

(** A forward copy is right when the destination does not start inside the
    source, a backward one when the source does not start inside the
    destination. *)
Lemma copy_fwd_copied stride m d s n :
  0 < stride → d ≤ s ∨ s + stride * n ≤ d → copied stride m (copy_fwd stride m d s n) d s n.
Proof.
  intros Hs Hov. destruct (copy_steps stride m d s (range 0 n) Hs (range_NoDup _ _)) as [H1 H2].
  - intros p i q (Hp & _ & Hi)%range_split. eapply Forall_impl; [exact Hp|]. simpl. nia.
  - split.
    + intros i Hi. apply H1. by apply elem_of_range.
    + intros a Ha. apply H2. intros i Hi%elem_of_range. by apply Ha.
Qed.
Lemma copy_bwd_copied stride m d s n :
  0 < stride → s ≤ d ∨ d + stride * n ≤ s → copied stride m (copy_bwd stride m d s n) d s n.
Proof.
  intros Hs Hov.
  destruct (copy_steps stride m d s (reverse (range 0 n)) Hs) as [H1 H2].
  - rewrite reverse_Permutation. apply range_NoDup.
  - intros p i q E. assert (range 0 n = reverse q ++ i :: reverse p) as Hr.
    { rewrite <- (reverse_involutive (range 0 n)), E, reverse_app, reverse_cons.
      by rewrite <- app_assoc. }
    apply range_split in Hr as (_ & Hp & Hi). rewrite Forall_reverse in Hp.
    eapply Forall_impl; [exact Hp|]. simpl. nia.
  - split.
    + intros i Hi. apply H1. by rewrite elem_of_reverse, elem_of_range.
    + intros a Ha. apply H2. intros i Hi. rewrite elem_of_reverse, elem_of_range in Hi. by apply Ha.
Qed.
Lemma copied_refl stride m d n : copied stride m m d d n.
Proof. by split. Qed.

Lemma peek_fill m s c n a : peek (fill m s c n) a = if decide (s ≤ a < s + n) then c else peek m a.
Proof.
  destruct (decide (n ≤ 0)) as [Hn|Hn].
  { unfold fill. rewrite range_nil by done. cbn [foldl]. by rewrite decide_False by lia. }
  assert (0 ≤ n) as H0 by lia. clear Hn. unfold fill. revert n H0. apply natlike_ind.
  - rewrite range_nil by lia. by rewrite decide_False by lia.
  - intros n Hn IH. rewrite (range_snoc 0 (Z.succ n)) by lia.
    replace (Z.succ n - 1) with n by lia. rewrite foldl_app. cbn [foldl].
    rewrite peek_poke, IH. do 3 case_decide; try lia; done.
Qed.
Lemma peek_store_bytes m a bs b :
  peek (store_bytes m a bs) b =
    if decide (a ≤ b < a + Z.of_nat (length bs)) then default 0 (bs !! Z.to_nat (b - a)) else peek m b.
Proof.
  revert m a. induction bs as [|x bs IH]; intros m a; cbn [store_bytes length].
  { by rewrite decide_False by lia. }
  rewrite IH, peek_poke. destruct (decide (a = b)) as [->|Hab].
  - rewrite decide_False, decide_True by lia. by rewrite Z.sub_diag.
  - destruct (decide (a + 1 ≤ b < _)) as [H1|H1].
    2:{ by rewrite decide_False by lia. }
    rewrite decide_True by lia.
    by replace (Z.to_nat (b - a)) with (S (Z.to_nat (b - (a + 1)))) by lia.
Qed.

(** ** [strlen] finds the first NUL *)
Lemma str_from_spec fuel m a :
  let n := Z.of_nat (length (str_from fuel m a)) in
  (∀ i, 0 ≤ i < n → peek m (a + i) ≠ 0) ∧ (n = Z.of_nat fuel ∨ peek m (a + n) = 0) ∧ n ≤ Z.of_nat fuel.
Proof.
  revert a. induction fuel as [|fuel IH]; intros a; cbn [str_from].
  { simpl. split_and!; [lia|by left|done]. }
  destruct (peek m a =? 0) eqn:E.
  { apply Z.eqb_eq in E. cbn [length]. split_and!; [lia| |lia]. right. by rewrite Z.add_0_r. }
  apply Z.eqb_neq in E. specialize (IH (a + 1)). destruct IH as (I1 & I2 & I3).
  cbn [length]. set (n := length (str_from fuel m (a + 1))) in *. split_and!.
  - intros i Hi. destruct (decide (i = 0)) as [->|]; [by rewrite Z.add_0_r|].
    replace (a + i) with (a + 1 + (i - 1)) by lia. apply I1. lia.
  - destruct I2 as [I2|I2]; [left; lia|right]. by replace (a + Z.of_nat (S n)) with (a + 1 + Z.of_nat n) by lia.
  - lia.
Qed.

Lemma nonzero_run_bound m a n :
  0 ≤ n → (∀ i, 0 ≤ i < n → peek m (a + i) ≠ 0) → n ≤ Z.of_nat (size m).
Proof.
  intros Hn Hi. assert ((list_to_set (seqZ a n) : gset Z) ⊆ dom m) as Hsub.
  { intros x. rewrite elem_of_list_to_set, elem_of_seqZ, elem_of_dom. intros Hx.
    specialize (Hi (x - a)). replace (a + (x - a)) with x in Hi by lia. unfold peek in Hi.
    destruct (m !! x); [done|]. exfalso. apply Hi; [lia|done]. }
  apply subseteq_size in Hsub. rewrite size_list_to_set, length_seqZ, size_dom in Hsub
    by apply NoDup_seqZ. lia.
Qed.

Lemma strlen_nul m a :
  let n := strlen m a in
  0 ≤ n ∧ (∀ i, 0 ≤ i < n → peek m (a + i) ≠ 0) ∧ peek m (a + n) = 0.
Proof.
  cbv zeta. unfold strlen, cstr. pose proof (str_from_spec (size m) m a) as (H1 & H2 & H3).
  set (n := Z.of_nat (length (str_from (size m) m a))) in *. split_and!; [lia|done|].
  destruct H2 as [H2|]; [|done]. destruct (decide (peek m (a + n) = 0)) as [|Hne]; [done|].
  exfalso. assert (n + 1 ≤ Z.of_nat (size m)); [|lia].
  apply (nonzero_run_bound m a); [lia|]. intros i Hi.
  destruct (decide (i = n)) as [->|]; [done|]. apply H1. lia.
Qed.

(** [strlen] as the model computes it is the C function: no character before
    the returned index is NUL and the one at it is, in every memory (the bound
    of the loop is never what stops it). *)
Theorem strlen_spec m a :
  let n := strlen m a in
  0 ≤ n ∧ (∀ i, 0 ≤ i < n → peek m (a + i) ≠ 0) ∧ peek m (a + n) = 0.
Proof. apply strlen_nul. Qed.

Lemma strlen_unique m a n :
  0 ≤ n → (∀ i, 0 ≤ i < n → peek m (a + i) ≠ 0) → peek m (a + n) = 0 → strlen m a = n.
Proof.
  intros Hn H1 H2. destruct (strlen_nul m a) as (K0 & K1 & K2).
  destruct (Z.lt_trichotomy (strlen m a) n) as [Hl|[|Hl]]; [|done|].
  - by destruct (H1 (strlen m a) ltac:(lia)).
  - by destruct (K1 n ltac:(lia)).
Qed.
Lemma str_from_bytes fuel m a :
  str_from fuel m a = bytes_of m a (Z.of_nat (length (str_from fuel m a))).
Proof.
  revert a. induction fuel as [|fuel IH]; intros a; cbn [str_from]; [done|].
  destruct (peek m a =? 0); [done|]. cbn [length]. rewrite (IH (a + 1)) at 1.
  set (n := length (str_from fuel m (a + 1))). unfold bytes_of.
  rewrite (range_cons 0 (Z.of_nat (S n))) by lia. cbn [fmap list_fmap]. rewrite Z.add_0_r. f_equal.
  replace (range (0 + 1) (Z.of_nat (S n))) with (Z.add 1 <$> range 0 (Z.of_nat n)).
  - rewrite <- list_fmap_compose. apply list_fmap_ext. intros k x _. simpl. f_equal. lia.
  - unfold range. rewrite fmap_add_seqZ. f_equal; lia.
Qed.
(** A C string is the bytes up to its length. *)
Lemma cstr_bytes m a : cstr m a = bytes_of m a (strlen m a).
Proof. apply str_from_bytes. Qed.
Lemma bytes_of_ext m m' a a' n :
  (∀ i, 0 ≤ i < n → peek m (a + i) = peek m' (a' + i)) → bytes_of m a n = bytes_of m' a' n.
Proof.
  intros H. unfold bytes_of. apply list_fmap_ext. intros k x Hx.
  apply lookup_seqZ in Hx as [-> Hk]. apply H. lia.
Qed.
Lemma bytes_of_app m a n n' :
  0 ≤ n → 0 ≤ n' → bytes_of m a (n + n') = bytes_of m a n ++ bytes_of m (a + n) n'.
Proof.
  intros Hn Hn'. unfold bytes_of, range. rewrite !Z.sub_0_r, seqZ_app by lia.
  rewrite fmap_app. f_equal. replace (0 + n) with (n + 0) by lia.
  rewrite <- (fmap_add_seqZ n 0 n'), <- list_fmap_compose. apply list_fmap_ext.
  intros k x _. simpl. f_equal. lia.
Qed.
Lemma compare_bytes_eq x y : compare_bytes x y = 0 ↔ x = y.
Proof.
  revert y. induction x as [|a x IH]; intros [|b y]; cbn [compare_bytes]; [done|by split|by split|].
  destruct (Z.eqb_spec a b) as [->|Hne].
  - rewrite IH. split; [by intros ->|by intros [= ->]].
  - split; [by destruct (a <? b)|by intros [= -> _]].
Qed.
Lemma bytes_of_cons m a n : 0 < n → bytes_of m a n = peek m a :: bytes_of m (a + 1) (n - 1).
Proof.
  intros Hn. replace n with (1 + (n - 1)) at 1 by lia. rewrite bytes_of_app by lia.
  assert (bytes_of m a 1 = [peek m a]) as ->; [|done].
  unfold bytes_of, range. change (seqZ 0 (1 - 0)) with [0]. cbn [fmap list_fmap]. by rewrite Z.add_0_r.
Qed.
Lemma bytes_of_nil m a n : n ≤ 0 → bytes_of m a n = [].
Proof. intros Hn. unfold bytes_of. by rewrite range_nil. Qed.
Lemma length_bytes_of m a n : 0 ≤ n → length (bytes_of m a n) = Z.to_nat n.
Proof. intros Hn. unfold bytes_of, range. rewrite length_fmap, length_seqZ. lia. Qed.
