(* ===== verification/SanLibc.v ===== *)
(** * The runtime's own string functions ([sanitizer_libc.cc])

    The runtime does not call the C library for memory and strings: it has loops of
    its own, on plain [char]s, which are signed on the targets of the runtime. They
    are modelled as the loops are written, with the memory as argument; a loop that
    ends at a NUL takes as fuel one more than the size of the memory, and the
    equivalences with the functions of [Libc.v] show that it suffices. *)
From S2P Require Import Prelude Platform Labels UnionTable Union Z3 State Shadow Libc.

Section strings.
Implicit Types m : gmap Z Z.

(** The [char] at an address: signed, as on x86_64. *)
Definition chr m (a : Z) : Z := s8 (peek m a).
Definition string_fuel m : nat := S (size m).

(** ** Searching and comparing memory *)
Fixpoint memchr_loop m (s c : Z) (l : list Z) : Z :=
  match l with
  | [] => 0
  | i :: l => if chr m (s + i) =? c then s + i else memchr_loop m s c l
  end.
Definition internal_memchr m (s c n : Z) : Z := memchr_loop m s c (range 0 n).
Definition internal_memrchr m (s c n : Z) : Z :=
  foldl (λ res i, if chr m (s + i) =? c then s + i else res) 0 (range 0 n).
Fixpoint memcmp_loop m (s1 s2 : Z) (l : list Z) : Z :=
  match l with
  | [] => 0
  | i :: l =>
      let c1 := chr m (s1 + i) in let c2 := chr m (s2 + i) in
      if negb (c1 =? c2) then if c1 <? c2 then -1 else 1 else memcmp_loop m s1 s2 l
  end.
Definition internal_memcmp m (s1 s2 n : Z) : Z := memcmp_loop m s1 s2 (range 0 n).

(** ** Strings *)
Fixpoint strlen_loop (fuel : nat) m (s i : Z) : option Z :=
  match fuel with
  | O => None
  | S fuel => if chr m (s + i) =? 0 then Some i else strlen_loop fuel m s (i + 1)
  end.
Definition internal_strlen m (s : Z) : option Z := strlen_loop (string_fuel m) m s 0.

(** [unsigned c1 = *s1]: the sign is extended before the comparison. *)
Fixpoint strcmp_loop (fuel : nat) m (s1 s2 : Z) : option Z :=
  match fuel with
  | O => None
  | S fuel =>
      let c1 := u32 (chr m s1) in let c2 := u32 (chr m s2) in
      if negb (c1 =? c2) then Some (if c1 <? c2 then -1 else 1)
      else if c1 =? 0 then Some 0 else strcmp_loop fuel m (s1 + 1) (s2 + 1)
  end.
Definition internal_strcmp m (s1 s2 : Z) : option Z := strcmp_loop (string_fuel m) m s1 s2.
Fixpoint strncmp_loop (n : nat) m (s1 s2 : Z) : Z :=
  match n with
  | O => 0
  | S n =>
      let c1 := u32 (chr m s1) in let c2 := u32 (chr m s2) in
      if negb (c1 =? c2) then (if c1 <? c2 then -1 else 1)
      else if c1 =? 0 then 0 else strncmp_loop n m (s1 + 1) (s2 + 1)
  end.
Definition internal_strncmp m (s1 s2 n : Z) : Z := strncmp_loop (Z.to_nat n) m s1 s2.

Fixpoint strchr_loop (fuel : nat) m (s c : Z) : option Z :=
  match fuel with
  | O => None
  | S fuel =>
      if chr m s =? s8 c then Some s else if chr m s =? 0 then Some 0 else strchr_loop fuel m (s + 1) c
  end.
Definition internal_strchr m (s c : Z) : option Z := strchr_loop (string_fuel m) m s c.
Definition internal_strchrnul m (s c : Z) : option Z :=
  res ← internal_strchr m s c;
  if res =? 0 then len ← internal_strlen m s; Some (s + len) else Some res.
(** [c] is compared as the [int] it is. *)
Fixpoint strrchr_loop (fuel : nat) m (s c i res : Z) : option Z :=
  match fuel with
  | O => None
  | S fuel =>
      if chr m (s + i) =? 0 then Some res
      else strrchr_loop fuel m s c (i + 1) (if chr m (s + i) =? c then s + i else res)
  end.
Definition internal_strrchr m (s c : Z) : option Z := strrchr_loop (string_fuel m) m s c 0 0.
Fixpoint strcspn_loop (fuel : nat) m (s reject i : Z) : option Z :=
  match fuel with
  | O => None
  | S fuel =>
      if chr m (s + i) =? 0 then Some i else
      found ← internal_strchr m reject (chr m (s + i));
      if negb (found =? 0) then Some i else strcspn_loop fuel m s reject (i + 1)
  end.
Definition internal_strcspn m (s reject : Z) : option Z := strcspn_loop (string_fuel m) m s reject 0.
Fixpoint strnlen_loop (fuel : nat) m (s maxlen i : Z) : option Z :=
  match fuel with
  | O => None
  | S fuel =>
      if (i <? maxlen) && negb (chr m (s + i) =? 0) then strnlen_loop fuel m s maxlen (i + 1) else Some i
  end.
Definition internal_strnlen m (s maxlen : Z) : option Z := strnlen_loop (string_fuel m) m s maxlen 0.
Fixpoint strstr_loop m (haystack needle len2 : Z) (l : list Z) : Z :=
  match l with
  | [] => 0
  | pos :: l =>
      if internal_memcmp m (haystack + pos) needle len2 =? 0 then haystack + pos
      else strstr_loop m haystack needle len2 l
  end.
Definition internal_strstr m (haystack needle : Z) : option Z :=
  len1 ← internal_strlen m haystack;
  len2 ← internal_strlen m needle;
  if len1 <? len2 then Some 0
  else Some (strstr_loop m haystack needle len2 (range 0 (len1 - len2 + 1))).

(** ** Copying *)

(** [internal_memmove] on the memory, for a size that is not negative as a
    [sptr]. *)
Definition move_mem m (dest src n : Z) : gmap Z Z :=
  if dest <? src then copy_fwd 1 m dest src n
  else if (src <? dest) && (0 <? n) then copy_bwd 1 m dest src n else m.

(** [for (i = 0; i < n && src[i]; i++) dst[i] = src[i]]: the memory and the final
    [i]. *)
Fixpoint copy_string (fuel : nat) m (dst src n i : Z) : option (gmap Z Z * Z) :=
  match fuel with
  | O => None
  | S fuel =>
      if (i <? n) && negb (chr m (src + i) =? 0)
      then copy_string fuel (poke m (dst + i) (peek m (src + i))) dst src n (i + 1)
      else Some (m, i)
  end.
(** The loop of a copy into the string itself may run further than the memory: its
    bound is [n]. *)
Definition internal_strncpy m (dst src n : Z) : option (gmap Z Z) :=
  '(m, i) ← copy_string (S (Z.to_nat n)) m dst src n 0;
  Some (fill m (dst + i) 0 (n - i)).
Definition internal_strncat m (dst src n : Z) : option (gmap Z Z) :=
  len ← internal_strlen m dst;
  '(m, i) ← copy_string (S (Z.to_nat n)) m (dst + len) src n 0;
  Some (poke m (dst + len + i) 0).
Definition internal_strlcpy m (dst src maxlen : Z) : option (gmap Z Z * Z) :=
  srclen ← internal_strlen m src;
  Some (if srclen <? maxlen then move_mem m dst src (srclen + 1)
        else if negb (maxlen =? 0) then poke (move_mem m dst src (maxlen - 1)) (dst + (maxlen - 1)) 0
        else m, srclen).
Definition internal_strlcat m (dst src maxlen : Z) : option (gmap Z Z * Z) :=
  srclen ← internal_strlen m src;
  dstlen ← internal_strnlen m dst maxlen;
  if dstlen =? maxlen then Some (m, maxlen + srclen) else
  Some (if srclen <? maxlen - dstlen then move_mem m (dst + dstlen) src (srclen + 1)
        else poke (move_mem m (dst + dstlen) src (maxlen - dstlen - 1)) (dst + (maxlen - 1)) 0,
        dstlen + srclen).
(** [InternalAlloc] returned [s2]. *)
Definition internal_strdup m (s s2 : Z) : option (gmap Z Z) :=
  len ← internal_strlen m s;
  Some (poke (copy_fwd 1 m s2 s len) (s2 + len) 0).

(** ** [mem_is_zero]: byte by byte up to a word boundary, then word by word, then
    byte by byte; words are little-endian. [None]: the [CHECK] on the size fails. *)
Definition word_size : Z := 8.
Definition round_up (x : Z) : Z := Z.land (u64 (x + word_size - 1)) (u64 (- word_size)).
Definition round_down (x : Z) : Z := Z.land x (u64 (- word_size)).
Definition or_bytes m (all lo hi : Z) : Z := foldl (λ all a, Z.lor all (u64 (chr m a))) all (range lo hi).
Definition word_at m (a : Z) : Z :=
  foldr (λ k acc, Z.lor (peek m (a + k)) (Z.shiftl acc 8)) 0 (range 0 word_size).
Definition or_words m (all lo hi : Z) : Z :=
  foldl (λ all k, Z.lor all (word_at m (lo + word_size * k))) all (range 0 ((hi - lo) / word_size)).
Definition mem_is_zero m (beg size : Z) : option bool :=
  if 2 ^ 40 <? size then None else
  let last := beg + size in
  let aligned_beg := round_up beg in
  let aligned_end := round_down last in
  let all := or_bytes m 0 beg (Z.min aligned_beg last) in
  let all := or_words m all aligned_beg aligned_end in
  let all := if beg <=? aligned_end then or_bytes m all aligned_end last else all in
  Some (all =? 0).
End strings.

(** ** Characters *)
Section facts.
Context (m : gmap Z Z) (Hm : ∀ a, in_range 8 (peek m a)).

Lemma s8_byte x : in_range 8 x → s8 x = if x <? 128 then x else x - 256.
Proof. intros Hx. unfold s8, swrap. rewrite wrap_small by done. done. Qed.
Lemma chr_eq a b : (chr m a =? chr m b) = (peek m a =? peek m b).
Proof.
  unfold chr. pose proof (Hm a) as Ha. pose proof (Hm b) as Hb. rewrite !s8_byte by done. unfold in_range in *.
  destruct (peek m a <? 128) eqn:?, (peek m b <? 128) eqn:?; lia.
Qed.
Lemma chr_zero a : (chr m a =? 0) = (peek m a =? 0).
Proof. unfold chr. pose proof (Hm a) as Ha. rewrite s8_byte by done. unfold in_range in *. destruct (peek m a <? 128) eqn:?; lia. Qed.
Lemma chr_char a c : (chr m a =? s8 c) = (peek m a =? u8 c).
Proof.
  assert (s8 c = s8 (u8 c)) as -> by (unfold s8, swrap; by rewrite u8_idemp || (fold (u8 c) (u8 (u8 c)); by rewrite u8_idemp)).
  unfold chr. pose proof (Hm a) as Ha. pose proof (u8_range c) as Hc. rewrite !s8_byte by done. unfold in_range in *.
  destruct (peek m a <? 128) eqn:?, (u8 c <? 128) eqn:?; lia.
Qed.
Lemma chr_int a c : 0 ≤ c < 128 → (chr m a =? c) = (peek m a =? c).
Proof. intros Hc. unfold chr. pose proof (Hm a) as Ha. rewrite s8_byte by done. unfold in_range in *. destruct (peek m a <? 128) eqn:?; lia. Qed.
(** The sign extension to [unsigned] keeps the order of the bytes. *)
Lemma u32_chr a : u32 (chr m a) = if peek m a <? 128 then peek m a else peek m a + (2 ^ 32 - 256).
Proof.
  unfold chr. pose proof (Hm a) as Ha. rewrite s8_byte by done. unfold in_range in Ha.
  destruct (peek m a <? 128) eqn:E; unfold u32; [apply wrap_small; unfold in_range; lia|].
  unfold wrap. symmetry. apply (Z.mod_unique _ _ (-1)); lia.
Qed.
Lemma u32_chr_eq a b : (u32 (chr m a) =? u32 (chr m b)) = (peek m a =? peek m b).
Proof.
  pose proof (Hm a) as Ha. pose proof (Hm b) as Hb. rewrite !u32_chr. unfold in_range in *.
  destruct (peek m a <? 128) eqn:?, (peek m b <? 128) eqn:?; lia.
Qed.
Lemma u32_chr_lt a b : (u32 (chr m a) <? u32 (chr m b)) = (peek m a <? peek m b).
Proof.
  pose proof (Hm a) as Ha. pose proof (Hm b) as Hb. rewrite !u32_chr. unfold in_range in *.
  destruct (peek m a <? 128) eqn:?, (peek m b <? 128) eqn:?; lia.
Qed.
Lemma u32_chr_zero a : (u32 (chr m a) =? 0) = (peek m a =? 0).
Proof. pose proof (Hm a) as Ha. rewrite !u32_chr. unfold in_range in *. destruct (peek m a <? 128) eqn:?; lia. Qed.

(** ** Strings *)
Lemma cstr_unfold a : cstr m a = if peek m a =? 0 then [] else peek m a :: cstr m (a + 1).
Proof.
  rewrite !cstr_bytes. destruct (strlen_nul m a) as (H0 & H1 & H2). destruct (Z.eqb_spec (peek m a) 0) as [Hz|Hz].
  - assert (strlen m a = 0) as ->; [|done]. apply strlen_unique; [lia|lia|]. by rewrite Z.add_0_r.
  - assert (strlen m a ≠ 0) as Hne by (intros E; rewrite E, Z.add_0_r in H2; done).
    assert (strlen m (a + 1) = strlen m a - 1) as ->.
    { apply strlen_unique; [lia| |by replace (a + 1 + (strlen m a - 1)) with (a + strlen m a) by lia].
      intros i Hi. replace (a + 1 + i) with (a + (1 + i)) by lia. apply H1. lia. }
    by rewrite (bytes_of_cons m a (strlen m a)) by lia.
Qed.
Lemma strlen_size a : strlen m a ≤ Z.of_nat (size m).
Proof. destruct (strlen_nul m a) as (H0 & H1 & _). by apply (nonzero_run_bound m a). Qed.
Lemma cstr_fuel a : (length (cstr m a) < string_fuel m)%nat.
Proof. pose proof (strlen_size a) as H. unfold strlen in H. unfold string_fuel. lia. Qed.

Lemma internal_strlen_run s : internal_strlen m s = Some (strlen m s).
Proof.
  destruct (strlen_nul m s) as (H0 & H1 & H2).
  assert (∀ fuel i, 0 ≤ i ≤ strlen m s → strlen m s - i < Z.of_nat fuel →
            strlen_loop fuel m s i = Some (strlen m s)) as Hl.
  { induction fuel as [|fuel IH]; intros i Hi Hf; [lia|]. cbn [strlen_loop]. rewrite chr_zero.
    destruct (Z.eqb_spec (peek m (s + i)) 0) as [Hz|Hz].
    - destruct (decide (i = strlen m s)) as [->|]; [done|]. by destruct (H1 i ltac:(lia)).
    - apply IH; [|lia]. destruct (decide (i = strlen m s)) as [->|]; [done|lia]. }
  apply Hl; [lia|]. pose proof (strlen_size s). unfold string_fuel. lia.
Qed.
Lemma strcmp_loop_run fuel s1 s2 :
  (length (cstr m s1) < fuel)%nat → strcmp_loop fuel m s1 s2 = Some (strcmp m s1 s2).
Proof.
  unfold strcmp. revert s1 s2. induction fuel as [|fuel IH]; intros s1 s2 Hf; [lia|]. cbn [strcmp_loop]. cbv zeta.
  rewrite u32_chr_eq, u32_chr_lt, u32_chr_zero. rewrite (cstr_unfold s1) in Hf |- *. rewrite (cstr_unfold s2).
  pose proof (Hm s1) as H1. pose proof (Hm s2) as H2. unfold in_range in *.
  destruct (Z.eqb_spec (peek m s1) (peek m s2)) as [Heq|Hne]; cbn [negb].
  - rewrite <-Heq. destruct (Z.eqb_spec (peek m s1) 0) as [Hz|Hz]; [done|]. cbn [compare_bytes length] in *.
    rewrite Z.eqb_refl. apply IH. lia.
  - destruct (Z.eqb_spec (peek m s1) 0) as [Hz|Hz], (Z.eqb_spec (peek m s2) 0) as [Hz2|Hz2]; cbn [compare_bytes];
      [lia| | |rewrite (proj2 (Z.eqb_neq _ _)) by done; done].
    + by rewrite (proj2 (Z.ltb_lt _ _)) by lia.
    + by rewrite (proj2 (Z.ltb_ge _ _)) by lia.
Qed.
Lemma strncmp_loop_run n s1 s2 :
  strncmp_loop n m s1 s2 = compare_bytes (take n (cstr m s1)) (take n (cstr m s2)).
Proof.
  revert s1 s2. induction n as [|n IH]; intros s1 s2; [done|]. cbn [strncmp_loop]. cbv zeta.
  rewrite u32_chr_eq, u32_chr_lt, u32_chr_zero. rewrite (cstr_unfold s1), (cstr_unfold s2).
  pose proof (Hm s1) as H1. pose proof (Hm s2) as H2. unfold in_range in *.
  destruct (Z.eqb_spec (peek m s1) (peek m s2)) as [Heq|Hne]; cbn [negb].
  - rewrite <-Heq. destruct (Z.eqb_spec (peek m s1) 0) as [Hz|Hz]; [done|]. cbn [take compare_bytes].
    rewrite Z.eqb_refl. apply IH.
  - destruct (Z.eqb_spec (peek m s1) 0) as [Hz|Hz], (Z.eqb_spec (peek m s2) 0) as [Hz2|Hz2]; cbn [take compare_bytes];
      [lia| | |rewrite (proj2 (Z.eqb_neq _ _)) by done; done].
    + by rewrite (proj2 (Z.ltb_lt _ _)) by lia.
    + by rewrite (proj2 (Z.ltb_ge _ _)) by lia.
Qed.
Lemma strchr_loop_run fuel s c :
  (length (cstr m s) < fuel)%nat → strchr_loop fuel m s c = Some (strchr m s c).
Proof.
  unfold strchr. revert s. induction fuel as [|fuel IH]; intros s Hf; [lia|]. cbn [strchr_loop].
  rewrite chr_char, chr_zero. rewrite (cstr_unfold s) in Hf |- *.
  destruct (Z.eqb_spec (peek m s) 0) as [Hz|Hz]; cbn [app find_from length] in *.
  - rewrite Hz. by destruct (0 =? u8 c).
  - destruct (peek m s =? u8 c); [done|]. apply IH. lia.
Qed.
Lemma strnlen_loop_run fuel s maxlen i :
  0 ≤ i ≤ strlen m s → strlen m s - i < Z.of_nat fuel → 0 ≤ maxlen → i ≤ maxlen →
  strnlen_loop fuel m s maxlen i = Some (Z.min (strlen m s) maxlen).
Proof.
  destruct (strlen_nul m s) as (H0 & H1 & H2).
  revert i. induction fuel as [|fuel IH]; intros i Hi Hf Hx Hix; [lia|]. cbn [strnlen_loop]. rewrite chr_zero.
  destruct (Z.ltb_spec i maxlen) as [Hlt|Hge]; cbn [andb]; [|f_equal; lia].
  destruct (Z.eqb_spec (peek m (s + i)) 0) as [Hz|Hz]; cbn [negb].
  - destruct (decide (i = strlen m s)) as [->|]; [f_equal; lia|]. by destruct (H1 i ltac:(lia)).
  - apply IH; [|lia..]. destruct (decide (i = strlen m s)) as [->|]; [done|lia].
Qed.
Lemma internal_strnlen_run s maxlen : 0 ≤ maxlen → internal_strnlen m s maxlen = Some (Z.min (strlen m s) maxlen).
Proof.
  intros H. destruct (strlen_nul m s) as (H0 & _). pose proof (strlen_size s).
  apply strnlen_loop_run; unfold string_fuel; lia.
Qed.
Lemma strrchr_loop_run fuel s c i res :
  0 < c < 128 → 0 ≤ i ≤ strlen m s → strlen m s - i < Z.of_nat fuel →
  strrchr_loop fuel m s c i res = Some (find_last (s + i) c res (bytes_of m (s + i) (strlen m s - i) ++ [0])).
Proof.
  intros Hc. destruct (strlen_nul m s) as (H0 & H1 & H2).
  revert i res. induction fuel as [|fuel IH]; intros i res Hi Hf; [lia|]. cbn [strrchr_loop].
  rewrite chr_zero, (chr_int _ c) by lia. destruct (decide (i = strlen m s)) as [->|Hne].
  - rewrite H2, bytes_of_nil by lia. cbn [app find_last]. rewrite Z.eqb_refl. by rewrite (proj2 (Z.eqb_neq 0 c)) by lia.
  - rewrite (proj2 (Z.eqb_neq _ _)) by (apply H1; lia). rewrite IH by lia.
    rewrite (bytes_of_cons m (s + i)) by lia. cbn [app find_last].
    by replace (s + i + 1) with (s + (i + 1)) by lia; replace (strlen m s - i - 1) with (strlen m s - (i + 1)) by lia.
Qed.

(** ** Memory *)
Lemma memchr_loop_run s c n i :
  0 ≤ c < 128 → 0 ≤ i → memchr_loop m s c (range i n) = find_from (s + i) c (bytes_of m (s + i) (n - i)).
Proof.
  intros Hc. remember (Z.to_nat (n - i)) as k eqn:Hk. revert i Hk. induction k as [|k IH]; intros i Hk Hi.
  - by rewrite range_nil, bytes_of_nil by lia.
  - rewrite range_cons, bytes_of_cons by lia. cbn [memchr_loop find_from]. rewrite chr_int by done.
    destruct (peek m (s + i) =? c); [done|]. rewrite IH by lia.
    by replace (s + i + 1) with (s + (i + 1)) by lia; replace (n - i - 1) with (n - (i + 1)) by lia.
Qed.
(** [internal_memcmp] is the comparison of the bytes as [signed char]s. *)
Lemma internal_memcmp_run s1 s2 n :
  internal_memcmp m s1 s2 n = compare_bytes (s8 <$> bytes_of m s1 n) (s8 <$> bytes_of m s2 n).
Proof.
  unfold internal_memcmp, bytes_of. induction (range 0 n) as [|i l IH]; [done|].
  cbn [memcmp_loop fmap list_fmap compare_bytes]. cbv zeta. rewrite IH. unfold chr.
  by destruct (s8 (peek m (s1 + i)) =? s8 (peek m (s2 + i))).
Qed.
Lemma compare_bytes_chars (x y : list Z) :
  Forall (in_range 8) x → Forall (in_range 8) y → compare_bytes (s8 <$> x) (s8 <$> y) = 0 ↔ x = y.
Proof.
  intros Hx Hy. rewrite compare_bytes_eq. split; [|by intros ->]. revert y Hy.
  induction Hx as [|a x Ha Hx IH]; intros y Hy E; destruct Hy as [|b y Hb Hy]; try done.
  cbn in E. injection E as E1 E2. f_equal; [|by apply IH]. rewrite !s8_byte in E1 by done.
  unfold in_range in *. destruct (a <? 128) eqn:?, (b <? 128) eqn:?; lia.
Qed.
Lemma bytes_range a n : Forall (in_range 8) (bytes_of m a n).
Proof. unfold bytes_of. apply Forall_fmap, Forall_true. intros i. apply Hm. Qed.
Lemma internal_memcmp_zero s1 s2 n : internal_memcmp m s1 s2 n = 0 ↔ bytes_of m s1 n = bytes_of m s2 n.
Proof. rewrite internal_memcmp_run. apply compare_bytes_chars; apply bytes_range. Qed.
(** On ASCII it is the comparison of the C library. *)
Lemma internal_memcmp_ascii s1 s2 n :
  Forall (λ b, b < 128) (bytes_of m s1 n) → Forall (λ b, b < 128) (bytes_of m s2 n) →
  internal_memcmp m s1 s2 n = memcmp m s1 s2 n.
Proof.
  assert (∀ a, Forall (λ b, b < 128) (bytes_of m a n) → s8 <$> bytes_of m a n = bytes_of m a n) as Ha.
  { intros a H. rewrite <-(list_fmap_id (bytes_of m a n)) at 2. apply list_fmap_ext. intros k x Hx.
    pose proof (bytes_range a n) as Hr. rewrite Forall_lookup in H, Hr. rewrite s8_byte by eauto.
    by rewrite (proj2 (Z.ltb_lt _ _)) by eauto. }
  intros H1 H2. by rewrite internal_memcmp_run, !Ha.
Qed.

Lemma internal_strrchr_run s c : 0 < c < 128 → internal_strrchr m s c = Some (strrchr m s c).
Proof.
  intros Hc. destruct (strlen_nul m s) as (H0 & _). pose proof (strlen_size s).
  unfold internal_strrchr, strrchr. rewrite strrchr_loop_run by (unfold string_fuel; lia).
  unfold u8. rewrite wrap_small by (unfold in_range; lia). by rewrite cstr_bytes, Z.add_0_r, Z.sub_0_r.
Qed.
Lemma internal_memchr_run s c n : 0 ≤ c < 128 → internal_memchr m s c n = memchr m s c n.
Proof.
  intros Hc. unfold internal_memchr, memchr. rewrite memchr_loop_run by lia.
  unfold u8. rewrite wrap_small by (unfold in_range; lia). by rewrite Z.add_0_r, Z.sub_0_r.
Qed.

(** ** Searching a string *)
Lemma take_bytes a n k : 0 ≤ k ≤ n → take (Z.to_nat k) (bytes_of m a n) = bytes_of m a k.
Proof.
  intros Hk. replace n with (k + (n - k)) by lia. rewrite bytes_of_app by lia.
  by rewrite take_app_length' by (rewrite length_bytes_of; lia).
Qed.
Lemma find_sub_short a needle bs : (length bs < length needle)%nat → find_sub a needle bs = 0.
Proof.
  revert a. induction bs as [|b bs IH]; intros a Hl; cbn [find_sub].
  - rewrite take_nil. case_decide as E; [rewrite <-E in Hl; cbn in Hl; lia|done].
  - case_decide as E; [|apply IH; cbn in Hl; lia]. apply (f_equal length) in E. rewrite length_take in E. lia.
Qed.
Lemma strstr_loop_run h needle len1 len2 pos :
  0 < len2 → 0 ≤ pos ≤ len1 →
  strstr_loop m h needle len2 (range pos (len1 - len2 + 1)) =
    find_sub (h + pos) (bytes_of m needle len2) (bytes_of m (h + pos) (len1 - pos)).
Proof.
  intros H2. remember (Z.to_nat (len1 - pos)) as k eqn:Hk. revert pos Hk. induction k as [|k IH]; intros pos Hk Hp.
  { rewrite range_nil, find_sub_short by (rewrite ?length_bytes_of; lia). done. }
  destruct (decide (len1 - pos < len2)) as [Hs|Hs].
  { rewrite range_nil, find_sub_short by (rewrite ?length_bytes_of; lia). done. }
  rewrite range_cons by lia. cbn [strstr_loop].
  rewrite (bytes_of_cons m (h + pos) (len1 - pos)) by lia. cbn [find_sub].
  rewrite <-(bytes_of_cons m (h + pos) (len1 - pos)) by lia.
  rewrite length_bytes_of, take_bytes by lia.
  destruct (Z.eqb_spec (internal_memcmp m (h + pos) needle len2) 0) as [E|E]; rewrite internal_memcmp_zero in E.
  - by rewrite decide_True.
  - rewrite decide_False, IH by (done || lia).
    by replace (h + pos + 1) with (h + (pos + 1)) by lia; replace (len1 - pos - 1) with (len1 - (pos + 1)) by lia.
Qed.
Lemma internal_strstr_run h needle : internal_strstr m h needle = Some (strstr m h needle).
Proof.
  unfold internal_strstr, strstr. rewrite !internal_strlen_run. cbn [mbind option_bind]. rewrite !cstr_bytes.
  destruct (strlen_nul m h) as (H0 & _). destruct (strlen_nul m needle) as (H1 & _).
  destruct (Z.ltb_spec (strlen m h) (strlen m needle)) as [Hl|Hl].
  - by rewrite find_sub_short by (rewrite !length_bytes_of; lia).
  - f_equal. destruct (decide (strlen m needle = 0)) as [->|Hn].
    + rewrite range_cons, (bytes_of_nil m needle) by lia. cbn [strstr_loop]. unfold internal_memcmp.
      rewrite range_nil by lia. cbn [memcmp_loop]. rewrite Z.eqb_refl, Z.add_0_r.
      by destruct (bytes_of m h (strlen m h)).
    + rewrite strstr_loop_run by lia. by rewrite Z.add_0_r, Z.sub_0_r.
Qed.

(** ** [mem_is_zero] *)
Lemma foldl_lor_zero {A} (f : A → Z) (l : list A) all :
  foldl (λ all a, Z.lor all (f a)) all l = 0 ↔ all = 0 ∧ ∀ a, a ∈ l → f a = 0.
Proof.
  revert all. induction l as [|x l IH]; intros all; cbn [foldl].
  - split; [intros ->; split; [done|]; by intros a ?%elem_of_nil|by intros [-> _]].
  - rewrite IH, Z.lor_eq_0_iff. split.
    + intros ([? Hx] & Hl). split; [done|]. intros a [->|Ha]%elem_of_cons; eauto.
    + intros (? & Hl). split_and!; [done|apply Hl, elem_of_cons; by left|]. intros a Ha. apply Hl, elem_of_cons. by right.
Qed.
Lemma or_bytes_zero all lo hi : or_bytes m all lo hi = 0 ↔ all = 0 ∧ ∀ a, lo ≤ a < hi → peek m a = 0.
Proof.
  unfold or_bytes. rewrite (foldl_lor_zero (λ a, u64 (chr m a))). f_equiv.
  assert (∀ a, u64 (chr m a) = 0 ↔ peek m a = 0) as Hz.
  { intros a. pose proof (chr_zero a) as Hc. pose proof (Hm a) as Ha. unfold chr in *. rewrite s8_byte in * by done.
    unfold in_range in Ha. unfold u64, wrap. split.
    - intros E. destruct (peek m a <? 128) eqn:El; [rewrite Z.mod_small in E by lia; lia|].
      exfalso. rewrite <-(Z.mod_unique (peek m a - 256) (2 ^ 64) (-1) (peek m a - 256 + 2 ^ 64)) in E; lia.
    - by intros ->. }
  split; intros H a Ha; [apply Hz, H; by apply elem_of_range|apply Hz, H; by apply elem_of_range].
Qed.
Lemma word_at_zero a : word_at m a = 0 ↔ ∀ k, 0 ≤ k < 8 → peek m (a + k) = 0.
Proof.
  unfold word_at, word_size. assert (∀ l, foldr (λ k acc, Z.lor (peek m (a + k)) (Z.shiftl acc 8)) 0 l = 0 ↔
    ∀ k, k ∈ l → peek m (a + k) = 0) as Hl.
  { induction l as [|x l IH]; cbn [foldr].
    - split; [by intros _ k ?%elem_of_nil|done].
    - rewrite Z.lor_eq_0_iff, Z.shiftl_eq_0_iff, IH by lia. split.
      + intros [? Hl] k [->|Hk]%elem_of_cons; eauto.
      + intros Hl. split; [apply Hl, elem_of_cons; by left|]. intros k Hk. apply Hl, elem_of_cons. by right. }
  rewrite Hl. split; intros H k Hk; apply H; by apply elem_of_range.
Qed.
Lemma or_words_zero all lo hi :
  (8 | hi - lo) → or_words m all lo hi = 0 ↔ all = 0 ∧ ∀ a, lo ≤ a < hi → peek m a = 0.
Proof.
  intros [q Hq]. unfold or_words, word_size. rewrite (foldl_lor_zero (λ k, word_at m (lo + 8 * k))). f_equiv.
  rewrite Hq, Z.div_mul by lia. split.
  - intros H a Ha. replace a with (lo + 8 * ((a - lo) / 8) + (a - lo) mod 8) by (pose proof (Z.div_mod (a - lo) 8); lia).
    apply word_at_zero; [|apply Z.mod_pos_bound; lia]. apply H, elem_of_range.
    split; [apply Z.div_pos; lia|apply Z.div_lt_upper_bound; lia].
  - intros H k Hk%elem_of_range. apply word_at_zero. intros j Hj. apply H. lia.
Qed.
Lemma round_down_div x : in_range 64 x → round_down x = 8 * (x / 8).
Proof.
  intros Hx. unfold round_down, word_size. change (u64 (- (8))) with (Z.ldiff (Z.ones 64) (Z.ones 3)).
  rewrite Z.ldiff_land, Z.land_assoc, Z.land_ones by lia. rewrite Z.mod_small by done.
  rewrite <-Z.ldiff_land, Z.ldiff_ones_r, Z.shiftl_mul_pow2, Z.shiftr_div_pow2 by lia. change (2 ^ 3) with 8. lia.
Qed.
Lemma mem_is_zero_run beg size :
  0 ≤ beg → 0 ≤ size ≤ 2 ^ 40 → beg + size + 8 ≤ 2 ^ 64 →
  mem_is_zero m beg size = Some (forallb (Z.eqb 0) (bytes_of m beg size)).
Proof.
  intros Hb Hs He. unfold mem_is_zero. rewrite (proj2 (Z.ltb_ge _ _)) by lia. cbv zeta. f_equal.
  assert (round_up beg = 8 * ((beg + 7) / 8)) as ->.
  { unfold round_up, word_size. replace (beg + 8 - 1) with (beg + 7) by lia. unfold u64. rewrite wrap_small by (unfold in_range; lia).
    apply round_down_div. unfold in_range. lia. }
  rewrite round_down_div by (unfold in_range; lia).
  pose proof (Z.div_mod (beg + 7) 8 ltac:(lia)) as Hd1. pose proof (Z.mod_pos_bound (beg + 7) 8 ltac:(lia)) as Hm1.
  pose proof (Z.div_mod (beg + size) 8 ltac:(lia)) as Hd2. pose proof (Z.mod_pos_bound (beg + size) 8 ltac:(lia)) as Hm2.
  set (x := (beg + 7) / 8) in *. set (y := (beg + size) / 8) in *.
  apply eq_true_iff_eq. rewrite Z.eqb_eq, forallb_forall.
  assert ((∀ b, In b (bytes_of m beg size) → (0 =? b) = true) ↔ ∀ a, beg ≤ a < beg + size → peek m a = 0) as ->.
  { unfold bytes_of. split.
    - intros H a Ha. symmetry. apply Z.eqb_eq, H, list_elem_of_In, list_elem_of_fmap. exists (a - beg).
      rewrite elem_of_range. split; [f_equal; lia|lia].
    - intros H b Hb'. apply list_elem_of_In, list_elem_of_fmap in Hb' as (i & -> & Hi%elem_of_range).
      apply Z.eqb_eq. rewrite H by lia. done. }
  assert (or_words m (or_bytes m 0 beg (Z.min (8 * x) (beg + size))) (8 * x) (8 * y) = 0 ↔
    ∀ a, beg ≤ a < Z.min (8 * x) (beg + size) ∨ 8 * x ≤ a < 8 * y → peek m a = 0) as Hw.
  { rewrite or_words_zero, or_bytes_zero by (exists (y - x); lia).
    split; [intros [[_ H1] H2] a [?|?]; auto|intros H; split_and!; [done|intros; apply H; by left|intros; apply H; by right]]. }
  destruct (Z.leb_spec beg (8 * y)) as [Hby|Hby].
  - rewrite or_bytes_zero, Hw. split; [|intros H; split; intros; apply H; lia].
    intros [H1 H2] a Ha. destruct (decide (a < 8 * x)); [apply H1; lia|].
    destruct (decide (a < 8 * y)); [apply H1; lia|apply H2; lia].
  - rewrite Hw. split; intros H a Ha; apply H; lia.
Qed.
End facts.

(** ** Copying a string *)
Lemma move_mem_copied m d s n : 0 ≤ n → copied 1 m (move_mem m d s n) d s n.
Proof.
  intros Hn. unfold move_mem. destruct (Z.ltb_spec d s); [apply copy_fwd_copied; lia|].
  destruct (Z.ltb_spec s d); cbn [andb]; [|replace s with d by lia; apply copied_refl].
  destruct (Z.ltb_spec 0 n); [apply copy_bwd_copied; lia|]. split; [lia|done].
Qed.
Lemma copied_cstr m m' d s k :
  0 ≤ k ≤ strlen m s → (∀ i, 0 ≤ i < k → peek m' (d + 1 * i) = peek m (s + 1 * i)) → peek m' (d + k) = 0 →
  cstr m' d = take (Z.to_nat k) (cstr m s).
Proof.
  intros Hk Hc Hz. destruct (strlen_nul m s) as (_ & H1 & _).
  assert (∀ i, 0 ≤ i < k → peek m' (d + i) = peek m (s + i)) as Hb.
  { intros i Hi. specialize (Hc i Hi). by rewrite !Z.mul_1_l in Hc. }
  rewrite cstr_bytes, (strlen_unique m' d k); [|lia| |done].
  - rewrite cstr_bytes, take_bytes by lia. by apply bytes_of_ext.
  - intros i Hi. rewrite Hb by done. apply H1. lia.
Qed.
Lemma copied_outside m m' d s n a : copied 1 m m' d s n → a < d ∨ d + n ≤ a → peek m' a = peek m a.
Proof. intros [_ Hc] Ha. apply Hc. lia. Qed.
(** [internal_strlcpy] leaves a terminated prefix of the source and touches only the
    [maxlen] bytes of the buffer, for buffers that overlap the source too. *)
Lemma internal_strlcpy_run m dst src maxlen :
  (∀ a, in_range 8 (peek m a)) → 0 < maxlen →
  ∃ m', internal_strlcpy m dst src maxlen = Some (m', strlen m src) ∧
    cstr m' dst = take (Z.to_nat (maxlen - 1)) (cstr m src) ∧
    ∀ a, a < dst ∨ dst + maxlen ≤ a → peek m' a = peek m a.
Proof.
  intros Hm Hx. unfold internal_strlcpy. rewrite internal_strlen_run by done. cbn [mbind option_bind].
  destruct (strlen_nul m src) as (H0 & _ & Hz). eexists. split; [done|].
  destruct (Z.ltb_spec (strlen m src) maxlen) as [Hlt|Hge].
  - pose proof (move_mem_copied m dst src (strlen m src + 1) ltac:(lia)) as Hc. split.
    + destruct Hc as [Hc _]. rewrite (copied_cstr m _ dst src (strlen m src)).
      * rewrite !take_ge; [done|unfold strlen in *; lia..].
      * lia.
      * intros i Hi. apply Hc. lia.
      * specialize (Hc (strlen m src) ltac:(lia)). rewrite !Z.mul_1_l in Hc. congruence.
    + intros a Ha. apply (copied_outside _ _ _ _ _ _ Hc). lia.
  - rewrite (proj2 (Z.eqb_neq _ _)) by lia. cbn [negb].
    pose proof (move_mem_copied m dst src (maxlen - 1) ltac:(lia)) as Hc. split.
    + destruct Hc as [Hc _]. apply copied_cstr; [lia| |apply peek_poke_eq].
      intros i Hi. rewrite peek_poke_ne by lia. by apply Hc.
    + intros a Ha. rewrite peek_poke_ne by lia. apply (copied_outside _ _ _ _ _ _ Hc). lia.
Qed.

(** ** The functions of the runtime and those of the C library *)

(** C34: In a memory of bytes, the runtime's own string functions return on every
    argument and give what the C library gives: [internal_strlen], [internal_strnlen]
    (the minimum of the length and the bound), [internal_strcmp] and
    [internal_strncmp] (whose sign extension to [unsigned] keeps the order of the
    bytes), [internal_strchr] and [internal_strstr] for every argument,
    [internal_strrchr] and [internal_memchr] for an ASCII character;
    [internal_memcmp] is zero exactly for equal bytes; [mem_is_zero], which reads
    whole words between the unaligned ends, says whether all the bytes are zero; and
    [internal_strlcpy] leaves a terminated prefix of the source in the buffer and
    writes nothing outside it, overlapping buffers included. *)
Theorem internal_strings_agree (m : gmap Z Z) :
  (∀ a, in_range 8 (peek m a)) →
  (∀ s, internal_strlen m s = Some (strlen m s)) ∧
  (∀ s n, 0 ≤ n → internal_strnlen m s n = Some (Z.min (strlen m s) n)) ∧
  (∀ s1 s2, internal_strcmp m s1 s2 = Some (strcmp m s1 s2)) ∧
  (∀ s1 s2 n, internal_strncmp m s1 s2 n = strncmp m s1 s2 n) ∧
  (∀ s c, internal_strchr m s c = Some (strchr m s c)) ∧
  (∀ h n, internal_strstr m h n = Some (strstr m h n)) ∧
  (∀ s c, 0 < c < 128 → internal_strrchr m s c = Some (strrchr m s c)) ∧
  (∀ s c n, 0 ≤ c < 128 → internal_memchr m s c n = memchr m s c n) ∧
  (∀ s1 s2 n, internal_memcmp m s1 s2 n = 0 ↔ memcmp m s1 s2 n = 0) ∧
  (∀ beg n, 0 ≤ beg → 0 ≤ n ≤ 2 ^ 40 → beg + n + 8 ≤ 2 ^ 64 →
     mem_is_zero m beg n = Some (forallb (Z.eqb 0) (bytes_of m beg n))) ∧
  (∀ dst src maxlen, 0 < maxlen →
     ∃ m', internal_strlcpy m dst src maxlen = Some (m', strlen m src) ∧
       cstr m' dst = take (Z.to_nat (maxlen - 1)) (cstr m src) ∧
       ∀ a, a < dst ∨ dst + maxlen ≤ a → peek m' a = peek m a).
Proof.
  intros Hm. split_and!.
  - by apply internal_strlen_run.
  - by apply internal_strnlen_run.
  - intros s1 s2. apply strcmp_loop_run; [done|apply cstr_fuel].
  - intros s1 s2 n. by apply strncmp_loop_run.
  - intros s c. apply strchr_loop_run; [done|apply cstr_fuel].
  - by apply internal_strstr_run.
  - by apply internal_strrchr_run.
  - by apply internal_memchr_run.
  - intros s1 s2 n. rewrite internal_memcmp_zero by done. unfold memcmp. by rewrite compare_bytes_eq.
  - by apply mem_is_zero_run.
  - intros dst src maxlen. by apply internal_strlcpy_run.
Qed.
(** The string "ab" at 16 and "b" at 24, in a memory of five bytes. *)
Definition two_strings : gmap Z Z := store_bytes (store_bytes ∅ 16 [97; 98; 0]) 24 [98; 0].
Lemma internal_strings_agree_witness :
  internal_strstr two_strings 16 24 = Some 17 ∧ mem_is_zero two_strings 18 6 = Some true ∧
  (snd <$> internal_strlcpy two_strings 32 16 2) = Some 2.
Proof.
  assert (∀ a, in_range 8 (peek two_strings a)) as Hm.
  { intros a. unfold two_strings. rewrite !peek_store_bytes. unfold in_range.
    repeat case_decide; cbn [length] in *.
    - assert (a = 24 ∨ a = 25) as [-> | ->] by lia; split; by vm_compute.
    - assert (a = 16 ∨ a = 17 ∨ a = 18) as [-> |[-> | ->]] by lia; split; by vm_compute.
    - unfold peek. rewrite lookup_empty. split; by vm_compute. }
  destruct (internal_strings_agree two_strings Hm) as (_ & _ & _ & _ & _ & Hs & _ & _ & _ & Hz & Hc).
  split_and!.
  - rewrite Hs. by vm_compute.
  - rewrite Hz by lia. by vm_compute.
  - destruct (Hc 32 16 2 ltac:(lia)) as (m' & -> & _). by vm_compute.
Defined.

(** ** Where they differ from the C library *)

(** [internal_memcmp] orders bytes as signed characters: 0x80 sorts before 0x7f. *)
Lemma internal_memcmp_signed :
  let m := store_bytes ∅ 16 [128; 127] in internal_memcmp m 16 17 1 = -1 ∧ memcmp m 16 17 1 = 1.
Proof. by vm_compute. Qed.
(** [internal_memchr] and [internal_strrchr] compare a signed character with the
    [int] argument, so a byte from 0x80 on is never found by its value; and
    [internal_strrchr] does not consider the terminator. *)
Lemma internal_memchr_high :
  let m := store_bytes ∅ 16 [200; 0] in
  internal_memchr m 16 200 1 = 0 ∧ memchr m 16 200 1 = 16 ∧
  internal_strrchr m 16 200 = Some 0 ∧ strrchr m 16 200 = 16 ∧
  internal_strrchr m 16 0 = Some 0 ∧ strrchr m 16 0 = 17.
Proof. by vm_compute. Qed.
