(* ===== verification/SanPrintf.v ===== *)
(** * The runtime's own formatted output ([sanitizer_printf.cc])

    [VSNPrintf] and the functions it appends with, [internal_snprintf] and the
    two-buffer scheme of [Printf] and [Report]. The output buffer is application
    memory, written through the pointer [buff]; a [va_list] is the list of the
    remaining argument slots (64-bit words), of which [va_arg] of a narrower type
    takes the low bits. A format is a string literal. *)
From stdpp Require Import pretty.
From Stdlib Require Import Ascii.
From S2P Require Import Prelude Platform Labels UnionTable Union Z3 State Shadow Solver Init Libc.

(** ** State *)
Record pstate := Pstate {
  p_mem : gmap Z Z;
  p_buff : Z;                 (* [buff] *)
  p_args : list Z;            (* [args] *)
}.

(** [RAW_CHECK], [RAW_CHECK_MSG] and [CHECK] end the process with a message. *)
Definition raw_check {S} (msg : string) (b : bool) : M S () := if b then mret () else die msg.

(** [va_arg]: reading past the arguments is undefined. *)
Definition va_arg : M pstate Z :=
  s ← get;
  match p_args s with
  | [] => segv
  | x :: xs => put (Pstate (p_mem s) (p_buff s) xs) ;; mret x
  end.

(** ** Appending to the buffer *)
Definition AppendChar (buff_end c : Z) : M pstate Z :=
  s ← get;
  (if p_buff s <? buff_end
   then put (Pstate (poke (p_mem s) (p_buff s) (u8 c)) (p_buff s + 1) (p_args s))
   else mret ()) ;;
  mret 1.

Definition kMaxLen : nat := 30.
Definition c_zero : Z := 48.   (* '0' *)
Definition c_space : Z := 32.  (* ' ' *)
Definition c_minus : Z := 45.  (* '-' *)

(** The [do] loop: the digits in [num_buffer], least significant first, in the
    room that is left. *)
Fixpoint num_loop (room : nat) (absolute_value base : Z) : M pstate (list Z) :=
  match room with
  | O => die "AppendNumber buffer overflow"
  | S room =>
      if 0 <? absolute_value / base
      then ds ← num_loop room (absolute_value / base) base; mret (absolute_value mod base :: ds)
      else mret [absolute_value mod base]
  end.

(** The [for] loop over leading zeroes, from [num_buffer[pos]] down: how much it
    appends, and the digits that are left. *)
Fixpoint zeros_loop (buff_end : Z) (pad_with_zero : bool) (ds : list Z) : M pstate (Z * list Z) :=
  match ds with
  | [] => mret (0, [])
  | d :: rest =>
      if d =? 0 then
        let c := if pad_with_zero || bool_decide (rest = []) then c_zero else c_space in
        r ← AppendChar buff_end c;
        '(r', more) ← zeros_loop buff_end pad_with_zero rest;
        mret (r + r', more)
      else mret (0, ds)
  end.
Definition digit_char (uppercase : bool) (digit : Z) : Z :=
  if digit <? 10 then c_zero + digit else (if uppercase then 65 else 97) + digit - 10.
Fixpoint digits_loop (buff_end : Z) (uppercase : bool) (ds : list Z) : M pstate Z :=
  match ds with
  | [] => mret 0
  | d :: ds =>
      r ← AppendChar buff_end (digit_char uppercase d);
      r' ← digits_loop buff_end uppercase ds;
      mret (r + r')
  end.

Definition AppendNumber (buff_end absolute_value base minimal_num_length : Z)
    (pad_with_zero negative uppercase : bool) : M pstate Z :=
  raw_check "base == 10 || base == 16" ((base =? 10) || (base =? 16)) ;;
  raw_check "base == 10 || !negative" ((base =? 10) || negb negative) ;;
  raw_check "absolute_value || !negative" (negb (absolute_value =? 0) || negb negative) ;;
  raw_check "minimal_num_length < kMaxLen" (minimal_num_length <? Z.of_nat kMaxLen) ;;
  let minimal_num_length :=
    if negative && negb (minimal_num_length =? 0) then minimal_num_length - 1 else minimal_num_length in
  r0 ← (if negative && pad_with_zero then AppendChar buff_end c_minus else mret 0);
  ds ← num_loop kMaxLen absolute_value base;
  (* [pos] is the length of the digits, padded by [internal_memset] *)
  let num_buffer :=
    if Z.of_nat (length ds) <? minimal_num_length
    then ds ++ replicate (Z.to_nat (minimal_num_length - Z.of_nat (length ds))) 0
    else ds in
  raw_check "pos > 0" (0 <? Z.of_nat (length num_buffer)) ;;
  '(r1, more) ← zeros_loop buff_end pad_with_zero (reverse num_buffer);
  r2 ← (if negative && negb pad_with_zero then AppendChar buff_end c_minus else mret 0);
  r3 ← digits_loop buff_end uppercase more;
  mret (r0 + r1 + r2 + r3).

Definition AppendUnsigned (buff_end num base minimal_num_length : Z)
    (pad_with_zero uppercase : bool) : M pstate Z :=
  AppendNumber buff_end (u64 num) base minimal_num_length pad_with_zero false uppercase.
Definition AppendSignedDecimal (buff_end num minimal_num_length : Z)
    (pad_with_zero : bool) : M pstate Z :=
  let negative := num <? 0 in
  AppendNumber buff_end (u64 (if negative then - num else num)) 10 minimal_num_length
    pad_with_zero negative false.

(** A C string: in memory, or a literal of the runtime. *)
Inductive cptr := CPtr (a : Z) | CLit (bs : list Z).
Definition cread (m : gmap Z Z) (s : cptr) : Z :=
  match s with CPtr a => peek m a | CLit bs => default 0 (head bs) end.
Definition cnext (s : cptr) : cptr :=
  match s with CPtr a => CPtr (a + 1) | CLit bs => CLit (tail bs) end.

(** [for (; *s; s++)]; the bound is for a string that overlaps the buffer and
    so has no end. *)
Fixpoint string_loop (fuel : nat) (buff_end max_chars result : Z) (s : cptr) : M pstate Z :=
  match fuel with
  | O => out_of_fuel
  | S fuel =>
      m ← gets p_mem;
      if cread m s =? 0 then mret result else
      if (0 <=? max_chars) && (max_chars <=? result) then mret result else
      r ← AppendChar buff_end (cread m s);
      string_loop fuel buff_end max_chars (result + r) (cnext s)
  end.
(** [while (width < -result)] *)
Fixpoint pad_loop (fuel : nat) (buff_end width result : Z) : M pstate Z :=
  match fuel with
  | O => out_of_fuel
  | S fuel =>
      if width <? - result
      then r ← AppendChar buff_end c_space; pad_loop fuel buff_end width (result + r)
      else mret result
  end.
Definition cfuel (m : gmap Z Z) (s : cptr) : nat :=
  S (match s with CPtr _ => size m | CLit bs => length bs end).
Definition null_text : list Z := bytes_of_string "<null>".

Definition AppendString (buff_end width max_chars : Z) (s : cptr) : M pstate Z :=
  let s := match s with CPtr 0 => CLit null_text | _ => s end in
  m ← gets p_mem;
  result ← string_loop (cfuel m s) buff_end max_chars 0 s;
  pad_loop (S (Z.to_nat (- width - result))) buff_end width result.

(** [SANITIZER_POINTER_FORMAT_LENGTH] of a 64-bit platform other than MIPS *)
Definition SANITIZER_POINTER_FORMAT_LENGTH : Z := 12.
Definition AppendPointer (buff_end ptr_value : Z) : M pstate Z :=
  r ← AppendString buff_end 0 (-1) (CLit (bytes_of_string "0x"));
  r' ← AppendUnsigned buff_end ptr_value 16 SANITIZER_POINTER_FORMAT_LENGTH true false;
  mret (r + r').

(** ** The format *)
Definition char_at (s : string) : Z :=
  match s with EmptyString => 0 | String c _ => Z.of_nat (Ascii.nat_of_ascii c) end.
Definition rest_of (s : string) : string :=
  match s with EmptyString => EmptyString | String _ s => s end.
Definition is_char (s : string) (c : ascii) : bool :=
  match s with EmptyString => false | String d _ => Ascii.eqb d c end.
Definition is_digit (s : string) : bool := (48 <=? char_at s) && (char_at s <=? 57).

(** The [while] loop that reads a width. *)
Fixpoint width_loop (width : Z) (cur : string) : Z * string :=
  match cur with
  | EmptyString => (width, cur)
  | String _ rest =>
      if is_digit cur then width_loop (s32 (width * 10 + char_at cur - 48)) rest else (width, cur)
  end.

Definition kPrintfFormatsHelp : string := "Supported Printf formats".

(** The [switch] on the conversion character. *)
Definition conversion (buff_end : Z) (cur : string)
    (left_justified have_width pad_with_zero have_z have_ll : bool) (width precision : Z) : M pstate Z :=
  let have_length := have_z || have_ll in
  let have_flags := have_width || have_length in
  if is_char cur "d" then
    x ← va_arg;
    let dval := if have_ll then s64 x else if have_z then s64 x else s32 x in
    AppendSignedDecimal buff_end dval (u8 width) pad_with_zero
  else if is_char cur "u" || is_char cur "x" || is_char cur "X" then
    x ← va_arg;
    let uval := if have_ll then u64 x else if have_z then u64 x else u32 x in
    AppendUnsigned buff_end uval (if is_char cur "u" then 10 else 16) (u8 width) pad_with_zero
      (is_char cur "X")
  else if is_char cur "p" then
    raw_check kPrintfFormatsHelp (negb have_flags) ;;
    x ← va_arg;
    AppendPointer buff_end (u64 x)
  else if is_char cur "s" then
    raw_check kPrintfFormatsHelp (negb have_length) ;;
    raw_check "!have_width || left_justified" (negb have_width || left_justified) ;;
    x ← va_arg;
    AppendString buff_end (if left_justified then - width else width) precision (CPtr (u64 x))
  else if is_char cur "c" then
    raw_check kPrintfFormatsHelp (negb have_flags) ;;
    x ← va_arg;
    AppendChar buff_end x
  else if is_char cur "%" then
    raw_check kPrintfFormatsHelp (negb have_flags) ;;
    AppendChar buff_end 37
  else die kPrintfFormatsHelp.

(** Precision and length, up to the conversion character, which is the first one
    of the string returned. *)
Definition directive_rest (buff_end : Z) (left_justified have_width pad_with_zero : bool) (width : Z)
    (cur : string) : M pstate (Z * string) :=
  let have_precision := is_char cur "." && is_char (rest_of cur) "*" in
  let cur := if have_precision then rest_of (rest_of cur) else cur in
  precision ← (if have_precision then x ← va_arg; mret (s32 x) else mret (-1));
  let have_z := is_char cur "z" in
  let cur := if have_z then rest_of cur else cur in
  let have_ll := negb have_z && is_char cur "l" && is_char (rest_of cur) "l" in
  let cur := if have_ll then rest_of (rest_of cur) else cur in
  raw_check "!((precision >= 0 || left_justified) && *cur != 's')"
    (negb (((0 <=? precision) || left_justified) && negb (is_char cur "s"))) ;;
  r ← conversion buff_end cur left_justified have_width pad_with_zero have_z have_ll width precision;
  mret (r, cur).
(** From the character after a [%]. *)
Definition directive_from (buff_end : Z) (cur : string) : M pstate (Z * string) :=
  let left_justified := is_char cur "-" in
  let cur := if left_justified then rest_of cur else cur in
  let have_width := is_digit cur in
  let pad_with_zero := is_char cur "0" in
  let '(width, cur) := if have_width then width_loop 0 cur else (0, cur) in
  directive_rest buff_end left_justified have_width pad_with_zero width cur.

(** [for (; *cur; cur++)]; each round consumes a character. *)
Fixpoint format_chars (fuel : nat) (buff_end result : Z) (cur : string) : M pstate Z :=
  match fuel with
  | O => out_of_fuel
  | S fuel =>
      match cur with
      | EmptyString => mret result
      | String c rest =>
          if Ascii.eqb c "%" then
            '(r, cur) ← directive_from buff_end rest;
            format_chars fuel buff_end (result + r) (rest_of cur)
          else
            r ← AppendChar buff_end (char_at cur);
            format_chars fuel buff_end (result + r) rest
      end
  end.

Definition VSNPrintf (buff buff_length : Z) (format : string) : M pstate Z :=
  raw_check "buff_length > 0" (0 <? buff_length) ;;
  let buff_end := buff + (buff_length - 1) in
  modify (λ s, Pstate (p_mem s) buff (p_args s)) ;;
  result ← format_chars (S (String.length format)) buff_end 0 format;
  b ← gets p_buff;
  raw_check "buff <= buff_end" (b <=? buff_end) ;;
  AppendChar (buff_end + 1) 0 ;;
  mret result.

(** [va_start] on the variable arguments, and the memory afterwards. *)
Definition with_args {A} (args : list Z) (m : M pstate A) : M (gmap Z Z) A :=
  zoom (λ mem, Pstate mem 0 args) (λ s _, p_mem s) m.
Definition internal_snprintf (buffer length : Z) (format : string) (args : list Z) : M (gmap Z Z) Z :=
  with_args args (VSNPrintf buffer (s32 length) format).

(** ** [Printf] and [Report]

    The name and the number of the process, and the option that asks for the
    name. *)
Record process := Process { pr_pid : Z; pr_exe_name : Z; pr_log_exe_name : bool }.
Definition kLen : Z := 16 * 1024.

(** [CHECK_NEEDED_LENGTH]; [None] is its [continue]. *)
Definition check_needed_length (use_mmap : bool) (needed_length buffer_size : Z)
    (rest : M (gmap Z Z) (option ())) : M (gmap Z Z) (option ()) :=
  if buffer_size <=? needed_length then
    if negb use_mmap then mret None
    else raw_check "Buffer in Report is too short!" (needed_length <? kLen) ;; rest
  else rest.

(** A round of the loop of [SharedPrintfCodeNoBuffer]. *)
Definition print_round (p : process) (append_pid use_mmap : bool) (buffer buffer_size : Z)
    (format : string) (args : list Z) : M (gmap Z Z) (option ()) :=
  let message needed_length :=
    n ← with_args args (VSNPrintf (buffer + needed_length) (s32 (buffer_size - needed_length)) format);
    check_needed_length use_mmap (needed_length + n) buffer_size (mret (Some ())) in
  let pid needed_length :=
    n ← internal_snprintf (buffer + needed_length) (buffer_size - needed_length) "==%d==" [pr_pid p];
    check_needed_length use_mmap (needed_length + n) buffer_size (message (needed_length + n)) in
  if append_pid then
    if pr_log_exe_name p && negb (pr_exe_name p =? 0) then
      n ← internal_snprintf buffer buffer_size "==%s" [pr_exe_name p];
      check_needed_length use_mmap n buffer_size (pid n)
    else pid 0
  else message 0.

(** What [RawWrite] then prints, with a local buffer of [buffer_size] bytes;
    [mapped] is what [MmapOrDie] returns. *)
Definition SharedPrintfCodeNoBuffer (p : process) (mapped : Z) (append_pid : bool)
    (local_buffer buffer_size : Z) (format : string) (args : list Z) : M (gmap Z Z) (list Z) :=
  r ← print_round p append_pid false local_buffer buffer_size format args;
  match r with
  | Some _ => gets (λ m, cstr m local_buffer)
  | None =>
      r ← print_round p append_pid true mapped kLen format args;
      gets (λ m, cstr m mapped)
  end.
Definition SharedPrintfCode (p : process) (mapped local_buffer : Z) (append_pid : bool)
    (format : string) (args : list Z) : M (gmap Z Z) (list Z) :=
  SharedPrintfCodeNoBuffer p mapped append_pid local_buffer 400 format args.
Definition Printf (p : process) (mapped local_buffer : Z) (format : string) (args : list Z) :=
  SharedPrintfCode p mapped local_buffer false format args.
Definition Report (p : process) (mapped local_buffer : Z) (format : string) (args : list Z) :=
  SharedPrintfCode p mapped local_buffer true format args.
