(* ===== verification/SanPrintfSpec.v ===== *)
(** * What the runtime's formatted output prints

    The meaning of the formats [VSNPrintf] supports, in the terms of C's
    [snprintf], that [internal_snprintf], [Printf] and [Report] implement it, and
    what follows for the names of generated inputs and the lines of the label
    dump. *)
From stdpp Require Import pretty.
From Stdlib Require Import Ascii.
From S2P Require Import Prelude Platform Labels UnionTable Union Z3 State Shadow Solver FlagParser Init Libc SanPrintf.

(** ** What a format means

    A format is the text of a list of directives; [render] is what they print,
    in the terms of the C standard. *)
Inductive length_mod := LNone | LZ | LL.
#[export] Instance length_mod_eq : EqDecision length_mod.
Proof. solve_decision. Defined.
Inductive int_conv := ConvD | ConvU | Convx | ConvX.
Inductive piece :=
| PText (c : ascii)
| PInt (k : int_conv) (l : length_mod) (width : option (bool * N))
| PPtr
| PStr (width : option N) (prec : bool)
| PChar
| PPercent.

Definition show_length (l : length_mod) : string :=
  match l with LNone => "" | LZ => "z" | LL => "ll" end.
Definition show_conv (k : int_conv) : string :=
  match k with ConvD => "d" | ConvU => "u" | Convx => "x" | ConvX => "X" end.
Definition show_width (w : option (bool * N)) : string :=
  match w with
  | None => "" | Some (true, w) => "0" +:+ pretty w | Some (false, w) => pretty w
  end.
Definition show_piece (p : piece) : string :=
  match p with
  | PText c => String c ""
  | PInt k l w => "%" +:+ show_width w +:+ show_length l +:+ show_conv k
  | PPtr => "%p"
  | PStr w prec =>
      "%" +:+ match w with None => "" | Some w => "-" +:+ pretty w end
        +:+ (if prec then ".*" else "") +:+ "s"
  | PChar => "%c"
  | PPercent => "%%"
  end.
Fixpoint show_format (ps : list piece) : string :=
  match ps with [] => "" | p :: ps => show_piece p +:+ show_format ps end.

(** The digits of [n], most significant first. *)
Fixpoint lsd (fuel : nat) (base n : Z) : list Z :=
  match fuel with
  | O => []
  | S fuel => n mod base :: if 0 <? n / base then lsd fuel base (n / base) else []
  end.
Definition digits (base n : Z) : list Z := reverse (lsd kMaxLen base n).

(** The number of absolute value [n] in a field of at least [width] characters. *)
Definition number (base : Z) (uppercase zero_pad negative : bool) (width n : Z) : list Z :=
  let ds := digit_char uppercase <$> digits base n in
  let sign := if negative then [c_minus] else [] in
  let pad := replicate (Z.to_nat width - (length sign + length ds)) in
  if zero_pad then sign ++ pad c_zero ++ ds else pad c_space ++ sign ++ ds.
Definition signed_value (l : length_mod) (x : Z) : Z := match l with LNone => s32 x | _ => s64 x end.
Definition unsigned_value (l : length_mod) (x : Z) : Z := match l with LNone => u32 x | _ => u64 x end.
Definition int_text (k : int_conv) (l : length_mod) (zero : bool) (w x : Z) : list Z :=
  match k with
  | ConvD => let v := signed_value l x in number 10 false zero (v <? 0) w (Z.abs v)
  | ConvU => number 10 false zero false w (unsigned_value l x)
  | Convx => number 16 false zero false w (unsigned_value l x)
  | ConvX => number 16 true zero false w (unsigned_value l x)
  end.
Definition render_int (k : int_conv) (l : length_mod) (w : option (bool * N)) (x : Z) : list Z :=
  match w with
  | None => int_text k l false 0 x
  | Some (zero, w) => int_text k l zero (Z.of_N w) x
  end.
Definition text_at (m : gmap Z Z) (a : Z) : list Z := if a =? 0 then null_text else cstr m a.
Definition render_str (w prec : Z) (bs : list Z) : list Z :=
  let t := if 0 <=? prec then take (Z.to_nat prec) bs else bs in
  t ++ replicate (Z.to_nat w - length t) c_space.

Definition render_piece (m : gmap Z Z) (p : piece) (args : list Z) : option (list Z * list Z) :=
  match p, args with
  | PText c, _ => Some ([Z.of_nat (nat_of_ascii c)], args)
  | PPercent, _ => Some ([37], args)
  | PInt k l w, x :: args => Some (render_int k l w x, args)
  | PPtr, x :: args => Some (bytes_of_string "0x" ++ number 16 false true false 12 (u64 x), args)
  | PStr w true, prec :: a :: args =>
      Some (render_str (default 0 (Z.of_N <$> w)) (s32 prec) (text_at m (u64 a)), args)
  | PStr w false, a :: args =>
      Some (render_str (default 0 (Z.of_N <$> w)) (-1) (text_at m (u64 a)), args)
  | PChar, x :: args => Some ([u8 x], args)
  | _, [] => None
  | PStr _ true, [_] => None
  end.
Fixpoint render (m : gmap Z Z) (ps : list piece) (args : list Z) : option (list Z * list Z) :=
  match ps with
  | [] => Some ([], args)
  | p :: ps =>
      '(t, args) ← render_piece m p args;
      '(t', args) ← render m ps args;
      Some (t ++ t', args)
  end.

(** The directives [VSNPrintf] supports: text is neither [%] nor NUL, a width of
    a number is below [kMaxLen], not zero without zero padding, and a width of a
    string is an [int]. *)
Definition supported (p : piece) : Prop :=
  match p with
  | PText c => c ≠ "%"%char ∧ c ≠ "000"%char
  | PInt _ _ (Some (z, w)) => (w < 30)%N ∧ (z = true ∨ (0 < w)%N)
  | PStr (Some w) _ => (Z.of_N w < 2 ^ 31)
  | _ => True
  end.
(** The strings the directives print. *)
Fixpoint string_args (ps : list piece) (args : list Z) : list Z :=
  match ps with
  | [] => []
  | (PText _ | PPercent) :: ps => string_args ps args
  | (PInt _ _ _ | PPtr | PChar) :: ps => string_args ps (tail args)
  | PStr _ false :: ps => option_list (u64 <$> head args) ++ string_args ps (tail args)
  | PStr _ true :: ps =>
      option_list (u64 <$> head (tail args)) ++ string_args ps (tail (tail args))
  end.
(** A string of bytes that does not overlap [lo .. hi-1]. *)
Definition readable (m : gmap Z Z) (lo hi a : Z) : Prop :=
  a = 0 ∨ ∀ i, 0 ≤ i ≤ strlen m a → in_range 8 (peek m (a + i)) ∧ (a + i < lo ∨ hi ≤ a + i).

(** ** What reaches the buffer *)
Definition written1 (be : Z) (s : pstate) (c : Z) : pstate :=
  if p_buff s <? be then Pstate (poke (p_mem s) (p_buff s) c) (p_buff s + 1) (p_args s) else s.
Definition written (be : Z) (text : list Z) (s : pstate) : pstate := foldl (written1 be) s text.

Lemma emit_app be t t' s : written be (t ++ t') s = written be t' (written be t s).
Proof. apply foldl_app. Qed.
Lemma emit_spec be text s :
  p_buff s ≤ be →
  written be text s =
    Pstate (store_bytes (p_mem s) (p_buff s) (take (Z.to_nat (be - p_buff s)) text))
      (p_buff s + Z.min (be - p_buff s) (Z.of_nat (length text))) (p_args s).
Proof.
  revert s. induction text as [|c text IH]; intros [m b xs]; cbn [p_mem p_buff p_args]; intros Hb.
  { rewrite take_nil. cbn [written foldl store_bytes length]. f_equal. lia. }
  change (written be (c :: text) (Pstate m b xs)) with (written be text (written1 be (Pstate m b xs) c)).
  unfold written1. cbn [p_mem p_buff p_args length]. destruct (Z.ltb_spec b be) as [Hlt|Hge].
  - rewrite IH by (cbn [p_buff]; lia). cbn [p_mem p_buff p_args].
    replace (Z.to_nat (be - b)) with (S (Z.to_nat (be - (b + 1)))) by lia. cbn [take store_bytes].
    f_equal. lia.
  - rewrite IH by done. cbn [p_mem p_buff p_args].
    replace (Z.to_nat (be - b)) with O by lia. cbn [take store_bytes]. f_equal. lia.
Qed.
Lemma emit_args be t s : p_args (written be t s) = p_args s.
Proof.
  revert s. induction t as [|c t IH]; intros s; [done|].
  change (written be (c :: t) s) with (written be t (written1 be s c)). rewrite IH. unfold written1.
  by destruct (_ <? _).
Qed.
Lemma emit_buff be t s : p_buff s ≤ be → p_buff s ≤ p_buff (written be t s) ≤ be.
Proof. intros H. rewrite emit_spec by done. cbn [p_buff]. lia. Qed.
Lemma emit_peek be t s a :
  p_buff s ≤ be → a < p_buff s ∨ be ≤ a → peek (p_mem (written be t s)) a = peek (p_mem s) a.
Proof.
  intros H Ha. rewrite emit_spec by done. cbn [p_mem]. rewrite peek_store_bytes.
  rewrite decide_False; [done|]. rewrite length_take. lia.
Qed.
Lemma emit_with_args be t m b xs ys :
  let st := written be t (Pstate m b xs) in
  Pstate (p_mem st) (p_buff st) ys = written be t (Pstate m b ys).
Proof.
  cbv zeta. revert m b. induction t as [|c t IH]; intros m b; [done|].
  change (written be (c :: t) (Pstate m b xs)) with (written be t (written1 be (Pstate m b xs) c)).
  change (written be (c :: t) (Pstate m b ys)) with (written be t (written1 be (Pstate m b ys) c)).
  unfold written1. cbn [p_mem p_buff p_args]. destruct (b <? be); apply IH.
Qed.
Lemma bind_emit {A} (m : M pstate Z) (f : Z → M pstate A) be t s n :
  m s = Ret n (written be t s) → (m ≫= f) s = f n (written be t s).
Proof. apply bind_run. Qed.

Lemma AppendChar_run be c s : AppendChar be c s = Ret 1 (written be [u8 c] s).
Proof. unfold AppendChar, written, written1. rewrite bind_get. cbn [foldl]. by destruct (_ <? _). Qed.
Lemma AppendChar_byte be c s : in_range 8 c → AppendChar be c s = Ret 1 (written be [c] s).
Proof. intros Hc. rewrite AppendChar_run. unfold u8, wrap. by rewrite Z.mod_small. Qed.

(** ** Numbers *)
Lemma lsd_step fuel base n :
  lsd (S fuel) base n = n mod base :: if 0 <? n / base then lsd fuel base (n / base) else [].
Proof. done. Qed.
Lemma lsd_pos fuel base n : (0 < length (lsd (S fuel) base n))%nat.
Proof. rewrite lsd_step. cbn [length]. lia. Qed.
Lemma num_loop_run room base n s :
  1 < base → 0 ≤ n < base ^ Z.of_nat room → (0 < room)%nat →
  num_loop room n base s = Ret (lsd room base n) s.
Proof.
  intros Hb. revert n. induction room as [|room IH]; intros n Hn Hr; [lia|].
  cbn [num_loop]. rewrite lsd_step. destruct (Z.ltb_spec 0 (n / base)) as [Hpos|_]; [|done].
  assert (base ^ Z.of_nat (S room) = base * base ^ Z.of_nat room) as Hpow.
  { rewrite Nat2Z.inj_succ, Z.pow_succ_r; lia. }
  assert (n / base < base ^ Z.of_nat room) as Hlt by (apply Z.div_lt_upper_bound; lia).
  assert (0 < room)%nat.
  { destruct room; [|lia]. rewrite Z.pow_0_r in Hlt. lia. }
  erewrite bind_run; [done|]. apply IH; lia.
Qed.

Lemma digits_last fuel base n :
  1 < base → 0 < n < base ^ Z.of_nat fuel → ∃ d ds, reverse (lsd fuel base n) = d :: ds ∧ d ≠ 0.
Proof.
  intros Hb. revert n. induction fuel as [|fuel IH]; intros n Hn; [simpl in Hn; lia|].
  rewrite lsd_step, reverse_cons. destruct (Z.ltb_spec 0 (n / base)) as [Hpos|Hz].
  - destruct (IH (n / base)) as (d & ds & -> & Hd).
    { split; [done|]. rewrite Nat2Z.inj_succ, Z.pow_succ_r in Hn by lia. apply Z.div_lt_upper_bound; lia. }
    by exists d, (ds ++ [n mod base]).
  - exists (n mod base), []. split; [done|]. assert (n < base) as Hlt.
    { pose proof (Z.div_mod n base ltac:(lia)). pose proof (Z.mod_pos_bound n base ltac:(lia)).
      pose proof (Z.div_pos n base ltac:(lia) ltac:(lia)). assert (n / base = 0) by lia. nia. }
    rewrite Z.mod_small by lia. lia.
Qed.
Lemma lsd_range fuel base n : 1 < base → 0 ≤ n → Forall (λ d, 0 ≤ d < base) (lsd fuel base n).
Proof.
  intros Hb. revert n. induction fuel as [|fuel IH]; intros n Hn; [constructor|].
  rewrite lsd_step. constructor; [apply Z.mod_pos_bound; lia|].
  destruct (0 <? n / base); [|constructor]. apply IH. apply Z.div_pos; lia.
Qed.
Lemma digit_char_byte up d : 0 ≤ d < 16 → in_range 8 (digit_char up d).
Proof. intros Hd. unfold digit_char, c_zero, in_range. destruct (Z.ltb_spec d 10), up; lia. Qed.

Lemma digits_loop_run be up ds s :
  Forall (λ d, 0 ≤ d < 16) ds →
  digits_loop be up ds s = Ret (Z.of_nat (length ds)) (written be (digit_char up <$> ds) s).
Proof.
  intros H. revert s. induction H as [|d ds Hd _ IH]; intros s; [done|]. cbn [digits_loop].
  rewrite (bind_emit _ _ _ _ _ _ (AppendChar_byte be _ s (digit_char_byte up d Hd))).
  rewrite (bind_emit _ _ _ _ _ _ (IH _)). rewrite <- emit_app. cbn [length]. unfold mret, M_ret.
  f_equal. lia.
Qed.

Definition pad_char (pad : bool) : Z := if pad then c_zero else c_space.
Lemma pad_char_byte pad : in_range 8 (pad_char pad).
Proof. by destruct pad. Qed.
Lemma zeros_loop_run be pad k d ds s :
  d ≠ 0 → zeros_loop be pad (replicate k 0 ++ d :: ds) s =
    Ret (Z.of_nat k, d :: ds) (written be (replicate k (pad_char pad)) s).
Proof.
  intros Hd. revert s. induction k as [|k IH]; intros s.
  { cbn [replicate app zeros_loop]. by rewrite (proj2 (Z.eqb_neq d 0)) by done. }
  cbn [replicate app zeros_loop]. cbn [Z.eqb].
  rewrite (bool_decide_eq_false_2 (_ = [])) by (by destruct k). rewrite orb_false_r.
  change (if pad then c_zero else c_space) with (pad_char pad).
  rewrite (bind_emit _ _ _ _ _ _ (AppendChar_byte be _ s (pad_char_byte pad))).
  erewrite bind_run by apply IH. cbv beta iota. rewrite <- emit_app. unfold mret, M_ret.
  do 2 f_equal. lia.
Qed.
Lemma zeros_loop_zero be pad k s :
  zeros_loop be pad (replicate k 0 ++ [0]) s =
    Ret (Z.of_nat k + 1, []) (written be (replicate k (pad_char pad) ++ [c_zero]) s).
Proof.
  revert s. induction k as [|k IH]; intros s.
  { cbn [replicate app zeros_loop]. cbn [Z.eqb]. rewrite orb_true_r.
    by rewrite (bind_emit _ _ _ _ _ _ (AppendChar_byte be _ s (pad_char_byte true))). }
  cbn [replicate app zeros_loop]. cbn [Z.eqb].
  rewrite (bool_decide_eq_false_2 (_ = [])) by (by destruct k). rewrite orb_false_r.
  change (if pad then c_zero else c_space) with (pad_char pad).
  rewrite (bind_emit _ _ _ _ _ _ (AppendChar_byte be _ s (pad_char_byte pad))).
  erewrite bind_run by apply IH. cbv beta iota. rewrite <- emit_app. unfold mret, M_ret.
  do 2 f_equal. lia.
Qed.

Lemma pow_room base : base = 10 ∨ base = 16 → 2 ^ 64 ≤ base ^ Z.of_nat kMaxLen.
Proof. intros [-> | ->]; by vm_compute. Qed.
Lemma digits_range base n : base = 10 ∨ base = 16 → 0 ≤ n → Forall (λ d, 0 ≤ d < 16) (digits base n).
Proof.
  intros Hb Hn. apply Forall_reverse. eapply Forall_impl; [apply lsd_range; lia|].
  intros d Hd. simpl in Hd. lia.
Qed.
Lemma sign_run be (b : bool) s :
  (if b then AppendChar be c_minus else mret 0) s =
    Ret (Z.b2z b) (written be (if b then [c_minus] else []) s).
Proof. destruct b; [|done]. by apply AppendChar_byte. Qed.

Lemma number_tail be base up pad (neg : bool) k n r0 s :
  base = 10 ∨ base = 16 → in_range 64 n → (neg = true → n ≠ 0) →
  ('(r1, more) ← zeros_loop be pad (replicate k 0 ++ digits base n);
   r2 ← (if neg && negb pad then AppendChar be c_minus else mret 0);
   r3 ← digits_loop be up more;
   mret (r0 + r1 + r2 + r3)) s =
  Ret (r0 + Z.of_nat k + Z.b2z (neg && negb pad) + Z.of_nat (length (digits base n)))
    (written be (replicate k (pad_char pad) ++ (if neg && negb pad then [c_minus] else []) ++
              (digit_char up <$> digits base n)) s).
Proof.
  intros Hb Hn Hneg. pose proof (pow_room base Hb) as Hroom.
  destruct (decide (n = 0)) as [->|Hnz].
  - destruct neg; [by destruct (Hneg eq_refl)|]. cbn [andb].
    assert (digits base 0 = [0]) as -> by (by destruct Hb as [-> | ->]).
    erewrite bind_run by apply zeros_loop_zero. cbv beta iota.
    erewrite bind_run by done. erewrite bind_run by done. unfold mret, M_ret. f_equal. simpl. lia.
  - assert (1 < base) as H1 by lia.
    destruct (digits_last kMaxLen base n H1) as (d & ds & Hds & Hd); [unfold in_range in Hn; lia|].
    assert (Forall (λ d, 0 ≤ d < 16) (digits base n)) as Hr by (apply digits_range; [done|apply Hn]).
    unfold digits in *. rewrite Hds in *. erewrite bind_run by (by apply zeros_loop_run). cbv beta iota.
    erewrite bind_run by apply sign_run. erewrite bind_run by (by apply digits_loop_run).
    rewrite !emit_app. done.
Qed.

Lemma AppendNumber_run be n base w pad (neg : bool) up s :
  base = 10 ∨ base = 16 → in_range 64 n → 0 ≤ w < 30 → (neg = true → base = 10 ∧ n ≠ 0) →
  AppendNumber be n base w pad neg up s =
    Ret (Z.of_nat (length (number base up pad neg w n))) (written be (number base up pad neg w n) s).
Proof.
  intros Hb Hn Hw Hneg. unfold AppendNumber, raw_check.
  assert (((base =? 10) || (base =? 16)) = true) as -> by (by destruct Hb as [-> | ->]).
  assert (((base =? 10) || negb neg) = true) as ->.
  { destruct neg; [|apply orb_true_r]. by destruct (Hneg eq_refl) as [-> _]. }
  assert ((negb (n =? 0) || negb neg) = true) as ->.
  { destruct neg; [|apply orb_true_r]. by rewrite (proj2 (Z.eqb_neq n 0)) by apply (Hneg eq_refl). }
  rewrite (proj2 (Z.ltb_lt w _)) by (unfold kMaxLen; lia). cbv zeta.
  do 4 (erewrite bind_run by done). erewrite bind_run by apply sign_run.
  assert (1 < base) by lia. pose proof (pow_room base Hb).
  erewrite bind_run by (apply num_loop_run; [done|unfold in_range in Hn; lia|unfold kMaxLen; lia]).
  set (w' := if neg && negb (w =? 0) then w - 1 else w).
  set (ds := lsd kMaxLen base n). set (k := (Z.to_nat w' - length ds)%nat).
  set (buf := if Z.of_nat (length ds) <? w' then _ else _).
  assert (reverse buf = replicate k 0 ++ digits base n) as Hbuf.
  { unfold buf, k. destruct (Z.ltb_spec (Z.of_nat (length ds)) w').
    - rewrite reverse_app, reverse_replicate. do 2 f_equal. lia.
    - by replace (Z.to_nat w' - length ds)%nat with O by lia. }
  assert (0 < Z.of_nat (length buf)) as Hlen.
  { rewrite <- (length_reverse buf), Hbuf, length_app. unfold digits. rewrite length_reverse.
    pose proof (lsd_pos 29 base n). unfold kMaxLen. lia. }
  rewrite (proj2 (Z.ltb_lt 0 _)) by done. erewrite bind_run by done. rewrite Hbuf.
  rewrite number_tail by (try done; intros Ht; by apply Hneg).
  rewrite <- emit_app. set (sgn := if neg then [c_minus] else []).
  assert (k = (Z.to_nat w - (length sgn + length (digit_char up <$> digits base n)))%nat) as Hk.
  { unfold k, w', sgn. rewrite length_fmap. unfold digits. rewrite length_reverse. fold ds.
    destruct neg; cbn [andb length]; [|lia]. destruct (Z.eqb_spec w 0); cbn [negb]; lia. }
  unfold number. fold sgn. rewrite <- Hk. unfold pad_char, sgn.
  destruct neg, pad; cbn [andb negb]; f_equal; rewrite !length_app, ?length_replicate, ?length_fmap; simpl; lia.
Qed.

Lemma AppendUnsigned_run be n base w pad up s :
  base = 10 ∨ base = 16 → in_range 64 n → 0 ≤ w < 30 →
  AppendUnsigned be n base w pad up s =
    Ret (Z.of_nat (length (number base up pad false w n))) (written be (number base up pad false w n) s).
Proof.
  intros Hb Hn Hw. unfold AppendUnsigned, u64, wrap. rewrite Z.mod_small by done.
  by apply AppendNumber_run.
Qed.
Lemma AppendSigned_run be n w pad s :
  - 2 ^ 63 ≤ n < 2 ^ 63 → 0 ≤ w < 30 →
  AppendSignedDecimal be n w pad s =
    Ret (Z.of_nat (length (number 10 false pad (n <? 0) w (Z.abs n))))
      (written be (number 10 false pad (n <? 0) w (Z.abs n)) s).
Proof.
  intros Hn Hw. unfold AppendSignedDecimal.
  assert (u64 (if n <? 0 then - n else n) = Z.abs n) as ->.
  { unfold u64, wrap. destruct (Z.ltb_spec n 0); rewrite Z.mod_small; lia. }
  apply AppendNumber_run; [by left|unfold in_range; lia|done|].
  intros H. apply Z.ltb_lt in H. lia.
Qed.

(** ** Strings *)
Fixpoint string_at (m : gmap Z Z) (s : cptr) (bs : list Z) : Prop :=
  match bs with
  | [] => cread m s = 0
  | b :: bs => cread m s = b ∧ b ≠ 0 ∧ in_range 8 b ∧ string_at m (cnext s) bs
  end.
(** The string and its end do not overlap [lo .. hi-1]. *)
Fixpoint apart (lo hi : Z) (s : cptr) (n : nat) : Prop :=
  match s with CLit _ => True | CPtr a => a < lo ∨ hi ≤ a end ∧
  match n with O => True | S n => apart lo hi (cnext s) n end.

Lemma cread_emit be t st lo s n :
  lo ≤ p_buff st ≤ be → apart lo be s n → cread (p_mem (written be t st)) s = cread (p_mem st) s.
Proof.
  intros Hb Ha. destruct s as [a|bs]; [|done]. destruct n, Ha as [Ha _]; apply emit_peek; lia.
Qed.
Lemma string_at_emit be t st lo s bs :
  lo ≤ p_buff st ≤ be → apart lo be s (length bs) →
  string_at (p_mem st) s bs → string_at (p_mem (written be t st)) s bs.
Proof.
  intros Hb. revert s. induction bs as [|b bs IH]; intros s Ha; cbn [string_at].
  - by rewrite (cread_emit be t st lo s 0).
  - rewrite (cread_emit be t st lo s (S (length bs))) by done. destruct Ha as [_ Ha].
    intros (? & ? & ? & ?). split_and!; try done. by apply IH.
Qed.

Definition clip (max : Z) (r : Z) (bs : list Z) : list Z :=
  if 0 <=? max then take (Z.to_nat (max - r)) bs else bs.
Lemma string_loop_run fuel be max r s bs st lo :
  string_at (p_mem st) s bs → apart lo be s (length bs) → lo ≤ p_buff st ≤ be →
  (length bs < fuel)%nat → 0 ≤ r →
  string_loop fuel be max r s st =
    Ret (r + Z.of_nat (length (clip max r bs))) (written be (clip max r bs) st).
Proof.
  revert r s bs st. induction fuel as [|fuel IH]; intros r s bs st Hs Ha Hb Hf Hr; [lia|].
  cbn [string_loop]. rewrite bind_gets. destruct bs as [|b bs]; cbn [string_at] in Hs.
  { rewrite Hs. cbn [Z.eqb]. unfold clip. rewrite take_nil. destruct (0 <=? max); cbn [length written foldl];
      unfold mret, M_ret; f_equal; lia. }
  destruct Hs as (-> & Hz & Hbr & Hs). rewrite (proj2 (Z.eqb_neq b 0)) by done.
  assert (clip max r (b :: bs) = if (0 <=? max) && (max <=? r) then [] else b :: clip max (r + 1) bs) as ->.
  { unfold clip. destruct (Z.leb_spec 0 max); cbn [andb]; [|done].
    destruct (Z.leb_spec max r).
    - by replace (Z.to_nat (max - r)) with O by lia.
    - by replace (Z.to_nat (max - r)) with (S (Z.to_nat (max - (r + 1)))) by lia. }
  destruct ((0 <=? max) && (max <=? r)).
  { cbn [length written foldl]. unfold mret, M_ret. f_equal. lia. }
  rewrite (bind_emit _ _ _ _ _ _ (AppendChar_byte be b st Hbr)). cbn [length apart] in Ha, Hf.
  destruct Ha as [_ Ha]. pose proof (emit_buff be [b] st ltac:(lia)).
  rewrite (IH _ _ bs); [|by eapply string_at_emit|done|lia|lia|lia].
  rewrite <- emit_app. cbn [length app]. f_equal. lia.
Qed.
Lemma pad_loop_run fuel be w r st :
  (Z.to_nat (- w - r) < fuel)%nat → 0 ≤ r →
  pad_loop fuel be w r st =
    Ret (r + Z.of_nat (Z.to_nat (- w - r))) (written be (replicate (Z.to_nat (- w - r)) c_space) st).
Proof.
  revert r st. induction fuel as [|fuel IH]; intros r st Hf Hr; [lia|]. cbn [pad_loop].
  destruct (Z.ltb_spec w (- r)) as [Hlt|Hge].
  - rewrite (bind_emit _ _ _ _ _ _ (AppendChar_byte be c_space st ltac:(by split))).
    rewrite IH by lia. rewrite <- emit_app.
    replace (Z.to_nat (- w - r)) with (S (Z.to_nat (- w - (r + 1)))) by lia.
    cbn [replicate app]. f_equal. lia.
  - replace (Z.to_nat (- w - r)) with O by lia. cbn [replicate written foldl]. unfold mret, M_ret. f_equal. lia.
Qed.

(** What a pointer argument names, and that it stays in place. *)
Definition deref (s : cptr) : cptr := match s with CPtr 0 => CLit null_text | _ => s end.
Lemma cfuel_enough m s bs : string_at m s bs → (length bs < cfuel m s)%nat.
Proof.
  intros H. unfold cfuel. destruct s as [a|l].
  - assert (∀ i, 0 ≤ i < Z.of_nat (length bs) → peek m (a + i) ≠ 0) as Hnz.
    { revert a H. induction bs as [|b bs IH]; intros a; cbn [string_at cread cnext length]; [lia|].
      intros (<- & Hb & _ & H) i Hi. destruct (decide (i = 0)) as [->|]; [by rewrite Z.add_0_r|].
      replace (a + i) with (a + 1 + (i - 1)) by lia. apply (IH _ H). lia. }
    pose proof (nonzero_run_bound m a (Z.of_nat (length bs)) ltac:(lia) Hnz). lia.
  - revert l H. induction bs as [|b bs IH]; intros l; cbn [string_at cread cnext length]; [lia|].
    destruct l as [|x l]; [intros (<- & ? & _); done|]. intros (_ & _ & _ & H). cbn [length].
    specialize (IH _ H). cbn [tail] in IH. lia.
Qed.
Lemma AppendString_run be w max s bs st lo :
  string_at (p_mem st) (deref s) bs → apart lo be (deref s) (length bs) → lo ≤ p_buff st ≤ be → 0 ≤ w →
  AppendString be (- w) max s st =
    Ret (Z.of_nat (length (render_str w max bs))) (written be (render_str w max bs) st).
Proof.
  intros Hs Ha Hb Hw. unfold AppendString. fold (deref s). cbv zeta. rewrite bind_gets.
  assert (clip max 0 bs = if 0 <=? max then take (Z.to_nat max) bs else bs) as Hclip.
  { unfold clip. by rewrite Z.sub_0_r. }
  erewrite bind_run; [|apply (string_loop_run _ _ _ _ _ bs _ lo); [done..|by apply cfuel_enough|lia]].
  rewrite pad_loop_run by lia. rewrite <- emit_app. unfold render_str. rewrite <- Hclip.
  rewrite length_app, length_replicate.
  replace (Z.to_nat (- - w - (0 + Z.of_nat (length (clip max 0 bs)))))
    with (Z.to_nat w - length (clip max 0 bs))%nat by lia.
  f_equal. lia.
Qed.

Lemma bytes_of_succ m a n :
  0 ≤ n → bytes_of m a (Z.succ n) = peek m a :: bytes_of m (a + 1) n.
Proof.
  intros Hn. replace (Z.succ n) with (1 + n) by lia. rewrite bytes_of_app by lia.
  unfold bytes_of at 1. change (range 0 1) with [0]. cbn [fmap list_fmap app]. by rewrite Z.add_0_r.
Qed.
Lemma string_at_bytes m a n :
  0 ≤ n → (∀ i, 0 ≤ i < n → peek m (a + i) ≠ 0 ∧ in_range 8 (peek m (a + i))) → peek m (a + n) = 0 →
  string_at m (CPtr a) (bytes_of m a n).
Proof.
  intros Hn. revert a. revert n Hn. apply (natlike_ind (λ n, ∀ a,
    (∀ i, 0 ≤ i < n → peek m (a + i) ≠ 0 ∧ in_range 8 (peek m (a + i))) → peek m (a + n) = 0 →
    string_at m (CPtr a) (bytes_of m a n))).
  - intros a _ H. rewrite Z.add_0_r in H. exact H.
  - intros n Hn IH a Hi Hz. rewrite bytes_of_succ by done. cbn [string_at cread cnext].
    destruct (Hi 0 ltac:(lia)) as [H1 H2]. rewrite Z.add_0_r in H1, H2. split_and!; [done..|].
    apply IH.
    + intros i Hlt. replace (a + 1 + i) with (a + (i + 1)) by lia. apply Hi. lia.
    + by replace (a + 1 + n) with (a + Z.succ n) by lia.
Qed.
Lemma apart_ptr lo hi a n :
  (∀ i, 0 ≤ i ≤ Z.of_nat n → a + i < lo ∨ hi ≤ a + i) → apart lo hi (CPtr a) n.
Proof.
  revert a. induction n as [|n IH]; intros a H; cbn [apart cnext].
  - split; [|done]. specialize (H 0 ltac:(lia)). by rewrite Z.add_0_r in H.
  - split; [specialize (H 0 ltac:(lia)); by rewrite Z.add_0_r in H|]. apply IH. intros i Hi.
    specialize (H (i + 1) ltac:(lia)). lia.
Qed.

(** A state of the buffer [lo .. hi-1] of the memory [m]. *)
Definition inside (m : gmap Z Z) (lo be : Z) (st : pstate) : Prop :=
  lo ≤ p_buff st ≤ be ∧ ∀ a, a < lo ∨ be ≤ a → peek (p_mem st) a = peek m a.
Lemma inside_emit m lo be t st : inside m lo be st → inside m lo be (written be t st).
Proof.
  intros [Hb Hm]. pose proof (emit_buff be t st ltac:(lia)). split; [lia|].
  intros a Ha. rewrite emit_peek by lia. by apply Hm.
Qed.
Lemma inside_args m lo be st xs : inside m lo be st → inside m lo be (Pstate (p_mem st) (p_buff st) xs).
Proof. done. Qed.

Lemma readable_string m lo be a st :
  inside m lo be st → readable m lo be a →
  string_at (p_mem st) (deref (CPtr a)) (text_at m a) ∧
  apart lo be (deref (CPtr a)) (length (text_at m a)).
Proof.
  intros [_ Hm] Hr. unfold text_at. destruct (Z.eqb_spec a 0) as [->|Ha].
  { by repeat split. }
  destruct Hr as [|Hr]; [done|]. replace (deref (CPtr a)) with (CPtr a) by (by destruct a).
  destruct (strlen_nul m a) as (Hn0 & Hnz & Hz). rewrite cstr_bytes.
  assert (∀ i, 0 ≤ i ≤ strlen m a → peek (p_mem st) (a + i) = peek m (a + i)) as Hsame.
  { intros i Hi. apply Hm. destruct (Hr i Hi). lia. }
  split.
  - rewrite <- (bytes_of_ext (p_mem st) m a a) by (intros i Hi; apply Hsame; lia).
    apply string_at_bytes; [done| |by rewrite Hsame by lia].
    intros i Hi. rewrite Hsame by lia. split; [by apply Hnz|apply Hr; lia].
  - apply apart_ptr. intros i Hi. apply Hr. split; [lia|]. revert Hi. unfold bytes_of.
    rewrite length_fmap. unfold range. rewrite length_seqZ. lia.
Qed.

(** ** Reading a format *)
Lemma width_digit acc d s :
  (d < 10)%N → 0 ≤ acc → acc * 10 + Z.of_N d < 2 ^ 31 →
  width_loop acc (String (pretty_N_char d) s) = width_loop (acc * 10 + Z.of_N d) s.
Proof.
  intros Hd Hacc Hlt. cbn [width_loop].
  assert (is_digit (String (pretty_N_char d) s) = true ∧
          char_at (String (pretty_N_char d) s) - 48 = Z.of_N d) as [-> Hc].
  { assert (d = 0 ∨ d = 1 ∨ d = 2 ∨ d = 3 ∨ d = 4 ∨ d = 5 ∨ d = 6 ∨ d = 7 ∨ d = 8 ∨ d = 9)%N as Hcase by lia.
    clear -Hcase. by destruct_or! Hcase; subst d. }
  f_equal. unfold s32, swrap, wrap. change (2 ^ 32) with 4294967296. change (2 ^ (32 - 1)) with 2147483648.
  change (2 ^ 31) with 2147483648 in Hlt.
  rewrite (Z.mod_small (_ + _ - _)) by lia. rewrite (proj2 (Z.ltb_lt _ _)) by lia. lia.
Qed.
Lemma width_loop_go x : ∃ k, 0 ≤ k ∧ ∀ acc s, 0 ≤ acc → acc * 10 ^ k + Z.of_N x < 2 ^ 31 →
  width_loop acc (pretty_N_go x s) = width_loop (acc * 10 ^ k + Z.of_N x) s.
Proof.
  induction (N.lt_wf_0 x) as [x _ IH]. destruct (decide (x = 0)%N) as [->|Hx].
  { exists 0. split; [done|]. intros acc s _ _. rewrite pretty_N_go_0. f_equal. lia. }
  destruct (IH (x / 10)%N) as (k & Hk & Hgo); [apply N.div_lt; lia|]. exists (k + 1). split; [lia|].
  intros acc s Hacc Hlt. rewrite pretty_N_go_step by lia.
  rewrite Z.pow_add_r, Z.pow_1_r, Z.mul_assoc in * by lia.
  assert (0 ≤ acc * 10 ^ k) as Hp by (apply Z.mul_nonneg_nonneg; [done|apply Z.pow_nonneg; lia]).
  pose proof (N.mod_lt x 10 ltac:(done)) as Hmod. pose proof (N.div_mod x 10 ltac:(done)) as Hdm.
  specialize (Hgo acc (String (pretty_N_char (x mod 10)) s) Hacc). revert Hgo Hlt Hp.
  generalize (acc * 10 ^ k) as p. revert Hmod Hdm. generalize (x / 10)%N (x mod 10)%N. clear.
  intros q d Hd -> p Hgo Hlt Hp. rewrite N2Z.inj_add, N2Z.inj_mul in *. change (Z.of_N 10) with 10 in *.
  rewrite Hgo, width_digit by lia. f_equal. lia.
Qed.
Lemma pretty_go_app x s t : pretty_N_go x s +:+ t = pretty_N_go x (s +:+ t).
Proof.
  revert s. induction (N.lt_wf_0 x) as [x _ IH]; intros s. destruct (decide (x = 0)%N) as [->|Hx].
  { by rewrite !pretty_N_go_0. }
  rewrite !(pretty_N_go_step x) by lia. by rewrite IH by (apply N.div_lt; lia).
Qed.
Lemma pretty_go_head x s :
  (0 < x)%N → ∃ d rest, pretty_N_go x s = String (pretty_N_char d) rest ∧ (0 < d < 10)%N.
Proof.
  revert s. induction (N.lt_wf_0 x) as [x _ IH]; intros s Hx. rewrite pretty_N_go_step by done.
  destruct (decide (x / 10 = 0)%N) as [Hz|Hz].
  - rewrite Hz, pretty_N_go_0. exists (x mod 10)%N, s. split; [done|]. apply N.div_small_iff in Hz; [|done].
    rewrite N.mod_small by done. lia.
  - apply IH; [apply N.div_lt; lia|by apply N.neq_0_lt_0].
Qed.

(** A width that is not empty starts with a digit, and reads back. *)
Lemma width_loop_pretty w s :
  Z.of_N w < 2 ^ 31 → is_digit s = false → width_loop 0 (pretty w +:+ s) = (Z.of_N w, s).
Proof.
  intros Hw Hs. assert (∀ v, width_loop v s = (v, s)) as Hend.
  { intros v. destruct s; [done|]. cbn [width_loop]. by rewrite Hs. }
  unfold pretty, pretty_N. destruct (decide (w = 0)%N) as [->|Hz].
  { change (width_loop 0 ("0" +:+ s)) with (width_loop 0 s). by rewrite Hend. }
  rewrite pretty_go_app. destruct (width_loop_go w) as (k & _ & Hgo). rewrite Hgo by (rewrite ?Z.mul_0_l; done).
  by rewrite Z.mul_0_l, Z.add_0_l, Hend.
Qed.
Lemma digit_head d s :
  (0 < d < 10)%N → let t := String (pretty_N_char d) s in
  is_digit t = true ∧ is_char t "0" = false ∧ is_char t "-" = false.
Proof.
  intros Hd. assert (d = 1 ∨ d = 2 ∨ d = 3 ∨ d = 4 ∨ d = 5 ∨ d = 6 ∨ d = 7 ∨ d = 8 ∨ d = 9)%N as H by lia.
  clear Hd. by destruct_or! H; subst d.
Qed.
Lemma pretty_head w s :
  let t := pretty w +:+ s in
  is_digit t = true ∧ is_char t "0" = bool_decide (w = 0%N) ∧ is_char t "-" = false.
Proof.
  unfold pretty, pretty_N. destruct (decide (w = 0)%N) as [->|Hz]; [done|].
  destruct (pretty_go_head w "" ltac:(lia)) as (d & rest & -> & Hd).
  destruct (digit_head d (rest +:+ s) Hd) as (? & Hc & ?). by rewrite bool_decide_eq_false_2 by done.
Qed.

(** Decimal numbers are the strings of the library of the specification. *)
Lemma digits_go fuel x s :
  (0 < x)%N → Z.of_N x < 10 ^ Z.of_nat fuel →
  bytes_of_string (pretty_N_go x s) =
    (digit_char false <$> reverse (lsd fuel 10 (Z.of_N x))) ++ bytes_of_string s.
Proof.
  revert x s. induction fuel as [|fuel IH]; intros x s Hx Hlt; [simpl in Hlt; lia|].
  rewrite pretty_N_go_step, lsd_step, reverse_cons, fmap_app, <- app_assoc by done.
  assert (Z.of_N x / 10 = Z.of_N (x / 10)) as Hdiv by (by rewrite N2Z.inj_div).
  assert (bytes_of_string (String (pretty_N_char (x mod 10)) s) =
            (digit_char false <$> [Z.of_N x mod 10]) ++ bytes_of_string s) as Hchar.
  { change (Z.of_N x mod 10) with (Z.of_N x mod Z.of_N 10). rewrite <- N2Z.inj_mod.
    pose proof (N.mod_lt x 10 ltac:(done)) as Hd. revert Hd. generalize (x mod 10)%N. intros d Hd.
    assert (d = 0 ∨ d = 1 ∨ d = 2 ∨ d = 3 ∨ d = 4 ∨ d = 5 ∨ d = 6 ∨ d = 7 ∨ d = 8 ∨ d = 9)%N as H by lia.
    clear Hd. by destruct_or! H; subst d. }
  destruct (decide (x / 10 = 0)%N) as [Hz|Hz].
  - rewrite Hz, pretty_N_go_0, Hchar, Hdiv, Hz. done.
  - apply N.neq_0_lt_0 in Hz. rewrite IH.
    + rewrite Hchar, Hdiv. by rewrite (proj2 (Z.ltb_lt 0 _)) by (by apply N2Z.inj_lt in Hz).
    + done.
    + rewrite <- Hdiv. rewrite Nat2Z.inj_succ, Z.pow_succ_r in Hlt by lia. apply Z.div_lt_upper_bound; lia.
Qed.
Lemma number_pretty n : - 2 ^ 63 ≤ n < 2 ^ 64 →
  number 10 false false (n <? 0) 0 (Z.abs n) = bytes_of_string (pretty n).
Proof.
  intros Hn. unfold number. simpl Z.to_nat. rewrite Nat.sub_0_l. cbn [replicate app].
  assert (∀ p, Z.pos p < 10 ^ Z.of_nat kMaxLen →
    digit_char false <$> digits 10 (Z.pos p) = bytes_of_string (pretty_N_go (N.pos p) "")) as Hpos.
  { intros p Hp. rewrite (digits_go kMaxLen) by done. by rewrite app_nil_r. }
  pose proof (pow_room 10 ltac:(by left)). destruct n as [|p|p]; [done|..].
  - change (Z.abs (Z.pos p)) with (Z.pos p). exact (Hpos p ltac:(lia)).
  - change (Z.abs (Z.neg p)) with (Z.pos p). cbn [Z.ltb Z.compare app]. by rewrite Hpos by lia.
Qed.

(** Matching a literal at the head of a format. *)
Ltac scan := cbv [show_length show_conv String.append is_char rest_of Ascii.eqb Bool.eqb andb orb negb].

Lemma va_arg_run s x xs : p_args s = x :: xs → va_arg s = Ret x (Pstate (p_mem s) (p_buff s) xs).
Proof. intros H. unfold va_arg. rewrite bind_get. by rewrite H. Qed.

(** The directive [p] on the arguments of [st] prints what [render_piece] says. *)
Definition prints (be : Z) (st : pstate) (o : outcome pstate (Z * string)) (t : list Z)
    (args : list Z) (rest : string) : Prop :=
  ∃ cur, rest_of cur = rest ∧
    o = Ret (Z.of_nat (length t), cur) (written be t (Pstate (p_mem st) (p_buff st) args)).

Lemma signed_range l x : - 2 ^ 63 ≤ signed_value l x < 2 ^ 63.
Proof.
  assert (∀ w, 0 < w ≤ 64 → - 2 ^ 63 ≤ swrap w x < 2 ^ 63) as H.
  { intros w Hw. unfold swrap, wrap. pose proof (Z.mod_pos_bound x (2 ^ w) ltac:(lia)).
    assert (2 ^ w = 2 * 2 ^ (w - 1)) as Hp by (rewrite <- Z.pow_succ_r by lia; f_equal; lia).
    pose proof (Z.pow_le_mono_r 2 (w - 1) 63 ltac:(lia) ltac:(lia)).
    destruct (Z.ltb_spec (x mod 2 ^ w) (2 ^ (w - 1))); lia. }
  destruct l; apply H; lia.
Qed.
Lemma unsigned_range l x : in_range 64 (unsigned_value l x).
Proof.
  unfold in_range. destruct l; unfold unsigned_value, u32, u64, wrap.
  - pose proof (Z.mod_pos_bound x (2 ^ 32) ltac:(lia)). lia.
  - pose proof (Z.mod_pos_bound x (2 ^ 64) ltac:(lia)). lia.
  - pose proof (Z.mod_pos_bound x (2 ^ 64) ltac:(lia)). lia.
Qed.
Lemma conversion_int be rest lj hw pad k l w pr st x xs :
  p_args st = x :: xs → 0 ≤ w < 30 →
  conversion be (show_conv k +:+ rest) lj hw pad (bool_decide (l = LZ)) (bool_decide (l = LL)) w pr st =
    Ret (Z.of_nat (length (int_text k l pad w x)))
      (written be (int_text k l pad w x) (Pstate (p_mem st) (p_buff st) xs)).
Proof.
  intros Hx Hw. assert (u8 w = w) as Hu by (unfold u8, wrap; rewrite Z.mod_small; lia).
  assert ((if bool_decide (l = LL) then s64 x else if bool_decide (l = LZ) then s64 x else s32 x)
            = signed_value l x) as Hs by (by destruct l).
  assert ((if bool_decide (l = LL) then u64 x else if bool_decide (l = LZ) then u64 x else u32 x)
            = unsigned_value l x) as Hun by (by destruct l).
  unfold conversion. cbv zeta. rewrite Hu.
  pose proof (signed_range l x). pose proof (unsigned_range l x).
  destruct k; scan;
    rewrite (bind_run _ _ _ _ _ (va_arg_run _ _ _ Hx)); cbv beta; rewrite ?Hs, ?Hun.
  - by apply AppendSigned_run.
  - apply AppendUnsigned_run; auto.
  - apply AppendUnsigned_run; auto.
  - apply AppendUnsigned_run; auto.
Qed.
Lemma rest_int be hw pad k l w rest st x xs :
  p_args st = x :: xs → 0 ≤ w < 30 →
  prints be st (directive_rest be false hw pad w (show_length l +:+ show_conv k +:+ rest) st)
    (int_text k l pad w x) xs rest.
Proof.
  intros Hx Hw. exists (show_conv k +:+ rest). split; [by destruct k|].
  pose proof (conversion_int be rest false hw pad k l w (-1) st x xs Hx Hw) as Hc.
  unfold directive_rest.
  destruct l, k; revert Hc; scan; intros Hc;
    erewrite bind_run by done; erewrite bind_run by done; by erewrite bind_run by exact Hc.
Qed.
Lemma directive_int m be p rest st t xs :
  match p with PInt _ _ _ => True | _ => False end → supported p →
  render_piece m p (p_args st) = Some (t, xs) →
  ∃ s, show_piece p +:+ rest = String "%" s ∧ prints be st (directive_from be s st) t xs rest.
Proof.
  destruct p as [|k l w| | | |]; try done. intros _ Hs Hr. cbn [render_piece] in Hr.
  destruct (p_args st) as [|x ys] eqn:Hx; [done|]. injection Hr as <- <-.
  set (body := show_length l +:+ show_conv k +:+ rest).
  assert (is_digit body = false) as Hd by (by destruct l, k).
  exists (show_width w +:+ body). split.
  { unfold body, show_piece. by rewrite !string_app_assoc. }
  unfold directive_from. destruct w as [[z w]|]; cbn [show_width render_int].
  - destruct Hs as [Hw Hz]. assert (Z.of_N w < 2 ^ 31) as Hw31 by lia. destruct z.
    + change (("0" +:+ pretty w) +:+ body) with (String "0" (pretty w +:+ body)).
      cbv [is_char Ascii.eqb Bool.eqb]. change (is_digit (String "0" (pretty w +:+ body))) with true. cbv iota zeta.
      change (width_loop 0 (String "0" (pretty w +:+ body))) with (width_loop 0 (pretty w +:+ body)).
      rewrite width_loop_pretty by done. apply rest_int; [done|lia].
    + destruct (pretty_head w body) as (H1 & H2 & H3). rewrite H3. cbv zeta iota. rewrite H1, H2.
      rewrite width_loop_pretty by done. rewrite bool_decide_eq_false_2 by (destruct Hz; [done|lia]).
      apply rest_int; [done|lia].
  - assert (is_char ("" +:+ body) "-" = false ∧ is_char ("" +:+ body) "0" = false) as [-> H0]
      by (by destruct l, k). cbv zeta iota. change ("" +:+ body) with body in *. rewrite Hd, H0.
    apply rest_int; [done|lia].
Qed.

(** ** Strings and the other directives *)
Lemma rest_str m lo be lj hw pad w (prec : bool) rest st pr a xs :
  inside m lo be st → readable m lo be (u64 a) → 0 ≤ w → (lj = false → hw = false ∧ w = 0) →
  p_args st = (if prec then [pr] else []) ++ a :: xs →
  prints be st
    (directive_rest be lj hw pad w ((if prec then ".*" else "") +:+ "s" +:+ rest) st)
    (render_str w (if prec then s32 pr else -1) (text_at m (u64 a))) xs rest.
Proof.
  intros Hin Hr Hw Hlj Hargs. exists ("s" +:+ rest). split; [done|].
  assert (∀ st' max, inside m lo be st' → p_args st' = a :: xs →
    conversion be (String "s" rest) lj hw pad false false w max st' =
      Ret (Z.of_nat (length (render_str w max (text_at m (u64 a)))))
        (written be (render_str w max (text_at m (u64 a))) (Pstate (p_mem st') (p_buff st') xs))) as Hconv.
  { intros st' max Hin' Hx. unfold conversion. scan.
    erewrite bind_run by done.
    erewrite (bind_run _ _ st' () st').
    2:{ destruct lj; [by destruct hw|]. by destruct (Hlj eq_refl) as [-> _]. }
    erewrite bind_run by (by apply va_arg_run).
    replace (if lj then - w else w) with (- w) by (destruct lj; [done|destruct (Hlj eq_refl); lia]).
    destruct (readable_string m lo be (u64 a) st' Hin' Hr) as [Hs Ha].
    apply (AppendString_run _ _ _ _ _ _ lo); [done|done|apply Hin'|done]. }
  unfold directive_rest. destruct prec; scan; cbn [app] in Hargs.
  - erewrite bind_run by (erewrite bind_run by (by apply va_arg_run); done).
    erewrite bind_run. 2:{ destruct lj, (0 <=? s32 pr); done. }
    by erewrite bind_run by (by apply Hconv).
  - erewrite bind_run by done. erewrite bind_run. 2:{ by destruct lj. }
    by erewrite bind_run by (by apply Hconv).
Qed.
Lemma directive_str m lo be w prec rest st pr a xs :
  inside m lo be st → readable m lo be (u64 a) → supported (PStr w prec) →
  p_args st = (if prec then [pr] else []) ++ a :: xs →
  ∃ s, show_piece (PStr w prec) +:+ rest = String "%" s ∧
    prints be st (directive_from be s st)
      (render_str (default 0 (Z.of_N <$> w)) (if prec then s32 pr else -1) (text_at m (u64 a))) xs rest.
Proof.
  intros Hin Hr Hs Hargs. set (body := (if prec then ".*" else "") +:+ "s" +:+ rest).
  assert (is_digit body = false) as Hd by (by destruct prec).
  exists (match w with None => "" | Some w => "-" +:+ pretty w end +:+ body). split.
  { unfold body, show_piece. by rewrite !string_app_assoc. }
  unfold directive_from. destruct w as [w|].
  - change (("-" +:+ pretty w) +:+ body) with (String "-" (pretty w +:+ body)).
    cbv [is_char Ascii.eqb Bool.eqb rest_of]. fold (is_char (pretty w +:+ body) "0").
    destruct (pretty_head w body) as (H1 & _ & _). rewrite H1, width_loop_pretty by done.
    apply (rest_str m lo be true true _ _ prec rest st pr a xs); [done|done|simpl; lia|done|done].
  - change ("" +:+ body) with body.
    assert (is_char body "-" = false ∧ is_char body "0" = false) as [-> H0] by (by destruct prec).
    cbv zeta iota. rewrite Hd. rewrite H0.
    apply (rest_str m lo be false false _ _ prec rest st pr a xs); done.
Qed.
Lemma AppendPointer_run be x st :
  p_buff st ≤ be →
  let t := bytes_of_string "0x" ++ number 16 false true false 12 (u64 x) in
  AppendPointer be (u64 x) st = Ret (Z.of_nat (length t)) (written be t st).
Proof.
  intros Hb t. unfold AppendPointer.
  erewrite bind_run.
  2:{ change 0 with (- 0) at 1. apply (AppendString_run _ _ _ _ (bytes_of_string "0x") _ (p_buff st)); by repeat split. }
  erewrite bind_run.
  2:{ apply AppendUnsigned_run; [by right|apply (unsigned_range LL)|done]. }
  rewrite <- emit_app. unfold t. rewrite length_app, Nat2Z.inj_add. done.
Qed.
Lemma plain_directive be c rest st :
  c = "p"%char ∨ c = "c"%char ∨ c = "%"%char →
  directive_from be (String c rest) st =
    (r ← conversion be (String c rest) false false false false false 0 (-1);
     mret (r, String c rest)) st.
Proof. intros Hc. by destruct_or! Hc; subst c. Qed.
Lemma plain_appends be c rest st t xs :
  c = "p"%char ∨ c = "c"%char ∨ c = "%"%char →
  conversion be (String c rest) false false false false false 0 (-1) st =
    Ret (Z.of_nat (length t)) (written be t (Pstate (p_mem st) (p_buff st) xs)) →
  prints be st (directive_from be (String c rest) st) t xs rest.
Proof.
  intros Hc Hrun. exists (String c rest). split; [done|]. rewrite plain_directive by done.
  by erewrite bind_run by exact Hrun.
Qed.
Lemma directive_other m lo be p rest st t xs :
  inside m lo be st → p = PPtr ∨ p = PChar ∨ p = PPercent →
  render_piece m p (p_args st) = Some (t, xs) →
  ∃ s, show_piece p +:+ rest = String "%" s ∧ prints be st (directive_from be s st) t xs rest.
Proof.
  intros [Hb _] Hp Hr. destruct_or! Hp; subst p; cbn [render_piece] in Hr; eexists;
    (split; [done|]); (apply plain_appends; [auto|]); unfold conversion; scan;
    erewrite bind_run by done.
  - destruct (p_args st) as [|x ys] eqn:Hx; [done|]. injection Hr as <- <-.
    erewrite bind_run by (by apply va_arg_run). apply AppendPointer_run. simpl. lia.
  - destruct (p_args st) as [|x ys] eqn:Hx; [done|]. injection Hr as <- <-.
    erewrite bind_run by (by apply va_arg_run). apply AppendChar_run.
  - injection Hr as <- <-. rewrite AppendChar_byte by done. by destruct st.
Qed.

Lemma piece_run m lo be p rest st t xs :
  inside m lo be st → supported p → (∀ a, a ∈ string_args [p] (p_args st) → readable m lo be a) →
  render_piece m p (p_args st) = Some (t, xs) → (∀ c, p ≠ PText c) →
  ∃ s, show_piece p +:+ rest = String "%" s ∧ prints be st (directive_from be s st) t xs rest.
Proof.
  intros Hin Hs Hread Hr Hp. destruct p as [c|k l w| |w prec| |].
  - by destruct (Hp c).
  - by eapply directive_int.
  - eapply directive_other; eauto.
  - cbn [render_piece string_args] in *. rewrite app_nil_r in *. destruct prec.
    + destruct (p_args st) as [|pr [|a ys]] eqn:Hx; [done..|]. injection Hr as <- <-.
      apply (directive_str m lo be w true rest st pr a); [done| |done|done]. apply Hread. simpl. set_solver.
    + destruct (p_args st) as [|a ys] eqn:Hx; [done..|]. injection Hr as <- <-.
      apply (directive_str m lo be w false rest st 0 a); [done| |done|done]. apply Hread. simpl. set_solver.
  - eapply directive_other; eauto.
  - eapply directive_other; eauto.
Qed.
Lemma string_args_cons m p ps args t xs :
  render_piece m p args = Some (t, xs) →
  string_args (p :: ps) args = string_args [p] args ++ string_args ps xs.
Proof.
  destruct p as [c|k l w| |w [|]| |]; cbn [render_piece string_args];
    destruct args as [|x [|y args]]; try done; intros [= _ <-]; cbn [tail]; by rewrite ?app_nil_r.
Qed.

Lemma format_run m lo be ps rest fuel result st t xs :
  inside m lo be st → Forall supported ps → render m ps (p_args st) = Some (t, xs) →
  (∀ a, a ∈ string_args ps (p_args st) → readable m lo be a) →
  rest = "" → (length ps < fuel)%nat →
  format_chars fuel be result (show_format ps +:+ rest) st =
    Ret (result + Z.of_nat (length t)) (written be t (Pstate (p_mem st) (p_buff st) xs)).
Proof.
  intros Hin Hs. revert fuel result st t Hin. induction Hs as [|p ps Hp Hps IH];
    intros fuel result st t Hin Hr Hread Hrest Hf; (destruct fuel as [|fuel]; [simpl in Hf; lia|]).
  { injection Hr as <- <-. subst rest. cbn [format_chars show_format]. simpl.
    unfold mret, M_ret. f_equal; [lia|by destruct st]. }
  cbn [render] in Hr. destruct (render_piece m p (p_args st)) as [[t1 ys]|] eqn:Hr1; [|done].
  cbn [mbind option_bind] in Hr. destruct (render m ps ys) as [[t2 zs]|] eqn:Hr2; [|done].
  injection Hr as <- <-. rewrite (string_args_cons _ _ _ _ _ _ Hr1) in Hread.
  set (st1 := written be t1 (Pstate (p_mem st) (p_buff st) ys)).
  assert (inside m lo be st1) as Hin1 by (by apply inside_emit).
  assert (p_args st1 = ys) as Hargs1 by apply emit_args. cbn [length] in Hf.
  assert (∀ n, format_chars fuel be n (show_format ps +:+ rest) st1 =
            Ret (n + Z.of_nat (length t2)) (written be t2 (Pstate (p_mem st1) (p_buff st1) zs))) as Hstep.
  { intros n. apply IH; [done|by rewrite Hargs1| |done|lia]. intros a Ha. apply Hread.
    rewrite Hargs1 in Ha. apply elem_of_app. by right. }
  assert (written be (t1 ++ t2) (Pstate (p_mem st) (p_buff st) zs) =
            written be t2 (Pstate (p_mem st1) (p_buff st1) zs)) as ->.
  { rewrite emit_app. f_equal. symmetry. apply emit_with_args. }
  rewrite length_app, Nat2Z.inj_add, Z.add_assoc.
  cbn [show_format]. rewrite string_app_assoc.
  assert ((∃ c, p = PText c) ∨ ∀ c, p ≠ PText c) as [[c ->]|Hnt] by (destruct p; eauto).
  - injection Hr1 as <- <-. destruct Hp as [Hpc _]. cbn [show_piece].
    change (String c "" +:+ show_format ps +:+ rest) with (String c (show_format ps +:+ rest)).
    cbn [format_chars]. rewrite (proj2 (Ascii.eqb_neq c "%")) by done.
    erewrite bind_run; [apply Hstep|].
    rewrite AppendChar_byte; [by destruct st|]. pose proof (nat_ascii_bounded c). unfold in_range, char_at. lia.
  - destruct (piece_run m lo be p (show_format ps +:+ rest) st t1 ys) as (s & -> & cur & Hcur & Hd);
      [done|done| |done|done|].
    { intros a Ha. apply Hread, elem_of_app. by left. }
    cbn [format_chars]. rewrite Ascii.eqb_refl. erewrite bind_run by exact Hd. cbv beta iota.
    rewrite Hcur. apply Hstep.
Qed.

(** ** The whole format *)
Lemma show_format_length ps : (length ps ≤ String.length (show_format ps))%nat.
Proof.
  induction ps as [|p ps IH]; [done|]. cbn [show_format length].
  assert (∀ s t, String.length (s +:+ t) = (String.length s + String.length t)%nat) as Happ.
  { intros s t. induction s as [|c s IHs]; [done|]. simpl. by rewrite IHs. }
  rewrite Happ. assert (0 < String.length (show_piece p))%nat; [|lia].
  destruct p; simpl; rewrite ?Happ; simpl; lia.
Qed.
Lemma string_app_empty s : s +:+ "" = s.
Proof. induction s as [|c s IH]; [done|]. change (String c (s +:+ "") = String c s). by rewrite IH. Qed.

Lemma store_bytes_app m a bs cs :
  store_bytes m a (bs ++ cs) = store_bytes (store_bytes m a bs) (a + Z.of_nat (length bs)) cs.
Proof.
  revert m a. induction bs as [|b bs IH]; intros m a; cbn [store_bytes app length].
  - by rewrite Z.add_0_r.
  - rewrite IH. f_equal. lia.
Qed.
Lemma VSNPrintf_run buff len ps m b args t xs :
  0 < len → Forall supported ps → render m ps args = Some (t, xs) →
  (∀ a, a ∈ string_args ps args → readable m buff (buff + len) a) →
  ∃ b', VSNPrintf buff len (show_format ps) (Pstate m b args) =
    Ret (Z.of_nat (length t)) (Pstate (store_bytes m buff (take (Z.to_nat (len - 1)) t ++ [0])) b' xs).
Proof.
  intros Hlen Hs Hr Hread. unfold VSNPrintf, raw_check. rewrite (proj2 (Z.ltb_lt 0 len)) by done.
  erewrite bind_run by done. rewrite bind_modify. cbn [p_mem p_args].
  set (be := buff + (len - 1)).
  erewrite bind_run.
  2:{ rewrite <- (string_app_empty (show_format ps)) at 2.
      apply (format_run m buff be); [split; [simpl; lia|done]|done|done| |done|].
      - intros a Ha. destruct (Hread a Ha) as [|Hra]; [by left|right]. intros i Hi.
        destruct (Hra i Hi). split; [done|lia].
      - pose proof (show_format_length ps). lia. }
  cbn [p_mem p_buff]. rewrite emit_spec by (simpl; lia). cbn [p_mem p_buff p_args].
  rewrite bind_gets. cbn [p_buff]. rewrite (proj2 (Z.leb_le _ _)) by lia. erewrite bind_run by done.
  erewrite bind_run by (by apply AppendChar_byte). cbn [written foldl]. unfold written1. cbn [p_buff p_mem p_args].
  rewrite (proj2 (Z.ltb_lt _ _)) by lia. eexists. unfold mret, M_ret. f_equal. f_equal.
  rewrite store_bytes_app. cbn [store_bytes]. rewrite length_take.
  replace (be - buff) with (len - 1) by lia. f_equal. lia.
Qed.

Lemma snprintf_run buffer len ps args t xs m :
  0 < len < 2 ^ 31 → Forall supported ps → render m ps args = Some (t, xs) →
  (∀ a, a ∈ string_args ps args → readable m buffer (buffer + len) a) →
  internal_snprintf buffer len (show_format ps) args m =
    Ret (Z.of_nat (length t)) (store_bytes m buffer (take (Z.to_nat (len - 1)) t ++ [0])).
Proof.
  intros Hlen Hs Hr Hread. unfold internal_snprintf, with_args, zoom.
  assert (s32 len = len) as ->.
  { unfold s32, swrap, wrap. rewrite Z.mod_small by lia.
    change (2 ^ (32 - 1)) with (2 ^ 31). by rewrite (proj2 (Z.ltb_lt _ _)) by lia. }
  destruct (VSNPrintf_run buffer len ps m 0 args t xs) as [b' ->]; [lia|done..].
Qed.

(** C33: [internal_snprintf] implements its subset of C's [snprintf]. For a format
    made of the supported directives, arguments for each of them, and strings
    that do not overlap the buffer: the call returns the length of the whole
    text, the buffer then holds the text, cut to one byte less than its size, and
    a NUL, and nothing else in memory changes. *)
Theorem internal_snprintf_spec buffer len ps args t xs m :
  0 < len < 2 ^ 31 → Forall supported ps → render m ps args = Some (t, xs) →
  (∀ a, a ∈ string_args ps args → readable m buffer (buffer + len) a) →
  internal_snprintf buffer len (show_format ps) args m =
    Ret (Z.of_nat (length t)) (store_bytes m buffer (take (Z.to_nat (len - 1)) t ++ [0])).
Proof. apply snprintf_run. Qed.

(** What [snprintf] leaves as it was. *)
Lemma stored_outside m lo n t a :
  0 < n → a < lo ∨ lo + n ≤ a →
  peek (store_bytes m lo (take (Z.to_nat (n - 1)) t ++ [0])) a = peek m a.
Proof.
  intros Hn Ha. rewrite peek_store_bytes, decide_False; [done|].
  rewrite length_app, length_take. cbn [length]. lia.
Qed.
(** The C string a buffer holds. *)
Definition holds_text (m : gmap Z Z) (lo : Z) (bs : list Z) : Prop :=
  (∀ i, 0 ≤ i < Z.of_nat (length bs) → peek m (lo + i) = default 0 (bs !! Z.to_nat i)) ∧
  peek m (lo + Z.of_nat (length bs)) = 0.
Lemma holds_cstr m lo bs : Forall (λ b, b ≠ 0) bs → holds_text m lo bs → cstr m lo = bs.
Proof.
  intros Hnz [Hb Hz].
  assert (strlen m lo = Z.of_nat (length bs)) as Hl.
  { apply strlen_unique; [lia| |done]. intros i Hi. rewrite Hb by done.
    destruct (lookup_lt_is_Some_2 bs (Z.to_nat i)) as [x Hx]; [lia|]. rewrite Hx. simpl.
    rewrite Forall_lookup in Hnz. by eapply Hnz. }
  rewrite cstr_bytes, Hl. apply list_eq. intros i. unfold bytes_of. rewrite list_lookup_fmap.
  destruct (decide (i < length bs)%nat) as [Hlt|Hge].
  - unfold range. rewrite lookup_seqZ_lt by lia. cbn [fmap option_fmap option_map].
    rewrite Hb by lia. replace (Z.to_nat (0 + Z.of_nat i)) with i by lia.
    destruct (lookup_lt_is_Some_2 bs i Hlt) as [x ->]. done.
  - unfold range. rewrite lookup_seqZ_ge by lia. symmetry. apply lookup_ge_None_2. lia.
Qed.
Lemma cstr_stored m a bs :
  Forall (λ b, b ≠ 0) bs → cstr (store_bytes m a (bs ++ [0])) a = bs.
Proof.
  intros Hnz. apply holds_cstr; [done|]. split.
  - intros i Hi. rewrite peek_store_bytes, length_app. cbn [length]. rewrite decide_True by lia.
    rewrite lookup_app_l by lia. do 2 f_equal. lia.
  - rewrite peek_store_bytes, length_app. cbn [length]. rewrite decide_True by lia.
    rewrite lookup_app_r by lia. by replace (Z.to_nat _ - length bs)%nat with O by lia.
Qed.

(** ** What the runtime prints with it *)
Lemma bytes_of_string_app s t : bytes_of_string (s +:+ t) = bytes_of_string s ++ bytes_of_string t.
Proof.
  induction s as [|c s IH]; [done|].
  change (Z.of_nat (nat_of_ascii c) :: bytes_of_string (s +:+ t) =
            Z.of_nat (nat_of_ascii c) :: (bytes_of_string s ++ bytes_of_string t)). by rewrite IH.
Qed.
Lemma bytes_of_string_prefix n s :
  bytes_of_string (String.substring 0 n s) = take n (bytes_of_string s).
Proof.
  revert n. induction s as [|c s IH]; intros [|n]; try done.
  change (Z.of_nat (nat_of_ascii c) :: bytes_of_string (String.substring 0 n s) =
            Z.of_nat (nat_of_ascii c) :: take n (bytes_of_string s)). by rewrite IH.
Qed.
Lemma number_nonzero base up zp neg w n :
  base = 10 ∨ base = 16 → 0 ≤ n → Forall (λ b, b ≠ 0) (number base up zp neg w n).
Proof.
  intros Hb Hn. assert (Forall (λ b, b ≠ 0) (digit_char up <$> digits base n)) as Hds.
  { apply Forall_fmap. eapply Forall_impl; [by apply digits_range|]. intros d Hd. simpl in *.
    unfold digit_char, c_zero. destruct (d <? 10), up; lia. }
  unfold number. destruct zp, neg; rewrite ?Forall_app; repeat split; try done;
    try (by apply Forall_replicate); by repeat constructor.
Qed.
Lemma pretty_nonzero n : - 2 ^ 63 ≤ n < 2 ^ 64 → Forall (λ b, b ≠ 0) (bytes_of_string (pretty n)).
Proof. intros Hn. rewrite <- number_pretty by done. apply number_nonzero; [by left|lia]. Qed.
Lemma pretty_s32_nonzero x : Forall (λ b, b ≠ 0) (bytes_of_string (pretty (s32 x))).
Proof. apply pretty_nonzero. pose proof (signed_range LNone x). simpl in *. lia. Qed.
Lemma render_d x : render_int ConvD LNone None x = bytes_of_string (pretty (s32 x)).
Proof. apply number_pretty. pose proof (signed_range LNone x). simpl in *. lia. Qed.
Lemma render_u x : render_int ConvU LNone None x = bytes_of_string (pretty (u32 x)).
Proof.
  pose proof (unsigned_range LNone x) as Hx. unfold in_range in Hx. simpl in Hx.
  rewrite <- number_pretty by lia. rewrite Z.abs_eq by lia. rewrite (proj2 (Z.ltb_ge _ _)) by lia. done.
Qed.

Definition path_format : list piece :=
  [PStr None false; PText "/"; PText "i"; PText "d"; PText "-"; PInt ConvD LNone None; PText "-";
   PInt ConvD LNone None; PText "-"; PInt ConvD LNone None].
Definition line_format : list piece :=
  let u := PInt ConvU LNone None in
  [u; PText " "; PText "("; u; PText " "; u; PText " "; u; PText " "; u; PText ")"].

Lemma cstr_nonzero m a : Forall (λ b, b ≠ 0) (cstr m a).
Proof.
  rewrite cstr_bytes. apply Forall_fmap, Forall_forall. intros i Hi.
  apply elem_of_seqZ in Hi. apply (strlen_nul m a). simpl. lia.
Qed.

(** The name of a generated input, built by [generate_input] in a buffer of
    [PATH_MAX] bytes with [internal_snprintf] and the format of the source, is
    the string the model of [generate_input] opens, whatever the length of the
    output directory. *)
Theorem input_path_printed o index dir path m :
  in_range 64 dir → dir ≠ 0 → cstr m dir = bytes_of_string (output_dir o) →
  readable m path (path + PATH_MAX) dir →
  ∃ n m', internal_snprintf path PATH_MAX "%s/id-%d-%d-%d"
            [dir; instance_id o; session_id o; index] m = Ret n m' ∧
    cstr m' path = bytes_of_string (input_path o index) ∧
    ∀ a, a < path ∨ path + PATH_MAX ≤ a → peek m' a = peek m a.
Proof.
  intros Hdir Hnz Hstr Hread. change "%s/id-%d-%d-%d" with (show_format path_format).
  assert (u64 dir = dir) as Hu by (unfold u64, wrap; by rewrite Z.mod_small).
  set (text := bytes_of_string (output_dir o +:+ "/id-" +:+ pretty (s32 (instance_id o)) +:+ "-"
                 +:+ pretty (s32 (session_id o)) +:+ "-" +:+ pretty (s32 index))).
  assert (render m path_format [dir; instance_id o; session_id o; index] = Some (text, [])) as Hr.
  { unfold path_format. cbn [render render_piece mbind option_bind].
    unfold text, render_str, text_at. rewrite !render_d, Hu, (proj2 (Z.eqb_neq dir 0)), Hstr by done.
    rewrite !bytes_of_string_app. do 2 f_equal. cbn [fmap option_fmap option_map default].
    change (0 <=? -1) with false. cbv iota. by rewrite !app_nil_r. }
  erewrite snprintf_run; [|done|repeat constructor; done|exact Hr|].
  2:{ intros a. cbn. rewrite Hu. rewrite elem_of_cons, elem_of_nil. by intros [->|[]]. }
  eexists _, _. split; [done|]. split.
  - rewrite cstr_stored.
    + unfold input_path. by rewrite bytes_of_string_prefix.
    + apply Forall_take. unfold text. rewrite !bytes_of_string_app, <- Hstr, !Forall_app.
      split_and!; try apply pretty_s32_nonzero; [apply cstr_nonzero|by repeat constructor..].
  - intros a. by apply stored_outside.
Qed.

(** ** A line of the label dump fits its buffer *)
Lemma lsd_length fuel n k : 0 ≤ n < 10 ^ Z.of_nat k → (0 < k)%nat → (length (lsd fuel 10 n) ≤ k)%nat.
Proof.
  revert n k. induction fuel as [|fuel IH]; intros n k Hn Hk; [simpl; lia|]. rewrite lsd_step.
  cbn [length]. destruct k as [|k]; [lia|]. destruct (Z.ltb_spec 0 (n / 10)) as [Hp|_]; [|simpl; lia].
  rewrite Nat2Z.inj_succ, Z.pow_succ_r in Hn by lia.
  assert (n / 10 < 10 ^ Z.of_nat k) as Hlt by (apply Z.div_lt_upper_bound; lia).
  assert (0 < k)%nat by (destruct k; [simpl in Hlt; lia|lia]). specialize (IH (n / 10) k). lia.
Qed.
Lemma pretty_length n k :
  0 ≤ n < 10 ^ Z.of_nat k → n < 2 ^ 64 → (0 < k)%nat → (length (bytes_of_string (pretty n)) ≤ k)%nat.
Proof.
  intros Hn H64 Hk. rewrite <- number_pretty by lia. unfold number. rewrite (proj2 (Z.ltb_ge n 0)) by lia.
  change (Z.to_nat 0) with O. rewrite Nat.sub_0_l. cbn [replicate app length].
  rewrite length_fmap, Z.abs_eq by lia. unfold digits. rewrite length_reverse. by apply lsd_length.
Qed.

(** A line of the label dump, printed by [dfsan_dump_labels] into its buffer of
    64 bytes with [internal_snprintf] and the format of the source, is the line
    the model writes: none is ever cut. *)
Theorem label_line_printed {Zi : Z3} l (i : dfsan_label_info expr) buf m :
  in_range 32 l → in_range 32 (li_l1 i) → in_range 32 (li_l2 i) → in_range 16 (li_op i) →
  in_range 16 (li_size i) →
  ∃ n m', internal_snprintf buf 64 "%u (%u %u %u %u)"
            [l; li_l1 i; li_l2 i; li_op i; li_size i] m = Ret n m' ∧
    cstr m' buf = bytes_of_string (label_line l i).
Proof.
  intros Hl H1 H2 Hop Hsz. change "%u (%u %u %u %u)" with (show_format line_format).
  assert (∀ x w, 0 < w ≤ 32 → in_range w x → u32 x = x ∧ 0 ≤ x < 2 ^ 32) as Hu.
  { intros x w Hw Hx. unfold in_range in Hx. pose proof (Z.pow_le_mono_r 2 w 32 ltac:(lia) ltac:(lia)).
    split; [|lia]. unfold u32, wrap. rewrite Z.mod_small; lia. }
  assert (∀ x k, 0 ≤ x < 2 ^ 32 → x < 10 ^ Z.of_nat k → (0 < k)%nat →
    (length (bytes_of_string (pretty x)) ≤ k)%nat ∧ Forall (λ b, b ≠ 0) (bytes_of_string (pretty x))) as Hp.
  { intros x k Hx Hk Hk0. split; [apply pretty_length; lia|apply pretty_nonzero; lia]. }
  destruct (Hu l 32 ltac:(lia) Hl) as [El Rl]. destruct (Hu _ 32 ltac:(lia) H1) as [E1 R1].
  destruct (Hu _ 32 ltac:(lia) H2) as [E2 R2]. destruct (Hu _ 16 ltac:(lia) Hop) as [E3 R3].
  destruct (Hu _ 16 ltac:(lia) Hsz) as [E4 R4]. unfold in_range in Hop, Hsz.
  destruct (Hp l 10%nat) as [Ll Nl]; [done|lia|lia|]. destruct (Hp (li_l1 i) 10%nat) as [L1 N1]; [done|lia|lia|].
  destruct (Hp (li_l2 i) 10%nat) as [L2 N2]; [done|lia|lia|].
  destruct (Hp (li_op i) 5%nat) as [L3 N3]; [done|lia|lia|]. destruct (Hp (li_size i) 5%nat) as [L4 N4]; [done|lia|lia|].
  set (args := [_; _; _; _; _]).
  assert (render m line_format args = Some (bytes_of_string (label_line l i), [])) as Hr.
  { unfold line_format, args. cbv zeta. cbn [render render_piece mbind option_bind].
    rewrite !render_u. unfold label_line. rewrite !bytes_of_string_app, El, E1, E2, E3, E4. done. }
  erewrite snprintf_run; [|done|repeat constructor; done|exact Hr|].
  2:{ intros a. unfold args. cbn. by rewrite elem_of_nil. }
  eexists _, _. split; [done|]. unfold label_line. rewrite El.
  rewrite !bytes_of_string_app. rewrite take_ge.
  - apply cstr_stored. rewrite !Forall_app. split_and!; try done; by repeat constructor.
  - rewrite !length_app. change (Z.to_nat (64 - 1)) with 63%nat.
    change (length (bytes_of_string " (")) with 2%nat. change (length (bytes_of_string " ")) with 1%nat.
    change (length (bytes_of_string ")")) with 1%nat. lia.
Qed.

(** ** Messages *)
Definition unchanged (m m' : gmap Z Z) (lo size : Z) : Prop :=
  ∀ a, a < lo ∨ lo + size ≤ a → peek m' a = peek m a.
Lemma readable_same m m' lo size a :
  unchanged m m' lo size → readable m lo (lo + size) a →
  text_at m' a = text_at m a ∧ ∀ l h, readable m l h a → readable m' l h a.
Proof.
  intros Hu Hr. unfold text_at. destruct (Z.eqb_spec a 0) as [->|Ha].
  { split; [done|]. intros l h _. by left. }
  destruct Hr as [|Hr]; [done|]. destruct (strlen_nul m a) as (H0 & Hnz & Hz).
  assert (∀ i, 0 ≤ i ≤ strlen m a → peek m' (a + i) = peek m (a + i)) as Hsame.
  { intros i Hi. apply Hu. by destruct (Hr i Hi). }
  assert (strlen m' a = strlen m a) as Hl.
  { apply strlen_unique; [done| |by rewrite Hsame by lia]. intros i Hi. rewrite Hsame by lia. by apply Hnz. }
  split.
  - rewrite !cstr_bytes, Hl. apply bytes_of_ext. intros i Hi. apply Hsame. lia.
  - intros l h [|Hlh]; [by left|right]. rewrite Hl. intros i Hi. rewrite Hsame by done. by apply Hlh.
Qed.
Lemma render_piece_same m m' p args :
  (∀ a, a ∈ string_args [p] args → text_at m' a = text_at m a) →
  render_piece m' p args = render_piece m p args.
Proof.
  intros H. destruct p as [c|k l w| |w [|]| |]; try done; cbn [string_args render_piece] in *.
  - destruct args as [|pr [|a args]]; [done..|]. rewrite H; [done|]. simpl. set_solver.
  - destruct args as [|a args]; [done|]. rewrite H; [done|]. simpl. set_solver.
Qed.
Lemma render_same m m' ps args t xs :
  (∀ a, a ∈ string_args ps args → text_at m' a = text_at m a) →
  render m ps args = Some (t, xs) → render m' ps args = Some (t, xs).
Proof.
  revert args t. induction ps as [|p ps IH]; intros args t H Hr; [done|]. cbn [render] in *.
  destruct (render_piece m p args) as [[t1 ys]|] eqn:Hr1; [|done]. cbn [mbind option_bind] in *.
  destruct (render m ps ys) as [[t2 zs]|] eqn:Hr2; [|done]. injection Hr as <- <-.
  rewrite (string_args_cons _ _ _ _ _ _ Hr1) in H.
  rewrite (render_piece_same m m'), Hr1 by (intros a Ha; apply H, elem_of_app; by left).
  cbn [mbind option_bind]. rewrite (IH ys t2); [done| |done]. intros a Ha. apply H, elem_of_app. by right.
Qed.

(** The calls of [print_round], one after the other. *)
Fixpoint print_chain (use_mmap : bool) (lo size needed : Z) (calls : list (string * list Z)) :
    M (gmap Z Z) (option ()) :=
  match calls with
  | [] => mret (Some ())
  | (format, args) :: calls =>
      n ← internal_snprintf (lo + needed) (size - needed) format args;
      check_needed_length use_mmap (needed + n) size (print_chain use_mmap lo size (needed + n) calls)
  end.
Definition print_calls (p : process) (append_pid : bool) (format : string) (args : list Z) :
    list (string * list Z) :=
  (if append_pid then
     (if pr_log_exe_name p && negb (pr_exe_name p =? 0) then [("==%s", [pr_exe_name p])] else []) ++
     [("==%d==", [pr_pid p])]
   else []) ++ [(format, args)].
Lemma print_round_chain p append_pid use_mmap lo size format args m :
  print_round p append_pid use_mmap lo size format args m =
    print_chain use_mmap lo size 0 (print_calls p append_pid format args) m.
Proof.
  unfold print_round, print_calls. destruct append_pid; [|done].
  destruct (pr_log_exe_name p && _); [|done]. cbn [app print_chain].
  by rewrite Z.add_0_r, Z.sub_0_r.
Qed.

(** Each call prints its text after those before it. *)
Definition call_text (m : gmap Z Z) (lo size : Z) (c : string * list Z) (t : list Z) : Prop :=
  ∃ ps xs, fst c = show_format ps ∧ Forall supported ps ∧ render m ps (snd c) = Some (t, xs) ∧
    ∀ a, a ∈ string_args ps (snd c) → readable m lo (lo + size) a.

Lemma call_run m m' lo size c t pre :
  unchanged m m' lo size → call_text m lo size c t → size < 2 ^ 31 → Z.of_nat (length pre) < size →
  (∀ i, 0 ≤ i < Z.of_nat (length pre) → peek m' (lo + i) = default 0 (pre !! Z.to_nat i)) →
  ∃ m'', internal_snprintf (lo + Z.of_nat (length pre)) (size - Z.of_nat (length pre)) (fst c) (snd c) m' =
           Ret (Z.of_nat (length t)) m'' ∧ unchanged m m'' lo size ∧
    (Z.of_nat (length (pre ++ t)) < size → holds_text m'' lo (pre ++ t)).
Proof.
  intros Hun (ps & xs & Hf & Hs & Hr & Hread) Hsz Hpre Hheld. set (n := Z.of_nat (length pre)) in *.
  rewrite Hf, (snprintf_run _ _ ps _ t xs); [|lia|done| |].
  - eexists. split; [done|]. split.
    + intros a Ha. rewrite stored_outside by lia. by apply Hun.
    + rewrite length_app. intros Hfit. rewrite take_ge by lia. split.
      * intros i Hi. rewrite length_app in Hi. rewrite peek_store_bytes, length_app. cbn [length].
        destruct (decide (i < n)) as [Hlt|Hge].
        -- rewrite decide_False by lia. rewrite Hheld by lia. by rewrite lookup_app_l by lia.
        -- rewrite decide_True by lia. rewrite (lookup_app_r pre), lookup_app_l by lia. do 2 f_equal. lia.
      * rewrite length_app, peek_store_bytes, length_app. cbn [length]. rewrite decide_True by lia.
        rewrite lookup_app_r by lia. by replace (Z.to_nat _ - length t)%nat with O by lia.
  - eapply render_same; [|done]. intros a Ha. by eapply readable_same, Hread.
  - intros a Ha. replace (lo + n + (size - n)) with (lo + size) by lia.
    destruct (readable_same m m' lo size a Hun (Hread a Ha)) as [_ H]. apply H.
    destruct (Hread a Ha) as [|Hra]; [by left|right]. intros i Hi. destruct (Hra i Hi). split; [done|lia].
Qed.
Definition too_short : halt := HDie "Buffer in Report is too short!".
Lemma chain_run m lo size (use_mmap : bool) calls ts : size < 2 ^ 31 → (use_mmap = true → size = kLen) →
  Forall2 (call_text m lo size) calls ts → ∀ m' pre, unchanged m m' lo size → Z.of_nat (length pre) < size →
  (∀ i, 0 ≤ i < Z.of_nat (length pre) → peek m' (lo + i) = default 0 (pre !! Z.to_nat i)) →
  calls ≠ [] ∨ holds_text m' lo pre →
  let msg := pre ++ concat ts in
  ∃ m'', unchanged m m'' lo size ∧ (Z.of_nat (length msg) < size → holds_text m'' lo msg) ∧
    print_chain use_mmap lo size (Z.of_nat (length pre)) calls m' =
      if decide (Z.of_nat (length msg) < size) then Ret (Some ()) m''
      else if use_mmap then Halt too_short m'' else Ret None m''.
Proof.
  intros Hsz Hk Hcalls. induction Hcalls as [|c t calls ts Hc Hcalls IH]; intros m' pre Hun Hpre Hheld Hne msg.
  { destruct Hne as [|Hne]; [done|]. unfold msg. cbn [concat]. rewrite app_nil_r. exists m'.
    split; [done|]. split; [done|]. by rewrite decide_True by done. }
  destruct (call_run m m' lo size c t pre) as (m1 & Hrun & Hun1 & Hheld1); [done..|].
  destruct c as [format args]. cbn [fst snd] in Hrun. cbn [print_chain].
  erewrite (bind_run _ _ _ _ m1 Hrun). unfold check_needed_length.
  assert (Z.of_nat (length pre) + Z.of_nat (length t) = Z.of_nat (length (pre ++ t))) as Hlen
    by (rewrite length_app; lia). rewrite Hlen.
  assert (msg = (pre ++ t) ++ concat ts) as Hmsg by (unfold msg; cbn [concat]; by rewrite app_assoc).
  destruct (Z.leb_spec size (Z.of_nat (length (pre ++ t)))) as [Hge|Hlt].
  - exists m1. assert (size ≤ Z.of_nat (length msg)) by (rewrite Hmsg, length_app; lia).
    split; [done|]. split; [lia|]. rewrite decide_False by lia. destruct use_mmap; [|done].
    cbn [negb]. unfold raw_check. rewrite (proj2 (Z.ltb_ge _ _)) by (rewrite <- (Hk eq_refl); lia). done.
  - rewrite Hmsg. apply IH; [done|done|apply (Hheld1 Hlt)|]. right. by apply Hheld1.
Qed.
(** The text before a report. *)
Definition report_prefix (p : process) (m : gmap Z Z) (append_pid : bool) : list Z :=
  if append_pid then
    (if pr_log_exe_name p && negb (pr_exe_name p =? 0)
     then bytes_of_string "==" ++ text_at m (u64 (pr_exe_name p)) else []) ++
    bytes_of_string "==" ++ bytes_of_string (pretty (s32 (pr_pid p))) ++ bytes_of_string "=="
  else [].
Lemma calls_text p m lo size append_pid ps args t xs :
  Forall supported ps → render m ps args = Some (t, xs) →
  (∀ a, a ∈ string_args ps args → readable m lo (lo + size) a) →
  readable m lo (lo + size) (u64 (pr_exe_name p)) →
  ∃ ts, Forall2 (call_text m lo size) (print_calls p append_pid (show_format ps) args) ts ∧
    concat ts = report_prefix p m append_pid ++ t.
Proof.
  intros Hs Hr Hread Hexe.
  assert (call_text m lo size (show_format ps, args) t) as Hmsg by (by exists ps, xs).
  assert (call_text m lo size ("==%d==", [pr_pid p])
    (bytes_of_string "==" ++ bytes_of_string (pretty (s32 (pr_pid p))) ++ bytes_of_string "==")) as Hpid.
  { exists [PText "="; PText "="; PInt ConvD LNone None; PText "="; PText "="], [].
    split_and!; [done|repeat constructor; done| |].
    - cbn [snd render render_piece mbind option_bind]. by rewrite render_d.
    - intros a. cbn. by rewrite elem_of_nil. }
  assert (call_text m lo size ("==%s", [pr_exe_name p])
    (bytes_of_string "==" ++ text_at m (u64 (pr_exe_name p)))) as Hname.
  { exists [PText "="; PText "="; PStr None false], [].
    split_and!; [done|repeat constructor; done| |].
    - cbn [snd render render_piece mbind option_bind]. do 2 f_equal. unfold render_str. simpl.
      by rewrite !app_nil_r.
    - intros a. cbn. rewrite elem_of_cons, elem_of_nil. by intros [->|[]]. }
  unfold print_calls, report_prefix. destruct append_pid.
  - destruct (pr_log_exe_name p && _).
    + eexists. split; [constructor; [exact Hname|]; constructor; [exact Hpid|]; constructor; [exact Hmsg|constructor]|].
      cbn [concat]. rewrite app_nil_r. by rewrite <- !app_assoc.
    + eexists. split; [constructor; [exact Hpid|]; constructor; [exact Hmsg|constructor]|].
      cbn [concat]. rewrite app_nil_r. by rewrite <- !app_assoc.
  - exists [t]. split; [by constructor|]. apply app_nil_r.
Qed.

Lemma round_run p m lo size append_pid (use_mmap : bool) ps args t xs :
  0 < size < 2 ^ 31 → (use_mmap = true → size = kLen) →
  Forall supported ps → render m ps args = Some (t, xs) →
  (∀ a, a ∈ string_args ps args → readable m lo (lo + size) a) →
  readable m lo (lo + size) (u64 (pr_exe_name p)) →
  let msg := report_prefix p m append_pid ++ t in
  ∃ m', unchanged m m' lo size ∧ (Z.of_nat (length msg) < size → holds_text m' lo msg) ∧
    print_round p append_pid use_mmap lo size (show_format ps) args m =
      if decide (Z.of_nat (length msg) < size) then Ret (Some ()) m'
      else if use_mmap then Halt too_short m' else Ret None m'.
Proof.
  intros Hsz Hk Hs Hr Hread Hexe. rewrite print_round_chain.
  destruct (calls_text p m lo size append_pid ps args t xs) as (ts & Hts & <-); [done..|].
  apply (chain_run m lo size use_mmap _ ts ltac:(lia) Hk Hts m []); [done|simpl; lia|simpl; lia|].
  left. unfold print_calls. by intros [_ ?]%app_eq_nil.
Qed.

(** [Printf] and [Report] (which puts the process name, if asked for, and its
    number before the text) print the whole message, in the local buffer of 400
    bytes or in the mapped one; a message of 16 KB or more ends the process with
    a diagnostic. Strings that are printed overlap neither buffer, and no NUL is
    printed. *)
Theorem SharedPrintfCode_prints p mapped loc append_pid ps args t xs m :
  Forall supported ps → render m ps args = Some (t, xs) →
  (∀ a, a ∈ u64 (pr_exe_name p) :: string_args ps args →
     readable m loc (loc + 400) a ∧ readable m mapped (mapped + kLen) a) →
  let msg := report_prefix p m append_pid ++ t in
  Forall (λ b, b ≠ 0) msg →
  ∃ m', SharedPrintfCode p mapped loc append_pid (show_format ps) args m =
    (if decide (Z.of_nat (length msg) < kLen) then Ret msg m' else Halt too_short m') ∧
    ∀ a, (a < loc ∨ loc + 400 ≤ a) ∧ (a < mapped ∨ mapped + kLen ≤ a) → peek m' a = peek m a.
Proof.
  intros Hs Hr Hread msg Hnz. unfold SharedPrintfCode, SharedPrintfCodeNoBuffer.
  destruct (round_run p m loc 400 append_pid false ps args t xs) as (m1 & Hun & Hheld & Hrun);
    [done|done|done|done|intros a Ha; apply Hread; set_solver|apply Hread; set_solver|].
  fold msg in Hheld, Hrun. destruct (decide (Z.of_nat (length msg) < 400)) as [Hlt|Hge].
  { exists m1. erewrite (bind_run _ _ _ _ _ Hrun). rewrite decide_True by (unfold kLen; lia).
    unfold gets. rewrite (holds_cstr m1 loc msg) by auto. split; [done|]. intros a [Ha _]. by apply Hun. }
  erewrite (bind_run _ _ _ _ _ Hrun).
  assert (∀ a, a ∈ u64 (pr_exe_name p) :: string_args ps args →
    text_at m1 a = text_at m a ∧ readable m1 mapped (mapped + kLen) a) as Hkeep.
  { intros a Ha. destruct (Hread a Ha) as [H1 H2].
    destruct (readable_same m m1 loc 400 a Hun H1) as [Ht Hrd]. split; [done|by apply Hrd]. }
  destruct (round_run p m1 mapped kLen append_pid true ps args t xs) as (m2 & Hun2 & Hheld2 & Hrun2).
  - done.
  - done.
  - done.
  - eapply render_same; [|exact Hr]. intros a Ha. apply Hkeep. set_solver.
  - intros a Ha. apply Hkeep. set_solver.
  - apply Hkeep. set_solver.
  - assert (report_prefix p m1 append_pid = report_prefix p m append_pid) as Hpre.
    { unfold report_prefix. destruct append_pid; [|done]. destruct (Hkeep (u64 (pr_exe_name p))) as [-> _];
        [set_solver|done]. }
    rewrite Hpre in Hheld2, Hrun2. fold msg in Hheld2, Hrun2. exists m2.
    split; [|intros a [Ha1 Ha2]; rewrite (Hun2 a Ha2); by apply Hun].
    destruct (decide (Z.of_nat (length msg) < kLen)).
    + erewrite (bind_run _ _ _ _ _ Hrun2). unfold gets. by rewrite (holds_cstr m2 mapped msg) by auto.
    + by erewrite (bind_halt _ _ _ _ _ Hrun2).
Qed.

(** ** Concrete messages *)
Definition out_mem : gmap Z Z := store_bytes ∅ 100 (bytes_of_string "out" ++ [0]).
Lemma out_strlen : strlen out_mem 100 = 3.
Proof. by vm_compute. Qed.
Lemma out_readable lo hi : 104 ≤ lo → readable out_mem lo hi 100.
Proof.
  intros Hlo. right. rewrite out_strlen. intros i Hi.
  assert (i = 0 ∨ i = 1 ∨ i = 2 ∨ i = 3) as Hcase by lia.
  split; [by destruct_or! Hcase; subst i|lia].
Qed.
Definition out_format : list piece :=
  [PStr (Some 5%N) false; PText "["; PInt ConvD LNone (Some (true, 4%N)); PText "]"; PInt ConvX LL None].

Lemma internal_snprintf_spec_witness :
  internal_snprintf 1000 12 "%-5s[%04d]%llX" [100; -7; 51966] out_mem =
    Ret 15 (store_bytes out_mem 1000 (bytes_of_string "out  [-007]" ++ [0])).
Proof.
  change "%-5s[%04d]%llX" with (show_format out_format).
  rewrite (internal_snprintf_spec 1000 12 out_format _ (bytes_of_string "out  [-007]CAFE") []).
  - done.
  - lia.
  - by repeat constructor.
  - by vm_compute.
  - intros a. vm_compute (string_args _ _). rewrite elem_of_cons, elem_of_nil. intros [->|[]].
    by apply out_readable.
Defined.

Definition out_output : output := Output "out" 1 2 7.
Lemma input_path_printed_witness :
  ∃ n m', internal_snprintf 1000 PATH_MAX "%s/id-%d-%d-%d" [100; 1; 2; 7] out_mem = Ret n m' ∧
    cstr m' 1000 = bytes_of_string "out/id-1-2-7".
Proof.
  destruct (input_path_printed out_output 7 100 1000 out_mem) as (n & m' & H1 & H2 & _).
  - done.
  - done.
  - by vm_compute.
  - by apply out_readable.
  - exists n, m'. split; [exact H1|]. rewrite H2. by vm_compute.
Defined.

Lemma label_line_printed_witness :
  ∃ n m', internal_snprintf 1000 64 "%u (%u %u %u %u)" [3; 1; 2; 13; 8] out_mem = Ret n m' ∧
    cstr m' 1000 = bytes_of_string "3 (1 2 13 8)".
Proof.
  destruct (label_line_printed (Zi:=Ref.z3) 3 (LabelInfo 1 2 0 0 13 8 0 0 0 None None) 1000 out_mem)
    as (n & m' & H1 & H2); [done..|].
  exists n, m'. split; [exact H1|]. rewrite H2. by vm_compute.
Defined.

Lemma SharedPrintfCode_prints_witness :
  ∃ m', Report (Process 42 100 true) 65536 1000 "%-5s[%04d]%llX" [100; -7; 51966] out_mem =
    Ret (bytes_of_string "==out==42==out  [-007]CAFE") m'.
Proof.
  destruct (SharedPrintfCode_prints (Process 42 100 true) 65536 1000 true out_format [100; -7; 51966]
    (bytes_of_string "out  [-007]CAFE") [] out_mem) as (m' & H & _).
  - by repeat constructor.
  - by vm_compute.
  - intros a. vm_compute (string_args _ _). vm_compute (u64 _). rewrite !elem_of_cons, elem_of_nil.
    intros [->|[->|[]]]; by split; apply out_readable.
  - vm_compute. by repeat constructor.
  - exists m'. exact H.
Defined.
