(* ===== verification/CustomStr.v ===== *)
(** * Wrappers of memory and string functions ([dfsan_custom.cc])

    An instrumented call to a C library function goes to its [__dfsw_] wrapper,
    which calls the function and maintains the labels. A wrapper returns its
    value and the label stored in [*ret_label]. Results the C library alone
    decides (addresses of allocations, parsed numbers) are arguments. Labels of
    arguments a wrapper ignores are left out; the weak hooks are not defined. *)
From S2P Require Import Prelude Platform Labels UnionTable Union Z3 State Shadow Libc.

Section custom_str.
Context {Zi : Z3} {Ops : LlvmOps}.

Definition b2z (b : bool) : Z := if b then 1 else 0.

(** Functions whose result carries no label. *)
Definition dfsw_strchr (s c : Z) : M rt (Z * Z) := ret ← in_mem (λ m, strchr m s c); mret (ret, 0).
Definition dfsw_strcasecmp (s1 s2 : Z) : M rt (Z * Z) :=
  ret ← in_mem (λ m, strcasecmp m s1 s2); mret (ret, 0).
Definition dfsw_strncasecmp (s1 s2 n : Z) : M rt (Z * Z) :=
  if n =? 0 then mret (0, 0) else ret ← in_mem (λ m, strncasecmp m s1 s2 n); mret (ret, 0).
Definition dfsw_strlen (s : Z) : M rt (Z * Z) := ret ← in_mem (λ m, strlen m s); mret (ret, 0).
Definition dfsw_memchr (s c n : Z) : M rt (Z * Z) :=
  ret ← in_mem (λ m, memchr m s c n); mret (ret, 0).
Definition dfsw_strrchr (s c : Z) : M rt (Z * Z) := ret ← in_mem (λ m, strrchr m s c); mret (ret, 0).
Definition dfsw_strstr (haystack needle : Z) : M rt (Z * Z) :=
  ret ← in_mem (λ m, strstr m haystack needle); mret (ret, 0).

(** ** Comparisons: the result is 0 or 1, labelled with an [fmemcmp] node *)
Definition compare_labels (s1 s2 n ret : Z) : M rt (Z * Z) :=
  ls1 ← dfsan_read_label s1 n;
  ls2 ← dfsan_read_label s2 n;
  l ← r_dfsan_union ls1 ls2 op_fmemcmp n (u64 s1) (u64 s2);
  mret (b2z (negb (ret =? 0)), l).

Definition dfsw_memcmp (s1 s2 n : Z) : M rt (Z * Z) :=
  ret ← in_mem (λ m, memcmp m s1 s2 n);
  compare_labels s1 s2 n ret.

Definition dfsw_strcmp (s1 s2 : Z) : M rt (Z * Z) :=
  ret ← in_mem (λ m, strcmp m s1 s2);
  len1 ← in_mem (λ m, strlen m s1);
  len2 ← in_mem (λ m, strlen m s2);
  l1 ← dfsan_get_label s1;
  let size := if negb (l1 =? 0) then len2 + 1 else len1 + 1 in
  compare_labels s1 s2 size ret.

Definition dfsw_strncmp (s1 s2 n : Z) : M rt (Z * Z) :=
  if n =? 0 then mret (0, 0) else
  ret ← in_mem (λ m, strncmp m s1 s2 n);
  len1 ← in_mem (λ m, strlen m s1);
  len2 ← in_mem (λ m, strlen m s2);
  l1 ← dfsan_get_label s1;
  let n := if (l1 =? 0) && (len1 <? n - 1) then len1 + 1 else n in
  l2 ← dfsan_get_label s2;
  let n := if (l2 =? 0) && (len2 <? n - 1) then len2 + 1 else n in
  compare_labels s1 s2 n ret.

(** ** Copies *)
Definition dfsan_memcpy (dest src n : Z) : M rt Z :=
  shadow_memcpy (shadow_for dest) (shadow_for src) n ;;
  internal_memcpy dest src n.
Definition dfsan_memset (s c c_label n : Z) : M rt () :=
  internal_memset s c n ;; dfsan_set_label c_label s n.

Definition dfsw_memcpy (dest src n dest_label : Z) : M rt (Z * Z) :=
  ret ← dfsan_memcpy dest src n; mret (ret, dest_label).

(** The labels go through the array [tmp]. *)
Definition dfsw_memmove (dest src n dest_label : Z) : M rt (Z * Z) :=
  tmp ← gets (λ s, (λ i, peek (rt_shadow s) (slot (shadow_for src) i)) <$> range 0 n);
  ret ← internal_memmove dest src n;
  for_each (zip (range 0 n) tmp) (λ p, shadow_put (shadow_for dest) p.1 p.2) ;;
  mret (ret, dest_label).

Definition dfsw_memset (s c n s_label c_label : Z) : M rt (Z * Z) :=
  dfsan_memset s c c_label n ;; mret (s, s_label).

Definition dfsw_strcat (dest src d_label : Z) : M rt (Z * Z) :=
  len ← in_mem (λ m, strlen m dest);
  n ← in_mem (λ m, strlen m src);
  dfsan_memcpy (dest + len) src (n + 1) ;;
  mret (dest, d_label).

(** [p] is what [malloc] returns. *)
Definition dfsw_strdup (p s : Z) : M rt (Z * Z) :=
  len ← in_mem (λ m, strlen m s);
  dfsan_memcpy p s (len + 1) ;;
  mret (p, 0).
Definition dfsw___strdup (p s : Z) : M rt (Z * Z) :=
  len ← in_mem (λ m, strlen m s);
  dfsan_memcpy p s (len + 1) ;;
  mret (p, 0).
Definition dfsw___strndup (p s n : Z) : M rt (Z * Z) :=
  len ← in_mem (λ m, strlen m s);
  let len := if n <? len then n else len in
  dfsan_memcpy p s (len + 1) ;;
  mret (p, 0).

Definition dfsw_strncpy (s1 s2 n s1_label : Z) : M rt (Z * Z) :=
  len ← in_mem (λ m, strlen m s2);
  (if len <? n then
     dfsan_memcpy s1 s2 (len + 1) ;;
     dfsan_memset (s1 + len + 1) 0 0 (n - len - 1)
   else dfsan_memcpy s1 s2 n ;; mret ()) ;;
  mret (s1, s1_label).

(** [strcpy] and [stpcpy] copy the characters and the NUL; the length is
    taken after the copy. *)
Definition host_strcpy (dest src : Z) : M rt Z :=
  n ← in_mem (λ m, strlen m src);
  upd_mem (λ m, copy_fwd 1 m dest src (n + 1)) ;;
  mret n.
Definition dfsw_strcpy (dest src dst_label : Z) : M rt (Z * Z) :=
  _ ← host_strcpy dest src;
  (if negb (dest =? 0) then
     n ← in_mem (λ m, strlen m src);
     shadow_memcpy (shadow_for dest) (shadow_for src) (n + 1)
   else mret ()) ;;
  mret (dest, dst_label).
Definition dfsw_stpcpy (dest src dest_label : Z) : M rt (Z * Z) :=
  n ← host_strcpy dest src;
  (if negb (dest + n =? 0) then
     n ← in_mem (λ m, strlen m src);
     shadow_memcpy (shadow_for dest) (shadow_for src) (n + 1)
   else mret ()) ;;
  mret (dest + n, dest_label).

(** ** Numbers: [v] and [e] are the value and the end found by the C library *)
Definition store64 (m : gmap Z Z) (a v : Z) : gmap Z Z :=
  store_bytes m a ((λ k, u8 (Z.shiftr v (8 * k))) <$> range 0 8).
Definition load64 (m : gmap Z Z) (a : Z) : Z :=
  foldr (λ b acc, b + 256 * acc) 0 (bytes_of m a 8).
Definition strto (endptr v e : Z) : M rt (Z * Z) :=
  (if negb (endptr =? 0) then upd_mem (λ m, store64 m endptr e) else mret ()) ;;
  mret (v, 0).
Definition dfsw_strtol (nptr endptr base v e : Z) : M rt (Z * Z) := strto endptr v e.
Definition dfsw_strtod (nptr endptr v e : Z) : M rt (Z * Z) := strto endptr v e.
Definition dfsw_strtoll (nptr endptr base v e : Z) : M rt (Z * Z) := strto endptr v e.
Definition dfsw_strtoul (nptr endptr base v e : Z) : M rt (Z * Z) := strto endptr v e.
(** The third parameter of [__dfsw_strtoull] is [nptr_label] and the fourth is
    [base], while callers pass the base third: [strtoull base] is the C
    library's function of the base it is given. *)
Definition dfsw_strtoull (nptr endptr nptr_label base : Z) (strtoull : Z → Z * Z) : M rt (Z * Z) :=
  let '(v, e) := strtoull base in strto endptr v e.

(** ** Allocation: [p] is the address the allocator returns, [h] also clears
    the block *)
Definition dfsw_calloc (h : sys) : M rt (Z * Z) := p ← host h; mret (p, 0).
Definition dfsw___libc_calloc (h : sys) : M rt (Z * Z) := p ← host h; mret (p, 0).
Definition dfsw_malloc (p size size_label : Z) : M rt (Z * Z) := mret (p, 0).
Definition dfsw___libc_malloc (p size : Z) : M rt (Z * Z) := mret (p, 0).
Definition dfsw_free (ptr : Z) : M rt () := mret ().
Definition dfsw___libc_free (ptr : Z) : M rt () := mret ().
(** [usable] is [malloc_usable_size(ptr)]; [h] the result of [realloc] and the
    bytes it moves. *)
Definition dfsw_realloc (ptr new_size ptr_label usable : Z) (h : sys) : M rt (Z * Z) :=
  let size := if new_size <? usable then new_size else usable in
  ret ← host h;
  if negb (ret =? ptr) then
    shadow_memcpy (shadow_for ret) (shadow_for ptr) size ;; mret (ret, 0)
  else mret (ret, ptr_label).
Definition dfsw___libc_realloc (ptr new_size ptr_label usable : Z) (h : sys) : M rt (Z * Z) :=
  let size := if new_size <? usable then new_size else usable in
  ret ← host h;
  if negb (ret =? ptr) then
    shadow_memcpy (shadow_for ret) (shadow_for ptr) size ;; mret (ret, 0)
  else mret (ret, ptr_label).
End custom_str.
