(* ===== verification/CustomFile.v ===== *)
(** * Wrappers of file functions: where taint comes from ([dfsan_custom.cc])

    Reading the taint source labels each byte with the label of its file offset.
    Arguments named [h] are the host call's result and the bytes it stores;
    [fd], [offset] of streams are what [fileno] and [ftell] return. *)
From S2P Require Import Prelude Platform Labels UnionTable Union Z3 State Shadow Files FlagParser Solver Init Libc CustomStr.

Section custom_file.
Context {Zi : Z3} {Ops : LlvmOps} {En : Env}.

(** [get_label_for]: standard input is labelled as it is read, the bytes of a
    file have their labels from start-up. *)
Definition get_label_for (fd offset : Z) : M rt Z :=
  stdin ← is_stdin_taint;
  if negb (stdin =? 0) then on_labels (dfsan_create_label offset)
  else mret (u32 (offset + CONST_OFFSET)).

(** [for (i = 0; i < n; i++) dfsan_set_label(get_label_for(fd, offset + i), buf + i, 1)] *)
Definition label_bytes (fd offset buf n : Z) : M rt () :=
  for_each (range 0 n) (λ i,
    l ← get_label_for fd (offset + i); dfsan_set_label l (buf + i) 1).

Definition path_at (a : Z) : M rt string := in_mem (λ m, string_of_bytes (cstr m a)).

(** ** [stat]: the size field of the taint source's record *)
Definition sizeof_stat : Z := 144.
Definition offset_st_size : Z := 48.
Definition label_stat (buf : Z) : M rt () :=
  dfsan_set_label 0 buf sizeof_stat ;;
  size ← r_dfsan_union 0 0 op_fsize (8 * 8) 0 0;
  dfsan_set_label size (buf + offset_st_size) 8.
Definition stat_path (path buf : Z) (h : sys) : M rt (Z * Z) :=
  ret ← host h;
  (if ret =? 0 then
     p ← path_at path;
     t ← is_taint_file p;
     if negb (t =? 0) then label_stat buf else mret ()
   else mret ()) ;;
  mret (ret, 0).
Definition stat_fd (fd buf : Z) (h : sys) : M rt (Z * Z) :=
  ret ← host h;
  (if ret =? 0 then
     n ← taint_get_file fd;
     if negb (n =? 0) then label_stat buf else mret ()
   else mret ()) ;;
  mret (ret, 0).
Definition dfsw_stat (path buf : Z) (h : sys) : M rt (Z * Z) := stat_path path buf h.
Definition dfsw___xstat (vers path buf : Z) (h : sys) : M rt (Z * Z) := stat_path path buf h.
Definition dfsw_lstat (path buf : Z) (h : sys) : M rt (Z * Z) := stat_path path buf h.
Definition dfsw___lxstat (vers path buf : Z) (h : sys) : M rt (Z * Z) := stat_path path buf h.
Definition dfsw_fstat (fd buf : Z) (h : sys) : M rt (Z * Z) := stat_fd fd buf h.
Definition dfsw___fxstat (vers fd buf : Z) (h : sys) : M rt (Z * Z) := stat_fd fd buf h.

(** ** [read] *)
Definition dfsw_pread (fd buf count offset : Z) (h : sys) : M rt (Z * Z) :=
  ret ← host h;
  (if 0 <=? ret then
     n ← taint_get_file fd;
     if negb (n =? 0) then label_bytes fd offset buf ret else dfsan_set_label 0 buf ret
   else mret ()) ;;
  mret (ret, 0).
(** [offset] is what [lseek(fd, 0, SEEK_CUR)] returns. *)
Definition dfsw_read (fd buf count offset : Z) (h : sys) : M rt (Z * Z) :=
  ret ← host h;
  (if 0 <=? ret then
     n ← taint_get_file fd;
     if negb (n =? 0) then label_bytes fd offset buf ret else dfsan_set_label 0 buf ret
   else mret ()) ;;
  mret (ret, 0).
Definition fread (ptr size nmemb fd offset : Z) (h : sys) : M rt (Z * Z) :=
  tfsize ← taint_get_file fd;
  ret ← host h;
  (if negb (ret =? 0) then
     if negb (tfsize =? 0) then label_bytes fd offset ptr (u64 (ret * size))
     else dfsan_set_label 0 ptr (u64 (ret * size))
   else mret ()) ;;
  mret (ret, 0).
Definition dfsw_fread (ptr size nmemb fd offset : Z) (h : sys) : M rt (Z * Z) :=
  fread ptr size nmemb fd offset h.
Definition dfsw_fread_unlocked (ptr size nmemb fd offset : Z) (h : sys) : M rt (Z * Z) :=
  fread ptr size nmemb fd offset h.

(** ** Lines: [*lineptr] is read after the call *)
Definition getdelim (lineptr fd offset : Z) (h : sys) : M rt (Z * Z) :=
  ret ← host h;
  (if negb (ret =? 0) then
     n ← taint_get_file fd;
     line ← in_mem (λ m, load64 m lineptr);
     if negb (n =? 0) then
       label_bytes fd offset line ret ;;
       dfsan_set_label 0 (line + ret) 1
     else dfsan_set_label 0 line (ret + 1)
   else mret ()) ;;
  mret (ret, 0).
Definition dfsw_getline (lineptr fd offset : Z) (h : sys) : M rt (Z * Z) :=
  getdelim lineptr fd offset h.
Definition dfsw_getdelim (lineptr fd offset : Z) (h : sys) : M rt (Z * Z) :=
  getdelim lineptr fd offset h.
Definition dfsw___getdelim (lineptr fd offset : Z) (h : sys) : M rt (Z * Z) :=
  getdelim lineptr fd offset h.

Definition fgets (s fd offset s_label : Z) (h : sys) : M rt (Z * Z) :=
  ret ← host h;
  if negb (ret =? 0) then
    n ← taint_get_file fd;
    len ← in_mem (λ m, strlen m ret);
    (if negb (n =? 0) then
       label_bytes fd offset s len ;; dfsan_set_label 0 (s + len) 1
     else dfsan_set_label 0 s (len + 1)) ;;
    mret (ret, s_label)
  else mret (ret, 0).
Definition dfsw_fgets (s size fd offset s_label : Z) (h : sys) : M rt (Z * Z) :=
  fgets s fd offset s_label h.
Definition dfsw_fgets_unlocked (s size fd offset s_label : Z) (h : sys) : M rt (Z * Z) :=
  fgets s fd offset s_label h.

(** [gets]: the buffer size passed to [fgets] is that of a pointer, and every one of
    them, the NUL included, gets a new label. *)
Definition dfsw_gets (str offset str_label : Z) (h : sys) : M rt (Z * Z) :=
  ret ← host h;
  n ← taint_get_file 0;
  if negb (ret =? 0) && negb (n =? 0) then
    len ← in_mem (λ m, strlen m ret);
    for_each (range 0 (len + 1)) (λ i,
      l ← on_labels (dfsan_create_label (offset + i)); dfsan_set_label l (ret + i) 1) ;;
    mret (ret, str_label)
  else mret (ret, 0).

(** ** Characters: the byte's label is extended to an [int] *)
Definition EOF : Z := -1.
Definition label_char (l : Z) : M rt Z := r_dfsan_union l CONST_LABEL op_ZExt 32 0 0.
Definition getc_from (fd offset : Z) (h : sys) : M rt (Z * Z) :=
  ret ← host h;
  n ← taint_get_file fd;
  if negb (ret =? EOF) && negb (n =? 0) then
    l ← get_label_for fd offset; x ← label_char l; mret (ret, x)
  else mret (ret, 0).
Definition dfsw_fgetc (fd offset : Z) (h : sys) : M rt (Z * Z) := getc_from fd offset h.
Definition dfsw_getc (fd offset : Z) (h : sys) : M rt (Z * Z) := getc_from fd offset h.
Definition dfsw_getc_unlocked (fd offset : Z) (h : sys) : M rt (Z * Z) := getc_from fd offset h.
Definition dfsw__IO_getc (fd offset : Z) (h : sys) : M rt (Z * Z) := getc_from fd offset h.
Definition dfsw_getchar (offset : Z) (h : sys) : M rt (Z * Z) :=
  ret ← host h;
  n ← taint_get_file 0;
  if negb (ret =? EOF) && negb (n =? 0) then
    l ← on_labels (dfsan_create_label offset); x ← label_char l; mret (ret, x)
  else mret (ret, 0).

(** ** Opening and closing *)

(** [open] with descriptor 0 is not compared with the source. *)
Definition dfsw_open (path : Z) (h : sys) : M rt (Z * Z) :=
  fd ← host h;
  (if negb (fd =? 0) then p ← path_at path; taint_set_file p fd else mret ()) ;;
  mret (fd, 0).
(** [stream] is the [FILE *] returned and [fd] its [fileno]. *)
Definition fopen (filename stream fd : Z) : M rt (Z * Z) :=
  (if negb (stream =? 0) then p ← path_at filename; taint_set_file p fd else mret ()) ;;
  mret (stream, 0).
Definition dfsw_fopen (filename stream fd : Z) : M rt (Z * Z) := fopen filename stream fd.
Definition dfsw_fopen64 (filename stream fd : Z) : M rt (Z * Z) := fopen filename stream fd.
Definition dfsw_freopen (filename stream fd : Z) : M rt (Z * Z) := fopen filename stream fd.
Definition dfsw_close (fd : Z) (h : sys) : M rt (Z * Z) :=
  taint_close_file fd ;; ret ← host h; mret (ret, 0).
Definition dfsw_fclose (fd : Z) (h : sys) : M rt (Z * Z) :=
  ret ← host h;
  (if ret =? 0 then taint_close_file fd else mret ()) ;;
  mret (ret, 0).

(** ** The accounting database *)
Definition sizeof_utmpx : Z := 384.
Definition dfsw_utmpxname (file : Z) (h : sys) : M rt (Z * Z) :=
  p ← path_at file;
  t ← is_taint_file p;
  (if negb (t =? 0) then set_utmp_offset 0 else mret ()) ;;
  ret ← host h; mret (ret, 0).
Definition dfsw_setutxent : M rt () :=
  t ← is_utmp_taint;
  if negb (t =? 0) then set_utmp_offset 0 else mret ().
Definition dfsw_getutxent (h : sys) : M rt (Z * Z) :=
  ret ← host h;
  t ← is_utmp_taint;
  (if negb (ret =? 0) && negb (t =? 0) then
     offset ← get_utmp_offset;
     label_bytes (-1) offset ret sizeof_utmpx ;;
     set_utmp_offset (offset + sizeof_utmpx)
   else mret ()) ;;
  mret (ret, 0).

(** ** Mappings *)
Definition MAP_FAILED : Z := 2 ^ 64 - 1.
Definition dfsw_mmap (length fd offset : Z) (h : sys) : M rt (Z * Z) :=
  ret ← host h;
  (if negb (ret =? MAP_FAILED) then
     fsize ← taint_get_file fd;
     if negb (fsize =? 0) then
       let tainted_length :=
         if u64 fsize <? u64 (offset + length) then u64 (fsize - offset) else length in
       label_bytes fd offset ret tainted_length ;;
       for_each (range tainted_length length) (λ i, dfsan_set_label kInitializingLabel (ret + i) 1)
     else dfsan_set_label 0 ret length
   else mret ()) ;;
  mret (ret, 0).
Definition dfsw_munmap (addr length : Z) (h : sys) : M rt (Z * Z) :=
  ret ← host h;
  (if ret =? 0 then dfsan_set_label 0 addr length else mret ()) ;;
  mret (ret, 0).

(** ** Seeking: a tainted offset is constrained to its value *)
Definition constrain_offset (fd offset offset_label : Z) : M rt () :=
  n ← taint_get_file fd;
  if negb (n =? 0) then
    taint_set_offset_label offset_label ;;
    (if negb (offset_label =? 0) then
       sc ← r_dfsan_union offset_label 0 (Z.lor (Z.shiftl bveq 8) op_ICmp) (8 * 8) 0 (u64 offset);
       add_constraints sc
     else mret ())
  else mret ().
Definition dfsw_lseek (fd offset offset_label : Z) (h : sys) : M rt (Z * Z) :=
  ret ← host h;
  if negb (ret =? -1) then
    constrain_offset fd offset offset_label ;; mret (ret, offset_label)
  else mret (ret, 0).
Definition fseek (fd offset offset_label : Z) (h : sys) : M rt (Z * Z) :=
  ret ← host h;
  (if ret =? 0 then constrain_offset fd offset offset_label else mret ()) ;;
  mret (ret, 0).
Definition dfsw_fseek (fd offset offset_label : Z) (h : sys) : M rt (Z * Z) :=
  fseek fd offset offset_label h.
Definition dfsw_fseeko (fd offset offset_label : Z) (h : sys) : M rt (Z * Z) :=
  fseek fd offset offset_label h.
Definition dfsw_fseeko64 (fd offset offset_label : Z) (h : sys) : M rt (Z * Z) :=
  fseek fd offset offset_label h.
End custom_file.
