(* ===== verification/CustomSys.v ===== *)
(** * Wrappers of system functions, callbacks and mappings
    ([dfsan_custom.cc], [dfsan_interceptors.cc])

    Functions that fill a structure clear its labels, or give it the label of
    what it was computed from. Callbacks the program passes are arguments: they
    run as program code, with labels for their arguments. *)
From S2P Require Import Prelude Platform Labels UnionTable Union Z3 State Shadow Solver Init Libc CustomStr.

Section custom_sys.
Context {Zi : Z3} {Ops : LlvmOps}.

(** Structure sizes of the x86-64 Linux ABI. *)
Definition sizeof_timespec : Z := 16.
Definition sizeof_rlimit : Z := 16.
Definition sizeof_rusage : Z := 144.
Definition sizeof_time_t : Z := 8.
Definition sizeof_in_addr : Z := 4.
Definition sizeof_in6_addr : Z := 16.
Definition sizeof_tm : Z := 56.
Definition sizeof_passwd : Z := 48.
Definition sizeof_pollfd : Z := 8.
Definition offset_revents : Z := 6.
Definition sizeof_revents : Z := 2.
Definition sizeof_fd_set : Z := 128.
Definition sizeof_timeval : Z := 16.
Definition sizeof_timezone : Z := 8.
Definition sizeof_sigset : Z := 128.
Definition sizeof_sigaction : Z := 152.
Definition sizeof_wchar : Z := 4.
Definition sizeof_phdr_info : Z := 64.
Definition sizeof_phdr : Z := 56.
Definition AF_INET : Z := 2.

(** [if (ok) dfsan_set_label(0, p, n)] after a host call; no label is returned. *)
Definition clear_if (b : bool) (p n : Z) : M rt () :=
  if b then dfsan_set_label 0 p n else mret ().

Definition dfsw_clock_gettime (tp : Z) (h : sys) : M rt (Z * Z) :=
  ret ← host h; clear_if (ret =? 0) tp sizeof_timespec ;; mret (ret, 0).
Definition dfsw_getrlimit (rlim : Z) (h : sys) : M rt (Z * Z) :=
  ret ← host h; clear_if (ret =? 0) rlim sizeof_rlimit ;; mret (ret, 0).
Definition dfsw_getrusage (usage : Z) (h : sys) : M rt (Z * Z) :=
  ret ← host h; clear_if (ret =? 0) usage sizeof_rusage ;; mret (ret, 0).
Definition dfsw_sched_getaffinity (cpusetsize mask : Z) (h : sys) : M rt (Z * Z) :=
  ret ← host h; clear_if (ret =? 0) mask cpusetsize ;; mret (ret, 0).
Definition dfsw_sigemptyset (set : Z) (h : sys) : M rt (Z * Z) :=
  ret ← host h; dfsan_set_label 0 set sizeof_sigset ;; mret (ret, 0).
Definition dfsw_sigaction (oldact : Z) (h : sys) : M rt (Z * Z) :=
  ret ← host h; clear_if (negb (oldact =? 0)) oldact sizeof_sigaction ;; mret (ret, 0).
Definition dfsw_gettimeofday (tv tz : Z) (h : sys) : M rt (Z * Z) :=
  ret ← host h;
  clear_if (negb (tv =? 0)) tv sizeof_timeval ;;
  clear_if (negb (tz =? 0)) tz sizeof_timezone ;;
  mret (ret, 0).
Definition dfsw_time (t : Z) (h : sys) : M rt (Z * Z) :=
  ret ← host h;
  clear_if (negb (ret =? -1) && negb (t =? 0)) t sizeof_time_t ;; mret (ret, 0).
(** [nanosleep]: [rem] may be a null pointer. *)
Definition dfsw_nanosleep (rem : Z) (h : sys) : M rt (Z * Z) :=
  ret ← host h; clear_if (ret =? -1) rem sizeof_timespec ;; mret (ret, 0).
Definition dfsw_socketpair (sv : Z) (h : sys) : M rt (Z * Z) :=
  ret ← host h; clear_if (ret =? 0) sv (4 * 2) ;; mret (ret, 0).
Definition dfsw_select (readfds writefds exceptfds timeout : Z) (h : sys) : M rt (Z * Z) :=
  ret ← host h;
  clear_if (negb (readfds =? 0)) readfds sizeof_fd_set ;;
  clear_if (negb (writefds =? 0)) writefds sizeof_fd_set ;;
  clear_if (negb (exceptfds =? 0)) exceptfds sizeof_fd_set ;;
  dfsan_set_label 0 timeout sizeof_timeval ;;
  mret (ret, 0).
(** [poll]: from the last descriptor to the first. *)
Definition dfsw_poll (fds nfds : Z) (h : sys) : M rt (Z * Z) :=
  ret ← host h;
  (if 0 <=? ret then
     for_each (reverse (range 0 nfds)) (λ i,
       dfsan_set_label 0 (fds + sizeof_pollfd * i + offset_revents) sizeof_revents)
   else mret ()) ;;
  mret (ret, 0).
Definition dfsw_getpwuid_r (pwd buf result : Z) (h : sys) : M rt (Z * Z) :=
  ret ← host h;
  (if ret =? 0 then
     dfsan_set_label 0 pwd sizeof_passwd ;;
     len ← in_mem (λ m, strlen m buf);
     dfsan_set_label 0 buf (len + 1)
   else mret ()) ;;
  dfsan_set_label 0 result sizeof_ptr ;;
  mret (ret, 0).

(** ** Strings the system writes *)
Definition clear_string (p : Z) : M rt () :=
  len ← in_mem (λ m, strlen m p); dfsan_set_label 0 p (len + 1).
Definition dfsw_getcwd (buf_label : Z) (h : sys) : M rt (Z * Z) :=
  ret ← host h;
  if negb (ret =? 0) then clear_string ret ;; mret (ret, buf_label) else mret (ret, 0).
Definition dfsw_get_current_dir_name (h : sys) : M rt (Z * Z) :=
  ret ← host h;
  (if negb (ret =? 0) then clear_string ret else mret ()) ;; mret (ret, 0).
Definition dfsw_gethostname (name : Z) (h : sys) : M rt (Z * Z) :=
  ret ← host h;
  (if ret =? 0 then clear_string name else mret ()) ;; mret (ret, 0).

(** ** Results computed from labelled memory *)
Definition dfsw_ctime_r (timep buf buf_label : Z) (h : sys) : M rt (Z * Z) :=
  ret ← host h;
  if negb (ret =? 0) then
    l ← dfsan_read_label timep sizeof_time_t;
    len ← in_mem (λ m, strlen m buf);
    dfsan_set_label l buf (len + 1) ;; mret (ret, buf_label)
  else mret (ret, 0).
Definition dfsw_localtime_r (timep result result_label : Z) (h : sys) : M rt (Z * Z) :=
  ret ← host h;
  if negb (ret =? 0) then
    l ← dfsan_read_label timep sizeof_time_t;
    dfsan_set_label l result sizeof_tm ;; mret (ret, result_label)
  else mret (ret, 0).
Definition dfsw_inet_pton (af src dst : Z) (h : sys) : M rt (Z * Z) :=
  ret ← host h;
  (if ret =? 1 then
     len ← in_mem (λ m, strlen m src);
     l ← dfsan_read_label src (len + 1);
     dfsan_set_label l dst (if af =? AF_INET then sizeof_in_addr else sizeof_in6_addr)
   else mret ()) ;;
  mret (ret, 0).
(** [mbrtowc]: a successful conversion into a buffer reaches [assert(false)]. *)
Definition dfsw_mbrtowc (pwc s : Z) (h : sys) : M rt (Z * Z) :=
  ret ← host h;
  if (ret =? 2 ^ 64 - 1) || (ret =? 2 ^ 64 - 2) then mret (ret, 0)
  else if negb (pwc =? 0) then
    multibyte ← dfsan_read_label s ret;
    assert_ "false" false ;;
    dfsan_store_label multibyte pwc sizeof_wchar ;;
    mret (ret, 0)
  else mret (ret, 0).

(** ** Loading and threads *)
Definition unpoison (ptr size : Z) : M rt () := dfsan_set_label 0 ptr size.
(** [map] is the link map of the handle, if any: its load address and the
    regions [ForEachMappedRegion] visits. *)
Definition dfsw_dlopen (handle : Z) (map : option (Z * list (Z * Z))) : M rt (Z * Z) :=
  (match map with
   | Some (l_addr, regions) =>
       if negb (l_addr =? 0) then for_each regions (λ r, unpoison r.1 r.2) else mret ()
   | None => mret ()
   end) ;;
  mret (handle, 0).

(** [struct pthread_create_info]; a trampoline runs a program function with
    labels for its argument and result. *)
Definition trampoline : Type := Z → Z → Z → M rt (Z * Z).
Record pthread_create_info := PthreadCreateInfo {
  start_routine_trampoline : trampoline;
  start_routine : Z;
  thread_arg : Z;
}.
Definition pthread_create_cb (pci : pthread_create_info) : M rt Z :=
  '(ret, ret_label) ← start_routine_trampoline pci (start_routine pci) (thread_arg pci) 0;
  mret ret.
(** [rv] is the host's result; on success the new thread runs the last
    component. *)
Definition dfsw_pthread_create (tramp : trampoline) (routine arg rv : Z)
    : M rt (Z * Z * option pthread_create_info) :=
  let pci := PthreadCreateInfo tramp routine arg in
  mret (rv, 0, if rv =? 0 then Some pci else None).

(** [struct dl_phdr_info]: its address and the fields the callback reads. *)
Record dl_phdr_info := DlPhdrInfo {
  dl_addr : Z; dlpi_name : Z; dlpi_phdr : Z; dlpi_phnum : Z; dl_size : Z;
}.
(** The trampoline's arguments: the callback, the record, its size, the data
    and their labels. *)
Definition phdr_trampoline : Type := Z → Z → Z → Z → Z → Z → Z → M rt (Z * Z).
Definition dl_iterate_phdr_cb (tramp : phdr_trampoline) (callback data : Z) (info : dl_phdr_info)
    : M rt Z :=
  dfsan_set_label 0 (dl_addr info) sizeof_phdr_info ;;
  clear_string (dlpi_name info) ;;
  dfsan_set_label 0 (dlpi_phdr info) (sizeof_phdr * dlpi_phnum info) ;;
  '(ret, ret_label) ← tramp callback (dl_addr info) (dl_size info) data 0 0 0;
  mret ret.
(** The C library calls the callback for each object until it returns nonzero. *)
Fixpoint dl_iterate (tramp : phdr_trampoline) (callback data : Z) (objs : list dl_phdr_info)
    : M rt Z :=
  match objs with
  | [] => mret 0
  | info :: objs =>
      ret ← dl_iterate_phdr_cb tramp callback data info;
      if negb (ret =? 0) then mret ret else dl_iterate tramp callback data objs
  end.
Definition dfsw_dl_iterate_phdr (tramp : phdr_trampoline) (callback data : Z)
    (objs : list dl_phdr_info) : M rt (Z * Z) :=
  ret ← dl_iterate tramp callback data objs; mret (ret, 0).

(** ** The write callback *)
Definition write_trampoline : Type := Z → Z → Z → Z → Z → Z → Z → M rt ().
Record write_callback_info := WriteCallbackInfo {
  write_callback_trampoline : option write_trampoline;
  write_callback : Z;
}.
Definition no_write_callback : write_callback_info := WriteCallbackInfo None 0.
Definition dfsw_dfsan_set_write_callback (tramp : option write_trampoline) (callback : Z)
    (info : write_callback_info) : M rt (write_callback_info * Z) :=
  mret (WriteCallbackInfo tramp callback, 0).
(** A callback without a trampoline is a call through a null pointer. *)
Definition dfsw_write (info : write_callback_info)
    (fd buf count fd_label buf_label count_label : Z) (h : sys) : M rt (Z * Z) :=
  (if negb (write_callback info =? 0) then
     match write_callback_trampoline info with
     | Some tramp => tramp (write_callback info) fd buf count fd_label buf_label count_label
     | None => segv
     end
   else mret ()) ;;
  ret ← host h; mret (ret, 0).

(** The hooks [__dfsw___sanitizer_cov_trace_cmp], [..cmp1] to [..cmp8],
    [..const_cmp1] to [..const_cmp8] and [..switch]: weak definitions with an
    empty body. *)
Definition dfsw___sanitizer_cov_trace : M rt () := mret ().

(** ** Intercepted mappings ([mmap], [mmap64]): new memory has no label *)
Definition interceptor_mmap (length : Z) (h : sys) : M rt Z :=
  res ← host h;
  (if negb (res =? 2 ^ 64 - 1) then dfsan_set_label 0 res (RoundUpTo length PageSize) else mret ()) ;;
  mret res.
Definition interceptor_mmap64 (length : Z) (h : sys) : M rt Z :=
  res ← host h;
  (if negb (res =? 2 ^ 64 - 1) then dfsan_set_label 0 res (RoundUpTo length PageSize) else mret ()) ;;
  mret res.
End custom_sys.
