(* ===== verification/Printf.v ===== *)
(** * [sprintf] and [snprintf] ([Formatter], [format_buffer] of [dfsan_custom.cc])

    The format string is cut into ordinary text and single directives; each
    piece is printed by the C library's [snprintf], a parameter, and the labels of
    the bytes it produced are set. *)
From S2P Require Import Prelude Platform Labels UnionTable Union Z3 State Shadow Libc CustomStr.

(** [struct Formatter] *)
Record Formatter := MkFormatter {
  f_str : Z;
  f_str_off : Z;
  f_size : Z;
  f_fmt_start : Z;
  f_fmt_cur : Z;
  f_width : Z;
}.
Definition at_cur (c : Z) (f : Formatter) : Formatter :=
  MkFormatter (f_str f) (f_str_off f) (f_size f) (f_fmt_start f) c (f_width f).
Definition set_width (w : Z) (f : Formatter) : Formatter :=
  MkFormatter (f_str f) (f_str_off f) (f_size f) (f_fmt_start f) (f_fmt_cur f) w.
(** The head of the loop: [fmt_start = fmt_cur; width = -1]. *)
Definition start_chunk (f : Formatter) : Formatter :=
  MkFormatter (f_str f) (f_str_off f) (f_size f) (f_fmt_cur f) (f_fmt_cur f) (-1).
(** Its end: [fmt_cur++; str_off += retval]. *)
Definition end_chunk (retval : Z) (f : Formatter) : Formatter :=
  MkFormatter (f_str f) (u64 (f_str_off f + retval)) (f_size f) (f_fmt_start f) (f_fmt_cur f + 1)
    (f_width f).

Definition str_cur (f : Formatter) : Z := f_str f + f_str_off f.
Definition num_avail (f : Formatter) : Z :=
  if f_str_off f <? f_size f then f_size f - f_str_off f else 0.
Definition num_written_bytes (f : Formatter) (retval : Z) : Z :=
  if retval <? 0 then 0 else
  if num_avail f =? 0 then 0 else
  if num_avail f <=? retval then retval - num_avail f else retval.
(** [build_format_string]: the text from [fmt_start] to [fmt_cur] inclusive. *)
Definition build_format_string (m : gmap Z Z) (f : Formatter) : list Z :=
  bytes_of m (f_fmt_start f) (f_fmt_cur f - f_fmt_start f + 1).

Definition ch_percent : Z := 37.

Section printf.
Context {Zi : Z3} {Ops : LlvmOps}.
(** [snprintf(dst, avail, fmt, args...)] of the C library, given the memory. *)
Variable snprintf : gmap Z Z → Z → Z → list Z → list Z → sys.

(** [Formatter::format()] and [Formatter::format(arg)] *)
Definition format0 (f : Formatter) : M rt Z :=
  m ← in_mem id;
  host (snprintf m (str_cur f) (num_avail f) (build_format_string m f) []).
Definition format1 (f : Formatter) (arg : Z) : M rt Z :=
  m ← in_mem id;
  host (snprintf m (str_cur f) (num_avail f) (build_format_string m f)
          (if 0 <=? f_width f then [f_width f; arg] else [arg])).

(** [va_arg]: reading past the last argument is undefined. *)
Definition va_arg (ap : list Z) : M rt (Z * list Z) :=
  match ap with [] => segv | v :: ap => mret (v, ap) end.

Definition store32 (m : gmap Z Z) (a v : Z) : gmap Z Z :=
  store_bytes m a ((λ k, u8 (Z.shiftr v (8 * k))) <$> range 0 4).

(** The width of an integer argument, from the length modifier before the
    conversion. *)
Definition int_arg (m : gmap Z Z) (f : Formatter) (v : Z) : Z :=
  let prev := peek m (f_fmt_cur f - 1) in
  if prev =? 108 (* l *) then s64 v
  else if (prev =? 113 (* q *)) || (prev =? 106 (* j *)) then s64 v
  else if (prev =? 122 (* z *)) || (prev =? 116 (* t *)) then u64 v
  else s32 v.

(** [for (; *(fmt_cur + 1) && *(fmt_cur + 1) != '%'; ++fmt_cur)] *)
Fixpoint skip_text (fuel : nat) (m : gmap Z Z) (c : Z) : option Z :=
  if (peek m (c + 1) =? 0) || (peek m (c + 1) =? ch_percent) then Some c else
  match fuel with O => None | S fuel => skip_text fuel m (c + 1) end.

(** The loop over a directive: [retval] is 0 when the string ends first. *)
Fixpoint directive (fuel : nat) (f : Formatter) (ap : list Z) : M rt (Formatter * list Z * Z) :=
  c ← in_mem (λ m, peek m (f_fmt_cur f));
  if c =? 0 then mret (f, ap, 0) else
  match fuel with
  | O => out_of_fuel
  | S fuel =>
      let f := at_cur (f_fmt_cur f + 1) f in
      c ← in_mem (λ m, peek m (f_fmt_cur f));
      if existsb (Z.eqb c) [100; 105; 111; 117; 120; 88] (* d i o u x X *) then
        '(v, ap) ← va_arg ap;
        m ← in_mem id;
        retval ← format1 f (int_arg m f v);
        mret (f, ap, retval)
      else if existsb (Z.eqb c) [97; 65; 101; 69; 102; 70; 103; 71] (* a A e E f F g G *) then
        '(v, ap) ← va_arg ap;
        retval ← format1 f v;
        mret (f, ap, retval)
      else if c =? 99 (* c *) then
        '(v, ap) ← va_arg ap;
        retval ← format1 f (s32 v);
        mret (f, ap, retval)
      else if c =? 115 (* s *) then
        '(arg, ap) ← va_arg ap;
        retval ← format1 f arg;
        shadow_memcpy (shadow_for (str_cur f)) (shadow_for arg) (num_written_bytes f retval) ;;
        mret (f, ap, retval)
      else if c =? 112 (* p *) then
        '(v, ap) ← va_arg ap;
        retval ← format1 f v;
        mret (f, ap, retval)
      else if c =? 110 (* n *) then
        '(ptr, ap) ← va_arg ap;
        upd_mem (λ m, store32 m ptr (f_str_off f)) ;;
        dfsan_set_label 0 ptr sizeof_ptr ;;
        mret (f, ap, 0)
      else if c =? ch_percent then
        retval ← format0 f;
        dfsan_set_label 0 (str_cur f) (num_written_bytes f retval) ;;
        mret (f, ap, retval)
      else if c =? 42 (* * *) then
        '(w, ap) ← va_arg ap;
        directive fuel (set_width (s32 w) f) ap
      else directive fuel f ap
  end.

(** One round of the loop of [format_buffer]. *)
Definition format_chunk (fuel : nat) (f : Formatter) (ap : list Z)
    : M rt (Formatter * list Z * Z) :=
  c ← in_mem (λ m, peek m (f_fmt_cur f));
  if negb (c =? ch_percent) then
    e ← in_mem (λ m, skip_text fuel m (f_fmt_cur f));
    match e with
    | None => out_of_fuel
    | Some e =>
        let f := at_cur e f in
        retval ← format0 f;
        dfsan_set_label 0 (str_cur f) (num_written_bytes f retval) ;;
        mret (f, ap, retval)
    end
  else directive fuel f ap.

Fixpoint format_loop (fuel : nat) (f : Formatter) (ap : list Z) : M rt Z :=
  c ← in_mem (λ m, peek m (f_fmt_cur f));
  if c =? 0 then mret (s32 (f_str_off f)) else
  match fuel with
  | O => out_of_fuel
  | S fuel =>
      '(f, ap, retval) ← format_chunk fuel (start_chunk f) ap;
      if retval <? 0 then mret retval
      else format_loop fuel (end_chunk retval f) ap
  end.

(** [format_buffer]; [fuel] bounds the characters of the format read. *)
Definition format_buffer (fuel : nat) (str size fmt : Z) (ap : list Z) : M rt Z :=
  format_loop fuel (MkFormatter str 0 size fmt fmt (-1)) ap.

Definition dfsw_sprintf (fuel : nat) (str fmt : Z) (ap : list Z) : M rt (Z * Z) :=
  ret ← format_buffer fuel str (2 ^ 64 - 1) fmt ap; mret (ret, 0).
Definition dfsw_snprintf (fuel : nat) (str size fmt : Z) (ap : list Z) : M rt (Z * Z) :=
  ret ← format_buffer fuel str size fmt ap; mret (ret, 0).
End printf.

(** ** Labels of a formatted string *)
Section printf_spec.
Context {Zi : Z3} {Ops : LlvmOps}.
Variable snprintf : gmap Z Z → Z → Z → list Z → list Z → sys.

(** The C library prints a string that fits under [%s] as it is, with its NUL. *)
Definition prints_strings : Prop :=
  ∀ m dst avail arg, 0 ≤ strlen m arg < avail →
    snprintf m dst avail [ch_percent; 115] [arg] = Sys (strlen m arg) [(dst, cstr m arg ++ [0])].

Lemma bytes_of_two m a : bytes_of m a 2 = [peek m a; peek m (a + 1)].
Proof. unfold bytes_of. change (range 0 2) with [0; 1]. cbn. by rewrite Z.add_0_r. Qed.

(** The [%s] case of the loop over a directive. *)
Lemma directive_string fuel f arg ap s :
  let f' := at_cur (f_fmt_cur f + 1) f in
  peek (rt_mem s) (f_fmt_cur f) ≠ 0 → peek (rt_mem s) (f_fmt_cur f + 1) = 115 →
  directive snprintf (S fuel) f (arg :: ap) s =
  (retval ← format1 snprintf f' arg;
   shadow_memcpy (shadow_for (str_cur f')) (shadow_for arg) (num_written_bytes f' retval) ;;
   mret (f', ap, retval)) s.
Proof.
  intros f' H0 H1. cbn [directive]. unfold in_mem. rewrite bind_gets, (proj2 (Z.eqb_neq _ 0)) by done.
  rewrite bind_gets. cbn [at_cur f_fmt_cur]. rewrite H1. reflexivity.
Qed.

(** [snprintf(str, size, "%s", arg)] with room for the result: it returns the
    length, the buffer holds the string, and its characters carry the labels of
    the argument's; the label store does not change. *)
Theorem snprintf_string_labels k str size fmt arg s :
  let m := rt_mem s in
  let n := strlen m arg in
  prints_strings → n < 2 ^ 31 → n < size →
  peek m fmt = ch_percent → peek m (fmt + 1) = 115 → peek m (fmt + 2) = 0 →
  fmt + 2 < str ∨ str + n < fmt + 2 →
  shadow_for str ≤ shadow_for arg ∨ shadow_for arg + 4 * n ≤ shadow_for str →
  ∃ s', dfsw_snprintf snprintf (S (S (S k))) str size fmt [arg] s = Ret (n, 0) s' ∧
    rt_mem s' = store_bytes m str (cstr m arg ++ [0]) ∧
    copied 4 (rt_shadow s) (rt_shadow s') (shadow_for str) (shadow_for arg) n ∧
    rt_labels s' = rt_labels s.
Proof.
  intros m n Hp Hn31 Hsz F0 F1 F2 Hov Hsh. destruct (strlen_nul m arg) as (Hn0 & _ & _). fold n in Hn0.
  set (s1 := set_mem (store_bytes m str (cstr m arg ++ [0])) s).
  set (s2 := set_shadow (copy_fwd 4 (rt_shadow s) (shadow_for str) (shadow_for arg) n) s1).
  exists s2. split_and!; [|done|apply copy_fwd_copied; lia|done].
  unfold dfsw_snprintf. rewrite (bind_run _ _ s n s2); [done|].
  unfold format_buffer. cbn [format_loop].
  set (f1 := MkFormatter str 0 size fmt (fmt + 1) (-1)).
  unfold in_mem. rewrite bind_gets. cbn [f_fmt_cur]. fold m. rewrite F0. cbn [ch_percent Z.eqb].
  rewrite (bind_run _ _ s (f1, [], n) s2).
  - rewrite (proj2 (Z.ltb_ge n 0)) by lia.
    unfold in_mem. rewrite bind_gets. unfold end_chunk, f1. cbn [f_fmt_cur f_str_off].
    replace (fmt + 1 + 1) with (fmt + 2) by lia.
    assert (peek (rt_mem s2) (fmt + 2) = 0) as ->.
    { unfold s2, s1. cbn [rt_mem set_mem set_shadow]. rewrite peek_store_bytes.
      rewrite decide_False; [done|]. rewrite length_app. cbn [length]. unfold n, strlen in *. lia. }
    cbn [Z.eqb]. cbn [f_str_off]. unfold mret, M_ret. f_equal.
    unfold u64, s32, swrap. rewrite Z.add_0_l, (wrap_small 64), (wrap_small 32) by (unfold in_range; lia).
    by rewrite (proj2 (Z.ltb_lt _ _)) by lia.
  - unfold format_chunk, in_mem. rewrite bind_gets. cbn [start_chunk f_fmt_cur]. fold m. rewrite F0.
    change (negb (ch_percent =? ch_percent)) with false. cbv iota.
    rewrite directive_string; cbn [start_chunk f_fmt_cur]; fold m; [|by rewrite F0|done].
    unfold at_cur, start_chunk. cbn [f_fmt_cur f_str f_str_off f_size f_fmt_start f_width]. fold f1.
    rewrite (bind_run _ _ s n s1).
    + rewrite (bind_run _ _ s1 () s2); [done|].
      unfold shadow_memcpy, upd_shadow, modify, s2, str_cur, f1. cbn [f_str f_str_off].
      rewrite Z.add_0_r. unfold num_written_bytes, num_avail. cbn [f_str_off f_size].
      rewrite (proj2 (Z.ltb_ge n 0)), (proj2 (Z.ltb_lt 0 size)) by lia.
      rewrite (proj2 (Z.eqb_neq _ 0)), (proj2 (Z.leb_gt _ n)) by lia. done.
    + unfold format1, in_mem. rewrite bind_gets. unfold id. fold m.
      unfold build_format_string, f1. cbn [f_fmt_start f_fmt_cur f_width].
      replace (fmt + 1 - fmt + 1) with 2 by lia. rewrite bytes_of_two, F0, F1.
      change (0 <=? -1) with false. cbv iota. unfold num_avail, str_cur. cbn [f_str_off f_size f_str].
      rewrite (proj2 (Z.ltb_lt 0 size)) by lia. rewrite Hp by (fold n; lia).
      unfold host, upd_mem. rewrite bind_modify. cbn. by rewrite Z.add_0_r.
Qed.
End printf_spec.

(** ** Findings *)

(** When the output is cut, the number of written bytes is computed as the
    excess instead of what fits: printing more than twice the room claims more
    bytes than the buffer has, and labels beyond the buffer are set. *)
Theorem num_written_overruns f retval :
  0 < num_avail f → 2 * num_avail f < retval → num_avail f < num_written_bytes f retval.
Proof.
  intros Ha Hr. unfold num_written_bytes. rewrite (proj2 (Z.ltb_ge retval 0)) by lia.
  rewrite (proj2 (Z.eqb_neq _ 0)), (proj2 (Z.leb_le _ retval)) by lia. lia.
Qed.

(** A C library that prints text and [%s]. *)
Definition demo_snprintf (m : gmap Z Z) (dst avail : Z) (fmt args : list Z) : sys :=
  match args with
  | arg :: _ => Sys (strlen m arg) [(dst, cstr m arg ++ [0])]
  | [] => Sys (Z.of_nat (length fmt)) [(dst, fmt ++ [0])]
  end.

(** The format ["%"] ends inside a directive: the loop steps over its NUL and
    prints the text that follows the string in memory (here one character). *)
Definition past_rt : rt (Zi:=Ref.z3) :=
  rt_of (Zi:=Ref.z3) (boot_lstate Ref.term) ∅ (store_bytes ∅ 100 [ch_percent; 0; 65; 0])
    (TaintFile "" (-1) 0 0 0 0 0 0 None 0).
Theorem format_reads_past_end :
  cstr (rt_mem past_rt) 100 = [ch_percent] ∧
  returned (dfsw_sprintf (Zi:=Ref.z3) demo_snprintf 9 200 100 [] past_rt) = Some (1, 0) ∧
  cstr (rt_mem (at_state (dfsw_sprintf (Zi:=Ref.z3) demo_snprintf 9 200 100 [] past_rt))) 200 = [65].
Proof. split_and!; by vm_compute. Qed.

Lemma snprintf_string_labels_witness :
  ∃ s', dfsw_snprintf (Zi:=Ref.z3) demo_snprintf 3 200 16 100 [300]
      (set_mem (store_bytes (store_bytes ∅ 100 [ch_percent; 115; 0]) 300 [65; 66; 0]) past_rt)
      = Ret (2, 0) s' ∧
    cstr (rt_mem s') 200 = [65; 66].
Proof.
  destruct (snprintf_string_labels (Zi:=Ref.z3) demo_snprintf 0 200 16 100 300
    (set_mem (store_bytes (store_bytes ∅ 100 [ch_percent; 115; 0]) 300 [65; 66; 0]) past_rt))
    as (s' & Hr & Hm & _).
  - intros m dst avail arg _. reflexivity.
  - by vm_compute.
  - by vm_compute.
  - by vm_compute.
  - by vm_compute.
  - by vm_compute.
  - left. by vm_compute.
  - left. by vm_compute.
  - exists s'. split; [exact Hr|]. rewrite Hm. by vm_compute.
Defined.
