(* ===== verification/CustomSpec.v ===== *)
(** * What the wrappers guarantee: copies, comparisons, tainted input

    Labels follow the bytes they belong to: the label of an application byte is
    the content of its shadow slot. *)
From S2P Require Import Prelude Platform Labels UnionTable Union Z3 State Denote Shadow ShadowSpec Files FlagParser Solver Init Libc CustomStr CustomFile.

(** [n] application bytes from [a] on. *)
Definition app_range (a n : Z) : Prop := AppBaseAddr ≤ a ∧ a + n ≤ 2 ^ 47.

Section copies.
Context {Zi : Z3} {Ops : LlvmOps}.

Definition byte_label (s : rt) (a : Z) : Z := peek (rt_shadow s) (shadow_for a).

(** Only memory and shadow differ between the states. *)
Definition only_memory (s s' : rt) : Prop :=
  s' = set_shadow (rt_shadow s') (set_mem (rt_mem s') s).

(** [n] bytes and their labels were copied from [src] to [dest]; every other
    application byte kept its value and label. *)
Definition moved (s s' : rt) (dest src n : Z) : Prop :=
  (∀ i, 0 ≤ i < n → peek (rt_mem s') (dest + i) = peek (rt_mem s) (src + i) ∧
     byte_label s' (dest + i) = byte_label s (src + i)) ∧
  (∀ a, app_range a 1 → a < dest ∨ dest + n ≤ a →
     peek (rt_mem s') a = peek (rt_mem s) a ∧ byte_label s' a = byte_label s a) ∧
  only_memory s s'.

Lemma moved_intro s s' dest src n :
  app_range dest n → app_range src n →
  copied 1 (rt_mem s) (rt_mem s') dest src n →
  copied 4 (rt_shadow s) (rt_shadow s') (shadow_for dest) (shadow_for src) n →
  only_memory s s' → moved s s' dest src n.
Proof.
  intros [Hd1 Hd2] [Hs1 Hs2] [Hm1 Hm2] [Hl1 Hl2] Ho. split_and!; [| |done].
  - intros i Hi. specialize (Hm1 i Hi). rewrite !Z.mul_1_l in Hm1. split; [done|].
    unfold byte_label. rewrite !shadow_for_add by lia. by apply Hl1.
  - intros a [Ha1 Ha2] Hout. split; [apply Hm2; lia|].
    apply Hl2. intros i Hi. rewrite !shadow_for_app by lia. lia.
Qed.

Lemma dfsan_memcpy_moved s dest src n :
  app_range dest n → app_range src n → dest ≤ src ∨ src + n ≤ dest →
  ∃ s', dfsan_memcpy dest src n s = Ret dest s' ∧ moved s s' dest src n.
Proof.
  intros Hd Hs Hov. eexists. split; [reflexivity|]. apply moved_intro; [done|done| | |done].
  - cbn [rt_mem set_mem set_shadow]. apply copy_fwd_copied; lia.
  - cbn [rt_shadow set_mem set_shadow]. destruct Hd, Hs. destruct (decide (n ≤ 0)) as [Hn|Hn].
    + unfold copy_fwd. rewrite range_nil by lia. split; [lia|done].
    + apply copy_fwd_copied; [lia|].
      destruct Hov; [left|right]; rewrite !shadow_for_app by lia; lia.
Qed.

(** The labels of [memmove], through [tmp]. *)
Lemma put_tmp_run ls l (tmp : list Z) s :
  length tmp = length l → NoDup l →
  ∃ s', for_each (zip l tmp) (λ p, shadow_put ls p.1 p.2) s = Ret () s' ∧
    s' = set_shadow (rt_shadow s') s ∧
    (∀ k i x, l !! k = Some i → tmp !! k = Some x → peek (rt_shadow s') (slot ls i) = x) ∧
    (∀ a, (∀ i, i ∈ l → a ≠ slot ls i) → peek (rt_shadow s') a = peek (rt_shadow s) a).
Proof.
  revert tmp s. induction l as [|i l IH]; intros [|x tmp] s Hlen Hnd; try done.
  { exists s. split_and!; [done|by destruct s|done|done]. }
  apply NoDup_cons in Hnd as [Hi Hnd]. injection Hlen as Hlen.
  destruct (IH tmp (set_shadow (poke (rt_shadow s) (slot ls i) x) s) Hlen Hnd)
    as (s' & Hr & Hs' & Hin & Hout).
  exists s'. split_and!.
  - exact Hr.
  - by rewrite Hs'.
  - intros [|k] j y; simpl.
    + intros [= <-] [= <-]. rewrite Hout; [apply peek_poke_eq|].
      intros j Hj Heq%slot_inj. by subst.
    + apply Hin.
  - intros a Ha. rewrite Hout by set_solver. apply peek_poke_ne. intros <-.
    apply (Ha i); set_solver.
Qed.

(** C29: [memmove] is right for every overlap: the bytes of the source and their
    labels arrive at the destination unchanged, although the source may be
    overwritten meanwhile; nothing else changes. *)
Theorem dfsw_memmove_moves s dest src n dest_label :
  0 ≤ n → app_range dest n → app_range src n →
  ∃ s', dfsw_memmove dest src n dest_label s = Ret (dest, dest_label) s' ∧ moved s s' dest src n.
Proof.
  intros Hn Hd Hs. unfold dfsw_memmove. rewrite bind_gets.
  set (tmp := (λ i, peek (rt_shadow s) (slot (shadow_for src) i)) <$> range 0 n).
  assert (∃ m1, copied 1 (rt_mem s) m1 dest src n ∧
    internal_memmove dest src n s = Ret dest (set_mem m1 s)) as (m1 & Hm1 & Hr1).
  { destruct Hd as [Hd1 Hd2]. assert (0 ≤ AppBaseAddr) by (vm_compute; congruence).
    unfold internal_memmove. assert (s64 n = n) as ->.
    { unfold s64, swrap. rewrite wrap_small by (unfold in_range; lia).
      by rewrite (proj2 (Z.ltb_lt _ _)) by lia. }
    rewrite (proj2 (Z.ltb_ge n 0)) by lia.
    destruct (Z.ltb_spec dest src); [|destruct (Z.ltb_spec src dest)].
    - eexists. split; [|reflexivity]. apply copy_fwd_copied; lia.
    - destruct (Z.ltb_spec 0 n).
      + eexists. split; [|reflexivity]. apply copy_bwd_copied; lia.
      + exists (rt_mem s). split; [split; [lia|done]|by destruct s].
    - exists (rt_mem s). replace src with dest by lia. split; [apply copied_refl|by destruct s]. }
  rewrite (bind_run _ _ _ _ _ Hr1).
  destruct (put_tmp_run (shadow_for dest) (range 0 n) tmp (set_mem m1 s)) as
    (s' & Hr & Hs' & Hin & Hout); [by unfold tmp; rewrite length_fmap|apply range_NoDup|].
  rewrite (bind_run _ _ _ _ _ Hr). exists s'. split; [done|].
  assert (rt_mem s' = m1) as Hmem by (by rewrite Hs').
  apply moved_intro; [done|done|by rewrite Hmem| |by rewrite Hs'].
  split.
  - intros i Hi. apply (Hin (Z.to_nat i) i).
    + unfold range. apply lookup_seqZ. lia.
    + unfold tmp. rewrite list_lookup_fmap. unfold range.
      assert (seqZ 0 (n - 0) !! Z.to_nat i = Some i) as -> by (apply lookup_seqZ; lia). done.
  - intros a Ha. apply Hout. intros i Hi%elem_of_range. by apply Ha.
Qed.

(** [memcpy] of ranges where the destination does not start inside the
    source copies the bytes with their labels and nothing else. *)
Theorem dfsw_memcpy_moves s dest src n dest_label :
  app_range dest n → app_range src n → dest ≤ src ∨ src + n ≤ dest →
  ∃ s', dfsw_memcpy dest src n dest_label s = Ret (dest, dest_label) s' ∧ moved s s' dest src n.
Proof.
  intros Hd Hs Hov. destruct (dfsan_memcpy_moved s dest src n Hd Hs Hov) as (s' & Hr & Hm).
  exists s'. split; [|done]. unfold dfsw_memcpy. by rewrite (bind_run _ _ _ _ _ Hr).
Qed.

(** After a move of the NUL-terminated string at [src], the destination holds
    the same string. *)
Lemma moved_cstr s s' dest src :
  let n := strlen (rt_mem s) src in
  moved s s' dest src (n + 1) → cstr (rt_mem s') dest = cstr (rt_mem s) src.
Proof.
  intros n (Hm & _ & _). destruct (strlen_nul (rt_mem s) src) as (H0 & H1 & H2). fold n in H0, H1, H2.
  rewrite !cstr_bytes. assert (strlen (rt_mem s') dest = n) as ->.
  { apply strlen_unique; [done| |].
    - intros i Hi. destruct (Hm i ltac:(lia)) as [-> _]. by apply H1.
    - destruct (Hm n ltac:(lia)) as [-> _]. done. }
  apply bytes_of_ext. intros i Hi. apply Hm. lia.
Qed.

(** [strcat] appends: with room for the result and no overlap, the
    destination becomes the concatenation of the two strings, the appended
    characters and the NUL carry the labels of the source, and the old
    characters keep theirs. *)
Theorem dfsw_strcat_appends s dest src d_label :
  let n1 := strlen (rt_mem s) dest in
  let n2 := strlen (rt_mem s) src in
  app_range dest (n1 + n2 + 1) → app_range src (n2 + 1) →
  src + n2 + 1 ≤ dest ∨ dest + n1 + n2 + 1 ≤ src →
  ∃ s', dfsw_strcat dest src d_label s = Ret (dest, d_label) s' ∧
    cstr (rt_mem s') dest = cstr (rt_mem s) dest ++ cstr (rt_mem s) src ∧
    (∀ i, 0 ≤ i < n1 → byte_label s' (dest + i) = byte_label s (dest + i)) ∧
    (∀ i, 0 ≤ i ≤ n2 → byte_label s' (dest + n1 + i) = byte_label s (src + i)) ∧
    only_memory s s'.
Proof.
  intros n1 n2 [Hd1 Hd2] Hs Hov.
  destruct (strlen_nul (rt_mem s) dest) as (D0 & D1 & D2).
  destruct (strlen_nul (rt_mem s) src) as (S0 & S1 & S2). fold n1 in D0, D1, D2. fold n2 in S0, S1, S2.
  destruct (dfsan_memcpy_moved s (dest + n1) src (n2 + 1)) as (s' & Hr & Hm & Ho & Hst);
    [split; lia|done|lia|].
  exists s'. split_and!; [|..|done].
  - unfold dfsw_strcat, in_mem. rewrite !bind_gets. fold n1 n2. by rewrite (bind_run _ _ _ _ _ Hr).
  - assert (strlen (rt_mem s') dest = n1 + n2) as Hlen.
    { apply strlen_unique; [lia| |].
      - intros i Hi. destruct (decide (i < n1)).
        + destruct (Ho (dest + i)) as [-> _]; [split; lia|lia|]. apply D1. lia.
        + destruct (Hm (i - n1) ltac:(lia)) as [E _]. replace (dest + n1 + (i - n1)) with (dest + i) in E by lia.
          rewrite E. apply S1. lia.
      - destruct (Hm n2 ltac:(lia)) as [E _]. rewrite Z.add_assoc, E. done. }
    rewrite !cstr_bytes, Hlen, bytes_of_app by lia. fold n1 n2. f_equal; apply bytes_of_ext.
    + intros i Hi. apply Ho; [split; lia|lia].
    + intros i Hi. apply Hm. lia.
  - intros i Hi. apply Ho; [split; lia|lia].
  - intros i Hi. apply Hm. lia.
Qed.

(** [strdup] returns a copy of the string with the labels of its
    characters, in the block [malloc] returned, and does not change the rest of
    memory. *)
Theorem dfsw_strdup_copies s p src :
  let n := strlen (rt_mem s) src in
  app_range p (n + 1) → app_range src (n + 1) → p + n + 1 ≤ src ∨ src + n + 1 ≤ p →
  ∃ s', dfsw_strdup p src s = Ret (p, 0) s' ∧
    cstr (rt_mem s') p = cstr (rt_mem s) src ∧ moved s s' p src (n + 1).
Proof.
  intros n Hp Hs Hov.
  destruct (dfsan_memcpy_moved s p src (n + 1)) as (s' & Hr & Hm); [done|done|lia|].
  exists s'. split_and!; [|by apply moved_cstr|done].
  unfold dfsw_strdup, in_mem. rewrite !bind_gets. fold n. by rewrite (bind_run _ _ _ _ _ Hr).
Qed.

(** [strcpy] of disjoint strings copies the characters, the NUL and their
    labels. *)
Theorem dfsw_strcpy_copies s dest src dst_label :
  let n := strlen (rt_mem s) src in
  app_range dest (n + 1) → app_range src (n + 1) → dest + n + 1 ≤ src ∨ src + n + 1 ≤ dest →
  ∃ s', dfsw_strcpy dest src dst_label s = Ret (dest, dst_label) s' ∧
    cstr (rt_mem s') dest = cstr (rt_mem s) src ∧ moved s s' dest src (n + 1).
Proof.
  intros n Hd Hs Hov. destruct (strlen_nul (rt_mem s) src) as (S0 & S1 & S2). fold n in S0, S1, S2.
  set (m1 := copy_fwd 1 (rt_mem s) dest src (n + 1)).
  assert (copied 1 (rt_mem s) m1 dest src (n + 1)) as Hc by (apply copy_fwd_copied; lia).
  assert (strlen m1 src = n) as Hn.
  { apply strlen_unique; [done| |]; [intros i Hi|]; rewrite (proj2 Hc) by lia; auto. }
  set (s' := set_shadow (copy_fwd 4 (rt_shadow s) (shadow_for dest) (shadow_for src) (n + 1)) (set_mem m1 s)).
  assert (moved s s' dest src (n + 1)) as Hm.
  { apply moved_intro; [done|done|done| |done]. destruct Hd, Hs. apply copy_fwd_copied; [lia|].
    destruct Hov; [left|right]; rewrite !shadow_for_app by lia; lia. }
  exists s'. split_and!; [|by apply moved_cstr|done].
  unfold dfsw_strcpy, host_strcpy, in_mem.
  rewrite (bind_run _ _ s n (set_mem m1 s)); [|by rewrite bind_gets].
  assert (0 < AppBaseAddr) by reflexivity. destruct Hd.
  rewrite (proj2 (Z.eqb_neq dest 0)) by lia. cbn [negb].
  rewrite (bind_run _ _ _ () s'); [done|]. rewrite bind_gets. cbn [rt_mem set_mem].
  by rewrite Hn.
Qed.

(** [strncpy] pads: a string shorter than [n] is copied with its labels and
    the rest of the [n] bytes becomes NUL without label; a longer one is cut
    to its first [n] characters, with their labels. *)
Theorem dfsw_strncpy_pads s s1 s2 n s1_label :
  let len := strlen (rt_mem s) s2 in
  0 ≤ n → app_range s1 n → app_range s2 (Z.min n (len + 1)) →
  s1 + n ≤ s2 ∨ s2 + Z.min n (len + 1) ≤ s1 →
  ∃ s', dfsw_strncpy s1 s2 n s1_label s = Ret (s1, s1_label) s' ∧
    (∀ i, 0 ≤ i < Z.min n (len + 1) →
       peek (rt_mem s') (s1 + i) = peek (rt_mem s) (s2 + i) ∧
       byte_label s' (s1 + i) = byte_label s (s2 + i)) ∧
    (∀ i, len < i < n → peek (rt_mem s') (s1 + i) = 0 ∧ byte_label s' (s1 + i) = 0).
Proof.
  intros len Hn0 H1 H2 Hov. destruct (strlen_nul (rt_mem s) s2) as (L0 & _ & _). fold len in L0.
  unfold dfsw_strncpy, in_mem. rewrite bind_gets. fold len. destruct (Z.ltb_spec len n) as [Hl|Hl].
  - rewrite Z.min_r in * by lia. destruct H1 as [H1a H1b].
    destruct (dfsan_memcpy_moved s s1 s2 (len + 1)) as (s' & Hr & Hm & Ho & Hst);
      [split; lia|done|lia|].
    pose proof (set_label_ok (set_mem (fill (rt_mem s') (s1 + len + 1) (u8 0) (n - len - 1)) s')
      0 (s1 + len + 1) (n - len - 1) ltac:(lia)) as Hw. unfold wp in Hw.
    assert (∀ i, len < i < n → slot (shadow_for (s1 + len + 1)) (i - len - 1) = shadow_for (s1 + i))
      as Hsl.
    { intros i Hi. unfold slot. rewrite <- shadow_for_add by lia. f_equal. lia. }
    destruct (dfsan_set_label _ _ _ _) as [[] s2'| |] eqn:Hset; [|done|done].
    destruct Hw as (Hs2 & Hf2 & Hk2). exists s2'. split_and!.
    + rewrite (bind_run _ _ s () s2'); [done|]. rewrite (bind_run _ _ _ _ _ Hr).
      unfold dfsan_memset, internal_memset, upd_mem. by rewrite bind_modify.
    + intros i Hi. rewrite Hs2. cbn [rt_mem set_shadow set_mem]. rewrite peek_fill, decide_False by lia.
      destruct (Hm i ltac:(lia)) as [-> Hlab]. split; [done|]. rewrite <- Hlab. unfold byte_label.
      rewrite Hf2; [done|]. intros k Hk. unfold slot. rewrite !shadow_for_app by lia. lia.
    + intros i Hi. split.
      * rewrite Hs2. cbn [rt_mem set_shadow set_mem]. by rewrite peek_fill, decide_True by lia.
      * unfold byte_label. rewrite <- Hsl by lia. apply Hk2. lia.
  - rewrite Z.min_l in * by lia.
    destruct (dfsan_memcpy_moved s s1 s2 n) as (s' & Hr & Hm & Ho & Hst); [done|done|lia|].
    exists s'. split_and!; [|done|lia]. rewrite (bind_run _ _ s () s'); [done|].
    by rewrite (bind_run _ _ _ _ _ Hr).
Qed.
End copies.

(** ** Reading the taint source *)
Section reads.
Context {Zi : Z3} {Ops : LlvmOps} {En : Env}.

(** The source is the file open on [fd], and its bytes have their labels. *)
Definition file_open (s : rt) (fd : Z) : Prop :=
  tf_fd (rt_tainted s) = fd ∧ tf_is_stdin (rt_tainted s) = 0 ∧ 0 < tf_size (rt_tainted s) ∧
  tf_size (rt_tainted s) ≤ last_label (rt_labels s) ∧
  ∀ k, 0 ≤ k < tf_size (rt_tainted s) →
    key_of (info_at (rt_labels s) (k + 1)) = (0, 0, 0, 8, k, 0).

(** The bytes [bs] of the source from [offset] on are at [buf], each with the
    label of its offset; every other application byte kept its label. *)
Definition labelled (s s' : rt) (buf offset : Z) (bs : list Z) : Prop :=
  (∀ i x, bs !! i = Some x →
     peek (rt_mem s') (buf + Z.of_nat i) = x ∧
     byte_label s' (buf + Z.of_nat i) = offset + Z.of_nat i + 1 ∧
     ∀ inp, sden s' inp (byte_label s' (buf + Z.of_nat i)) =
       Some (VBV 8 (u8 (in_byte inp (s32 (offset + Z.of_nat i)))))) ∧
  (∀ a, app_range a 1 → a < buf ∨ buf + Z.of_nat (length bs) ≤ a →
     byte_label s' a = byte_label s a) ∧
  only_memory s s'.

Lemma set_label_one l a s :
  ∃ sh, dfsan_set_label l a 1 s = Ret () (set_shadow sh s) ∧
    ∀ b, peek sh b = if decide (shadow_for a = b) then l else peek (rt_shadow s) b.
Proof.
  pose proof (set_label_ok s l a 1 ltac:(lia)) as Hw. unfold wp in Hw.
  destruct (dfsan_set_label l a 1 s) as [[] s'| |]; [|done|done].
  destruct Hw as (Hs' & Hf & Hk). exists (rt_shadow s'). split; [by rewrite <- Hs'|].
  specialize (Hk 0 ltac:(lia)). unfold slot in Hk. rewrite Z.add_0_r in Hk.
  intros b. case_decide as E; [by subst|]. apply Hf. intros k Hk'. unfold slot.
  replace k with 0 by lia. rewrite Z.add_0_r. congruence.
Qed.

Lemma label_bytes_run fd offset buf n s :
  tf_is_stdin (rt_tainted s) = 0 → 0 ≤ n → app_range buf n → 0 ≤ offset → offset + n < 2 ^ 32 →
  wp (label_bytes fd offset buf n)
    (λ _, slots_set s (shadow_for buf) n (λ k, offset + k + 1)) no_throw s.
Proof.
  intros Hst Hn [Hb1 Hb2] Ho Hn32. apply (put_loop_ok s); [done|]. intros s1 k Hs1 Hk.
  assert (tf_is_stdin (rt_tainted s1) = 0) as Hst1 by (by rewrite Hs1).
  apply wp_bind. unfold get_label_for, is_stdin_taint. apply wp_bind, wp_gets. rewrite Hst1.
  cbn [Z.eqb negb]. apply wp_ret. unfold wp, CONST_OFFSET.
  unfold u32. rewrite wrap_small by (unfold in_range; lia).
  destruct (set_label_one (offset + k + 1) (buf + k) s1) as (sh & -> & Hp).
  split; [done|]. intros a. cbn [rt_shadow set_shadow]. rewrite Hp. unfold slot.
  by rewrite shadow_for_add by lia.
Qed.

Lemma read_labelled fd buf offset bs s :
  rt_wf s → file_open s fd → app_range buf (Z.of_nat (length bs)) → 0 ≤ offset →
  offset + Z.of_nat (length bs) ≤ tf_size (rt_tainted s) →
  let s1 := set_mem (store_bytes (rt_mem s) buf bs) s in
  ∃ s', label_bytes fd offset buf (Z.of_nat (length bs)) s1 = Ret () s' ∧
    labelled s s' buf offset bs.
Proof.
  intros Hwf (Hfd & Hst & Hsz & Hlast & Hin) Hbuf Ho Hof s1. pose proof Hwf as [m Hm].
  pose proof (last_bound _ _ Hm) as Hl32.
  pose proof (label_bytes_run fd offset buf (Z.of_nat (length bs)) s1 Hst ltac:(lia) Hbuf Ho ltac:(lia))
    as Hw. unfold wp in Hw.
  destruct (label_bytes _ _ _ _ s1) as [[] s'| |]; [|done|done]. exists s'. split; [done|].
  destruct Hw as (Hs' & Hf & Hk). destruct Hbuf as [Hb1 Hb2].
  assert (rt_mem s' = store_bytes (rt_mem s) buf bs) as Hmem by (by rewrite Hs').
  assert (rt_labels s' = rt_labels s) as Hlab by (by rewrite Hs').
  split_and!.
  - intros i x Hx. pose proof (lookup_lt_Some _ _ _ Hx) as Hi.
    assert (byte_label s' (buf + Z.of_nat i) = offset + Z.of_nat i + 1) as Hbl.
    { unfold byte_label. rewrite shadow_for_add by lia. apply (Hk (Z.of_nat i)). lia. }
    split_and!; [|done|].
    + rewrite Hmem, peek_store_bytes, decide_True by lia.
      replace (Z.to_nat (buf + Z.of_nat i - buf)) with i by lia. by rewrite Hx.
    + intros inp. rewrite Hbl.
      rewrite (sden_key s' _ (LabelInfo 0 0 (offset + Z.of_nat i) 0 0 8 0 0 0 None None)).
      * done.
      * unfold rt_wf. by rewrite Hlab.
      * rewrite Hlab. lia.
      * rewrite Hlab, Hin by lia. done.
  - intros a [Ha1 Ha2] Hout. unfold byte_label. rewrite Hf; [done|].
    intros k Hk'. unfold slot. rewrite !shadow_for_app by lia. lia.
  - unfold only_memory. by rewrite Hs'.
Qed.

(** C24: [read] of the taint source. When the host reads [length bs] bytes at the
    current offset of the input file into the buffer, the wrapper returns that
    count without label, the buffer holds the bytes, each labelled with the
    label of its file offset and so denoting that byte of the input; every
    other byte keeps its label. *)
Theorem dfsw_read_labels fd buf count offset bs s :
  rt_wf s → file_open s fd → app_range buf (Z.of_nat (length bs)) → 0 ≤ offset →
  offset + Z.of_nat (length bs) ≤ tf_size (rt_tainted s) →
  ∃ s', dfsw_read fd buf count offset (Sys (Z.of_nat (length bs)) [(buf, bs)]) s =
      Ret (Z.of_nat (length bs), 0) s' ∧
    labelled s s' buf offset bs.
Proof.
  intros Hwf Hop Hbuf Ho Hof.
  destruct (read_labelled fd buf offset bs s Hwf Hop Hbuf Ho Hof) as (s' & Hr & Hl).
  exists s'. split; [|done]. destruct Hop as (Hfd & _ & Hsz & _).
  unfold dfsw_read, host. erewrite bind_run by reflexivity. cbn [sys_ret sys_writes foldl fst snd].
  rewrite (proj2 (Z.leb_le 0 _)) by lia. rewrite (bind_run _ _ _ () s'); [done|].
  unfold taint_get_file. rewrite bind_gets. cbn [rt_tainted set_mem].
  rewrite Hfd, Z.eqb_refl, (proj2 (Z.eqb_neq _ 0)) by lia. exact Hr.
Qed.

(** Reading any other descriptor clears: the bytes the host stores in the
    buffer have no label afterwards. *)
Theorem dfsw_read_clears fd buf count offset bs s :
  tf_fd (rt_tainted s) ≠ fd → app_range buf (Z.of_nat (length bs)) →
  ∃ s', dfsw_read fd buf count offset (Sys (Z.of_nat (length bs)) [(buf, bs)]) s =
      Ret (Z.of_nat (length bs), 0) s' ∧
    (∀ i x, bs !! i = Some x →
       peek (rt_mem s') (buf + Z.of_nat i) = x ∧ byte_label s' (buf + Z.of_nat i) = 0) ∧
    only_memory s s'.
Proof.
  intros Hfd [Hb1 Hb2]. unfold dfsw_read, host. erewrite bind_run by reflexivity.
  cbn [sys_ret sys_writes foldl fst snd]. rewrite (proj2 (Z.leb_le 0 _)) by lia.
  set (s1 := set_mem (store_bytes (rt_mem s) buf bs) s).
  pose proof (set_label_ok s1 0 buf (Z.of_nat (length bs)) ltac:(lia)) as Hw. unfold wp in Hw.
  destruct (dfsan_set_label 0 buf _ s1) as [[] s'| |] eqn:Hr; [|done|done].
  destruct Hw as (Hs' & _ & Hk). exists s'. split_and!.
  - rewrite (bind_run _ _ _ () s'); [done|]. unfold taint_get_file. rewrite bind_gets.
    cbn [rt_tainted set_mem]. by rewrite (proj2 (Z.eqb_neq _ fd)).
  - intros i x Hx. pose proof (lookup_lt_Some _ _ _ Hx) as Hi. split.
    + rewrite Hs'. cbn [rt_mem set_shadow]. unfold s1. cbn [rt_mem set_mem].
      rewrite peek_store_bytes, decide_True by lia.
      replace (Z.to_nat (buf + Z.of_nat i - buf)) with i by lia. by rewrite Hx.
    + unfold byte_label. rewrite shadow_for_add by lia. apply (Hk (Z.of_nat i)). lia.
  - unfold only_memory. by rewrite Hs'.
Qed.
End reads.

(** ** Comparisons *)
Lemma le_combine_inj (x y : list Z) :
  length x = length y → Forall (in_range 8) x → Forall (in_range 8) y →
  le_combine x = le_combine y → x = y.
Proof.
  assert (∀ l, Forall (in_range 8) l → map u8 l = l) as Hu.
  { induction 1 as [|a l Ha _ IH]; [done|]. cbn [map]. f_equal; [by apply wrap_small|exact IH]. }
  intros Hl Hx Hy H. apply (le_combine_bytes x y Hl) in H. by rewrite !Hu in H.
Qed.

Section compare.
Context {Zi : Z3} {Ops : LlvmOps}.

Lemma fmemcmp_comm : is_commutative op_fmemcmp = true.
Proof.
  unfold is_commutative. unfold u8. rewrite wrap_small by (unfold in_range; op_lia).
  by rewrite Z.eqb_refl, orb_true_r.
Qed.

(** Reading [n] unlabelled bytes. *)
Lemma load_constant ls n s :
  (∀ k, 0 ≤ k < n → peek (rt_shadow s) (slot ls k) = 0) → 1 ≤ n →
  taint_union_load ls n s = Ret 0 s.
Proof.
  intros H0 Hn. unfold taint_union_load, shadow_at. rewrite bind_gets, (H0 0) by lia.
  change (0 =? kInitializingLabel) with false. cbv iota.
  change (CONST_OFFSET <=? 0) with false. cbv iota. rewrite (bind_run _ _ s () s) by done.
  unfold is_constant_label at 1. change (0 =? CONST_LABEL) with true. cbv iota.
  unfold all_constant. rewrite bind_gets.
  assert (forallb (λ i, is_constant_label (peek (rt_shadow s) (slot ls i))) (range 1 n) = true) as ->;
    [|done].
  apply forallb_forall. intros x Hx%list_elem_of_In%elem_of_range. rewrite H0 by lia. done.
Qed.

(** The record of a comparison with an unlabelled operand. *)
Lemma request_memcmp l n s1 s2 :
  1 ≤ l < 2 ^ 32 - 1 → in_range 8 n →
  union_request (E:=expr) l 0 op_fmemcmp (u8 n) s1 s2 =
    inr (LabelInfo 0 l (u64 s2) 0 op_fmemcmp n 0 0 0 None None).
Proof.
  intros Hl Hn. unfold union_request, swap_operands, u32, u16, u8.
  rewrite (wrap_small 8 n), (wrap_small 32 l), (wrap_small 32 0), (wrap_small 16 n)
    by (unfold in_range in *; lia).
  rewrite (wrap_small 16 op_fmemcmp) by (unfold in_range; op_lia).
  rewrite fmemcmp_comm, (proj2 (Z.ltb_lt 0 l)) by lia. cbn [andb].
  rewrite (proj2 (Z.eqb_neq l 0)) by lia. cbn [andb].
  change (0 =? kInitializingLabel) with false. change kInitializingLabel with (2 ^ 32 - 1).
  rewrite (proj2 (Z.eqb_neq l (2 ^ 32 - 1))) by lia. done.
Qed.

Lemma denote_memcmp ls mem inp rec (i : dfsan_label_info expr) a w v l n :
  key_of i = (0, l, op_fmemcmp, n, a, 0) → 1 ≤ l → a ≠ 0 → 1 ≤ n < 2 ^ 8 → w = 8 * n →
  rec l = Some (VBV w v) →
  denote_info ls mem inp rec i =
    Some (VBV 32 (if decide (le_combine (mem_bytes mem a n) = v) then 0 else 1)).
Proof.
  intros [= K1 K2 K3 K4 K5 K6] Hl Ha Hn -> Hr. unfold denote_info. rewrite K3. op_tests.
  rewrite K1, K2, K4, K5.
  unfold u8. rewrite wrap_small by (unfold in_range; lia). rewrite Z.max_r by lia.
  change (1 <=? 0) with false. cbv iota. rewrite (proj2 (Z.ltb_ge l 1)) by lia.
  cbn [mbind option_bind]. rewrite Hr. cbn [mbind option_bind].
  rewrite decide_True by done. do 2 f_equal.
  destruct (decide (le_combine _ = v)) as [->|Hne]; [by rewrite decide_True|].
  rewrite decide_False; [done|]. congruence.
Qed.

(** C28: The label [memcmp] returns denotes its result. Comparing [n <= 31] bytes
    whose first is tainted with unlabelled bytes, under the conditions of a
    sound load, the wrapper returns 0 or 1 as the bytes are equal or not, and a
    label that on every input denotes whether the input's bytes equal the
    constant ones; on the input being run, that is the returned value. *)
Theorem dfsw_memcmp_denotes s s1 s2 n b :
  let ls := shadow_for s1 in
  rt_wf s → 1 ≤ n ≤ 31 → s2 ≠ 0 → in_range 64 s2 →
  (∀ a, in_range 8 (peek (rt_mem s) a)) →
  (∀ k, 0 ≤ k < n → byte_ok s ls k (b k)) →
  (∀ k, 0 ≤ k < n → peek (rt_shadow s) (slot (shadow_for s2) k) = 0) →
  lab s ls 0 ≠ 0 →
  (li_op (rec_at s ls 0) = 0 → ∀ k, 1 ≤ k < n →
     li_op1 (rec_at s ls k) = u64 (li_op1 (rec_at s ls 0) + k) →
     lab s ls k ≠ 0 ∧ li_op (rec_at s ls k) = 0) →
  (li_op (rec_at s ls 0) = op_Extract → ∀ inp w a,
     sden s inp (li_l1 (rec_at s ls 0)) = Some (VBV w a) →
     w = li_size (info_at (rt_labels s) (li_l1 (rec_at s ls 0)))) →
  wpd (dfsw_memcmp s1 s2 n)
    (λ r s', r.1 = b2z (negb (bool_decide (bytes_of (rt_mem s) s1 n = bytes_of (rt_mem s) s2 n))) ∧
       (∀ inp, sden s' inp r.2 =
          Some (VBV 32 (if decide (le_combine (mem_bytes (rt_mem s) s2 n) = le_value b n inp)
                        then 0 else 1))) ∧
       ∀ inp, (∀ k, 0 ≤ k < n → b k inp = peek (rt_mem s) (s1 + k)) →
         sden s' inp r.2 = Some (VBV 32 r.1)) s.
Proof.
  intros ls Hwf Hn Hs2 Hr2 Hmem Hb Hc2 H0 Hin Hpar. unfold dfsw_memcmp, in_mem.
  apply wpd_bind, wpd_gets. unfold compare_labels. apply wpd_bind.
  unfold dfsan_read_label. rewrite (proj2 (Z.eqb_neq n 0)) by lia.
  eapply wpd_mono; [apply (load_ok s ls n b Hwf Hn Hb H0 Hin Hpar)|].
  intros l1 s' (Hwf' & Hg & Hl1 & Hd). apply wpd_bind.
  eapply wpd_run; [apply load_constant; [|lia]; intros k Hk; rewrite (grew_shadow _ _ Hg); by apply Hc2|].
  apply wpd_bind. unfold r_dfsan_union, dfsan_union. destruct Hwf' as [m' Hm'].
  pose proof (last_bound _ _ Hm') as Hlb. fold (r_union l1 0 op_fmemcmp (u8 n) (u64 s1) (u64 s2)).
  eapply wpd_union; [by exists m'|apply request_memcmp; [lia|unfold in_range; lia]|simpl; lia|simpl; lia|].
  intros l s'' Hwf'' Hg' Hl Hkey. apply wpd_ret. cbn [fst snd].
  assert (∀ inp, sden s'' inp l = Some (VBV 32
    (if decide (le_combine (mem_bytes (rt_mem s) s2 n) = le_value b n inp) then 0 else 1))) as Hden.
  { intros inp. rewrite (sden_key s'' l _ inp Hwf'' Hl eq_refl).
    rewrite (grew_mem _ _ Hg'), (grew_mem _ _ Hg).
    eapply (denote_memcmp _ _ _ _ _ s2 (8 * n) _ l1); [|lia|done|lia|done|].
    - rewrite Hkey. unfold key_of. cbn. unfold u64. by rewrite !(wrap_small 64) by (try apply wrap_range; done).
    - rewrite (grew_sden s') by (done || lia || by exists m'). apply Hd. }
  split; [|split; [done|]].
  - unfold memcmp. f_equal. f_equal. case_bool_decide as E.
    + apply Z.eqb_eq. by apply compare_bytes_eq.
    + apply Z.eqb_neq. by rewrite compare_bytes_eq.
  - intros inp Hinp. rewrite Hden. do 2 f_equal. unfold memcmp.
    assert (le_value b n inp = le_combine (bytes_of (rt_mem s) s1 n)) as ->.
    { unfold le_value, bytes_of. f_equal. apply list_fmap_ext. intros k x Hx.
      apply lookup_seqZ in Hx as [-> Hx]. apply Hinp. lia. }
    change (mem_bytes (rt_mem s) s2 n) with (bytes_of (rt_mem s) s2 n).
    assert (∀ a, Forall (in_range 8) (bytes_of (rt_mem s) a n)) as Hrg.
    { intros a. apply Forall_fmap, Forall_true. intros i. apply Hmem. }
    destruct (Z.eqb_spec (compare_bytes (bytes_of (rt_mem s) s1 n) (bytes_of (rt_mem s) s2 n)) 0) as [E|E].
    + apply compare_bytes_eq in E. by rewrite E, decide_True.
    + rewrite compare_bytes_eq in E. rewrite decide_False; [done|]. intros H. apply E.
      apply le_combine_inj; try done. unfold bytes_of. by rewrite !length_fmap.
Qed.
End compare.

(** ** Characters and mappings *)
Section chars.
Context {Zi : Z3} {Ops : LlvmOps} {En : Env}.

Lemma zext_distinct :
  op_ZExt ≠ op_And ∧ op_ZExt ≠ op_Or ∧ op_ZExt ≠ op_Xor ∧ op_ZExt ≠ op_Add ∧ op_ZExt ≠ op_Mul.
Proof.
  pose proof (λ i j x, NoDup_lookup _ i j x llvm_ops_nodup) as H.
  split_and!; intros E;
    [set (k := 10%nat)|set (k := 11%nat)|set (k := 12%nat)|set (k := 0%nat)|set (k := 2%nat)];
    discriminate (H 14%nat k op_ZExt eq_refl (f_equal Some (eq_sym E))).
Qed.
Lemma zext_noncomm : is_commutative op_ZExt = false.
Proof.
  pose proof zext_distinct as Hd.
  unfold is_commutative. unfold u8. rewrite wrap_small by (unfold in_range; op_lia).
  op_tests. done.
Qed.

(** [fgetc] of the taint source returns the character with a label that
    denotes the input byte at the stream's offset, zero-extended to an [int],
    unless the labels are exhausted; only the label store changes. *)
Theorem dfsw_fgetc_denotes fd offset c s :
  rt_wf s → file_open s fd → c ≠ EOF → 0 ≤ offset < tf_size (rt_tainted s) →
  wpd (dfsw_fgetc fd offset (Sys c []))
    (λ r s', r.1 = c ∧ rt_wf s' ∧ grew s s' ∧
       ∀ inp, sden s' inp r.2 = Some (VBV 32 (u8 (in_byte inp (s32 offset))))) s.
Proof.
  intros Hwf (Hfd & Hst & Hsz & Hlast & Hin) Hc Ho. pose proof Hwf as [m Hm].
  pose proof (last_bound _ _ Hm) as Hlb. 
  unfold dfsw_fgetc, getc_from. apply wpd_bind, (wpd_run _ _ s c s).
  { unfold host, upd_mem. rewrite bind_modify. cbn [sys_writes foldl sys_ret]. by destruct s. }
  apply wpd_bind. unfold taint_get_file. apply wpd_gets. rewrite Hfd, Z.eqb_refl.
  rewrite (proj2 (Z.eqb_neq c EOF)), (proj2 (Z.eqb_neq _ 0)) by (done || lia). cbn [negb andb].
  apply wpd_bind. unfold get_label_for. apply wpd_bind, wpd_gets. rewrite Hst. cbn [Z.eqb negb].
  apply wpd_ret. unfold u32, CONST_OFFSET. rewrite wrap_small by (unfold in_range; lia).
  apply wpd_bind. unfold label_char, r_dfsan_union, dfsan_union. change (u8 32) with 32.
  change (on_labels (taint_union (offset + 1) CONST_LABEL op_ZExt 32 0 0))
    with (r_union (offset + 1) 0 op_ZExt 32 0 0).
  eapply wpd_union; [done|apply request_left;
    [lia|lia|op_lia|apply zext_noncomm|unfold in_range; lia]|simpl; lia|simpl; lia|].
  intros l s' Hwf' Hg Hl Hkey. apply wpd_ret. split_and!; [done|done|done|]. intros inp. cbn [snd].
  rewrite (sden_key s' l _ inp Hwf' Hl Hkey). unfold denote_info.
  cbn [li_op li_l1 li_l2 li_size li_op1 li_op2]. op_tests.
  rewrite (grew_sden s) by (done || lia).
  rewrite (sden_key s (offset + 1) (LabelInfo 0 0 offset 0 0 8 0 0 0 None None));
    [|done|lia|by apply Hin].
  done.
Qed.

(** Comparisons record their length in 8 bits: comparing [n + 256] bytes
    records the same expression as comparing [n] of them, so the constraint of
    a long [memcmp] covers only its length modulo 256. *)
Theorem memcmp_length_wraps ls1 ls2 n a1 a2 :
  r_dfsan_union ls1 ls2 op_fmemcmp (n + 256) a1 a2 = r_dfsan_union ls1 ls2 op_fmemcmp n a1 a2.
Proof.
  assert (u8 (n + 256) = u8 n) as E; [|unfold r_dfsan_union, dfsan_union; by rewrite E].
  unfold u8, wrap. exact (Z.mod_add n 1 256 ltac:(lia)).
Qed.

(** At the end of the input [getline] (and [getdelim]) clears the label of
    the byte before the line buffer: the result [-1] is not zero, so the
    wrapper runs its loop zero times and then clears the byte at [*lineptr + ret]. *)
Theorem dfsw_getline_eof s lineptr fd offset :
  file_open s fd →
  let line := load64 (rt_mem s) lineptr in
  ∃ s', dfsw_getline lineptr fd offset (Sys (-1) []) s = Ret (-1, 0) s' ∧
    byte_label s' (line - 1) = 0.
Proof.
  intros (Hfd & _ & Hsz & _) line. unfold dfsw_getline, getdelim.
  erewrite bind_run by reflexivity. cbn [sys_ret sys_writes foldl].
  change (-1 =? 0) with false. cbn [negb].
  destruct (set_label_one 0 (line + -1) (set_mem (rt_mem s) s)) as (sh & Hr & Hp).
  exists (set_shadow sh (set_mem (rt_mem s) s)). split.
  - erewrite bind_run; [reflexivity|]. unfold taint_get_file, in_mem. rewrite !bind_gets.
    cbn [rt_tainted set_mem rt_mem]. rewrite Hfd, Z.eqb_refl, (proj2 (Z.eqb_neq _ 0)) by lia.
    cbn [negb]. unfold label_bytes. rewrite range_nil by lia. exact Hr.
  - unfold byte_label. cbn [rt_shadow set_shadow]. rewrite Hp. by rewrite decide_True.
Qed.
End chars.

(** ** Witnesses

    Two input bytes; the string ["ab"] at [wbuf] and a string of the two input
    bytes at [wbuf + 16]. *)
Definition wbuf : Z := 0x7fff00000000.
Definition str_mem : gmap Z Z := store_bytes (store_bytes ∅ wbuf [97; 98; 0]) (wbuf + 16) [99; 100; 0].
Definition str_shadow : gmap Z Z :=
  poke (poke ∅ (shadow_for (wbuf + 16)) 1) (shadow_for (wbuf + 17)) 2.
Definition str_rt : rt (Zi:=Ref.z3) :=
  rt_of (Zi:=Ref.z3) (input_labels 2 (boot_lstate Ref.term)) str_shadow str_mem
    (file_source "f" [99; 100]).
Lemma str_rt_wf : rt_wf (Zi:=Ref.z3) str_rt.
Proof. exists ∅. apply input_labels_wf; [apply boot_wf|done|by vm_compute]. Qed.
Lemma str_rt_open : file_open (Zi:=Ref.z3) str_rt 0.
Proof.
  split_and!; [done|done|done|by vm_compute|]. intros k Hk. cbn in Hk.
  assert (k = 0 ∨ k = 1) as [-> | ->] by lia; by vm_compute.
Qed.
Ltac app_range_tac := split; by vm_compute.

Lemma dfsw_memmove_moves_witness :
  ∃ s', dfsw_memmove (Zi:=Ref.z3) (wbuf + 17) (wbuf + 16) 2 0 str_rt = Ret (wbuf + 17, 0) s' ∧
    byte_label (Zi:=Ref.z3) s' (wbuf + 17) = 1 ∧ byte_label (Zi:=Ref.z3) s' (wbuf + 18) = 2.
Proof.
  destruct (dfsw_memmove_moves (Zi:=Ref.z3) str_rt (wbuf + 17) (wbuf + 16) 2 0) as (s' & Hr & Hm & _);
    [lia|app_range_tac|app_range_tac|].
  exists s'. split; [exact Hr|]. split.
  - destruct (Hm 0 ltac:(lia)) as [_ H]. exact H.
  - destruct (Hm 1 ltac:(lia)) as [_ H]. exact H.
Defined.

Lemma dfsw_strcat_appends_witness :
  ∃ s', dfsw_strcat (Zi:=Ref.z3) wbuf (wbuf + 16) 0 str_rt = Ret (wbuf, 0) s' ∧
    cstr (rt_mem s') wbuf = [97; 98; 99; 100] ∧ byte_label (Zi:=Ref.z3) s' (wbuf + 3) = 2.
Proof.
  destruct (dfsw_strcat_appends (Zi:=Ref.z3) str_rt wbuf (wbuf + 16) 0)
    as (s' & Hr & Hc & _ & Hl & _); [app_range_tac|app_range_tac|right; by vm_compute|].
  exists s'. split; [exact Hr|]. split; [rewrite Hc; by vm_compute|].
  assert (byte_label (Zi:=Ref.z3) s' (wbuf + strlen (rt_mem str_rt) wbuf + 1) =
    byte_label (Zi:=Ref.z3) str_rt (wbuf + 16 + 1)) as H by (apply Hl; split; by vm_compute).
  exact H.
Defined.

Lemma dfsw_strcpy_copies_witness :
  ∃ s', dfsw_strcpy (Zi:=Ref.z3) (wbuf + 8) (wbuf + 16) 0 str_rt = Ret (wbuf + 8, 0) s' ∧
    cstr (rt_mem s') (wbuf + 8) = [99; 100].
Proof.
  destruct (dfsw_strcpy_copies (Zi:=Ref.z3) str_rt (wbuf + 8) (wbuf + 16) 0) as (s' & Hr & Hc & _);
    [app_range_tac|app_range_tac|left; by vm_compute|].
  exists s'. split; [exact Hr|]. rewrite Hc. by vm_compute.
Defined.

Lemma dfsw_strncpy_pads_witness :
  ∃ s', dfsw_strncpy (Zi:=Ref.z3) wbuf (wbuf + 16) 5 0 str_rt = Ret (wbuf, 0) s' ∧
    byte_label (Zi:=Ref.z3) s' (wbuf + 1) = 2 ∧
    peek (rt_mem s') (wbuf + 4) = 0 ∧ byte_label (Zi:=Ref.z3) s' (wbuf + 4) = 0.
Proof.
  destruct (dfsw_strncpy_pads (Zi:=Ref.z3) str_rt wbuf (wbuf + 16) 5 0) as (s' & Hr & Hc & Hp);
    [lia|app_range_tac|app_range_tac|left; by vm_compute|].
  exists s'. split; [exact Hr|]. split.
  - assert (0 ≤ 1 < Z.min 5 (strlen (rt_mem str_rt) (wbuf + 16) + 1)) as H1 by (split; by vm_compute).
    destruct (Hc 1 H1) as [_ H]. exact H.
  - apply Hp. split; by vm_compute.
Defined.

Lemma dfsw_read_labels_witness :
  ∃ s', dfsw_read (Zi:=Ref.z3) 0 wbuf 2 0 (Sys 2 [(wbuf, [99; 100])]) str_rt = Ret (2, 0) s' ∧
    byte_label (Zi:=Ref.z3) s' wbuf = 1 ∧ byte_label (Zi:=Ref.z3) s' (wbuf + 1) = 2.
Proof.
  destruct (dfsw_read_labels (Zi:=Ref.z3) (Ops:=llvm7) 0 wbuf 2 0 [99; 100] str_rt)
    as (s' & Hr & Hl & _); [apply str_rt_wf|apply str_rt_open|app_range_tac|lia|by vm_compute|].
  exists s'. split; [exact Hr|]. split.
  - destruct (Hl 0%nat 99 eq_refl) as (_ & H & _). exact H.
  - destruct (Hl 1%nat 100 eq_refl) as (_ & H & _). exact H.
Defined.

Lemma dfsw_read_clears_witness :
  ∃ s', dfsw_read (Zi:=Ref.z3) 5 (wbuf + 16) 2 0 (Sys 2 [(wbuf + 16, [1; 2])]) str_rt = Ret (2, 0) s' ∧
    byte_label (Zi:=Ref.z3) s' (wbuf + 17) = 0.
Proof.
  destruct (dfsw_read_clears (Zi:=Ref.z3) 5 (wbuf + 16) 2 0 [1; 2] str_rt)
    as (s' & Hr & Hl & _); [discriminate|app_range_tac|].
  exists s'. split; [exact Hr|]. destruct (Hl 1%nat 2 eq_refl) as [_ H]. exact H.
Defined.

Lemma dfsw_fgetc_denotes_witness :
  wpd (dfsw_fgetc (Zi:=Ref.z3) 0 1 (Sys 100 []))
    (λ r s', r.1 = 100 ∧ ∀ inp, sden s' inp r.2 = Some (VBV 32 (u8 (in_byte inp 1)))) str_rt.
Proof.
  eapply wpd_mono; [apply (dfsw_fgetc_denotes (Zi:=Ref.z3) (Ops:=llvm7) 0 1 100 str_rt)|].
  - apply str_rt_wf.
  - apply str_rt_open.
  - discriminate.
  - split; by vm_compute.
  - intros r s' (H1 & _ & _ & H2). split; [exact H1|exact H2].
Defined.

Lemma dfsw_getline_eof_witness :
  ∃ s', dfsw_getline (Zi:=Ref.z3) wbuf 0 2 (Sys (-1) []) str_rt = Ret (-1, 0) s' ∧
    byte_label (Zi:=Ref.z3) s' (load64 (rt_mem str_rt) wbuf - 1) = 0.
Proof. apply (dfsw_getline_eof (Zi:=Ref.z3) str_rt wbuf 0 2). apply str_rt_open. Defined.

(** Comparing the input bytes at [wbuf + 16] with ["ab"]. *)
Definition in_bytes (k : Z) (inp : input) : Z := u8 (in_byte inp k).
Lemma dfsw_memcmp_denotes_witness :
  wpd (dfsw_memcmp (Zi:=Ref.z3) (wbuf + 16) wbuf 2)
    (λ r s', r.1 = 1 ∧
       sden s' (Input (λ k, if k =? 0 then 99 else 100) 2) r.2 = Some (VBV 32 1)) str_rt.
Proof.
  assert (rt_wf (Zi:=Ref.z3) str_rt) as Hwf by apply str_rt_wf.
  eapply wpd_mono;
    [apply (dfsw_memcmp_denotes (Zi:=Ref.z3) (Ops:=llvm7) str_rt (wbuf + 16) wbuf 2 in_bytes)|].
  - exact Hwf.
  - lia.
  - discriminate.
  - split; by vm_compute.
  - intros a. unfold str_rt. cbn [rt_of rt_mem]. unfold str_mem.
    rewrite (peek_store_bytes _ (wbuf + 16)). destruct (decide (wbuf + 16 ≤ a < _)) as [Ha|Ha].
    + assert (a = wbuf + 16 ∨ a = wbuf + 17 ∨ a = wbuf + 18) as [->|[->| ->]]
        by (cbn [length] in *; lia); split; by vm_compute.
    + rewrite peek_store_bytes. destruct (decide (wbuf ≤ a < _)) as [Hb|Hb].
      * assert (a = wbuf ∨ a = wbuf + 1 ∨ a = wbuf + 2) as [->|[->| ->]]
          by (cbn [length] in *; lia); split; by vm_compute.
      * unfold peek. rewrite lookup_empty. split; by vm_compute.
  - intros k Hk. assert (k = 0 ∨ k = 1) as [-> | ->] by lia; right.
    + split; [by vm_compute|]. split; [by vm_compute|]. intros inp.
      rewrite (sden_key (Zi:=Ref.z3) str_rt _ (input_record 0)); [by vm_compute|exact Hwf|by vm_compute|by vm_compute].
    + split; [by vm_compute|]. split; [by vm_compute|]. intros inp.
      rewrite (sden_key (Zi:=Ref.z3) str_rt _ (input_record 1)); [by vm_compute|exact Hwf|by vm_compute|by vm_compute].
  - intros k Hk. assert (k = 0 ∨ k = 1) as [-> | ->] by lia; by vm_compute.
  - discriminate.
  - intros _ k Hk _. assert (k = 1) as -> by lia. split; [discriminate|by vm_compute].
  - discriminate.
  - intros [r l] s' (H1 & _ & H3). split; [rewrite H1; by vm_compute|].
    cbn [fst snd] in *. rewrite H3.
    + rewrite H1. by vm_compute.
    + intros k Hk. assert (k = 0 ∨ k = 1) as [-> | ->] by lia; by vm_compute.
Defined.
