(* ===== verification/Invariant.v ===== *)
(** * The invariant of the running program

    Every label in the shadow is the constant label or a recorded label; the
    label store is well formed; and the bytes of an input file have labels. One
    more label can be in the shadow, the initializing label [-1], and only if the
    program maps the input file past its end ([__dfsw_mmap] stores it there): the
    proposition [map_past] says whether the program does, and every lemma holds
    for either answer. [safe m Q s] says that an operation run from a state with
    the invariant keeps it on every outcome that does not end the process, keeps
    the recorded labels, and returns a result with [Q]. *)
From S2P Require Import Prelude Platform Labels UnionTable Union Z3 State Denote Shadow ShadowSpec Files Serialize Solver FlagParser Init Libc CustomStr CustomFile CustomSys Printf.

(** Whether the program maps the input file past its end. *)
Class MapPast := map_past : Prop.

Section invariant.
Context {Zi : Z3} {Pe : MapPast}.

Definition valid (s : rt) (l : Z) : Prop :=
  0 ≤ l ≤ last_label (rt_labels s) ∨ map_past ∧ l = kInitializingLabel.
Record rt_inv (s : rt) : Prop := {
  inv_wf : rt_wf s;
  inv_shadow a : valid s (peek (rt_shadow s) a);
  inv_source : tf_is_stdin (rt_tainted s) = 0 → tf_size (rt_tainted s) ≤ last_label (rt_labels s);
}.

(** Recorded labels stay, and the source keeps its size and kind. *)
Definition later (s s' : rt) : Prop :=
  rt_kept s s' ∧ tf_is_stdin (rt_tainted s') = tf_is_stdin (rt_tainted s) ∧
  tf_size (rt_tainted s') = tf_size (rt_tainted s).
#[export] Instance later_preorder : PreOrder later.
Proof.
  split; [by intros s|]. intros a b c (H1 & H2 & H3) (K1 & K2 & K3).
  split_and!; [by etrans|congruence..].
Qed.

Definition safe {A} (m : M rt A) (Q : A → rt → Prop) (s : rt) : Prop :=
  match m s with
  | Ret a s' => rt_inv s' ∧ later s s' ∧ Q a s'
  | Throw _ s' => rt_inv s' ∧ later s s'
  | Halt _ _ => True
  end.

Lemma valid_kept s s' l : later s s' → valid s l → valid s' l.
Proof. intros ([H _] & _) [?|?]; [left; lia|by right]. Qed.
Lemma valid_zero s : rt_inv s → valid s 0.
Proof. intros [[m Hm] _ _]. left. pose proof (last_bound _ _ Hm). lia. Qed.
Lemma valid_init s : map_past → valid s kInitializingLabel.
Proof. by right. Qed.
Lemma valid_info s l : rt_inv s → l ≤ last_label (rt_labels s) → 0 ≤ l → valid s l.
Proof. intros _ ? ?. left. lia. Qed.

(** ** Rules *)
Lemma safe_ret {A} (a : A) (Q : A → rt → Prop) s : rt_inv s → Q a s → safe (mret a) Q s.
Proof. intros H HQ. split_and!; [done|done|done]. Qed.
Lemma safe_bind {A B} (m : M rt A) (f : A → M rt B) R Q s :
  safe m R s → (∀ a s', rt_inv s' → later s s' → R a s' → safe (f a) Q s') → safe (m ≫= f) Q s.
Proof.
  unfold safe, mbind, M_bind. intros Hm Hf. destruct (m s) as [a s1|e s1|h s1]; [|done|done].
  destruct Hm as (Hi & Hk & HR). specialize (Hf a s1 Hi Hk HR).
  destruct (f a s1) as [b s2|e s2|h s2]; [|destruct Hf|done].
  - destruct Hf as (? & ? & ?). split_and!; [done|by etrans|done].
  - split; [done|by etrans].
Qed.
Lemma safe_ret_bind {A B} (a : A) (f : A → M rt B) Q s : safe (f a) Q s → safe (mret a ≫= f) Q s.
Proof. intros H. exact H. Qed.
Lemma safe_mono {A} (m : M rt A) (Q Q' : A → rt → Prop) s :
  safe m Q s → (∀ a s', rt_inv s' → later s s' → Q a s' → Q' a s') → safe m Q' s.
Proof.
  unfold safe. intros Hm HQ. destruct (m s); [|done|done]. destruct Hm as (? & ? & ?).
  split_and!; [done|done|by apply HQ].
Qed.
Lemma safe_gets {A} (f : rt → A) s : rt_inv s → safe (gets f) (λ a s', a = f s ∧ s' = s) s.
Proof. intros H. split_and!; done. Qed.
Lemma safe_halt {A} (h : halt) (Q : A → rt → Prop) s : safe (λ s, Halt h s) Q s.
Proof. done. Qed.
Lemma safe_throw {A} e (Q : A → rt → Prop) s : rt_inv s → safe (throw e) Q s.
Proof. intros H. split; [done|done]. Qed.
Lemma safe_assert c b s : rt_inv s → safe (assert_ c b) (λ _ s', s' = s) s.
Proof. intros H. unfold safe, assert_. destruct b; [|done]. split_and!; done. Qed.
Lemma safe_for_each {A} (l : list A) (f : A → M rt ()) (P : rt → Prop) s :
  rt_inv s → P s → (∀ s s', later s s' → P s → P s') →
  (∀ x s', x ∈ l → rt_inv s' → later s s' → P s' → safe (f x) (λ _ _, True) s') →
  safe (for_each l f) (λ _ _, True) s.
Proof.
  intros Hi HP Hmono. revert s Hi HP. induction l as [|x l IH]; intros s Hi HP Hf; cbn [for_each].
  { by apply safe_ret. }
  eapply safe_bind; [apply Hf; [set_solver|done|done|done]|].
  intros _ s1 Hi1 Hk1 _. apply IH; [done|by eapply Hmono|].
  intros y s2 Hy Hi2 Hk2 HP2. apply Hf; [set_solver|done|by etrans|done].
Qed.

(** A state change that leaves the label store and the source alone and
    keeps the shadow valid. *)
Lemma inv_same s s' :
  rt_inv s → rt_labels s' = rt_labels s → rt_tainted s' = rt_tainted s →
  (∀ a, valid s (peek (rt_shadow s') a)) → rt_inv s' ∧ later s s'.
Proof.
  intros [Hw Hs Hf] Hl Ht Hv. split; [split|].
  - unfold rt_wf. by rewrite Hl.
  - intros a. unfold valid. rewrite Hl. apply Hv.
  - by rewrite Ht, Hl.
  - unfold later, rt_kept. by rewrite Hl, Ht.
Qed.
Lemma safe_modify f s :
  rt_inv s → rt_labels (f s) = rt_labels s → rt_tainted (f s) = rt_tainted s →
  (∀ a, valid s (peek (rt_shadow (f s)) a)) → safe (modify f) (λ _ _, True) s.
Proof.
  intros Hi Hl Ht Hv. destruct (inv_same s (f s) Hi Hl Ht Hv). split_and!; done.
Qed.
Lemma safe_tainted (f : taint_file → taint_file) s :
  rt_inv s → (∀ t, tf_is_stdin (f t) = tf_is_stdin t ∧ tf_size (f t) = tf_size t) →
  safe (upd_tainted f) (λ _ _, True) s.
Proof.
  intros [Hw Hs Hf] Ht. destruct (Ht (rt_tainted s)) as [H1 H2]. split_and!; [split|split|done].
  - done.
  - done.
  - cbn [rt_tainted set_tainted rt_labels]. by rewrite H1, H2.
  - done.
  - done.
Qed.

(** ** Memory *)
Lemma safe_mem (f : gmap Z Z → gmap Z Z) s : rt_inv s → safe (upd_mem f) (λ _ _, True) s.
Proof. intros Hi. apply safe_modify; [done..|]. intros a. apply (inv_shadow _ Hi). Qed.
Lemma safe_host h s :
  rt_inv s → safe (host h) (λ a s', a = sys_ret h ∧ rt_tainted s' = rt_tainted s) s.
Proof.
  intros Hi. pose proof (safe_mem (λ m, foldl (λ m w, store_bytes m w.1 w.2) m (sys_writes h)) s Hi)
    as (? & ? & _). split_and!; done.
Qed.
Lemma safe_in_mem {A} (f : gmap Z Z → A) s : rt_inv s → safe (in_mem f) (λ _ s', s' = s) s.
Proof. intros Hi. eapply safe_mono; [by apply safe_gets|]. by intros ? ? ? ? [_ ->]. Qed.

(** ** Shadow *)
Lemma copy_valid (P : Z → Prop) stride m d s n :
  (∀ a, P (peek m a)) → ∀ a, P (peek (copy_fwd stride m d s n) a).
Proof.
  intros HP. unfold copy_fwd. generalize (range 0 n) as l. intros l. revert m HP.
  induction l as [|i l IH]; intros m HP a; cbn [foldl]; [done|].
  apply IH. intros b. rewrite peek_poke. by case_decide.
Qed.
Lemma safe_shadow_memcpy d src n s : rt_inv s → safe (shadow_memcpy d src n) (λ _ _, True) s.
Proof.
  intros Hi. apply safe_modify; [done..|]. apply copy_valid. apply (inv_shadow _ Hi).
Qed.
Lemma safe_shadow_put ls i l s :
  rt_inv s → valid s l → safe (shadow_put ls i l) (λ _ _, True) s.
Proof.
  intros Hi Hl. apply safe_modify; [done..|]. intros a. cbn [rt_shadow set_shadow].
  rewrite peek_poke. case_decide; [done|]. apply (inv_shadow _ Hi).
Qed.
Lemma safe_shadow_at ls i s : rt_inv s → safe (shadow_at ls i) (λ l s', valid s' l ∧ s' = s) s.
Proof.
  intros Hi. eapply safe_mono; [by apply safe_gets|]. intros ? ? ? ? [-> ->].
  split; [|done]. apply (inv_shadow _ Hi).
Qed.
Lemma safe_set_label l a n s :
  rt_inv s → valid s l → safe (dfsan_set_label l a n) (λ _ _, True) s.
Proof.
  intros Hi Hl. apply (safe_for_each _ _ (λ s, valid s l)); [done|done|exact (λ s s', valid_kept s s' l)|].
  intros i s' _ Hi' _ Hl'. eapply safe_bind; [by apply safe_shadow_at|].
  intros old s1 Hi1 _ [_ ->]. destruct (l =? old); [by apply safe_ret|by apply safe_shadow_put].
Qed.
Lemma safe_clear a n s : rt_inv s → safe (dfsan_set_label 0 a n) (λ _ _, True) s.
Proof. intros Hi. apply safe_set_label; [done|by apply valid_zero]. Qed.
End invariant.

Section labels_safe.
Context {Zi : Z3} {Ops : LlvmOps} {En : Env} {Pe : MapPast}.

(** ** The label store *)
Lemma safe_labels {A} (m : M (lstate expr) A) (Q : A → rt → Prop) s :
  rt_inv s →
  match m (rt_labels s) with
  | Ret a ls => wf_labels ls ∧ labels_kept (rt_labels s) ls ∧ Q a (set_labels ls s)
  | Throw _ _ => False
  | Halt _ _ => True
  end → safe (on_labels m) Q s.
Proof.
  intros [Hw Hs Hf] H. unfold safe, on_labels, zoom.
  destruct (m (rt_labels s)) as [a ls|e ls|h ls]; [|done|done]. destruct H as (Hwf & Hk & HQ).
  split_and!; [split|done|done].
  - done.
  - intros a'. apply (valid_kept s); [done|apply Hs].
  - intros H0. cbn [rt_tainted set_labels rt_labels] in *. destruct Hk as [Hk _].
    specialize (Hf H0). lia.
Qed.

(** A union is the initializing label only if an operand is. *)
Lemma safe_union_with l1 l2 op size op1 op2 s :
  rt_inv s → valid s l1 → (u32 l2 = kInitializingLabel → map_past) →
  safe (r_union l1 l2 op size op1 op2) (λ l s', valid s' l) s.
Proof.
  intros Hi H1 H2. apply safe_labels; [done|]. destruct (inv_wf _ Hi) as [m Hm].
  pose proof (taint_union_cases _ _ l1 l2 op size op1 op2 Hm) as H.
  destruct (taint_union _ _ _ _ _ _ _) as [l ls| |]; [|done|done].
  destruct H as (? & _ & ? & H). split_and!; [done|done|]. revert H.
  destruct (union_request _ _ _ _ _ _) as [l'|i] eqn:Hu; [|intros (_ & Hl & _); left; cbn; lia].
  intros [-> ->]. destruct (union_request_inl _ _ _ _ _ _ _ Hu) as [->|[-> Hin]].
  { pose proof (last_bound _ _ Hm). left. cbn. lia. }
  apply valid_init. destruct Hin as [Hin|Hin]; [|by apply H2].
  destruct H1 as [H1|[H1 _]]; [|done]. pose proof (last_bound _ _ Hm).
  exfalso. revert Hin. unfold u32. rewrite wrap_small by (unfold in_range; lia).
  change kInitializingLabel with (2 ^ 32 - 1). lia.
Qed.
Lemma valid_u32 s l : rt_inv s → valid s l → u32 l = kInitializingLabel → map_past.
Proof.
  intros Hi [Hl|[H _]]; [|done]. destruct (inv_wf _ Hi) as [m Hm]. pose proof (last_bound _ _ Hm).
  unfold u32. rewrite wrap_small by (unfold in_range; lia).
  change kInitializingLabel with (2 ^ 32 - 1). lia.
Qed.
Lemma safe_union l1 l2 op size op1 op2 s :
  rt_inv s → valid s l1 → valid s l2 →
  safe (r_union l1 l2 op size op1 op2) (λ l s', valid s' l) s.
Proof. intros Hi H1 H2. exact (safe_union_with l1 l2 op size op1 op2 s Hi H1 (valid_u32 s l2 Hi H2)). Qed.
Lemma safe_dfsan_union l1 l2 op size op1 op2 s :
  rt_inv s → valid s l1 → valid s l2 →
  safe (r_dfsan_union l1 l2 op size op1 op2) (λ l s', valid s' l) s.
Proof. exact (safe_union l1 l2 op (u8 size) op1 op2 s). Qed.
Lemma safe_create offset s :
  rt_inv s → safe (on_labels (dfsan_create_label offset)) (λ l s', valid s' l) s.
Proof.
  intros Hi. apply safe_labels; [done|]. destruct (inv_wf _ Hi) as [m Hm].
  pose proof (last_bound _ _ Hm). destruct (decide (label_addr (last_label (rt_labels s) + 1) < HashTableAddr)) as [Hr|Hr].
  - rewrite (create_label_run _ m) by done. split_and!.
    + exists m. by apply created_wf.
    + split; [simpl; lia|]. intros l Hl. by rewrite created_info, decide_False by lia.
    + left. simpl. lia.
  - by destruct (create_label_full _ m offset Hm Hr) as (? & ? & ->).
Qed.
Lemma safe_info l s :
  rt_inv s → valid s l →
  safe (r_info l) (λ i s', s' = s ∧ 0 ≤ l ≤ last_label (rt_labels s) ∧ i = info_at (rt_labels s) l) s.
Proof.
  intros Hi Hl. destruct (inv_wf _ Hi) as [m Hm]. apply safe_labels; [done|]. destruct Hl as [Hl|[_ ->]].
  - rewrite (get_label_info_wf _ m) by (done || lia). split_and!; [by exists m|done|by destruct s|lia|lia|done].
  - unfold get_label_info, mbind, M_bind, get.
    by assert ((HashTableAddr <=? label_addr kInitializingLabel) = true) as -> by (by vm_compute).
Qed.
(** The operands of a recorded label are recorded. *)
Lemma valid_operand s l :
  rt_inv s → 0 ≤ l ≤ last_label (rt_labels s) →
  valid s (li_l1 (info_at (rt_labels s) l)) ∧ valid s (li_l2 (info_at (rt_labels s) l)).
Proof.
  intros Hi Hl. destruct (inv_wf _ Hi) as [m Hm].
  destruct (operand_bounds _ _ l Hm ltac:(lia)) as [? ?].
  destruct (wf_range _ _ Hm l) as ([? _] & [? _] & _). split; left; lia.
Qed.

Lemma safe_get_label_for fd offset s :
  rt_inv s → (tf_is_stdin (rt_tainted s) = 0 → 0 ≤ offset < tf_size (rt_tainted s)) →
  safe (get_label_for fd offset) (λ l s', valid s' l) s.
Proof.
  intros Hi Hr. unfold get_label_for. eapply safe_bind; [by apply safe_gets|].
  intros st s1 _ _ [-> ->]. destruct (Z.eqb_spec (tf_is_stdin (rt_tainted s)) 0) as [H0|H0].
  - apply safe_ret; [done|]. specialize (Hr H0). pose proof (inv_source _ Hi H0).
    destruct (inv_wf _ Hi) as [m Hm]. pose proof (last_bound _ _ Hm).
    unfold u32, CONST_OFFSET. rewrite wrap_small by (unfold in_range; lia). left. lia.
  - by apply safe_create.
Qed.

(** ** Loads and stores *)

(** The label of byte [k] is recorded and its first operand is that of the input
    byte at [offset + k]. *)
Definition inputs_at (s : rt) (ls offset k : Z) : Prop :=
  0 ≤ peek (rt_shadow s) (slot ls k) ≤ last_label (rt_labels s) ∧
  li_op1 (info_at (rt_labels s) (peek (rt_shadow s) (slot ls k))) = u64 (offset + k).
Lemma safe_at ls i s :
  rt_inv s → safe (shadow_at ls i)
    (λ l s', valid s' l ∧ s' = s ∧ l = peek (rt_shadow s) (slot ls i)) s.
Proof.
  intros Hi. eapply safe_mono; [by apply safe_gets|]. intros ? ? ? ? [-> ->].
  split_and!; [apply (inv_shadow _ Hi)|done|done].
Qed.
Lemma safe_shape_loop fuel ls n offset i s :
  rt_inv s → safe (shape_loop fuel ls n offset i)
    (λ r s', s' = s ∧
      match r with
      | inl l => valid s l
      | inr shape => shape = true → i ≤ n ∧ ∀ k, i ≤ k < n → inputs_at s ls offset k
      end) s.
Proof.
  intros Hi. revert i. induction fuel as [|fuel IH]; intros i; cbn [shape_loop];
    (destruct (Z.eqb_spec i n); [apply safe_ret; [done|split; [done|intros _; split; [lia|intros k Hk; lia]]]|]); [done|].
  eapply safe_bind; [by apply safe_at|]. intros l s1 _ _ (Hl & -> & Hat).
  destruct (Z.eqb_spec l kInitializingLabel) as [->|]; [by apply safe_ret|].
  eapply safe_bind; [by apply safe_info|]. intros info s1 _ _ (-> & Hb & ->).
  destruct (Z.eqb_spec (li_op1 (info_at (rt_labels s) l)) (u64 (offset + i))) as [Ho|]; cbn [negb];
    [|by apply safe_ret].
  eapply safe_mono; [apply IH|]. intros [l'|shape] s' _ _ [-> Hr]; (split; [done|]); [exact Hr|].
  intros Hs. destruct (Hr Hs) as [Hin Hr']. split; [lia|]. intros k Hk.
  destruct (decide (k = i)) as [->|]; [|apply Hr'; lia].
  unfold inputs_at. rewrite <-Hat. by split.
Qed.
(** A load that sees [n] labels with different offsets has that many labels. *)
Lemma shape_bound ls n offset s :
  rt_inv s → n < 2 ^ 64 → (∀ k, 1 ≤ k < n → inputs_at s ls offset k) → n ≤ last_label (rt_labels s) + 2.
Proof.
  intros Hi Hn Hk. destruct (inv_wf _ Hi) as [m Hm]. pose proof (last_bound _ _ Hm).
  destruct (decide (1 ≤ n)) as [H1n|]; [|lia].
  set (slot_label k := peek (rt_shadow s) (slot ls k)).
  assert (NoDup (slot_label <$> range 1 n)) as Hnd.
  { apply NoDup_fmap_2_strong; [|apply NoDup_seqZ].
    intros a b Ha%elem_of_range Hb%elem_of_range E. unfold slot_label in E.
    destruct (Hk a Ha) as [_ Ea], (Hk b Hb) as [_ Eb]. rewrite E, Eb in Ea.
    revert Ea. unfold u64, wrap. intros Ea.
    assert ((b - a) mod 2 ^ 64 = 0) as Hd.
    { replace (b - a) with ((offset + b) - (offset + a)) by lia. by rewrite Zminus_mod, Ea, Z.sub_diag. }
    apply Z.mod_divide in Hd as [q Hq]; [|lia]. nia. }
  assert (length (slot_label <$> range 1 n) ≤ length (range 0 (last_label (rt_labels s) + 1)))%nat as Hle.
  { apply submseteq_length, NoDup_submseteq; [exact Hnd|].
    intros x Hl. apply list_elem_of_fmap in Hl as (k & -> & Hkin%elem_of_range).
    apply elem_of_range. destruct (Hk k Hkin) as [Hb _]. unfold slot_label. lia. }
  unfold range in Hle. rewrite length_fmap, !length_seqZ in Hle. lia.
Qed.
(** So its size, the second operand of its label, is not taken for a label. *)
Lemma shape_size s ls n offset :
  rt_inv s → 1 ≤ n → (∀ k, 1 ≤ k < n → inputs_at s ls offset k) → u32 n = kInitializingLabel → map_past.
Proof.
  intros Hi Hn Hk Hu. exfalso. destruct (inv_wf _ Hi) as [m Hm].
  assert (last_label (rt_labels s) + 2 < 2 ^ 32 - 1).
  { destruct (wf_last _ _ Hm) as [_ Hr]. revert Hr. unfold label_addr. change sizeof_label_info with 56.
    change UnionTableAddr with 0x400000000000. change HashTableAddr with 0x400c00000000. lia. }
  assert (2 ^ 32 - 1 ≤ n) as Hle.
  { revert Hu. unfold u32, wrap. change kInitializingLabel with (2 ^ 32 - 1).
    intros Hu. pose proof (Z.mod_le n (2 ^ 32)). lia. }
  pose proof (shape_bound ls (2 ^ 32 - 1) offset s Hi ltac:(lia) ltac:(intros k ?; apply Hk; lia)). lia.
Qed.
Lemma safe_extract_loop fuel ls n parent offset i s :
  rt_inv s → safe (extract_loop fuel ls n parent offset i) (λ _ s', s' = s) s.
Proof.
  intros Hi. revert offset i. induction fuel as [|fuel IH]; intros offset i; cbn [extract_loop];
    (destruct (n <=? i); [by apply safe_ret|]); [done|].
  eapply safe_bind; [by apply safe_shadow_at|]. intros l s1 _ _ [Hl ->].
  eapply safe_bind; [by apply safe_info|]. intros info s1 _ _ [-> _].
  destruct (_ || _); [by apply safe_ret|apply IH].
Qed.
Lemma safe_concat_loop fuel ls n label i s :
  rt_inv s → valid s label → safe (concat_loop fuel ls n label i) (λ l s', valid s' l) s.
Proof.
  revert label i s. induction fuel as [|fuel IH]; intros label i s Hi Hl; cbn [concat_loop];
    (destruct (n <=? i); [by apply safe_ret|]); [done|].
  eapply safe_bind; [by apply safe_shadow_at|]. intros nl s1 _ _ [Hnl ->].
  eapply safe_bind; [by apply safe_info|]. intros info s1 _ _ [-> _].
  pose proof (valid_zero _ Hi) as H0.
  destruct (negb _).
  - destruct (_ <=? _).
    + eapply safe_bind; [by apply safe_union|]. intros l2 s2 Hi2 _ Hl2. by apply IH.
    + eapply safe_bind; [by apply safe_union|]. intros l2 s2 Hi2 Hk2 Hl2.
      apply safe_union; [done|by apply (valid_kept s)|done].
  - eapply safe_bind; [by apply safe_gets|]. intros c s1 _ _ [_ ->].
    eapply safe_bind; [by apply safe_union|]. intros l2 s2 Hi2 _ Hl2. by apply IH.
Qed.

Lemma safe_load ls n s : rt_inv s → safe (taint_union_load ls n) (λ l s', valid s' l) s.
Proof.
  intros Hi. unfold taint_union_load. eapply safe_bind; [by apply safe_at|].
  intros l0 s0 _ _ (Hl0 & -> & Hat).
  destruct (Z.eqb_spec l0 kInitializingLabel) as [E|]; [rewrite <-E; by apply safe_ret|].
  apply (safe_bind _ _ (λ _ s', s' = s)).
  { destruct (_ <=? _); [|by apply safe_ret]. eapply safe_bind; [by apply safe_info|].
    intros info s1 _ _ [-> _]. by apply safe_assert. }
  intros _ s1 _ _ ->. apply (safe_bind _ _ (λ _ s', s' = s)).
  { destruct (is_constant_label l0); [|by apply safe_ret].
    eapply safe_mono; [by apply safe_gets|]. by intros ? ? _ _ [_ ->]. }
  intros c s1 _ _ ->. destruct c; [apply safe_ret; [done|by apply valid_zero]|].
  eapply safe_bind; [by apply safe_info|]. intros info s1 _ _ (-> & Hb0 & ->).
  set (i0 := info_at (rt_labels s) l0).
  apply (safe_bind _ _ (λ r s', s' = s ∧
    match r with
    | inl l => valid s l
    | inr shape => shape = true → 1 ≤ n ∧ ∀ k, 1 ≤ k < n → inputs_at s ls (li_op1 i0) k
    end)).
  { destruct (negb _); [by apply safe_ret|by apply safe_shape_loop]. }
  intros [early|[]] s1 _ _ [-> Hr].
  - by apply safe_ret.
  - destruct (n =? 1); [by apply safe_ret|]. apply safe_union_with; [done|done|].
    destruct (Hr eq_refl) as [Hn Hk]. by apply (shape_size s ls n (li_op1 i0)).
  - destruct (valid_operand s l0 Hi Hb0) as [Hp _].
    apply (safe_bind _ _ (λ f s', s' = s ∧ match f with Some l => valid s l | None => True end)).
    { destruct (_ =? op_Extract); [|by apply safe_ret].
      eapply safe_bind; [by apply safe_extract_loop|]. intros o s1 _ _ ->.
      eapply safe_bind; [by apply safe_info|]. intros i s1 _ _ [-> _].
      apply safe_ret; [done|]. by destruct (_ && _). }
    intros [p|] s1 _ _ [-> Hf]; [by apply safe_ret|by apply safe_concat_loop].
Qed.
Lemma safe_read_label a n s : rt_inv s → safe (dfsan_read_label a n) (λ l s', valid s' l) s.
Proof.
  intros Hi. unfold dfsan_read_label. destruct (n =? 0); [|by apply safe_load].
  apply safe_ret; [done|by apply valid_zero].
Qed.
Lemma safe_get_label a s : rt_inv s → safe (dfsan_get_label a) (λ l s', valid s' l ∧ s' = s) s.
Proof. exact (safe_shadow_at (shadow_for a) 0 s). Qed.

(** A store spreads the labels [l1 .. l1+n-1] of a load over the bytes: they
    must be recorded. *)
Definition store_ok (s : rt) (l n : Z) : Prop :=
  li_op (info_at (rt_labels s) l) = op_Load →
  li_l1 (info_at (rt_labels s) l) + n ≤ last_label (rt_labels s) + 1.
Lemma safe_store l ls n s :
  rt_inv s → valid s l → store_ok s l n → safe (taint_union_store l ls n) (λ _ _, True) s.
Proof.
  intros Hi Hl Hok. unfold taint_union_store.
  assert (∀ s', rt_inv s' → later s s' →
    safe (for_each (range 0 n) (λ i, shadow_put ls i l)) (λ _ _, True) s') as Hall.
  { intros s' Hi' Hk. apply (safe_for_each _ _ (λ s, valid s l));
      [done|by eapply valid_kept|exact (λ s s', valid_kept s s' l)|].
    intros i s1 _ Hi1 _ Hl1. by apply safe_shadow_put. }
  destruct (l =? kInitializingLabel); [by apply Hall|].
  eapply safe_bind; [by apply safe_gets|]. intros h s1 _ _ [-> ->].
  eapply safe_bind; [by apply safe_assert|]. intros _ s1 _ _ ->.
  destruct (l =? 0); [by apply Hall|].
  eapply safe_bind; [by apply safe_info|]. intros info s1 _ _ (-> & Hb & ->).
  destruct (_ && _); [by apply safe_shadow_put|].
  destruct (Z.eqb_spec (li_op (info_at (rt_labels s) l)) op_Load) as [Hop|Hop].
  - destruct (valid_operand s l Hi Hb) as [Hp _]. specialize (Hok Hop).
    destruct (inv_wf _ Hi) as [m Hm]. pose proof (last_bound _ _ Hm).
    destruct (wf_range _ _ Hm l) as ([? _] & _).
    apply (safe_for_each _ _ (λ _, True)); [done|done|done|].
    intros i s1 Hin%elem_of_range Hi1 [[Hk1 _] _] _. apply safe_shadow_put; [done|].
    left. unfold u32. rewrite wrap_small by (unfold in_range; lia). lia.
  - apply (safe_for_each _ _ (λ s, valid s l)); [done|done|exact (λ s s', valid_kept s s' l)|].
    intros i s1 _ Hi1 _ Hl1. pose proof (valid_zero _ Hi1).
    eapply safe_bind; [by apply safe_union|]. intros x s2 Hi2 _ Hx. by apply safe_shadow_put.
Qed.
Lemma safe_add_label label op a n s :
  rt_inv s → valid s label → safe (dfsan_add_label label op a n) (λ _ _, True) s.
Proof.
  intros Hi Hl. apply (safe_for_each _ _ (λ s, valid s label)); [done|done|exact (λ s s', valid_kept s s' label)|].
  intros i s1 _ Hi1 _ Hl1. eapply safe_bind; [by apply safe_shadow_at|]. intros old s2 _ _ [Hold ->].
  eapply safe_bind; [by apply safe_union|]. intros x s2 Hi2 _ Hx. by apply safe_shadow_put.
Qed.
End labels_safe.

(** ** Solving branches

    The solver's operations change caches and flags of recorded labels, the
    branch dependencies, the solver and the files; [settled s0] is kept by all of
    them. *)
Section solver_safe.
Context {Zi : Z3} {Ops : LlvmOps} {Pe : MapPast}.

Definition settled (s0 s : rt) : Prop :=
  rt_wf s ∧ rt_kept s0 s ∧ last_label (rt_labels s) = last_label (rt_labels s0) ∧
  rt_shadow s = rt_shadow s0 ∧ rt_tainted s = rt_tainted s0 ∧ rt_mem s = rt_mem s0.

Lemma settled_refl s : rt_wf s → settled s s.
Proof. by intros H. Qed.
Lemma settled_trans a b c : settled a b → settled b c → settled a c.
Proof.
  intros (_ & H1 & H2 & H3 & H4 & H5) (K0 & K1 & K2 & K3 & K4 & K5).
  split_and!; [done|by etrans|congruence..].
Qed.
Lemma settled_safe {A} (m : M rt A) s :
  rt_inv s → pres (settled s) m → safe m (λ _ _, True) s.
Proof.
  intros Hi Hp. specialize (Hp s (settled_refl s (inv_wf _ Hi))). unfold safe.
  assert (∀ s', settled s s' → rt_inv s' ∧ later s s') as Hq.
  { intros s' (Hw & Hk & Hl & Hs & Ht & _).
    assert (later s s') as Hlt by (split; [done|by rewrite Ht]). split; [split; [done| |]|done].
    - intros a. rewrite Hs. apply (valid_kept s); [done|apply (inv_shadow _ Hi)].
    - rewrite Ht, Hl. apply (inv_source _ Hi). }
  destruct (m s) as [a s'|e s'|h s']; [|by apply Hq|done]. destruct (Hq s' Hp). by split_and!.
Qed.

(** Steps that change neither labels, shadow nor source. *)
Lemma settled_modify s0 f :
  (∀ s, rt_labels (f s) = rt_labels s ∧ rt_shadow (f s) = rt_shadow s ∧
        rt_tainted (f s) = rt_tainted s ∧ rt_mem (f s) = rt_mem s) → pres (settled s0) (modify f).
Proof.
  intros Hf. apply pres_modify. intros s Hq. eapply settled_trans; [exact Hq|].
  destruct (Hf s) as (H1 & H2 & H3 & H4). destruct Hq as (Hw & _).
  split_and!; try done; unfold rt_wf, rt_kept; by rewrite ?H1.
Qed.
Lemma settled_os {A} s0 (m : M os A) : pres (settled s0) (on_os m).
Proof.
  apply (pres_zoom (λ _, True)); [|done|].
  - intros s _. by destruct (m s).
  - intros s o Hq _. eapply settled_trans; [exact Hq|]. destruct Hq as (Hw & _). by split_and!.
Qed.
Lemma settled_solver {A} s0 (m : M solver A) : pres (settled s0) (on_solver m).
Proof.
  apply (pres_zoom (λ _, True)); [|done|].
  - intros s _. by destruct (m s).
  - intros s o Hq _. eapply settled_trans; [exact Hq|]. destruct Hq as (Hw & _). by split_and!.
Qed.
Lemma settled_get_dep s0 n : pres (settled s0) (get_branch_dep n).
Proof.
  unfold get_branch_dep, resize_deps. apply pres_bind.
  - apply settled_modify. intros s. by destruct (_ && _).
  - intros _. pres_auto.
Qed.
Lemma settled_set_dep s0 n d : pres (settled s0) (set_branch_dep n d).
Proof.
  unfold set_branch_dep, resize_deps. apply pres_bind.
  - apply settled_modify. intros s. by destruct (_ && _).
  - intros _. apply pres_bind; [pres_auto|]. intros v. destruct (v !! _); [|pres_auto].
    by apply settled_modify.
Qed.
Hint Resolve settled_os settled_solver settled_get_dep settled_set_dep zmk_pres : rt.

Lemma settled_record s0 inputs mk off :
  pres (settled s0) mk → pres (settled s0) (record_dep inputs mk off).
Proof.
  intros Hmk. unfold record_dep. apply pres_bind; [auto with rt|]. intros c.
  apply pres_bind; [destruct c; [pres_auto|]|].
  - apply pres_bind; [auto with rt|]. intros _. pres_auto.
  - intros c'. apply pres_bind; [auto with rt|]. intros _.
    apply pres_bind; [done|]. intros e. auto with rt.
Qed.
Lemma settled_closure s0 fuel wl inputs : pres (settled s0) (closure_loop fuel wl inputs).
Proof.
  revert wl inputs. induction fuel as [|fuel IH]; intros [|off wl] inputs; cbn [closure_loop];
    pres_auto.
Qed.

(** Changing caches or flags of a record. *)
Lemma settled_flag s0 l (f : dfsan_label_info expr → dfsan_label_info expr) :
  (∀ i, key_of (f i) = key_of i) → 0 ≤ l ≤ last_label (rt_labels s0) →
  pres (settled s0) (update_info l f).
Proof.
  intros Hf Hl s Hq. unfold update_info, on_labels, zoom, modify.
  eapply settled_trans; [exact Hq|]. destruct Hq as ([m Hm] & _ & Hlast & _).
  split_and!; [|split|done|done|done|done].
  - exists m. apply wf_update; [done|lia|apply Hf].
  - done.
  - intros k _. cbn [rt_labels set_labels]. rewrite info_at_set. case_decide; [|done]. subst. apply Hf.
Qed.
Lemma settled_serialize s0 l d :
  l ≤ last_label (rt_labels s0) → pres (settled s0) (serialize l d).
Proof.
  intros Hl s Hq. pose proof Hq as ([m Hm] & _ & Hlast & _).
  pose proof (serialize_frame s m (S (Z.to_nat l)) l d ltac:(lia) s) as H.
  assert (∀ s', caches_from s m s' → settled s0 s') as Hc.
  { intros s' [Hw Ho]. eapply settled_trans; [exact Hq|].
    split_and!; [by exists m|by apply only_caches_kept|apply Ho|by rewrite (proj1 Ho)..]. }
  assert (caches_from s m s) as H0 by (split; [done|reflexivity]).
  unfold serialize. specialize (H H0). destruct (serialize_fuel _ _ _ s); auto.
Qed.

Lemma settled_flipped s0 l : pres (settled s0) (is_flipped l).
Proof. unfold is_flipped. apply pres_bind; [apply r_info_pres|]. intros i. pres_auto. Qed.
Lemma settled_mark s0 l :
  0 ≤ l ≤ last_label (rt_labels s0) → pres (settled s0) (mark_flipped l).
Proof.
  intros Hl. unfold mark_flipped. apply pres_bind; [apply r_info_pres|]. intros i.
  by apply settled_flag.
Qed.
Lemma settled_write s0 fd c : pres (settled s0) (write_const fd c).
Proof.
  unfold write_const. destruct c as [[k|n] v].
  - destruct (_ || _); [pres_auto|]. apply pres_bind; [apply settled_os|]. intros _.
    apply pres_bind; [apply settled_os|]. intros _. pres_auto.
  - destruct (decide _); [|pres_auto]. destruct (_ || _); [pres_auto|].
    apply pres_bind; [pres_auto|]. intros tf. apply pres_bind; [|intros _; pres_auto].
    destruct (_ <? _); [|apply settled_os]. apply pres_bind; [apply settled_os|]. intros _.
    apply pres_bind; [apply settled_os|]. intros _. pres_auto.
Qed.
Lemma settled_generate s0 mo : pres (settled s0) (generate_input mo).
Proof.
  unfold generate_input, next_index. apply pres_bind.
  { apply pres_bind; [pres_auto|]. intros o. apply pres_bind; [by apply settled_modify|]. intros _. pres_auto. }
  intros i. apply pres_bind; [pres_auto|]. intros o. apply pres_bind; [apply settled_os|]. intros fd.
  destruct (_ =? _); [pres_auto|]. apply pres_bind; [pres_auto|]. intros tf. apply pres_bind.
  { destruct (_ =? _); [|pres_auto]. apply pres_bind; [apply settled_os|]. intros ok. pres_auto. }
  intros _. apply pres_bind; [|intros _; apply settled_os].
  apply pres_for_each. intros x _. apply settled_write.
Qed.
Lemma settled_assert_deps s0 offs added : pres (settled s0) (assert_deps offs added).
Proof.
  revert added. induction offs as [|off offs IH]; intros added; cbn [assert_deps]; [pres_auto|].
  apply pres_bind; [auto with rt|]. intros deps. apply pres_bind; [|intros; apply IH].
  destruct deps as [d|]; [|pres_auto]. generalize (expr_deps d) as es. intros es. revert added.
  induction es as [|e es IH']; intros added; cbn [assert_exprs]; [pres_auto|].
  destruct (expr_mem e added); [apply IH'|]. apply pres_bind; [auto with rt|]. intros _. apply IH'.
Qed.
Lemma settled_solve s0 cond result inputs : pres (settled s0) (solve cond result inputs).
Proof.
  unfold solve. repeat (apply pres_bind; [auto with rt|intros ?]).
  match goal with |- pres _ match ?r with _ => _ end => destruct r end; [|pres_auto..].
  apply pres_bind; [auto with rt|]. intros _. apply pres_bind; [apply settled_assert_deps|].
  intros added. apply pres_bind; [auto with rt|]. intros []; apply settled_generate.
Qed.

(** [__solve_cond] on a recorded label. *)
Lemma settled_solve_body s0 l result nested :
  0 ≤ l ≤ last_label (rt_labels s0) →
  pres (settled s0)
    (catch
      ('(cond, inputs) ← serialize l ∅;
       inputs ← input_closure inputs;
       solve cond result inputs ;;
       (if nested : bool then
          for_each (elements inputs) (record_dep inputs (zmk ZEq [cond; result]))
        else mret ()) ;;
       mark_flipped l)
      (λ _, mret ())).
Proof.
  intros Hb.
  apply pres_catch; [|intros e; pres_auto].
  apply pres_bind; [apply settled_serialize; lia|]. intros [cond inputs].
  apply pres_bind; [unfold input_closure; apply pres_bind; [pres_auto|intros ?; apply settled_closure]|].
  intros inputs'. apply pres_bind; [apply settled_solve|]. intros _.
  apply pres_bind; [|intros _; by apply settled_mark].
  destruct nested; [|pres_auto]. apply pres_for_each. intros off _. apply settled_record, zmk_pres.
Qed.
Lemma settled_solve_cond s0 l result nested :
  0 ≤ l ≤ last_label (rt_labels s0) → pres (settled s0) (solve_cond l result nested).
Proof.
  intros Hl. unfold solve_cond. apply pres_bind; [apply settled_flipped|]. intros [].
  - pres_auto.
  - by apply settled_solve_body.
Qed.
Lemma settled_count s0 addr : pres (settled s0) (count_branch addr).
Proof.
  unfold count_branch. do 2 (apply pres_bind; [pres_auto|]; intros ?).
  case_match; [destruct (_ <? _); [|pres_auto]|];
    (apply pres_bind; [by apply settled_modify|]; intros _; pres_auto).
Qed.
Lemma settled_trace_cond s0 l r addr :
  0 ≤ l ≤ last_label (rt_labels s0) → pres (settled s0) (taint_trace_cond l r addr).
Proof.
  intros Hl. unfold taint_trace_cond. destruct (l =? 0); [pres_auto|].
  apply pres_bind; [apply settled_count|]. intros []; simpl; [|pres_auto].
  apply pres_bind; [apply zmk_pres|]. intros e. by apply settled_solve_cond.
Qed.

(** [add_constraints] and [__solve_cond] on a label: when the label's record can
    be read at all, it is a recorded label. *)
Lemma safe_flipped l s :
  rt_inv s → valid s l →
  safe (is_flipped l) (λ _ s', s' = s ∧ 0 ≤ l ≤ last_label (rt_labels s)) s.
Proof.
  intros Hi Hl. eapply safe_bind; [by apply safe_info|]. intros i s1 _ _ (-> & Hb & _).
  by apply safe_ret.
Qed.
Lemma safe_add_constraints l s :
  rt_inv s → valid s l → safe (add_constraints l) (λ _ _, True) s.
Proof.
  intros Hi Hl. eapply safe_bind; [by apply safe_flipped|]. intros f s1 _ _ [-> Hb].
  destruct f; [by apply safe_ret|]. apply settled_safe; [done|].
  apply pres_bind; [|intros _; by apply settled_mark]. apply pres_catch; [|intros e; pres_auto].
  apply pres_bind; [apply settled_serialize; lia|]. intros [cond inputs].
  apply pres_for_each. intros off _. apply settled_record. pres_auto.
Qed.
Lemma safe_solve_cond l result nested s :
  rt_inv s → valid s l → safe (solve_cond l result nested) (λ _ _, True) s.
Proof.
  intros Hi Hl. eapply safe_bind; [by apply safe_flipped|]. intros f s1 _ _ [-> Hb].
  destruct f; [by apply safe_ret|]. apply settled_safe; [done|]. by apply settled_solve_body.
Qed.

Lemma safe_count addr s : rt_inv s → safe (count_branch addr) (λ _ _, True) s.
Proof.
  intros Hi. apply settled_safe; [done|]. apply settled_count.
Qed.
Lemma safe_zmk o es s : rt_inv s → safe (zmk o es) (λ _ s', s' = s) s.
Proof.
  intros Hi. unfold zmk. destruct (z3_mk o es); [by apply safe_throw|by apply safe_ret].
Qed.
Lemma safe_trace_cmp op1 op2 size predicate c1 c2 addr s :
  rt_inv s → valid s op1 → valid s op2 →
  safe (taint_trace_cmp op1 op2 size predicate c1 c2 addr) (λ _ _, True) s.
Proof.
  intros Hi Hv1 Hv2. unfold taint_trace_cmp. destruct (_ && _); [by apply safe_ret|].
  eapply safe_bind; [by apply safe_count|]. intros go s1 Hi1 Hk1 _.
  destruct (negb go); [by apply safe_ret|].
  eapply safe_bind; [by apply safe_dfsan_union; [|apply (valid_kept s)..]|]. intros t s2 Hi2 _ Ht.
  do 2 (eapply safe_bind; [by apply safe_zmk|]; intros ? ? _ _ ->).
  apply (safe_bind _ _ (λ _ s', s' = s2)).
  { unfold get_cmd. repeat (case_match; [by apply safe_zmk|]). done. }
  intros r s3 _ _ ->. by apply safe_solve_cond.
Qed.
Lemma safe_trace_cond l r addr s :
  rt_inv s → valid s l → safe (taint_trace_cond l r addr) (λ _ _, True) s.
Proof.
  intros Hi Hl. unfold taint_trace_cond. destruct (l =? 0); [by apply safe_ret|].
  eapply safe_bind; [by apply safe_count|]. intros go s1 Hi1 Hk1 _.
  destruct (negb go); [by apply safe_ret|].
  eapply safe_bind; [by apply safe_zmk|]. intros e s2 _ _ ->.
  apply safe_solve_cond; [done|by eapply valid_kept].
Qed.
Lemma safe_trace_gep l r s : rt_inv s → valid s l → safe (taint_trace_gep l r) (λ _ _, True) s.
Proof.
  intros Hi Hl. unfold taint_trace_gep. destruct (l =? 0); [by apply safe_ret|].
  eapply safe_bind; [by apply safe_flipped|]. intros f s1 _ _ [-> _]. by apply safe_ret.
Qed.
End solver_safe.
