(* ===== verification/Calls.v ===== *)
(** * Every entry point keeps the invariant

    [wrapper ls P m] says that [m] is a call of a [__dfsw_] function of
    [dfsan_custom.cc] with some arguments, the labels [ls] among them, and some
    results of the host, made in a state where [P] holds. Every function of the
    file has a constructor. [P] is needed for three things: a read of an input
    file stays inside the file ([reads]; the labels of its bytes are numbers, not
    looked up); a mapping ends inside it unless the program is one that maps past
    the end ([maps_past], [map_past]); program code that a wrapper runs through a
    trampoline keeps the invariant. [step] adds the other entry points of the
    runtime: those the instrumentation calls, and the interface of [dfsan.cc] but
    for its queries ([dfsan_has_label], [dfsan_get_label_count],
    [dfsan_dump_labels]). [__taint_union_store] has a condition, that the labels it
    spreads over the bytes of a loaded value are recorded ([store_ok]). A step lets
    the program pass only labels it holds: the constant, a result of a call, or
    the label of a memory cell. Every state reached from start-up has the
    invariant. *)
From S2P Require Import Prelude Platform Labels UnionTable Union Z3 State Denote Shadow ShadowSpec Files Serialize Solver FlagParser Init Libc CustomStr CustomFile CustomSys Printf Invariant.

(** ** Automation *)
Ltac valid_tac :=
  first
    [ assumption
    | by apply valid_zero
    | match goal with H : later ?a ?b |- valid ?b _ => apply (valid_kept a b); [exact H|]; valid_tac end ].

(** A primitive operation in the head of a sequence. *)
Ltac safe_prim :=
  lazymatch goal with
  | |- safe (host _) _ _ => apply safe_host; assumption
  | |- safe (in_mem _) _ _ => apply safe_in_mem; assumption
  | |- safe (gets _) _ _ => apply safe_gets; assumption
  | |- safe (upd_mem _) _ _ => apply safe_mem; assumption
  | |- safe (shadow_memcpy _ _ _) _ _ => apply safe_shadow_memcpy; assumption
  | |- safe (dfsan_set_label 0 _ _) _ _ => apply safe_clear; assumption
  | |- safe (dfsan_set_label _ _ _) _ _ => apply safe_set_label; [assumption|valid_tac]
  | |- safe (dfsan_read_label _ _) _ _ => apply safe_read_label; assumption
  | |- safe (dfsan_get_label _) _ _ => apply safe_get_label; assumption
  | |- safe (r_dfsan_union _ _ _ _ _ _) _ _ => apply safe_dfsan_union; [assumption|valid_tac|valid_tac]
  | |- safe (on_labels (dfsan_create_label _)) _ _ => apply safe_create; assumption
  | |- safe (add_constraints _) _ _ => apply safe_add_constraints; [assumption|valid_tac]
  | |- safe (upd_tainted _) _ _ => apply safe_tainted; [assumption|done]
  | |- safe (assert_ _ _) _ _ => apply safe_assert; assumption
  end.

(** The bodies shared by several wrappers, added below. *)
Ltac safe_shared := fail.

(** Runs through a body: sequences, tests and results. *)
Ltac safe_go :=
  repeat lazymatch goal with
  | |- safe (mret _) _ _ => apply safe_ret; [assumption|cbn [fst snd]; first [exact I|valid_tac]]
  | |- safe (mret _ ≫= _) _ _ => apply safe_ret_bind
  | |- safe (_ ≫= _) _ _ =>
      first
        [ eapply safe_bind; [first [safe_prim|safe_shared]|intros ? ? ? ? ?; destruct_and?; subst]
        | apply (safe_bind _ _ (λ _ _, True)); [|intros ? ? ? ? _] ]
  | |- safe (if ?b then _ else _) _ _ => destruct b
  | |- safe (match ?x with _ => _ end) _ _ => destruct x
  | |- safe (let _ := _ in _) _ _ => cbv zeta
  | |- safe segv _ _ => exact I
  | |- safe (die _) _ _ => exact I
  | |- safe out_of_fuel _ _ => exact I
  | |- safe _ (λ _ _, True) _ => eapply safe_mono; [first [safe_prim|safe_shared]|intros; exact I]
  end.

Section calls.
Context {Zi : Z3} {Ops : LlvmOps} {En : Env} {Pe : MapPast}.
Local Abbreviation labelled_result := (λ (r : Z * Z) s', valid s' r.2).

(** ** Shared bodies *)
Lemma safe_memcpy d src n s : rt_inv s → safe (dfsan_memcpy d src n) (λ _ _, True) s.
Proof. intros Hi. unfold dfsan_memcpy, internal_memcpy. safe_go. Qed.
Lemma safe_memset p c l n s : rt_inv s → valid s l → safe (dfsan_memset p c l n) (λ _ _, True) s.
Proof. intros Hi Hl. unfold dfsan_memset, internal_memset. safe_go. Qed.
Lemma safe_compare s1 s2 n r s : rt_inv s → safe (compare_labels s1 s2 n r) labelled_result s.
Proof. intros Hi. unfold compare_labels. safe_go. Qed.

(** [n] bytes at [offset] are inside the source, when it is a file. *)
Definition within (s : rt) (offset n : Z) : Prop :=
  tf_is_stdin (rt_tainted s) = 0 → 0 ≤ offset ∧ offset + n ≤ tf_size (rt_tainted s).
Lemma within_later s s' o n : later s s' → within s o n → within s' o n.
Proof. intros (_ & H1 & H2) H. unfold within. by rewrite H1, H2. Qed.
Lemma safe_label_bytes fd offset buf n s :
  rt_inv s → within s offset n → safe (label_bytes fd offset buf n) (λ _ _, True) s.
Proof.
  intros Hi Hw. unfold label_bytes.
  apply (safe_for_each _ _ (λ s, within s offset n));
    [done|done|exact (λ s s', within_later s s' offset n)|].
  intros i s1 Hin%elem_of_range Hi1 _ Hw1.
  eapply safe_bind; [apply safe_get_label_for; [done|intros H0; specialize (Hw1 H0); lia]|].
  intros l s2 Hi2 _ Hl. by apply safe_set_label.
Qed.
Lemma safe_label_stat buf s : rt_inv s → safe (label_stat buf) (λ _ _, True) s.
Proof. intros Hi. unfold label_stat. safe_go. Qed.
Lemma safe_is_taint_file f s : rt_inv s → safe (is_taint_file f) (λ _ _, True) s.
Proof. intros Hi. unfold is_taint_file. safe_go. Qed.
Lemma safe_taint_set_file f fd s : rt_inv s → safe (taint_set_file f fd) (λ _ _, True) s.
Proof.
  intros Hi. unfold taint_set_file. eapply safe_bind; [safe_prim|]. intros t s1 _ _ [-> ->].
  destruct (String.eqb _ _); [|safe_go]. eapply safe_bind; [safe_prim|]. intros _ s1 Hi1 _ _.
  apply safe_modify; [done..|]. intros a. apply (inv_shadow _ Hi1).
Qed.
Lemma safe_taint_close_file fd s : rt_inv s → safe (taint_close_file fd) (λ _ _, True) s.
Proof. intros Hi. unfold taint_close_file. safe_go. Qed.
(** The tests on the source after a host call. *)
Lemma safe_get_file fd s :
  rt_inv s → safe (taint_get_file fd)
    (λ n s', s' = s ∧ (n ≠ 0 → tf_fd (rt_tainted s) = fd)) s.
Proof.
  intros Hi. eapply safe_mono; [by apply safe_gets|]. intros n s' _ _ [-> ->]. split; [done|].
  by destruct (Z.eqb_spec (tf_fd (rt_tainted s)) fd).
Qed.
Lemma safe_stat_path path buf h s : rt_inv s → safe (stat_path path buf h) labelled_result s.
Proof.
  intros Hi. unfold stat_path, path_at. eapply safe_bind; [safe_prim|]. intros r s1 Hi1 _ _.
  apply (safe_bind _ _ (λ _ _, True)); [|intros; safe_go].
  destruct (r =? 0); [|safe_go]. eapply safe_bind; [safe_prim|]. intros p s2 Hi2 _ ->.
  eapply safe_bind; [by apply safe_is_taint_file|]. intros t s3 Hi3 _ _.
  destruct (negb _); [by apply safe_label_stat|safe_go].
Qed.
Lemma safe_stat_fd fd buf h s : rt_inv s → safe (stat_fd fd buf h) labelled_result s.
Proof.
  intros Hi. unfold stat_fd. eapply safe_bind; [safe_prim|]. intros r s1 Hi1 _ _.
  apply (safe_bind _ _ (λ _ _, True)); [|intros; safe_go].
  destruct (r =? 0); [|safe_go]. eapply safe_bind; [by apply safe_get_file|].
  intros n s2 Hi2 _ _. destruct (negb _); [by apply safe_label_stat|safe_go].
Qed.

(** ** Reads of the source

    [reads s fd offset n]: if [fd] is the source, [n] bytes at [offset] are
    inside it. *)
Definition reads (s : rt) (fd offset n : Z) : Prop :=
  tf_fd (rt_tainted s) = fd → within s offset n.
Lemma reads_same s s' fd o n :
  later s s' → rt_tainted s' = rt_tainted s → reads s fd o n → reads s' fd o n.
Proof.
  intros Hl Ht Hr Hfd. apply (within_later s); [done|]. apply Hr. by rewrite <- Ht.
Qed.

Lemma safe_read fd buf count offset h s :
  rt_inv s → reads s fd offset (sys_ret h) → safe (dfsw_read fd buf count offset h) labelled_result s.
Proof.
  intros Hi Hr. unfold dfsw_read. eapply safe_bind; [safe_prim|]. intros r s1 Hi1 Hl1 [-> Ht].
  apply (safe_bind _ _ (λ _ _, True)); [|intros; safe_go].
  destruct (0 <=? sys_ret h); [|safe_go]. eapply safe_bind; [by apply safe_get_file|].
  intros n s2 _ _ [-> Hn]. destruct (Z.eqb_spec n 0); cbn [negb]; [safe_go|].
  apply safe_label_bytes; [done|]. apply (reads_same s s1 fd); auto.
Qed.
Lemma safe_fread ptr size nmemb fd offset h s :
  rt_inv s → reads s fd offset (u64 (sys_ret h * size)) →
  safe (fread ptr size nmemb fd offset h) labelled_result s.
Proof.
  intros Hi Hr. unfold fread. eapply safe_bind; [by apply safe_get_file|]. intros n s0 _ _ [-> Hn].
  eapply safe_bind; [safe_prim|]. intros r s1 Hi1 Hl1 [-> Ht].
  apply (safe_bind _ _ (λ _ _, True)); [|intros; safe_go].
  destruct (negb _); [|safe_go]. destruct (Z.eqb_spec n 0); cbn [negb]; [safe_go|].
  apply safe_label_bytes; [done|]. apply (within_later s); [done|]. auto.
Qed.
Lemma safe_getdelim lineptr fd offset h s :
  rt_inv s → reads s fd offset (sys_ret h) → safe (getdelim lineptr fd offset h) labelled_result s.
Proof.
  intros Hi Hr. unfold getdelim. eapply safe_bind; [safe_prim|]. intros r s1 Hi1 Hl1 [-> Ht].
  apply (safe_bind _ _ (λ _ _, True)); [|intros; safe_go].
  destruct (negb _); [|safe_go]. eapply safe_bind; [by apply safe_get_file|].
  intros n s2 _ _ [-> Hn]. eapply safe_bind; [safe_prim|]. intros line s2 _ _ ->.
  destruct (Z.eqb_spec n 0); cbn [negb]; [safe_go|].
  apply (safe_bind _ _ (λ _ _, True)); [|intros; safe_go].
  apply safe_label_bytes; [done|]. apply (reads_same s s1 fd); auto.
Qed.
(** The string read has the length it has in memory after the call. *)
Definition mem_after (s : rt) (h : sys) : gmap Z Z :=
  foldl (λ m w, store_bytes m w.1 w.2) (rt_mem s) (sys_writes h).
Lemma safe_fgets p fd offset l h s :
  rt_inv s → valid s l → reads s fd offset (strlen (mem_after s h) (sys_ret h)) →
  safe (fgets p fd offset l h) labelled_result s.
Proof.
  intros Hi Hl Hr. unfold fgets.
  apply (safe_bind _ _ (λ a s', a = sys_ret h ∧ rt_tainted s' = rt_tainted s ∧ rt_mem s' = mem_after s h)).
  { pose proof (safe_host h s Hi) as (? & ? & ? & ?). by split_and!. }
  intros r s1 Hi1 Hl1 (-> & Ht & Hm). destruct (negb _); [|safe_go].
  eapply safe_bind; [by apply safe_get_file|]. intros n s2 _ _ [-> Hn].
  unfold in_mem. eapply safe_bind; [safe_prim|]. intros len s2 _ _ [-> ->]. rewrite Hm.
  apply (safe_bind _ _ (λ _ _, True)); [|intros; safe_go].
  destruct (Z.eqb_spec n 0); cbn [negb]; [safe_go|].
  apply (safe_bind _ _ (λ _ _, True)); [|intros; safe_go].
  apply safe_label_bytes; [done|]. apply (reads_same s s1 fd); auto.
Qed.
Lemma safe_getc fd offset h s :
  rt_inv s → reads s fd offset 1 → safe (getc_from fd offset h) labelled_result s.
Proof.
  intros Hi Hr. unfold getc_from, label_char. eapply safe_bind; [safe_prim|].
  intros r s1 Hi1 Hl1 [-> Ht]. eapply safe_bind; [by apply safe_get_file|]. intros n s2 _ _ [-> Hn].
  destruct (negb (sys_ret h =? EOF)); cbn [andb]; [|safe_go].
  destruct (Z.eqb_spec n 0); cbn [negb]; [safe_go|].
  assert (within s1 offset 1) as Hw by (apply (reads_same s s1 fd); auto).
  eapply safe_bind; [apply safe_get_label_for; [done|intros H0; specialize (Hw H0); lia]|].
  intros l s2 Hi2 _ Hl2. safe_go.
Qed.
Lemma safe_gets_wrapper str offset l h s :
  rt_inv s → valid s l → safe (dfsw_gets str offset l h) labelled_result s.
Proof.
  intros Hi Hl. unfold dfsw_gets. eapply safe_bind; [safe_prim|]. intros r s1 Hi1 Hl1 [-> Ht].
  eapply safe_bind; [by apply safe_get_file|]. intros n s2 _ _ [-> Hn]. destruct (_ && _); [|safe_go].
  eapply safe_bind; [safe_prim|]. intros len s2 _ _ ->.
  apply (safe_bind _ _ (λ _ _, True)); [|intros; safe_go].
  apply (safe_for_each _ _ (λ _, True)); [done|done|done|]. intros i s3 _ Hi3 _ _. safe_go.
Qed.
Lemma safe_getchar offset h s : rt_inv s → safe (dfsw_getchar offset h) labelled_result s.
Proof.
  intros Hi. unfold dfsw_getchar, label_char. eapply safe_bind; [safe_prim|]. intros r s1 Hi1 _ _.
  eapply safe_bind; [by apply safe_get_file|]. intros n s2 _ _ [-> _]. safe_go.
Qed.
Lemma safe_getutxent h s :
  rt_inv s → within s (tf_offset (rt_tainted s)) sizeof_utmpx →
  safe (dfsw_getutxent h) labelled_result s.
Proof.
  intros Hi Hw. unfold dfsw_getutxent, is_utmp_taint, get_utmp_offset, set_utmp_offset.
  eapply safe_bind; [safe_prim|]. intros r s1 Hi1 Hl1 [-> Ht].
  eapply safe_bind; [safe_prim|]. intros t s2 _ _ [-> ->].
  apply (safe_bind _ _ (λ _ _, True)); [|intros; safe_go]. destruct (_ && _); [|safe_go].
  eapply safe_bind; [safe_prim|]. intros o s2 _ _ [-> ->]. rewrite Ht.
  apply (safe_bind _ _ (λ _ _, True)); [|intros; safe_go].
  apply safe_label_bytes; [done|]. by apply (within_later s).
Qed.
Definition mmap_length (s : rt) (length offset : Z) : Z :=
  let fsize := tf_size (rt_tainted s) in
  if u64 fsize <? u64 (offset + length) then u64 (fsize - offset) else length.
(** The mapping of the source ends after the source. *)
Definition maps_past (s : rt) (length fd offset : Z) : Prop :=
  tf_fd (rt_tainted s) = fd ∧ tf_size (rt_tainted s) ≠ 0 ∧ mmap_length s length offset < length.
Lemma safe_mmap length fd offset h s :
  rt_inv s → reads s fd offset (mmap_length s length offset) → (maps_past s length fd offset → map_past) →
  safe (dfsw_mmap length fd offset h) labelled_result s.
Proof.
  intros Hi Hr Hp. unfold dfsw_mmap. eapply safe_bind; [safe_prim|]. intros r s1 Hi1 Hl1 [-> Ht].
  apply (safe_bind _ _ (λ _ _, True)); [|intros; safe_go]. destruct (negb _); [|safe_go].
  eapply safe_bind; [by apply safe_gets|]. intros n s2 _ _ [-> ->].
  destruct (Z.eqb_spec (tf_fd (rt_tainted s1)) fd) as [Hfd|]; [|cbn [negb Z.eqb]; safe_go].
  destruct (Z.eqb_spec (tf_size (rt_tainted s1)) 0) as [|Hz]; cbn [negb]; [safe_go|].
  rewrite Ht. fold (mmap_length s length offset).
  apply (safe_bind _ _ (λ _ _, True)).
  - apply safe_label_bytes; [done|]. apply (reads_same s s1 fd); auto.
  - intros _ s2 Hi2 _ _. apply (safe_for_each _ _ (λ _, True)); [done|done|done|].
    intros i s3 Hin%elem_of_range Hi3 _ _. apply safe_set_label; [done|]. apply valid_init, Hp.
    rewrite Ht in Hfd, Hz. split_and!; [done|done|lia].
Qed.
Lemma safe_constrain fd offset l s :
  rt_inv s → valid s l → safe (constrain_offset fd offset l) (λ _ _, True) s.
Proof.
  intros Hi Hl. unfold constrain_offset, taint_set_offset_label.
  eapply safe_bind; [by apply safe_get_file|]. intros n s1 _ _ [-> _]. safe_go.
Qed.
Lemma safe_fseek fd offset l h s :
  rt_inv s → valid s l → safe (fseek fd offset l h) labelled_result s.
Proof.
  intros Hi Hl. unfold fseek. eapply safe_bind; [safe_prim|]. intros r s1 Hi1 Hl1 [-> Ht].
  apply (safe_bind _ _ (λ _ _, True)); [|intros; safe_go]. destruct (_ =? 0); [|safe_go].
  apply safe_constrain; [done|valid_tac].
Qed.
Lemma safe_lseek fd offset l h s :
  rt_inv s → valid s l → safe (dfsw_lseek fd offset l h) labelled_result s.
Proof.
  intros Hi Hl. unfold dfsw_lseek. eapply safe_bind; [safe_prim|]. intros r s1 Hi1 Hl1 [-> Ht].
  destruct (negb _); [|safe_go].
  eapply safe_bind; [apply safe_constrain; [done|valid_tac]|]. intros _ s2 Hi2 Hl2 _. safe_go.
Qed.
Lemma safe_fopen f stream fd s : rt_inv s → safe (fopen f stream fd) labelled_result s.
Proof.
  intros Hi. unfold fopen, path_at. apply (safe_bind _ _ (λ _ _, True)); [|intros; safe_go].
  destruct (negb _); [|safe_go]. eapply safe_bind; [safe_prim|]. intros p s1 _ _ ->.
  by apply safe_taint_set_file.
Qed.
Lemma safe_open path h s : rt_inv s → safe (dfsw_open path h) labelled_result s.
Proof.
  intros Hi. unfold dfsw_open, path_at. eapply safe_bind; [safe_prim|]. intros fd s0 Hi0 _ _.
  apply (safe_bind _ _ (λ _ _, True)); [|intros; safe_go].
  destruct (negb _); [|safe_go]. eapply safe_bind; [safe_prim|]. intros p s1 _ _ ->.
  by apply safe_taint_set_file.
Qed.
Lemma safe_memmove d src n l s : rt_inv s → valid s l → safe (dfsw_memmove d src n l) labelled_result s.
Proof.
  intros Hi Hl. unfold dfsw_memmove. eapply safe_bind; [by apply safe_gets|].
  intros tmp s1 _ _ [-> ->]. apply (safe_bind _ _ (λ _ _, True)).
  { unfold internal_memmove. safe_go. }
  intros r s1 Hi1 Hl1 _. apply (safe_bind _ _ (λ _ _, True)); [|intros; safe_go].
  apply (safe_for_each _ _ (λ _, True)); [done|done|done|]. intros [i x] s2 Hin Hi2 Hl2 _.
  apply safe_shadow_put; [done|]. cbn [snd]. apply (valid_kept s1); [done|]. apply (valid_kept s); [done|].
  apply elem_of_zip_r in Hin. apply list_elem_of_fmap in Hin as (k & -> & _). apply (inv_shadow _ Hi).
Qed.

(** ** System functions, callbacks and printing *)
Lemma safe_poll fds n h s : rt_inv s → safe (dfsw_poll fds n h) labelled_result s.
Proof.
  intros Hi. unfold dfsw_poll. eapply safe_bind; [safe_prim|]. intros r s1 Hi1 _ _.
  apply (safe_bind _ _ (λ _ _, True)); [|intros; safe_go]. destruct (_ <=? _); [|safe_go].
  apply (safe_for_each _ _ (λ _, True)); [done|done|done|]. intros i s2 _ Hi2 _ _. safe_go.
Qed.
Lemma safe_dlopen x map s : rt_inv s → safe (dfsw_dlopen x map) labelled_result s.
Proof.
  intros Hi. unfold dfsw_dlopen, unpoison. apply (safe_bind _ _ (λ _ _, True)); [|intros; safe_go].
  destruct map as [[a regions]|]; [|safe_go]. destruct (negb _); [|safe_go].
  apply (safe_for_each _ _ (λ _, True)); [done|done|done|]. intros [p n] s2 _ Hi2 _ _. safe_go.
Qed.

(** Program code run through a trampoline keeps the invariant. *)
Definition phdr_safe (tramp : phdr_trampoline) : Prop :=
  ∀ c i z d s, rt_inv s → safe (tramp c i z d 0 0 0) (λ _ _, True) s.
Definition callback_safe (info : write_callback_info) : Prop :=
  ∀ tramp c fd b n l1 l2 l3 s, write_callback_trampoline info = Some tramp →
    rt_inv s → valid s l1 → valid s l2 → valid s l3 →
    safe (tramp c fd b n l1 l2 l3) (λ _ _, True) s.
Definition thread_safe (tramp : trampoline) : Prop :=
  ∀ f arg s, rt_inv s → safe (tramp f arg 0) (λ _ _, True) s.
(** What a created thread runs first. *)
Definition thread_start (pci : pthread_create_info) : M rt (Z * Z) :=
  ret ← pthread_create_cb pci; mret (ret, 0).
Lemma safe_thread_start pci s :
  thread_safe (start_routine_trampoline pci) → rt_inv s → safe (thread_start pci) labelled_result s.
Proof.
  intros Ht Hi. unfold thread_start. apply (safe_bind _ _ (λ _ _, True)); [|intros; safe_go].
  unfold pthread_create_cb. eapply safe_bind; [by apply Ht|]. intros [v l] s1 Hi1 _ _. safe_go.
Qed.
Lemma safe_dl_iterate tramp c d objs s :
  phdr_safe tramp → rt_inv s → safe (dl_iterate tramp c d objs) (λ _ _, True) s.
Proof.
  intros Ht. revert s. induction objs as [|o objs IH]; intros s Hi; cbn [dl_iterate]; [safe_go|].
  apply (safe_bind _ _ (λ _ _, True)).
  - unfold dl_iterate_phdr_cb, clear_string.
    repeat (eapply safe_bind; [safe_prim|intros ? ? ? ? ?]).
    apply (safe_bind _ _ (λ _ _, True)); [safe_go|]. intros _ s2 Hi2 _ _.
    apply (safe_bind _ _ (λ _ _, True)); [safe_go|]. intros _ s3 Hi3 _ _.
    eapply safe_bind; [by apply Ht|]. intros [] s4 Hi4 _ _. safe_go.
  - intros r s1 Hi1 _ _. destruct (negb _); [safe_go|by apply IH].
Qed.
Lemma safe_write info fd b c l1 l2 l3 h s :
  callback_safe info → rt_inv s → valid s l1 → valid s l2 → valid s l3 →
  safe (dfsw_write info fd b c l1 l2 l3 h) labelled_result s.
Proof.
  intros Hc Hi H1 H2 H3. unfold dfsw_write. apply (safe_bind _ _ (λ _ _, True)); [|intros; safe_go].
  destruct (negb _); [|safe_go]. destruct (write_callback_trampoline info) eqn:E; [|done].
  by apply (Hc _ _ _ _ _ _ _ _ _ E).
Qed.

Lemma safe_mbrtowc pwc p h s : rt_inv s → safe (dfsw_mbrtowc pwc p h) labelled_result s.
Proof.
  intros Hi. unfold dfsw_mbrtowc. eapply safe_bind; [safe_prim|]. intros r s1 Hi1 _ _.
  destruct (_ || _); [safe_go|]. destruct (negb _); [|safe_go].
  eapply safe_bind; [safe_prim|]. intros l s2 Hi2 _ _. exact I.
Qed.

Lemma safe_va_arg ap s : rt_inv s → safe (va_arg ap) (λ _ s', s' = s) s.
Proof. intros Hi. unfold va_arg. destruct ap; [done|by apply safe_ret]. Qed.
Lemma safe_format0 snp f s : rt_inv s → safe (format0 snp f) (λ _ _, True) s.
Proof. intros Hi. unfold format0. safe_go. Qed.
Lemma safe_format1 snp f a s : rt_inv s → safe (format1 snp f a) (λ _ _, True) s.
Proof. intros Hi. unfold format1. safe_go. Qed.
Lemma safe_directive snp fuel f ap s : rt_inv s → safe (directive snp fuel f ap) (λ _ _, True) s.
Proof.
  revert f ap s. induction fuel as [|fuel IH]; intros f ap s Hi; cbn [directive];
    (eapply safe_bind; [safe_prim|]; intros c s0 _ _ ->; destruct (c =? 0); [safe_go|]); [done|].
  eapply safe_bind; [safe_prim|]. intros c' s0 _ _ ->.
  repeat match goal with |- safe (if ?b then _ else _) _ _ => destruct b end.
  all: try by apply IH.
  all: try (eapply safe_bind; [by apply safe_va_arg|]; intros [v ap'] s0 _ _ ->).
  all: try by apply IH.
  all: safe_go.
  all: try by apply safe_format1.
  all: try by apply safe_format0.
Qed.
Lemma safe_format_chunk snp fuel f ap s :
  rt_inv s → safe (format_chunk snp fuel f ap) (λ _ _, True) s.
Proof.
  intros Hi. unfold format_chunk. eapply safe_bind; [safe_prim|]. intros c s0 _ _ ->.
  destruct (negb _); [|by apply safe_directive].
  eapply safe_bind; [safe_prim|]. intros e s0 _ _ ->. destruct e as [e|]; [|done].
  apply (safe_bind _ _ (λ _ _, True)); [by apply safe_format0|]. intros r s1 Hi1 _ _. safe_go.
Qed.
Lemma safe_format_loop snp fuel f ap s : rt_inv s → safe (format_loop snp fuel f ap) (λ _ _, True) s.
Proof.
  revert f ap s. induction fuel as [|fuel IH]; intros f ap s Hi; cbn [format_loop];
    (eapply safe_bind; [safe_prim|]; intros c s0 _ _ ->; destruct (c =? 0); [safe_go|]); [done|].
  eapply safe_bind; [by apply safe_format_chunk|]. intros [[f' ap'] r] s1 Hi1 _ _.
  destruct (r <? 0); [safe_go|by apply IH].
Qed.

End calls.

Ltac safe_shared ::=
  lazymatch goal with
  | |- safe (dfsan_memcpy _ _ _) _ _ => apply safe_memcpy; assumption
  | |- safe (dfsan_memset _ _ _ _) _ _ => apply safe_memset; [assumption|valid_tac]
  | |- safe (compare_labels _ _ _ _) _ _ => apply safe_compare; assumption
  | |- safe (is_taint_file _) _ _ => apply safe_is_taint_file; assumption
  | |- safe (taint_close_file _) _ _ => apply safe_taint_close_file; assumption
  | |- safe (dl_iterate _ _ _ _) _ _ => apply safe_dl_iterate; assumption
  | |- safe (format_buffer _ _ _ _ _ _) _ _ => apply safe_format_loop; assumption
  end.

Ltac head_of t := lazymatch t with ?f _ => head_of f | _ => t end.
(** A wrapper: the lemma for its body, or a run through the body. *)
Ltac wrapper_tac :=
  lazymatch goal with
  | |- safe (dfsw_memmove _ _ _ _) _ _ => apply safe_memmove; assumption
  | |- safe (dfsw_stat _ _ _) _ _ => apply safe_stat_path; assumption
  | |- safe (dfsw___xstat _ _ _ _) _ _ => apply safe_stat_path; assumption
  | |- safe (dfsw_lstat _ _ _) _ _ => apply safe_stat_path; assumption
  | |- safe (dfsw___lxstat _ _ _ _) _ _ => apply safe_stat_path; assumption
  | |- safe (dfsw_fstat _ _ _) _ _ => apply safe_stat_fd; assumption
  | |- safe (dfsw___fxstat _ _ _ _) _ _ => apply safe_stat_fd; assumption
  | |- safe (dfsw_read _ _ _ _ _) _ _ => apply safe_read; assumption
  | |- safe (dfsw_pread ?a ?b ?c ?d ?e) _ ?s => refine (safe_read a b c d e s _ _); assumption
  | |- safe (dfsw_fread _ _ _ _ _ _) _ _ => apply safe_fread; assumption
  | |- safe (dfsw_fread_unlocked _ _ _ _ _ _) _ _ => apply safe_fread; assumption
  | |- safe (dfsw_getline _ _ _ _) _ _ => apply safe_getdelim; assumption
  | |- safe (dfsw_getdelim _ _ _ _) _ _ => apply safe_getdelim; assumption
  | |- safe (dfsw___getdelim _ _ _ _) _ _ => apply safe_getdelim; assumption
  | |- safe (dfsw_fgets _ _ _ _ _ _) _ _ => apply safe_fgets; assumption
  | |- safe (dfsw_fgets_unlocked _ _ _ _ _ _) _ _ => apply safe_fgets; assumption
  | |- safe (dfsw_gets _ _ _ _) _ _ => apply safe_gets_wrapper; assumption
  | |- safe (dfsw_fgetc _ _ _) _ _ => apply safe_getc; assumption
  | |- safe (dfsw_getc _ _ _) _ _ => apply safe_getc; assumption
  | |- safe (dfsw_getc_unlocked _ _ _) _ _ => apply safe_getc; assumption
  | |- safe (dfsw__IO_getc _ _ _) _ _ => apply safe_getc; assumption
  | |- safe (dfsw_getchar _ _) _ _ => apply safe_getchar; assumption
  | |- safe (dfsw_open _ _) _ _ => apply safe_open; assumption
  | |- safe (dfsw_fopen _ _ _) _ _ => apply safe_fopen; assumption
  | |- safe (dfsw_fopen64 _ _ _) _ _ => apply safe_fopen; assumption
  | |- safe (dfsw_freopen _ _ _) _ _ => apply safe_fopen; assumption
  | |- safe (dfsw_getutxent _) _ _ => apply safe_getutxent; assumption
  | |- safe (dfsw_mmap _ _ _ _) _ _ => apply safe_mmap; assumption
  | |- safe (thread_start _) _ _ => apply safe_thread_start; assumption
  | |- safe (dfsw_lseek _ _ _ _) _ _ => apply safe_lseek; assumption
  | |- safe (dfsw_fseek _ _ _ _) _ _ => apply safe_fseek; assumption
  | |- safe (dfsw_fseeko _ _ _ _) _ _ => apply safe_fseek; assumption
  | |- safe (dfsw_fseeko64 _ _ _ _) _ _ => apply safe_fseek; assumption
  | |- safe (dfsw_mbrtowc _ _ _) _ _ => apply safe_mbrtowc; assumption
  | |- safe (dfsw_poll _ _ _) _ _ => apply safe_poll; assumption
  | |- safe (dfsw_dlopen _ _) _ _ => apply safe_dlopen; assumption
  | |- safe (dfsw_write _ _ _ _ _ _ _ _) _ _ => apply safe_write; assumption
  | |- safe (?m ≫= _) _ _ =>
      let h := head_of m in unfold h; unfold is_utmp_taint, set_utmp_offset; safe_go
  | |- safe ?m _ _ =>
      let h := head_of m in
      unfold h; unfold compare_labels, clear_if, clear_string, strto, host_strcpy, path_at, set_utmp_offset; safe_go
  end.

Section wrappers.
Context {Zi : Z3} {Ops : LlvmOps} {En : Env} {Pe : MapPast}.

(** ** The wrappers *)
Inductive wrapper : list Z → (rt → Prop) → M rt (Z * Z) → Prop :=
| w_strchr p c : wrapper [] (λ _, True) (dfsw_strchr p c)
| w_strcasecmp p q : wrapper [] (λ _, True) (dfsw_strcasecmp p q)
| w_strncasecmp p q n : wrapper [] (λ _, True) (dfsw_strncasecmp p q n)
| w_strlen p : wrapper [] (λ _, True) (dfsw_strlen p)
| w_memchr p c n : wrapper [] (λ _, True) (dfsw_memchr p c n)
| w_strrchr p c : wrapper [] (λ _, True) (dfsw_strrchr p c)
| w_strstr p q : wrapper [] (λ _, True) (dfsw_strstr p q)
| w_memcmp p q n : wrapper [] (λ _, True) (dfsw_memcmp p q n)
| w_strcmp p q : wrapper [] (λ _, True) (dfsw_strcmp p q)
| w_strncmp p q n : wrapper [] (λ _, True) (dfsw_strncmp p q n)
| w_memcpy d p n l : wrapper [l] (λ _, True) (dfsw_memcpy d p n l)
| w_memmove d p n l : wrapper [l] (λ _, True) (dfsw_memmove d p n l)
| w_memset p c n l lc : wrapper [l; lc] (λ _, True) (dfsw_memset p c n l lc)
| w_strcat d p l : wrapper [l] (λ _, True) (dfsw_strcat d p l)
| w_strdup d p : wrapper [] (λ _, True) (dfsw_strdup d p)
| w_strdup_ d p : wrapper [] (λ _, True) (dfsw___strdup d p)
| w_strndup_ d p n : wrapper [] (λ _, True) (dfsw___strndup d p n)
| w_strncpy d p n l : wrapper [l] (λ _, True) (dfsw_strncpy d p n l)
| w_strcpy d p l : wrapper [l] (λ _, True) (dfsw_strcpy d p l)
| w_stpcpy d p l : wrapper [l] (λ _, True) (dfsw_stpcpy d p l)
| w_strtol p e b v x : wrapper [] (λ _, True) (dfsw_strtol p e b v x)
| w_strtoll p e b v x : wrapper [] (λ _, True) (dfsw_strtoll p e b v x)
| w_strtoul p e b v x : wrapper [] (λ _, True) (dfsw_strtoul p e b v x)
| w_strtod p e v x : wrapper [] (λ _, True) (dfsw_strtod p e v x)
| w_strtoull p e l b (f : Z → Z * Z) : wrapper [] (λ _, True) (dfsw_strtoull p e l b f)
| w_calloc (h : sys) : wrapper [] (λ _, True) (dfsw_calloc h)
| w_libc_calloc_ (h : sys) : wrapper [] (λ _, True) (dfsw___libc_calloc h)
| w_malloc p n l : wrapper [] (λ _, True) (dfsw_malloc p n l)
| w_libc_malloc_ p n : wrapper [] (λ _, True) (dfsw___libc_malloc p n)
| w_realloc p n l u (h : sys) : wrapper [l] (λ _, True) (dfsw_realloc p n l u h)
| w_libc_realloc_ p n l u (h : sys) : wrapper [l] (λ _, True) (dfsw___libc_realloc p n l u h)
| w_stat p b (h : sys) : wrapper [] (λ _, True) (dfsw_stat p b h)
| w_xstat_ v p b (h : sys) : wrapper [] (λ _, True) (dfsw___xstat v p b h)
| w_lstat p b (h : sys) : wrapper [] (λ _, True) (dfsw_lstat p b h)
| w_lxstat_ v p b (h : sys) : wrapper [] (λ _, True) (dfsw___lxstat v p b h)
| w_fstat fd b (h : sys) : wrapper [] (λ _, True) (dfsw_fstat fd b h)
| w_fxstat_ v fd b (h : sys) : wrapper [] (λ _, True) (dfsw___fxstat v fd b h)
| w_pread fd b c o (h : sys) : wrapper [] (λ s, reads s fd o (sys_ret h)) (dfsw_pread fd b c o h)
| w_read fd b c o (h : sys) : wrapper [] (λ s, reads s fd o (sys_ret h)) (dfsw_read fd b c o h)
| w_fread p z n fd o (h : sys) : wrapper [] (λ s, reads s fd o (u64 (sys_ret h * z))) (dfsw_fread p z n fd o h)
| w_fread_unlocked p z n fd o (h : sys) : wrapper [] (λ s, reads s fd o (u64 (sys_ret h * z))) (dfsw_fread_unlocked p z n fd o h)
| w_getline p fd o (h : sys) : wrapper [] (λ s, reads s fd o (sys_ret h)) (dfsw_getline p fd o h)
| w_getdelim p fd o (h : sys) : wrapper [] (λ s, reads s fd o (sys_ret h)) (dfsw_getdelim p fd o h)
| w_getdelim_ p fd o (h : sys) : wrapper [] (λ s, reads s fd o (sys_ret h)) (dfsw___getdelim p fd o h)
| w_fgets p z fd o l (h : sys) : wrapper [l] (λ s, reads s fd o (strlen (mem_after s h) (sys_ret h))) (dfsw_fgets p z fd o l h)
| w_fgets_unlocked p z fd o l (h : sys) : wrapper [l] (λ s, reads s fd o (strlen (mem_after s h) (sys_ret h))) (dfsw_fgets_unlocked p z fd o l h)
| w_gets p o l (h : sys) : wrapper [l] (λ _, True) (dfsw_gets p o l h)
| w_fgetc fd o (h : sys) : wrapper [] (λ s, reads s fd o 1) (dfsw_fgetc fd o h)
| w_getc fd o (h : sys) : wrapper [] (λ s, reads s fd o 1) (dfsw_getc fd o h)
| w_getc_unlocked fd o (h : sys) : wrapper [] (λ s, reads s fd o 1) (dfsw_getc_unlocked fd o h)
| w_IO_getc_ fd o (h : sys) : wrapper [] (λ s, reads s fd o 1) (dfsw__IO_getc fd o h)
| w_getchar o (h : sys) : wrapper [] (λ _, True) (dfsw_getchar o h)
| w_open p (h : sys) : wrapper [] (λ _, True) (dfsw_open p h)
| w_fopen p st fd : wrapper [] (λ _, True) (dfsw_fopen p st fd)
| w_fopen64 p st fd : wrapper [] (λ _, True) (dfsw_fopen64 p st fd)
| w_freopen p st fd : wrapper [] (λ _, True) (dfsw_freopen p st fd)
| w_close fd (h : sys) : wrapper [] (λ _, True) (dfsw_close fd h)
| w_fclose fd (h : sys) : wrapper [] (λ _, True) (dfsw_fclose fd h)
| w_utmpxname p (h : sys) : wrapper [] (λ _, True) (dfsw_utmpxname p h)
| w_getutxent (h : sys) : wrapper [] (λ s, within s (tf_offset (rt_tainted s)) sizeof_utmpx) (dfsw_getutxent h)
| w_mmap n fd o (h : sys) : wrapper [] (λ s, reads s fd o (mmap_length s n o) ∧ (maps_past s n fd o → map_past)) (dfsw_mmap n fd o h)
| w_munmap p n (h : sys) : wrapper [] (λ _, True) (dfsw_munmap p n h)
| w_lseek fd o l (h : sys) : wrapper [l] (λ _, True) (dfsw_lseek fd o l h)
| w_fseek fd o l (h : sys) : wrapper [l] (λ _, True) (dfsw_fseek fd o l h)
| w_fseeko fd o l (h : sys) : wrapper [l] (λ _, True) (dfsw_fseeko fd o l h)
| w_fseeko64 fd o l (h : sys) : wrapper [l] (λ _, True) (dfsw_fseeko64 fd o l h)
| w_clock_gettime p (h : sys) : wrapper [] (λ _, True) (dfsw_clock_gettime p h)
| w_getrlimit p (h : sys) : wrapper [] (λ _, True) (dfsw_getrlimit p h)
| w_getrusage p (h : sys) : wrapper [] (λ _, True) (dfsw_getrusage p h)
| w_sched_getaffinity n p (h : sys) : wrapper [] (λ _, True) (dfsw_sched_getaffinity n p h)
| w_sigemptyset p (h : sys) : wrapper [] (λ _, True) (dfsw_sigemptyset p h)
| w_sigaction p (h : sys) : wrapper [] (λ _, True) (dfsw_sigaction p h)
| w_gettimeofday p q (h : sys) : wrapper [] (λ _, True) (dfsw_gettimeofday p q h)
| w_time p (h : sys) : wrapper [] (λ _, True) (dfsw_time p h)
| w_nanosleep p (h : sys) : wrapper [] (λ _, True) (dfsw_nanosleep p h)
| w_socketpair p (h : sys) : wrapper [] (λ _, True) (dfsw_socketpair p h)
| w_select p q r t (h : sys) : wrapper [] (λ _, True) (dfsw_select p q r t h)
| w_poll p n (h : sys) : wrapper [] (λ _, True) (dfsw_poll p n h)
| w_getpwuid_r p b r (h : sys) : wrapper [] (λ _, True) (dfsw_getpwuid_r p b r h)
| w_gethostname p (h : sys) : wrapper [] (λ _, True) (dfsw_gethostname p h)
| w_get_current_dir_name (h : sys) : wrapper [] (λ _, True) (dfsw_get_current_dir_name h)
| w_getcwd l (h : sys) : wrapper [l] (λ _, True) (dfsw_getcwd l h)
| w_ctime_r t b l (h : sys) : wrapper [l] (λ _, True) (dfsw_ctime_r t b l h)
| w_localtime_r t b l (h : sys) : wrapper [l] (λ _, True) (dfsw_localtime_r t b l h)
| w_inet_pton a p d (h : sys) : wrapper [] (λ _, True) (dfsw_inet_pton a p d h)
| w_mbrtowc p q (h : sys) : wrapper [] (λ _, True) (dfsw_mbrtowc p q h)
| w_dlopen x (map : option (Z * list (Z * Z))) : wrapper [] (λ _, True) (dfsw_dlopen x map)
| w_dl_iterate_phdr (tramp : phdr_trampoline) c d objs : wrapper [] (λ _, phdr_safe tramp) (dfsw_dl_iterate_phdr tramp c d objs)
| w_write info fd b c l1 l2 l3 (h : sys) : wrapper [l1; l2; l3] (λ _, callback_safe info) (dfsw_write info fd b c l1 l2 l3 h)
| w_sprintf snp fuel p f ap : wrapper [] (λ _, True) (dfsw_sprintf snp fuel p f ap)
| w_snprintf snp fuel p n f ap : wrapper [] (λ _, True) (dfsw_snprintf snp fuel p n f ap)
| w_get_label d l : wrapper [l] (λ _, True) (dfsw_dfsan_get_label d l)
| w_free p : wrapper [] (λ _, True) (dfsw_free p ;; mret (0, 0))
| w_libc_free_ p : wrapper [] (λ _, True) (dfsw___libc_free p ;; mret (0, 0))
| w_setutxent : wrapper [] (λ _, True) (dfsw_setutxent ;; mret (0, 0))
| w_pthread_create tramp routine arg rv : wrapper [] (λ _, True) (r ← dfsw_pthread_create tramp routine arg rv; mret r.1)
| w_thread_start pci : wrapper [] (λ _, thread_safe (start_routine_trampoline pci)) (thread_start pci)
| w_set_write_callback tramp callback info : wrapper [] (λ _, True) (r ← dfsw_dfsan_set_write_callback tramp callback info; mret (0, r.2))
| w_cov_trace : wrapper [] (λ _, True) (dfsw___sanitizer_cov_trace ;; mret (0, 0)).

Lemma wrapper_keeps ls P m s :
  wrapper ls P m → rt_inv s → Forall (valid s) ls → P s → safe m (λ r s', valid s' r.2) s.
Proof.
  intros Hw Hi Hls HP. destruct Hw; cbv beta in HP; decompose_Forall_hyps; destruct_and?.
  all: wrapper_tac.
Qed.

(** C15: Every wrapper keeps the invariant. Take a state where the label store is
    well formed and every label in the shadow is the constant or a recorded one,
    and a call of any [__dfsw_] function of [dfsan_custom.cc] whose label arguments are recorded, whatever
    the host returns and stores, but with reads and mappings of the input inside
    the file. It ends the process or leads to such a state again, in which every
    earlier label keeps its record, and the label it returns is recorded. That is
    the case where [map_past] is false; where it is true, mappings may end after
    the file, and beside the recorded labels there may be the initializing label
    [-1], before and after the call. Program code run by a wrapper (the callbacks
    of [dl_iterate_phdr] and [write], a thread's function) is assumed to keep the
    invariant. *)
Theorem wrapper_safe ls P m s :
  wrapper ls P m → rt_inv s → Forall (valid s) ls → P s →
  match m s with
  | Ret (_, l) s' => rt_inv s' ∧ later s s' ∧ valid s' l
  | Throw _ s' => rt_inv s' ∧ later s s'
  | Halt _ _ => True
  end.
Proof.
  intros Hw Hi Hls HP. pose proof (wrapper_keeps ls P m s Hw Hi Hls HP) as H. unfold safe in H.
  destruct (m s) as [[r l] s'|e s'|h s']; exact H.
Qed.

(** ** Runs of the program

    A program's state is the runtime's and the labels the program holds, in its
    registers and in the argument and return slots. [passes L ls]: the labels
    [ls] of a call are held. *)
Definition passes (L : gset Z) (ls : list Z) : Prop := Forall (λ l, l ∈ L) ls.
Definition program_state : Type := rt * gset Z.
Inductive step : program_state → program_state → Prop :=
| step_wrapper s L ls P m r s' :
    wrapper ls P m → P s → passes L ls → m s = Ret r s' → step (s, L) (s', {[r.2]} ∪ L)
| step_union s L l1 l2 op size op1 op2 l s' :
    passes L [l1; l2] → r_union l1 l2 op size op1 op2 s = Ret l s' → step (s, L) (s', {[l]} ∪ L)
| step_dfsan_union s L l1 l2 op size op1 op2 l s' :
    passes L [l1; l2] → r_dfsan_union l1 l2 op size op1 op2 s = Ret l s' → step (s, L) (s', {[l]} ∪ L)
| step_create s L offset l s' :
    on_labels (dfsan_create_label offset) s = Ret l s' → step (s, L) (s', {[l]} ∪ L)
| step_get_label s L a : step (s, L) (s, {[peek (rt_shadow s) a]} ∪ L)
| step_load s L ls n l s' : taint_union_load ls n s = Ret l s' → step (s, L) (s', {[l]} ∪ L)
| step_store s L l ls n s' :
    passes L [l] → store_ok s l n → taint_union_store l ls n s = Ret () s' → step (s, L) (s', L)
| step_set_label s L l a n s' :
    passes L [l] → dfsan_set_label l a n s = Ret () s' → step (s, L) (s', L)
| step_add_label s L l op a n s' :
    passes L [l] → dfsan_add_label l op a n s = Ret () s' → step (s, L) (s', L)
| step_trace_cmp s L op1 op2 size p c1 c2 addr s' :
    passes L [op1; op2] → taint_trace_cmp op1 op2 size p c1 c2 addr s = Ret () s' → step (s, L) (s', L)
| step_trace_cond s L l r addr s' :
    passes L [l] → taint_trace_cond l r addr s = Ret () s' → step (s, L) (s', L)
| step_trace_gep s L l r s' :
    passes L [l] → taint_trace_gep l r s = Ret () s' → step (s, L) (s', L)
| step_store_label s L l addr n s' :
    passes L [l] → store_ok s l n → dfsan_store_label l addr n s = Ret () s' → step (s, L) (s', L)
| step_read_label s L addr n l s' : dfsan_read_label addr n s = Ret l s' → step (s, L) (s', {[l]} ∪ L)
| step_add_constraints s L l s' :
    passes L [l] → add_constraints l s = Ret () s' → step (s, L) (s', L)
| step_trace_indcall s L l s' : taint_trace_indcall l s = Ret () s' → step (s, L) (s', L)
| step_debug s L op1 op2 p size target s' :
    taint_debug op1 op2 p size target s = Ret () s' → step (s, L) (s', L)
| step_mmap s L n h p s' : interceptor_mmap n h s = Ret p s' → step (s, L) (s', L)
| step_mmap64 s L n h p s' : interceptor_mmap64 n h s = Ret p s' → step (s, L) (s', L)
| step_memory s L f : step (s, L) (set_mem f s, L).

(** The labels the program holds are valid. *)
Definition held_valid (c : program_state) : Prop := rt_inv c.1 ∧ ∀ l, l ∈ c.2 → valid c.1 l.
Lemma passes_valid s L ls : held_valid (s, L) → passes L ls → Forall (valid s) ls.
Proof. intros [_ H] Hp. by eapply Forall_impl. Qed.
Lemma held_add s L l s' : held_valid (s, L) → rt_inv s' → later s s' → valid s' l → held_valid (s', {[l]} ∪ L).
Proof.
  intros [_ H] Hi Hk Hl. split; [done|]. cbn [fst snd] in *.
  intros x [->%elem_of_singleton|Hx]%elem_of_union; [done|]. by apply (valid_kept s), H.
Qed.
Lemma held_keep s L s' : held_valid (s, L) → rt_inv s' → later s s' → held_valid (s', L).
Proof.
  intros [_ H] Hi Hk. split; [done|]. intros x Hx. by apply (valid_kept s), H.
Qed.

(** A run of a safe operation, with and without a label as its result. *)
Lemma step_labelled (m : M rt Z) s L l s' :
  held_valid (s, L) → safe m (λ l s', valid s' l) s → m s = Ret l s' →
  held_valid (s', {[l]} ∪ L) ∧ later s s'.
Proof.
  unfold safe. intros Hh H E. rewrite E in H. destruct H as (? & ? & ?).
  split; [by eapply held_add|done].
Qed.
Lemma step_plain {A} (m : M rt A) s L a s' :
  held_valid (s, L) → safe m (λ _ _, True) s → m s = Ret a s' → held_valid (s', L) ∧ later s s'.
Proof.
  unfold safe. intros Hh H E. rewrite E in H. destruct H as (? & ? & ?).
  split; [by eapply held_keep|done].
Qed.

Lemma step_inv c c' : held_valid c → step c c' → held_valid c' ∧ later c.1 c'.1.
Proof.
  intros Hh Hs. pose proof (proj1 Hh) as Hi. destruct Hs; cbn [fst snd] in *;
    try match goal with H : passes _ _ |- _ => pose proof (passes_valid _ _ _ Hh H); decompose_Forall_hyps end.
  - match goal with H : m s = _ |- _ => rename H into E end.
    assert (safe m (λ r s', valid s' r.2) s) as H' by by eapply wrapper_keeps; [|apply Hi|eapply passes_valid|].
    unfold safe in H'. rewrite E in H'. destruct H' as (? & ? & ?). split; [by eapply held_add|done].
  - eapply step_labelled; [done| |done]. by apply safe_union.
  - eapply step_labelled; [done| |done]. by apply safe_dfsan_union.
  - eapply step_labelled; [done| |done]. by apply safe_create.
  - split; [|done]. apply (held_add s); [done..|]. apply (inv_shadow _ Hi).
  - eapply step_labelled; [done| |done]. by apply safe_load.
  - eapply step_plain; [done| |done]. by apply safe_store.
  - eapply step_plain; [done| |done]. by apply safe_set_label.
  - eapply step_plain; [done| |done]. by apply safe_add_label.
  - eapply step_plain; [done| |done]. by apply safe_trace_cmp.
  - eapply step_plain; [done| |done]. by apply safe_trace_cond.
  - eapply step_plain; [done| |done]. by apply safe_trace_gep.
  - eapply step_plain; [done| |done]. unfold dfsan_store_label.
    match goal with |- safe (if ?b then _ else _) _ _ => destruct b end; [by apply safe_ret|by apply safe_store].
  - eapply step_labelled; [done| |done]. by apply safe_read_label.
  - eapply step_plain; [done| |done]. by apply safe_add_constraints.
  - eapply step_plain; [done| |done]. by apply safe_ret.
  - eapply step_plain; [done| |done]. by apply safe_ret.
  - eapply step_plain; [done| |done]. unfold interceptor_mmap. safe_go.
  - eapply step_plain; [done| |done]. unfold interceptor_mmap64. safe_go.
  - assert (rt_inv (set_mem f s) ∧ later s (set_mem f s)) as [Hi' Hk].
    { apply (inv_same s); [done..|]. intros a. apply (inv_shadow _ Hi). }
    split; [by apply (held_keep s)|done].
Qed.

Lemma run_inv c c' : held_valid c → rtc step c c' → held_valid c' ∧ later c.1 c'.1.
Proof.
  intros Hh Hr. induction Hr as [c|c c1 c' Hs _ IH]; [done|].
  destruct (step_inv _ _ Hh Hs) as [Hh1 Hk]. destruct (IH Hh1). split; [done|by etrans].
Qed.

Lemma started_inv F D p c mem o :
  label_addr (Z.of_nat (length c)) < HashTableAddr → rt_inv (started F D p c ∅ mem o).
Proof.
  intros Hl. split.
  - exists ∅. apply input_labels_wf; [apply boot_wf|done|done].
  - intros a. left. cbn [started rt_shadow rt_labels]. rewrite input_labels_last.
    unfold peek. rewrite lookup_empty. cbn. lia.
  - intros _. cbn [started rt_tainted tf_size rt_labels]. rewrite input_labels_last. cbn. lia.
Qed.

(** C14: In every run. Take start-up on an input file of [n] bytes and then any
    sequence of calls by a program that passes only labels it holds: the constant
    label, labels that calls returned, labels of memory cells. The calls are those
    of [step]: all wrappers, and all other operations of the runtime on labels and
    the shadow that a program can call (queries that change nothing apart), with
    reads of the input inside the file, stores of loaded values that fit the
    recorded labels ([store_ok]), and callbacks, run inside a wrapper, that keep
    the invariant. Then the label store is well formed; the labels
    [1 .. n] still are the input bytes [0 .. n-1]; and every label in the shadow,
    or held, is the constant or a recorded label, or else the initializing label,
    which occurs only if the program maps the input past its end ([map_past]). *)
Theorem reachable_invariant F D p c mem o s L :
  label_addr (Z.of_nat (length c)) < HashTableAddr →
  rtc step (started F D p c ∅ mem o, {[0]}) (s, L) →
  rt_wf s ∧
  (∀ a, let l := peek (rt_shadow s) a in
    0 ≤ l ≤ last_label (rt_labels s) ∨ map_past ∧ l = kInitializingLabel) ∧
  (∀ l, l ∈ L → 0 ≤ l ≤ last_label (rt_labels s) ∨ map_past ∧ l = kInitializingLabel) ∧
  ∀ l, 1 ≤ l ≤ Z.of_nat (length c) →
    l ≤ last_label (rt_labels s) ∧ key_of (info_at (rt_labels s) l) = (0, 0, 0, 8, u64 (l - 1), 0).
Proof.
  intros Hl Hr. set (s0 := started F D p c ∅ mem o) in *.
  assert (held_valid (s, L) ∧ later s0 s) as [[Hi Hh] [[Hk1 Hk2] _]].
  { apply (run_inv (s0, {[0]}) (s, L)); [|exact Hr].
    pose proof (started_inv F D p c mem o Hl) as Hi. split; [exact Hi|].
    cbn [fst snd]. intros l ->%elem_of_singleton. by apply valid_zero. }
  split; [exact (inv_wf _ Hi)|]. split; [exact (inv_shadow _ Hi)|]. split; [exact Hh|].
  intros l Hlb. subst s0. cbn [started rt_labels] in Hk1, Hk2.
  rewrite input_labels_last in Hk1, Hk2. cbn [boot_lstate last_label] in Hk1, Hk2.
  split; [lia|]. rewrite Hk2 by lia. by rewrite input_labels_info, decide_True by done.
Qed.
End wrappers.

(** A run that reads two bytes of the input, and then maps the file, two bytes
    long, with a length of three. *)
Definition run_os : os := Os {[ "seed" := [10; 20] ]} ∅ 3 ∅ true.
Definition run_start : rt (Zi:=Ref.z3) := started (Zi:=Ref.z3) "seed" "out" "/in/seed" [10; 20] ∅ ∅ run_os.
Definition run_buf : Z := 0x7fff00000000.
Definition run_read : M (rt (Zi:=Ref.z3)) (Z * Z) :=
  dfsw_read (Zi:=Ref.z3) 0 run_buf 2 0 (Sys 2 [(run_buf, [10; 20])]).
Definition run_map : M (rt (Zi:=Ref.z3)) (Z * Z) :=
  dfsw_mmap (Zi:=Ref.z3) 3 0 0 (Sys (run_buf + 4096) [(run_buf + 4096, [10; 20; 0])]).
Definition run_s1 : rt (Zi:=Ref.z3) := at_state (run_read run_start).
Definition run_s2 : rt (Zi:=Ref.z3) := at_state (run_map run_s1).

(** Without the mapping every label is recorded; with it, the byte after the end
    has the initializing label. *)
Lemma reachable_invariant_witness :
  (∃ L, rtc (step (Zi:=Ref.z3) (En:=demo_env "" None) (Pe:=False)) (run_start, {[0]}) (run_s1, L) ∧
    peek (rt_shadow run_s1) (shadow_for (run_buf + 1)) = 2 ∧
    ∀ a, 0 ≤ peek (rt_shadow run_s1) a ≤ last_label (rt_labels run_s1)) ∧
  (∃ L, rtc (step (Zi:=Ref.z3) (En:=demo_env "" None) (Pe:=True)) (run_start, {[0]}) (run_s2, L) ∧
    peek (rt_shadow run_s2) (shadow_for (run_buf + 4096 + 2)) = kInitializingLabel ∧
    rt_wf run_s2).
Proof.
  assert (∀ Pe : MapPast, ∃ L, step (Zi:=Ref.z3) (En:=demo_env "" None) (run_start, {[0]}) (run_s1, L)) as Hread.
  { intros Pe. eexists. eapply (step_wrapper _ _ _ _ _ (2, 0)).
    - apply (w_read 0 run_buf 2 0 (Sys 2 [(run_buf, [10; 20])])).
    - intros _ _. split; by vm_compute.
    - constructor.
    - reflexivity. }
  split.
  - destruct (Hread False) as [L Hs]. exists L. split; [by apply rtc_once|]. split; [by vm_compute|].
    pose proof (reachable_invariant (Zi:=Ref.z3) (En:=demo_env "" None) (Pe:=False)
      "seed" "out" "/in/seed" [10; 20] ∅ run_os run_s1 L eq_refl (rtc_once _ _ Hs)) as (_ & H & _).
    intros a. destruct (H a) as [Ha|[[] _]]. exact Ha.
  - destruct (Hread True) as [L Hs].
    assert (∃ L', step (Zi:=Ref.z3) (En:=demo_env "" None) (Pe:=True) (run_s1, L) (run_s2, L')) as [L' Hmap].
    { eexists. eapply (step_wrapper _ _ _ _ _ (run_buf + 4096, 0)).
      - apply (w_mmap 3 0 0 (Sys (run_buf + 4096) [(run_buf + 4096, [10; 20; 0])])).
      - split; [intros _ _; split; by vm_compute|intros _; exact I].
      - constructor.
      - reflexivity. }
    assert (rtc (step (Zi:=Ref.z3) (En:=demo_env "" None) (Pe:=True)) (run_start, {[0]}) (run_s2, L')) as Hr
      by (eapply rtc_l; [exact Hs|exact (rtc_once _ _ Hmap)]).
    exists L'. split; [exact Hr|]. split; [by vm_compute|].
    exact (proj1 (reachable_invariant (Zi:=Ref.z3) (En:=demo_env "" None) (Pe:=True)
      "seed" "out" "/in/seed" [10; 20] ∅ run_os run_s2 L' eq_refl Hr)).
Defined.
Lemma wrapper_safe_witness :
  match dfsw_memcmp (Zi:=Ref.z3) run_buf (run_buf + 1) 1 run_start with
  | Ret (_, l) s' => rt_inv (Pe:=False) s' ∧ later run_start s' ∧ valid (Pe:=False) s' l
  | Throw _ s' => rt_inv (Pe:=False) s' ∧ later run_start s'
  | Halt _ _ => True
  end.
Proof.
  apply (wrapper_safe (Zi:=Ref.z3) (En:=demo_env "" None) [] (λ _, True)).
  - apply w_memcmp.
  - apply started_inv. by vm_compute.
  - constructor.
  - exact I.
Defined.
