(* ===== verification/Ir.v ===== *)
(** * The fragment of LLVM IR the instrumentation pass looks at

    The instrumentation pass ([pass/TaintPass.cc]) reads and writes LLVM IR
    through LLVM's C++ API. These are the types, values and instructions its
    visitor tells apart. Instructions are identified by numbers (the addresses
    of their [llvm::Instruction]); integer constants are uniqued by LLVM, so
    pointer comparison of constants is equality of values. *)
From S2P Require Import Prelude.

(** ** Types *)
Inductive fp_kind := FpHalf | FpFloat | FpDouble | FpOther.
#[export] Instance fp_kind_eq_dec : EqDecision fp_kind.
Proof. solve_decision. Defined.

Inductive ty :=
| TVoid
| TInt (w : Z)
| TFp (k : fp_kind)
| TPtr (elem : ty)
| TFun (ret : ty) (params : list ty) (vararg : bool)
| TArray (elem : ty)
| TStruct (fields : list ty)
| TVec (elem : ty).

Definition is_void (t : ty) : bool := match t with TVoid => true | _ => false end.
Definition is_fp (t : ty) : bool := match t with TFp _ => true | _ => false end.
Definition is_vec (t : ty) : bool := match t with TVec _ => true | _ => false end.
Definition is_int (t : ty) : bool := match t with TInt _ => true | _ => false end.
Definition is_ptr (t : ty) : bool := match t with TPtr _ => true | _ => false end.
Definition is_array (t : ty) : bool := match t with TArray _ => true | _ => false end.

(** [llvm::DataLayout] of the target, with what it documents for 64-bit
    targets. *)
Class DataLayout := {
  type_size_in_bits : ty → Z;
  type_store_size : ty → Z;
  (** [getIndexedOffsetInType], from the pointer type and the signed indices *)
  gep_offset : ty → list Z → Z;
  dl_int w : 1 ≤ w → type_size_in_bits (TInt w) = w;
  dl_ptr t : type_size_in_bits (TPtr t) = 64;
  dl_store_int w : 1 ≤ w → type_store_size (TInt w) = (w + 7) / 8;
  dl_store_ptr t : type_store_size (TPtr t) = 8;
}.

(** ** Values *)
Inductive val :=
| VArgument (n : Z)
| VInst (id : Z)
| VConst (w n : Z)  (** [ConstantInt] of type [i<w>], by its unsigned value *)
| VGlobal (name : string).  (** functions, global variables, other constants *)
#[export] Instance val_eq_dec : EqDecision val.
Proof. solve_decision. Defined.

Definition is_constant (v : val) : bool :=
  match v with VConst _ _ | VGlobal _ => true | _ => false end.
Definition is_constant_one (v : val) : bool := match v with VConst _ n => n =? 1 | _ => false end.

(** ** Instructions *)

(** The callee of a call site: a function of the module, an intrinsic, inline
    assembly, or a value. *)
Inductive callee :=
| CalleeFun (name : string)
| CalleeIntrinsic
| CalleeAsm
| CalleeVal (v : val).

Inductive inst_kind :=
| IBinary (opcode : Z) (a b : val)
| ICast (opcode : Z) (a : val)
| ICompare (integer : bool) (opcode predicate : Z) (a b : val)
| IBranch (cond : option val)
| ISwitch (cond : val) (cases : list Z)
| IGep (ptr : val) (indices : list val)
| ILoad (ptr : val)
| IStore (v ptr : val)
| IReturn (v : option val)
| IResume
| ICall (f : callee) (fty : ty) (args : list val) (invoke : bool)
| IPhi (incoming : list (val * Z))
| IAlloca
| ISelect (c t f : val)
| IMemSet (dest v len : val)
| IMemTransfer (dest src len : val)
| IOther (operands : list val).

Record inst := Inst {
  i_id : Z;
  i_ty : ty;
  i_kind : inst_kind;
  i_nosanitize : bool;
}.

Definition operands (k : inst_kind) : list val :=
  match k with
  | IBinary _ a b | ICompare _ _ _ a b => [a; b]
  | ICast _ a => [a]
  | IBranch c | IReturn c => option_list c
  | ISwitch c _ => [c]
  | IGep p idx => p :: idx
  | ILoad p => [p]
  | IStore v p => [v; p]
  | IResume | IAlloca => []
  | ICall f _ args _ => match f with CalleeVal v => [v] | _ => [] end ++ args
  | IPhi inc => inc.*1
  | ISelect c t f => [c; t; f]
  | IMemSet d v l => [d; v; l]
  | IMemTransfer d s l => [d; s; l]
  | IOther os => os
  end.

Record block := Block { b_id : Z; b_insts : list inst }.

Record func := Func {
  fn_name : string;
  fn_ty : ty;
  fn_blocks : list block;  (** empty for a declaration; the first is the entry *)
}.

Definition insts (f : func) : list inst := concat (b_insts <$> fn_blocks f).
(** [I.users()] *)
Definition users (f : func) (id : Z) : list inst :=
  filter (λ i, VInst id ∈ operands (i_kind i)) (insts f).

Definition fun_params (t : ty) : list ty := match t with TFun _ ps _ => ps | _ => [] end.
Definition fun_ret (t : ty) : ty := match t with TFun r _ _ => r | _ => TVoid end.
Definition fun_vararg (t : ty) : bool := match t with TFun _ _ v => v | _ => false end.
