(* ===== verification/Pass.v ===== *)
(** * The instrumentation of a function ([TaintFunction] and [TaintVisitor] of [pass/TaintPass.cc])

    For every instruction the visitor inserts code that computes the label of
    the result from the labels of the operands, calls into the runtime at
    loads, stores and branches, and passes labels across calls. The pass is a
    computation on [tf], the fields of [TaintFunction] with the code inserted
    so far; a failed [assert] of the pass is a halt. [IRBuilder] is modelled by
    the instructions it appends; conversions of operands are kept with the
    operand ([conv]) instead of getting names of their own. *)
From stdpp Require Import pretty.
From S2P Require Import Prelude Platform Labels Ir.

(** A label at run time: the constant 0, a label parameter of the function, or
    the result of an inserted instruction. *)
Inductive shadow := ZeroShadow | SParam (n : Z) | SVal (id : Z).
#[export] Instance shadow_eq_dec : EqDecision shadow.
Proof. solve_decision. Defined.

(** Conversions inserted in front of an operand. *)
Inductive conv := CvBitCast (w : Z) | CvPtrToInt (w : Z) | CvZExtOrTrunc (w : Z).
Definition arg64 : Type := val * list conv.

(** Arguments of the calls that replace a call site. *)
Inductive carg :=
| AVal (v : val)
| ATrampoline (name : string) (param : ty)
| AFnPtr (v : val)  (** cast to [i8 *] *)
| AShadow (s : shadow)
| ASlot (slot idx : Z).  (** the address of a cell of a label array *)

(** Inserted instructions. Label arrays on the stack ([alloca]) are slots. *)
Inductive emit :=
| EArgLoad (dst idx : Z)
| EArgStore (idx : Z) (s : shadow)
| ERetLoad (dst : Z)
| ERetStore (s : shadow)
| ESlotAlloca (slot count : Z)
| ESlotLoad (dst slot idx : Z)
| ESlotStore (slot idx : Z) (s : shadow)
| EUnion (dst : Z) (s1 s2 : shadow) (op size : Z) (x1 x2 : arg64)
| EShadowAddr (v : val)
| EUnionLoad (dst : Z) (addr : val) (size : Z)
| EUnionStore (s : shadow) (addr : val) (size : Z)
| EZeroStore (addr : val) (size : Z)
| ETraceCmp (s1 s2 : shadow) (size predicate : Z) (x1 x2 : arg64)
| ETraceCond (s : shadow) (v : val)
| ETraceGep (s : shadow) (x : arg64)
| ETraceIndirectCall (s : shadow)
| ESelect (dst : Z) (c : val) (s1 s2 : shadow)
| EPhi (dst : Z) (incoming : list (option shadow * Z))
| ESetLabel (s : shadow) (dest len : val)
| EMemTransfer (dest src len : val)
| EUnimplemented (fname : string)
| ECall (id : Z) (f : callee) (fty : ty) (args : list carg) (invoke : bool)
| EReturnPair (v : val) (s : shadow)
| EExtract (dst from field : Z)
| EParamStore (param : Z) (s : shadow).  (** through a label pointer parameter *)

(** [Taint::InstrumentedABI] and [Taint::WrapperKind] *)
Inductive InstrumentedABI := IA_Args | IA_TLS.
#[export] Instance InstrumentedABI_eq_dec : EqDecision InstrumentedABI.
Proof. solve_decision. Defined.
Inductive WrapperKind := WK_Warning | WK_Discard | WK_Functional | WK_Custom.
#[export] Instance WrapperKind_eq_dec : EqDecision WrapperKind.
Proof. solve_decision. Defined.

(** What became of a visited instruction. *)
Inductive fate := Kept | Redirected (f : string) | Erased.

(** [struct TaintFunction]; [tf_entry], [tf_before] and [tf_after] are the code
    inserted at the head of the entry block, before the instruction being
    visited and after it; [tf_fate]: what became of that instruction. A key of
    [ValShadowMap] is an argument or an instruction. *)
Record tf := TF {
  tf_args : gmap Z shadow;
  tf_insts : gmap Z shadow;
  AllocaShadowMap : gmap Z Z;
  PHIFixups : list (inst * Z);
  SkipInsts : gset Z;
  StoreInsts : gset Z;
  NonZeroChecks : list shadow;
  LabelReturnAlloca : option Z;
  tf_next : Z;
  tf_entry : list emit;
  tf_before : list emit;
  tf_after : list emit;
  tf_fate : fate;
  tf_trampolines : list (string * ty);
}.
Definition tf_init (first : Z) : tf := TF ∅ ∅ ∅ [] ∅ ∅ [] None first [] [] [] Kept [].

Definition set_args x (t : tf) : tf :=
  TF x (tf_insts t) (AllocaShadowMap t) (PHIFixups t) (SkipInsts t) (StoreInsts t) (NonZeroChecks t)
    (LabelReturnAlloca t) (tf_next t) (tf_entry t) (tf_before t) (tf_after t) (tf_fate t)
    (tf_trampolines t).
Definition set_insts x (t : tf) : tf :=
  TF (tf_args t) x (AllocaShadowMap t) (PHIFixups t) (SkipInsts t) (StoreInsts t) (NonZeroChecks t)
    (LabelReturnAlloca t) (tf_next t) (tf_entry t) (tf_before t) (tf_after t) (tf_fate t)
    (tf_trampolines t).
Definition set_allocas x (t : tf) : tf :=
  TF (tf_args t) (tf_insts t) x (PHIFixups t) (SkipInsts t) (StoreInsts t) (NonZeroChecks t)
    (LabelReturnAlloca t) (tf_next t) (tf_entry t) (tf_before t) (tf_after t) (tf_fate t)
    (tf_trampolines t).
Definition set_fixups x (t : tf) : tf :=
  TF (tf_args t) (tf_insts t) (AllocaShadowMap t) x (SkipInsts t) (StoreInsts t) (NonZeroChecks t)
    (LabelReturnAlloca t) (tf_next t) (tf_entry t) (tf_before t) (tf_after t) (tf_fate t)
    (tf_trampolines t).
Definition set_skip x (t : tf) : tf :=
  TF (tf_args t) (tf_insts t) (AllocaShadowMap t) (PHIFixups t) x (StoreInsts t) (NonZeroChecks t)
    (LabelReturnAlloca t) (tf_next t) (tf_entry t) (tf_before t) (tf_after t) (tf_fate t)
    (tf_trampolines t).
Definition set_checks x (t : tf) : tf :=
  TF (tf_args t) (tf_insts t) (AllocaShadowMap t) (PHIFixups t) (SkipInsts t) (StoreInsts t) x
    (LabelReturnAlloca t) (tf_next t) (tf_entry t) (tf_before t) (tf_after t) (tf_fate t)
    (tf_trampolines t).
Definition set_label_return x (t : tf) : tf :=
  TF (tf_args t) (tf_insts t) (AllocaShadowMap t) (PHIFixups t) (SkipInsts t) (StoreInsts t)
    (NonZeroChecks t) x (tf_next t) (tf_entry t) (tf_before t) (tf_after t) (tf_fate t)
    (tf_trampolines t).
Definition set_next x (t : tf) : tf :=
  TF (tf_args t) (tf_insts t) (AllocaShadowMap t) (PHIFixups t) (SkipInsts t) (StoreInsts t)
    (NonZeroChecks t) (LabelReturnAlloca t) x (tf_entry t) (tf_before t) (tf_after t) (tf_fate t)
    (tf_trampolines t).
Definition set_code (entry before after : list emit) (ft : fate) (t : tf) : tf :=
  TF (tf_args t) (tf_insts t) (AllocaShadowMap t) (PHIFixups t) (SkipInsts t) (StoreInsts t)
    (NonZeroChecks t) (LabelReturnAlloca t) (tf_next t) entry before after ft
    (tf_trampolines t).
Definition set_trampolines x (t : tf) : tf :=
  TF (tf_args t) (tf_insts t) (AllocaShadowMap t) (PHIFixups t) (SkipInsts t) (StoreInsts t)
    (NonZeroChecks t) (LabelReturnAlloca t) (tf_next t) (tf_entry t) (tf_before t) (tf_after t)
    (tf_fate t) x.

(** ** The builder *)
Definition fresh : M tf Z := t ← get; put (set_next (tf_next t + 1) t) ;; mret (tf_next t).
(** at the front of the entry block *)
Definition emit_entry (e : emit) : M tf () :=
  modify (λ t, set_code (e :: tf_entry t) (tf_before t) (tf_after t) (tf_fate t) t).
(** [IRBuilder<> IRB(Pos)] for the instruction being visited *)
Definition emit_before (e : emit) : M tf () :=
  modify (λ t, set_code (tf_entry t) (tf_before t ++ [e]) (tf_after t) (tf_fate t) t).
Definition emit_after (e : emit) : M tf () :=
  modify (λ t, set_code (tf_entry t) (tf_before t) (tf_after t ++ [e]) (tf_fate t) t).
(** [eraseFromParent] after [replaceAllUsesWith] (the replacement takes the name
    of the instruction), and [setCalledFunction] *)
Definition erase : M tf () :=
  modify (λ t, set_code (tf_entry t) (tf_before t) (tf_after t) Erased t).
Definition set_called_function (f : string) : M tf () :=
  modify (λ t, set_code (tf_entry t) (tf_before t) (tf_after t) (Redirected f) t).
Definition nonzero_check (s : shadow) : M tf () :=
  modify (λ t, set_checks (NonZeroChecks t ++ [s]) t).

(** The options of the pass and what it asks of LLVM and of the module. *)
Class PassEnv := {
  ClTraceFP : bool;
  ClTraceGEPOffset : bool;
  ABI : InstrumentedABI;
  type_of : val → ty;
  (** [GetUnderlyingObjects], and whether an object is a function, a block
      address or a constant global *)
  GetUnderlyingObjects : val → list val;
  constant_object : val → bool;
  (** [UnwrappedFnMap], and [getWrapperKind] of the unwrapped function *)
  UnwrappedFnMap : callee → option string;
  wrapper_kind : string → WrapperKind;
  fn_type : string → ty;
}.

Definition ShadowWidth : Z := 32.
Definition icmp_eq : Z := 32.

Section pass.
Context {Ops : LlvmOps} {DL : DataLayout} {PE : PassEnv}.
(** the function, and [IsNativeABI] *)
Context (F : func) (IsNativeABI : bool).

(** ** Labels of values *)
Definition getArgTLS (idx : Z) : M tf shadow :=
  d ← fresh; emit_entry (EArgLoad d idx) ;; mret (SVal d).

Definition getShadow (v : val) : M tf shadow :=
  match v with
  | VConst _ _ | VGlobal _ => mret ZeroShadow
  | VArgument n =>
      t ← get;
      match tf_args t !! n with
      | Some s => mret s
      | None =>
          if IsNativeABI then mret ZeroShadow else
          s ← match ABI with
              | IA_TLS => getArgTLS n
              | IA_Args => mret (SParam (n + Z.of_nat (length (fun_params (fn_ty F))) / 2))
              end;
          modify (λ t, set_args (<[n := s]> (tf_args t)) t) ;;
          nonzero_check s ;;
          mret s
      end
  | VInst id =>
      t ← get;
      match tf_insts t !! id with
      | Some s => mret s
      | None => put (set_insts (<[id := ZeroShadow]> (tf_insts t)) t) ;; mret ZeroShadow
      end
  end.

Definition setShadow (id : Z) (s : shadow) : M tf () :=
  t ← get;
  assert_ "!ValShadowMap.count(I)" (bool_decide (tf_insts t !! id = None)) ;;
  put (set_insts (<[id := s]> (tf_insts t)) t).

(** The conversion of an operand to [i64] in [combineShadows]. *)
Definition operand_to_int64 (v : val) : arg64 :=
  (v, match type_of v with
      | TFp FpHalf => [CvBitCast 16]
      | TFp FpFloat => [CvBitCast 32]
      | TFp FpDouble => [CvBitCast 64]
      | TPtr _ => [CvPtrToInt 64]
      | _ => []
      end ++ [CvZExtOrTrunc 64]).

(** [combineShadows] at the instruction [pos]; the size is built as an [i8]. *)
Definition combineShadows (s1 s2 : shadow) (op : Z) (pos : inst) : M tf shadow :=
  if decide (s1 = ZeroShadow ∧ s2 = ZeroShadow) then mret s1 else
  let ops := operands (i_kind pos) in
  let op0 := default (VConst 64 0) (head ops) in
  let t := type_of op0 in
  if is_fp t && negb ClTraceFP then mret ZeroShadow else
  if is_vec t then mret ZeroShadow else
  if negb (is_fp t) && negb (is_int t) && negb (is_ptr t) then mret ZeroShadow else
  let size := type_size_in_bits (i_ty pos) in
  if 64 <? size then mret ZeroShadow else
  let '(size, op) :=
    match i_kind pos with
    | ICompare _ _ predicate a _ =>
        (type_size_in_bits (type_of a), Z.lor op (u16 (Z.shiftl predicate 8)))
    | _ => (size, op)
    end in
  let x2 := match ops with
            | _ :: b :: _ => operand_to_int64 b
            | _ => (VConst 64 0, [])
            end in
  d ← fresh;
  emit_before (EUnion d s1 s2 (u16 op) (u8 size) (operand_to_int64 op0) x2) ;;
  mret (SVal d).

(** An [xor] of [i1] with the constant 1 is recorded as [Not]. *)
Definition combineBinaryOperatorShadows (pos : inst) (op : Z) (a b : val) : M tf shadow :=
  let op :=
    if match i_ty pos with TInt w => w =? 1 | _ => false end && (op =? op_Xor)
       && (is_constant_one b || is_constant_one a)
    then op_Not else u8 op in
  s1 ← getShadow a;
  s2 ← getShadow b;
  combineShadows s1 s2 op pos.
Definition combineCastInstShadows (pos : inst) (op : Z) (a : val) : M tf shadow :=
  s1 ← getShadow a; combineShadows s1 ZeroShadow (u8 op) pos.
Definition combineCmpInstShadows (pos : inst) (op : Z) (a b : val) : M tf shadow :=
  s1 ← getShadow a; s2 ← getShadow b; combineShadows s1 s2 (u8 op) pos.

(** ** Memory *)
Definition alloca_slot (addr : val) : M tf (option Z) :=
  t ← get;
  mret (match addr with VInst id => AllocaShadowMap t !! id | _ => None end).

Definition loadShadow (addr : val) (size : Z) : M tf shadow :=
  slot ← alloca_slot addr;
  match slot with
  | Some slot => d ← fresh; emit_before (ESlotLoad d slot 0) ;; mret (SVal d)
  | None =>
      if forallb constant_object (GetUnderlyingObjects addr) then mret ZeroShadow else
      emit_before (EShadowAddr addr) ;;
      if size =? 0 then mret ZeroShadow else
      d ← fresh; emit_before (EUnionLoad d addr size) ;; mret (SVal d)
  end.

Definition storeShadow (addr : val) (size : Z) (s : shadow) : M tf () :=
  slot ← alloca_slot addr;
  match slot with
  | Some slot => emit_before (ESlotStore slot 0 s)
  | None =>
      emit_before (EShadowAddr addr) ;;
      if decide (s = ZeroShadow) then emit_before (EZeroStore addr size)
      else emit_before (EUnionStore s addr size)
  end.

(** ** Conditions *)
Definition visitCondition (c : val) : M tf () :=
  s ← getShadow c;
  if decide (s = ZeroShadow) then mret () else emit_before (ETraceCond s c).

(** ** The visitor *)
Definition visitLoadInst (i : inst) (ptr : val) : M tf () :=
  if i_nosanitize i then mret () else
  let size := type_store_size (i_ty i) in
  if size =? 0 then setShadow (i_id i) ZeroShadow else
  s ← loadShadow ptr size;
  (if decide (s = ZeroShadow) then mret () else nonzero_check s) ;;
  setShadow (i_id i) s.

Definition visitStoreInst (i : inst) (v ptr : val) : M tf () :=
  if i_nosanitize i then mret () else
  t ← get;
  if decide (i_id i ∈ StoreInsts t) then mret () else
  let size := type_store_size (type_of v) in
  if size =? 0 then mret () else
  s ← getShadow v;
  storeShadow ptr size s.

Definition visitBinaryOperator (i : inst) (op : Z) (a b : val) : M tf () :=
  if i_nosanitize i then mret () else
  if is_fp (i_ty i) then mret () else
  s ← combineBinaryOperatorShadows i op a b; setShadow (i_id i) s.

Definition visitCastInst (i : inst) (op : Z) (a : val) : M tf () :=
  if i_nosanitize i then mret () else
  s ← combineCastInstShadows i op a; setShadow (i_id i) s.

Definition visitCmpInst (i : inst) (integer : bool) (op : Z) (a b : val) : M tf () :=
  if i_nosanitize i then mret () else
  if negb ClTraceFP && negb integer then mret () else
  s ← combineCmpInstShadows i op a b; setShadow (i_id i) s.

Definition visitBranchInst (i : inst) (c : option val) : M tf () :=
  if i_nosanitize i then mret () else
  match c with Some c => visitCondition c | None => mret () end.

(** One comparison with the constant of each case. *)
Definition visitSwitchInst (i : inst) (c : val) (cases : list Z) : M tf () :=
  if i_nosanitize i then mret () else
  s ← getShadow c;
  if decide (s = ZeroShadow) then mret () else
  let size := type_size_in_bits (type_of c) in
  for_each cases (λ k,
    emit_before (ETraceCmp s ZeroShadow (u32 size) icmp_eq (c, [CvZExtOrTrunc 64])
                   (VConst size k, [CvZExtOrTrunc 64]))).

(** The walk over the indices: [et] is the type indexed; only non-constant
    indices into arrays are traced. *)
Definition element_at (t : ty) (idx : val) : ty :=
  match t with
  | TArray e | TVec e => e
  | TStruct fs => match idx with VConst _ n => default TVoid (fs !! Z.to_nat n) | _ => TVoid end
  | _ => TVoid
  end.
Definition is_composite (t : ty) : bool :=
  match t with TArray _ | TVec _ | TStruct _ => true | _ => false end.
Fixpoint gep_indices (et : ty) (idx : list val) : M tf () :=
  match idx with
  | [] => mret ()
  | index :: idx =>
      if negb (is_composite et) then
        match et with TPtr e => gep_indices e idx | _ => mret () end
      else
        let et' := element_at et index in
        if is_constant index then gep_indices et' idx
        else if negb (is_array et) then gep_indices et' idx
        else
          s ← getShadow index;
          (if decide (s = ZeroShadow) then mret ()
           else emit_before (ETraceGep s (index, [CvZExtOrTrunc 64]))) ;;
          gep_indices et' idx
  end.
Definition visitGetElementPtrInst (i : inst) (ptr : val) (idx : list val) : M tf () :=
  if negb ClTraceGEPOffset then mret () else
  if i_nosanitize i then mret () else
  gep_indices (type_of ptr) idx.

(** A stack variable that is only loaded and stored keeps its label in a slot
    of its own. *)
Definition loads_or_stores (id : Z) (u : inst) : bool :=
  match i_kind u with
  | ILoad _ => true
  | IStore _ ptr => bool_decide (ptr = VInst id)
  | _ => false
  end.
Definition visitAllocaInst (i : inst) : M tf () :=
  (if forallb (loads_or_stores (i_id i)) (users F (i_id i)) then
     slot ← fresh;
     emit_before (ESlotAlloca slot 1) ;;
     modify (λ t, set_allocas (<[i_id i := slot]> (AllocaShadowMap t)) t)
   else mret ()) ;;
  setShadow (i_id i) ZeroShadow.

Definition visitSelectInst (i : inst) (c a b : val) : M tf () :=
  sa ← getShadow a;
  sb ← getShadow b;
  if is_vec (type_of c) then setShadow (i_id i) ZeroShadow else
  s ← (if decide (sa = sb) then mret sa
       else d ← fresh; emit_before (ESelect d c sa sb) ;; mret (SVal d));
  visitCondition c ;;
  setShadow (i_id i) s.

Definition visitMemSetInst (dest v len : val) : M tf () :=
  s ← getShadow v; emit_before (ESetLabel s dest len).
Definition visitMemTransferInst (dest src len : val) : M tf () :=
  emit_before (EShadowAddr dest) ;; emit_before (EShadowAddr src) ;;
  emit_before (EMemTransfer dest src len).

Definition visitReturnInst (v : option val) : M tf () :=
  match v with
  | Some v =>
      if IsNativeABI then mret () else
      s ← getShadow v;
      match ABI with
      | IA_TLS => emit_before (ERetStore s)
      | IA_Args => emit_before (EReturnPair v s)
      end
  | None => mret ()
  end.

(** A phi node gets a phi node of labels; its incoming labels are filled in
    once the whole function was visited. *)
Definition visitPHINode (i : inst) (incoming : list (val * Z)) : M tf () :=
  d ← fresh;
  emit_before (EPhi d ((λ p, (None, p.2)) <$> incoming)) ;;
  modify (λ t, set_fixups (PHIFixups t ++ [(i, d)]) t) ;;
  setShadow (i_id i) (SVal d).

(** ** Call sites *)

(** The function type behind a pointer parameter. *)
Definition fn_pointee (t : ty) : option ty :=
  match t with TPtr (TFun r ps v) => Some (TFun r ps v) | _ => None end.

(** [getArgsFunctionType], [getTrampolineFunctionType], [getCustomFunctionType] *)
Definition ShadowTy : ty := TInt ShadowWidth.
Definition ShadowPtrTy : ty := TPtr ShadowTy.
Definition getArgsFunctionType (t : ty) : ty :=
  let ps := fun_params t in
  TFun (if is_void (fun_ret t) then TVoid else TStruct [fun_ret t; ShadowTy])
    (ps ++ replicate (length ps) ShadowTy ++ (if fun_vararg t then [ShadowPtrTy] else []))
    (fun_vararg t).
Definition getTrampolineFunctionType (t : ty) : ty :=
  let ps := fun_params t in
  TFun (fun_ret t)
    (TPtr t :: ps ++ replicate (length ps) ShadowTy
     ++ (if is_void (fun_ret t) then [] else [ShadowPtrTy]))
    false.
Fixpoint custom_params (ps : list ty) (argTypes : list ty) (mapping : list nat)
    : list ty * list nat :=
  match ps with
  | [] => (argTypes, mapping)
  | p :: ps =>
      let mapping := mapping ++ [length argTypes] in
      match fn_pointee p with
      | Some ft =>
          custom_params ps (argTypes ++ [TPtr (getTrampolineFunctionType ft); TPtr (TInt 8)]) mapping
      | None => custom_params ps (argTypes ++ [p]) mapping
      end
  end.
(** The transformed type and [ArgumentIndexMapping]. *)
Definition getCustomFunctionType (t : ty) : ty * list nat :=
  let ps := fun_params t in
  let '(argTypes, mapping) := custom_params ps [] [] in
  (TFun (fun_ret t)
     (argTypes ++ replicate (length ps) ShadowTy
      ++ (if fun_vararg t then [ShadowPtrTy] else [])
      ++ (if is_void (fun_ret t) then [] else [ShadowPtrTy]))
     (fun_vararg t), mapping).

(** The arguments of a call to a custom function; a function pointer goes
    with a trampoline. *)
Fixpoint custom_args (fname : string) (k : nat) (args : list val) : M tf (list carg) :=
  match args with
  | [] => mret []
  | a :: args =>
      here ← match fn_pointee (type_of a) with
             | Some ft =>
                 let tname := ("dfst" +:+ pretty (Z.of_nat k) +:+ "$" +:+ fname)%string in
                 modify (λ t, set_trampolines (tf_trampolines t ++ [(tname, ft)]) t) ;;
                 mret [ATrampoline tname ft; AFnPtr a]
             | None => mret [AVal a]
             end;
      rest ← custom_args fname (S k) args;
      mret (here ++ rest)
  end.
Fixpoint shadows_of (args : list val) : M tf (list shadow) :=
  match args with
  | [] => mret []
  | a :: args => s ← getShadow a; rest ← shadows_of args; mret (s :: rest)
  end.
(** The labels of the variable arguments, stored in an array on the stack. *)
Fixpoint store_labels (slot k : Z) (args : list val) : M tf () :=
  match args with
  | [] => mret ()
  | a :: args => s ← getShadow a; emit_before (ESlotStore slot k s) ;; store_labels slot (k + 1) args
  end.
Definition label_array (args : list val) : M tf Z :=
  slot ← fresh;
  emit_entry (ESlotAlloca slot (Z.of_nat (length args))) ;;
  store_labels slot 0 args ;;
  mret slot.
(** [LabelReturnAlloca], allocated once per function *)
Definition label_return : M tf Z :=
  t ← get;
  match LabelReturnAlloca t with
  | Some slot => mret slot
  | None =>
      slot ← fresh;
      emit_entry (ESlotAlloca slot 1) ;;
      modify (set_label_return (Some slot)) ;;
      mret slot
  end.

(** [case WK_Custom] for a [CallInst] *)
Definition custom_call (i : inst) (fname : string) (args : list val) : M tf () :=
  let ft := fn_type fname in
  let n := length (fun_params ft) in
  fixed ← custom_args fname 0 (take n args);
  shadows ← shadows_of (take n args);
  va ← (if fun_vararg ft then slot ← label_array (drop n args); mret [ASlot slot 0] else mret []);
  ret ← (if is_void (fun_ret ft) then mret [] else slot ← label_return; mret [ASlot slot 0]);
  emit_before (ECall (i_id i) (CalleeFun ("__dfsw_" +:+ fname)) (getCustomFunctionType ft).1
                 (fixed ++ (AShadow <$> shadows) ++ va ++ ret ++ (AVal <$> drop n args)) false) ;;
  (if is_void (fun_ret ft) then mret ()
   else slot ← label_return;
        d ← fresh; emit_before (ESlotLoad d slot 0) ;; setShadow (i_id i) (SVal d)) ;;
  erase.

(** A call with the instrumented ABI: labels of the arguments in
    [__dfsan_arg_tls], the label of the result in [__dfsan_retval_tls]. *)
Fixpoint store_args (k : Z) (args : list val) : M tf () :=
  match args with
  | [] => mret ()
  | a :: args => s ← getShadow a; emit_before (EArgStore k s) ;; store_args (k + 1) args
  end.
Definition tls_call (i : inst) (fty : ty) (args : list val) : M tf () :=
  store_args 0 (take (length (fun_params fty)) args) ;;
  if is_void (i_ty i) then mret () else
  d ← fresh;
  emit_after (ERetLoad d) ;;
  modify (λ t, set_skip ({[ d ]} ∪ SkipInsts t) t) ;;
  setShadow (i_id i) (SVal d) ;;
  nonzero_check (SVal d).

(** A call with labels as extra arguments and a pair as result. *)
Definition args_call (i : inst) (f : callee) (fty : ty) (args : list val) (invoke : bool)
    : M tf () :=
  let n := length (fun_params fty) in
  shadows ← shadows_of (take n args);
  va ← (if fun_vararg fty then slot ← label_array (drop n args); mret [ASlot slot 0] else mret []);
  c ← fresh;
  emit_before (ECall c f (getArgsFunctionType fty)
                 ((AVal <$> take n args) ++ (AShadow <$> shadows) ++ va
                  ++ (if fun_vararg fty then AVal <$> drop n args else [])) invoke) ;;
  (if is_void (i_ty i) then mret ()
   else emit_after (EExtract (i_id i) c 0) ;;
        d ← fresh;
        emit_after (EExtract d c 1) ;;
        modify (λ t, set_skip ({[ i_id i; d ]} ∪ SkipInsts t) t) ;;
        setShadow (i_id i) (SVal d) ;;
        nonzero_check (SVal d)) ;;
  erase.
Definition instrumented_call (i : inst) (f : callee) (fty : ty) (args : list val) (invoke : bool)
    : M tf () :=
  match ABI with
  | IA_TLS => tls_call i fty args
  | IA_Args => args_call i f fty args invoke
  end.

Definition visitCallSite (i : inst) (f : callee) (fty : ty) (args : list val) (invoke : bool)
    : M tf () :=
  match f with
  | CalleeIntrinsic | CalleeAsm => mret ()
  | _ =>
      if match f with CalleeFun n => String.eqb n "__dfsan_vararg_wrapper" | _ => false end
      then mret () else
      (match f with
       | CalleeVal v =>
           s ← getShadow v;
           if decide (s = ZeroShadow) then mret () else emit_before (ETraceIndirectCall s)
       | _ => mret ()
       end) ;;
      match UnwrappedFnMap f with
      | Some fname =>
          match wrapper_kind fname with
          | WK_Warning =>
              set_called_function fname ;;
              emit_before (EUnimplemented fname) ;;
              setShadow (i_id i) ZeroShadow
          | WK_Discard => set_called_function fname ;; setShadow (i_id i) ZeroShadow
          | WK_Functional => set_called_function fname
          | WK_Custom =>
              if invoke then instrumented_call i f fty args invoke
              else custom_call i fname args
          end
      | None => instrumented_call i f fty args invoke
      end
  end.

(** ** A whole function *)
Definition visit (i : inst) : M tf () :=
  match i_kind i with
  | IBinary op a b => visitBinaryOperator i op a b
  | ICast op a => visitCastInst i op a
  | ICompare integer op _ a b => visitCmpInst i integer op a b
  | IBranch c => visitBranchInst i c
  | ISwitch c cases => visitSwitchInst i c cases
  | IGep p idx => visitGetElementPtrInst i p idx
  | ILoad p => visitLoadInst i p
  | IStore v p => visitStoreInst i v p
  | IReturn v => visitReturnInst v
  | ICall f fty args invoke => visitCallSite i f fty args invoke
  | IPhi inc => visitPHINode i inc
  | IAlloca => visitAllocaInst i
  | ISelect c a b => visitSelectInst i c a b
  | IMemSet d v l => visitMemSetInst d v l
  | IMemTransfer d s l => visitMemTransferInst d s l
  | IResume | IOther _ => mret ()
  end.

(** An instruction with the code around it. *)
Record item := Item { it_before : list emit; it_inst : inst; it_fate : fate; it_after : list emit }.

Definition visit_inst (i : inst) : M tf item :=
  modify (λ t, set_code (tf_entry t) [] [] Kept t) ;;
  t ← get;
  (if decide (i_id i ∈ SkipInsts t) then mret () else visit i) ;;
  t ← get;
  mret (Item (tf_before t) i (tf_fate t) (tf_after t)).
Fixpoint visit_insts (l : list inst) : M tf (list item) :=
  match l with
  | [] => mret []
  | i :: l => x ← visit_inst i; xs ← visit_insts l; mret (x :: xs)
  end.
Fixpoint visit_blocks (bs : list block) : M tf (list (Z * list item)) :=
  match bs with
  | [] => mret []
  | b :: bs => x ← visit_insts (b_insts b); xs ← visit_blocks bs; mret ((b_id b, x) :: xs)
  end.

(** The loop over [PHIFixups]: the incoming labels of each phi node. *)
Fixpoint fix_phis (l : list (inst * Z)) : M tf (list (Z * list shadow)) :=
  match l with
  | [] => mret []
  | (pn, d) :: l =>
      s ← shadows_of (operands (i_kind pn));
      rest ← fix_phis l;
      mret ((d, s) :: rest)
  end.

(** The inner loops of [runOnModule] for a function, blocks in the order of the
    depth-first list. *)
Definition instrument (bs : list block) : M tf (list (Z * list item) * list (Z * list shadow)) :=
  items ← visit_blocks bs;
  t ← get;
  phis ← fix_phis (PHIFixups t);
  mret (items, phis).
End pass.
