(* ===== verification/PassModule.v ===== *)
(** * The instrumentation of a module ([class Taint] of [pass/TaintPass.cc])

    Which functions are instrumented, which get a wrapper and of what kind, how
    names and types change, the recording of the calling context and the code
    that computes shadow addresses. [SpecialCaseList::inSection] of LLVM is a
    parameter. *)
From stdpp Require Import pretty.
From S2P Require Import Prelude Platform Labels Ir Pass.

(** ** The ABI list *)
Section abilist.
(** [SCL->inSection(Section, Prefix, Query, Category)] *)
Variable inSection : string → string → string → string → bool.

Definition isIn_module (m category : string) : bool := inSection "taint" "src" m category.
Definition isIn_function (m f category : string) : bool :=
  isIn_module m category || inSection "taint" "fun" f category.
(** [GetGlobalTypeString] of the aliased type *)
Definition isIn_alias (m ga : string) (aliases_function : bool) (global_type category : string)
    : bool :=
  if isIn_module m category then true
  else if aliases_function then inSection "taint" "fun" ga category
  else inSection "taint" "global" ga category || inSection "dataflow" "type" global_type category.

Definition isInstrumented (m f : string) : bool := negb (isIn_function m f "uninstrumented").
Definition isInstrumented_alias (m ga : string) (aliases_function : bool) (gt : string) : bool :=
  negb (isIn_alias m ga aliases_function gt "uninstrumented").

Definition getWrapperKind (m f : string) : WrapperKind :=
  if isIn_function m f "custom" then WK_Custom
  else if isIn_function m f "functional" then WK_Functional
  else if isIn_function m f "discard" then WK_Discard
  else WK_Warning.

Variable ClArgsABI : bool.
Definition getInstrumentedABI : InstrumentedABI := if ClArgsABI then IA_Args else IA_TLS.

(** ** The change of the ABI of each function (first loop of [runOnModule]) *)
Inductive abi_action :=
| Rename (name : string) (t : ty)
| Wrap (wrapper : string) (t : ty) (native : bool)
| NoWrapper
| Untouched.

Definition is_zero_args_void (t : ty) : bool :=
  Nat.eqb (length (fun_params t)) 0 && negb (fun_vararg t) && is_void (fun_ret t).

Definition change_abi (m f : string) (t : ty) (is_declaration : bool) : abi_action :=
  if isInstrumented m f then
    if bool_decide (getInstrumentedABI = IA_Args) && negb (is_zero_args_void t)
    then Rename ("dfs$" +:+ f) (getArgsFunctionType t)
    else Rename ("dfs$" +:+ f) t
  else if negb (is_zero_args_void t) || bool_decide (getWrapperKind m f = WK_Custom) then
    Wrap ("dfsw$" +:+ f)
      (if bool_decide (getInstrumentedABI = IA_Args) then getArgsFunctionType t else t)
      (negb is_declaration)
  else if fun_vararg t then NoWrapper
  else Untouched.

(** Aliases: renamed with the function they stand for, or replaced by a wrapper
    when only one of the two is instrumented. *)
Inductive alias_action := AliasPrefix (name : string) | AliasWrapper | AliasKept.
Definition change_alias (m ga f gt : string) : alias_action :=
  let gaInst := isInstrumented_alias m ga true gt in
  let fInst := isInstrumented m f in
  if gaInst && fInst then AliasPrefix ("dfs$" +:+ ga)
  else if negb (Bool.eqb gaInst fInst) then AliasWrapper
  else AliasKept.

(** ** Wrappers ([buildWrapperFunction]) *)
Inductive wrapper_body :=
| WVarargTrap (fname : string)
| WForward (f : string) (nargs : nat) (returns : bool).
Definition buildWrapperFunction (m f : string) (t : ty) : wrapper_body :=
  if fun_vararg t && negb (bool_decide (getWrapperKind m f = WK_Discard)) then WVarargTrap f
  else WForward f (length (fun_params t)) (negb (is_void (fun_ret t))).
End abilist.

(** [addGlobalNamePrefix]: the new name, and the module's inline assembly with
    the first [.symver] directive of the old name changed. *)
Fixpoint find_replace (pat rep s : string) : option string :=
  if String.prefix pat s
  then Some (rep +:+ String.substring (String.length pat) (String.length s - String.length pat) s)
  else match s with
       | EmptyString => None
       | String c s => String c <$> find_replace pat rep s
       end.
Definition addGlobalNamePrefix (name asm : string) : string * string :=
  ("dfs$" +:+ name,
   default asm (find_replace (".symver " +:+ name +:+ ",")
                  (".symver " +:+ "dfs$" +:+ name +:+ "," +:+ "dfs$") asm)).

(** ** Attributes of calls to custom functions ([TransformFunctionAttributes]) *)
Section attributes.
Context {A : Type} (none : A).
(** the attributes of the parameters of the call: those of a parameter move with
    it, those of variable arguments go to the end *)
Definition TransformFunctionAttributes (nparams newparams : nat) (mapping : list nat)
    (site : list A) : list A :=
  foldl (λ acc '(k, pos), <[pos := default none (site !! k)]> acc)
    (replicate newparams none) (imap pair mapping)
  ++ drop nparams site.
End attributes.

(** ** Trampolines ([getOrBuildTrampolineFunction])

    A trampoline takes a function pointer, the [n] arguments, their [n] labels
    and, unless the function returns nothing, a pointer for the label of the
    result: it is visited as a function with the native ABI whose arguments
    have the label parameters as labels. *)
Section trampoline.
Context {Ops : LlvmOps} {DL : DataLayout} {PE : PassEnv}.

Definition trampoline_call (ft : ty) : inst :=
  let n := length (fun_params ft) in
  Inst 0 (fun_ret ft)
    (ICall (CalleeVal (VArgument 0)) ft (VArgument <$> range 1 (1 + Z.of_nat n)) false) false.
Definition trampoline_shadows (n : nat) : gmap Z shadow :=
  list_to_map ((λ k, (k, SParam (Z.of_nat n + k))) <$> range 1 (1 + Z.of_nat n)).
Definition getOrBuildTrampolineFunction (fname : string) (ft : ty) : M tf item :=
  let n := length (fun_params ft) in
  let i := trampoline_call ft in
  let F := Func fname (getTrampolineFunctionType ft) [] in
  modify (set_args (trampoline_shadows n)) ;;
  x ← visit_inst F true i;
  (if is_void (fun_ret ft) then mret x
   else s ← getShadow F true (VInst (i_id i));
        mret (Item (it_before x) (it_inst x) (it_fate x)
                (it_after x ++ [EParamStore (2 * Z.of_nat n + 1) s]))).
End trampoline.

(** The functions of the module that are visited: not the intrinsics, not the
    runtime's. *)
Definition runtime_functions : list string :=
  ["__taint_union"; "taint_union"; "__taint_union_load"; "__taint_union_store";
   "__dfsan_unimplemented"; "__dfsan_set_label"; "__dfsan_nonzero_label";
   "__dfsan_vararg_wrapper"; "__taint_trace_cmp"; "__taint_trace_cond";
   "__taint_trace_indcall"; "__taint_trace_gep"; "__taint_debug"]%string.
Definition FnsToInstrument (fns : list (string * bool)) : list string :=
  (filter (λ f, negb f.2 && negb (bool_decide (f.1 ∈ runtime_functions))) fns).*1.

(** ** Shadow addresses ([doInitialization], [getShadowAddress]) *)
Inductive triple := X86_64 | Mips64 | AArch64 | OtherTriple.
(** The mask the pass uses; [inr] on AArch64: loaded at run time from
    [__dfsan_shadow_ptr_mask]. *)
Definition ShadowPtrMask (t : triple) : option (Z + ()) :=
  match t with
  | X86_64 => Some (inl (u64 (Z.lnot 0x700000000000)))
  | Mips64 => Some (inl (u64 (Z.lnot 0xF000000000)))
  | AArch64 => Some (inr ())
  | OtherTriple => None
  end.
Definition ShadowPtrMul : Z := ShadowWidth / 8.
Definition getShadowAddress (mask addr : Z) : Z := u64 (Z.land addr mask * ShadowPtrMul).

(** ** The calling context ([addContextRecording]) *)
Inductive ctx_inst :=
| CtxEnter (cid : Z)  (** load, xor, store of [__taint_trace_callstack] *)
| CtxLeave            (** store of the loaded value *)
| CtxOrig (i : inst).

Definition leaves (i : inst) : bool :=
  match i_kind i with IReturn _ | IResume => true | _ => false end.
Definition context_block (l : list inst) : list ctx_inst :=
  concat ((λ i, if leaves i then [CtxLeave; CtxOrig i] else [CtxOrig i]) <$> l).
(** [BB->getFirstInsertionPt()]: after the phi nodes, of which an entry block
    has none *)
Definition addContextRecording (cid : Z) (bs : list block) : list (Z * list ctx_inst) :=
  match bs with
  | [] => []
  | b :: bs =>
      (b_id b, CtxEnter (u32 cid) :: context_block (b_insts b))
      :: ((λ b, (b_id b, context_block (b_insts b))) <$> bs)
  end.
