(* ===== verification/PassRun.v ===== *)
(** * Running instrumented code

    The meaning of the instructions of [Ir.v] on integers (the LLVM language
    reference) and of the code the pass inserts, which calls the runtime: the
    specification the instrumentation is measured against. Values are unsigned;
    an operation the language leaves undefined stops the run. *)
From S2P Require Import Prelude Platform Labels UnionTable Union Z3 State Denote Shadow Solver Libc Ir Pass PassModule.

(** ** Integer instructions *)
Section values.
Context {Ops : LlvmOps}.

(** Binary operators at width [w]; [None]: undefined or poison. *)
Definition bin_val (op w a b : Z) : option Z :=
  let x := swrap w a in let y := swrap w b in
  if op =? op_And then Some (Z.land a b)
  else if op =? op_Or then Some (Z.lor a b)
  else if op =? op_Xor then Some (Z.lxor a b)
  else if op =? op_Shl then if w <=? b then None else Some (wrap w (Z.shiftl a b))
  else if op =? op_LShr then if w <=? b then None else Some (Z.shiftr a b)
  else if op =? op_AShr then if w <=? b then None else Some (wrap w (Z.shiftr x b))
  else if op =? op_Add then Some (wrap w (a + b))
  else if op =? op_Sub then Some (wrap w (a - b))
  else if op =? op_Mul then Some (wrap w (a * b))
  else if op =? op_UDiv then if b =? 0 then None else Some (a / b)
  else if op =? op_SDiv then
    if (b =? 0) || ((x =? - 2 ^ (w - 1)) && (y =? -1)) then None else Some (wrap w (Z.quot x y))
  else if op =? op_URem then if b =? 0 then None else Some (a mod b)
  else if op =? op_SRem then
    if (b =? 0) || ((x =? - 2 ^ (w - 1)) && (y =? -1)) then None else Some (wrap w (Z.rem x y))
  else None.

(** Comparisons by LLVM's predicate numbers. *)
Definition cmp_val (pred w a b : Z) : option bool :=
  let x := swrap w a in let y := swrap w b in
  if pred =? 32 then Some (a =? b)
  else if pred =? 33 then Some (negb (a =? b))
  else if pred =? 34 then Some (b <? a)
  else if pred =? 35 then Some (b <=? a)
  else if pred =? 36 then Some (a <? b)
  else if pred =? 37 then Some (a <=? b)
  else if pred =? 38 then Some (y <? x)
  else if pred =? 39 then Some (y <=? x)
  else if pred =? 40 then Some (x <? y)
  else if pred =? 41 then Some (x <=? y)
  else None.

(** Casts from width [w] to width [w']. *)
Definition cast_val (op w w' a : Z) : option Z :=
  if op =? op_Trunc then Some (wrap w' a)
  else if op =? op_ZExt then Some a
  else if op =? op_SExt then Some (wrap w' (swrap w a))
  else None.
End values.

Definition int_width (t : ty) : Z := match t with TInt w => w | _ => 0 end.

(** ** The machine *)
Section machine.
Context {Zi : Z3} {Ops : LlvmOps} {DL : DataLayout} {PE : PassEnv}.

(** The values of instructions and arguments, the labels of inserted
    instructions, of label parameters and of stack slots, the thread-local
    labels of arguments and result, and the state of the runtime. *)
Record mach := Mach {
  mc_vals : gmap Z Z;
  mc_args : gmap Z Z;
  mc_shadows : gmap Z Z;
  mc_params : gmap Z Z;
  mc_slots : gmap (Z * Z) Z;
  mc_argtls : gmap Z Z;
  mc_retval : Z;
  mc_rt : rt;
}.
Definition set_vals x (m : mach) : mach :=
  Mach x (mc_args m) (mc_shadows m) (mc_params m) (mc_slots m) (mc_argtls m) (mc_retval m) (mc_rt m).
Definition set_shadows x (m : mach) : mach :=
  Mach (mc_vals m) (mc_args m) x (mc_params m) (mc_slots m) (mc_argtls m) (mc_retval m) (mc_rt m).
Definition set_slots x (m : mach) : mach :=
  Mach (mc_vals m) (mc_args m) (mc_shadows m) (mc_params m) x (mc_argtls m) (mc_retval m) (mc_rt m).
Definition set_argtls x (m : mach) : mach :=
  Mach (mc_vals m) (mc_args m) (mc_shadows m) (mc_params m) (mc_slots m) x (mc_retval m) (mc_rt m).
Definition set_retval x (m : mach) : mach :=
  Mach (mc_vals m) (mc_args m) (mc_shadows m) (mc_params m) (mc_slots m) (mc_argtls m) x (mc_rt m).
Definition set_rt x (m : mach) : mach :=
  Mach (mc_vals m) (mc_args m) (mc_shadows m) (mc_params m) (mc_slots m) (mc_argtls m)
    (mc_retval m) x.

Definition on_rt {A} (c : M rt A) : M mach A := zoom mc_rt set_rt c.

Definition value_of (m : mach) (v : val) : option Z :=
  match v with
  | VConst _ n => Some n
  | VArgument n => mc_args m !! n
  | VInst id => mc_vals m !! id
  | VGlobal _ => None
  end.
Definition label_of (m : mach) (s : shadow) : Z :=
  match s with
  | ZeroShadow => 0
  | SParam n => default 0 (mc_params m !! n)
  | SVal id => default 0 (mc_shadows m !! id)
  end.

(** Undefined behaviour of the program itself. *)
Definition undefined : string := "undefined behaviour".
Definition operand (v : val) : M mach Z :=
  m ← get;
  match value_of m v with Some n => mret n | None => terminate undefined end.
Definition label (s : shadow) : M mach Z := gets (λ m, label_of m s).
Definition apply_conv (n : Z) (c : conv) : Z :=
  match c with CvBitCast w | CvPtrToInt w | CvZExtOrTrunc w => wrap w n end.
Definition operand64 (x : arg64) : M mach Z := n ← operand x.1; mret (foldl apply_conv n x.2).

Definition define_shadow (d l : Z) : M mach () :=
  modify (λ m, set_shadows (<[d := l]> (mc_shadows m)) m).
Definition define (id : Z) (n : option Z) : M mach () :=
  match n with
  | Some n => modify (λ m, set_vals (<[id := n]> (mc_vals m)) m)
  | None => terminate undefined
  end.

Definition x86_mask : Z := u64 (Z.lnot 0x700000000000).
Definition shadow_address (v : val) : M mach Z := a ← operand v; mret (getShadowAddress x86_mask a).

(** [memmove] of [n] cells; [memcpy] is the case of ranges that do not overlap. *)
Definition move_cells (stride : Z) (m : gmap Z Z) (d a n : Z) : gmap Z Z :=
  if d <? a then copy_fwd stride m d a n else copy_bwd stride m d a n.

(** The code the pass inserts in a run without calls; [pc] is the address the
    trace functions take from the stack. *)
Definition run_emit (pc : Z) (e : emit) : M mach () :=
  match e with
  | EArgLoad d k => m ← get; define_shadow d (default 0 (mc_argtls m !! k))
  | EArgStore k s => l ← label s; modify (λ m, set_argtls (<[k := l]> (mc_argtls m)) m)
  | ERetLoad d => m ← get; define_shadow d (mc_retval m)
  | ERetStore s => l ← label s; modify (set_retval l)
  | ESlotAlloca _ _ | EShadowAddr _ | EUnimplemented _ | EPhi _ _ => mret ()
  | ESlotLoad d slot k => m ← get; define_shadow d (default 0 (mc_slots m !! (slot, k)))
  | ESlotStore slot k s => l ← label s; modify (λ m, set_slots (<[(slot, k) := l]> (mc_slots m)) m)
  | EUnion d s1 s2 op size x1 x2 =>
      l1 ← label s1; l2 ← label s2;
      n1 ← operand64 x1; n2 ← operand64 x2;
      l ← on_rt (r_union l1 l2 op size n1 n2);
      define_shadow d l
  | EUnionLoad d addr size =>
      a ← shadow_address addr; l ← on_rt (taint_union_load a size); define_shadow d l
  | EUnionStore s addr size =>
      l ← label s; a ← shadow_address addr; on_rt (taint_union_store l a size)
  | EZeroStore addr size =>
      a ← shadow_address addr; on_rt (for_each (range 0 size) (λ i, shadow_put a i 0))
  | ETraceCmp s1 s2 size pred x1 x2 =>
      l1 ← label s1; l2 ← label s2; n1 ← operand64 x1; n2 ← operand64 x2;
      on_rt (taint_trace_cmp l1 l2 size pred n1 n2 pc)
  | ETraceCond s v => l ← label s; n ← operand v; on_rt (taint_trace_cond l n pc)
  | ETraceGep s x => l ← label s; n ← operand64 x; on_rt (taint_trace_gep l n)
  | ETraceIndirectCall s => l ← label s; on_rt (taint_trace_indcall l)
  | ESelect d c s1 s2 =>
      n ← operand c; l ← label (if n =? 1 then s1 else s2); define_shadow d l
  | ESetLabel s dest len =>
      l ← label s; a ← operand dest; n ← operand len; on_rt (dfsan_set_label l a n)
  | EMemTransfer dest src len =>
      d ← shadow_address dest; a ← shadow_address src; n ← operand len;
      (* the length is multiplied by the size of a label in its own type *)
      let n := wrap (int_width (type_of len)) (n * 4) / 4 in
      on_rt (upd_shadow (λ m, move_cells 4 m d a n))
  | ECall _ _ _ _ _ | EReturnPair _ _ | EExtract _ _ _ | EParamStore _ _ =>
      terminate "outside the function"
  end.

(** ** Calls

    What the functions called by a call instruction do to the state of the
    caller, instrumented and not: they define the value of the instruction. The
    original run on another input follows that on a given input ([callee_follows])
    as long as the callee does the same branches, addresses and selects; the
    instrumented callee meets no labels the runtime confuses ([callee_clean]) and
    may trace conditions ([callee_traces]). [PassFun.v] gives the functions the
    pass has instrumented themselves. *)
Class Callees := {
  callee_instrumented : inst → M mach ();
  callee_original : inst → M mach ();
  callee_follows : input → inst → (input → option mach) → input → option mach;
  callee_clean : inst → mach → Prop;
  callee_traces : inst → Prop;
}.
Context {Cs : Callees}.

(** The indices of an address computation, as signed numbers. *)
Fixpoint index_values (m : mach) (idx : list val) : option (list Z) :=
  match idx with
  | [] => Some []
  | v :: idx =>
      x ← value_of m v; xs ← index_values m idx; Some (swrap (int_width (type_of v)) x :: xs)
  end.

(** The instruction itself, in the original program. *)
Definition run_inst (i : inst) : M mach () :=
  match i_kind i with
  | IBinary op a b =>
      x ← operand a; y ← operand b; define (i_id i) (bin_val op (int_width (i_ty i)) x y)
  | ICast op a =>
      x ← operand a;
      define (i_id i) (cast_val op (int_width (type_of a)) (int_width (i_ty i)) x)
  | ICompare true _ pred a b =>
      x ← operand a; y ← operand b;
      define (i_id i) (Z.b2z <$> cmp_val pred (int_width (type_of a)) x y)
  | ISelect c a b => n ← operand c; x ← operand (if n =? 1 then a else b); define (i_id i) (Some x)
  | IGep p idx =>
      a ← operand p;
      m ← get;
      define (i_id i) ((λ xs, u64 (a + gep_offset (type_of p) xs)) <$> index_values m idx)
  | ILoad p =>
      a ← operand p;
      m ← get;
      define (i_id i)
        (Some (wrap (int_width (i_ty i))
                 (le_combine (bytes_of (rt_mem (mc_rt m)) a ((int_width (i_ty i) + 7) / 8)))))
  | IStore v p =>
      a ← operand p; x ← operand v;
      on_rt (upd_mem (λ m, store_bytes m a
        ((λ k, u8 (Z.shiftr x (8 * k))) <$> range 0 ((int_width (type_of v) + 7) / 8))))
  | IMemSet dest v len =>
      a ← operand dest; x ← operand v; n ← operand len;
      on_rt (upd_mem (λ m, fill m a (u8 x) n))
  | IMemTransfer dest src len =>
      a ← operand dest; b ← operand src; n ← operand len;
      on_rt (upd_mem (λ m, move_cells 1 m a b n))
  | ICall _ _ _ _ => callee_original i
  | IBranch _ | ISwitch _ _ | IReturn _ | IResume => mret ()
  | _ => terminate "outside the function"
  end.
(** And in the instrumented one. *)
Definition run_kept (i : inst) : M mach () :=
  match i_kind i with ICall _ _ _ _ => callee_instrumented i | _ => run_inst i end.

Definition run_item (x : item) : M mach () :=
  for_each (it_before x) (run_emit (i_id (it_inst x))) ;;
  match it_fate x with
  | Kept => run_kept (it_inst x)
  | _ => mret ()
  end ;;
  for_each (it_after x) (run_emit (i_id (it_inst x))).
Definition run_items (l : list item) : M mach () := for_each l run_item.

(** ** Blocks

    When a block is entered from the block [pred], its phi nodes take their
    incoming values all at once; so do the phi nodes of labels. *)
Fixpoint incoming {A} (pred : Z) (l : list (A * Z)) : option A :=
  match l with
  | [] => None
  | (a, b) :: l => if b =? pred then Some a else incoming pred l
  end.
Definition is_phi (i : inst) : bool := match i_kind i with IPhi _ => true | _ => false end.
Definition phi_value (pred : Z) (m : mach) (i : inst) : option (Z * Z) :=
  match i_kind i with
  | IPhi inc => v ← incoming pred inc; n ← value_of m v; Some (i_id i, n)
  | _ => None
  end.
Definition phi_label (pred : Z) (m : mach) (x : item) : option (Z * Z) :=
  match it_before x with
  | [EPhi d inc] => s ← incoming pred inc; s ← s; Some (d, label_of m s)
  | _ => None
  end.
Definition enter (pred : Z) (l : list inst) (m : mach) : option mach :=
  ns ← mapM (phi_value pred m) (filter is_phi l);
  Some (set_vals (list_to_map ns ∪ mc_vals m) m).
Definition enter_items (pred : Z) (xs : list item) (m : mach) : option mach :=
  m' ← enter pred (it_inst <$> xs) m;
  ls ← mapM (phi_label pred m) (filter (λ x, is_phi (it_inst x)) xs);
  Some (set_shadows (list_to_map ls ∪ mc_shadows m) m').
Definition body (l : list inst) : list inst := filter (λ i, negb (is_phi i)) l.
Definition item_body (xs : list item) : list item := filter (λ x, negb (is_phi (it_inst x))) xs.
Definition run_block (p : Z * list item) : M mach () :=
  m ← get;
  match enter_items p.1 p.2 m with
  | Some m' => put m' ;; run_items (item_body p.2)
  | None => terminate undefined
  end.
(** A path: the blocks executed, each with the block it was entered from. *)
Definition run_path (path : list (Z * list item)) : M mach () := for_each path run_block.

(** The phi nodes of labels with the incoming labels set in the end. *)
Definition link_emit (phis : gmap Z (list shadow)) (e : emit) : emit :=
  match e with
  | EPhi d inc =>
      match phis !! d with Some ss => EPhi d (zip (Some <$> ss) inc.*2) | None => e end
  | _ => e
  end.
Definition link (phis : gmap Z (list shadow)) (x : item) : item :=
  Item (link_emit phis <$> it_before x) (it_inst x) (it_fate x) (it_after x).
End machine.
