(* ===== verification/PassSpec.v ===== *)
(** * Soundness of the instrumentation

    Executing the instrumented code keeps every value tracked: the label of a
    value is 0, or it denotes, as a function of the input, a value of the type's
    width, which on the input being run is the value computed. *)
From S2P Require Import Prelude Platform Labels UnionTable Union Z3 State Denote Shadow ShadowSpec Libc Ir Pass PassModule PassRun.

(** ** Operators on encoded values *)
Section operators.
Context {Ops : LlvmOps}.

(** How a [w]-bit value is represented in the meaning of labels. *)
Definition enc (w n : Z) : value := if w =? 1 then VBool (n =? 1) else VBV w n.

Definition binops : list Z :=
  [op_Add; op_Sub; op_Mul; op_UDiv; op_SDiv; op_URem; op_SRem; op_Shl; op_LShr; op_AShr;
   op_And; op_Or; op_Xor].

(** The total operators of the solver, in the order of [bin_sem]. *)
Definition bv_bin (op w a b : Z) : Z :=
  if op =? op_And then Z.land a b
  else if op =? op_Or then Z.lor a b
  else if op =? op_Xor then Z.lxor a b
  else if op =? op_Shl then bvshl w a b
  else if op =? op_LShr then bvlshr w a b
  else if op =? op_AShr then bvashr w a b
  else if op =? op_Add then bvadd w a b
  else if op =? op_Sub then bvsub w a b
  else if op =? op_Mul then bvmul w a b
  else if op =? op_UDiv then bvudiv w a b
  else if op =? op_SDiv then bvsdiv w a b
  else if op =? op_URem then bvurem w a b
  else bvsrem w a b.

Lemma binop_other op :
  op ∈ binops → 2 < op ≤ last_llvm_op ∧
    op ≠ op_Trunc ∧ op ≠ op_ZExt ∧ op ≠ op_SExt ∧ op ≠ op_ICmp.
Proof.
  intros Hop. pose proof llvm_ops_nodup as Hnd. pose proof llvm_ops_range as Hr.
  change (NoDup (binops ++ [op_Trunc; op_ZExt; op_SExt; op_ICmp])) in Hnd.
  change (Forall (λ o, 2 < o ≤ last_llvm_op) (binops ++ [op_Trunc; op_ZExt; op_SExt; op_ICmp])) in Hr.
  apply NoDup_app in Hnd as (_ & Hd & _). apply Forall_app in Hr as [Hr _].
  rewrite Forall_forall in Hr. specialize (Hd _ Hop). specialize (Hr _ Hop).
  split; [lia|]. split_and!; intros ->; apply Hd; set_solver.
Qed.

Lemma op_low_byte op : 0 ≤ op < 256 → Z.land op 255 = op.
Proof. intros Ho. change 255 with (Z.ones 8). rewrite Z.land_ones by lia. by apply Z.mod_small. Qed.

Lemma land_bit a b : in_range 1 a → in_range 1 b →
  (Z.land a b =? 1) = (a =? 1) && (b =? 1).
Proof.
  intros Ha Hb. assert (a = 0 ∨ a = 1) as [->| ->] by (unfold in_range in *; lia);
    assert (b = 0 ∨ b = 1) as [->| ->] by (unfold in_range in *; lia); done.
Qed.
Lemma lor_bit a b : in_range 1 a → in_range 1 b →
  (Z.lor a b =? 1) = (a =? 1) || (b =? 1).
Proof.
  intros Ha Hb. assert (a = 0 ∨ a = 1) as [->| ->] by (unfold in_range in *; lia);
    assert (b = 0 ∨ b = 1) as [->| ->] by (unfold in_range in *; lia); done.
Qed.

(** On encoded operands a record of a binary operator means [bv_bin]. *)
Lemma bin_sem_enc op w a b :
  op ∈ binops → 1 ≤ w → (w = 1 → op = op_And ∨ op = op_Or) → in_range w a → in_range w b →
  bin_sem op w (enc w a) (enc w b) = Some (enc w (bv_bin op w a b)).
Proof.
  intros Hop Hw H1 Ha Hb. pose proof last_llvm_op_bound as Hlast.
  destruct (binop_other op Hop) as (Hr & _).
  unfold bin_sem. rewrite op_low_byte by lia. cbv zeta. unfold bv_bin, enc, same_width.
  destruct (Z.eqb_spec w 1) as [->|Hne].
  - destruct (Z.eqb_spec op op_And) as [->|HA]; [by rewrite land_bit|].
    destruct (Z.eqb_spec op op_Or) as [->|HO]; [by rewrite lor_bit|].
    destruct (H1 eq_refl); congruence.
  - rewrite Z.eqb_refl.
    repeat match goal with |- context [if op =? ?x then _ else _] => destruct (Z.eqb_spec op x); [done|] end.
    all: exfalso; revert Hop; unfold binops; set_solver.
Qed.

(** Where LLVM defines the result it is the solver's. *)
Lemma swrap_zero w b : 1 ≤ w → in_range w b → (swrap w b =? 0) = (b =? 0).
Proof.
  intros Hw Hb. unfold swrap. rewrite wrap_small by done. unfold in_range in Hb.
  pose proof (Z.pow_pos_nonneg 2 (w - 1)).
  destruct (Z.ltb_spec b (2 ^ (w - 1))); [done|].
  destruct (Z.eqb_spec (b - 2 ^ w) 0), (Z.eqb_spec b 0); lia.
Qed.
Lemma bin_val_bv op w a b r :
  op ∈ binops → 1 ≤ w → in_range w a → in_range w b → bin_val op w a b = Some r → bv_bin op w a b = r.
Proof.
  intros Hop Hw Ha Hb. unfold bin_val, bv_bin. cbv zeta.
  destruct (op =? op_And); [congruence|]. destruct (op =? op_Or); [congruence|].
  destruct (op =? op_Xor); [congruence|].
  destruct (op =? op_Shl); [unfold bvshl; destruct (w <=? b); congruence|].
  destruct (op =? op_LShr); [unfold bvlshr; destruct (w <=? b); congruence|].
  destruct (op =? op_AShr).
  { unfold bvashr. destruct (w <=? b) eqn:E; [done|]. rewrite Z.min_l by lia. congruence. }
  destruct (op =? op_Add); [unfold bvadd; congruence|].
  destruct (op =? op_Sub); [unfold bvsub; congruence|].
  destruct (op =? op_Mul); [unfold bvmul; congruence|].
  destruct (op =? op_UDiv); [unfold bvudiv; destruct (b =? 0); congruence|].
  destruct (op =? op_SDiv).
  { unfold bvsdiv. cbv zeta. rewrite swrap_zero by done. destruct (b =? 0); [done|].
    simpl. destruct (_ && _); [done|congruence]. }
  destruct (op =? op_URem); [unfold bvurem; destruct (b =? 0); congruence|].
  destruct (op =? op_SRem); [|done].
  unfold bvsrem. cbv zeta. rewrite swrap_zero by done. destruct (b =? 0); [done|].
  simpl. destruct (_ && _); [done|congruence].
Qed.

Lemma enc_ok w n : 1 ≤ w → in_range w n → value_ok (enc w n).
Proof. intros Hw Hn. unfold enc. destruct (w =? 1); [done|]. split; [lia|done]. Qed.
Lemma bv_bin_range op w a b :
  op ∈ binops → 1 ≤ w → (w = 1 → op = op_And ∨ op = op_Or) → in_range w a → in_range w b →
  in_range w (bv_bin op w a b).
Proof.
  intros Hop Hw H1 Ha Hb. destruct (decide (w = 1)) as [->|Hne].
  - unfold bv_bin. destruct (Z.eqb_spec op op_And); [by apply land_range|].
    destruct (Z.eqb_spec op op_Or); [by apply lor_range|]. destruct (H1 eq_refl); congruence.
  - pose proof (bin_sem_ok _ _ _ _ _ (bin_sem_enc op w a b Hop Hw H1 Ha Hb)) as Hok.
    unfold enc in Hok. rewrite (proj2 (Z.eqb_neq w 1)) in Hok by done. apply Hok; simpl; split; lia || done.
Qed.

(** The commutative operators. *)
Lemma commutative_cases op :
  op ∈ binops → is_commutative op = true →
  op = op_And ∨ op = op_Or ∨ op = op_Xor ∨ op = op_Add ∨ op = op_Mul.
Proof.
  intros Hop. destruct (binop_other op Hop) as (Hr & _). pose proof last_llvm_op_bound.
  unfold is_commutative, u8. rewrite wrap_small by (unfold in_range; lia).
  rewrite !orb_true_iff, !Z.eqb_eq. unfold op_Not, op_fmemcmp. lia.
Qed.
Lemma llvm_op_ne i j x y :
  let ops := binops ++ [op_Trunc; op_ZExt; op_SExt; op_ICmp] in
  ops !! i = Some x → ops !! j = Some y → i ≠ j → x ≠ y.
Proof. intros ops Hi Hj Hne ->. apply Hne. exact (NoDup_lookup _ _ _ _ llvm_ops_nodup Hi Hj). Qed.
Lemma bv_bin_comm op w a b :
  op ∈ binops → is_commutative op = true → bv_bin op w a b = bv_bin op w b a.
Proof.
  intros Hop Hc. destruct (commutative_cases op Hop Hc) as [->|[->|[->|[->| ->]]]]; unfold bv_bin.
  - rewrite Z.eqb_refl. apply Z.land_comm.
  - rewrite Z.eqb_refl. destruct (_ =? _); [apply Z.land_comm|apply Z.lor_comm].
  - rewrite Z.eqb_refl. repeat destruct (_ =? _);
      [apply Z.land_comm|apply Z.lor_comm|apply Z.lxor_comm].
  - rewrite (proj2 (Z.eqb_neq op_Add op_Shl)), (proj2 (Z.eqb_neq op_Add op_LShr)),
      (proj2 (Z.eqb_neq op_Add op_AShr)), Z.eqb_refl.
    2: by apply (llvm_op_ne 0 9). 2: by apply (llvm_op_ne 0 8). 2: by apply (llvm_op_ne 0 7).
    unfold bvadd. rewrite (Z.add_comm b), (Z.land_comm b), (Z.lor_comm b), (Z.lxor_comm b). done.
  - rewrite (proj2 (Z.eqb_neq op_Mul op_Shl)), (proj2 (Z.eqb_neq op_Mul op_LShr)),
      (proj2 (Z.eqb_neq op_Mul op_AShr)), (proj2 (Z.eqb_neq op_Mul op_Sub)), Z.eqb_refl.
    2: by apply (llvm_op_ne 2 1). 2: by apply (llvm_op_ne 2 9). 2: by apply (llvm_op_ne 2 8).
    2: by apply (llvm_op_ne 2 7).
    unfold bvadd, bvmul. rewrite (Z.add_comm b), (Z.mul_comm b), (Z.land_comm b), (Z.lor_comm b), (Z.lxor_comm b). done.
Qed.

(** Comparisons of encoded values. *)
Lemma enc_sort w a : value_sort (enc w a) = if w =? 1 then SBool else SBV w.
Proof. unfold enc. by destruct (w =? 1). Qed.
Lemma enc_eq w a b : in_range w a → in_range w b → bool_decide (enc w a = enc w b) = (a =? b).
Proof.
  intros Ha Hb. unfold enc, in_range in *. destruct (Z.eqb_spec w 1) as [->|].
  - assert (a = 0 ∨ a = 1) as [->| ->] by lia; assert (b = 0 ∨ b = 1) as [->| ->] by lia; done.
  - destruct (Z.eqb_spec a b) as [->|]; [by rewrite bool_decide_true|].
    rewrite bool_decide_false; [done|congruence].
Qed.
Lemma cmp_sem_enc pred w a b c :
  1 ≤ w → (w = 1 → pred = 32 ∨ pred = 33) → in_range w a → in_range w b →
  cmp_val pred w a b = Some c → cmp_sem pred (enc w a) (enc w b) = Some (VBool c).
Proof.
  intros Hw H1 Ha Hb Hc. unfold cmp_val in Hc. cbv zeta in Hc. unfold cmp_sem.
  rewrite !enc_sort, !decide_True, !enc_eq by done. unfold bveq, bvneq, bvugt, bvuge, bvult, bvule, bvsgt, bvsge, bvslt, bvsle.
  destruct (Z.eqb_spec pred 32); [congruence|]. destruct (Z.eqb_spec pred 33); [congruence|].
  unfold enc, same_width. destruct (Z.eqb_spec w 1); [destruct H1; done|]. rewrite Z.eqb_refl.
  revert Hc.
  repeat match goal with
  | |- context [pred =? ?k] => destruct (pred =? k); [intros; congruence|]
  end.
  done.
Qed.
Lemma cmp_val_total pred w a b : 32 ≤ pred ≤ 41 → ∃ c, cmp_val pred w a b = Some c.
Proof.
  intros Hp. unfold cmp_val. cbv zeta.
  repeat match goal with |- context [pred =? ?k] => destruct (Z.eqb_spec pred k); [by eexists|] end. lia.
Qed.
End operators.

(** ** Labels that track values *)
Section symbolic.
Context {Zi : Z3} {Ops : LlvmOps}.

(** The operand with label [l] and value [n] is the function [f] of the input. *)
Definition symb (s : rt) (w l n : Z) (f : input → Z) : Prop :=
  (∀ i, in_range w (f i)) ∧
  (l = 0 ∧ (∀ i, f i = n) ∨
   1 ≤ l ≤ last_label (rt_labels s) ∧ ∀ i, sden s i l = Some (enc w (f i))).
Lemma symb_label s w l n f : rt_wf s → symb s w l n f → 0 ≤ l < 2 ^ 32 - 1 ∧ l ≤ last_label (rt_labels s).
Proof.
  intros [m Hm] [_ H]. pose proof (last_bound _ _ Hm). destruct H as [[-> _]|[H _]]; lia.
Qed.
Lemma symb_grew s s' w l n f : rt_wf s → grew s s' → symb s w l n f → symb s' w l n f.
Proof.
  intros Hwf Hg [Hr H]. split; [done|]. pose proof (grew_last _ _ Hg).
  destruct H as [H|[Hl Hd]]; [by left|right]. split; [lia|]. intros i.
  rewrite (grew_sden s) by (done || lia). apply Hd.
Qed.

(** The request of a union with a tainted operand. *)
Lemma request_any l1 l2 op size op1 op2 :
  0 ≤ l1 < 2 ^ 32 - 1 → 0 ≤ l2 < 2 ^ 32 - 1 → l1 ≠ 0 ∨ l2 ≠ 0 → in_range 16 op → in_range 16 size →
  in_range 64 op1 → in_range 64 op2 →
  union_request (E:=expr) l1 l2 op size op1 op2 =
    let '(a, b, x, y) := swap_operands l1 l2 op op1 op2 in
    inr (LabelInfo a b (if a =? 0 then x else 0) (if b =? 0 then y else 0) op size 0 0 0 None None).
Proof.
  intros H1 H2 Hne Ho Hs Hx Hy. unfold union_request, u32, u16, u64.
  rewrite !wrap_small by (unfold in_range in *; lia). unfold swap_operands.
  change kInitializingLabel with (2 ^ 32 - 1).
  destruct ((l2 <? l1) && is_commutative op); cbn beta iota.
  - rewrite (proj2 (andb_false_iff (l2 =? 0) (l1 =? 0))) by (rewrite !Z.eqb_neq; lia). simpl.
    rewrite !(proj2 (Z.eqb_neq _ (2 ^ 32 - 1))) by lia. done.
  - rewrite (proj2 (andb_false_iff (l1 =? 0) (l2 =? 0))) by (rewrite !Z.eqb_neq; lia). simpl.
    rewrite !(proj2 (Z.eqb_neq _ (2 ^ 32 - 1))) by lia. done.
Qed.

(** The value of an operand of a record. *)
Definition operand_sem (s : rt) (i : input) (w l n : Z) : option value :=
  if 1 <=? l then sden s i l else Some (concrete w w n).
Lemma symb_operand s w l n f i :
  1 ≤ w → symb s w l n f → operand_sem s i w l n = Some (enc w (f i)).
Proof.
  intros Hw [Hr H]. unfold operand_sem. destruct H as [[-> Hn]|[Hl Hd]].
  - simpl. unfold concrete, enc. rewrite <-(Hn i). destruct (w =? 1); [done|].
    by rewrite wrap_small.
  - rewrite (proj2 (Z.leb_le 1 l)) by lia. apply Hd.
Qed.

(** The record of a binary operator or a comparison. *)
Lemma record_common s i a b x y op w :
  0 ≤ a → 0 ≤ b → a ≠ 0 ∨ b ≠ 0 → 1 ≤ w < 256 →
  op ≠ 0 → op ≠ op_Load → op ≠ op_ZExt → op ≠ op_SExt → op ≠ op_Trunc → op ≠ op_Extract →
  op ≠ op_Not → op ≠ op_Neg → op ≠ op_fmemcmp → op ≠ op_fsize → op ≠ op_Concat →
  denote_info (rt_labels s) (rt_mem s) i (sden s i)
    (LabelInfo a b (if a =? 0 then x else 0) (if b =? 0 then y else 0) op w 0 0 0 None None) =
  v ← operand_sem s i w a x; v' ← operand_sem s i w b y; bin_sem op w v v'.
Proof.
  intros Ha Hb Hab Hw. intros. unfold denote_info, size_b, size_a, operand_sem. cbv zeta.
  cbn [li_op li_l1 li_l2 li_op1 li_op2 li_size].
  rewrite !(proj2 (Z.eqb_neq op _)) by done. simpl. unfold u8.
  rewrite wrap_small by (unfold in_range; lia). rewrite (proj2 (Z.ltb_lt 0 w)) by lia. simpl.
  rewrite (proj2 (orb_true_iff (1 <=? a) (1 <=? b))) by (rewrite !Z.leb_le; lia).
  destruct (Z.eqb_spec a 0) as [->|]; destruct (Z.eqb_spec b 0) as [->|]; simpl; try lia.
  - by rewrite (proj2 (Z.leb_le 1 b)) by lia.
  - by rewrite (proj2 (Z.leb_le 1 a)) by lia.
  - by rewrite (proj2 (Z.leb_le 1 a)), (proj2 (Z.leb_le 1 b)) by lia.
Qed.

(** A union as the record it requests. *)
Lemma wpd_union_any l1 l2 op size n1 n2 (Q : Z → rt → Prop) s :
  rt_wf s → 0 ≤ l1 ≤ last_label (rt_labels s) → 0 ≤ l2 ≤ last_label (rt_labels s) →
  l1 ≠ 0 ∨ l2 ≠ 0 → in_range 16 op → in_range 16 size → in_range 64 n1 → in_range 64 n2 →
  (∀ l s', rt_wf s' → grew s s' → 1 ≤ l ≤ last_label (rt_labels s') →
     (∀ i, sden s' i l =
        let '(a, b, x, y) := swap_operands l1 l2 op n1 n2 in
        denote_info (rt_labels s') (rt_mem s') i (sden s' i)
          (LabelInfo a b (if a =? 0 then x else 0) (if b =? 0 then y else 0) op size 0 0 0 None None)) →
     Q l s') →
  wpd (r_union l1 l2 op size n1 n2) Q s.
Proof.
  intros Hwf H1 H2 Hne Ho Hsz Hn1 Hn2 HQ. pose proof Hwf as [m Hm]. pose proof (last_bound _ _ Hm).
  pose proof (request_any l1 l2 op size n1 n2 ltac:(lia) ltac:(lia) Hne Ho Hsz Hn1 Hn2) as Hreq.
  destruct (swap_operands l1 l2 op n1 n2) as [[[a b] x] y] eqn:Hsw.
  assert (0 ≤ a ≤ last_label (rt_labels s) ∧ 0 ≤ b ≤ last_label (rt_labels s)) as [Ha Hb].
  { unfold swap_operands in Hsw. destruct (_ && _); simplify_eq; lia. }
  eapply wpd_union; [done|exact Hreq|cbn; lia|cbn; lia|].
  intros l s' Hwf' Hg Hl Hkey. apply HQ; [done..|]. intros i. by apply sden_key.
Qed.
Lemma wpd_union_zero op size n1 n2 s :
  in_range 16 op → op ≠ op_fsize → wpd (r_union 0 0 op size n1 n2) (λ l s', l = 0 ∧ s' = s) s.
Proof.
  intros Ho Hf. unfold wpd, r_union, on_labels, zoom, taint_union. unfold u16 at 1 2 3 4 5 6 7.
  rewrite wrap_small by done. unfold swap_operands. change (u32 0) with 0. cbn [Z.ltb andb Z.eqb].
  change (0 <? 0) with false. cbn [andb]. cbn [Z.eqb]. change (0 <? CONST_OFFSET) with true. cbn [andb].
  rewrite (proj2 (Z.eqb_neq op op_fsize)) by done. split; [done|]. by destruct s.
Qed.

Lemma binop_tests op :
  op ∈ binops → op ≠ 0 ∧ op ≠ op_Load ∧ op ≠ op_ZExt ∧ op ≠ op_SExt ∧ op ≠ op_Trunc ∧
    op ≠ op_Extract ∧ op ≠ op_Not ∧ op ≠ op_Neg ∧ op ≠ op_fmemcmp ∧ op ≠ op_fsize ∧
    op ≠ op_Concat ∧ in_range 16 op.
Proof.
  intros Hop. destruct (binop_other op Hop) as (Hr & ? & ? & ? & ?). pose proof last_llvm_op_bound.
  unfold op_Load, op_Extract, op_Not, op_Neg, op_fmemcmp, op_fsize, op_Concat, in_range.
  split_and!; (done || lia).
Qed.

(** What every union made by the inserted code establishes: the label [l] of the
    value [n] denotes the function [f] of the input. *)
Definition union_post (s : rt) (w n : Z) (f : input → Z) (l : Z) (s' : rt) : Prop :=
  rt_wf s' ∧ grew s s' ∧ symb s' w l n f.
Lemma union_post_zero s op size w n f n1 n2 :
  rt_wf s → in_range 16 op → op ≠ op_fsize → (∀ i, in_range w (f i)) → (∀ i, f i = n) →
  wpd (r_union 0 0 op size n1 n2) (union_post s w n f) s.
Proof.
  intros Hwf Ho Hf Hr Hn. eapply wpd_mono; [by apply wpd_union_zero|]. intros l s' [-> ->].
  split_and!; [done|done|]. split; [done|]. by left.
Qed.
Lemma symb_range s w l n f i : symb s w l n f → in_range w (f i).
Proof. intros [H _]. apply H. Qed.
Lemma symb_const s w l n f i : symb s w l n f → l = 0 → f i = n.
Proof.
  intros [_ [[_ H]|[? _]]] ->; [done|lia].
Qed.
Lemma range_le w n : 1 ≤ w ≤ 64 → in_range w n → in_range 64 n.
Proof. intros Hw Hn. pose proof (Z.pow_le_mono_r 2 w 64). unfold in_range in *. lia. Qed.

(** The label of a binary operation denotes the operation on what its operands
    denote. *)
Lemma union_bin s op w l1 l2 n1 n2 f1 f2 :
  rt_wf s → op ∈ binops → 1 ≤ w ≤ 64 → (w = 1 → op = op_And ∨ op = op_Or) →
  symb s w l1 n1 f1 → symb s w l2 n2 f2 → in_range w n1 → in_range w n2 →
  wpd (r_union l1 l2 op w n1 n2)
    (union_post s w (bv_bin op w n1 n2) (λ i, bv_bin op w (f1 i) (f2 i))) s.
Proof.
  intros Hwf Hop Hw H1 Hf1 Hf2 Hn1 Hn2.
  destruct (binop_tests op Hop) as (?&?&?&?&?&?&?&?&?&?&?&?).
  pose proof (symb_label _ _ _ _ _ Hwf Hf1). pose proof (symb_label _ _ _ _ _ Hwf Hf2).
  assert (∀ i, in_range w (bv_bin op w (f1 i) (f2 i))) as Hrr
    by (intros i; apply bv_bin_range; [done|lia|done|apply Hf1|apply Hf2]).
  destruct (decide (l1 ≠ 0 ∨ l2 ≠ 0)) as [Hne|Hz].
  - apply wpd_union_any; [done|lia|lia|done|done|unfold in_range; lia|by eapply range_le|by eapply range_le|].
    intros l s' Hwf' Hg Hl Hd. split_and!; [done|done|]. split; [done|].
    right. split; [done|]. intros i. rewrite Hd. unfold swap_operands.
    pose proof (symb_operand s' w l1 _ f1 i ltac:(lia) (symb_grew _ _ _ _ _ _ Hwf Hg Hf1)) as Ho1.
    pose proof (symb_operand s' w l2 _ f2 i ltac:(lia) (symb_grew _ _ _ _ _ _ Hwf Hg Hf2)) as Ho2.
    destruct ((l2 <? l1) && is_commutative op) eqn:Hsw; cbn beta iota.
    + rewrite record_common by (done || lia). rewrite Ho1, Ho2. cbn.
      rewrite bv_bin_comm by (done || by apply andb_true_iff in Hsw as [_ ?]).
      apply bin_sem_enc; [done|lia|done|apply Hf2|apply Hf1].
    + rewrite record_common by (done || lia). rewrite Ho1, Ho2. cbn.
      apply bin_sem_enc; [done|lia|done|apply Hf1|apply Hf2].
  - assert (l1 = 0 ∧ l2 = 0) as [-> ->] by lia. apply union_post_zero; [done..|].
    intros i. by rewrite (symb_const _ _ _ _ _ i Hf1), (symb_const _ _ _ _ _ i Hf2).
Qed.

(** The logical negation of an [i1], whichever side the constant is on. *)
Lemma not_bit i1 f : in_range 1 (f i1) → not_sem (enc 1 (f i1)) = Some (enc 1 (Z.lxor (f (i1 : input)) 1)).
Proof.
  intros Hf. assert (f i1 = 0 ∨ f i1 = 1) as [->| ->] by (unfold in_range in Hf; lia); done.
Qed.
Lemma union_not s l1 l2 n1 n2 l n f :
  rt_wf s → symb s 1 l n f → in_range 1 n →
  (l1 = 0 ∧ n1 = 1 ∧ l2 = l ∧ n2 = n) ∨ (l1 = l ∧ n1 = n ∧ l2 = 0 ∧ n2 = 1) →
  wpd (r_union l1 l2 op_Not 1 n1 n2) (union_post s 1 (Z.lxor n 1) (λ i, Z.lxor (f i) 1)) s.
Proof.
  intros Hwf Hf Hn Hside. pose proof (symb_label _ _ _ _ _ Hwf Hf).
  pose proof Hf as [Hr _].
  assert (∀ i, in_range 1 (Z.lxor (f i) 1)) as Hr' by (intros i; by apply lxor_range).
  assert (in_range 64 n) by (unfold in_range in *; lia).
  destruct (decide (l = 0)) as [->|Hl].
  { assert (l1 = 0 ∧ l2 = 0) as [-> ->] by lia.
    apply union_post_zero; [done|done|op_lia|done|]. intros i. by rewrite (symb_const _ _ _ _ _ i Hf). }
  assert (in_range 64 n1 ∧ in_range 64 n2) as [? ?]
    by (destruct Hside as [(_ & -> & _ & ->)|(_ & -> & _ & ->)]; done).
  apply wpd_union_any; [done|lia|lia|lia|done|done|done|done|].
  intros l' s' Hwf' Hg Hl' Hd. split_and!; [done|done|].
  split; [done|]. right. split; [done|].
  intros i. rewrite Hd.
  pose proof (symb_operand s' 1 l _ f i ltac:(lia) (symb_grew _ _ _ _ _ _ Hwf Hg Hf)) as Ho.
  unfold operand_sem in Ho. rewrite (proj2 (Z.leb_le 1 l)) in Ho by lia.
  assert (∃ x y, swap_operands l1 l2 op_Not n1 n2 = (0, l, x, y)) as (x & y & ->).
  { unfold swap_operands. destruct Hside as [(-> & _ & -> & _)|(-> & _ & -> & _)].
    - rewrite (proj2 (Z.ltb_ge l 0)) by lia. eauto.
    - rewrite (proj2 (Z.ltb_lt 0 l)) by lia. eauto. }
  unfold denote_info. cbn [li_op li_l1 li_l2 li_size]. pose proof last_llvm_op_bound.
  pose proof last_llvm_op_lower. pose proof llvm_op_bounds as Hb.
  rewrite !(proj2 (Z.eqb_neq op_Not _)) by (unfold op_Not, op_Load, op_Extract in *; lia).
  rewrite Z.eqb_refl, (proj2 (Z.eqb_neq l 0)) by done. change (negb (1 =? 1)) with false.
  cbn [orb]. rewrite Ho. by apply not_bit.
Qed.

(** Casts: extensions from [i1] are unsigned only, truncations keep two bits. *)
Definition cast_ok (op w w' : Z) : Prop :=
  op = op_ZExt ∧ 1 ≤ w < w' ∧ w' ≤ 64 ∨ op = op_SExt ∧ 2 ≤ w < w' ∧ w' ≤ 64 ∨
  op = op_Trunc ∧ 2 ≤ w' < w ∧ w ≤ 64.
Definition cast_res (op w w' a : Z) : Z := default 0 (cast_val op w w' a).
Lemma cast_ne : op_Trunc ≠ op_ZExt ∧ op_Trunc ≠ op_SExt ∧ op_ZExt ≠ op_SExt.
Proof.
  split_and!; [by apply (llvm_op_ne 13 14)|by apply (llvm_op_ne 13 15)|by apply (llvm_op_ne 14 15)].
Qed.
Lemma cast_res_range op w w' a : cast_ok op w w' → in_range w a → in_range w' (cast_res op w w' a).
Proof.
  intros Hc Ha. unfold cast_res, cast_val. destruct cast_ne as (? & ? & ?).
  destruct Hc as [(-> & ? & ?)|[(-> & ? & ?)|(-> & ? & ?)]];
    rewrite ?Z.eqb_refl, ?(proj2 (Z.eqb_neq _ _)) by done; simpl.
  - pose proof (Z.pow_le_mono_r 2 w w'). unfold in_range in *. lia.
  - apply wrap_range; lia.
  - apply wrap_range; lia.
Qed.
Definition cast_sem (op w' : Z) (v : value) : option value :=
  if op =? op_ZExt then zext_sem w' v else if op =? op_SExt then sext_sem w' v else slice_sem 0 w' v.
Lemma cast_sem_enc op w w' a :
  cast_ok op w w' → in_range w a →
  cast_sem op w' (enc w a) = Some (enc w' (cast_res op w w' a)).
Proof.
  intros Hc Ha. unfold cast_sem, cast_res, cast_val, enc. destruct cast_ne as (? & ? & ?).
  destruct Hc as [(-> & ? & ?)|[(-> & ? & ?)|(-> & ? & ?)]];
    rewrite ?Z.eqb_refl, ?(proj2 (Z.eqb_neq op_SExt op_Trunc)), ?(proj2 (Z.eqb_neq op_SExt op_ZExt)),
      ?(proj2 (Z.eqb_neq op_ZExt op_Trunc)), ?(proj2 (Z.eqb_neq op_Trunc op_ZExt)),
      ?(proj2 (Z.eqb_neq op_Trunc op_SExt)), ?(proj2 (Z.eqb_neq w' 1)) by (done || lia); simpl.
  - destruct (Z.eqb_spec w 1) as [->|]; simpl.
    + rewrite (proj2 (Z.leb_le 1 w')) by lia.
      assert (a = 0 ∨ a = 1) as [->| ->] by (unfold in_range in Ha; lia); done.
    + by rewrite (proj2 (Z.leb_le w w')) by lia.
  - rewrite (proj2 (Z.eqb_neq w 1)) by lia. simpl. by rewrite (proj2 (Z.leb_le w w')) by lia.
  - assert (w' < 2 ^ 32) by lia. rewrite (proj2 (Z.eqb_neq w 1)) by lia. cbn [slice_sem]. rewrite Z.add_0_l, (proj2 (Z.leb_le 1 w')), (proj2 (Z.leb_le w' w)), (proj2 (Z.ltb_lt w' _)) by lia.
    simpl. by rewrite Z.div_1_r.
Qed.
Lemma cast_tests op w w' :
  cast_ok op w w' → 2 < op ≤ last_llvm_op ∧ is_commutative op = false ∧
    (op = op_ZExt ∨ op = op_SExt ∨ op = op_Trunc).
Proof.
  intros Hc. assert (op = op_ZExt ∨ op = op_SExt ∨ op = op_Trunc) as Hop by (unfold cast_ok in Hc; tauto).
  pose proof last_llvm_op_bound. pose proof llvm_op_bounds as Hb.
  assert (2 < op ≤ last_llvm_op) as Hr by (destruct Hop as [->|[->| ->]]; lia).
  split_and!; [lia|lia| |done]. unfold is_commutative, u8. rewrite wrap_small by (unfold in_range; lia).
  assert (op ≠ op_And ∧ op ≠ op_Or ∧ op ≠ op_Xor ∧ op ≠ op_Add ∧ op ≠ op_Mul) as (?&?&?&?&?).
  { assert (∃ k, (13 ≤ k)%nat ∧ (binops ++ [op_Trunc; op_ZExt; op_SExt; op_ICmp]) !! k = Some op)
      as (k & Hk & Hlk) by (destruct Hop as [->|[->| ->]]; [exists 14%nat|exists 15%nat|exists 13%nat]; split; (done || lia)).
    split_and!; [apply (llvm_op_ne k 10)|apply (llvm_op_ne k 11)|apply (llvm_op_ne k 12)|apply (llvm_op_ne k 0)|apply (llvm_op_ne k 2)];
      (done || lia). }
  rewrite !(proj2 (Z.eqb_neq op _)) by (done || op_lia). done.
Qed.
Lemma union_cast s op w w' l n f n1 n2 :
  rt_wf s → cast_ok op w w' → symb s w l n f → in_range 64 n1 → in_range 64 n2 →
  wpd (r_union l 0 op w' n1 n2)
    (union_post s w' (cast_res op w w' n) (λ i, cast_res op w w' (f i))) s.
Proof.
  intros Hwf Hc Hf Hn1 Hn2. pose proof (symb_label _ _ _ _ _ Hwf Hf).
  destruct (cast_tests _ _ _ Hc) as (Hr & Hcomm & Hop). pose proof last_llvm_op_bound.
  assert (∀ i, in_range w' (cast_res op w w' (f i))) as Hrr by (intros i; by apply cast_res_range, Hf).
  assert (in_range 16 op) by (unfold in_range; lia).
  destruct (decide (l = 0)) as [->|Hl].
  { apply union_post_zero; [done|done|unfold op_fsize; lia|done|]. intros i. by rewrite (symb_const _ _ _ _ _ i Hf). }
  assert (in_range 16 w') by (unfold cast_ok, in_range in *; lia).
  apply wpd_union_any; [done|lia|lia|lia|done|done|done|done|].
  intros l' s' Hwf' Hg Hl' Hd. split_and!; [done|done|].
  split; [done|]. right. split; [done|].
  intros i. rewrite Hd. unfold swap_operands. rewrite Hcomm, andb_false_r.
  pose proof (symb_operand s' w l _ f i ltac:(unfold cast_ok in *; lia) (symb_grew _ _ _ _ _ _ Hwf Hg Hf)) as Ho.
  unfold operand_sem in Ho. rewrite (proj2 (Z.leb_le 1 l)) in Ho by lia.
  rewrite <-(cast_sem_enc op w w' (f i)) by (done || apply Hf). unfold cast_sem, denote_info.
  cbn [li_op li_l1 li_l2 li_size]. destruct cast_ne as (? & ? & ?).
  rewrite (proj2 (Z.eqb_neq op 0)), (proj2 (Z.eqb_neq op op_Load)) by (unfold op_Load; lia).
  destruct Hop as [->|[->| ->]]; rewrite ?Z.eqb_refl, ?(proj2 (Z.eqb_neq _ _)) by done; by rewrite Ho.
Qed.

(** Integer comparisons; the predicate is in the second byte of the operator. *)
Definition cmp_op (pred : Z) : Z := op_ICmp + 256 * pred.
Lemma cmp_op_eq pred : 32 ≤ pred ≤ 41 → u16 (Z.lor op_ICmp (u16 (Z.shiftl pred 8))) = cmp_op pred.
Proof.
  intros Hp. pose proof llvm_op_bounds. pose proof last_llvm_op_bound.
  unfold u16 at 2. rewrite Z.shiftl_mul_pow2, wrap_small by (unfold in_range; lia).
  change (2 ^ 8) with 256. unfold cmp_op.
  replace (Z.lor op_ICmp (pred * 256)) with (op_ICmp + 256 * pred).
  { apply wrap_small. unfold in_range. lia. }
  rewrite (Z.mul_comm 256). symmetry. apply (lor_low_high op_ICmp pred 8); [lia|unfold in_range; lia].
Qed.
Lemma cmp_op_parts pred : 32 ≤ pred ≤ 41 → Z.land (cmp_op pred) 255 = op_ICmp ∧ Z.shiftr (cmp_op pred) 8 = pred.
Proof.
  intros Hp. pose proof llvm_op_bounds. pose proof last_llvm_op_bound. unfold cmp_op. split.
  - change 255 with (Z.ones 8). rewrite Z.land_ones by lia. change (2 ^ 8) with 256.
    rewrite Z.mul_comm, Z_mod_plus_full. apply Z.mod_small. lia.
  - rewrite Z.shiftr_div_pow2 by lia. change (2 ^ 8) with 256.
    rewrite Z.mul_comm, Z_div_plus_full, Z.div_small by lia. lia.
Qed.
Lemma cmp_op_comm pred : 32 ≤ pred ≤ 41 → is_commutative (cmp_op pred) = false.
Proof.
  intros Hp. unfold is_commutative. pose proof llvm_op_bounds. pose proof last_llvm_op_bound.
  assert (u8 (cmp_op pred) = op_ICmp) as ->.
  { unfold u8, wrap, cmp_op. change (2 ^ 8) with 256.
    rewrite Z.mul_comm, Z_mod_plus_full. apply Z.mod_small. lia. }
  rewrite (proj2 (Z.eqb_neq op_ICmp op_And)), (proj2 (Z.eqb_neq op_ICmp op_Or)),
    (proj2 (Z.eqb_neq op_ICmp op_Xor)), (proj2 (Z.eqb_neq op_ICmp op_Add)),
    (proj2 (Z.eqb_neq op_ICmp op_Mul)), (proj2 (Z.eqb_neq op_ICmp op_Not)),
    (proj2 (Z.eqb_neq op_ICmp op_fmemcmp)); [done|op_lia|op_lia|..].
  - by apply (llvm_op_ne 16 2).
  - by apply (llvm_op_ne 16 0).
  - by apply (llvm_op_ne 16 12).
  - by apply (llvm_op_ne 16 11).
  - by apply (llvm_op_ne 16 10).
Qed.
Lemma cmp_bin_sem pred size v v' :
  32 ≤ pred ≤ 41 → bin_sem (cmp_op pred) size v v' = cmp_sem pred v v'.
Proof.
  intros Hp. destruct (cmp_op_parts pred Hp) as [Hk Hs]. unfold bin_sem. rewrite Hk, Hs. cbv zeta.
  assert (∀ k x, (binops : list Z) !! k = Some x → (op_ICmp =? x) = false) as Hne.
  { intros k x Hk'. apply Z.eqb_neq. apply (llvm_op_ne 16 k); [done|by apply lookup_app_l_Some|].
    apply lookup_lt_Some in Hk'. simpl in Hk'. lia. }
  rewrite (Hne 10%nat), (Hne 11%nat), (Hne 12%nat), (Hne 7%nat), (Hne 8%nat), (Hne 9%nat),
    (Hne 0%nat), (Hne 1%nat), (Hne 2%nat), (Hne 3%nat), (Hne 4%nat), (Hne 5%nat), (Hne 6%nat),
    Z.eqb_refl by done. done.
Qed.

Definition cmp_res (pred w a b : Z) : Z := Z.b2z (default false (cmp_val pred w a b)).
Lemma cmp_res_range pred w a b : in_range 1 (cmp_res pred w a b).
Proof. unfold cmp_res. by destruct (default _ _). Qed.
Lemma union_cmp s pred w l1 l2 n1 n2 f1 f2 :
  rt_wf s → 32 ≤ pred ≤ 41 → 1 ≤ w ≤ 64 → (w = 1 → pred = 32 ∨ pred = 33) →
  symb s w l1 n1 f1 → symb s w l2 n2 f2 → in_range w n1 → in_range w n2 →
  wpd (r_union l1 l2 (cmp_op pred) w n1 n2)
    (union_post s 1 (cmp_res pred w n1 n2) (λ i, cmp_res pred w (f1 i) (f2 i))) s.
Proof.
  intros Hwf Hp Hw H1 Hf1 Hf2 Hn1 Hn2.
  pose proof (symb_label _ _ _ _ _ Hwf Hf1). pose proof (symb_label _ _ _ _ _ Hwf Hf2).
  pose proof llvm_op_bounds. pose proof last_llvm_op_bound.
  assert (in_range 16 (cmp_op pred)) by (unfold in_range, cmp_op; lia).
  assert (∀ i, in_range 1 (cmp_res pred w (f1 i) (f2 i))) by (intros i; apply cmp_res_range).
  destruct (decide (l1 ≠ 0 ∨ l2 ≠ 0)) as [Hne|Hz].
  2:{ assert (l1 = 0 ∧ l2 = 0) as [-> ->] by lia.
      apply union_post_zero; [done|done|unfold op_fsize, cmp_op; lia|done|].
      intros i. by rewrite (symb_const _ _ _ _ _ i Hf1), (symb_const _ _ _ _ _ i Hf2). }
  apply wpd_union_any; [done|lia|lia|done|done|unfold in_range; lia|by eapply range_le|by eapply range_le|].
  intros l s' Hwf' Hg Hl Hd. split_and!; [done|done|].
  split; [done|].
  right. split; [done|]. intros i. rewrite Hd.
  pose proof (symb_operand s' w l1 _ f1 i ltac:(lia) (symb_grew _ _ _ _ _ _ Hwf Hg Hf1)) as Ho1.
  pose proof (symb_operand s' w l2 _ f2 i ltac:(lia) (symb_grew _ _ _ _ _ _ Hwf Hg Hf2)) as Ho2.
  unfold swap_operands. rewrite cmp_op_comm, andb_false_r by done.
  rewrite record_common by (unfold cmp_op; lia || op_lia). rewrite Ho1, Ho2. cbn [mbind option_bind].
  destruct (cmp_val_total pred w (f1 i) (f2 i) Hp) as [c' Hc'].
  unfold cmp_res. rewrite Hc'.
  rewrite cmp_bin_sem by done.
  rewrite (cmp_sem_enc pred w (f1 i) (f2 i) c') by (done || lia || apply Hf1 || apply Hf2).
  by destruct c'.
Qed.
End symbolic.
