(* ===== verification/PassMem.v ===== *)
(** * Labels of memory in a running program

    What the shadow says about application memory: each byte is a constant or has
    a label that denotes it, as a function of the input. Loads and stores of
    integers by the inserted code keep this, where the runtime does not confuse
    the shapes of the labels it meets. *)
From S2P Require Import Prelude Platform Labels UnionTable Union Z3 State Denote Shadow ShadowSpec Serialize Solver Libc Invariant Ir Pass PassModule PassRun PassSpec.

Section mem.
Context {Zi : Z3} {Ops : LlvmOps}.

(** ** Labels whose meaning does not read memory

    A comparison of memory ([memcmp] with a constant side) reads that side when
    it is solved; all other labels are functions of the input alone. *)
Definition mem_free (ls : lstate expr) : Prop :=
  ∀ l, 1 ≤ l ≤ last_label ls → li_op (info_at ls l) ≠ op_fmemcmp.
Lemma denote_fuel_mem ls m mem mem' inp fuel l :
  wf ls m → mem_free ls → l ≤ last_label ls →
  denote_fuel ls mem' fuel inp l = denote_fuel ls mem fuel inp l.
Proof.
  intros Hwf Hf. revert l. induction fuel as [|fuel IH]; intros l Hl; [done|]. cbn [denote_fuel].
  unfold denote_step. destruct ((l <? 1) || _) eqn:Hb; [done|].
  apply orb_false_iff in Hb as [Hb _]. apply Z.ltb_ge in Hb.
  pose proof (operand_bounds _ _ _ Hwf Hl) as [H1 H2]. pose proof (Hf l ltac:(lia)) as Hop.
  unfold denote_info. cbv zeta. rewrite !(proj2 (Z.eqb_neq _ op_fmemcmp)) by done.
  rewrite !IH by lia. done.
Qed.
Lemma sden_set_mem s f inp l :
  rt_wf s → mem_free (rt_labels s) → l ≤ last_label (rt_labels s) →
  sden (set_mem f s) inp l = sden s inp l.
Proof. intros [m Hm] Hf Hl. unfold sden, denote. by apply (denote_fuel_mem _ m). Qed.

(** Unions with other operators, loads and stores keep labels of that kind. *)
Definition rt_free (s : rt) : Prop := rt_wf s ∧ mem_free (rt_labels s).
Lemma union_free l1 l2 op size a b :
  0 ≤ op < 2 ^ 16 → op ≠ op_fmemcmp → pres rt_free (r_union l1 l2 op size a b).
Proof.
  intros Hr Hop s [[m Hm] Hf]. pose proof (taint_union_cases _ _ l1 l2 op size a b Hm) as Hc.
  unfold r_union, on_labels, zoom. destruct (taint_union _ _ _ _ _ _ _) as [l ls'|e ls'|h ls']; [|done|done].
  destruct Hc as (Hwf' & _ & [Hle Hkeep] & Hu). split; [done|]. unfold mem_free. cbn [rt_labels set_labels].
  destruct (union_request _ _ _ _ _ _) as [l'|i] eqn:Hreq; [by destruct Hu as [_ ->]|].
  destruct Hu as (Hkey & Hl & _ & [[_ ->]|(_ & Hnew & Hwn)]); [done|]. intros k Hk.
  destruct (decide (k ≤ last_label (rt_labels s))) as [Hold|Hold].
  { assert (li_op (info_at ls' k) = li_op (info_at (rt_labels s) k)) as ->
      by (specialize (Hkeep k Hold); unfold key_of in Hkeep; congruence). apply Hf. lia. }
  destruct (wf_label _ _ Hwn k ltac:(lia)) as [(-> & _)|(_ & _ & Hk')]; [op_lia|].
  rewrite lookup_insert in Hk'. case_decide as Hki; [|by destruct (wf_table _ _ Hm _ _ Hk'); lia].
  injection Hk' as <-.
  assert (li_op (info_at ls' l) = li_op i) as -> by (unfold key_of in Hkey; congruence).
  revert Hreq. unfold union_request. destruct (swap_operands _ _ _ _ _) as [[[? ?] ?] ?].
  destruct (_ && _); [done|]. destruct (_ || _); [done|]. intros [= <-]. simpl. unfold u16.
  rewrite wrap_small; [done|]. unfold in_range. lia.
Qed.
Lemma info_free l : pres rt_free (r_info l).
Proof.
  intros s Hf. unfold r_info, on_labels, zoom, get_label_info. rewrite bind_get.
  destruct (_ <=? _); [done|]. by destruct s.
Qed.
Lemma shadow_put_free ls i l : pres rt_free (shadow_put ls i l).
Proof. by apply pres_modify. Qed.
#[local] Hint Resolve info_free shadow_put_free : rt.
#[local] Hint Extern 1 (pres rt_free (r_union _ _ _ _ _ _)) => (apply union_free; op_lia) : rt.
#[local] Hint Extern 1 (pres rt_free (shadow_at _ _)) => (apply pres_gets) : rt.
Lemma shape_free fuel ls n off i : pres rt_free (shape_loop fuel ls n off i).
Proof. revert i. induction fuel; intros i; cbn [shape_loop]; pres_auto. Qed.
Lemma extract_free fuel ls n p off i : pres rt_free (extract_loop fuel ls n p off i).
Proof. revert off i. induction fuel; intros off i; cbn [extract_loop]; pres_auto. Qed.
Lemma concat_free fuel ls n l i : pres rt_free (concat_loop fuel ls n l i).
Proof. revert l i. induction fuel; intros l i; cbn [concat_loop]; cbv zeta; pres_auto. Qed.
#[local] Hint Resolve shape_free extract_free concat_free : rt.
#[local] Hint Extern 1 (pres rt_free (all_constant _ _)) => (apply pres_gets) : rt.
Lemma load_free ls n : pres rt_free (taint_union_load ls n).
Proof. unfold taint_union_load. cbv zeta. pres_auto. Qed.
Lemma store_free l ls n : pres rt_free (taint_union_store l ls n).
Proof. unfold taint_union_store. pres_auto. Qed.
Lemma settled_free s s' : settled s s' → mem_free (rt_labels s) → mem_free (rt_labels s').
Proof.
  intros (_ & [_ Hk] & Hl & _) Hf l. rewrite Hl. intros Hr. specialize (Hk l ltac:(lia)).
  unfold key_of in Hk. assert (li_op (info_at (rt_labels s') l) = li_op (info_at (rt_labels s) l)) as -> by congruence.
  by apply Hf.
Qed.

(** ** The bytes of memory *)
Definition label_at (s : rt) (a : Z) : Z := peek (rt_shadow s) (shadow_for a).
(** The byte at [a], as a function of the input. *)
Definition byte_fun (s : rt) (a : Z) (j : input) : Z :=
  match sden s j (label_at s a) with Some (VBV _ x) => x | _ => u8 (peek (rt_mem s) a) end.
Definition byte_symb (s : rt) (a : Z) : Prop :=
  label_at s a = 0 ∨
  1 ≤ label_at s a ≤ last_label (rt_labels s) ∧ li_size (info_at (rt_labels s) (label_at s a)) = 8 ∧
  ∀ j, sden s j (label_at s a) = Some (VBV 8 (byte_fun s a j)).
Definition app_range (a n : Z) : Prop := AppAddr ≤ a ∧ a + n ≤ 2 ^ 47.

Lemma sden_zero s j : sden s j 0 = None.
Proof. done. Qed.
Lemma byte_fun_const s a j : label_at s a = 0 → byte_fun s a j = u8 (peek (rt_mem s) a).
Proof. intros H. unfold byte_fun. by rewrite H, sden_zero. Qed.
Lemma byte_fun_range s a j : rt_wf s → byte_symb s a → in_range 8 (byte_fun s a j).
Proof.
  intros [m Hm] [H|(_ & _ & Hd)].
  - rewrite byte_fun_const by done. apply u8_range.
  - by destruct (denote_ok _ _ _ _ _ _ Hm (Hd j)).
Qed.
Lemma slot_app a n k : app_range a n → 0 ≤ k < n → slot (shadow_for a) k = shadow_for (a + k).
Proof.
  intros [Hl Hh] Hk. unfold slot. rewrite shadow_for_add; [done| |lia|lia].
  assert (AppBaseAddr ≤ AppAddr) by (by vm_compute). lia.
Qed.
Lemma app_slot a n k : app_range a n → 0 ≤ k < n → app_for (slot (shadow_for a) k) = a + k.
Proof.
  intros Ha Hk. rewrite (slot_app a n) by done. destruct Ha as [Hl Hh].
  assert (AppAddr = 7 * 2 ^ 44 + 0x40000) as HA by reflexivity.
  assert (AppBaseAddr = 7 * 2 ^ 44) as HB by reflexivity.
  rewrite shadow_for_app, app_for_slot; [lia| |lia]. unfold in_range. lia.
Qed.

(** ** Loads *)

(** The shapes of labels a load of [n] bytes gets right: all bytes are constants,
    or the first one is labelled; see [load_denotes]. *)
Definition clean_load (s : rt) (a n : Z) : Prop :=
  (∀ k, 0 ≤ k < n → label_at s (a + k) = 0) ∨
  label_at s a ≠ 0 ∧
  (let rec_at k := info_at (rt_labels s) (label_at s (a + k)) in
   (li_op (rec_at 0) = 0 → ∀ k, 1 ≤ k < n → li_op1 (rec_at k) = u64 (li_op1 (rec_at 0) + k) →
      label_at s (a + k) ≠ 0 ∧ li_op (rec_at k) = 0) ∧
   (li_op (rec_at 0) = op_Extract → ∀ j w v, sden s j (li_l1 (rec_at 0)) = Some (VBV w v) →
      w = li_size (info_at (rt_labels s) (li_l1 (rec_at 0))))).

(** The value of [n] bytes. *)
Definition mem_value (mem : gmap Z Z) (a n : Z) : Z := le_combine (bytes_of mem a n).
Definition load_fun (s : rt) (a n : Z) : input → Z := le_value (λ k, byte_fun s (a + k)) n.
Lemma mem_value_range mem a n : 0 ≤ n → in_range (8 * n) (mem_value mem a n).
Proof.
  intros Hn. unfold mem_value. pose proof (le_combine_range (bytes_of mem a n)) as H.
  unfold bytes_of in H at 1. rewrite length_fmap in H. unfold range in H. rewrite length_seqZ in H.
  by replace (8 * Z.of_nat (Z.to_nat (n - 0))) with (8 * n) in H by lia.
Qed.
Lemma mem_value_fun mem a n f j :
  (∀ k, 0 ≤ k < n → u8 (peek mem (a + k)) = u8 (f k j)) → mem_value mem a n = le_value f n j.
Proof.
  intros H. unfold mem_value, le_value, bytes_of. apply le_combine_ext.
  change (map u8 (map (λ i, peek mem (a + i)) (range 0 n)) = map u8 (map (λ k, f k j) (range 0 n))).
  rewrite !map_map. apply map_ext_in. intros k Hk%list_elem_of_In%elem_of_range. by apply H.
Qed.

Lemma load_fun_range s a n j : 0 ≤ n → in_range (8 * n) (load_fun s a n j).
Proof.
  intros Hn. unfold load_fun.
  rewrite <-(mem_value_fun (store_bytes ∅ a ((λ k, byte_fun s (a + k) j) <$> range 0 n)) a n).
  - by apply mem_value_range.
  - intros k Hk. rewrite peek_store_bytes, length_fmap. unfold range. rewrite length_seqZ, decide_True by lia.
    rewrite list_lookup_fmap, lookup_seqZ_lt by lia. cbn [fmap option_fmap option_map default].
    unfold id. do 3 f_equal. lia.
Qed.
Lemma zero_load s a n :
  0 ≤ n → (∀ k, 0 ≤ k < n → label_at s (a + k) = 0) →
  symb s (8 * n) 0 (mem_value (rt_mem s) a n) (load_fun s a n).
Proof.
  intros Hn Hz. split; [intros j; by apply load_fun_range|]. left. split; [done|].
  intros j. symmetry. apply mem_value_fun. intros k Hk. rewrite byte_fun_const by auto. by rewrite u8_idemp.
Qed.
Lemma zero_load_run s a n :
  1 ≤ n → app_range a n → (∀ k, 0 ≤ k < n → label_at s (a + k) = 0) → taint_union_load (shadow_for a) n s = Ret 0 s.
Proof.
  intros Hn Ha Hz. unfold taint_union_load, shadow_at. rewrite bind_gets.
  assert (peek (rt_shadow s) (slot (shadow_for a) 0) = 0) as ->
    by (rewrite (slot_app a n) by (done || lia); apply Hz; lia).
  change (0 =? kInitializingLabel) with false. change (CONST_OFFSET <=? 0) with false.
  change (is_constant_label 0) with true. cbv iota. erewrite bind_run by done. unfold all_constant. rewrite bind_gets.
  rewrite (proj2 (forallb_forall _ _)); [done|]. intros k Hk%list_elem_of_In%elem_of_range.
  rewrite (slot_app a n) by (done || lia). unfold label_at in Hz. by rewrite Hz by lia.
Qed.
(** The bytes as [load_ok] of [ShadowSpec.v] has them. *)
Lemma load_bytes s a n :
  app_range a n → (∀ k, 0 ≤ k < n → byte_symb s (a + k)) →
  ∀ k, 0 ≤ k < n → byte_ok s (shadow_for a) k (byte_fun s (a + k)).
Proof.
  intros Ha Hb k Hk. unfold byte_ok. cbv zeta. rewrite (app_slot a n), (slot_app a n) by done.
  fold (label_at s (a + k)). destruct (Hb k Hk) as [H|H]; [left|by right]. split; [done|].
  intros j. by apply byte_fun_const.
Qed.
Lemma load_symb s a n :
  rt_wf s → 1 ≤ n ≤ 8 → app_range a n → (∀ k, 0 ≤ k < n → byte_symb s (a + k)) → clean_load s a n →
  wpd (taint_union_load (shadow_for a) n)
    (union_post s (8 * n) (mem_value (rt_mem s) a n) (load_fun s a n)) s.
Proof.
  intros Hwf Hn Ha Hb Hclean. pose proof (λ j, load_fun_range s a n j ltac:(lia)) as Hr.
  pose proof (load_bytes s a n Ha Hb) as Hok.
  assert (∀ k, 0 ≤ k < n → lab s (shadow_for a) k = label_at s (a + k)) as Hlab.
  { intros k Hk. unfold lab. by rewrite (slot_app a n). }
  destruct Hclean as [Hz|(H0 & H1 & H2)].
  - pose proof (zero_load_run s a n ltac:(lia) Ha Hz) as Hrun.
    eapply wpd_run; [exact Hrun|]. split_and!; [done|done|]. apply zero_load; [lia|done].
  - assert (∀ k, 0 ≤ k < n → rec_at s (shadow_for a) k = info_at (rt_labels s) (label_at s (a + k))) as Hrec.
    { intros k Hk. unfold rec_at. by rewrite Hlab. }
    eapply wpd_mono.
    + apply (load_ok s (shadow_for a) n (λ k, byte_fun s (a + k)) Hwf ltac:(lia) Hok).
      * rewrite Hlab by lia. by rewrite Z.add_0_r.
      * rewrite Hrec by lia. intros Hop k Hk. rewrite Hlab, Hrec by lia. by apply H1.
      * rewrite Hrec by lia. exact H2.
    + intros l s' (Hwf' & Hg & Hl & Hd). split_and!; [done|done|]. split; [done|]. right. split; [done|].
      intros j. rewrite Hd. unfold enc. by rewrite (proj2 (Z.eqb_neq _ 1)) by lia.
Qed.

(** ** Stores *)
Lemma symb_kept s s' w l n f :
  rt_wf s → rt_kept s s' → rt_mem s' = rt_mem s → symb s w l n f → symb s' w l n f.
Proof.
  intros [m Hm] Hk Hmem [Hr H]. split; [done|]. pose proof (proj1 Hk).
  destruct H as [H|[Hl Hd]]; [by left|right]. split; [lia|]. intros j. rewrite <-Hd. unfold sden.
  rewrite Hmem. apply (denote_kept _ m); [done|exact Hk|lia].
Qed.

(** A stored load is spread over the labels that follow that of its first byte:
    they have to be those of the next input bytes. *)
Definition clean_store (s : rt) (l n : Z) : Prop :=
  li_op (info_at (rt_labels s) l) = op_Load → input_run s (li_l1 (info_at (rt_labels s) l)) n.

(** Byte [k] of the stored value. *)
Definition byte_of (x k : Z) : Z := (x / 2 ^ (8 * k)) mod 2 ^ 8.
Definition part_ok (f : input → Z) (s : rt) (k y : Z) : Prop :=
  1 ≤ y ≤ last_label (rt_labels s) ∧ li_size (info_at (rt_labels s) y) = 8 ∧
  ∀ j, sden s j y = Some (VBV 8 (byte_of (f j) k)).
Definition store_post (s : rt) (ls n x : Z) (f : input → Z) (s' : rt) : Prop :=
  stored s ls n (λ s' k y, y = 0 ∧ (∀ j, f j = x) ∨ part_ok f s' k y) s'.

Lemma stored_mono s ls n (P P' : rt → Z → Z → Prop) s' :
  (∀ k y, 0 ≤ k < n → P s' k y → P' s' k y) → stored s ls n P s' → stored s ls n P' s'.
Proof. intros H (H1 & H2 & H3 & H4 & H5). split_and!; auto. Qed.
Lemma slots_stored s ls n g (P : rt → Z → Z → Prop) s' :
  rt_wf s → (∀ k, 0 ≤ k < n → P s' k (g k)) → slots_set s ls n g s' → stored s ls n P s'.
Proof.
  intros Hwf HP (Hs & Hf & Hg). assert (rt_labels s' = rt_labels s) as Hl by by rewrite Hs.
  split_and!; [unfold rt_wf; by rewrite Hl|unfold rt_kept; by rewrite Hl|by rewrite Hs|done|].
  intros k Hk. rewrite Hg by done. by apply HP.
Qed.
Lemma wpd_wp {S A} (m : M S A) (Q : A → S → Prop) s : wp m Q no_throw s → wpd m Q s.
Proof. unfold wp, wpd. by destruct (m s). Qed.

Lemma zero_store s ls n :
  0 ≤ n → wp (for_each (range 0 n) (λ i, shadow_put ls i 0)) (λ _, slots_set s ls n (λ _, 0)) no_throw s.
Proof. intros Hn. apply put_loop_ok; [done|]. intros s1 k _ _. apply shadow_put_ok. Qed.
Lemma byte_of_range x k : in_range 8 (byte_of x k).
Proof. unfold byte_of, in_range. pose proof (Z.mod_pos_bound (x / 2 ^ (8 * k)) (2 ^ 8)). lia. Qed.
Lemma byte_of_combine bs k b :
  bs !! Z.to_nat k = Some b → 0 ≤ k → byte_of (le_combine bs) k = u8 b.
Proof.
  intros Hk H0. revert k Hk H0. induction bs as [|c bs IH]; intros k Hk H0; [done|].
  unfold byte_of. cbn [le_combine]. pose proof (u8_range c) as Hc. unfold in_range in Hc.
  destruct (decide (k = 0)) as [->|Hne].
  - injection Hk as ->. rewrite Z.mul_0_r, Z.pow_0_r, Z.div_1_r, Z.mul_comm, Z_mod_plus_full.
    by apply Z.mod_small.
  - replace (8 * k) with (8 + 8 * (k - 1)) by lia. rewrite Z.pow_add_r, <-Z.div_div by lia.
    rewrite <-(Z.div_unique _ (2 ^ 8) (le_combine bs) (u8 c)) by lia. apply IH; [|lia].
    by replace (Z.to_nat k) with (S (Z.to_nat (k - 1))) in Hk by lia.
Qed.

(** The parts of a label: the label of a byte itself, the labels of the input
    bytes a load stands for, or extracts. *)
Lemma enc_bytes n x : 1 ≤ n → enc (8 * n) x = VBV (8 * n) x.
Proof. intros Hn. unfold enc. by rewrite (proj2 (Z.eqb_neq _ 1)) by lia. Qed.
Lemma part_whole s l x f :
  symb s 8 l x f → 1 ≤ l → li_size (info_at (rt_labels s) l) = 8 → part_ok f s 0 l.
Proof.
  intros [Hr H] Hl Hs. destruct H as [[-> _]|[Hl' Hd]]; [lia|]. split_and!; [lia|lia|done|]. intros j.
  rewrite Hd, (enc_bytes 1) by lia. unfold byte_of.
  rewrite Z.mul_0_r, Z.pow_0_r, Z.div_1_r, Z.mod_small by apply Hr. done.
Qed.
Lemma part_input s l n x f k :
  rt_wf s → 1 ≤ n → symb s (8 * n) l x f → 1 ≤ l → li_op (info_at (rt_labels s) l) = op_Load →
  input_run s (li_l1 (info_at (rt_labels s) l)) n → 0 ≤ k < n →
  part_ok f s k (li_l1 (info_at (rt_labels s) l) + k).
Proof.
  intros Hwf Hn [_ H] Hl Hop Hrun Hk. destruct H as [[-> _]|[Hl' Hd]]; [lia|].
  set (l1 := li_l1 (info_at (rt_labels s) l)) in *. destruct (Hrun k Hk) as (Hlk & Hinfo & Hop1).
  destruct Hinfo as (Hop0 & _ & _ & _ & Hsz). split_and!; [lia|lia|done|]. intros j.
  rewrite (sden_key s _ _ j Hwf Hlk eq_refl). unfold denote_info. rewrite Hop0. cbn [Z.eqb]. do 2 f_equal.
  specialize (Hd j). rewrite (sden_key s _ _ j Hwf Hl' eq_refl), denote_load, enc_bytes in Hd by done.
  injection Hd as Hw Hf. assert (Z.max 1 (li_l2 (info_at (rt_labels s) l)) = n) as Hmax by lia.
  rewrite Hmax in Hf. rewrite <-Hf. fold l1. symmetry. apply byte_of_combine; [|lia].
  unfold input_bytes. change map with (@fmap list _). rewrite list_lookup_fmap. unfold range.
  rewrite lookup_seqZ_lt by lia. cbn [fmap option_fmap option_map]. rewrite Hop1. do 3 f_equal. lia.
Qed.
Lemma part_extract s l n x f k y :
  rt_wf s → 1 ≤ n ≤ 8 → symb s (8 * n) l x f → 1 ≤ l → 0 ≤ k < n → extract_slot l s k y → part_ok f s k y.
Proof.
  intros Hwf Hn [_ H] Hl Hk [Hy Hkey]. destruct H as [[-> _]|[Hl' Hd]]; [lia|].
  set (r := LabelInfo (E:=expr) l 0 0 (8 * k) op_Extract 8 0 0 0 None None).
  assert (key_of (info_at (rt_labels s) y) = key_of r) as Hkr by done.
  split_and!; [lia|lia|by rewrite (key_size _ _ Hkr)|]. intros j.
  rewrite (sden_key s y r j Hwf Hy Hkr), denote_extract by done. cbn [li_l1 li_op2 li_size r].
  rewrite Hd, enc_bytes by lia. cbn [mbind option_bind slice_sem].
  rewrite (proj2 (Z.leb_le (8 * k + 8) _)), (proj2 (Z.ltb_lt (8 * k + 8) _)) by lia. done.
Qed.
Lemma part_shadow f s sh k y : part_ok f s k y → part_ok f (set_shadow sh s) k y.
Proof. done. Qed.

Lemma store_symb s ls n l x f :
  rt_wf s → 1 ≤ n ≤ 8 → symb s (8 * n) l x f → clean_store s l n →
  wpd (taint_union_store l ls n) (λ _, store_post s ls n x f) s.
Proof.
  intros Hwf Hn Hf Hcl. destruct (symb_label _ _ _ _ _ Hwf Hf) as [Hl Hlast]. unfold taint_union_store.
  rewrite (proj2 (Z.eqb_neq _ kInitializingLabel)) by (change kInitializingLabel with (2 ^ 32 - 1); lia).
  apply wpd_bind, wpd_gets, wpd_bind, wpd_assert; [lia|].
  destruct (Z.eqb_spec l 0) as [->|Hne].
  { apply wpd_wp. eapply wp_mono; [apply zero_store; lia| |done]. intros [] s' Hs'.
    eapply slots_stored; [done| |exact Hs']. intros k _. left. split; [done|].
    intros j. by apply (symb_const _ _ _ _ _ j Hf). }
  apply wpd_bind, wpd_info; [done|lia|].
  destruct ((n =? 1) && _) eqn:Hone.
  { apply andb_true_iff in Hone as [->%Z.eqb_eq Hs%Z.eqb_eq]. apply wpd_wp.
    eapply wp_mono; [apply shadow_put_ok| |done]. intros [] s' [Hs' Hp].
    apply (slots_stored s ls 1 (λ _, l)); [done| |split_and!; [done| |]].
    - intros k Hk. right. rewrite Hs'. apply part_shadow. replace k with 0 by lia. by eapply part_whole; [|lia|].
    - intros a Ha. rewrite Hp, decide_False; [done|]. intros <-. by apply (Ha 0).
    - intros k Hk. rewrite Hp, decide_True; [done|]. f_equal. lia. }
  destruct (Z.eqb_spec (li_op (info_at (rt_labels s) l)) op_Load) as [Hop|Hop].
  - specialize (Hcl Hop). set (l1 := li_l1 (info_at (rt_labels s) l)) in *.
    assert (∀ k, 0 ≤ k < n → u32 (l1 + k) = l1 + k) as Hu.
    { intros k Hk. destruct (Hcl k Hk) as [? _]. destruct Hwf as [m Hm]. pose proof (last_bound _ _ Hm).
      apply wrap_small. unfold in_range. lia. }
    apply wpd_wp. eapply wp_mono; [apply (put_loop_ok s ls n (λ k, l1 + k)); [lia|]| |done].
    + intros s1 k _ Hk. eapply wp_mono; [apply shadow_put_ok| |done].
      intros [] s2 [? Hp]. split; [done|]. intros a. by rewrite Hp, Hu.
    + intros [] s' Hs'. eapply slots_stored; [done| |exact Hs']. intros k Hk. right.
      destruct Hs' as [-> _]. apply part_shadow. apply (part_input s l n x f k); (done || lia).
  - eapply wpd_mono; [apply (store_loop_ok s ls n (extract_slot l)); [done|lia|..]|].
    + intros s1 s2 k y _ [Hkl Hkk] [Hy Hkey]. split; [lia|]. rewrite Hkk by lia. done.
    + intros s1 s2 k y Heq [Hy Hkey]. unfold extract_slot. by rewrite <-Heq.
    + intros s1 k Hwf1 [Hkl _] Hk. pose proof Hwf1 as [m1 Hm1]. pose proof (last_bound _ _ Hm1).
      unfold CONST_LABEL.
      eapply wpd_union; [done|apply request_left; [lia|lia|op_lia|apply extract_noncomm|unfold in_range; lia]
                        |simpl; lia|simpl; lia|].
      intros y s2 Hwf2 Hg Hy Hkey. split_and!; [done|done|]. split; [lia|]. rewrite Hkey.
      unfold key_of. simpl. unfold u64. rewrite wrap_small by (unfold in_range; lia).
      by rewrite Z.mul_comm.
    + intros [] s' Hst. pose proof Hst as (Hwf' & Hk' & Hs' & _). eapply stored_mono; [|exact Hst].
      intros k y Hk Hy. right. apply (part_extract s' l n x); [done|done| |lia|done|done].
      apply (symb_kept s); [done|done|by rewrite Hs'|done].
Qed.

(** A change of the runtime that keeps labels, shadow and memory. *)
Definition still (s s' : rt) : Prop :=
  rt_kept s s' ∧ rt_shadow s' = rt_shadow s ∧ rt_mem s' = rt_mem s.
Lemma still_grew s s' : grew s s' → still s s'.
Proof. intros Hg. split_and!; [apply Hg|by apply grew_shadow|by apply grew_mem]. Qed.
Lemma still_settled s s' : settled s s' → still s s'.
Proof. by intros (_ & Hk & _ & Hs & _ & Hm). Qed.

(** ** Memory as a function of the input

    The label of every application byte says what the original program, whose
    memory on the input [j] is [mems j], has there. *)
Definition mem_symb (s : rt) (inp : input) (mems : input → option (gmap Z Z)) : Prop :=
  ∀ a, app_range a 1 → byte_symb s a ∧ byte_fun s a inp = u8 (peek (rt_mem s) a) ∧
    ∀ j mem, mems j = Some mem → u8 (peek mem a) = byte_fun s a j.
Lemma byte_kept s s' a :
  rt_wf s → rt_kept s s' → label_at s' a = label_at s a → u8 (peek (rt_mem s') a) = u8 (peek (rt_mem s) a) →
  (∀ j, sden s' j (label_at s a) = sden s j (label_at s a)) → byte_symb s a →
  byte_symb s' a ∧ ∀ j, byte_fun s' a j = byte_fun s a j.
Proof.
  intros Hwf Hk Hl Hm Hd Hb.
  assert (∀ j, byte_fun s' a j = byte_fun s a j) as Hf by (intros j; unfold byte_fun; by rewrite Hl, Hd, Hm).
  split; [|done]. unfold byte_symb. rewrite Hl. destruct Hb as [Hb|(Hr & Hs & Hb)]; [by left|right].
  destruct Hk as [Hle Hkey]. split; [lia|]. split; [|intros j; by rewrite Hd, Hf].
  rewrite <-Hs. apply key_size, Hkey. lia.
Qed.
Lemma sden_kept s s' j l :
  rt_wf s → rt_kept s s' → rt_mem s' = rt_mem s → l ≤ last_label (rt_labels s) → sden s' j l = sden s j l.
Proof. intros [m Hm] Hk He Hl. unfold sden. rewrite He. by apply (denote_kept _ m). Qed.
Lemma byte_label_last s a : rt_wf s → byte_symb s a → label_at s a ≤ last_label (rt_labels s).
Proof. intros [m Hm] [->|[? _]]; [|lia]. pose proof (last_bound _ _ Hm). lia. Qed.
Lemma mem_symb_kept s s' inp mems mems' :
  rt_wf s → still s s' →
  (∀ j mem, mems' j = Some mem → mems j = Some mem) → mem_symb s inp mems → mem_symb s' inp mems'.
Proof.
  intros Hwf (Hk & Hs & Hm) Hmem H a Ha. destruct (H a Ha) as (Hb & Hi & Hj).
  pose proof (byte_label_last _ _ Hwf Hb) as Hlast.
  assert (label_at s' a = label_at s a) as Hl by (unfold label_at; by rewrite Hs).
  destruct (byte_kept s s' a) as [Hb' Hf]; [done|done|done|by rewrite Hm| |done|].
  { intros j. by apply sden_kept. }
  split_and!; [done|by rewrite Hf, Hm|]. intros j mem Hx. rewrite Hf. auto.
Qed.
Lemma mem_symb_load s inp mems a n j mem :
  mem_symb s inp mems → app_range a n → mems j = Some mem → mem_value mem a n = load_fun s a n j.
Proof.
  intros H [Hl Hh] Hj. apply mem_value_fun. intros k Hk.
  destruct (H (a + k)) as (_ & _ & Hx); [split; lia|]. rewrite <-(Hx j mem Hj). by rewrite u8_idemp.
Qed.
Lemma mem_symb_here s inp mems a n :
  mem_symb s inp mems → app_range a n → load_fun s a n inp = mem_value (rt_mem s) a n.
Proof.
  intros H [Hl Hh]. symmetry. apply mem_value_fun. intros k Hk.
  destruct (H (a + k)) as (_ & Hx & _); [split; lia|]. rewrite Hx. by rewrite u8_idemp.
Qed.

(** The byte at [a] is the function [g] of the input, by its label. *)
Definition byte_is (s : rt) (a : Z) (g : input → Z) : Prop :=
  label_at s a = 0 ∧ (∀ j, g j = u8 (peek (rt_mem s) a)) ∨
  1 ≤ label_at s a ≤ last_label (rt_labels s) ∧ li_size (info_at (rt_labels s) (label_at s a)) = 8 ∧
  ∀ j, sden s j (label_at s a) = Some (VBV 8 (g j)).
Lemma byte_symb_is s a : byte_symb s a → byte_is s a (byte_fun s a).
Proof. intros [H|H]; [left; split; [done|]; intros j; by apply byte_fun_const|by right]. Qed.
Lemma byte_is_symb s a g : byte_is s a g → byte_symb s a ∧ ∀ j, byte_fun s a j = g j.
Proof.
  intros [[H Hg]|(Hr & Hs & Hd)]; [split; [by left|]; intros j; by rewrite byte_fun_const|].
  assert (∀ j, byte_fun s a j = g j) as Hf by (intros j; unfold byte_fun; by rewrite Hd).
  split; [|done]. right. split; [done|]. split; [done|]. intros j. by rewrite Hd, Hf.
Qed.
Lemma mem_symb_bytes s inp mems :
  (∀ a, app_range a 1 → ∃ g, byte_is s a g ∧ g inp = u8 (peek (rt_mem s) a) ∧
     ∀ j mem, mems j = Some mem → u8 (peek mem a) = g j) → mem_symb s inp mems.
Proof.
  intros H a Ha. destruct (H a Ha) as (g & Hg & Hi & Hj). destruct (byte_is_symb s a g Hg) as [Hb Hf].
  split_and!; [done|by rewrite Hf|]. intros j mem Hm. rewrite Hf. by apply Hj.
Qed.
(** Labels mean the same after a change of memory. *)
Lemma sden_moved s s' j l :
  rt_wf s → rt_free s' → rt_kept s s' → l ≤ last_label (rt_labels s) → sden s' j l = sden s j l.
Proof.
  intros Hwf [Hwf' Hf] Hk Hl. pose proof (proj1 Hk). rewrite <-(sden_set_mem s' (rt_mem s)) by (done || lia).
  by apply sden_kept.
Qed.
Lemma byte_is_moved s s' a b g :
  rt_wf s → rt_free s' → rt_kept s s' → label_at s' b = label_at s a →
  u8 (peek (rt_mem s') b) = u8 (peek (rt_mem s) a) → byte_is s a g → byte_is s' b g.
Proof.
  intros Hwf Hf Hk Hl Hm. unfold byte_is. rewrite Hl, Hm. intros [H|(Hr & Hs & Hd)]; [by left|right].
  pose proof Hk as [Hle Hkey]. split; [lia|]. split; [by rewrite <-Hs; apply key_size, Hkey; lia|].
  intros j. by rewrite (sden_moved s s') by (done || lia).
Qed.
Lemma symb_moved s s' w l n f :
  rt_wf s → rt_free s' → rt_kept s s' → symb s w l n f → symb s' w l n f.
Proof.
  intros Hwf Hf Hk [Hr H]. split; [done|]. pose proof (proj1 Hk).
  destruct H as [H|[Hl Hd]]; [by left|right]. split; [lia|]. intros j. by rewrite (sden_moved s s') by (done || lia).
Qed.

(** After a store of the value [x], which is [f j] on the input [j]. *)
Definition value_bytes (x n : Z) : list Z := (λ k, u8 (Z.shiftr x (8 * k))) <$> range 0 n.
Lemma stored_value_byte mem a x n b :
  0 ≤ n → u8 (peek (store_bytes mem a (value_bytes x n)) b) =
    if decide (a ≤ b < a + n) then byte_of x (b - a) else u8 (peek mem b).
Proof.
  intros Hn. rewrite peek_store_bytes. unfold value_bytes. rewrite length_fmap. unfold range.
  rewrite length_seqZ. case_decide as H1; case_decide as H2; try lia.
  rewrite list_lookup_fmap, lookup_seqZ_lt by lia. cbn [fmap option_fmap option_map default]. unfold id.
  rewrite u8_idemp, Z.shiftr_div_pow2 by lia. unfold byte_of, u8, wrap. do 4 f_equal; lia.
Qed.
Lemma stored_label s s' a n P b :
  stored s (shadow_for a) n P s' → app_range a n → app_range b 1 →
  if decide (a ≤ b < a + n) then P s' (b - a) (label_at s' b) else label_at s' b = label_at s b.
Proof.
  intros (_ & _ & _ & Hframe & Hin) Ha Hb. case_decide as H.
  - specialize (Hin (b - a) ltac:(lia)). rewrite (slot_app a n) in Hin by (done || lia).
    by replace (a + (b - a)) with b in Hin by lia.
  - apply Hframe. intros k Hk. rewrite (slot_app a n) by done.
    assert (AppAddr = 7 * 2 ^ 44 + 0x40000) as HA by reflexivity.
    assert (AppBaseAddr = 7 * 2 ^ 44) as HB by reflexivity.
    destruct Ha, Hb. rewrite !shadow_for_app by lia. lia.
Qed.
Lemma mem_symb_store s s' inp mems mems' a n x f :
  rt_wf s → mem_free (rt_labels s') → app_range a n → 0 ≤ n → f inp = x →
  store_post s (shadow_for a) n x f s' → mem_symb s inp mems →
  (∀ j mem', mems' j = Some mem' → ∃ mem, mems j = Some mem ∧ mem' = store_bytes mem a (value_bytes (f j) n)) →
  mem_symb (set_mem (store_bytes (rt_mem s) a (value_bytes x n)) s') inp mems'.
Proof.
  intros Hwf Hfree Ha Hn Hfi Hst H Hmems. pose proof Hst as (Hwf' & Hk & _). set (s2 := set_mem _ s').
  assert (rt_free s2) as Hf2 by done. apply mem_symb_bytes. intros b Hb.
  pose proof (stored_label _ _ _ _ _ b Hst Ha Hb) as Hl. pose proof (λ mem x, stored_value_byte mem a x n b Hn) as Hbyte.
  destruct (decide (a ≤ b < a + n)) as [Hin|Hout].
  - exists (λ j, byte_of (f j) (b - a)).
    assert (u8 (peek (rt_mem s2) b) = byte_of x (b - a)) as Hhere by apply Hbyte. split_and!.
    + destruct Hl as [[Hz Hc]|(Hr & Hsz & Hd)]; [left|right; split_and!; [apply Hr|apply Hr|done|]].
      * split; [done|]. intros j. by rewrite Hc.
      * intros j. unfold s2. rewrite sden_set_mem by (done || apply Hr). apply Hd.
    + by rewrite Hfi.
    + intros j mem' (mem & _ & ->)%Hmems. apply Hbyte.
  - destruct (H b Hb) as (Hsb & Hi & Hj). exists (byte_fun s b). split_and!.
    + apply (byte_is_moved s s2 b b); [done|done|done|done|apply Hbyte|by apply byte_symb_is].
    + rewrite Hi. symmetry. apply Hbyte.
    + intros j mem' (mem & Hm & ->)%Hmems. rewrite <-(Hj j mem Hm). apply Hbyte.
Qed.

(** ** Memory set and moved as a whole *)

(** [memset]: all bytes get the label of the value, which has to be one of a
    byte. *)
Definition byte_label (s : rt) (l : Z) : Prop := l = 0 ∨ li_size (info_at (rt_labels s) l) = 8.
Lemma slots_set_label s s' a n g b :
  slots_set s (shadow_for a) n g s' → app_range a n → app_range b 1 →
  label_at s' b = if decide (a ≤ b < a + n) then g (b - a) else label_at s b.
Proof.
  intros (_ & Hframe & Hin) Ha Hb. case_decide as H.
  - rewrite <-(Hin (b - a)) by lia. rewrite (slot_app a n) by (done || lia). unfold label_at. do 2 f_equal. lia.
  - apply Hframe. intros k Hk. rewrite (slot_app a n) by done.
    assert (AppAddr = 7 * 2 ^ 44 + 0x40000) as HA by reflexivity.
    assert (AppBaseAddr = 7 * 2 ^ 44) as HB by reflexivity.
    destruct Ha, Hb. rewrite !shadow_for_app by lia. lia.
Qed.
Lemma slots_set_free s ls n g s' mem :
  rt_free s → slots_set s ls n g s' → rt_free (set_mem mem s') ∧ rt_kept s (set_mem mem s').
Proof. intros Hf (Hs & _). assert (rt_labels s' = rt_labels s) as Hl by by rewrite Hs. unfold rt_free, rt_wf, rt_kept. cbn. by rewrite Hl. Qed.
Lemma mem_symb_fill s s' inp mems mems' a n x l f :
  rt_free s → app_range a n → symb s 8 l x f → byte_label s l → f inp = x →
  slots_set s (shadow_for a) n (λ _, l) s' → mem_symb s inp mems →
  (∀ j mem', mems' j = Some mem' → ∃ mem, mems j = Some mem ∧ mem' = fill mem a (u8 (f j)) n) →
  mem_symb (set_mem (fill (rt_mem s) a (u8 x) n) s') inp mems'.
Proof.
  intros Hf Ha Hsym Hbl Hfi Hs H Hmems. destruct (slots_set_free s _ _ _ s' (fill (rt_mem s) a (u8 x) n) Hf Hs) as [Hf' Hk].
  set (s2 := set_mem _ s') in *. apply mem_symb_bytes. intros b Hb. pose proof (slots_set_label _ _ _ _ _ b Hs Ha Hb) as Hl.
  change (label_at s2 b = if decide (a ≤ b < a + n) then l else label_at s b) in Hl.
  assert (∀ mem y, u8 (peek (fill mem a (u8 y) n) b) = if decide (a ≤ b < a + n) then u8 y else u8 (peek mem b)) as Hbyte
    by (intros mem y; rewrite peek_fill; case_decide; [apply u8_idemp|done]).
  destruct (decide (a ≤ b < a + n)) as [Hin|Hout].
  - assert (∀ j, u8 (f j) = f j) as Hu by (intros j; apply wrap_small, (symb_range _ _ _ _ _ j Hsym)).
    exists f. split_and!.
    + pose proof (symb_moved s s2 8 l x f (proj1 Hf) Hf' Hk Hsym) as [Hr2 Hx]. unfold byte_is. rewrite Hl.
      destruct Hx as [[Hz Hc]|[Hr Hd]]; [left|right].
      * split; [done|]. intros j. change (f j = u8 (peek (fill (rt_mem s) a (u8 x) n) b)).
        rewrite Hbyte, <-(Hc j). by rewrite Hu.
      * split_and!; [lia|lia| |intros j; by rewrite Hd, (enc_bytes 1) by lia].
        destruct Hbl as [->|Hbl]; [lia|]. destruct Hsym as [_ [[-> _]|[Hrange _]]]; [lia|].
        rewrite <-Hbl. apply key_size. apply Hk. lia.
    + change (f inp = u8 (peek (fill (rt_mem s) a (u8 x) n) b)). by rewrite Hbyte, <-Hfi, Hu.
    + intros j mem' (mem & _ & ->)%Hmems. by rewrite Hbyte, Hu.
  - destruct (H b Hb) as (Hsb & Hi & Hj). exists (byte_fun s b). split_and!.
    + apply (byte_is_moved s s2 b b); [apply Hf|done|done|done|apply Hbyte|by apply byte_symb_is].
    + rewrite Hi. symmetry. apply Hbyte.
    + intros j mem' (mem & Hm & ->)%Hmems. rewrite Hbyte. by apply Hj.
Qed.

(** [memcpy] and [memmove]: labels move with the bytes. *)
Lemma move_cells_copied stride m d a n : 0 < stride → copied stride m (move_cells stride m d a n) d a n.
Proof.
  intros Hs. unfold move_cells. destruct (Z.ltb_spec d a); [apply copy_fwd_copied; lia|apply copy_bwd_copied; lia].
Qed.
Lemma move_cells_byte m d a n b :
  peek (move_cells 1 m d a n) b = peek m (if decide (d ≤ b < d + n) then a + (b - d) else b).
Proof.
  destruct (move_cells_copied 1 m d a n ltac:(lia)) as [H1 H2]. case_decide as Hb.
  - specialize (H1 (b - d) ltac:(lia)). rewrite !Z.mul_1_l in H1. rewrite <-H1. f_equal. lia.
  - apply H2. lia.
Qed.
Lemma move_cells_label s d a n b :
  app_range d n → app_range a n → app_range b 1 →
  peek (move_cells 4 (rt_shadow s) (shadow_for d) (shadow_for a) n) (shadow_for b) =
    label_at s (if decide (d ≤ b < d + n) then a + (b - d) else b).
Proof.
  intros Hd Ha Hb. destruct (move_cells_copied 4 (rt_shadow s) (shadow_for d) (shadow_for a) n ltac:(lia)) as [H1 H2].
  assert (∀ x k, app_range x n → 0 ≤ k < n → shadow_for x + 4 * k = shadow_for (x + k)) as Hslot.
  { intros x k Hx Hk. rewrite <-(slot_app x n) by done. unfold slot. lia. }
  case_decide as Hin; unfold label_at.
  - specialize (H1 (b - d) ltac:(lia)). rewrite !Hslot in H1 by (done || lia).
    replace (d + (b - d)) with b in H1 by lia. done.
  - apply H2. intros k Hk. rewrite Hslot by done.
    assert (AppAddr = 7 * 2 ^ 44 + 0x40000) as HA by reflexivity.
    assert (AppBaseAddr = 7 * 2 ^ 44) as HB by reflexivity.
    destruct Hd, Hb. rewrite !shadow_for_app by lia. lia.
Qed.
Lemma mem_symb_move s inp mems mems' d a n :
  rt_free s → app_range d n → app_range a n → mem_symb s inp mems →
  (∀ j mem', mems' j = Some mem' → ∃ mem, mems j = Some mem ∧ mem' = move_cells 1 mem d a n) →
  mem_symb (set_mem (move_cells 1 (rt_mem s) d a n)
              (set_shadow (move_cells 4 (rt_shadow s) (shadow_for d) (shadow_for a) n) s)) inp mems'.
Proof.
  intros Hf Hd Ha H Hmems. set (s2 := set_mem _ _). apply mem_symb_bytes. intros b Hb.
  set (c := if decide (d ≤ b < d + n) then a + (b - d) else b).
  assert (app_range c 1) as Hc by (unfold c, app_range in *; case_decide; lia).
  destruct (H c Hc) as (Hsc & Hi & Hj). exists (byte_fun s c). split_and!.
  - apply (byte_is_moved s s2 c b); [apply Hf|done|done|by apply move_cells_label| |by apply byte_symb_is].
    change (u8 (peek (move_cells 1 (rt_mem s) d a n) b) = u8 (peek (rt_mem s) c)). by rewrite move_cells_byte.
  - rewrite Hi. change (u8 (peek (rt_mem s) c) = u8 (peek (move_cells 1 (rt_mem s) d a n) b)). by rewrite move_cells_byte.
  - intros j mem' (mem & Hm & ->)%Hmems. rewrite move_cells_byte. by apply Hj.
Qed.

(** ** Tracing

    Tracing a condition or a comparison may record a label and runs the solver;
    labels, shadow and memory stay. *)
Definition steady (s s' : rt) : Prop := rt_free s' ∧ still s s'.
Lemma steady_refl s : rt_free s → steady s s.
Proof. by intros Hf. Qed.
Lemma steady_settled s0 s s' : steady s0 s → settled s s' → steady s0 s'.
Proof.
  intros [[Hwf Hf] (Hk & Hs & Hm)] Hst. pose proof (still_settled _ _ Hst) as (Hk' & Hs' & Hm').
  split; [split; [apply Hst|by eapply settled_free]|]. split_and!; [by etrans|congruence..].
Qed.
Lemma steady_pres {A} s0 (c : M rt A) : (∀ s, pres (settled s) c) → pres (steady s0) c.
Proof.
  intros H s Hs. specialize (H s s (settled_refl s (proj1 (proj1 Hs)))).
  destruct (c s); [by eapply steady_settled|by eapply steady_settled|done].
Qed.
Lemma steady_union s0 l1 l2 op size a b :
  0 ≤ op < 2 ^ 16 → op ≠ op_fmemcmp →
  hoare (steady s0) (r_dfsan_union l1 l2 op size a b)
    (λ l s, steady s0 s ∧ valid_label (rt_labels s) l) (steady s0).
Proof.
  intros Hr Hop s [Hf (Hk & Hs & Hm)]. pose proof (union_free l1 l2 op (u8 size) a b Hr Hop s Hf) as Hfree.
  destruct Hf as [[m Hwf] _]. pose proof (taint_union_cases _ _ l1 l2 op (u8 size) a b Hwf) as Hc.
  unfold r_dfsan_union, dfsan_union. unfold r_union, on_labels, zoom in *.
  destruct (taint_union _ _ _ _ _ _ _) as [l ls'|e ls'|h ls']; [|done|done].
  destruct Hc as (_ & Hv & Hk' & _). split; [|done]. split; [done|]. split_and!; [by etrans|done|done].
Qed.
(** A label that is not recorded stops the program when it is read. *)
Lemma steady_solve_cond s0 l result nested :
  hoare (λ s, steady s0 s ∧ valid_label (rt_labels s) l) (solve_cond l result nested) (λ _, steady s0) (steady s0).
Proof.
  intros s [Hs [Hl| ->]].
  - pose proof (settled_solve_cond s l result nested Hl s (settled_refl s (proj1 (proj1 Hs)))) as H.
    destruct (solve_cond l result nested s); [by eapply steady_settled|by eapply steady_settled|done].
  - assert (r_info kInitializingLabel s = Halt HSegv s) as Hseg by by destruct s.
    unfold solve_cond, is_flipped. by rewrite (bind_halt _ _ _ _ _ (bind_halt _ _ _ _ _ Hseg)).
Qed.
Lemma steady_trace_cond s0 l r addr s :
  steady s0 s → 0 ≤ l ≤ last_label (rt_labels s) →
  match taint_trace_cond l r addr s with Ret _ s' => steady s0 s' | _ => True end.
Proof.
  intros Hs Hl. pose proof (settled_trace_cond s l r addr Hl s (settled_refl s (proj1 (proj1 Hs)))) as H.
  destruct (taint_trace_cond l r addr s); [by eapply steady_settled|done|done].
Qed.
Lemma trace_op pred : 32 ≤ pred ≤ 41 → Z.lor (u32 (Z.shiftl pred 8)) op_ICmp = cmp_op pred.
Proof.
  intros Hp. pose proof llvm_op_bounds. pose proof last_llvm_op_bound. rewrite <-cmp_op_eq, Z.lor_comm by done.
  assert (in_range 16 (Z.shiftl pred 8)) by (rewrite Z.shiftl_mul_pow2 by lia; unfold in_range; lia).
  unfold u16, u32. rewrite (wrap_small 32), (wrap_small 16 (Z.shiftl _ _)); [|done|unfold in_range in *; lia].
  symmetry. apply wrap_small. apply lor_range; [lia|unfold in_range; lia|done].
Qed.
Lemma steady_trace_cmp s0 op1 op2 size pred c1 c2 addr :
  32 ≤ pred ≤ 41 → pres (steady s0) (taint_trace_cmp op1 op2 size pred c1 c2 addr).
Proof.
  intros Hp. unfold taint_trace_cmp. destruct (_ && _); [pres_auto|].
  apply pres_bind; [apply steady_pres; intros s; apply settled_count|]. intros [|]; simpl; [|pres_auto].
  rewrite trace_op by done. eapply hoare_bind.
  { apply steady_union; unfold cmp_op; pose proof llvm_op_bounds; pose proof last_llvm_op_bound; op_lia. }
  intros temp. set (I := λ s, steady s0 s ∧ valid_label (rt_labels s) temp).
  assert (∀ (c : M rt expr) (k : expr → M rt ()), pres I c → (∀ e, hoare I (k e) (λ _, steady s0) (steady s0)) →
            hoare I (c ≫= k) (λ _, steady s0) (steady s0)) as Hstep.
  { intros c k Hc Hk. eapply hoare_bind; [|exact Hk]. eapply hoare_conseq; [exact Hc|done|done|by intros s [? _]]. }
  apply Hstep; [apply zmk_pres|]. intros e1. apply Hstep; [apply zmk_pres|]. intros e2.
  apply Hstep; [|intros e; apply steady_solve_cond].
  unfold get_cmd. repeat (case_match; [apply zmk_pres|]). apply pres_throw.
Qed.
End mem.
