(* ===== verification/PassVisit.v ===== *)
(** * What the instrumentation pass inserts

    The visits of integer instructions, loads, stores, address computations,
    selects and branches: the labels they look up and the code they insert,
    described against the final state of the pass, so that the instructions may
    afterwards execute in any order the control flow takes. *)
From S2P Require Import Prelude Labels Ir Pass PassRun PassSpec.

(** ** What the pass does to an instruction *)
Section visit.
Context {Ops : LlvmOps} {DL : DataLayout} {PE : PassEnv}.
Context (F : func) (native : bool).

(** A computation of the pass that returns. *)
Definition runs {A} (c : M tf A) (Q : A → tf → Prop) (t : tf) : Prop :=
  ∃ a t', c t = Ret a t' ∧ Q a t'.
Lemma runs_ret {A} (a : A) (Q : A → tf → Prop) t : Q a t → runs (mret a) Q t.
Proof. intros H. by exists a, t. Qed.
Lemma runs_bind {A B} (c : M tf A) (f : A → M tf B) Q t :
  runs c (λ a t', runs (f a) Q t') t → runs (c ≫= f) Q t.
Proof. intros (a & t' & Hc & Hf). unfold runs. by rewrite (bind_run _ _ _ _ _ Hc). Qed.
Lemma runs_mono {A} (c : M tf A) (Q Q' : A → tf → Prop) t :
  runs c Q t → (∀ a t', Q a t' → Q' a t') → runs c Q' t.
Proof. intros (a & t' & Hc & HQ) H. exists a, t'. auto. Qed.
Lemma runs_modify f (Q : () → tf → Prop) t : Q () (f t) → runs (modify f) Q t.
Proof. intros H. by exists (), (f t). Qed.
Lemma runs_get (Q : tf → tf → Prop) t : Q t t → runs get Q t.
Proof. intros H. by exists t, t. Qed.

(** The label of a value in a state of the pass. *)
Definition has (t : tf) (v : val) (s : shadow) : Prop :=
  match v with
  | VConst _ _ | VGlobal _ => s = ZeroShadow
  | VArgument n => tf_args t !! n = Some s ∨ native = true ∧ s = ZeroShadow
  | VInst id => tf_insts t !! id = Some s
  end.

(** Labels already given stay; only inserted instructions are skipped. *)
Definition skips (t t' : tf) : Prop := ∀ d, d ∈ SkipInsts t' → d ∈ SkipInsts t ∨ tf_next t ≤ d.
#[local] Hint Extern 0 (skips _ _) => (let H := fresh in intros ? H; left; exact H) : core.
Definition extends (t t' : tf) : Prop :=
  tf_args t ⊆ tf_args t' ∧ tf_insts t ⊆ tf_insts t' ∧ tf_next t ≤ tf_next t' ∧
  skips t t' ∧ StoreInsts t' = StoreInsts t ∧ AllocaShadowMap t' = AllocaShadowMap t ∧
  PHIFixups t ⊆ PHIFixups t'.
#[export] Instance extends_preorder : PreOrder extends.
Proof.
  split; [by intros t|]. intros a b c (H1 & H2 & H3 & H4 & H5 & H6 & H7) (K1 & K2 & K3 & K4 & K5 & K6 & K7).
  split_and!; [by etrans|by etrans|lia| |congruence..|by etrans].
  intros d [Hd|Hd]%K4; [destruct (H4 d Hd); [by left|by right]|right; lia].
Qed.
Lemma has_extends t t' v s : extends t t' → has t v s → has t' v s.
Proof.
  intros (Ha & Hi & _). destruct v; simpl; [|intros H; by eapply lookup_weaken|done|done].
  intros [H|H]; [left; by eapply lookup_weaken|by right].
Qed.

(** The code at the entry of the function: loads of the labels of arguments, and
    slots on the stack. *)
Definition entry_loads (l : list emit) : list (Z * Z) :=
  omap (λ e, match e with EArgLoad d n => Some (d, n) | _ => None end) l.
Definition entry_emit (e : emit) : Prop :=
  match e with EArgLoad _ _ | ESlotAlloca _ _ => True | _ => False end.
Definition entry_same (t t' : tf) : Prop :=
  entry_loads (tf_entry t') = entry_loads (tf_entry t) ∧
  (Forall entry_emit (tf_entry t) → Forall entry_emit (tf_entry t')).

(** Every instruction has a label register of its own; so has every argument, and
    it is loaded at the entry. *)
Record own (t : tf) : Prop := {
  own_next id d : tf_insts t !! id = Some (SVal d) → d < tf_next t;
  own_arg n d : tf_args t !! n = Some (SVal d) → d < tf_next t;
  own_inst id id' d : tf_insts t !! id = Some (SVal d) → tf_insts t !! id' = Some (SVal d) → id = id';
  own_args n n' d : tf_args t !! n = Some (SVal d) → tf_args t !! n' = Some (SVal d) → n = n';
  own_sep id n d : tf_insts t !! id = Some (SVal d) → tf_args t !! n ≠ Some (SVal d);
  own_phis : NoDup (PHIFixups t).*2;
  own_phi p : p ∈ PHIFixups t → p.2 < tf_next t;
  own_entry : Forall entry_emit (tf_entry t);
  own_load n d : (d, n) ∈ entry_loads (tf_entry t) ↔ tf_args t !! n = Some (SVal d);
  own_tls n s : ABI = IA_TLS → tf_args t !! n = Some s → ∃ d, s = SVal d;
}.
Lemma own_init first : own (tf_init first).
Proof. split; try done; [constructor|set_solver|set_solver]. Qed.

Definition same_code (t t' : tf) : Prop :=
  tf_before t' = tf_before t ∧ tf_after t' = tf_after t ∧ tf_fate t' = tf_fate t.
(** Instructions get labels only when they are looked up or visited. *)
Definition unlabelled (id : Z) (t : tf) : Prop := tf_insts t !! id = None.

Lemma own_arg_insert t n s t' :
  own t → tf_args t !! n = None → tf_args t' = <[n := s]> (tf_args t) → tf_insts t' = tf_insts t →
  PHIFixups t' = PHIFixups t →
  tf_entry t' = match s with SVal d => EArgLoad d n :: tf_entry t | _ => tf_entry t end →
  (∀ d, s = SVal d → tf_next t ≤ d < tf_next t') → tf_next t ≤ tf_next t' →
  (ABI = IA_TLS → ∃ d, s = SVal d) → own t'.
Proof.
  intros [H1 H2 H3 H5 H4 H6 H7 H8 H9 H10] Hn Ha Hi Hp He Hs Hle Htls.
  split; rewrite ?Ha, ?Hi, ?Hp, ?He; [..|done|intros p Hx; specialize (H7 p Hx); lia| | |].
  - intros id d Hx. specialize (H1 _ _ Hx). lia.
  - intros k d. rewrite lookup_insert. case_decide; [intros [= ->]; specialize (Hs _ eq_refl); lia|].
    intros Hx. specialize (H2 _ _ Hx). lia.
  - done.
  - intros k k' d. rewrite !lookup_insert. case_decide; case_decide; intros Hx Hy; simplify_eq; try done.
    + specialize (Hs _ eq_refl). specialize (H2 _ _ Hy). lia.
    + specialize (Hs _ eq_refl). specialize (H2 _ _ Hx). lia.
    + by eapply H5.
  - intros id k d Hx. rewrite lookup_insert. case_decide; [|by apply H4 with id].
    intros [= ->]. specialize (H1 _ _ Hx). specialize (Hs _ eq_refl). lia.
  - destruct s; [done|done|]. by constructor.
  - intros k d. rewrite lookup_insert. case_decide as Hk; [subst k|].
    + destruct s as [| |d']; [rewrite H9, Hn; done|rewrite H9, Hn; done|]. cbn. rewrite elem_of_cons, H9, Hn. naive_solver.
    + destruct s as [| |d']; [apply H9|apply H9|]. cbn. rewrite elem_of_cons, H9. naive_solver.
  - intros k s' HA. rewrite lookup_insert. case_decide; [intros [= <-]; by apply Htls|by apply H10].
Qed.
(** A register no label was assigned to. *)
Definition unused (t : tf) (d : Z) : Prop :=
  d < tf_next t ∧ (∀ id, tf_insts t !! id ≠ Some (SVal d)) ∧ ∀ n, tf_args t !! n ≠ Some (SVal d).
Lemma own_inst_insert t id s :
  own t → (∀ d, s = SVal d → unused t d) → own (set_insts (<[id := s]> (tf_insts t)) t).
Proof.
  intros [H1 H2 H3 H5 H4 H6 H7 H8 H9 H10] Hs. split; cbn; [|done| |done| |done|done|done|done|done].
  - intros k d. rewrite lookup_insert. case_decide; [intros [= ->]; by apply Hs|apply H1].
  - intros k k' d. rewrite !lookup_insert. case_decide; case_decide; intros Hx Hy; simplify_eq; try done.
    + by destruct (Hs _ eq_refl) as (_ & Hn & _); destruct (Hn _ Hy).
    + by destruct (Hs _ eq_refl) as (_ & Hn & _); destruct (Hn _ Hx).
    + by eapply H3.
  - intros k n d. rewrite lookup_insert. case_decide; [|apply H4]. intros [= ->]. by apply Hs.
Qed.
Lemma own_same t t' :
  tf_args t' = tf_args t → tf_insts t' = tf_insts t → PHIFixups t' = PHIFixups t →
  tf_next t ≤ tf_next t' → entry_same t t' → own t → own t'.
Proof.
  intros Ha Hi Hp Hn [He1 He2] [H1 H2 H3 H4 H5 H6 H7 H8 H9 H10]. split; rewrite ?Ha, ?Hi, ?Hp, ?He1; try done; [..|by apply He2].
  - intros id d Hd. specialize (H1 _ _ Hd). lia.
  - intros n d Hd. specialize (H2 _ _ Hd). lia.
  - intros p Hx. specialize (H7 _ Hx). lia.
Qed.
Lemma fresh_unused t t' d :
  own t → tf_args t' = tf_args t → tf_insts t' = tf_insts t → tf_next t ≤ d < tf_next t' → unused t' d.
Proof.
  intros Ho Ha Hi Hd. unfold unused. rewrite Ha, Hi. split_and!; [lia| |].
  - intros id H. apply (own_next _ Ho) in H. lia.
  - intros n H. apply (own_arg _ Ho) in H. lia.
Qed.

Lemma getShadow_runs v t :
  own t →
  runs (getShadow F native v)
    (λ s t', extends t t' ∧ own t' ∧ has t' v s ∧ same_code t t' ∧
       ∀ id, v ≠ VInst id → unlabelled id t → unlabelled id t') t.
Proof.
  intros Ho. destruct v as [n|id|w n|g]; cbn [getShadow].
  - apply runs_bind, runs_get. destruct (tf_args t !! n) as [s|] eqn:Hn.
    { apply runs_ret. split_and!; [done|done|by left|done|done]. }
    destruct native eqn:Hnat; [apply runs_ret; split_and!; [done|done|by right|done|done]|].
    assert (tf_args t ⊆ <[n:=SVal (tf_next t)]> (tf_args t)) by by apply insert_subseteq.
    destruct ABI eqn:HABI.
    + apply runs_bind, runs_ret, runs_bind, runs_modify, runs_bind, runs_modify, runs_ret.
      split_and!; [|eapply own_arg_insert; [exact Ho|exact Hn|done|done|done|done|done|cbn; lia|by rewrite HABI]| |done|done].
      * split_and!; [by apply insert_subseteq|done|cbn; lia|done..].
      * left. cbn. by rewrite lookup_insert_eq.
    + eexists _, _. split; [reflexivity|]. split_and!; [| | |done|done].
      * split_and!; [by apply insert_subseteq|done|cbn; lia|done..].
      * eapply own_arg_insert; [exact Ho|exact Hn|done|done|done|done| |cbn; lia|by eexists]. intros d [= <-]. cbn. lia.
      * left. cbn. by rewrite lookup_insert_eq.
  - apply runs_bind, runs_get. destruct (tf_insts t !! id) as [s|] eqn:Hi.
    { apply runs_ret. by split_and!. }
    eexists _, _. split; [reflexivity|]. split_and!; [| | |done|].
    + split_and!; [done|by apply insert_subseteq|cbn; lia|done..].
    + by apply own_inst_insert.
    + cbn. by rewrite lookup_insert_eq.
    + intros k Hne Hk. unfold unlabelled. cbn. rewrite lookup_insert_ne; [done|congruence].
  - apply runs_ret. by split_and!.
  - apply runs_ret. by split_and!.
Qed.

Lemma runs_and {A} (c : M tf A) (Q Q' : A → tf → Prop) t :
  runs c Q t → runs c Q' t → runs c (λ a t', Q a t' ∧ Q' a t') t.
Proof. intros (a & t' & Hc & HQ) (a2 & t2 & Hc2 & HQ2). exists a, t'. split; [done|]. rewrite Hc in Hc2. by injection Hc2 as <- <-. Qed.

(** What a [getShadow] in the middle of a visit keeps. *)
Lemma getShadow_unused v t d : unused t d → runs (getShadow F native v) (λ _ t', unused t' d) t.
Proof.
  intros (Hd & Hi & Ha). destruct v as [n|id|w n|g]; cbn [getShadow]; try by apply runs_ret.
  - apply runs_bind, runs_get. destruct (tf_args t !! n) as [s|]; [by apply runs_ret|].
    destruct native; [by apply runs_ret|]. destruct ABI; eexists _, _; (split; [reflexivity|]);
      split_and!; try done; try (cbn; lia); intros k; cbn; rewrite lookup_insert; case_decide; try done.
    intros [= <-]. lia.
  - apply runs_bind, runs_get. destruct (tf_insts t !! id) as [s|]; [by apply runs_ret|].
    eexists _, _; split; [reflexivity|]. split_and!; try done.
    intros k; cbn; rewrite lookup_insert; by case_decide.
Qed.

(** ** The instructions covered

    Integer operators, casts and comparisons of up to 64 bits. At width 1 only
    the logical operators have a meaning for the solver. *)
Definition operand_ok (w : Z) (v : val) : Prop :=
  type_of v = TInt w ∧
  match v with VConst _ n => in_range w n | VGlobal _ => False | _ => True end.
Definition straight (i : inst) : Prop :=
  i_nosanitize i = false ∧ (VInst (i_id i) ∉ operands (i_kind i)) ∧ type_of (VInst (i_id i)) = i_ty i ∧
  match i_kind i with
  | IBinary op a b =>
      ∃ w, i_ty i = TInt w ∧ op ∈ binops ∧ 1 ≤ w ≤ 64 ∧ operand_ok w a ∧ operand_ok w b ∧
        (w = 1 → op = op_And ∨ op = op_Or ∨
                 op = op_Xor ∧ (is_constant_one b || is_constant_one a) = true)
  | ICast op a => ∃ w w', i_ty i = TInt w' ∧ operand_ok w a ∧ cast_ok op w w'
  | ICompare integer op pred a b =>
      integer = true ∧ op = op_ICmp ∧ i_ty i = TInt 1 ∧ 32 ≤ pred ≤ 41 ∧
      ∃ w, 1 ≤ w ≤ 64 ∧ operand_ok w a ∧ operand_ok w b ∧ (w = 1 → pred = 32 ∨ pred = 33)
  | _ => False
  end.

(** The operands, operator and size of the union of an instruction. *)
Definition bin_op (i : inst) (op : Z) (a b : val) : Z :=
  if (int_width (i_ty i) =? 1) && (op =? op_Xor) && (is_constant_one b || is_constant_one a)
  then op_Not else op.
Definition union_of (i : inst) : val * option val * Z * Z :=
  match i_kind i with
  | IBinary op a b => (a, Some b, bin_op i op a b, int_width (i_ty i))
  | ICast op a => (a, None, op, int_width (i_ty i))
  | ICompare _ _ pred a b => (a, Some b, cmp_op pred, int_width (type_of a))
  | _ => (VConst 64 0, None, 0, 0)
  end.
Definition to_int64 (v : option val) : arg64 :=
  match v with Some v => (v, [CvZExtOrTrunc 64]) | None => (VConst 64 0, []) end.
Definition has_opt (t : tf) (v : option val) (s : shadow) : Prop :=
  match v with Some v => has t v s | None => s = ZeroShadow end.
Lemma has_opt_extends t t' v s : extends t t' → has_opt t v s → has_opt t' v s.
Proof. intros He. destruct v; [by apply has_extends|done]. Qed.

(** The item of an instruction, against the labels of a later state. *)
Definition item_ok (t : tf) (i : inst) (x : item) : Prop :=
  it_inst x = i ∧ it_fate x = Kept ∧ it_after x = [] ∧
  let '(a, b, op, size) := union_of i in
  ∃ s1 s2, has t a s1 ∧ has_opt t b s2 ∧
    (s1 = ZeroShadow ∧ s2 = ZeroShadow ∧ tf_insts t !! i_id i = Some ZeroShadow ∧ it_before x = [] ∨
     ∃ d, tf_insts t !! i_id i = Some (SVal d) ∧
       it_before x = [EUnion d s1 s2 op size (to_int64 (Some a)) (to_int64 b)]).
Lemma item_ok_extends t t' i x : extends t t' → item_ok t i x → item_ok t' i x.
Proof.
  intros He (H1 & H2 & H3 & H). split_and!; [done..|]. destruct (union_of i) as [[[a b] op] size].
  destruct H as (s1 & s2 & Ha & Hb & H). exists s1, s2. pose proof He as (_ & Hi & _).
  split_and!; [by eapply has_extends|by eapply has_opt_extends|].
  destruct H as [(-> & -> & H & Hc)|(d & H & Hc)]; [left|right; exists d];
    split_and!; (done || by eapply lookup_weaken).
Qed.

(** [combineShadows] on such an instruction: nothing when both labels are
    constantly 0, or one call of the runtime. *)
Definition combine_post (i : inst) (s1 s2 : shadow) (t : tf) (s : shadow) (t' : tf) : Prop :=
  let '(a, b, op, size) := union_of i in
  s1 = ZeroShadow ∧ s2 = ZeroShadow ∧ s = ZeroShadow ∧ t' = t ∨
  s = SVal (tf_next t) ∧
  t' = set_code (tf_entry t)
         (tf_before t ++ [EUnion (tf_next t) s1 s2 op size (to_int64 (Some a)) (to_int64 b)])
         (tf_after t) (tf_fate t) (set_next (tf_next t + 1) t).

Lemma opcode_u8 op : 0 ≤ op < 256 → u8 op = op.
Proof. intros H. by apply wrap_small. Qed.
Lemma straight_opcode i : straight i →
  match i_kind i with
  | IBinary op _ _ | ICast op _ | ICompare _ op _ _ _ => 0 ≤ op < 256
  | _ => True
  end.
Proof.
  intros (_ & _ & _ & H). pose proof last_llvm_op_bound. pose proof llvm_op_bounds.
  destruct (i_kind i); try done.
  - destruct H as (w & _ & Hop & _). destruct (binop_other _ Hop) as [? _]. lia.
  - destruct H as (w & w' & _ & _ & Hc). destruct (cast_tests _ _ _ Hc) as [? _]. lia.
  - destruct H as (_ & -> & _). lia.
Qed.
Lemma int64_of w v : operand_ok w v → operand_to_int64 v = (v, [CvZExtOrTrunc 64]).
Proof. intros [Ht _]. unfold operand_to_int64. by rewrite Ht. Qed.

Lemma combine_code s1 s2 op pos w w' a t :
  ¬ (s1 = ZeroShadow ∧ s2 = ZeroShadow) → head (operands (i_kind pos)) = Some a →
  operand_ok w a → i_ty pos = TInt w' → 1 ≤ w' ≤ 64 → 1 ≤ w ≤ 64 →
  combineShadows s1 s2 op pos t =
    let '(size, op) := match i_kind pos with
                       | ICompare _ _ predicate _ _ => (w, Z.lor op (u16 (Z.shiftl predicate 8)))
                       | _ => (w', op)
                       end in
    let x2 := match operands (i_kind pos) with
              | _ :: b :: _ => operand_to_int64 b
              | _ => (VConst 64 0, [])
              end in
    Ret (SVal (tf_next t))
      (set_code (tf_entry t)
         (tf_before t ++ [EUnion (tf_next t) s1 s2 (u16 op) (u8 size) (a, [CvZExtOrTrunc 64]) x2])
         (tf_after t) (tf_fate t) (set_next (tf_next t + 1) t)).
Proof.
  intros Hne Hh [Ht Hv] Hty Hw' Hw. unfold combineShadows. rewrite decide_False by done.
  rewrite Hh. cbn [from_option id]. rewrite Ht. cbn [is_fp is_vec is_int is_ptr andb negb].
  rewrite Hty, dl_int by lia. rewrite (proj2 (Z.ltb_ge 64 w')) by lia.
  rewrite (int64_of w a) by done.
  destruct (i_kind pos); cbn [Ir.operands head] in *; try done. simplify_eq. by rewrite Ht, dl_int by lia.
Qed.

Lemma combine_runs i s1 s2 t :
  straight i →
  runs (combineShadows s1 s2
          match i_kind i with
          | IBinary op a b => bin_op i op a b
          | ICast op _ | ICompare _ op _ _ _ => op
          | _ => 0
          end i) (combine_post i s1 s2 t) t.
Proof.
  intros Hs. destruct (decide (s1 = ZeroShadow ∧ s2 = ZeroShadow)) as [[-> ->]|Hne].
  { exists ZeroShadow, t. split; [by unfold combineShadows; rewrite decide_True|].
    unfold combine_post. destruct (union_of i) as [[[a b] op] size]. by left. }
  pose proof (straight_opcode i Hs) as Hop. destruct Hs as (_ & _ & _ & H).
  unfold runs, combine_post, union_of. destruct (i_kind i) eqn:Hk; try done.
  - destruct H as (w & Hty & Hb & Hw & Ha & Hb' & _).
    rewrite (combine_code _ _ _ i w w a) by (done || by rewrite Hk). rewrite Hk. cbv zeta. cbn [Ir.operands].
    rewrite (int64_of w b), Hty by done. cbn [int_width to_int64].
    assert (in_range 16 (bin_op i opcode a b)).
    { unfold bin_op, in_range. destruct (_ && _); unfold op_Not; lia. }
    unfold u16, u8. rewrite !wrap_small by (done || unfold in_range; lia).
    eexists _, _. split; [reflexivity|]. by right.
  - destruct H as (w & w' & Hty & Ha & Hc). pose proof Hc as Hc'. unfold cast_ok in Hc'.
    rewrite (combine_code _ _ _ i w w' a) by (done || lia || by rewrite Hk). rewrite Hk. cbv zeta. cbn [Ir.operands].
    rewrite Hty. cbn [int_width to_int64]. unfold u16, u8.
    rewrite !wrap_small by (unfold in_range; lia). eexists _, _. split; [reflexivity|]. by right.
  - destruct H as (-> & -> & Hty & Hp & w & Hw & Ha & Hb & _).
    rewrite (combine_code _ _ _ i w 1 a) by (done || lia || by rewrite Hk). rewrite Hk. cbv zeta. cbn [Ir.operands].
    rewrite (int64_of w b), cmp_op_eq, (proj1 Ha) by done. cbn [int_width to_int64].
    unfold u8. rewrite !wrap_small by (unfold in_range; lia). eexists _, _. split; [reflexivity|]. by right.
Qed.

Definition clean (t : tf) : Prop := tf_before t = [] ∧ tf_after t = [] ∧ tf_fate t = Kept.
Definition current (i : inst) (t : tf) : item := Item (tf_before t) i (tf_fate t) (tf_after t).

(** The end of the visit: the label is recorded. *)
Lemma label_unused_runs id s t :
  own t → unlabelled id t → (∀ d, s = SVal d → unused t d) →
  runs (setShadow id s)
    (λ _ t', t' = set_insts (<[id := s]> (tf_insts t)) t ∧ extends t t' ∧ own t' ∧
       ∀ id', id' ≠ id → unlabelled id' t → unlabelled id' t') t.
Proof.
  intros Ho Hu Hd. exists (), (set_insts (<[id := s]> (tf_insts t)) t). split.
  { unfold setShadow. rewrite bind_get, (bind_run _ _ t () t); [done|]. apply assert_run.
    by apply bool_decide_true. }
  split_and!; [done| |by apply own_inst_insert|].
  - split_and!; try done. by apply insert_subseteq.
  - intros id' Hne Hid. unfold unlabelled. cbn. by rewrite lookup_insert_ne by done.
Qed.
Lemma label_runs id s t t1 :
  own t → extends t t1 → tf_insts t1 = tf_insts t → tf_args t1 = tf_args t → PHIFixups t1 = PHIFixups t →
  entry_same t t1 → unlabelled id t →
  (∀ d, s = SVal d → tf_next t ≤ d < tf_next t1) →
  runs (setShadow id s)
    (λ _ t', t' = set_insts (<[id := s]> (tf_insts t)) t1 ∧ extends t t' ∧ own t' ∧
       ∀ id', id' ≠ id → unlabelled id' t → unlabelled id' t') t1.
Proof.
  intros Ho He Hi Ha Hp Hen Hu Hd. eapply runs_mono; [apply label_unused_runs|].
  - apply (own_same t); [done|done|done|apply He|done|done].
  - unfold unlabelled. by rewrite Hi.
  - intros d Hs. apply (fresh_unused t); [done|done|done|by apply Hd].
  - intros _ t' (-> & He' & Ho' & Hl). rewrite <-Hi. split_and!; [done|by etrans|done|].
    intros id' Hne Hid. apply Hl; [done|]. unfold unlabelled. by rewrite Hi.
Qed.
Lemma set_runs i s1 s2 t s t1 :
  combine_post i s1 s2 t s t1 → own t → clean t → unlabelled (i_id i) t →
  (let '(a, b, _, _) := union_of i in has t a s1 ∧ has_opt t b s2) →
  runs (setShadow (i_id i) s)
    (λ _ t', extends t t' ∧ own t' ∧ item_ok t' i (current i t') ∧
       ∀ id, id ≠ i_id i → unlabelled id t → unlabelled id t') t1.
Proof.
  intros Hc Ho (Hcb & Hca & Hcf) Hu Hhas. unfold combine_post in Hc.
  assert (tf_insts t1 = tf_insts t ∧ tf_args t1 = tf_args t ∧ PHIFixups t1 = PHIFixups t ∧ extends t t1 ∧
          entry_same t t1 ∧ ∀ d, s = SVal d → tf_next t ≤ d < tf_next t1) as (Hi & Ha & Hp1 & He1 & Hen & Hd).
  { destruct (union_of i) as [[[a b] op] size].
    destruct Hc as [(_ & _ & -> & ->)|[-> ->]]; split_and!; try done; [split_and!; (done || cbn; lia)|].
    intros d [= <-]. cbn. lia. }
  eapply runs_mono; [by apply (label_runs (i_id i) s t t1)|]. intros _ t2 (Ht2 & He & Ho2 & Hl).
  assert (tf_insts t2 = <[i_id i := s]> (tf_insts t)) as Hi2 by by rewrite Ht2.
  split_and!; [done|done| |done]. rewrite Ht2 at 2. split_and!; [done| | |].
  - destruct (union_of i) as [[[a b] op] size]. by destruct Hc as [(_ & _ & _ & ->)|[_ ->]].
  - destruct (union_of i) as [[[a b] op] size]. by destruct Hc as [(_ & _ & _ & ->)|[_ ->]].
  - destruct (union_of i) as [[[a b] op] size]. destruct Hhas as [Hha Hhb]. exists s1, s2.
    split_and!; [by eapply has_extends|by eapply has_opt_extends|].
    rewrite Hi2, lookup_insert_eq.
    destruct Hc as [(-> & -> & -> & ->)|[-> ->]]; [by left|right]. eexists. split; [done|].
    cbn. by rewrite Hcb.
Qed.

(** The labels of the operands are looked up, then combined. *)
Definition union_opcode (i : inst) : Z :=
  match i_kind i with
  | IBinary op a b => bin_op i op a b
  | ICast op _ | ICompare _ op _ _ _ => op
  | _ => 0
  end.
Definition looked_up (i : inst) (t : tf) (s : shadow) (t' : tf) : Prop :=
  ∃ s1 s2 t1, combine_post i s1 s2 t1 s t' ∧ extends t t1 ∧ own t1 ∧ same_code t t1 ∧
    (let '(a, b, _, _) := union_of i in has t1 a s1 ∧ has_opt t1 b s2) ∧
    ∀ id, (VInst id ∉ operands (i_kind i)) → unlabelled id t → unlabelled id t1.
Lemma look_up_two i a b o z t :
  straight i → own t → union_of i = (a, Some b, o, z) → operands (i_kind i) = [a; b] →
  runs (s1 ← getShadow F native a; s2 ← getShadow F native b;
        combineShadows s1 s2 (union_opcode i) i) (looked_up i t) t.
Proof.
  intros Hs Ho Hu Hops. apply runs_bind. eapply runs_mono; [by apply getShadow_runs|].
  intros s1 t1 (He1 & Ho1 & Hh1 & Hc1 & Hl1). apply runs_bind.
  eapply runs_mono; [by apply getShadow_runs|]. intros s2 t2 (He2 & Ho2 & Hh2 & Hc2 & Hl2).
  eapply runs_mono; [by apply combine_runs|]. intros s t3 Hp. exists s1, s2, t2. rewrite Hu.
  split_and!; [done|by etrans|done| |by eapply has_extends|done|].
  - destruct Hc1 as (? & ? & ?), Hc2 as (? & ? & ?). split_and!; congruence.
  - intros id Hid Hun. rewrite Hops in Hid. apply Hl2; [set_solver|]. apply Hl1; [set_solver|done].
Qed.
Lemma look_up_one i a o z t :
  straight i → own t → union_of i = (a, None, o, z) → operands (i_kind i) = [a] →
  runs (s1 ← getShadow F native a; combineShadows s1 ZeroShadow (union_opcode i) i) (looked_up i t) t.
Proof.
  intros Hs Ho Hu Hops. apply runs_bind. eapply runs_mono; [by apply getShadow_runs|].
  intros s1 t1 (He1 & Ho1 & Hh1 & Hc1 & Hl1). eapply runs_mono; [by apply combine_runs|].
  intros s t3 Hp. exists s1, ZeroShadow, t1. rewrite Hu. split_and!; [done..|].
  intros id Hid Hun. rewrite Hops in Hid. apply Hl1; [set_solver|done].
Qed.

(** What the visit establishes, for one and for several instructions. *)
Lemma looked_up_set i t s t' :
  looked_up i t s t' → clean t → (VInst (i_id i) ∉ operands (i_kind i)) → unlabelled (i_id i) t →
  runs (setShadow (i_id i) s)
    (λ _ t', extends t t' ∧ own t' ∧ item_ok t' i (current i t') ∧
       ∀ id, id ≠ i_id i → (VInst id ∉ operands (i_kind i)) → unlabelled id t → unlabelled id t') t'.
Proof.
  intros (s1 & s2 & t1 & Hp & He & Ho & (Hc1 & Hc2 & Hc3) & Hh & Hl) (H1 & H2 & H3) Hni Hu.
  eapply runs_mono; [eapply set_runs; [done|done|split_and!; congruence|by apply Hl|done]|].
  intros _ t2 (He2 & Ho2 & Hx & Hl2). split_and!; [by etrans|done|done|].
  intros id Hne Hid Hun. apply Hl2; [done|by apply Hl].
Qed.
Lemma visit_runs i t :
  straight i → own t → clean t → unlabelled (i_id i) t →
  runs (visit F native i)
    (λ _ t', extends t t' ∧ own t' ∧ item_ok t' i (current i t') ∧
       ∀ id, id ≠ i_id i → (VInst id ∉ operands (i_kind i)) → unlabelled id t → unlabelled id t') t.
Proof.
  intros Hs Ho Hc Hu. pose proof Hs as (Hn & Hni & _ & H). pose proof (straight_opcode i Hs) as Hop.
  unfold visit. destruct (i_kind i) as [op a b|op a|integer op pred a b|c|c cases|p idx|p|v p|v| |f fty args inv|inc| |c a b|d v l|d s l|os] eqn:Hk; try done.
  - destruct H as (w & Hty & _). unfold visitBinaryOperator. rewrite Hn, Hty. cbn [is_fp].
    apply runs_bind. eapply runs_mono.
    + pose proof (look_up_two i a b (bin_op i op a b) (int_width (i_ty i)) t Hs Ho) as Hl.
      unfold union_of, union_opcode in Hl. rewrite Hk in Hl. specialize (Hl eq_refl eq_refl).
      unfold combineBinaryOperatorShadows. rewrite Hty, opcode_u8 by done.
      unfold bin_op in Hl. rewrite Hty in Hl. exact Hl.
    + intros s t' Hl. rewrite <-Hk in *. by apply looked_up_set.
  - unfold visitCastInst. rewrite Hn. apply runs_bind. eapply runs_mono.
    + pose proof (look_up_one i a op (int_width (i_ty i)) t Hs Ho) as Hl.
      unfold union_of, union_opcode in Hl. rewrite Hk in Hl. specialize (Hl eq_refl eq_refl).
      unfold combineCastInstShadows. rewrite opcode_u8 by done. exact Hl.
    + intros s t' Hl. rewrite <-Hk in *. by apply looked_up_set.
  - destruct H as (-> & -> & _). unfold visitCmpInst. rewrite Hn. cbn [negb]. rewrite andb_false_r.
    apply runs_bind. eapply runs_mono.
    + pose proof (look_up_two i a b (cmp_op pred) (int_width (type_of a)) t Hs Ho) as Hl.
      unfold union_of, union_opcode in Hl. rewrite Hk in Hl. specialize (Hl eq_refl eq_refl).
      unfold combineCmpInstShadows. rewrite opcode_u8 by done. exact Hl.
    + intros s t' Hl. rewrite <-Hk in *. by apply looked_up_set.
Qed.

(** Conditional branches are traced. *)
Definition trace_code (s : shadow) (c : val) : list emit :=
  if decide (s = ZeroShadow) then [] else [ETraceCond s c].
Lemma condition_runs c t :
  own t →
  runs (visitCondition F native c)
    (λ _ t', extends t t' ∧ own t' ∧
       (∃ s, has t' c s ∧ tf_before t' = tf_before t ++ trace_code s c) ∧
       tf_after t' = tf_after t ∧ tf_fate t' = tf_fate t ∧
       (∀ id, c ≠ VInst id → unlabelled id t → unlabelled id t') ∧
       ∀ d, unused t d → unused t' d) t.
Proof.
  intros Ho. unfold visitCondition. apply runs_bind.
  assert (runs (getShadow F native c) (λ _ t', ∀ d, unused t d → unused t' d) t) as Hun.
  { destruct (getShadow_runs c t Ho) as (s & t1 & Hr & _). exists s, t1. split; [done|]. intros d Hd.
    destruct (getShadow_unused c t d Hd) as (s' & t2 & Hr' & H). rewrite Hr in Hr'. by injection Hr' as <- <-. }
  eapply runs_mono; [apply runs_and; [by apply getShadow_runs|exact Hun]|].
  intros s t1 [(He & Ho1 & Hh & (Hc1 & Hc2 & Hc3) & Hl) Hu]. unfold trace_code.
  destruct (decide (s = ZeroShadow)) as [->|Hne].
  - apply runs_ret. split_and!; [done|done| |done|done|done|done]. exists ZeroShadow. split; [done|].
    by rewrite decide_True, app_nil_r by done.
  - apply runs_modify. split_and!; [done|by apply (own_same t1)| |done|done|done|done]. exists s. split; [done|].
    rewrite decide_False by done. cbn. by rewrite Hc1.
Qed.
Definition branch (i : inst) : Prop :=
  i_nosanitize i = false ∧
  match i_kind i with IBranch (Some c) => operand_ok 1 c | IBranch None => True | _ => False end.
Definition branch_ok (t : tf) (i : inst) (x : item) : Prop :=
  it_inst x = i ∧ it_fate x = Kept ∧ it_after x = [] ∧
  match i_kind i with
  | IBranch (Some c) =>
      ∃ s, has t c s ∧ it_before x = trace_code s c
  | _ => it_before x = []
  end.
(** The values looked up by the visit. *)
Definition looked (i : inst) : list val :=
  match i_kind i with IPhi _ => [] | k => operands k end.
Definition visit_post (i : inst) (t : tf) (t' : tf) : Prop :=
  extends t t' ∧ own t' ∧
  ∀ id, id ≠ i_id i → (VInst id ∉ looked i) → unlabelled id t → unlabelled id t'.
Lemma branch_runs i t :
  branch i → own t → clean t →
  runs (visit F native i) (λ _ t', visit_post i t t' ∧ branch_ok t' i (current i t')) t.
Proof.
  intros [Hn H] Ho Hc. unfold visit, visitBranchInst, visit_post, branch_ok, looked. pose proof Hc as (H1 & H2 & H3).
  destruct (i_kind i) as [| | |[c|]| | | | | | | | | | | | |] eqn:Hk; try done; rewrite Hn.
  - eapply runs_mono; [by apply condition_runs|]. intros _ t' (He & Ho' & (s & Hh & Hb) & Ha & Hf & Hl & _).
    split_and!; [done|done|intros id _ Hid; apply Hl; cbn [operands option_list] in Hid; set_solver|done|cbn; congruence|cbn; congruence|].
    exists s. split; [done|]. cbn. by rewrite Hb, H1.
  - apply runs_ret. by split_and!.
Qed.

(** Switches: a comparison with each case is traced. *)
Definition case_trace (s : shadow) (c : val) (k : Z) : emit :=
  let size := type_size_in_bits (type_of c) in
  ETraceCmp s ZeroShadow (u32 size) icmp_eq (c, [CvZExtOrTrunc 64]) (VConst size k, [CvZExtOrTrunc 64]).
Definition switch (i : inst) : Prop :=
  i_nosanitize i = false ∧ match i_kind i with ISwitch c _ => ∃ w, operand_ok w c | _ => False end.
Definition switch_ok (t : tf) (i : inst) (x : item) : Prop :=
  it_inst x = i ∧ it_fate x = Kept ∧ it_after x = [] ∧
  match i_kind i with
  | ISwitch c cases => ∃ s, has t c s ∧
      it_before x = if decide (s = ZeroShadow) then [] else case_trace s c <$> cases
  | _ => False
  end.
Lemma switch_ok_extends t t' i x : extends t t' → switch_ok t i x → switch_ok t' i x.
Proof.
  intros He (H1 & H2 & H3 & H). split_and!; [done..|]. destruct (i_kind i); try done.
  destruct H as (s & Hs & Hx). exists s. split; [by eapply has_extends|done].
Qed.
Lemma emits_run {A} (f : A → emit) l t :
  for_each l (λ k, emit_before (f k)) t =
    Ret () (set_code (tf_entry t) (tf_before t ++ (f <$> l)) (tf_after t) (tf_fate t) t).
Proof.
  revert t. induction l as [|k l IH]; intros t; cbn [for_each]; [|erewrite bind_run by reflexivity; rewrite IH].
  - rewrite app_nil_r. by destruct t.
  - unfold set_code. cbn. by rewrite <-app_assoc.
Qed.
Lemma switch_runs i t :
  switch i → own t → clean t →
  runs (visit F native i) (λ _ t', visit_post i t t' ∧ switch_ok t' i (current i t')) t.
Proof.
  intros [Hn H] Ho (Hb & Ha & Hf). unfold visit, visitSwitchInst, visit_post, switch_ok, looked.
  destruct (i_kind i) as [| | | |c cases| | | | | | | | | | | |] eqn:Hk; try done. rewrite Hn.
  apply runs_bind. eapply runs_mono; [by apply getShadow_runs|].
  intros s t1 (He & Ho1 & Hh & (Hc1 & Hc2 & Hc3) & Hl). destruct (decide (s = ZeroShadow)) as [->|Hne].
  - apply runs_ret. split_and!; [done|done|intros id _ Hid; apply Hl; cbn [Ir.operands] in Hid; set_solver|done|cbn; congruence|cbn; congruence|].
    exists ZeroShadow. split; [done|]. rewrite decide_True by done. cbn. congruence.
  - eexists _, _. split; [apply (emits_run (case_trace s c))|].
    split_and!; [done|by apply (own_same t1)|intros id _ Hid; apply Hl; cbn [Ir.operands] in Hid; set_solver|done|cbn; congruence|cbn; congruence|].
    exists s. split; [done|]. rewrite decide_False by done. cbn. by rewrite Hc1, Hb.
Qed.

(** Returns, where the label of the result goes through thread-local memory. *)
Definition ret (i : inst) : Prop :=
  match i_kind i with
  | IReturn (Some v) => ABI = IA_TLS ∧ ∀ w, type_of v = TInt w → operand_ok w v
  | IReturn None => True
  | _ => False
  end.
Definition ret_ok (t : tf) (i : inst) (x : item) : Prop :=
  it_inst x = i ∧ it_fate x = Kept ∧ it_after x = [] ∧
  match i_kind i with
  | IReturn (Some v) => if native then it_before x = [] else ∃ s, has t v s ∧ it_before x = [ERetStore s]
  | _ => it_before x = []
  end.
Lemma ret_ok_extends t t' i x : extends t t' → ret_ok t i x → ret_ok t' i x.
Proof.
  intros He (H1 & H2 & H3 & H). split_and!; [done..|].
  destruct (i_kind i) as [| | | | | | | |[v|]| | | | | | | |]; try done. destruct native; [done|].
  destruct H as (s & Hs & Hx). exists s. split; [by eapply has_extends|done].
Qed.
Lemma ret_runs i t :
  ret i → own t → clean t →
  runs (visit F native i) (λ _ t', visit_post i t t' ∧ ret_ok t' i (current i t')) t.
Proof.
  unfold ret. intros H Ho (Hb & Ha & Hf). unfold visit, visitReturnInst, visit_post, ret_ok, looked.
  destruct (i_kind i) as [| | | | | | | |[v|]| | | | | | | |] eqn:Hk; try done; [|apply runs_ret; by split_and!].
  destruct native eqn:Hnat; [apply runs_ret; by split_and!|]. rewrite <-Hnat.
  apply runs_bind. eapply runs_mono; [by apply getShadow_runs|].
  intros s t1 (He & Ho1 & Hh & (Hc1 & Hc2 & Hc3) & Hl). rewrite (proj1 H). apply runs_modify.
  split_and!; [done|by apply (own_same t1)|intros id _ Hid; apply Hl; cbn [Ir.operands option_list] in Hid; set_solver|done|cbn; congruence|cbn; congruence|].
  exists s. split; [done|]. cbn. by rewrite Hc1, Hb.
Qed.

(** ** Loads and stores

    Of whole bytes, up to eight, through a pointer that is not a stack variable
    with a slot of its own. *)
Definition constant_objects (p : val) : bool := forallb constant_object (GetUnderlyingObjects p).
Definition access (i : inst) : Prop :=
  i_nosanitize i = false ∧ (VInst (i_id i) ∉ operands (i_kind i)) ∧
  match i_kind i with
  | ILoad p => type_of (VInst (i_id i)) = i_ty i ∧ ∃ n, i_ty i = TInt (8 * n) ∧ 1 ≤ n ≤ 8
  | IStore v p => ∃ n, operand_ok (8 * n) v ∧ 1 ≤ n ≤ 8
  | _ => False
  end.
Definition access_ok (t : tf) (i : inst) (x : item) : Prop :=
  it_inst x = i ∧ it_fate x = Kept ∧ it_after x = [] ∧
  match i_kind i with
  | ILoad p =>
      constant_objects p = true ∧ tf_insts t !! i_id i = Some ZeroShadow ∧ it_before x = [] ∨
      ∃ d, tf_insts t !! i_id i = Some (SVal d) ∧
        it_before x = [EShadowAddr p; EUnionLoad d p (type_store_size (i_ty i))]
  | IStore v p =>
      let n := type_store_size (type_of v) in
      ∃ s, has t v s ∧
        it_before x = [EShadowAddr p; if decide (s = ZeroShadow) then EZeroStore p n else EUnionStore s p n]
  | _ => False
  end.
Lemma access_ok_extends t t' i x : extends t t' → access_ok t i x → access_ok t' i x.
Proof.
  intros He (H1 & H2 & H3 & H). pose proof He as (_ & Hi & _). split_and!; [done..|].
  destruct (i_kind i); try done.
  - destruct H as [(Hc & Hz & Hx)|(d & Hd & Hx)]; [left; split_and!; try done|right; exists d; split; [|done]];
      by eapply lookup_weaken.
  - destruct H as (s & Hs & Hx). exists s. split; [by eapply has_extends|done].
Qed.
Lemma store_size n : 1 ≤ n → type_store_size (TInt (8 * n)) = n.
Proof. intros Hn. rewrite dl_store_int by lia. symmetry. apply (Z.div_unique _ 8 _ 7); lia. Qed.

(** The slots the visit of a load or store would use instead. *)
Definition pointer_of (i : inst) : option val :=
  match i_kind i with ILoad p | IStore _ p => Some p | _ => None end.
Definition no_slot (t : tf) (i : inst) : Prop :=
  (i_id i ∉ StoreInsts t) ∧
  match pointer_of i with Some (VInst id) => AllocaShadowMap t !! id = None | _ => True end.
Lemma no_slot_extends t t' i : extends t t' → no_slot t i → no_slot t' i.
Proof. intros (_ & _ & _ & _ & Hs & Ha & _). unfold no_slot. by rewrite Hs, Ha. Qed.
Lemma slot_runs t i p : no_slot t i → pointer_of i = Some p → alloca_slot p t = Ret None t.
Proof.
  intros [_ H] Hp. rewrite Hp in H. unfold alloca_slot. rewrite bind_get. destruct p; try done.
  cbn. by rewrite H.
Qed.

Lemma load_runs i p t :
  access i → i_kind i = ILoad p → own t → clean t → unlabelled (i_id i) t → no_slot t i →
  runs (visit F native i) (λ _ t', visit_post i t t' ∧ access_ok t' i (current i t')) t.
Proof.
  intros (Hn & _ & H) Hk Ho (Hb & Ha & Hf) Hu Hs. rewrite Hk in H. destruct H as (_ & n & Hty & Hr).
  unfold visit, visitLoadInst, access_ok. rewrite Hk, Hn. cbv zeta.
  assert (type_store_size (i_ty i) = n) as -> by (rewrite Hty; apply store_size; lia).
  rewrite (proj2 (Z.eqb_neq n 0)) by lia. unfold loadShadow.
  assert (runs (alloca_slot p) (λ sl t', sl = None ∧ t' = t) t) as Hsl.
  { exists None, t. split; [|done]. apply (slot_runs _ i); [done|]. unfold pointer_of. by rewrite Hk. }
  apply runs_bind, runs_bind. eapply runs_mono; [exact Hsl|]. intros sl t' [-> ->].
  fold (constant_objects p). destruct (constant_objects p) eqn:Hc.
  - apply runs_ret. rewrite decide_True by done. apply runs_bind, runs_ret.
    eapply runs_mono; [by apply (label_runs (i_id i) ZeroShadow t t)|].
    intros _ t' (-> & He & Ho' & Hl). split; [split_and!; [done|done|]; intros id Hne _; by apply Hl|].
    split_and!; [done|done|done|]. left. split_and!; [done|by cbn; rewrite lookup_insert_eq|done].
  - apply runs_bind, runs_modify. rewrite (proj2 (Z.eqb_neq n 0)) by lia.
    apply runs_bind, runs_bind, runs_get, runs_bind, runs_modify, runs_ret, runs_bind, runs_modify, runs_ret.
    rewrite decide_False by done. apply runs_bind, runs_modify.
    eapply runs_mono; [apply (label_runs (i_id i) _ t); [done| |done|done|done|done|done|]|].
    + split_and!; try done. cbn. lia.
    + intros d [= <-]. cbn. lia.
    + intros _ t' (-> & He & Ho' & Hl). split; [split_and!; [done|done|]; intros id Hne _; by apply Hl|].
      split_and!; [done|done|done|]. right. exists (tf_next t). cbn. rewrite lookup_insert_eq.
      by rewrite Hb.
Qed.
Lemma store_runs i v p t :
  access i → i_kind i = IStore v p → own t → clean t → no_slot t i →
  runs (visit F native i) (λ _ t', visit_post i t t' ∧ access_ok t' i (current i t')) t.
Proof.
  intros (Hn & _ & H) Hk Ho (Hb & Ha & Hf) Hs. rewrite Hk in H. destruct H as (n & [Hty _] & Hr).
  unfold visit, visitStoreInst, access_ok, visit_post, looked. rewrite Hk, Hn. cbv zeta.
  assert (type_store_size (type_of v) = n) as -> by (rewrite Hty; apply store_size; lia).
  apply runs_bind, runs_get. rewrite decide_False by apply Hs. rewrite (proj2 (Z.eqb_neq n 0)) by lia.
  apply runs_bind. eapply runs_mono; [by apply getShadow_runs|].
  intros s t1 (He1 & Ho1 & Hh1 & (Hc1 & Hc2 & Hc3) & Hl1). unfold storeShadow. apply runs_bind.
  exists None, t1. split.
  { apply (slot_runs _ i); [by eapply no_slot_extends|]. unfold pointer_of. by rewrite Hk. }
  apply runs_bind, runs_modify.
  set (e := if decide (s = ZeroShadow) then EZeroStore p n else EUnionStore s p n).
  apply (runs_mono _ (λ _ t', t' = set_code (tf_entry t1) (tf_before t1 ++ [EShadowAddr p; e]) (tf_after t1) (tf_fate t1) t1)).
  { unfold e. destruct (decide (s = ZeroShadow)); apply runs_modify; cbn; by rewrite <-app_assoc. }
  intros _ t' ->. split_and!; [done|apply (own_same t1); (done || cbn; lia)|intros id _ Hid; apply Hl1; cbn [Ir.operands] in Hid; set_solver|done| | |].
  - cbn. congruence.
  - cbn. congruence.
  - exists s. split; [done|]. cbn. by rewrite Hc1, Hb.
Qed.
Lemma access_runs i t :
  access i → own t → clean t → unlabelled (i_id i) t → no_slot t i →
  runs (visit F native i) (λ _ t', visit_post i t t' ∧ access_ok t' i (current i t')) t.
Proof.
  intros Hi. pose proof Hi as (_ & _ & H). destruct (i_kind i) eqn:Hk; try done; intros.
  - by apply (load_runs i ptr).
  - by apply (store_runs i v ptr).
Qed.

(** ** Selects, whose two values are different *)
Definition select (i : inst) : Prop :=
  (VInst (i_id i) ∉ operands (i_kind i)) ∧ type_of (VInst (i_id i)) = i_ty i ∧
  match i_kind i with
  | ISelect c a b =>
      operand_ok 1 c ∧ a ≠ b ∧ ∃ w, i_ty i = TInt w ∧ 1 ≤ w ≤ 64 ∧ operand_ok w a ∧ operand_ok w b
  | _ => False
  end.
Definition select_ok (t : tf) (i : inst) (x : item) : Prop :=
  it_inst x = i ∧ it_fate x = Kept ∧ it_after x = [] ∧
  match i_kind i with
  | ISelect c a b =>
      ∃ sa sb sc, has t a sa ∧ has t b sb ∧ has t c sc ∧
        (sa = sb ∧ (∀ d, sa ≠ SVal d) ∧ tf_insts t !! i_id i = Some sa ∧ it_before x = trace_code sc c ∨
         ∃ d, tf_insts t !! i_id i = Some (SVal d) ∧ it_before x = ESelect d c sa sb :: trace_code sc c)
  | _ => False
  end.
Lemma select_ok_extends t t' i x : extends t t' → select_ok t i x → select_ok t' i x.
Proof.
  intros He (H1 & H2 & H3 & H). pose proof He as (_ & Hi & _). split_and!; [done..|].
  destruct (i_kind i); try done. destruct H as (sa & sb & sc & Ha & Hb & Hc & H).
  exists sa, sb, sc. split_and!; [by eapply has_extends..|].
  destruct H as [(? & ? & Hl & ?)|(d & Hl & ?)]; [left; split_and!; try done|right; exists d; split; [|done]];
    by eapply lookup_weaken.
Qed.
Lemma own_has t a b d : own t → has t a (SVal d) → has t b (SVal d) → a = b.
Proof.
  intros Ho. destruct a as [n|id| |], b as [n'|id'| |]; simpl; try done.
  - intros [Ha|[_ ?]]; [|done]. intros [Hb|[_ ?]]; [|done]. f_equal. by eapply own_args.
  - intros [Ha|[_ ?]] Hb; [|done]. by destruct (own_sep _ Ho _ _ _ Hb Ha).
  - intros Ha [Hb|[_ ?]]; [|done]. by destruct (own_sep _ Ho _ _ _ Ha Hb).
  - intros Ha Hb. f_equal. by eapply own_inst.
Qed.
Lemma select_runs i t :
  select i → own t → clean t → unlabelled (i_id i) t →
  runs (visit F native i) (λ _ t', visit_post i t t' ∧ select_ok t' i (current i t')) t.
Proof.
  intros (Hni & _ & H) Ho (Hb & Ha & Hf) Hu. unfold visit, visit_post, select_ok, looked.
  destruct (i_kind i) as [| | | | | | | | | | | | |c a b| | |] eqn:Hk; try done. cbn [operands] in *.
  destruct H as ((Htc & _) & Hne & _). unfold visitSelectInst.
  apply runs_bind. eapply runs_mono; [by apply getShadow_runs|].
  intros sa t1 (He1 & Ho1 & Hh1 & (Hb1 & Ha1 & Hf1) & Hl1).
  apply runs_bind. eapply runs_mono; [by apply getShadow_runs|].
  intros sb t2 (He2 & Ho2 & Hh2 & (Hb2 & Ha2 & Hf2) & Hl2). rewrite Htc. cbn [is_vec]. apply runs_bind.
  apply (runs_mono _ (λ s t3, own t3 ∧ extends t2 t3 ∧ tf_after t3 = [] ∧ tf_fate t3 = Kept ∧
    (∀ id, unlabelled id t2 → unlabelled id t3) ∧ (∀ d, s = SVal d → unused t3 d) ∧
    (sa = sb ∧ (∀ d, sa ≠ SVal d) ∧ s = sa ∧ tf_before t3 = [] ∨
     ∃ d, s = SVal d ∧ tf_before t3 = [ESelect d c sa sb]))).
  { destruct (decide (sa = sb)) as [<-|Hs].
    - assert (∀ d, sa ≠ SVal d) as Hsv.
      { intros d ->. apply Hne. apply (own_has t2 a b d); [done| |done]. by eapply has_extends. }
      apply runs_ret. split_and!; [done|done|congruence|congruence|done|by intros d ->; destruct (Hsv d)|].
      left. split_and!; [done|done|done|congruence].
    - apply runs_bind. unfold fresh. apply runs_bind, runs_get, runs_bind, runs_modify, runs_ret, runs_bind, runs_modify, runs_ret.
      split_and!; [apply (own_same t2); (done || cbn; lia)|split_and!; (done || cbn; lia)|cbn; congruence|cbn; congruence|done| |].
      + intros d [= <-]. apply (fresh_unused t2); (done || cbn; lia).
      + right. eexists. split; [done|]. cbn. by rewrite Hb2, Hb1, Hb. }
  intros s t3 (Ho3 & He3 & Ha3 & Hf3 & Hl3 & Hu3 & Hs). apply runs_bind.
  eapply runs_mono; [by apply condition_runs|].
  intros _ t4 (He4 & Ho4 & (sc & Hh4 & Hb4) & Ha4 & Hf4 & Hl4 & Hu4).
  assert (∀ id, (VInst id ∉ [c; a; b]) → unlabelled id t → unlabelled id t4) as Hlab.
  { intros id Hid Hx. apply Hl4; [set_solver|]. apply Hl3. apply Hl2; [set_solver|]. apply Hl1; [set_solver|done]. }
  eapply runs_mono; [apply label_unused_runs; [done|by apply Hlab|by intros d ->; apply Hu4, Hu3]|].
  intros _ t5 (-> & He5 & Ho5 & Hl5).
  assert (extends t t4) as He by (do 3 (etrans; [done|]); done).
  split_and!; [by etrans|done|intros id Hid Hop Hx; apply Hl5; [done|by apply Hlab]|done|cbn; congruence|cbn; congruence|].
  assert (extends t2 t4) as He24 by (etrans; done).
  exists sa, sb, sc. split_and!.
  - eapply has_extends; [exact He5|]. eapply has_extends; [exact He24|]. by eapply has_extends.
  - eapply has_extends; [exact He5|]. by eapply has_extends.
  - by eapply has_extends.
  - cbn. rewrite lookup_insert_eq, Hb4.
    destruct Hs as [(-> & Hsv & -> & ->)|(d & -> & ->)]; [by left|right]. by exists d.
Qed.

(** ** Address computations: array indices may be traced *)
Definition gep (i : inst) : Prop :=
  (∀ w, type_of (VInst (i_id i)) ≠ TInt w) ∧
  match i_kind i with IGep p idx => Forall (λ v, ∃ w, operand_ok w v) idx | _ => False end.
Definition index_trace (t : tf) (idx : list val) (e : emit) : Prop :=
  ∃ s v, e = ETraceGep s (v, [CvZExtOrTrunc 64]) ∧ v ∈ idx ∧ has t v s.
Definition gep_ok (t : tf) (i : inst) (x : item) : Prop :=
  it_inst x = i ∧ it_fate x = Kept ∧ it_after x = [] ∧
  match i_kind i with IGep p idx => Forall (index_trace t idx) (it_before x) | _ => False end.
Lemma index_trace_mono t t' idx idx' e :
  extends t t' → idx ⊆ idx' → index_trace t idx e → index_trace t' idx' e.
Proof. intros He Hi (s & v & -> & Hv & Hs). exists s, v. split_and!; [done|by apply Hi|by eapply has_extends]. Qed.
Lemma gep_ok_extends t t' i x : extends t t' → gep_ok t i x → gep_ok t' i x.
Proof.
  intros He (H1 & H2 & H3 & H). split_and!; [done..|]. destruct (i_kind i); try done.
  eapply Forall_impl; [done|]. intros e. by apply index_trace_mono.
Qed.
Definition gep_post (idx : list val) (t t' : tf) : Prop :=
  extends t t' ∧ own t' ∧
  (∃ es, tf_before t' = tf_before t ++ es ∧ Forall (index_trace t' idx) es) ∧
  tf_after t' = tf_after t ∧ tf_fate t' = tf_fate t ∧
  ∀ id, (VInst id ∉ idx) → unlabelled id t → unlabelled id t'.
Lemma gep_post_nil idx t : own t → gep_post idx t t.
Proof. intros Ho. split_and!; try done. exists []. by rewrite app_nil_r. Qed.
Lemma gep_post_trans v idx t t1 t2 : gep_post [v] t t1 → gep_post idx t1 t2 → gep_post (v :: idx) t t2.
Proof.
  intros (He1 & Ho1 & (e1 & Hb1 & Hx1) & Ha1 & Hf1 & Hl1) (He2 & Ho2 & (e2 & Hb2 & Hx2) & Ha2 & Hf2 & Hl2).
  split_and!; [by etrans|done| |congruence|congruence|].
  - exists (e1 ++ e2). split; [by rewrite Hb2, Hb1, app_assoc|]. apply Forall_app. split.
    + eapply Forall_impl; [done|]. intros e. apply index_trace_mono; [done|set_solver].
    + eapply Forall_impl; [done|]. intros e. apply index_trace_mono; [done|set_solver].
  - intros id Hid Hx. apply Hl2; [set_solver|]. apply Hl1; [set_solver|done].
Qed.
Lemma gep_indices_runs idx et t :
  own t → runs (gep_indices F native et idx) (λ _ t', gep_post idx t t') t.
Proof.
  revert et t. induction idx as [|v idx IH]; intros et t Ho; cbn [gep_indices].
  { apply runs_ret. by apply gep_post_nil. }
  assert (∀ et', runs (gep_indices F native et' idx) (λ _ t', gep_post (v :: idx) t t') t) as Hskip.
  { intros et'. eapply runs_mono; [by apply IH|]. intros [] t'. apply gep_post_trans. by apply gep_post_nil. }
  destruct (negb (is_composite et)).
  { destruct et; try apply Hskip; apply runs_ret; by apply gep_post_nil. }
  destruct (is_constant v); [apply Hskip|]. destruct (negb (is_array et)); [apply Hskip|].
  apply runs_bind. eapply runs_mono; [by apply getShadow_runs|].
  intros s t1 (He & Ho1 & Hh & (Hc1 & Hc2 & Hc3) & Hl). apply runs_bind.
  apply (runs_mono _ (λ _ t2, gep_post [v] t t2)).
  - destruct (decide (s = ZeroShadow)) as [->|Hne].
    + apply runs_ret. split_and!; [done|done| |done|done|intros id Hid; apply Hl; set_solver].
      exists []. by rewrite app_nil_r.
    + apply runs_modify. split_and!; [done|by apply (own_same t1)| |done|done|intros id Hid; apply Hl; set_solver].
      exists [ETraceGep s (v, [CvZExtOrTrunc 64])]. split; [cbn; by rewrite Hc1|].
      constructor; [|done]. exists s, v. split_and!; [done|set_solver|done].
  - intros _ t2 Hp. eapply runs_mono; [apply IH, Hp|]. intros [] t3. by apply gep_post_trans.
Qed.
Lemma gep_runs i t :
  gep i → own t → clean t →
  runs (visit F native i) (λ _ t', visit_post i t t' ∧ gep_ok t' i (current i t')) t.
Proof.
  intros [_ H] Ho (Hb & Ha & Hf). destruct (i_kind i) as [| | | | |p idx| | | | | | | | | | |] eqn:Hk; try done.
  apply (runs_mono _ (λ _ t', gep_post idx t t')).
  - unfold visit, visitGetElementPtrInst. rewrite Hk.
    destruct (negb ClTraceGEPOffset); [apply runs_ret; by apply gep_post_nil|].
    destruct (i_nosanitize i); [apply runs_ret; by apply gep_post_nil|]. by apply gep_indices_runs.
  - intros _ t' (He & Ho' & (es & Hb' & Hx) & Ha' & Hf' & Hl). unfold visit_post, gep_ok, looked. rewrite Hk.
    cbn [operands]. split_and!; [done|done|intros id _ Hid; apply Hl; set_solver|done|cbn; congruence|cbn; congruence|].
    cbn. by rewrite Hb', Hb.
Qed.

(** ** Memory set and moved *)
Definition bulk (i : inst) : Prop :=
  match i_kind i with
  | IMemSet _ v _ => operand_ok 8 v
  | IMemTransfer _ _ _ => True
  | _ => False
  end.
Definition bulk_ok (t : tf) (i : inst) (x : item) : Prop :=
  it_inst x = i ∧ it_fate x = Kept ∧ it_after x = [] ∧
  match i_kind i with
  | IMemSet d v l => ∃ s, has t v s ∧ it_before x = [ESetLabel s d l]
  | IMemTransfer d a l => it_before x = [EShadowAddr d; EShadowAddr a; EMemTransfer d a l]
  | _ => False
  end.
Lemma bulk_ok_extends t t' i x : extends t t' → bulk_ok t i x → bulk_ok t' i x.
Proof.
  intros He (H1 & H2 & H3 & H). split_and!; [done..|]. destruct (i_kind i); try done.
  destruct H as (s & Hs & Hx). exists s. split; [by eapply has_extends|done].
Qed.
Lemma bulk_runs i t :
  bulk i → own t → clean t →
  runs (visit F native i) (λ _ t', visit_post i t t' ∧ bulk_ok t' i (current i t')) t.
Proof.
  unfold bulk. intros H Ho (Hb & Ha & Hf). unfold visit, visitMemSetInst, visitMemTransferInst, visit_post, bulk_ok, looked.
  destruct (i_kind i) as [| | | | | | | | | | | | | |d v l|d a l|] eqn:Hk; try done.
  - apply runs_bind. eapply runs_mono; [by apply getShadow_runs|].
    intros s t1 (He & Ho1 & Hh & (Hc1 & Hc2 & Hc3) & Hl). apply runs_modify.
    split_and!; [done|by apply (own_same t1)|intros id _ Hid; apply Hl; cbn [Ir.operands] in Hid; set_solver|done|cbn; congruence|cbn; congruence|].
    exists s. split; [done|]. cbn. by rewrite Hc1, Hb.
  - apply runs_bind, runs_modify, runs_bind, runs_modify, runs_modify.
    split_and!; [done|by apply (own_same t)|done|done|done|done|]. cbn. by rewrite Hb.
Qed.

(** ** Labels of several values *)
Definition not_operand (id : Z) (l : list val) : Prop := VInst id ∉ l.
Definition looks (l : list val) (t t' : tf) : Prop :=
  extends t t' ∧ own t' ∧ ∀ id, not_operand id l → unlabelled id t → unlabelled id t'.
Lemma looks_nil t : own t → looks [] t t.
Proof. by intros Ho. Qed.
Lemma looks_cons a l t t1 t2 : looks [a] t t1 → looks l t1 t2 → looks (a :: l) t t2.
Proof.
  intros (He & Ho & Hl) (He2 & Ho2 & Hl2). split_and!; [by etrans|done|].
  intros id Hid Hu. unfold not_operand in *. apply Hl2; [set_solver|]. apply Hl; [set_solver|done].
Qed.
Lemma looks_weaken l l' t t' : l ⊆ l' → looks l t t' → looks l' t t'.
Proof.
  intros Hs (He & Ho & Hl). split_and!; [done|done|]. intros id Hid. apply Hl. unfold not_operand in *. set_solver.
Qed.
(** States with the same labels and registers. *)
Definition same_labels (t t' : tf) : Prop :=
  tf_args t' = tf_args t ∧ tf_insts t' = tf_insts t ∧ tf_next t ≤ tf_next t' ∧
  SkipInsts t' = SkipInsts t ∧ StoreInsts t' = StoreInsts t ∧ AllocaShadowMap t' = AllocaShadowMap t ∧
  PHIFixups t' = PHIFixups t ∧ entry_same t t'.
Lemma same_labels_looks l t t' : own t → same_labels t t' → looks l t t'.
Proof.
  intros Ho (H1 & H2 & H3 & H4 & H5 & H6 & H7 & H8).
  split_and!; [split_and!; rewrite ?H1, ?H2, ?H7; try done; by intros d Hd; left; rewrite <-H4|by apply (own_same t)|].
  intros id _. unfold unlabelled. by rewrite H2.
Qed.
Lemma looks_trans l t t1 t2 : looks l t t1 → looks l t1 t2 → looks l t t2.
Proof.
  intros (He & Ho & Hl) (He2 & Ho2 & Hl2). split_and!; [by etrans|done|]. intros id Hid Hu. eauto.
Qed.

Lemma shadows_of_runs l t :
  own t →
  runs (shadows_of F native l)
    (λ ss t', looks l t t' ∧ same_code t t' ∧ Forall2 (has t') l ss) t.
Proof.
  revert t. induction l as [|a l IH]; intros t Ho; cbn [shadows_of].
  { apply runs_ret. split_and!; [by apply looks_nil|done|constructor]. }
  apply runs_bind. eapply runs_mono; [by apply getShadow_runs|].
  intros s t1 (He & Ho1 & Hh & (Hc1 & Hc2 & Hc3) & Hl). apply runs_bind.
  eapply runs_mono; [by apply IH|]. intros ss t2 (Hk & (Hd1 & Hd2 & Hd3) & Hss). apply runs_ret.
  split_and!; [|split_and!; congruence|].
  - eapply looks_cons; [|exact Hk]. split_and!; [done|done|]. intros id Hid. apply Hl. unfold not_operand in Hid. set_solver.
  - constructor; [eapply has_extends; [apply Hk|done]|done].
Qed.

(** ** Calls

    Of instrumented functions, with labels in thread-local memory. *)
Definition arg_stores (k : Z) (ss : list shadow) : list emit :=
  imap (λ j s, EArgStore (k + Z.of_nat j) s) ss.
Lemma arg_stores_cons k s ss : arg_stores k (s :: ss) = EArgStore k s :: arg_stores (k + 1) ss.
Proof. unfold arg_stores. cbn [imap]. rewrite Z.add_0_r. f_equal. apply imap_ext. intros j x _. cbn. f_equal. lia. Qed.
Definition call_args (fty : ty) (args : list val) : list val := take (length (fun_params fty)) args.
Definition call (i : inst) : Prop :=
  type_of (VInst (i_id i)) = i_ty i ∧
  match i_kind i with
  | ICall (CalleeFun f) fty args false =>
      ABI = IA_TLS ∧ f ≠ "__dfsan_vararg_wrapper"%string ∧ UnwrappedFnMap (CalleeFun f) = None ∧
      (VInst (i_id i) ∉ args) ∧ Forall (λ v, ∀ w, type_of v = TInt w → operand_ok w v) (call_args fty args)
  | _ => False
  end.
Definition call_ok (t : tf) (i : inst) (x : item) : Prop :=
  it_inst x = i ∧ it_fate x = Kept ∧
  match i_kind i with
  | ICall _ fty args _ =>
      (if is_void (i_ty i) then it_after x = []
       else ∃ d, tf_insts t !! i_id i = Some (SVal d) ∧ it_after x = [ERetLoad d]) ∧
      ∃ ss, Forall2 (has t) (call_args fty args) ss ∧ it_before x = arg_stores 0 ss
  | _ => False
  end.
Lemma call_ok_extends t t' i x : extends t t' → call_ok t i x → call_ok t' i x.
Proof.
  intros He (H1 & H2 & H). split_and!; [done..|]. destruct (i_kind i); try done. destruct H as [Ha (ss & Hss & Hx)].
  split.
  - destruct (is_void (i_ty i)); [done|]. destruct Ha as (d & Hd & Ha). exists d. split; [|done].
    destruct He as (_ & Hi & _). by eapply lookup_weaken.
  - exists ss. split; [|done]. eapply Forall2_impl; [done|]. intros v s. by apply has_extends.
Qed.
Lemma store_args_runs k args t :
  own t →
  runs (store_args F native k args)
    (λ _ t', looks args t t' ∧ tf_after t' = tf_after t ∧ tf_fate t' = tf_fate t ∧
       ∃ ss, Forall2 (has t') args ss ∧ tf_before t' = tf_before t ++ arg_stores k ss) t.
Proof.
  revert k t. induction args as [|a args IH]; intros k t Ho; cbn [store_args].
  { apply runs_ret. split_and!; [by apply looks_nil|done|done|]. exists []. split; [constructor|]. by rewrite app_nil_r. }
  apply runs_bind. eapply runs_mono; [by apply getShadow_runs|].
  intros s t1 (He & Ho1 & Hh & (Hc1 & Hc2 & Hc3) & Hl). apply runs_bind, runs_modify.
  set (t2 := set_code _ _ _ _ t1). assert (own t2) as Ho2 by by apply (own_same t1).
  eapply runs_mono; [by apply IH|]. intros _ t3 (Hk & Ha & Hf & ss & Hss & Hb).
  split_and!; [|cbn in *; congruence|cbn in *; congruence|].
  - eapply looks_cons; [|exact Hk]. split_and!; [done|done|]. intros id Hid. apply Hl. unfold not_operand in Hid. set_solver.
  - exists (s :: ss). split; [constructor; [|done]; eapply has_extends; [apply Hk|]; done|].
    rewrite Hb, arg_stores_cons. unfold t2. cbn [tf_before set_code]. by rewrite <-app_assoc, Hc1.
Qed.
Lemma call_runs i t :
  call i → own t → clean t → unlabelled (i_id i) t →
  runs (visit F native i) (λ _ t', visit_post i t t' ∧ call_ok t' i (current i t')) t.
Proof.
  intros [_ H] Ho (Hb & Ha & Hf) Hu. unfold visit, visit_post, call_ok, looked.
  destruct (i_kind i) as [| | | | | | | | | |[f| | |] fty args [|]| | | | | |] eqn:Hk; try done.
  destruct H as (HA & Hn & HU & Hno & _). cbn [visitCallSite]. rewrite (proj2 (String.eqb_neq _ _)) by done.
  rewrite HU. unfold instrumented_call, tls_call. rewrite HA. apply runs_bind, runs_ret, runs_bind. fold (call_args fty args).
  eapply runs_mono; [by apply store_args_runs|]. intros _ t1 ((He & Ho1 & Hl) & Ha1 & Hf1 & ss & Hss & Hb1).
  assert (∀ id, VInst id ∉ args → unlabelled id t → unlabelled id t1) as Hl1.
  { intros id Hid. apply Hl. unfold not_operand, call_args. intros Hin. apply Hid.
    by eapply elem_of_take in Hin as (? & ? & _); eapply list_elem_of_lookup_2. }
  cbn [Ir.operands app]. destruct (is_void (i_ty i)) eqn:Hv.
  { apply runs_ret. split_and!; [done|done|by intros id _ Hid; apply Hl1|done|cbn; congruence|cbn; congruence|].
    exists ss. split; [done|]. cbn. by rewrite Hb1, Hb. }
  apply runs_bind. unfold fresh. apply runs_bind, runs_get, runs_bind, runs_modify, runs_ret, runs_bind, runs_modify.
  apply runs_bind, runs_modify, runs_bind.
  eapply runs_mono; [apply label_unused_runs|].
  - apply (own_same t1); (done || cbn; lia).
  - apply Hl1; [done|done].
  - intros d [= <-]. apply (fresh_unused t1); (done || cbn; lia).
  - intros _ t2 (-> & He2 & Ho2 & Hl2). apply runs_modify.
    split_and!; [|by eapply own_same; [..|exact Ho2]; try done; lia|intros id Hne Hid Hx; apply Hl2; [done|by apply Hl1]|done|cbn; congruence| |].
    + etrans; [exact He|]. destruct He2 as (E1 & E2 & E3 & E4 & E5 & E6 & E7). split_and!; try done; [cbn; lia|].
      intros d Hd. cbn in Hd. apply elem_of_union in Hd as [->%elem_of_singleton|Hd]; [right; lia|by left].
    + exists (tf_next t1). cbn. rewrite lookup_insert_eq. split; [done|]. by rewrite Ha1, Ha.
    + exists ss. split; [|cbn; by rewrite Hb1, Hb]. eapply Forall2_impl; [exact Hss|]. intros v s Hvs.
      eapply (has_extends t1); [|exact Hvs]. split_and!; try done; cbn; [by apply insert_subseteq, Hl1|lia|].
      intros d Hd. apply elem_of_union in Hd as [->%elem_of_singleton|Hd]; [right; lia|by left].
Qed.

(** ** Phi nodes

    The operands are looked up only when all blocks were visited. *)
Definition phi (i : inst) : Prop :=
  ∃ inc, i_kind i = IPhi inc ∧ ∀ w, type_of (VInst (i_id i)) = TInt w → Forall (operand_ok w) inc.*1.
Definition phi_ok (t : tf) (i : inst) (x : item) : Prop :=
  it_inst x = i ∧ it_fate x = Kept ∧ it_after x = [] ∧
  match i_kind i with
  | IPhi inc => ∃ d, tf_insts t !! i_id i = Some (SVal d) ∧ (i, d) ∈ PHIFixups t ∧
      it_before x = [EPhi d ((λ p, (None, p.2)) <$> inc)]
  | _ => False
  end.
Lemma phi_ok_extends t t' i x : extends t t' → phi_ok t i x → phi_ok t' i x.
Proof.
  intros (_ & Hi & _ & _ & _ & _ & Hp) (H1 & H2 & H3 & H). split_and!; [done..|].
  destruct (i_kind i); try done. destruct H as (d & Hd & Hf & Hx). exists d.
  split_and!; [by eapply lookup_weaken|by apply Hp|done].
Qed.
Lemma phi_runs i t :
  phi i → own t → clean t → unlabelled (i_id i) t →
  runs (visit F native i) (λ _ t', visit_post i t t' ∧ phi_ok t' i (current i t')) t.
Proof.
  intros (inc & Hk & _) Ho (Hb & Ha & Hf) Hu. unfold visit, visitPHINode, visit_post, phi_ok, looked. rewrite Hk.
  apply runs_bind. unfold fresh. apply runs_bind, runs_get, runs_bind, runs_modify, runs_ret.
  apply runs_bind, runs_modify, runs_bind, runs_modify.
  eapply runs_mono; [apply label_unused_runs; [|done|]|].
  - destruct Ho as [H1 H2 H3 H4 H5 H6 H7 H8 H9 H10]. split; cbn; [..|done|done|done].
    + intros id d Hd. specialize (H1 id d Hd). lia.
    + intros n d Hd. specialize (H2 n d Hd). lia.
    + done.
    + done.
    + done.
    + rewrite fmap_app. apply NoDup_app. split_and!; [done| |apply NoDup_singleton].
      intros d (p & -> & Hp)%list_elem_of_fmap. specialize (H7 p Hp). cbn. rewrite list_elem_of_singleton. lia.
    + intros p [Hp|Hp]%elem_of_app; [specialize (H7 p Hp); lia|].
      apply list_elem_of_singleton in Hp as ->. simpl. lia.
  - intros d [= <-]. apply (fresh_unused t); (done || cbn; lia).
  - intros _ t' (-> & He & Ho' & Hl). split_and!; [|done|by intros id Hne _; apply Hl|done|done|done|].
    + destruct He as (H1 & H2 & H3 & H4 & H5 & H6 & H7). split_and!; try done; cbn in *; [lia|]. set_solver.
    + exists (tf_next t). cbn. rewrite lookup_insert_eq, Hb. split_and!; [done|set_solver|done].
Qed.

(** ** Whole blocks *)
Definition covered (i : inst) : Prop :=
  straight i ∨ branch i ∨ switch i ∨ ret i ∨ access i ∨ select i ∨ gep i ∨ bulk i ∨ call i ∨ phi i.
Definition visited_other (t : tf) (i : inst) (x : item) : Prop :=
  straight i ∧ item_ok t i x ∨ branch i ∧ branch_ok t i x ∨ switch i ∧ switch_ok t i x ∨
  ret i ∧ ret_ok t i x ∨ access i ∧ access_ok t i x ∨ select i ∧ select_ok t i x ∨ gep i ∧ gep_ok t i x ∨
  bulk i ∧ bulk_ok t i x ∨ call i ∧ call_ok t i x.
Definition visited (t : tf) (i : inst) (x : item) : Prop :=
  visited_other t i x ∨ phi i ∧ phi_ok t i x.
Lemma branch_ok_extends t t' i x : extends t t' → branch_ok t i x → branch_ok t' i x.
Proof.
  intros He (H1 & H2 & H3 & H). split_and!; [done..|].
  destruct (i_kind i) as [| | |[c|]| | | | | | | | | | | | |]; try done.
  destruct H as (s & Hh & Hc). exists s. split; [by eapply has_extends|done].
Qed.
#[local] Hint Resolve item_ok_extends branch_ok_extends switch_ok_extends ret_ok_extends access_ok_extends select_ok_extends gep_ok_extends bulk_ok_extends call_ok_extends phi_ok_extends : core.
Lemma visited_extends t t' i x : extends t t' → visited t i x → visited t' i x.
Proof. unfold visited, visited_other. naive_solver eauto. Qed.

Lemma visit_inst_runs i t :
  covered i → own t → unlabelled (i_id i) t → i_id i ∉ SkipInsts t → no_slot t i →
  runs (visit_inst F native i) (λ x t', visit_post i t t' ∧ visited t' i x) t.
Proof.
  intros Hi Ho Hu Hs Hns. unfold visit_inst. apply runs_bind, runs_modify, runs_bind, runs_get.
  set (t0 := set_code (tf_entry t) [] [] Kept t). rewrite decide_False by done.
  assert (own t0) as Ho0 by by apply (own_same t). apply runs_bind.
  apply (runs_mono _ (λ _ t', visit_post i t t' ∧ visited t' i (current i t'))).
  - unfold visited, visited_other. destruct Hi as [Hi|[Hi|[Hi|[Hi|[Hi|[Hi|[Hi|[Hi|[Hi|Hi]]]]]]]]].
    + eapply runs_mono; [by apply visit_runs|]. intros _ t' (He & Ho' & Hx & Hl).
      assert (looked i = operands (i_kind i)) as Hlk
        by (destruct Hi as (_ & _ & _ & H); unfold looked; by destruct (i_kind i)).
      unfold visit_post. rewrite Hlk. split; [by split_and!|]. by do 2 left.
    + eapply runs_mono; [by apply branch_runs|]. intros _ t' [Hp Hx]. split; [done|auto 11].
    + eapply runs_mono; [by apply switch_runs|]. intros _ t' [Hp Hx]. split; [done|auto 11].
    + eapply runs_mono; [by apply ret_runs|]. intros _ t' [Hp Hx]. split; [done|auto 11].
    + eapply runs_mono; [by apply access_runs|]. intros _ t' [Hp Hx]. split; [done|auto 11].
    + eapply runs_mono; [by apply select_runs|]. intros _ t' [Hp Hx]. split; [done|auto 11].
    + eapply runs_mono; [by apply gep_runs|]. intros _ t' [Hp Hx]. split; [done|auto 11].
    + eapply runs_mono; [by apply bulk_runs|]. intros _ t' [Hp Hx]. split; [done|auto 12].
    + eapply runs_mono; [by apply call_runs|]. intros _ t' [Hp Hx]. split; [done|auto 13].
    + eapply runs_mono; [by apply phi_runs|]. intros _ t' [Hp Hx]. split; [done|auto 11].
  - intros _ t' H. by apply runs_bind, runs_get, runs_ret.
Qed.

(** Code in which every instruction is visited before its uses. *)
Fixpoint ordered (l : list inst) : Prop :=
  match l with
  | [] => True
  | i :: l' =>
      covered i ∧ (i_id i ∉ (i_id <$> l')) ∧
      (∀ j, j ∈ l → VInst (i_id j) ∉ looked i) ∧ ordered l'
  end.
Definition unvisited (l : list inst) (t : tf) : Prop :=
  ∀ i, i ∈ l → unlabelled (i_id i) t ∧ ((i_id i ∉ SkipInsts t) ∧ i_id i < tf_next t) ∧ no_slot t i.
Lemma unvisited_init l first : Forall (λ i, i_id i < first) l → unvisited l (tf_init first).
Proof.
  intros Hl i Hi. pose proof (proj1 (Forall_forall _ _) Hl i Hi). split; [done|].
  split; [split; [apply not_elem_of_empty|done]|]. split; [apply not_elem_of_empty|]. by destruct (pointer_of i) as [[]|].
Qed.
Lemma visit_insts_runs l1 l t :
  ordered (l1 ++ l) → own t → unvisited (l1 ++ l) t →
  runs (visit_insts F native l1)
    (λ xs t', extends t t' ∧ own t' ∧ unvisited l t' ∧ Forall2 (visited t') l1 xs) t.
Proof.
  revert t. induction l1 as [|i l1 IH]; intros t; cbn [visit_insts app].
  { intros _ Ho Hu. by apply runs_ret. }
  intros (Hi & Hnd & Hop & Hl) Ho Hu. destruct (Hu i ltac:(set_solver)) as (Hui & [Hsi _] & Hni).
  apply runs_bind. eapply runs_mono; [by apply visit_inst_runs|].
  intros x t1 [(He & Ho1 & Hn) Hx].
  assert (unvisited (l1 ++ l) t1) as Hu1.
  { intros j Hj. destruct (Hu j ltac:(set_solver)) as (Huj & Hsj & Hnj).
    split_and!; [|..|by eapply no_slot_extends].
    2:{ intros Hd. destruct He as (_ & _ & _ & Hsk & _). destruct (Hsk _ Hd); [by apply Hsj|lia]. }
    2:{ destruct He as (_ & _ & ? & _). lia. }
    apply Hn; [|by apply Hop; set_solver|done].
    intros Heq. apply Hnd. rewrite <-Heq. by apply list_elem_of_fmap_2. }
  apply runs_bind. eapply runs_mono; [by apply IH|]. intros xs t2 (He2 & Ho2 & Hu2 & Hxs).
  apply runs_ret. split_and!; [by etrans|done|done|]. constructor; [by eapply visited_extends|done].
Qed.
Lemma ordered_app l1 l2 : ordered (l1 ++ l2) → ordered l2.
Proof. induction l1 as [|i l1 IH]; [done|]. intros (_ & _ & _ & H). by apply IH. Qed.
Lemma ordered_nodup l : ordered l → NoDup (i_id <$> l).
Proof. induction l as [|i l IH]; [constructor|]. intros (_ & Hn & _ & H). constructor; [done|by apply IH]. Qed.
Lemma visit_blocks_runs bs t :
  ordered (concat (b_insts <$> bs)) → own t → unvisited (concat (b_insts <$> bs)) t →
  runs (visit_blocks F native bs)
    (λ xs t', extends t t' ∧ own t' ∧
       Forall2 (λ b x, x.1 = b_id b ∧ Forall2 (visited t') (b_insts b) x.2) bs xs) t.
Proof.
  revert t. induction bs as [|b bs IH]; intros t; cbn [visit_blocks].
  { intros _ Ho _. by apply runs_ret. }
  cbn [fmap list_fmap concat]. intros Hord Ho Hu. apply runs_bind.
  eapply runs_mono; [by apply visit_insts_runs with (l := concat (b_insts <$> bs))|].
  intros xs t1 (He1 & Ho1 & Hu1 & Hx1). apply runs_bind.
  eapply runs_mono; [apply IH; [by eapply ordered_app|done|done]|]. intros ys t2 (He2 & Ho2 & Hy).
  apply runs_ret. split_and!; [by etrans|done|]. constructor; [|done]. split; [done|]. simpl.
  eapply Forall2_impl; [done|]. intros i x. by apply visited_extends.
Qed.
(** ** Phi nodes *)
Lemma fix_phis_runs l t :
  own t →
  runs (fix_phis F native l)
    (λ r t', extends t t' ∧ own t' ∧
       Forall2 (λ p x, x.1 = p.2 ∧ Forall2 (has t') (operands (i_kind p.1)) x.2) l r) t.
Proof.
  revert t. induction l as [|[pn d] l IH]; intros t Ho; cbn [fix_phis].
  { by apply runs_ret. }
  apply runs_bind. eapply runs_mono; [by apply shadows_of_runs|].
  intros ss t1 ((He & Ho1 & _) & _ & Hss). apply runs_bind. eapply runs_mono; [by apply IH|].
  intros r t2 (He2 & Ho2 & Hr). apply runs_ret. split_and!; [by etrans|done|]. constructor; [|done].
  split; [done|]. eapply Forall2_impl; [done|]. intros v s. by apply has_extends.
Qed.

(** ** The whole function *)
Definition phi_linked (t : tf) (i : inst) (x : item) : Prop :=
  it_inst x = i ∧
  match i_kind i with
  | IPhi inc => ∃ d ss, tf_insts t !! i_id i = Some (SVal d) ∧ Forall2 (has t) inc.*1 ss ∧
      it_before x = [EPhi d (zip (Some <$> ss) inc.*2)]
  | _ => False
  end.
Definition final (t : tf) (i : inst) (x : item) : Prop :=
  visited_other t i x ∨ phi i ∧ phi_linked t i x.
Definition links (t : tf) (fixups : list (inst * Z)) (phis : gmap Z (list shadow)) : Prop :=
  ∀ i d, (i, d) ∈ fixups → ∃ ss, phis !! d = Some ss ∧ Forall2 (has t) (operands (i_kind i)) ss.
Lemma fixups_link t l r :
  NoDup l.*2 → Forall2 (λ p x, x.1 = p.2 ∧ Forall2 (has t) (operands (i_kind p.1)) x.2) l r →
  links t l (list_to_map r).
Proof.
  intros Hnd Hr i d Hin. apply list_elem_of_lookup in Hin as [k Hk].
  destruct (Forall2_lookup_l _ _ _ _ _ Hr Hk) as ([d' ss] & Hrk & Hd & Hss). simpl in Hd, Hss. subst d'.
  exists ss. split; [|done]. apply elem_of_list_to_map_1; [|by eapply list_elem_of_lookup_2].
  assert (r.*1 = l.*2) as ->; [|done]. clear -Hr. induction Hr as [|p x l r [Hx _] _ IH]; [done|].
  cbn. by rewrite Hx, IH.
Qed.
Lemma link_other phis e : (∀ d inc, e ≠ EPhi d inc) → link_emit phis e = e.
Proof. destruct e; try done. intros H. by destruct (H dst incoming). Qed.
Lemma visited_link t phis i x : visited_other t i x → link phis x = x.
Proof.
  intros H. assert (link_emit phis <$> it_before x = it_before x) as Hx; [|unfold link; rewrite Hx; by destruct x].
  destruct H as [[Hi (_ & _ & _ & H)]|[[Hi (_ & _ & _ & H)]|[[Hi (_ & _ & _ & H)]|[[Hi (_ & _ & _ & H)]|[[Hi (_ & _ & _ & H)]|[[Hi (_ & _ & _ & H)]|[[Hi (_ & _ & _ & H)]|[[Hi (_ & _ & _ & H)]|[Hi (_ & _ & H)]]]]]]]]].
  - destruct (union_of i) as [[[a b] op] size]. destruct H as (s1 & s2 & _ & _ & [(_ & _ & _ & ->)|(d & _ & ->)]); done.
  - destruct (i_kind i) as [| | |[c|]| | | | | | | | | | | | |]; try (by rewrite H).
    destruct H as (s & _ & ->). unfold trace_code. by case_decide.
  - destruct (i_kind i); try done. destruct H as (s & _ & ->). case_decide; [done|].
    rewrite <-list_fmap_compose. by apply list_fmap_ext.
  - destruct (i_kind i) as [| | | | | | | |[v|]| | | | | | | |]; try (by rewrite H).
    destruct native; [by rewrite H|]. by destruct H as (s & _ & ->).
  - destruct (i_kind i); try done.
    + by destruct H as [(_ & _ & ->)|(d & _ & ->)].
    + destruct H as (s & _ & ->). by case_decide.
  - destruct (i_kind i); try done. destruct H as (sa & sb & sc & _ & _ & _ & [(_ & _ & _ & ->)|(d & _ & ->)]);
      unfold trace_code; by case_decide.
  - destruct (i_kind i); try done. induction H as [|e es (s & v & -> & _) _ IH]; [done|]. cbn. by rewrite IH.
  - destruct (i_kind i); try done; [by destruct H as (s & _ & ->)|by rewrite H].
  - destruct (i_kind i); try done. destruct H as (_ & ss & _ & ->). unfold arg_stores. rewrite fmap_imap. by apply imap_ext.
Qed.
Lemma visited_final t t' phis i x :
  extends t t' → links t' (PHIFixups t) phis → visited t i x → final t' i (link phis x).
Proof.
  intros He Hl [Hv|[Hi (H1 & _ & _ & H)]].
  - left. rewrite (visited_link t phis i) by done. assert (visited t' i x) as [?|[Hp _]]; [|done|].
    { eapply visited_extends; [done|by left]. }
    destruct Hp as (inc & Hk & _). exfalso. unfold visited_other, straight, branch, switch, ret, access, select, gep, bulk, call in Hv.
    rewrite Hk in Hv. naive_solver.
  - right. split; [done|]. split; [done|]. destruct Hi as (inc & Hk & _). rewrite Hk in *.
    destruct H as (d & Hd & Hf & Hx). destruct (Hl i d Hf) as (ss & Hss & Hh). rewrite Hk in Hh.
    exists d, ss. pose proof He as (_ & Hi & _). split_and!; [by eapply lookup_weaken|done|].
    cbn. rewrite Hx. cbn. rewrite Hss, <-list_fmap_compose. done.
Qed.
Lemma instrument_runs bs t :
  ordered (concat (b_insts <$> bs)) → own t → unvisited (concat (b_insts <$> bs)) t →
  runs (instrument F native bs)
    (λ r t', extends t t' ∧ own t' ∧
       Forall2 (λ b x, x.1 = b_id b ∧ Forall2 (final t') (b_insts b) (link (list_to_map r.2) <$> x.2)) bs r.1) t.
Proof.
  intros Hord Ho Hu. unfold instrument. apply runs_bind. eapply runs_mono; [by apply visit_blocks_runs|].
  intros xs t1 (He1 & Ho1 & Hxs). apply runs_bind, runs_get, runs_bind.
  eapply runs_mono; [by apply fix_phis_runs|]. intros phis t2 (He2 & Ho2 & Hp). apply runs_ret.
  split_and!; [by etrans|done|]. cbn [fst snd]. eapply Forall2_impl; [done|]. intros b x [Hb Hx]. split; [done|].
  apply Forall2_fmap_r. eapply Forall2_impl; [done|]. intros i y. apply visited_final; [done|].
  by apply fixups_link; [apply Ho1|].
Qed.
End visit.
