(* ===== verification/PassStep.v ===== *)
(** * Instrumented instructions, one at a time

    An instruction of the original program and what the pass made of it, executed
    side by side: the values stay the same, and the label of every value and of
    every byte of memory keeps denoting it. *)
From S2P Require Import Prelude Platform Labels UnionTable Union Z3 State Denote Shadow ShadowSpec Solver Libc Invariant Ir Pass PassModule PassRun PassSpec PassMem PassVisit.

(** ** Running the instrumented code *)
Section run.
Context {Zi : Z3} {Ops : LlvmOps} {DL : DataLayout} {PE : PassEnv} {Cs : Callees}.
(** the input of the run, and an earlier state of the runtime *)
Context (native : bool) (inp : input) (past : rt).

(** The labels of a state of the pass are right in a state [m] of the machine
    running on [inp]. [rs j], where defined, is a state of the original program
    on the input [j] after the same path: what the label of a value denotes is,
    for every input [j], the value the original program has there. Labels recorded in [past] stay. *)
Definition mem_of (m : mach) : gmap Z Z := rt_mem (mc_rt m).
Record consistent (t : tf) (m : mach) (rs : input → option mach) : Prop := {
  cs_wf : rt_wf (mc_rt m);
  cs_free : mem_free (rt_labels (mc_rt m));
  cs_vals v s w n :
    is_constant v = false → has native t v s → type_of v = TInt w → value_of m v = Some n →
    ∃ f, symb (mc_rt m) w (label_of m s) n f ∧ f inp = n ∧
      ∀ j mj, rs j = Some mj → value_of mj v = Some (f j);
  cs_mem : mem_symb (mc_rt m) inp (λ j, mem_of <$> rs j);
  cs_since : rt_kept past (mc_rt m);
}.
Lemma consistent_ext t m rs rs' : (∀ j, rs' j = rs j) → consistent t m rs → consistent t m rs'.
Proof.
  intros Hr [Hwf Hf Hc Hm Hs0]. split; [done|done| | |done].
  - intros v s w n Hv Hh Ht Hn.
    destruct (Hc v s w n Hv Hh Ht Hn) as (f & Hs & Hi & Hj). exists f. split_and!; [done|done|].
    intros j mj. rewrite Hr. apply Hj.
  - apply (mem_symb_kept (mc_rt m) _ _ (λ j, mem_of <$> rs j)); [done|done| |done]. intros j mem. by rewrite Hr.
Qed.

Lemma operand_symb t m rs w v s n :
  consistent t m rs → operand_ok w v → has native t v s → value_of m v = Some n →
  ∃ f, symb (mc_rt m) w (label_of m s) n f ∧ f inp = n ∧
    ∀ j mj, rs j = Some mj → value_of mj v = Some (f j).
Proof.
  intros Hc [Ht Hv] Hh Hn.
  destruct v as [k|id|w' k|g]; [by apply (cs_vals _ _ _ Hc (VArgument k))|by apply (cs_vals _ _ _ Hc (VInst id))| |done].
  simpl in *. simplify_eq. exists (λ _, n). split_and!; [|done|done]. split; [done|]. by left.
Qed.

(** The value of an instruction; only the values of its operands matter. *)
Definition inst_val (i : inst) (m : mach) : option Z :=
  match i_kind i with
  | IBinary op a b =>
      x ← value_of m a; y ← value_of m b; bin_val op (int_width (i_ty i)) x y
  | ICast op a =>
      x ← value_of m a; cast_val op (int_width (type_of a)) (int_width (i_ty i)) x
  | ICompare _ _ pred a b =>
      x ← value_of m a; y ← value_of m b; Z.b2z <$> cmp_val pred (int_width (type_of a)) x y
  | ISelect c a b => n ← value_of m c; value_of m (if n =? 1 then a else b)
  | ILoad p =>
      a ← value_of m p;
      let w := int_width (i_ty i) in Some (wrap w (mem_value (mem_of m) a ((w + 7) / 8)))
  | IGep p idx =>
      a ← value_of m p; (λ xs, u64 (a + gep_offset (type_of p) xs)) <$> index_values m idx
  | _ => None
  end.
Definition is_call (i : inst) : bool := match i_kind i with ICall _ _ _ _ => true | _ => false end.
(** The instruction does nothing else. *)
Definition defines (i : inst) : Prop :=
  is_call i = false ∧
  ∀ m, run_inst i m = match inst_val i m with
                      | Some n => Ret () (set_vals (<[i_id i := n]> (mc_vals m)) m)
                      | None => Halt (HTerminate undefined) m
                      end.
(** The same values and memory. *)
Definition same_values (m m' : mach) : Prop :=
  mc_vals m' = mc_vals m ∧ mc_args m' = mc_args m ∧ mem_of m' = mem_of m.
Lemma value_of_same m m' v : same_values m m' → value_of m' v = value_of m v.
Proof. intros (H1 & H2 & _). destruct v; simpl; by rewrite ?H1, ?H2. Qed.
Lemma index_values_same m m' idx : same_values m m' → index_values m' idx = index_values m idx.
Proof. intros H. induction idx as [|v idx IH]; simpl; [done|]. by rewrite (value_of_same m m'), IH. Qed.
Lemma inst_val_same i m m' : same_values m m' → inst_val i m' = inst_val i m.
Proof.
  intros H. pose proof H as (_ & _ & Hm). unfold inst_val. rewrite Hm.
  destruct (i_kind i); rewrite ?(value_of_same m m'), ?(index_values_same m m') by done; try done.
  destruct (value_of m c); [|done]. simpl. by rewrite (value_of_same m m').
Qed.

Lemma operand_run v m :
  operand v m = match value_of m v with Some n => Ret n m | None => Halt (HTerminate undefined) m end.
Proof. unfold operand. rewrite bind_get. by destruct (value_of m v). Qed.
Lemma straight_defines i : straight i → defines i.
Proof.
  intros (_ & _ & _ & H). split; [unfold is_call; by destruct (i_kind i)|]. intros m. unfold run_inst, inst_val. destruct (i_kind i); try done.
  - unfold mbind at 1 2, M_bind. rewrite !operand_run. destruct (value_of m a) as [x|]; [|done].
    rewrite operand_run. destruct (value_of m b) as [y|]; [|done]. cbn. by destruct (bin_val _ _ _ _).
  - unfold mbind at 1, M_bind. rewrite !operand_run. destruct (value_of m a) as [x|]; [|done].
    cbn. by destruct (cast_val _ _ _ _).
  - destruct H as (-> & _). unfold mbind at 1 2, M_bind. rewrite !operand_run.
    destruct (value_of m a) as [x|]; [|done].
    rewrite operand_run. destruct (value_of m b) as [y|]; [|done]. cbn. by destruct (cmp_val _ _ _ _).
Qed.
Lemma select_defines i : select i → defines i.
Proof.
  intros (_ & _ & H). split; [unfold is_call; by destruct (i_kind i)|]. intros m. unfold run_inst, inst_val. destruct (i_kind i); try done.
  unfold mbind at 1, M_bind. rewrite operand_run. destruct (value_of m c) as [n|]; [|done].
  unfold mbind at 1, M_bind. rewrite operand_run. cbn [mbind option_bind].
  by destruct (value_of m (if n =? 1 then _ else _)).
Qed.
Lemma load_defines i p : i_kind i = ILoad p → defines i.
Proof.
  intros Hk. split; [unfold is_call; by rewrite Hk|]. intros m. unfold run_inst, inst_val. rewrite Hk. pose proof (operand_run p m) as Hp.
  destruct (value_of m p) as [a|]; [|by rewrite (bind_halt _ _ _ _ _ Hp)].
  by rewrite (bind_run _ _ _ _ _ Hp), bind_get.
Qed.
Lemma gep_defines i p idx : i_kind i = IGep p idx → defines i.
Proof.
  intros Hk. split; [unfold is_call; by rewrite Hk|]. intros m. unfold run_inst, inst_val. rewrite Hk. pose proof (operand_run p m) as Hp.
  destruct (value_of m p) as [a|]; [|by rewrite (bind_halt _ _ _ _ _ Hp)].
  rewrite (bind_run _ _ _ _ _ Hp), bind_get. cbn [mbind option_bind].
  by destruct (index_values m idx).
Qed.

(** The call of the runtime for an instruction: its value is [n], a function [f]
    of the input, and the label returned denotes [f]. *)
Definition opt_value (m : mach) (v : option val) : option Z :=
  match v with Some v => value_of m v | None => Some 0 end.
Definition width_of (i : inst) : Z := int_width (i_ty i).
Definition inst_sem (rs : input → option mach) (m : mach) (i : inst) (l1 l2 op size n1 n2 : Z) : Prop :=
  in_range 64 n1 ∧ in_range 64 n2 ∧
  ∃ n f, (∀ r, inst_val i m = Some r → r = n) ∧ f inp = n ∧
    (∀ j mj r, rs j = Some mj → inst_val i mj = Some r → r = f j) ∧
    (l1 = 0 → l2 = 0 → symb (mc_rt m) (width_of i) 0 n f) ∧
    wpd (r_union l1 l2 op size n1 n2) (union_post (mc_rt m) (width_of i) n f) (mc_rt m).

Lemma const_one v m n : is_constant_one v = true → value_of m v = Some n → n = 1.
Proof. destruct v; simpl; try done. intros ?%Z.eqb_eq [= <-]. done. Qed.
Lemma const_zero t v s : is_constant_one v = true → has native t v s → s = ZeroShadow.
Proof. by destruct v. Qed.
Lemma xor_val w a b : bin_val op_Xor w a b = Some (Z.lxor a b).
Proof.
  unfold bin_val. cbv zeta.
  rewrite (proj2 (Z.eqb_neq op_Xor op_And)), (proj2 (Z.eqb_neq op_Xor op_Or)), Z.eqb_refl
    by first [by apply (llvm_op_ne 12 10)|by apply (llvm_op_ne 12 11)]. done.
Qed.
Lemma symb_ext s w l n f g : (∀ i, g i = f i) → symb s w l n f → symb s w l n g.
Proof.
  intros Hfg [Hr H]. split; [intros i; by rewrite Hfg|].
  destruct H as [[-> H]|[Hl H]]; [left|right]; (split; [done|]); intros i; by rewrite Hfg.
Qed.

Section sem.
Context (t : tf) (m : mach) (rs : input → option mach).
Context (Hc : consistent t m rs).

Lemma bin_inst_sem i op a b w s1 s2 n1 n2 :
  i_kind i = IBinary op a b → i_ty i = TInt w → op ∈ binops → 1 ≤ w ≤ 64 →
  (w = 1 → op = op_And ∨ op = op_Or) →
  operand_ok w a → operand_ok w b → has native t a s1 → has native t b s2 →
  value_of m a = Some n1 → value_of m b = Some n2 →
  inst_sem rs m i (label_of m s1) (label_of m s2) op w n1 n2.
Proof.
  intros Hk Hty Hop Hw H1 Ha Hb Hs1 Hs2 Hn1 Hn2. unfold inst_sem, inst_val, width_of. rewrite Hk, Hty. cbn [int_width].
  destruct (operand_symb _ _ _ _ _ _ _ Hc Ha Hs1 Hn1) as (f1 & Hf1 & Hi1 & Hj1).
  destruct (operand_symb _ _ _ _ _ _ _ Hc Hb Hs2 Hn2) as (f2 & Hf2 & Hi2 & Hj2).
  pose proof (symb_range _ _ _ _ _ inp Hf1) as Hr1. pose proof (symb_range _ _ _ _ _ inp Hf2) as Hr2.
  rewrite Hi1 in Hr1. rewrite Hi2 in Hr2.
  split_and!; [by eapply range_le|by eapply range_le|].
  exists (bv_bin op w n1 n2), (λ j, bv_bin op w (f1 j) (f2 j)). split_and!.
  - rewrite Hn1, Hn2. cbn [mbind option_bind]. intros r Hr. symmetry. apply bin_val_bv; [done|lia|done|done|done].
  - by rewrite Hi1, Hi2.
  - intros j mj r Hj. rewrite (Hj1 _ _ Hj), (Hj2 _ _ Hj). cbn [mbind option_bind]. intros Hr.
    symmetry. apply bin_val_bv; [done|lia|apply Hf1|apply Hf2|done].
  - intros Hz1 Hz2. split; [intros j; apply bv_bin_range; [done|lia|done|apply Hf1|apply Hf2]|].
    left. split; [done|]. intros j. by rewrite (symb_const _ _ _ _ _ j Hf1), (symb_const _ _ _ _ _ j Hf2).
  - apply union_bin; [apply (cs_wf _ _ _ Hc)|done..].
Qed.
Lemma not_inst_sem i a b s1 s2 n1 n2 :
  i_kind i = IBinary op_Xor a b → i_ty i = TInt 1 →
  (is_constant_one b || is_constant_one a) = true →
  operand_ok 1 a → operand_ok 1 b → has native t a s1 → has native t b s2 →
  value_of m a = Some n1 → value_of m b = Some n2 →
  inst_sem rs m i (label_of m s1) (label_of m s2) op_Not 1 n1 n2.
Proof.
  intros Hk Hty Hone Ha Hb Hs1 Hs2 Hn1 Hn2. unfold inst_sem, inst_val, width_of. rewrite Hk, Hty. cbn [int_width].
  destruct (operand_symb _ _ _ _ _ _ _ Hc Ha Hs1 Hn1) as (f1 & Hf1 & Hi1 & Hj1).
  destruct (operand_symb _ _ _ _ _ _ _ Hc Hb Hs2 Hn2) as (f2 & Hf2 & Hi2 & Hj2).
  pose proof (symb_range _ _ _ _ _ inp Hf1) as Hr1. pose proof (symb_range _ _ _ _ _ inp Hf2) as Hr2.
  rewrite Hi1 in Hr1. rewrite Hi2 in Hr2.
  split_and!; [by apply (range_le 1)|by apply (range_le 1)|].
  exists (Z.lxor n1 n2), (λ j, Z.lxor (f1 j) (f2 j)). split_and!.
  - rewrite Hn1, Hn2. cbn [mbind option_bind]. rewrite xor_val. congruence.
  - by rewrite Hi1, Hi2.
  - intros j mj r Hj. rewrite (Hj1 _ _ Hj), (Hj2 _ _ Hj). cbn [mbind option_bind]. rewrite xor_val. congruence.
  - intros Hz1 Hz2. split; [intros j; apply lxor_range; [lia|apply Hf1|apply Hf2]|].
    left. split; [done|]. intros j. by rewrite (symb_const _ _ _ _ _ j Hf1), (symb_const _ _ _ _ _ j Hf2).
  - apply orb_true_iff in Hone as [H1|H1]; pose proof (const_zero _ _ _ H1 ltac:(eassumption)) as ->;
      pose proof (const_one _ _ _ H1 ltac:(eassumption)) as ->.
    + eapply wpd_mono; [eapply (union_not _ _ _ _ _ _ _ f1); [apply (cs_wf _ _ _ Hc)|exact Hf1|done|by right]|].
      intros l s' (? & ? & Hf). split_and!; [done|done|]. eapply symb_ext; [|exact Hf].
      intros j. by rewrite (symb_const _ _ _ _ _ j Hf2).
    + eapply wpd_mono; [eapply (union_not _ _ _ _ _ _ _ f2); [apply (cs_wf _ _ _ Hc)|exact Hf2|done|by left]|].
      intros l s' (? & ? & Hf). split_and!; [done|done|]. rewrite Z.lxor_comm. eapply symb_ext; [|exact Hf].
      intros j. by rewrite (symb_const _ _ _ _ _ j Hf1), Z.lxor_comm.
Qed.
Lemma cast_inst_sem i op a w w' s1 n1 :
  i_kind i = ICast op a → i_ty i = TInt w' → cast_ok op w w' → operand_ok w a → has native t a s1 →
  value_of m a = Some n1 → inst_sem rs m i (label_of m s1) 0 op w' n1 0.
Proof.
  intros Hk Hty Hco Ha Hs1 Hn1. unfold inst_sem, inst_val, width_of. rewrite Hk, Hty, (proj1 Ha). cbn [int_width].
  destruct (operand_symb _ _ _ _ _ _ _ Hc Ha Hs1 Hn1) as (f1 & Hf1 & Hi1 & Hj1).
  pose proof (symb_range _ _ _ _ _ inp Hf1) as Hr1. rewrite Hi1 in Hr1.
  assert (in_range 64 n1) by (eapply range_le; [|done]; unfold cast_ok in Hco; lia).
  split_and!; [done|done|]. exists (cast_res op w w' n1), (λ j, cast_res op w w' (f1 j)). split_and!.
  - rewrite Hn1. cbn [mbind option_bind]. unfold cast_res. by intros r ->.
  - by rewrite Hi1.
  - intros j mj r Hj. rewrite (Hj1 _ _ Hj). cbn [mbind option_bind]. unfold cast_res. by intros ->.
  - intros Hz1 _. split; [intros j; apply cast_res_range; [done|apply Hf1]|].
    left. split; [done|]. intros j. by rewrite (symb_const _ _ _ _ _ j Hf1).
  - apply union_cast; [apply (cs_wf _ _ _ Hc)|done..].
Qed.
Lemma cmp_inst_sem i g op pred a b w s1 s2 n1 n2 :
  i_kind i = ICompare g op pred a b → i_ty i = TInt 1 → 32 ≤ pred ≤ 41 → 1 ≤ w ≤ 64 →
  (w = 1 → pred = 32 ∨ pred = 33) →
  operand_ok w a → operand_ok w b → has native t a s1 → has native t b s2 →
  value_of m a = Some n1 → value_of m b = Some n2 →
  inst_sem rs m i (label_of m s1) (label_of m s2) (cmp_op pred) w n1 n2.
Proof.
  intros Hk Hty Hp Hw H1 Ha Hb Hs1 Hs2 Hn1 Hn2. unfold inst_sem, inst_val, width_of. rewrite Hk, Hty, (proj1 Ha). cbn [int_width].
  destruct (operand_symb _ _ _ _ _ _ _ Hc Ha Hs1 Hn1) as (f1 & Hf1 & Hi1 & Hj1).
  destruct (operand_symb _ _ _ _ _ _ _ Hc Hb Hs2 Hn2) as (f2 & Hf2 & Hi2 & Hj2).
  pose proof (symb_range _ _ _ _ _ inp Hf1) as Hr1. pose proof (symb_range _ _ _ _ _ inp Hf2) as Hr2.
  rewrite Hi1 in Hr1. rewrite Hi2 in Hr2.
  assert (∀ x y r, Z.b2z <$> cmp_val pred w x y = Some r → r = cmp_res pred w x y) as Hres.
  { intros x y r. unfold cmp_res. destruct (cmp_val _ _ _ _); [|done]. by intros [= <-]. }
  split_and!; [by eapply range_le|by eapply range_le|].
  exists (cmp_res pred w n1 n2), (λ j, cmp_res pred w (f1 j) (f2 j)). split_and!.
  - rewrite Hn1, Hn2. cbn [mbind option_bind]. apply Hres.
  - by rewrite Hi1, Hi2.
  - intros j mj r Hj. rewrite (Hj1 _ _ Hj), (Hj2 _ _ Hj). cbn [mbind option_bind]. apply Hres.
  - intros Hz1 Hz2. split; [intros j; apply cmp_res_range|].
    left. split; [done|]. intros j. by rewrite (symb_const _ _ _ _ _ j Hf1), (symb_const _ _ _ _ _ j Hf2).
  - apply union_cmp; [apply (cs_wf _ _ _ Hc)|done..].
Qed.

Lemma straight_sem i a b op size s1 s2 n1 n2 :
  straight i → union_of i = (a, b, op, size) →
  has native t a s1 → has_opt native t b s2 → value_of m a = Some n1 → opt_value m b = Some n2 →
  inst_sem rs m i (label_of m s1) (label_of m s2) op size n1 n2.
Proof.
  intros (_ & _ & _ & H) Hu Hs1 Hs2 Hn1 Hn2. unfold union_of in Hu.
  destruct (i_kind i) as [o x y|o x|g o pred x y| | | | | | | | | | | | | |] eqn:Hk; try done; simplify_eq; simpl in Hs2, Hn2.
  - destruct H as (w & Hty & Hop & Hw & Ha & Hb & H1). unfold bin_op. rewrite Hty. cbn [int_width].
    destruct ((w =? 1) && (o =? op_Xor) && (is_constant_one y || is_constant_one a)) eqn:Hnot.
    + apply andb_true_iff in Hnot as [[->%Z.eqb_eq ->%Z.eqb_eq]%andb_true_iff Hone].
      by eapply not_inst_sem.
    + eapply bin_inst_sem; [done|done|done|done| |done..]. intros ->.
      destruct (H1 eq_refl) as [?|[?|[-> Hone]]]; [by left|by right|]. by rewrite Hone, !Z.eqb_refl in Hnot.
  - destruct H as (w & w' & Hty & Ha & Hc'). simplify_eq. rewrite Hty. cbn [int_width].
    change (label_of m ZeroShadow) with 0. by eapply cast_inst_sem.
  - destruct H as (-> & -> & Hty & Hp & w & Hw & Ha & Hb & H1). rewrite (proj1 Ha). cbn [int_width].
    by eapply cmp_inst_sem.
Qed.
End sem.
Lemma operand64_run v m :
  operand64 (to_int64 v) m =
    match opt_value m v with
    | Some n => Ret (match v with Some _ => wrap 64 n | None => n end) m
    | None => Halt (HTerminate undefined) m
    end.
Proof.
  unfold operand64, to_int64. destruct v as [v|]; [|done]. cbn [opt_value fst snd].
  unfold mbind, M_bind. rewrite operand_run. by destruct (value_of m v).
Qed.
Lemma union_emit_run pc d s1 s2 op size a b m :
  run_emit pc (EUnion d s1 s2 op size (to_int64 (Some a)) (to_int64 b)) m =
    match value_of m a, opt_value m b with
    | Some n1, Some n2 =>
        match r_union (label_of m s1) (label_of m s2) op size (wrap 64 n1)
                (match b with Some _ => wrap 64 n2 | None => n2 end) (mc_rt m) with
        | Ret l s' => Ret () (set_shadows (<[d := l]> (mc_shadows m)) (set_rt s' m))
        | Throw e s' => Throw e (set_rt s' m)
        | Halt h s' => Halt h (set_rt s' m)
        end
    | _, _ => Halt (HTerminate undefined) m
    end.
Proof.
  cbn [run_emit]. unfold label. rewrite !bind_gets. pose proof (operand64_run (Some a) m) as Ha.
  pose proof (operand64_run b m) as Hb. cbn [opt_value] in Ha.
  destruct (value_of m a) as [n1|]; [|by rewrite (bind_halt _ _ _ _ _ Ha)].
  rewrite (bind_run _ _ _ _ _ Ha).
  destruct (opt_value m b) as [n2|]; [|by rewrite (bind_halt _ _ _ _ _ Hb)].
  rewrite (bind_run _ _ _ _ _ Hb). unfold mbind, M_bind, on_rt, zoom.
  by destruct (r_union _ _ _ _ _ _ _).
Qed.

(** One instruction of the original program. *)
Definition plain (i : inst) (m : mach) : option mach :=
  match run_inst i m with Ret _ m' => Some m' | _ => None end.

(** ** What callers rely on

    An instrumented callee finds labels of the arguments in thread-local memory
    and leaves the label of the result there; it keeps what the labels of memory
    say. *)
Definition arg_label (m : mach) (n : Z) : Z := default 0 (mc_argtls m !! n).
Definition passed (args : list val) (m : mach) (rs : input → option mach) : Prop :=
  ∀ (k : nat) v w n, args !! k = Some v → type_of v = TInt w → value_of m v = Some n →
    ∃ f, symb (mc_rt m) w (arg_label m (Z.of_nat k)) n f ∧ f inp = n ∧
      ∀ j mj, rs j = Some mj → value_of mj v = Some (f j).
Definition call_keeps (i : inst) (m m' : mach) : Prop :=
  mc_args m' = mc_args m ∧ ∀ id, id ≠ i_id i → mc_vals m' !! id = mc_vals m !! id.
Definition call_returned (i : inst) (traced : Prop) (m : mach) (o : outcome mach ()) (rs : input → option mach) : Prop :=
  match o with
  | Ret _ m' =>
      call_keeps i m m' ∧ mc_shadows m' = mc_shadows m ∧ mc_params m' = mc_params m ∧
      rt_free (mc_rt m') ∧ rt_kept (mc_rt m) (mc_rt m') ∧
      mem_symb (mc_rt m') inp (λ j, mem_of <$> rs j) ∧
      (∀ w n, i_ty i = TInt w → mc_vals m' !! i_id i = Some n →
         ∃ f, symb (mc_rt m') w (mc_retval m') n f ∧ f inp = n ∧
           ∀ j mj, rs j = Some mj → mc_vals mj !! i_id i = Some (f j)) ∧
      ∃ m2, rs inp = Some m2 ∧ same_values m' m2
  | Halt h _ => traced ∨ is_die h ∨ rs inp = None
  | Throw _ _ => traced ∨ rs inp = None
  end.
Class CalleesOk : Prop := {
  callee_follows_inp i rs : is_call i = true → callee_follows inp i rs inp = m ← rs inp; plain i m;
  callee_follows_keeps i rs j mj :
    callee_follows inp i rs j = Some mj → ∃ m, rs j = Some m ∧ call_keeps i m mj;
  callee_returns i f fty args m m2 rs :
    i_kind i = ICall (CalleeFun f) fty args false →
    rt_free (mc_rt m) → passed (call_args fty args) m rs → mem_symb (mc_rt m) inp (λ j, mem_of <$> rs j) →
    rs inp = Some m2 → same_values m m2 → callee_clean i m →
    call_returned i (callee_traces i) m (callee_instrumented i m) (callee_follows inp i rs);
}.
Context {Co : CalleesOk}.

(** The original program after one more instruction. A run on another input
    follows the run on [inp] as long as it uses the same addresses in memory and
    selects the same values. *)
Definition choice (i : inst) (m : mach) : list (option Z) :=
  match i_kind i with
  | ILoad p | IStore _ p => [value_of m p]
  | ISelect c _ _ => [value_of m c]
  | IMemSet d _ l => [value_of m d; value_of m l]
  | IMemTransfer d a l => [value_of m d; value_of m a; value_of m l]
  | _ => []
  end.
Definition next (i : inst) (rs : input → option mach) (j : input) : option mach :=
  if is_call i then callee_follows inp i rs j else
  m ← rs inp; mj ← rs j; if decide (choice i mj = choice i m) then plain i mj else None.
Fixpoint after (l : list inst) (rs : input → option mach) : input → option mach :=
  match l with
  | [] => rs
  | i :: l => after l (next i rs)
  end.
Lemma choice_same i m m' : same_values m m' → choice i m' = choice i m.
Proof. intros H. unfold choice. destruct (i_kind i); by rewrite ?(value_of_same m m'). Qed.
Lemma next_inp i rs m : rs inp = Some m → next i rs inp = plain i m.
Proof.
  intros Hm. unfold next. rewrite Hm. destruct (is_call i) eqn:Hi; [by rewrite callee_follows_inp, Hm|].
  cbn [mbind option_bind]. by rewrite decide_True.
Qed.
Lemma after_none l rs : rs inp = None → after l rs inp = None.
Proof. revert rs. induction l as [|i l IH]; intros rs Hr; [done|]. apply IH. unfold next.
  destruct (is_call i) eqn:Hi; [rewrite callee_follows_inp by done|]; by rewrite Hr.
Qed.
(** On [inp] itself this is the run of the program. *)
Lemma after_inp l rs m :
  rs inp = Some m →
  after l rs inp = match for_each l run_inst m with Ret _ m' => Some m' | _ => None end.
Proof.
  revert rs m. induction l as [|i l IH]; intros rs m Hm; [done|]. cbn [after for_each].
  pose proof (next_inp i rs m Hm) as Hn. unfold plain in Hn. unfold mbind, M_bind.
  destruct (run_inst i m) as [[] m'|e m'|h m']; [by apply IH|by apply after_none|by apply after_none].
Qed.
Lemma next_defines i rs j mj m m2 :
  defines i → rs inp = Some m2 → same_values m m2 → next i rs j = Some mj →
  ∃ m0 r, rs j = Some m0 ∧ choice i m0 = choice i m ∧ inst_val i m0 = Some r ∧
    mj = set_vals (<[i_id i := r]> (mc_vals m0)) m0.
Proof.
  intros Hd Hm2 Hm. unfold next, plain. rewrite (proj1 Hd), Hm2. destruct (rs j) as [m0|]; [|done]. cbn [mbind option_bind].
  rewrite (choice_same i m m2) by done. case_decide as Hch; [|done]. rewrite (proj2 Hd).
  destruct (inst_val i m0) as [r|] eqn:Hr; [|done]. intros [= <-]. eauto 6.
Qed.

(** Defining a value and its label keeps every other value and label. *)
Definition updates (i : inst) (n : Z) (sh : gmap Z Z) (s' : rt) (m : mach) : mach :=
  set_vals (<[i_id i := n]> (mc_vals m)) (set_shadows sh (set_rt s' m)).
Lemma define_mem t m m2 rs i s' :
  consistent t m rs → defines i → rs inp = Some m2 → same_values m m2 → still (mc_rt m) s' →
  mem_symb s' inp (λ j, mem_of <$> next i rs j).
Proof.
  intros Hc Hd Hm2 Hm Hs. eapply mem_symb_kept; [apply (cs_wf _ _ _ Hc)|done| |apply (cs_mem _ _ _ Hc)].
  intros j mem. cbv beta. destruct (next i rs j) as [mj|] eqn:Hj; [|done].
  destruct (next_defines i rs j mj m m2 Hd Hm2 Hm Hj) as (m0 & r & -> & _ & _ & ->). done.
Qed.
Lemma define_other t m m2 rs i n sh s' v s0 w0 n0 :
  own t → consistent t m rs → rs inp = Some m2 → same_values m m2 → defines i →
  still (mc_rt m) s' →
  (sh = mc_shadows m ∨ ∃ d l, tf_insts t !! i_id i = Some (SVal d) ∧ sh = <[d := l]> (mc_shadows m)) →
  v ≠ VInst (i_id i) → is_constant v = false → has native t v s0 → type_of v = TInt w0 →
  value_of (updates i n sh s' m) v = Some n0 →
  ∃ f, symb s' w0 (label_of (updates i n sh s' m) s0) n0 f ∧ f inp = n0 ∧
    ∀ j mj, next i rs j = Some mj → value_of mj v = Some (f j).
Proof.
  intros Ho Hc Hm2 Hm Hd (Hk & _ & Hmem) Hsh Hne Hv Hh Hw Hn.
  assert (value_of (updates i n sh s' m) v = value_of m v) as Hval.
  { destruct v; try done. simpl. by rewrite lookup_insert_ne by congruence. }
  assert (label_of (updates i n sh s' m) s0 = label_of m s0) as Hlab.
  { destruct Hsh as [->|(d & l & Hd' & ->)]; [done|]. destruct s0 as [|k|k]; try done. simpl.
    rewrite lookup_insert_ne; [done|]. intros <-. destruct v as [k|k| |]; try done.
    - destruct Hh as [Hh|[_ ?]]; [|done]. by eapply own_sep.
    - apply Hne. f_equal. by eapply own_inst. }
  rewrite Hval in Hn. destruct (cs_vals _ _ _ Hc v s0 w0 n0 Hv Hh Hw Hn) as (g & Hg' & Hgi & Hgj).
  exists g. rewrite Hlab. split_and!; [by apply (symb_kept (mc_rt m)); [apply (cs_wf _ _ _ Hc)|..]|done|].
  intros j mj Hj. destruct (next_defines i rs j mj m m2 Hd Hm2 Hm Hj) as (m0 & r & Hj0 & _ & _ & ->).
  rewrite <-(Hgj j m0 Hj0). destruct v; try done. simpl. by rewrite lookup_insert_ne by congruence.
Qed.
Lemma consistent_define t m m2 rs i s w n f s' sh :
  own t → consistent t m rs → rs inp = Some m2 → same_values m m2 → defines i →
  tf_insts t !! i_id i = Some s → type_of (VInst (i_id i)) = TInt w → rt_free s' → still (mc_rt m) s' →
  (sh = mc_shadows m ∨ ∃ d l, s = SVal d ∧ sh = <[d := l]> (mc_shadows m)) →
  f inp = n →
  (∀ j mj r, rs j = Some mj → choice i mj = choice i m → inst_val i mj = Some r → r = f j) →
  symb s' w (label_of (updates i n sh s' m) s) n f → consistent t (updates i n sh s' m) (next i rs).
Proof.
  intros Ho Hc Hm2 Hm Hd Hid Hty [Hwf' Hf'] Hs Hsh Hfi Hfj Ht.
  split; [done|done| |by eapply define_mem|by etrans; [apply Hc|apply Hs]].
  intros v s0 w0 n0 Hv Hh Hw0 Hn. destruct (decide (v = VInst (i_id i))) as [->|Hne].
  - simpl in Hh, Hn. rewrite lookup_insert_eq in Hn.
    assert (s0 = s) as -> by congruence. assert (w0 = w) as -> by congruence.
    assert (n0 = n) as -> by congruence. exists f. split_and!; [exact Ht|done|].
    intros j mj Hj. destruct (next_defines i rs j mj m m2 Hd Hm2 Hm Hj) as (m0 & r & Hj0 & Hch & Hr & ->).
    simpl. rewrite lookup_insert_eq. f_equal. by eapply Hfj.
  - eapply define_other; try done.
    destruct Hsh as [->|(d & l & -> & ->)]; [by left|right]. eauto.
Qed.
(** Other types of values than integers have no label of their own. *)
Lemma consistent_pointer t m m2 rs i n :
  own t → consistent t m rs → rs inp = Some m2 → same_values m m2 → defines i →
  (∀ w, type_of (VInst (i_id i)) ≠ TInt w) →
  consistent t (set_vals (<[i_id i := n]> (mc_vals m)) m) (next i rs).
Proof.
  intros Ho Hc Hm2 Hm Hd Hty.
  replace (set_vals _ m) with (updates i n (mc_shadows m) (mc_rt m) m) by by destruct m.
  split; [apply Hc|apply Hc| |by eapply define_mem|apply Hc].
  intros v s0 w0 n0 Hv Hh Hw0 Hn. destruct (decide (v = VInst (i_id i))) as [->|Hne].
  - by destruct (Hty w0).
  - eapply define_other; try done. by left.
Qed.

(** The run [o] of instrumented code on [inp], and the original program [rs]
    after the same instructions: the same values on [inp], with right labels; or
    the runtime ran out of labels; or the original is undefined; [traced]: a
    branch was traced, and the solver may stop the program. *)
Definition run_agrees (traced : Prop) (t : tf) (o : outcome mach ()) (rs : input → option mach) : Prop :=
  match o with
  | Ret _ m' => consistent t m' rs ∧ ∃ m2, rs inp = Some m2 ∧ same_values m' m2
  | Halt h _ => traced ∨ is_die h ∨ rs inp = None
  | Throw _ _ => traced ∨ rs inp = None
  end.
Lemma run_agrees_ext P t o rs rs' : (∀ j, rs' j = rs j) → run_agrees P t o rs → run_agrees P t o rs'.
Proof.
  intros Hr. unfold run_agrees. destruct o; rewrite ?Hr; [|done|done].
  intros [Hc ?]. split; [by eapply consistent_ext|done].
Qed.

Lemma run_item_eq i x m :
  it_inst x = i → it_fate x = Kept → it_after x = [] → is_call i = false →
  run_item x m = (for_each (it_before x) (run_emit (i_id i)) ;; run_inst i) m.
Proof.
  intros <- Hf Ha Hn. assert (∀ m', run_kept (it_inst x) m' = run_inst (it_inst x) m') as Hk.
  { intros m'. unfold run_kept, is_call in *. by destruct (i_kind (it_inst x)). }
  unfold run_item. rewrite Hf, Ha. unfold mbind, M_bind.
  destruct (for_each _ _ m) as [[] m1| |]; [|done..]. rewrite Hk. by destruct (run_inst _ m1) as [[] ?| |].
Qed.
Lemma simple_no_call i :
  straight i ∨ branch i ∨ switch i ∨ ret i ∨ access i ∨ select i ∨ gep i ∨ bulk i → is_call i = false.
Proof.
  unfold straight, branch, switch, ret, access, select, gep, bulk, is_call. destruct (i_kind i); try done. naive_solver.
Qed.
Ltac simple_item :=
  first [done
        |match goal with H : i_kind ?i = _ |- is_call ?i = false => unfold is_call; by rewrite H end
        |apply simple_no_call; tauto].
(** The instruction itself, run after the code inserted before it. *)
Lemma define_agrees P t m m2 rs i s w f s' sh :
  own t → consistent t m rs → rs inp = Some m2 → same_values m m2 → defines i →
  tf_insts t !! i_id i = Some s → type_of (VInst (i_id i)) = TInt w → rt_free s' → still (mc_rt m) s' →
  (sh = mc_shadows m ∨ ∃ d l, s = SVal d ∧ sh = <[d := l]> (mc_shadows m)) →
  (∀ r, inst_val i m = Some r → f inp = r ∧ symb s' w (label_of (set_shadows sh (set_rt s' m)) s) r f) →
  (∀ j mj r, rs j = Some mj → choice i mj = choice i m → inst_val i mj = Some r → r = f j) →
  run_agrees P t (run_inst i (set_shadows sh (set_rt s' m))) (next i rs).
Proof.
  intros Ho Hc Hm2 Hm Hd Hid Hty Hf Hs Hsh Hval Hfj. pose proof Hs as (_ & _ & Hmem).
  rewrite (proj2 Hd), (inst_val_same i m) by by split_and!.
  pose proof (next_inp i rs m2 Hm2) as Hn. unfold plain in Hn. rewrite (proj2 Hd), (inst_val_same i m m2) in Hn by done.
  destruct (inst_val i m) as [r|] eqn:Hr; [|by right; right].
  destruct (Hval r eq_refl) as [Hfi Hsym]. split; [by apply (consistent_define t m m2 rs i s w r f s' sh)|].
  eexists. split; [exact Hn|]. destruct Hm as (H1 & H2 & H3).
  split_and!; [by simpl; rewrite H1|done|]. transitivity (mem_of m); [exact H3|]. by symmetry.
Qed.
Lemma next_none i m m2 rs :
  defines i → rs inp = Some m2 → same_values m m2 → inst_val i m = None → next i rs inp = None.
Proof.
  intros Hd Hm2 Hm Hr. rewrite (next_inp _ _ _ Hm2). unfold plain. by rewrite (proj2 Hd), (inst_val_same i m m2), Hr.
Qed.
Lemma operand_missing i m a b op size :
  straight i → union_of i = (a, b, op, size) →
  value_of m a = None ∨ opt_value m b = None → inst_val i m = None.
Proof.
  intros (_ & _ & _ & H) Hu Hn. unfold union_of in Hu. unfold inst_val.
  destruct (i_kind i); try done; simplify_eq; destruct Hn as [Hn|Hn]; simpl in Hn;
    rewrite ?Hn; try done; by destruct (value_of m a).
Qed.
Lemma union_op_free i a b op size :
  straight i → union_of i = (a, b, op, size) → 0 ≤ op < 2 ^ 16 ∧ op ≠ op_fmemcmp.
Proof.
  intros Hs. pose proof (straight_opcode i Hs) as Hop. destruct Hs as (_ & _ & _ & H).
  pose proof last_llvm_op_bound. pose proof llvm_op_bounds. unfold union_of.
  destruct (i_kind i); try done; intros [= _ _ <- _].
  - destruct H as (w & _ & Hb & _). destruct (binop_other _ Hb) as (? & ?). unfold bin_op.
    destruct (_ && _); op_lia.
  - destruct H as (w & w' & _ & _ & Hc). destruct (cast_tests _ _ _ Hc) as (? & ?). op_lia.
  - destruct H as (_ & _ & _ & Hp & _). unfold cmp_op. op_lia.
Qed.
Lemma straight_item t i x m m2 rs :
  straight i → item_ok native t i x → own t → consistent t m rs → rs inp = Some m2 → same_values m m2 →
  run_agrees False t (run_item x m) (next i rs).
Proof.
  intros Hs (Hi & Hf & Ha & Hx) Ho Hc Hrs Hm. rewrite (run_item_eq i) by simple_item.
  pose proof (straight_defines i Hs) as Hd. pose proof Hs as (_ & _ & Hty & _).
  assert (∃ w, i_ty i = TInt w) as [w Hw].
  { destruct Hs as (_ & _ & _ & H). destruct (i_kind i); try done; destruct_and?; naive_solver. }
  rewrite Hw in Hty. destruct (union_of i) as [[[a b] op] size] eqn:Hu.
  destruct (union_op_free _ _ _ _ _ Hs Hu) as [Hop Hmc].
  destruct Hx as (s1 & s2 & Hs1 & Hs2 & Hx).
  destruct (value_of m a) as [n1|] eqn:Hn1, (opt_value m b) as [n2|] eqn:Hn2.
  2-4: pose proof (operand_missing _ m _ _ _ _ Hs Hu ltac:(rewrite Hn1, Hn2; auto)) as Hnone;
    pose proof (next_none i m m2 rs Hd Hrs Hm Hnone) as Hnext;
    destruct Hx as [(_ & _ & _ & ->)|(d & _ & ->)]; cbn [for_each]; unfold mbind at 1, M_bind at 1;
    [cbn [mret M_ret]; rewrite (proj2 Hd), Hnone
    |unfold mbind at 1, M_bind at 1; rewrite union_emit_run, Hn1, ?Hn2]; by right; right.
  destruct (straight_sem _ _ _ Hc _ _ _ _ _ _ _ _ _ Hs Hu Hs1 Hs2 Hn1 Hn2)
    as (Hr1 & Hr2 & n & f & Hn & Hfi & Hfj & Hz & Hwp).
  unfold width_of in Hz, Hwp. rewrite Hw in Hz, Hwp. cbn [int_width] in Hz, Hwp.
  destruct Hx as [(-> & -> & Hid & ->)|(d & Hid & ->)]; cbn [for_each]; unfold mbind at 1, M_bind at 1.
  - cbn [mret M_ret]. replace m with (set_shadows (mc_shadows m) (set_rt (mc_rt m) m)) at 1 by by destruct m.
    eapply define_agrees; [done..|split; apply Hc|done|by left| |by intros j mj r Hj _; apply Hfj].
    intros r Hr. rewrite (Hn r Hr). split; [done|by apply Hz].
  - unfold mbind at 1, M_bind at 1. rewrite union_emit_run, Hn1, Hn2.
    replace (r_union _ _ _ _ _ _ (mc_rt m)) with
      (r_union (label_of m s1) (label_of m s2) op size n1 n2 (mc_rt m))
      by (f_equal; [by rewrite wrap_small|destruct b; [by rewrite wrap_small|done]]).
    pose proof (union_free (label_of m s1) (label_of m s2) op size n1 n2 Hop Hmc (mc_rt m)
                  (conj (cs_wf _ _ _ Hc) (cs_free _ _ _ Hc))) as Hfree.
    unfold wpd in Hwp. destruct (r_union _ _ _ _ _ _ (mc_rt m)) as [l s'|e s'|h s']; [|done|by right; left].
    destruct Hwp as (Hwf' & Hg & Hsym). cbn [mret M_ret].
    eapply define_agrees; [done..|by apply still_grew|right; by exists d, l| |by intros j mj r Hj _; apply Hfj].
    intros r Hr. rewrite (Hn r Hr). split; [done|]. simpl. by rewrite lookup_insert_eq.
Qed.

(** ** Branches

    Tracing a condition changes no label's meaning. *)
Lemma consistent_steady t m s' rs :
  consistent t m rs → steady (mc_rt m) s' → consistent t (set_rt s' m) rs.
Proof.
  intros Hc [[Hwf' Hf'] Hst]. pose proof Hst as (Hk & _ & Hmem). split; [done|done| | |by etrans; [apply Hc|]].
  - intros v s w n Hv Hh Ht Hn.
    replace (value_of (set_rt s' m) v) with (value_of m v) in Hn by by destruct v.
    replace (label_of (set_rt s' m) s) with (label_of m s) by by destruct s.
    destruct (cs_vals _ _ _ Hc v s w n Hv Hh Ht Hn) as (f & Hf & Hi & Hj). exists f. split_and!; [|done|done].
    by apply (symb_kept (mc_rt m)); [apply Hc|..].
  - apply (mem_symb_kept (mc_rt m) _ _ (λ j, mem_of <$> rs j)); [apply Hc|done|done|apply Hc].
Qed.
Lemma consistent_free t m rs : consistent t m rs → rt_free (mc_rt m).
Proof. intros Hc. split; apply Hc. Qed.
Lemma consistent_settled t m s' rs :
  consistent t m rs → settled (mc_rt m) s' → consistent t (set_rt s' m) rs.
Proof.
  intros Hc Hs. apply consistent_steady; [done|]. eapply steady_settled; [|exact Hs].
  by eapply steady_refl, consistent_free.
Qed.
(** The values after tracing. *)
Lemma steady_values m m2 s' : same_values m m2 → steady (mc_rt m) s' → same_values (set_rt s' m) m2.
Proof.
  intros (H1 & H2 & H3) [_ (_ & _ & Hm)]. split_and!; [done|done|]. transitivity (mem_of m); [exact H3|].
  by symmetry.
Qed.
Lemma label_bound t m rs w v s n :
  consistent t m rs → operand_ok w v → has native t v s → value_of m v = Some n →
  0 ≤ label_of m s ≤ last_label (rt_labels (mc_rt m)).
Proof.
  intros Hc Hop Hh Hn. destruct (operand_symb _ _ _ _ _ _ _ Hc Hop Hh Hn) as (f & Hsym & _).
  destruct (symb_label _ _ _ _ _ (cs_wf _ _ _ Hc) Hsym). lia.
Qed.
Lemma trace_emit_run pc s c n m :
  value_of m c = Some n →
  run_emit pc (ETraceCond s c) m =
    match taint_trace_cond (label_of m s) n pc (mc_rt m) with
    | Ret _ s' => Ret () (set_rt s' m)
    | Throw e s' => Throw e (set_rt s' m)
    | Halt h s' => Halt h (set_rt s' m)
    end.
Proof.
  intros Hn. cbn [run_emit]. unfold label. rewrite bind_gets. pose proof (operand_run c m) as Hr.
  rewrite Hn in Hr. rewrite (bind_run _ _ _ _ _ Hr). unfold on_rt, zoom. by destruct (taint_trace_cond _ _ _ _) as [[] ?|? ?|? ?].
Qed.
(** The code that traces a condition: the runtime is settled, or the program
    stops. *)
Lemma trace_code_run pc s c n m :
  value_of m c = Some n → rt_wf (mc_rt m) → 0 ≤ label_of m s ≤ last_label (rt_labels (mc_rt m)) →
  match for_each (trace_code s c) (run_emit pc) m with
  | Ret _ m' => ∃ s', m' = set_rt s' m ∧ settled (mc_rt m) s'
  | _ => True
  end.
Proof.
  intros Hn Hwf Hl. unfold trace_code. case_decide.
  { exists (mc_rt m). split; [by destruct m|by apply settled_refl]. }
  cbn [for_each]. unfold mbind, M_bind. rewrite (trace_emit_run _ _ _ n) by done.
  pose proof (settled_trace_cond (mc_rt m) (label_of m s) n pc Hl (mc_rt m) (settled_refl _ Hwf)) as Hst.
  destruct (taint_trace_cond _ _ _ _) as [[] s'|e s'|h s']; [|done|done]. by exists s'.
Qed.
Lemma branch_plain i m : branch i → run_inst i m = Ret () m.
Proof. intros [_ H]. unfold run_inst. by destruct (i_kind i). Qed.
Lemma branch_next i rs m : branch i → rs inp = Some m → ∀ j, next i rs j = rs j.
Proof.
  intros Hb Hm j. unfold next, plain. rewrite simple_no_call, Hm by tauto.
  destruct (rs j) as [mj|]; [|done]. cbn [mbind option_bind].
  rewrite branch_plain by done. pose proof Hb as [_ H]. unfold choice. destruct (i_kind i); try done.
Qed.
(** A traced branch. *)
Lemma branch_run i x c s n m :
  branch i → it_inst x = i → it_fate x = Kept → it_after x = [] → it_before x = [ETraceCond s c] →
  value_of m c = Some n →
  run_item x m =
    match taint_trace_cond (label_of m s) n (i_id i) (mc_rt m) with
    | Ret _ s' => Ret () (set_rt s' m)
    | Throw e s' => Throw e (set_rt s' m)
    | Halt h s' => Halt h (set_rt s' m)
    end.
Proof.
  intros Hb Hi Hf Ha Hx Hn. rewrite (run_item_eq i), Hx by simple_item. cbn [for_each].
  unfold mbind, M_bind. rewrite (trace_emit_run _ _ _ n) by done.
  destruct (taint_trace_cond _ _ _ _) as [[] s'|e s'|h s']; [|done|done].
  cbn [mret M_ret]. by rewrite branch_plain.
Qed.
Lemma branch_item t i x m m2 rs :
  branch i → branch_ok native t i x → consistent t m rs → rs inp = Some m2 → same_values m m2 →
  run_agrees True t (run_item x m) (next i rs).
Proof.
  intros Hb Hx Hc Hrs Hm. apply (run_agrees_ext _ _ _ rs); [by apply (branch_next _ _ m2)|].
  pose proof Hx as (Hi & Hf & Ha & Hcode). pose proof Hb as [_ Hop]. rewrite (run_item_eq i) by simple_item.
  destruct (i_kind i) as [| | |[c|]| | | | | | | | | | | | |] eqn:Hk; try done.
  - destruct Hcode as (s & Hh & ->). unfold mbind, M_bind. destruct (value_of m c) as [n|] eqn:Hn.
    + pose proof (label_bound _ _ _ _ _ _ _ Hc Hop Hh Hn) as Hl.
      pose proof (trace_code_run (i_id i) s c n m Hn (cs_wf _ _ _ Hc) Hl) as Hrun.
      destruct (for_each _ _ m) as [[] m'|e m'|h m']; [|by left|by left]. destruct Hrun as (s' & -> & Hst).
      rewrite branch_plain by done. split; [by apply consistent_settled|]. exists m2. split; [done|].
      apply steady_values; [done|]. eapply steady_settled; [by eapply steady_refl, consistent_free|done].
    + unfold trace_code. case_decide.
      { cbn [for_each mret M_ret]. rewrite branch_plain by done. split; [done|by exists m2]. }
      cbn [for_each]. unfold mbind, M_bind. cbn [run_emit]. unfold label. rewrite bind_gets.
      unfold mbind, M_bind. rewrite operand_run, Hn. by left.
  - rewrite Hcode. cbn [for_each]. unfold mbind, M_bind. cbn [mret M_ret]. rewrite branch_plain by done.
    split; [done|by exists m2].
Qed.

(** Switches. *)
Lemma idle_next i rs m :
  is_call i = false → (∀ m', run_inst i m' = Ret () m') → (∀ m', choice i m' = []) → rs inp = Some m → ∀ j, next i rs j = rs j.
Proof.
  intros Hn Hr Hch Hm j. unfold next, plain. rewrite Hn, Hm. destruct (rs j) as [mj|]; [|done]. cbn [mbind option_bind].
  by rewrite !Hch, decide_True, Hr.
Qed.
Lemma case_trace_run pc s c k m :
  rt_free (mc_rt m) →
  match run_emit pc (case_trace s c k) m with
  | Ret _ m' => ∃ s', m' = set_rt s' m ∧ steady (mc_rt m) s'
  | _ => True
  end.
Proof.
  intros Hf. unfold case_trace. cbn [run_emit]. unfold label. rewrite !bind_gets.
  pose proof (operand64_run (Some c) m) as Hc. cbn [opt_value to_int64] in Hc.
  destruct (value_of m c) as [n|]; [|by rewrite (bind_halt _ _ _ _ _ Hc)]. rewrite (bind_run _ _ _ _ _ Hc).
  set (size := type_size_in_bits (type_of c)). pose proof (operand64_run (Some (VConst size k)) m) as Hk.
  cbn [opt_value to_int64 value_of] in Hk. rewrite (bind_run _ _ _ _ _ Hk). unfold on_rt, zoom.
  pose proof (steady_trace_cmp (mc_rt m) (label_of m s) (label_of m ZeroShadow) (u32 size) icmp_eq (wrap 64 n) (wrap 64 k) pc
    ltac:(done) (mc_rt m) (steady_refl _ Hf)) as Hst.
  destruct (taint_trace_cmp _ _ _ _ _ _ _ _) as [[] s'|e s'|h s']; [|done|done]. by exists s'.
Qed.
Lemma case_traces_run pc s c cases m :
  rt_free (mc_rt m) →
  match for_each (case_trace s c <$> cases) (run_emit pc) m with
  | Ret _ m' => ∃ s', m' = set_rt s' m ∧ steady (mc_rt m) s'
  | _ => True
  end.
Proof.
  revert m. induction cases as [|k cases IH]; intros m Hf; cbn [fmap list_fmap for_each].
  { exists (mc_rt m). split; [by destruct m|by apply steady_refl]. }
  pose proof (case_trace_run pc s c k m Hf) as H. unfold mbind, M_bind.
  destruct (run_emit pc (case_trace s c k) m) as [[] m1|e m1|h m1]; [|done|done].
  destruct H as (s1 & -> & [Hf1 Hst1]). specialize (IH (set_rt s1 m) Hf1).
  destruct (for_each _ _ (set_rt s1 m)) as [[] m2|e m2|h m2]; [|done|done].
  destruct IH as (s2 & -> & [Hf2 Hst2]). exists s2. split; [done|]. split; [done|].
  destruct Hst1 as (Hk1 & Hs1 & Hm1), Hst2 as (Hk2 & Hs2 & Hm2).
  split_and!; [by etrans|by rewrite Hs2|by rewrite Hm2].
Qed.
Lemma switch_item t i x m m2 rs :
  switch i → switch_ok native t i x → consistent t m rs → rs inp = Some m2 → same_values m m2 →
  run_agrees True t (run_item x m) (next i rs).
Proof.
  intros Hsw (Hi & Hf & Ha & Hx) Hc Hrs Hm. rewrite (run_item_eq i) by simple_item. destruct Hsw as [_ H].
  destruct (i_kind i) as [| | | |c cases| | | | | | | | | | | |] eqn:Hk; try done.
  assert (∀ m', run_inst i m' = Ret () m') as Hrun by (intros m'; unfold run_inst; by rewrite Hk).
  apply (run_agrees_ext _ _ _ rs).
  { apply (idle_next i rs m2); [simple_item|done| |done]. intros m'. unfold choice. by rewrite Hk. }
  destruct Hx as (s & Hh & ->). pose proof (consistent_free _ _ _ Hc) as Hfree. unfold mbind, M_bind. case_decide.
  { cbn [for_each mret M_ret]. rewrite Hrun. split; [done|]. by exists m2. }
  pose proof (case_traces_run (i_id i) s c cases m Hfree) as Hst.
  destruct (for_each _ _ m) as [[] m'|e m'|h m']; [|by left|by left]. destruct Hst as (s' & -> & Hst).
  rewrite Hrun. split; [by apply consistent_steady|]. exists m2. split; [done|]. by apply steady_values.
Qed.

(** ** Returns

    The label of the result is left for the caller. *)
Lemma consistent_retval t m rs l : consistent t m rs → consistent t (set_retval l m) rs.
Proof.
  intros [H1 H2 H3 H4 H5]. split; [done|done| |done|done]. intros v s w n Hv Hh Ht Hn.
  replace (value_of (set_retval l m) v) with (value_of m v) in Hn by by destruct v.
  replace (label_of (set_retval l m) s) with (label_of m s) by by destruct s. by apply H3.
Qed.
Lemma ret_plain i m : ret i → run_inst i m = Ret () m.
Proof. unfold ret, run_inst. by destruct (i_kind i). Qed.
Lemma ret_run t i x m :
  ret i → ret_ok native t i x →
  ∃ l, run_item x m = Ret () (set_retval l m) ∧
    match i_kind i with
    | IReturn (Some v) => native = false → ∃ s, has native t v s ∧ l = label_of m s
    | _ => True
    end.
Proof.
  intros Hr (Hi & Hf & Ha & Hx). rewrite (run_item_eq i) by simple_item.
  assert (it_before x = [] → ∃ l, (for_each (it_before x) (run_emit (i_id i)) ;; run_inst i) m = Ret () (set_retval l m)) as Hnil.
  { intros ->. exists (mc_retval m). rewrite (bind_run _ _ m () m) by done. rewrite ret_plain by done. by destruct m. }
  destruct (i_kind i) as [| | | | | | | |[v|]| | | | | | | |] eqn:Hk; try (by destruct (Hnil Hx) as [l Hl]; exists l).
  destruct native; [by destruct (Hnil Hx) as [l Hl]; exists l|]. destruct Hx as (s & Hs & ->).
  exists (label_of m s). split; [|intros _; by exists s].
  rewrite (bind_run _ _ m () (set_retval (label_of m s) m)) by done. by apply ret_plain.
Qed.
Lemma ret_item t i x m m2 rs :
  ret i → ret_ok native t i x → consistent t m rs → rs inp = Some m2 → same_values m m2 →
  run_agrees False t (run_item x m) (next i rs).
Proof.
  intros Hr Hx Hc Hrs Hm. apply (run_agrees_ext _ _ _ rs).
  { apply (idle_next i rs m2); [simple_item|by intros m'; apply ret_plain| |done]. intros m'. unfold ret in Hr. unfold choice.
    by destruct (i_kind i). }
  destruct (ret_run t i x m Hr Hx) as (l & -> & _). split; [by apply consistent_retval|]. by exists m2.
Qed.

(** ** Loads

    What a load or store meets where the runtime gets its labels right. *)
Definition clean_step (x : item) (m : mach) : Prop :=
  let i := it_inst x in
  match i_kind i with
  | ILoad p =>
      ∀ a, value_of m p = Some a →
        let n := type_store_size (i_ty i) in
        app_range a n ∧ clean_load (mc_rt m) a n ∧
        (constant_objects p = true → ∀ k, 0 ≤ k < n → label_at (mc_rt m) (a + k) = 0)
  | IStore v p =>
      ∀ a, value_of m p = Some a →
        let n := type_store_size (type_of v) in
        app_range a n ∧
        ∀ s, it_before x = [EShadowAddr p; EUnionStore s p n] → clean_store (mc_rt m) (label_of m s) n
  | IMemSet d _ l =>
      ∀ a n, value_of m d = Some a → value_of m l = Some n →
        app_range a n ∧ 0 ≤ n ∧ ∀ s, it_before x = [ESetLabel s d l] → byte_label (mc_rt m) (label_of m s)
  | IMemTransfer d a l =>
      ∀ x y n, value_of m d = Some x → value_of m a = Some y → value_of m l = Some n →
        app_range x n ∧ app_range y n ∧ in_range (int_width (type_of l)) (n * 4)
  | ICall _ _ _ _ => ∀ m', for_each (it_before x) (run_emit (i_id i)) m = Ret () m' → callee_clean i m'
  | _ => True
  end.

Lemma inserted_address a : getShadowAddress x86_mask a = shadow_for a.
Proof. unfold getShadowAddress, shadow_for. by rewrite Z.shiftl_mul_pow2. Qed.
Lemma shadow_address_run p m :
  shadow_address p m =
    match value_of m p with Some a => Ret (shadow_for a) m | None => Halt (HTerminate undefined) m end.
Proof.
  unfold shadow_address. pose proof (operand_run p m) as Hp.
  destruct (value_of m p) as [a|]; [|by rewrite (bind_halt _ _ _ _ _ Hp)].
  by rewrite (bind_run _ _ _ _ _ Hp), inserted_address.
Qed.
Lemma load_emit_run pc d p n m :
  run_emit pc (EUnionLoad d p n) m =
    match value_of m p with
    | Some a =>
        match taint_union_load (shadow_for a) n (mc_rt m) with
        | Ret l s' => Ret () (set_shadows (<[d := l]> (mc_shadows m)) (set_rt s' m))
        | Throw e s' => Throw e (set_rt s' m)
        | Halt h s' => Halt h (set_rt s' m)
        end
    | None => Halt (HTerminate undefined) m
    end.
Proof.
  cbn [run_emit]. pose proof (shadow_address_run p m) as Hp.
  destruct (value_of m p) as [a|]; [|by rewrite (bind_halt _ _ _ _ _ Hp)].
  rewrite (bind_run _ _ _ _ _ Hp). unfold mbind, M_bind, on_rt, zoom. by destruct (taint_union_load _ _ _).
Qed.
Lemma access_code_run pc p e m : for_each [EShadowAddr p; e] (run_emit pc) m = run_emit pc e m.
Proof.
  change (for_each [EShadowAddr p; e] (run_emit pc) m) with ((run_emit pc e ≫= λ _, mret ()) m).
  unfold mbind, M_bind. by destruct (run_emit pc e m) as [[] ?|? ?|? ?].
Qed.
Lemma accessed_bytes t m rs a n k :
  consistent t m rs → app_range a n → 0 ≤ k < n → byte_symb (mc_rt m) (a + k).
Proof. intros Hc [Hl Hh] Hk. destruct (cs_mem _ _ _ Hc (a + k)) as [? _]; [split; lia|done]. Qed.
Lemma load_value i p n m :
  i_kind i = ILoad p → i_ty i = TInt (8 * n) → 1 ≤ n →
  inst_val i m = a ← value_of m p; Some (mem_value (mem_of m) a n).
Proof.
  intros Hk Hty Hn. unfold inst_val. rewrite Hk, Hty. cbn [int_width]. destruct (value_of m p) as [a|]; [|done].
  cbn [mbind option_bind]. cbv zeta. assert ((8 * n + 7) / 8 = n) as -> by (symmetry; apply (Z.div_unique _ 8 _ 7); lia).
  rewrite wrap_small; [done|]. apply mem_value_range. lia.
Qed.
Lemma load_item t i p x m m2 rs :
  access i → i_kind i = ILoad p → access_ok native t i x → clean_step x m → own t →
  consistent t m rs → rs inp = Some m2 → same_values m m2 →
  run_agrees False t (run_item x m) (next i rs).
Proof.
  intros (_ & _ & H) Hk (Hi & Hf & Ha & Hx) Hcl Ho Hc Hrs Hm. rewrite Hk in H, Hx.
  destruct H as (Hid & n & Hty & Hn). rewrite Hty in Hid. unfold clean_step in Hcl. rewrite Hi, Hk in Hcl.
  pose proof (load_defines i p Hk) as Hd. pose proof (λ m, load_value i p n m Hk Hty ltac:(lia)) as Hval.
  rewrite (run_item_eq i) by simple_item. rewrite Hty, store_size in Hcl, Hx by lia.
  destruct (value_of m p) as [a|] eqn:Hp.
  2:{ assert (inst_val i m = None) as Hnone by by rewrite Hval, Hp.
      pose proof (next_none i m m2 rs Hd Hrs Hm Hnone).
      destruct Hx as [(_ & _ & ->)|(d & _ & ->)]; unfold mbind, M_bind.
      - cbn [for_each mret M_ret]. rewrite (proj2 Hd), Hnone. by right; right.
      - rewrite access_code_run, load_emit_run, Hp. by right; right. }
  specialize (Hcl a eq_refl). destruct Hcl as (Hrange & Hclean & Hconst).
  assert (∀ j mj r, rs j = Some mj → choice i mj = choice i m → inst_val i mj = Some r →
            r = load_fun (mc_rt m) a n j) as Hfj.
  { intros j mj r Hj Hch. unfold choice in Hch. rewrite Hk, Hp in Hch. injection Hch as Hch. rewrite Hval, Hch. intros [= <-].
    eapply (mem_symb_load _ _ _ _ _ _ _ (cs_mem _ _ _ Hc) Hrange). by rewrite Hj. }
  assert (load_fun (mc_rt m) a n inp = mem_value (mem_of m) a n) as Hfi
    by exact (mem_symb_here _ _ _ _ _ (cs_mem _ _ _ Hc) Hrange).
  destruct Hx as [(Hco & Hz & ->)|(d & Hd' & ->)]; unfold mbind, M_bind.
  - cbn [for_each mret M_ret]. replace m with (set_shadows (mc_shadows m) (set_rt (mc_rt m) m)) at 1 by by destruct m.
    eapply define_agrees; [done..|split; apply Hc|done|by left| |exact Hfj].
    intros r. rewrite Hval, Hp. intros [= <-]. split; [done|]. apply zero_load; [lia|auto].
  - rewrite access_code_run, load_emit_run, Hp.
    pose proof (load_symb (mc_rt m) a n (cs_wf _ _ _ Hc) Hn Hrange
                  (λ k Hk, accessed_bytes _ _ _ _ _ _ Hc Hrange Hk) Hclean) as Hwp.
    pose proof (load_free (shadow_for a) n (mc_rt m) (conj (cs_wf _ _ _ Hc) (cs_free _ _ _ Hc))) as Hfree.
    unfold wpd in Hwp. destruct (taint_union_load _ _ _) as [l s'|e s'|h s']; [|done|by right; left].
    destruct Hwp as (Hwf' & Hg & Hsym).
    eapply define_agrees; [done..|by apply still_grew|right; by exists d, l| |exact Hfj].
    intros r. rewrite Hval, Hp. intros [= <-]. split; [done|]. simpl. by rewrite lookup_insert_eq.
Qed.

(** ** Stores *)

(** An instruction that changes memory and shadow, and nothing else. *)
Definition writes (i : inst) (rs : input → option mach) : Prop :=
  ∀ j mj, next i rs j = Some mj → ∃ m0 g, rs j = Some m0 ∧ mj = set_rt (set_mem g (mc_rt m0)) m0.
Lemma consistent_writes t i m s' rs :
  writes i rs → consistent t m rs → rt_free s' → rt_kept (mc_rt m) s' →
  mem_symb s' inp (λ j, mem_of <$> next i rs j) → consistent t (set_rt s' m) (next i rs).
Proof.
  intros Hw Hc Hf Hk Hmem. split; [apply Hf|apply Hf| |done|by etrans; [apply Hc|]].
  intros v s w n Hv Hh Ht Hn.
  replace (value_of (set_rt s' m) v) with (value_of m v) in Hn by by destruct v.
  replace (label_of (set_rt s' m) s) with (label_of m s) by by destruct s.
  destruct (cs_vals _ _ _ Hc v s w n Hv Hh Ht Hn) as (f & Hfs & Hi & Hj). exists f.
  split_and!; [by apply (symb_moved (mc_rt m)); [apply Hc|..]|done|].
  intros j mj (m0 & g & Hr & ->)%Hw. rewrite <-(Hj j m0 Hr). by destruct v.
Qed.
Lemma writes_agrees P t i m m2 s' g rs :
  writes i rs → consistent t m rs → rs inp = Some m2 → same_values m m2 → rt_free s' → rt_kept (mc_rt m) s' →
  mem_symb s' inp (λ j, mem_of <$> next i rs j) → rt_mem s' = g →
  plain i m2 = Some (set_rt (set_mem g (mc_rt m2)) m2) →
  run_agrees P t (Ret () (set_rt s' m)) (next i rs).
Proof.
  intros Hw Hc Hrs (H1 & H2 & _) Hf Hk Hmem Hg Hp. split; [by apply consistent_writes|].
  eexists. split; [by rewrite (next_inp _ _ _ Hrs)|]. split_and!; [done|done|]. exact (eq_sym Hg).
Qed.
Lemma next_some i rs j mj m m2 :
  is_call i = false → rs inp = Some m2 → same_values m m2 → next i rs j = Some mj →
  ∃ m0, rs j = Some m0 ∧ choice i m0 = choice i m ∧ run_inst i m0 = Ret () mj.
Proof.
  intros Hn Hm2 Hm. unfold next, plain. rewrite Hn, Hm2. destruct (rs j) as [m0|]; [|done]. cbn [mbind option_bind].
  rewrite (choice_same i m m2) by done. case_decide as Hch; [|done].
  destruct (run_inst i m0) as [[] m'| |] eqn:Hr; [|done..]. intros [= <-]. by exists m0.
Qed.

Lemma store_inst_run i v p n m :
  i_kind i = IStore v p → type_of v = TInt (8 * n) → 1 ≤ n →
  run_inst i m =
    match value_of m p, value_of m v with
    | Some a, Some x => Ret () (set_rt (set_mem (store_bytes (mem_of m) a (value_bytes x n)) (mc_rt m)) m)
    | _, _ => Halt (HTerminate undefined) m
    end.
Proof.
  intros Hk Hty Hn. unfold run_inst. rewrite Hk, Hty. cbn [int_width].
  pose proof (operand_run p m) as Hp. destruct (value_of m p) as [a|]; [|by rewrite (bind_halt _ _ _ _ _ Hp)].
  rewrite (bind_run _ _ _ _ _ Hp). pose proof (operand_run v m) as Hv.
  destruct (value_of m v) as [x|]; [|by rewrite (bind_halt _ _ _ _ _ Hv)]. rewrite (bind_run _ _ _ _ _ Hv).
  by assert ((8 * n + 7) / 8 = n) as -> by (symmetry; apply (Z.div_unique _ 8 _ 7); lia).
Qed.
Definition store_code (s : shadow) (p : val) (n : Z) : emit :=
  if decide (s = ZeroShadow) then EZeroStore p n else EUnionStore s p n.
Lemma store_code_none pc s p n m :
  value_of m p = None → run_emit pc (store_code s p n) m = Halt (HTerminate undefined) m.
Proof.
  intros Hp. pose proof (shadow_address_run p m) as Ha. rewrite Hp in Ha.
  unfold store_code. case_decide; cbn [run_emit]; unfold label; rewrite ?bind_gets; by rewrite (bind_halt _ _ _ _ _ Ha).
Qed.
(** What the inserted code has the runtime do. *)
Definition store_labels_at (zero : bool) (l ls n : Z) : M rt () :=
  if zero then for_each (range 0 n) (λ i, shadow_put ls i 0) else taint_union_store l ls n.
Lemma store_code_run pc s p n m a :
  value_of m p = Some a →
  run_emit pc (store_code s p n) m =
    on_rt (store_labels_at (bool_decide (s = ZeroShadow)) (label_of m s) (shadow_for a) n) m.
Proof.
  intros Hp. pose proof (shadow_address_run p m) as Ha. rewrite Hp in Ha.
  unfold store_code. case_decide; [rewrite bool_decide_true by done|rewrite bool_decide_false by done];
    cbn [run_emit]; unfold label; rewrite ?bind_gets; by rewrite (bind_run _ _ _ _ _ Ha).
Qed.
Lemma store_runtime s ls n l x f zero :
  rt_free s → 1 ≤ n ≤ 8 → symb s (8 * n) l x f → (zero = true → l = 0) → (zero = false → clean_store s l n) →
  wpd (store_labels_at zero l ls n)
    (λ _ s', rt_free s' ∧ store_post s ls n x f s') s.
Proof.
  intros Hf Hn Hs Hz Hc. unfold store_labels_at. destruct zero.
  - specialize (Hz eq_refl) as ->. pose proof (zero_store s ls n ltac:(lia)) as Hw.
    unfold wp, wpd in *. destruct (for_each _ _ s) as [[] s'| |]; [|done|done]. pose proof Hw as (Hw1 & _).
    split; [unfold rt_free, rt_wf; by rewrite Hw1|]. eapply slots_stored; [apply Hf| |exact Hw]. intros k _.
    left. split; [done|]. intros j. by apply (symb_const _ _ _ _ _ j Hs).
  - pose proof (store_symb s ls n l x f (proj1 Hf) Hn Hs (Hc eq_refl)) as Hw.
    pose proof (store_free l ls n s Hf) as Hfree. unfold wpd in *.
    by destruct (taint_union_store _ _ _ _) as [[] s'| |].
Qed.
Lemma next_store i v p n rs j mj m m2 :
  i_kind i = IStore v p → type_of v = TInt (8 * n) → 1 ≤ n → rs inp = Some m2 → same_values m m2 →
  next i rs j = Some mj →
  ∃ m0 a x, rs j = Some m0 ∧ value_of m p = Some a ∧ value_of m0 v = Some x ∧
    mj = set_rt (set_mem (store_bytes (mem_of m0) a (value_bytes x n)) (mc_rt m0)) m0.
Proof.
  intros Hk Hty Hn Hm2 Hm Hj. destruct (next_some i _ _ _ _ _ ltac:(simple_item) Hm2 Hm Hj) as (m0 & Hr & Hch & Hrun).
  unfold choice in Hch. rewrite Hk in Hch. injection Hch as Hch. rewrite (store_inst_run i v p n), Hch in Hrun by done.
  destruct (value_of m p) as [a|]; [|done]. destruct (value_of m0 v) as [x|] eqn:Hx; [|done].
  injection Hrun as <-. by exists m0, a, x.
Qed.
Lemma consistent_store t i v p n a x f s' m m2 rs :
  i_kind i = IStore v p → type_of v = TInt (8 * n) → 1 ≤ n → rs inp = Some m2 → same_values m m2 →
  consistent t m rs → value_of m p = Some a → app_range a n → f inp = x →
  (∀ j mj, rs j = Some mj → value_of mj v = Some (f j)) →
  rt_free s' → store_post (mc_rt m) (shadow_for a) n x f s' →
  consistent t (set_rt (set_mem (store_bytes (mem_of m) a (value_bytes x n)) s') m) (next i rs).
Proof.
  intros Hk Hty Hn Hm2 Hm Hc Hp Ha Hfi Hfj Hf' Hst. pose proof Hst as (_ & Hkept & _ & _).
  apply consistent_writes; [|done|exact Hf'|exact Hkept|].
  - intros j mj Hj. destruct (next_store _ _ _ _ _ _ _ _ _ Hk Hty Hn Hm2 Hm Hj) as (m0 & a' & x' & Hj0 & _ & _ & ->). eauto.
  - eapply (mem_symb_store (mc_rt m)); [apply Hc|apply Hf'|done|lia|done|done|apply (cs_mem _ _ _ Hc)|].
    intros j mem'. cbv beta. destruct (next i rs j) as [mj|] eqn:Hj; [|done]. intros [= <-].
    destruct (next_store _ _ _ _ _ _ _ _ _ Hk Hty Hn Hm2 Hm Hj) as (m0 & a' & x' & Hj0 & Hp' & Hx & ->).
    rewrite Hp in Hp'. injection Hp' as <-. exists (mem_of m0). rewrite Hj0. split; [done|].
    rewrite (Hfj j m0 Hj0) in Hx. by injection Hx as <-.
Qed.
Lemma store_item t i v p x m m2 rs :
  access i → i_kind i = IStore v p → access_ok native t i x → clean_step x m →
  consistent t m rs → rs inp = Some m2 → same_values m m2 →
  run_agrees False t (run_item x m) (next i rs).
Proof.
  intros (_ & _ & H) Hk (Hi & Hf & Ha & Hx) Hcl Hc Hrs Hm. rewrite Hk in H, Hx.
  destruct H as (n & Hop & Hn). pose proof Hop as [Hty _]. unfold clean_step in Hcl. rewrite Hi, Hk in Hcl.
  rewrite Hty, store_size in Hcl, Hx by lia. destruct Hx as (s & Hs & Hx).
  pose proof (next_inp i rs m2 Hrs) as Hnext. unfold plain in Hnext.
  rewrite (store_inst_run i v p n), !(value_of_same m m2) in Hnext by (done || lia).
  rewrite (run_item_eq i), Hx by simple_item. fold (store_code s p n). unfold mbind, M_bind. rewrite access_code_run.
  destruct (value_of m p) as [a|] eqn:Hp; [|rewrite store_code_none by done; by right; right].
  rewrite (store_code_run _ _ _ _ _ a) by done. unfold on_rt, zoom.
  destruct (value_of m v) as [y|] eqn:Hv.
  2:{ destruct (store_labels_at _ _ _ _ (mc_rt m)) as [[] s'|e s'|h s']; [|by right|by right; right].
      rewrite (store_inst_run i v p n) by (done || lia).
      replace (value_of (set_rt s' m) v) with (value_of m v) by by destruct v. rewrite Hv.
      destruct (value_of (set_rt s' m) p); by right; right. }
  destruct (operand_symb _ _ _ _ _ _ _ Hc Hop Hs Hv) as (f & Hsym & Hfi & Hfj).
  destruct (Hcl a eq_refl) as [Hrange Hclean].
  pose proof (store_runtime (mc_rt m) (shadow_for a) n (label_of m s) y f (bool_decide (s = ZeroShadow))
    (conj (cs_wf _ _ _ Hc) (cs_free _ _ _ Hc)) Hn Hsym) as Hw.
  specialize (Hw ltac:(by intros ->%bool_decide_eq_true)).
  specialize (Hw ltac:(intros Hz%bool_decide_eq_false; apply Hclean; by rewrite decide_False in Hx by done)).
  unfold wpd in Hw. destruct (store_labels_at _ _ _ _ (mc_rt m)) as [[] s'|e s'|h s']; [|done|by right; left].
  destruct Hw as [Hfree Hst].
  rewrite (store_inst_run i v p n) by (done || lia).
  replace (value_of (set_rt s' m) v) with (value_of m v) by by destruct v.
  replace (value_of (set_rt s' m) p) with (value_of m p) by by destruct p.
  rewrite Hv, Hp. assert (mem_of (set_rt s' m) = mem_of m) as -> by (destruct Hst as (_ & _ & -> & _); done).
  split; [by eapply (consistent_store t i v p n a y f s' m m2); try done; lia|].
  eexists. split; [exact Hnext|]. destruct Hm as (H1 & H2 & H3). split_and!; [done|done|].
  change (store_bytes (mem_of m2) a (value_bytes y n) = store_bytes (mem_of m) a (value_bytes y n)). by rewrite H3.
Qed.

(** ** Selects *)
Lemma select_emit_run pc d c sa sb n m :
  value_of m c = Some n →
  run_emit pc (ESelect d c sa sb) m =
    Ret () (set_shadows (<[d := label_of m (if n =? 1 then sa else sb)]> (mc_shadows m)) m).
Proof.
  intros Hn. cbn [run_emit]. pose proof (operand_run c m) as Hr. rewrite Hn in Hr.
  by rewrite (bind_run _ _ _ _ _ Hr).
Qed.
(** What is inserted before a select: its label, then the trace of the
    condition. *)
Lemma select_code_run t i c a b x m rs n :
  select i → i_kind i = ISelect c a b → select_ok native t i x → own t → consistent t m rs →
  value_of m c = Some n →
  let chosen := if n =? 1 then a else b in
  match for_each (it_before x) (run_emit (i_id i)) m with
  | Ret _ m' =>
      ∃ s sch sh s', m' = set_shadows sh (set_rt s' m) ∧ settled (mc_rt m) s' ∧
        tf_insts t !! i_id i = Some s ∧ has native t chosen sch ∧
        (sh = mc_shadows m ∨ ∃ d l, s = SVal d ∧ sh = <[d := l]> (mc_shadows m)) ∧
        label_of (set_shadows sh (set_rt s' m)) s = label_of m sch
  | _ => True
  end.
Proof.
  intros (Hni & _ & H) Hk (Hi & Hf & Ha & Hx) Ho Hc Hn chosen. rewrite Hk in Hni, H, Hx. cbn [operands] in Hni.
  destruct H as (Hopc & _ & w & _ & _ & Hopa & Hopb).
  destruct Hx as (sa & sb & sc & Hsa & Hsb & Hsc & Hx).
  pose proof (label_bound _ _ _ _ _ _ _ Hc Hopc Hsc Hn) as Hl.
  assert (has native t chosen (if n =? 1 then sa else sb)) as Hch by (unfold chosen; by destruct (n =? 1)).
  destruct Hx as [(<- & Hsv & Hid & ->)|(d & Hid & ->)].
  - pose proof (trace_code_run (i_id i) sc c n m Hn (cs_wf _ _ _ Hc) Hl) as Hrun.
    destruct (for_each _ _ m) as [[] m'|e m'|h m']; [|done|done]. destruct Hrun as (s' & -> & Hst).
    exists sa, sa, (mc_shadows m), s'. split_and!; try done; [|by left].
    by destruct (n =? 1).
  - cbn [for_each]. unfold mbind, M_bind. rewrite (select_emit_run _ _ _ _ _ n) by done.
    set (sh := <[d := _]> (mc_shadows m)).
    assert (label_of (set_shadows sh m) sc = label_of m sc) as Hlab.
    { destruct sc as [| |k]; try done. simpl. unfold sh. rewrite lookup_insert_ne; [done|]. intros <-.
      apply Hni. rewrite (own_has native t (VInst (i_id i)) c d Ho); [set_solver|done|done]. }
    pose proof (trace_code_run (i_id i) sc c n (set_shadows sh m) Hn (cs_wf _ _ _ Hc)) as Hrun.
    rewrite Hlab in Hrun. specialize (Hrun Hl).
    destruct (for_each _ _ (set_shadows sh m)) as [[] m'|e m'|h m']; [|done|done].
    destruct Hrun as (s' & -> & Hst).
    exists (SVal d), (if n =? 1 then sa else sb), sh, s'. split_and!; try done; [right; by eexists d, _|].
    simpl. unfold sh. by rewrite lookup_insert_eq.
Qed.
Lemma select_item t i x m m2 rs :
  select i → select_ok native t i x → own t → consistent t m rs → rs inp = Some m2 → same_values m m2 →
  run_agrees True t (run_item x m) (next i rs).
Proof.
  intros Hs Hx Ho Hc Hrs Hm. pose proof Hx as (Hi & Hf & Ha & _). pose proof (select_defines i Hs) as Hd.
  pose proof Hs as (_ & Hty & H). rewrite (run_item_eq i) by simple_item.
  destruct (i_kind i) as [| | | | | | | | | | | | |c a b| | |] eqn:Hk; try done.
  destruct H as (_ & _ & w & Hw & _ & Hopa & Hopb). rewrite Hw in Hty.
  assert (∀ o : outcome mach (), (∀ m', o ≠ Ret () m') → run_agrees True t o (next i rs)) as Hstop.
  { intros [[] m'|e m'|h m'] Hne; [by destruct (Hne m')|by left|by left]. }
  assert (∀ m', same_values m m' → inst_val i m = None →
            run_agrees True t (run_inst i m') (next i rs)) as Hnone.
  { intros m' Hm' Hr. apply Hstop. intros m3. by rewrite (proj2 Hd), (inst_val_same i m m'), Hr. }
  destruct (value_of m c) as [n|] eqn:Hn.
  2:{ apply Hstop. intros m'. destruct Hx as (_ & _ & _ & Hx). rewrite Hk in Hx.
      destruct Hx as (sa & sb & sc & _ & _ & _ & Hx).
      assert (inst_val i m = None) as Hr by (unfold inst_val; by rewrite Hk, Hn). unfold mbind, M_bind.
      pose proof (operand_run c m) as Hop. rewrite Hn in Hop.
      destruct Hx as [(_ & _ & _ & ->)|(d & _ & ->)]; [unfold trace_code; case_decide|]; cbn [for_each].
      - cbn [mret M_ret]. by rewrite (proj2 Hd), Hr.
      - unfold mbind, M_bind. cbn [run_emit]. unfold label. rewrite bind_gets.
        by rewrite (bind_halt _ _ _ _ _ Hop).
      - unfold mbind, M_bind. cbn [run_emit]. by rewrite (bind_halt _ _ _ _ _ Hop). }
  pose proof (select_code_run t i c a b x m rs n Hs Hk Hx Ho Hc Hn) as Hrun. cbv zeta in Hrun.
  unfold mbind, M_bind. destruct (for_each _ _ m) as [[] m1|e m1|h m1]; [|by left|by left].
  destruct Hrun as (s & sch & sh & s' & -> & Hst & Hid & Hch & Hsh & Hlab).
  pose proof (still_settled _ _ Hst) as Hstill.
  assert (∀ m0, value_of m0 c = Some n → inst_val i m0 = value_of m0 (if n =? 1 then a else b)) as Hval
    by (intros m0 H0; unfold inst_val; by rewrite Hk, H0).
  destruct (value_of m (if n =? 1 then a else b)) as [r|] eqn:Hr.
  2:{ apply Hnone; [split_and!; [done|done|apply Hstill]|by rewrite Hval]. }
  assert (operand_ok w (if n =? 1 then a else b)) as Hop by by destruct (n =? 1).
  destruct (operand_symb _ _ _ _ _ _ _ Hc Hop Hch Hr) as (f & Hsym & Hfi & Hfj).
  eapply define_agrees; [done..|split; [apply Hst|by eapply settled_free; [|apply Hc]]|done|done| |].
  - intros r'. rewrite Hval, Hr by done. intros [= <-]. split; [done|]. rewrite Hlab.
    apply (symb_kept (mc_rt m)); [apply Hc|apply Hstill|apply Hstill|done].
  - intros j mj r' Hj Hcj. unfold choice in Hcj. rewrite Hk, Hn in Hcj. injection Hcj as Hcj. rewrite Hval, (Hfj j mj Hj) by done.
    by intros [= <-].
Qed.

(** ** Address computations *)
Lemma trace_gep_run s l r :
  rt_wf s → 0 ≤ l ≤ last_label (rt_labels s) → taint_trace_gep l r s = Ret () s.
Proof.
  intros Hwf Hl. unfold taint_trace_gep. destruct (l =? 0); [done|].
  by rewrite (bind_run _ _ _ _ _ (is_flipped_run s l Hwf (proj2 Hl))).
Qed.
Lemma gep_emit_run pc s v m :
  rt_wf (mc_rt m) → (is_Some (value_of m v) → 0 ≤ label_of m s ≤ last_label (rt_labels (mc_rt m))) →
  run_emit pc (ETraceGep s (v, [CvZExtOrTrunc 64])) m =
    match value_of m v with Some _ => Ret () m | None => Halt (HTerminate undefined) m end.
Proof.
  intros Hwf Hl. cbn [run_emit]. unfold label. rewrite bind_gets.
  pose proof (operand64_run (Some v) m) as Hv. cbn [to_int64 opt_value] in Hv.
  destruct (value_of m v) as [n|]; [|by rewrite (bind_halt _ _ _ _ _ Hv)].
  rewrite (bind_run _ _ _ _ _ Hv). unfold on_rt, zoom. rewrite trace_gep_run by (done || by apply Hl).
  by destruct m.
Qed.
Lemma index_values_some m idx v : is_Some (index_values m idx) → v ∈ idx → is_Some (value_of m v).
Proof.
  induction idx as [|u idx IH]; simpl; [set_solver|]. intros [xs Hxs] Hv.
  destruct (value_of m u) as [y|] eqn:Hu; [|done]. cbn [mbind option_bind] in Hxs.
  destruct (index_values m idx) as [ys|]; [|done]. apply elem_of_cons in Hv as [->|Hv]; [by rewrite Hu|by apply IH].
Qed.
Lemma gep_code_run t m rs idx es pc :
  consistent t m rs → Forall (λ v, ∃ w, operand_ok w v) idx → Forall (index_trace native t idx) es →
  is_Some (index_values m idx) → for_each es (run_emit pc) m = Ret () m.
Proof.
  intros Hc Hops Hes Hidx. induction Hes as [|e es (s & v & -> & Hv & Hs) _ IH]; [done|]. cbn [for_each].
  destruct (index_values_some _ _ _ Hidx Hv) as [n Hn].
  destruct (proj1 (Forall_forall _ _) Hops v Hv) as [w Hop].
  unfold mbind, M_bind. rewrite gep_emit_run, Hn; [done|apply Hc|]. intros _. by eapply label_bound.
Qed.
(** Whatever the indices, the code only stops where an index is undefined. *)
Lemma gep_code_stops t m rs idx es pc :
  consistent t m rs → Forall (λ v, ∃ w, operand_ok w v) idx → Forall (index_trace native t idx) es →
  for_each es (run_emit pc) m = Ret () m ∨ for_each es (run_emit pc) m = Halt (HTerminate undefined) m.
Proof.
  intros Hc Hops Hes. induction Hes as [|e es (s & v & -> & Hv & Hs) _ IH]; [by left|]. cbn [for_each].
  destruct (proj1 (Forall_forall _ _) Hops v Hv) as [w Hop].
  unfold mbind, M_bind. rewrite gep_emit_run; [|apply Hc|intros [n Hn]; by eapply label_bound].
  destruct (value_of m v); [done|by right].
Qed.
Lemma gep_item t i x m m2 rs :
  gep i → gep_ok native t i x → own t → consistent t m rs → rs inp = Some m2 → same_values m m2 →
  run_agrees False t (run_item x m) (next i rs).
Proof.
  intros Hg (Hi & Hf & Ha & Hx) Ho Hc Hrs Hm. rewrite (run_item_eq i) by simple_item. destruct Hg as [Hty H].
  destruct (i_kind i) as [| | | | |p idx| | | | | | | | | | |] eqn:Hk; try done.
  pose proof (gep_defines i p idx Hk) as Hd. unfold mbind, M_bind.
  destruct (inst_val i m) as [r|] eqn:Hr.
  - assert (is_Some (index_values m idx)) as Hidx.
    { unfold inst_val in Hr. rewrite Hk in Hr. destruct (value_of m p); [|done]. cbn [mbind option_bind] in Hr.
      destruct (index_values m idx); [by eexists|done]. }
    rewrite (gep_code_run t m rs idx) by done. rewrite (proj2 Hd), Hr. split; [by eapply consistent_pointer|].
    eexists. split; [rewrite (next_inp _ _ _ Hrs); unfold plain; by rewrite (proj2 Hd), (inst_val_same i m m2), Hr|].
    destruct Hm as (H1 & H2 & H3). split_and!; [simpl; by rewrite H1|done|done].
  - pose proof (next_none i m m2 rs Hd Hrs Hm Hr).
    destruct (gep_code_stops t m rs idx (it_before x) (i_id i) Hc H Hx) as [->| ->]; [|by right; right].
    rewrite (proj2 Hd), Hr. by right; right.
Qed.

(** ** Memory set and moved *)
Lemma memset_inst_run i d v l m :
  i_kind i = IMemSet d v l →
  run_inst i m =
    match value_of m d, value_of m v, value_of m l with
    | Some a, Some x, Some n => Ret () (set_rt (set_mem (fill (mem_of m) a (u8 x) n) (mc_rt m)) m)
    | _, _, _ => Halt (HTerminate undefined) m
    end.
Proof.
  intros Hk. unfold run_inst. rewrite Hk.
  pose proof (operand_run d m) as Hd. destruct (value_of m d) as [a|]; [|by rewrite (bind_halt _ _ _ _ _ Hd)].
  rewrite (bind_run _ _ _ _ _ Hd). pose proof (operand_run v m) as Hv.
  destruct (value_of m v) as [x|]; [|by rewrite (bind_halt _ _ _ _ _ Hv)]. rewrite (bind_run _ _ _ _ _ Hv).
  pose proof (operand_run l m) as Hl. destruct (value_of m l) as [n|]; [|by rewrite (bind_halt _ _ _ _ _ Hl)].
  by rewrite (bind_run _ _ _ _ _ Hl).
Qed.
Lemma memmove_inst_run i d a l m :
  i_kind i = IMemTransfer d a l →
  run_inst i m =
    match value_of m d, value_of m a, value_of m l with
    | Some x, Some y, Some n => Ret () (set_rt (set_mem (move_cells 1 (mem_of m) x y n) (mc_rt m)) m)
    | _, _, _ => Halt (HTerminate undefined) m
    end.
Proof.
  intros Hk. unfold run_inst. rewrite Hk.
  pose proof (operand_run d m) as Hd. destruct (value_of m d) as [x|]; [|by rewrite (bind_halt _ _ _ _ _ Hd)].
  rewrite (bind_run _ _ _ _ _ Hd). pose proof (operand_run a m) as Ha.
  destruct (value_of m a) as [y|]; [|by rewrite (bind_halt _ _ _ _ _ Ha)]. rewrite (bind_run _ _ _ _ _ Ha).
  pose proof (operand_run l m) as Hl. destruct (value_of m l) as [n|]; [|by rewrite (bind_halt _ _ _ _ _ Hl)].
  by rewrite (bind_run _ _ _ _ _ Hl).
Qed.
Lemma set_label_emit_run pc s d l m :
  run_emit pc (ESetLabel s d l) m =
    match value_of m d, value_of m l with
    | Some a, Some n => on_rt (dfsan_set_label (label_of m s) a n) m
    | _, _ => Halt (HTerminate undefined) m
    end.
Proof.
  cbn [run_emit]. unfold label. rewrite bind_gets. pose proof (operand_run d m) as Hd.
  destruct (value_of m d) as [a|]; [|by rewrite (bind_halt _ _ _ _ _ Hd)]. rewrite (bind_run _ _ _ _ _ Hd).
  pose proof (operand_run l m) as Hl. destruct (value_of m l) as [n|]; [|by rewrite (bind_halt _ _ _ _ _ Hl)].
  by rewrite (bind_run _ _ _ _ _ Hl).
Qed.
Lemma next_memset i d v l rs j mj m m2 :
  i_kind i = IMemSet d v l → rs inp = Some m2 → same_values m m2 → next i rs j = Some mj →
  ∃ m0 a x n, rs j = Some m0 ∧ value_of m d = Some a ∧ value_of m l = Some n ∧ value_of m0 v = Some x ∧
    mj = set_rt (set_mem (fill (mem_of m0) a (u8 x) n) (mc_rt m0)) m0.
Proof.
  intros Hk Hm2 Hm Hj. destruct (next_some i _ _ _ _ _ ltac:(simple_item) Hm2 Hm Hj) as (m0 & Hr & Hch & Hrun).
  unfold choice in Hch. rewrite Hk in Hch. injection Hch as Hd Hl. rewrite (memset_inst_run i d v l) in Hrun by done.
  rewrite Hd, Hl in Hrun. destruct (value_of m d) as [a|]; [|done]. destruct (value_of m0 v) as [x|] eqn:Hv; [|done].
  destruct (value_of m l) as [n|]; [|done]. injection Hrun as <-. by exists m0, a, x, n.
Qed.
Lemma memset_item t i d v l x m m2 rs :
  bulk i → i_kind i = IMemSet d v l → bulk_ok native t i x → clean_step x m → consistent t m rs →
  rs inp = Some m2 → same_values m m2 → run_agrees False t (run_item x m) (next i rs).
Proof.
  intros H Hk (Hi & Hf & Ha & Hx) Hcl Hc Hrs Hm. unfold bulk in H. unfold clean_step in Hcl. rewrite Hi, Hk in *.
  destruct Hx as (s & Hs & Hx). rewrite (run_item_eq i), Hx by simple_item. cbn [for_each].
  assert (value_of m d = None ∨ value_of m v = None ∨ value_of m l = None → next i rs inp = None) as Hnone.
  { intros Hv. rewrite (next_inp _ _ _ Hrs). unfold plain.
    rewrite (memset_inst_run i d v l), !(value_of_same m m2) by done.
    destruct (value_of m d), (value_of m v), (value_of m l); try done. by destruct Hv as [|[|]]. }
  unfold mbind, M_bind. rewrite set_label_emit_run.
  destruct (value_of m d) as [a|] eqn:Hd; [|right; right; auto].
  destruct (value_of m l) as [n|] eqn:Hl; [|right; right; auto].
  destruct (Hcl a n eq_refl eq_refl) as (Hr & Hn & Hbl). specialize (Hbl s Hx).
  pose proof (set_label_ok (mc_rt m) (label_of m s) a n Hn) as Hw. unfold on_rt, zoom, wp in *.
  destruct (dfsan_set_label _ _ _ _) as [[] s'| |]; [|done|done]. cbn [mret M_ret].
  rewrite (memset_inst_run i d v l) by done. destruct (value_of m v) as [y|] eqn:Hv.
  2:{ assert (value_of (set_rt s' m) v = None) as -> by by destruct v.
      destruct (value_of (set_rt s' m) d); by right; right; auto. }
  assert (∀ u, value_of (set_rt s' m) u = value_of m u) as Hsame by by intros [].
  rewrite !Hsame, Hd, Hl, Hv. destruct (operand_symb _ _ _ _ _ _ _ Hc H Hs Hv) as (f & Hsym & Hfi & Hfj).
  pose proof (slots_set_free _ _ _ _ _ (fill (mem_of m) a (u8 y) n) (consistent_free _ _ _ Hc) Hw) as [Hfree Hkept].
  assert (mem_of (set_rt s' m) = mem_of m) as -> by (destruct Hw as (-> & _); done).
  eapply (writes_agrees False t i m m2 (set_mem (fill (mem_of m) a (u8 y) n) s')); [|done..| |done|].
  - intros j mj Hj. destruct (next_memset _ _ _ _ _ _ _ _ _ Hk Hrs Hm Hj) as (m0 & a' & x' & n' & ? & _ & _ & _ & ->). eauto.
  - apply (mem_symb_fill (mc_rt m) s' inp (λ j, mem_of <$> rs j) _ a n y (label_of m s) f);
      [by eapply consistent_free|done|done|done|done|done|apply Hc|].
    intros j mem'. cbv beta. destruct (next i rs j) as [mj|] eqn:Hj; [|done]. intros [= <-].
    destruct (next_memset _ _ _ _ _ _ _ _ _ Hk Hrs Hm Hj) as (m0 & a' & x' & n' & Hr0 & Ha' & Hn' & Hx' & ->).
    exists (mem_of m0). rewrite Hr0. split; [done|]. rewrite Hd in Ha'. rewrite Hl in Hn'. rewrite (Hfj _ _ Hr0) in Hx'.
    by simplify_eq.
  - unfold plain. rewrite (memset_inst_run i d v l), !(value_of_same m m2), Hd, Hl, Hv by done.
    by destruct Hm as (_ & _ & ->).
Qed.
Lemma move_emit_run pc d a l m :
  run_emit pc (EMemTransfer d a l) m =
    match value_of m d, value_of m a, value_of m l with
    | Some x, Some y, Some n =>
        Ret () (set_rt (set_shadow (move_cells 4 (rt_shadow (mc_rt m)) (shadow_for x) (shadow_for y)
                                      (wrap (int_width (type_of l)) (n * 4) / 4)) (mc_rt m)) m)
    | _, _, _ => Halt (HTerminate undefined) m
    end.
Proof.
  cbn [run_emit]. pose proof (shadow_address_run d m) as Hd.
  destruct (value_of m d) as [x|]; [|by rewrite (bind_halt _ _ _ _ _ Hd)]. rewrite (bind_run _ _ _ _ _ Hd).
  pose proof (shadow_address_run a m) as Ha.
  destruct (value_of m a) as [y|]; [|by rewrite (bind_halt _ _ _ _ _ Ha)]. rewrite (bind_run _ _ _ _ _ Ha).
  pose proof (operand_run l m) as Hl. destruct (value_of m l) as [n|]; [|by rewrite (bind_halt _ _ _ _ _ Hl)].
  by rewrite (bind_run _ _ _ _ _ Hl).
Qed.
Lemma next_memmove i d a l rs j mj m m2 :
  i_kind i = IMemTransfer d a l → rs inp = Some m2 → same_values m m2 → next i rs j = Some mj →
  ∃ m0 x y n, rs j = Some m0 ∧ value_of m d = Some x ∧ value_of m a = Some y ∧ value_of m l = Some n ∧
    mj = set_rt (set_mem (move_cells 1 (mem_of m0) x y n) (mc_rt m0)) m0.
Proof.
  intros Hk Hm2 Hm Hj. destruct (next_some i _ _ _ _ _ ltac:(simple_item) Hm2 Hm Hj) as (m0 & Hr & Hch & Hrun).
  unfold choice in Hch. rewrite Hk in Hch. injection Hch as Hd Ha Hl. rewrite (memmove_inst_run i d a l) in Hrun by done.
  rewrite Hd, Ha, Hl in Hrun. destruct (value_of m d) as [x|]; [|done]. destruct (value_of m a) as [y|]; [|done].
  destruct (value_of m l) as [n|]; [|done]. injection Hrun as <-. by exists m0, x, y, n.
Qed.
Lemma memmove_item t i d a l x m m2 rs :
  i_kind i = IMemTransfer d a l → bulk_ok native t i x → clean_step x m → consistent t m rs →
  rs inp = Some m2 → same_values m m2 → run_agrees False t (run_item x m) (next i rs).
Proof.
  intros Hk (Hi & Hf & Ha & Hx) Hcl Hc Hrs Hm. unfold clean_step in Hcl. rewrite Hi, Hk in *.
  rewrite (run_item_eq i), Hx by simple_item.
  assert (for_each [EShadowAddr d; EShadowAddr a; EMemTransfer d a l] (run_emit (i_id i)) m =
          for_each [EMemTransfer d a l] (run_emit (i_id i)) m) as Hskip by done.
  unfold mbind, M_bind. rewrite Hskip. cbn [for_each]. unfold mbind, M_bind. rewrite move_emit_run.
  pose proof (next_inp i rs m2 Hrs) as Hnext. unfold plain in Hnext.
  rewrite (memmove_inst_run i d a l), !(value_of_same m m2) in Hnext by done.
  destruct (value_of m d) as [p|] eqn:Hd; [|by right; right].
  destruct (value_of m a) as [q|] eqn:Hq; [|by right; right].
  destruct (value_of m l) as [n|] eqn:Hl; [|by right; right]. cbn [mret M_ret].
  destruct (Hcl p q n eq_refl eq_refl eq_refl) as (Hr1 & Hr2 & Hn).
  rewrite wrap_small, Z.div_mul by (done || lia). set (s' := set_shadow _ (mc_rt m)).
  assert (∀ u, value_of (set_rt s' m) u = value_of m u) as Hsame by by intros [].
  rewrite (memmove_inst_run i d a l), !Hsame, Hd, Hq, Hl by done.
  change (mem_of (set_rt s' m)) with (mem_of m).
  pose proof (consistent_free _ _ _ Hc) as Hfree.
  eapply (writes_agrees False t i m m2 (set_mem (move_cells 1 (mem_of m) p q n) s')); [|done..| |done|].
  - intros j mj Hj. destruct (next_memmove _ _ _ _ _ _ _ _ _ Hk Hrs Hm Hj) as (m0 & x' & y' & n' & ? & _ & _ & _ & ->). eauto.
  - apply (mem_symb_move (mc_rt m) inp (λ j, mem_of <$> rs j)); [done..|apply Hc|].
    intros j mem'. cbv beta. destruct (next i rs j) as [mj|] eqn:Hj; [|done]. intros [= <-].
    destruct (next_memmove _ _ _ _ _ _ _ _ _ Hk Hrs Hm Hj) as (m0 & x' & y' & n' & Hr0 & Hx' & Hy' & Hn' & ->).
    exists (mem_of m0). rewrite Hr0. split; [done|]. rewrite Hd in Hx'. rewrite Hq in Hy'. rewrite Hl in Hn'. by simplify_eq.
  - unfold plain. rewrite (memmove_inst_run i d a l), !(value_of_same m m2), Hd, Hq, Hl by done.
    by destruct Hm as (_ & _ & ->).
Qed.
Lemma bulk_item t i x m m2 rs :
  bulk i → bulk_ok native t i x → clean_step x m → consistent t m rs →
  rs inp = Some m2 → same_values m m2 → run_agrees False t (run_item x m) (next i rs).
Proof.
  intros H. pose proof H as Hb. unfold bulk in Hb. destruct (i_kind i) eqn:Hk; try done; intros.
  - by eapply memset_item.
  - by eapply memmove_item.
Qed.

(** ** Calls *)
Lemma arg_stores_run pc k ss (m : mach) :
  ∃ tls, for_each (arg_stores k ss) (run_emit pc) m = Ret () (set_argtls tls m) ∧
    (∀ j, j < k → tls !! j = mc_argtls m !! j) ∧
    ∀ j s, ss !! j = Some s → tls !! (k + Z.of_nat j) = Some (label_of m s).
Proof.
  revert k m. induction ss as [|s ss IH]; intros k m.
  { exists (mc_argtls m). split_and!; [by destruct m|done|done]. }
  set (m1 := set_argtls (<[k := label_of m s]> (mc_argtls m)) m).
  destruct (IH (k + 1) m1) as (tls & Hr & Hlow & Hss). exists tls. rewrite arg_stores_cons. split_and!.
  - cbn [for_each]. by rewrite (bind_run _ _ m () m1).
  - intros j Hj. rewrite Hlow by lia. cbn. by rewrite lookup_insert_ne by lia.
  - intros [|j] x Hx; simpl in Hx.
    + simplify_eq. rewrite Z.add_0_r, Hlow by lia. cbn. by rewrite lookup_insert_eq.
    + replace (k + Z.of_nat (S j)) with (k + 1 + Z.of_nat j) by lia. rewrite (Hss j x Hx). by destruct x.
Qed.
(** The labels of the arguments are those of the values passed. *)
Lemma passed_stores t m rs args ss tls :
  consistent t m rs → Forall (λ v, ∀ w, type_of v = TInt w → operand_ok w v) args → Forall2 (has native t) args ss →
  (∀ (k : nat) s, ss !! k = Some s → tls !! (0 + Z.of_nat k) = Some (label_of m s)) →
  passed args (set_argtls tls m) rs.
Proof.
  intros Hc Hops Hss Htls k v w n Hv Hw Hn. destruct (Forall2_lookup_l _ _ _ _ _ Hss Hv) as (s & Hs & Hh).
  replace (value_of (set_argtls tls m) v) with (value_of m v) in Hn by by destruct v.
  pose proof (proj1 (Forall_lookup _ _) Hops k v Hv w Hw) as Hop.
  destruct (operand_symb _ _ _ _ _ _ _ Hc Hop Hh Hn) as (f & Hf & Hi & Hj). exists f. split_and!; [|done|done].
  unfold arg_label. cbn [mc_argtls set_argtls]. specialize (Htls k s Hs). rewrite Z.add_0_l in Htls. by rewrite Htls.
Qed.
Lemma consistent_call t i m m' rs sh :
  own t → consistent t m rs → type_of (VInst (i_id i)) = i_ty i → is_call i = true →
  call_returned i (callee_traces i) m (Ret () m') (callee_follows inp i rs) →
  (sh = mc_shadows m' ∧ (∀ w, i_ty i ≠ TInt w) ∨
   ∃ d, tf_insts t !! i_id i = Some (SVal d) ∧ sh = <[d := mc_retval m']> (mc_shadows m')) →
  consistent t (set_shadows sh m') (next i rs).
Proof.
  intros Ho Hc Hty Hcall (Hkeep & Hsh & Hpar & Hfree & Hkept & Hmem & Hres & _) Hd.
  assert (∀ j, next i rs j = callee_follows inp i rs j) as Hnext by (intros j; unfold next; by rewrite Hcall).
  assert (∀ m1 m2 v, call_keeps i m1 m2 → v ≠ VInst (i_id i) → value_of m2 v = value_of m1 v) as Hval.
  { intros m1 m2 [k|k| |] [Ha Hv] Hne; simpl; [by rewrite Ha|apply Hv; congruence|done|done]. }
  apply (consistent_ext _ _ (callee_follows inp i rs)); [done|]. split; [apply Hfree|apply Hfree| |exact Hmem|by etrans; [apply Hc|]].
  intros v s w n Hv Hh Hw Hn. change (value_of m' v = Some n) in Hn.
  destruct (decide (v = VInst (i_id i))) as [->|Hne].
  - destruct Hd as [[_ Hno]|(d & Hd & ->)]; [by destruct (Hno w); congruence|].
    simpl in Hh. assert (s = SVal d) as -> by congruence. rewrite Hty in Hw.
    destruct (Hres w n Hw Hn) as (f & Hf & Hi & Hj). exists f. split_and!; [|done|done].
    simpl. by rewrite lookup_insert_eq.
  - rewrite (Hval m m') in Hn by done. destruct (cs_vals _ _ _ Hc v s w n Hv Hh Hw Hn) as (f & Hf & Hi & Hj).
    exists f. split_and!; [|done|].
    + assert (label_of (set_shadows sh m') s = label_of m s) as ->.
      { destruct s as [|k|k]; [done|simpl; by rewrite Hpar|]. simpl.
        destruct Hd as [[-> _]|(d & Hd & ->)]; [by rewrite Hsh|]. rewrite lookup_insert_ne, Hsh; [done|].
        intros <-. apply Hne. by apply (own_has native t v (VInst (i_id i)) d). }
      by apply (symb_moved (mc_rt m)); [apply Hc|..].
    + intros j mj Hm. destruct (callee_follows_keeps _ _ _ _ Hm) as (m0 & Hr0 & Hk0).
      rewrite (Hval m0 mj) by done. by apply Hj.
Qed.
Lemma consistent_argtls t m rs tls : consistent t m rs → consistent t (set_argtls tls m) rs.
Proof.
  intros [H1 H2 H3 H4 H5]. split; [done|done| |done|done]. intros v s w n Hv Hh Ht Hn.
  replace (value_of (set_argtls tls m) v) with (value_of m v) in Hn by by destruct v.
  replace (label_of (set_argtls tls m) s) with (label_of m s) by by destruct s. by apply H3.
Qed.
Lemma call_item t i x m m2 rs :
  call i → call_ok native t i x → clean_step x m → own t → consistent t m rs → rs inp = Some m2 →
  same_values m m2 → run_agrees (callee_traces i) t (run_item x m) (next i rs).
Proof.
  intros [Hty H] (Hi & Hf & Hx) Hcl Ho Hc Hrs Hm.
  unfold clean_step in Hcl. rewrite Hi in Hcl.
  assert (∀ m', is_call i = true → run_kept i m' = callee_instrumented i m') as Hrun
    by (intros m'; unfold is_call, run_kept; by destruct (i_kind i)).
  destruct (i_kind i) as [| | | | | | | | | |[f| | |] fty args [|]| | | | | |] eqn:Hk; try done.
  destruct H as (_ & _ & _ & _ & Hops). destruct Hx as [Hafter (ss & Hss & Hx)].
  assert (is_call i = true) as Hcall by (unfold is_call; by rewrite Hk).
  destruct (arg_stores_run (i_id i) 0 ss m) as (tls & Hst & _ & Htls). rewrite Hx in Hcl. specialize (Hcl _ Hst).
  set (m1 := set_argtls tls m) in *.
  assert (consistent t m1 rs) as Hc1 by by apply consistent_argtls.
  pose proof (callee_returns i f fty args m1 m2 rs Hk (consistent_free _ _ _ Hc1)
                (passed_stores t m rs _ ss tls Hc Hops Hss Htls) (cs_mem _ _ _ Hc1) Hrs Hm Hcl) as Hret.
  assert (next i rs inp = callee_follows inp i rs inp) as Hnext by (unfold next; by rewrite Hcall).
  unfold run_item. rewrite Hi, Hx, Hf, (bind_run _ _ _ _ _ Hst). unfold mbind, M_bind. rewrite Hrun by done.
  destruct (callee_instrumented i m1) as [[] m'|e m'|h m']; simpl in Hret |- *; rewrite ?Hnext; [|done|done].
  pose proof Hret as (_ & _ & _ & _ & _ & _ & _ & m2' & Hr2 & Hs2).
  destruct (is_void (i_ty i)) eqn:Hv.
  - rewrite Hafter. cbn [for_each mret M_ret]. split; [|exists m2'; by rewrite Hnext].
    replace m' with (set_shadows (mc_shadows m') m') by by destruct m'.
    apply (consistent_call t i m1); try done. left. split; [done|]. intros w Hw. by rewrite Hw in Hv.
  - destruct Hafter as (d & Hd & ->). cbn [for_each]. unfold mbind, M_bind. cbn.
    split; [|exists m2'; rewrite Hnext; split; [done|exact Hs2]].
    apply (consistent_call t i m1); try done. right. by exists d.
Qed.

End run.

(** ** Code without calls *)
Definition no_callees {Zi : Z3} : Callees := {|
  callee_instrumented _ := terminate undefined;
  callee_original _ := terminate undefined;
  callee_follows _ _ _ _ := None;
  callee_clean _ _ := True;
  callee_traces _ := False;
|}.
Lemma no_callees_ok {Zi : Z3} {Ops : LlvmOps} {DL : DataLayout} {PE : PassEnv} inp :
  CalleesOk (Cs:=no_callees) inp.
Proof.
  split; [|done|by intros; right; right].
  intros i rs Hi. cbn. destruct (rs inp) as [m|]; [|done]. unfold plain, run_inst, is_call in *. cbn. by destruct (i_kind i).
Qed.

