(* ===== verification/PassSound.v ===== *)
(** * Soundness of the instrumentation

    The blocks of an instrumented function executed along a path: the instrumented
    program computes what the original computes, and every value and every byte of
    memory keeps a label that denotes it. *)
From S2P Require Import Prelude Platform Labels UnionTable Union Z3 State Denote Shadow ShadowSpec Solver Libc Invariant Ir Pass PassModule PassRun PassSpec PassMem PassVisit PassStep.

Section run.
Context {Zi : Z3} {Ops : LlvmOps} {DL : DataLayout} {PE : PassEnv} {Cs : Callees}.
Context (native : bool) (inp : input) (past : rt) {Co : CalleesOk inp}.
Abbreviation consistent := (PassStep.consistent native inp past).
Abbreviation run_agrees := (PassStep.run_agrees native inp past).
Abbreviation next := (PassStep.next inp).
Abbreviation after := (PassStep.after inp).

(** ** Sequences of instructions *)
Definition traces (i : inst) : Prop := branch i ∨ switch i ∨ select i ∨ call i ∧ callee_traces i.
Definition traced (l : list inst) : Prop := ∃ i, i ∈ l ∧ traces i.
(** No load or store of the run meets labels the runtime confuses. *)
Fixpoint clean_run (xs : list item) (m : mach) : Prop :=
  match xs with
  | [] => True
  | x :: xs => clean_step x m ∧ ∀ m', run_item x m = Ret () m' → clean_run xs m'
  end.
Lemma run_agrees_mono (P Q : Prop) t o rs : (P → Q) → run_agrees P t o rs → run_agrees Q t o rs.
Proof. intros H. destruct o; simpl; tauto. Qed.
Lemma visited_item t i x m m2 rs :
  visited_other native t i x → clean_step x m → own t → consistent t m rs → rs inp = Some m2 → same_values m m2 →
  run_agrees (traces i) t (run_item x m) (next i rs).
Proof.
  intros Hv Hcl Ho Hc Hrs Hm. destruct Hv as [[Hi Hx]|[[Hi Hx]|[[Hi Hx]|[[Hi Hx]|[[Hi Hx]|[[Hi Hx]|[[Hi Hx]|[[Hi Hx]|[Hi Hx]]]]]]]]].
  - apply (run_agrees_mono False); [done|]. by eapply straight_item.
  - apply (run_agrees_mono True); [by left|]. by eapply branch_item.
  - apply (run_agrees_mono True); [by right; left|]. by eapply switch_item.
  - apply (run_agrees_mono False); [done|]. by eapply ret_item.
  - apply (run_agrees_mono False); [done|]. pose proof Hi as (_ & _ & H).
    destruct (i_kind i) eqn:Hk; try done; [by eapply load_item|by eapply store_item].
  - apply (run_agrees_mono True); [by do 2 right; left|]. by eapply select_item.
  - apply (run_agrees_mono False); [done|]. by eapply gep_item.
  - apply (run_agrees_mono False); [done|]. by eapply bulk_item.
  - apply (run_agrees_mono (callee_traces i)); [by do 3 right|]. by eapply call_item.
Qed.
Lemma items_agree t l xs m m2 rs :
  Forall2 (visited_other native t) l xs → own t → clean_run xs m → consistent t m rs → rs inp = Some m2 →
  same_values m m2 → run_agrees (traced l) t (run_items xs m) (after l rs).
Proof.
  intros Hl Ho. revert m m2 rs. induction Hl as [|i x l xs Hx Hl IH]; intros m m2 rs Hcl Hc Hrs Hm.
  { split; [done|]. by exists m2. }
  destruct Hcl as [Hcl Hcls]. cbn [after]. unfold run_items. cbn [for_each]. unfold mbind, M_bind.
  pose proof (visited_item t i x m m2 rs Hx Hcl Ho Hc Hrs Hm) as H.
  assert (traces i → traced (i :: l)) as Htr by (intros; exists i; split; [set_solver|done]).
  assert (traced l → traced (i :: l)) as Htl by (intros (j & ? & ?); exists j; split; [set_solver|done]).
  destruct (run_item x m) as [[] m'|e m'|h m'] eqn:Hrun; cbn [run_agrees] in H.
  - destruct H as (Hc' & m2' & Hr & Hm'). apply (run_agrees_mono (traced l)); [done|].
    by apply (IH m' m2' (next i rs)); [apply Hcls|..].
  - destruct H as [H|H]; [left; by apply Htr|right; by apply (after_none inp)].
  - destruct H as [H|[H|H]]; [left; by apply Htr|by right; left|right; right; by apply (after_none inp)].
Qed.

(** ** Entering a block *)
Definition entered (pred : Z) (l : list inst) (rs : input → option mach) (j : input) : option mach :=
  rs j ≫= enter pred l.
(** The original program after a block. *)
Definition after_block (pred : Z) (l : list inst) (rs : input → option mach) : input → option mach :=
  after (body l) (entered pred l rs).
Fixpoint after_path (path : list (Z * list inst)) (rs : input → option mach) : input → option mach :=
  match path with
  | [] => rs
  | (pred, l) :: path => after_path path (after_block pred l rs)
  end.
Fixpoint clean_path (path : list (Z * list item)) (m : mach) : Prop :=
  match path with
  | [] => True
  | (pred, xs) :: path =>
      (∀ m', enter_items pred xs m = Some m' → clean_run (item_body xs) m') ∧
      ∀ m', run_block (pred, xs) m = Ret () m' → clean_path path m'
  end.

Lemma after_path_none path rs : rs inp = None → after_path path rs inp = None.
Proof.
  revert rs. induction path as [|[pred l] path IH]; intros rs Hr; [done|]. apply IH, (after_none inp).
  unfold entered. by rewrite Hr.
Qed.

(** The value of a phi node, and its label. *)
Lemma incoming_label {B} (R : val → B → Prop) pred inc ss v :
  Forall2 R inc.*1 ss → incoming pred inc = Some v →
  ∃ s, incoming pred (zip (Some <$> ss) inc.*2) = Some (Some s) ∧ R v s.
Proof.
  revert ss. induction inc as [|[a b] inc IH]; intros ss H; [done|]. cbn in H. apply Forall2_cons_inv_l in H as (s & ss' & Hs & Hss & ->).
  cbn. destruct (b =? pred); [|by apply IH]. intros [= <-]. eauto.
Qed.
Lemma incoming_elem {A} pred (inc : list (A * Z)) v : incoming pred inc = Some v → v ∈ inc.*1.
Proof.
  induction inc as [|[a b] inc IH]; cbn; [done|]. destruct (b =? pred); [intros [= <-]; set_solver|].
  intros H. specialize (IH H). set_solver.
Qed.
Lemma phi_label_run t pred m i x n :
  phi_linked native t i x → phi_value pred m i = Some n →
  ∃ inc v s d, i_kind i = IPhi inc ∧ v ∈ inc.*1 ∧ has native t v s ∧ tf_insts t !! i_id i = Some (SVal d) ∧
    incoming pred inc = Some v ∧ n.1 = i_id i ∧ value_of m v = Some n.2 ∧
    phi_label pred m x = Some (d, label_of m s).
Proof.
  intros [_ H] Hn. unfold phi_value in Hn. destruct (i_kind i) as [| | | | | | | | | | |inc| | | | |] eqn:Hk; try done.
  destruct H as (d & ss & Hd & Hss & Hx). destruct (incoming pred inc) as [v|] eqn:Hv; [|done].
  cbn [mbind option_bind] in Hn. destruct (value_of m v) as [y|] eqn:Hy; [|done]. injection Hn as <-.
  destruct (incoming_label _ _ _ _ _ Hss Hv) as (s & Hs & Hh).
  exists inc, v, s, d. split_and!; [done|by eapply incoming_elem|done|done|done|done|done|].
  unfold phi_label. rewrite Hx, Hs. done.
Qed.
(** All phi nodes of a block: the values they get. *)
Lemma phi_values pred m l ns :
  NoDup (i_id <$> l) → mapM (phi_value pred m) l = Some ns →
  (∀ i, i ∈ l → ∃ inc v n, i_kind i = IPhi inc ∧ incoming pred inc = Some v ∧ value_of m v = Some n ∧
     (list_to_map ns : gmap Z Z) !! i_id i = Some n) ∧
  (∀ id, id ∉ (i_id <$> l) → (list_to_map ns : gmap Z Z) !! id = None).
Proof.
  intros Hnd H%mapM_Some. induction H as [|i n l ns Hi _ IH]; [split; [set_solver|done]|].
  cbn in Hnd. apply NoDup_cons in Hnd as [Hni Hnd]. destruct (IH Hnd) as [IH1 IH2].
  unfold phi_value in Hi. destruct (i_kind i) as [| | | | | | | | | | |inc| | | | |] eqn:Hk; try done.
  destruct (incoming pred inc) as [v|] eqn:Hv; [|done]. cbn [mbind option_bind] in Hi.
  destruct (value_of m v) as [y|] eqn:Hy; [|done]. injection Hi as <-. cbn. split.
  - intros k [->|Hin]%elem_of_cons; [exists inc, v, y; by rewrite lookup_insert_eq|].
    destruct (IH1 k Hin) as (inc' & v' & n' & H1 & H2 & H3 & H4). exists inc', v', n'. split_and!; [done..|].
    rewrite lookup_insert_ne; [done|]. intros Heq. apply Hni. rewrite Heq. by apply list_elem_of_fmap_2.
  - intros id Hid. rewrite lookup_insert_ne by set_solver. apply IH2. set_solver.
Qed.
(** And their labels: those of the incoming values. *)
Lemma phi_labels t pred m l xs ns :
  own t → NoDup (i_id <$> l) → Forall2 (phi_linked native t) l xs → mapM (phi_value pred m) l = Some ns →
  ∃ ls, mapM (phi_label pred m) xs = Some ls ∧
    (∀ i inc v, i ∈ l → i_kind i = IPhi inc → incoming pred inc = Some v → ∃ s d, has native t v s ∧
       tf_insts t !! i_id i = Some (SVal d) ∧ (list_to_map ls : gmap Z Z) !! d = Some (label_of m s)) ∧
    (∀ d, (∀ i, i ∈ l → tf_insts t !! i_id i ≠ Some (SVal d)) → (list_to_map ls : gmap Z Z) !! d = None).
Proof.
  intros Ho Hnd Hx. revert ns. induction Hx as [|i x l xs Hx _ IH]; intros ns Hns.
  { exists []. split_and!; [done|set_solver|done]. }
  apply mapM_Some, Forall2_cons_inv_l in Hns as (n & ns' & Hn & Hns%mapM_Some & ->).
  cbn in Hnd. apply NoDup_cons in Hnd as [Hni Hnd]. destruct (IH Hnd ns' Hns) as (ls & Hls & IH1 & IH2).
  destruct (phi_label_run t pred m i x n Hx Hn) as (inc & v & s & d & Hk & _ & Hs & Hd & Hv & _ & _ & Hl).
  exists ((d, label_of m s) :: ls). split; [by cbn; rewrite Hl; cbn; rewrite Hls|]. cbn. split.
  - intros k inc' v' [->|Hin]%elem_of_cons Hk' Hv'.
    + rewrite Hk in Hk'. injection Hk' as <-. rewrite Hv in Hv'. injection Hv' as <-.
      exists s, d. by rewrite lookup_insert_eq.
    + destruct (IH1 k inc' v' Hin Hk' Hv') as (s' & d' & Hs' & Hd' & Hl'). exists s', d'. split_and!; [done..|].
      rewrite lookup_insert_ne; [done|]. intros <-. apply Hni. rewrite (own_inst _ Ho _ _ _ Hd Hd').
      by apply list_elem_of_fmap_2.
  - intros d' Hd'. rewrite lookup_insert_ne; [apply IH2; intros k Hk''; apply Hd'; set_solver|].
    intros <-. by apply (Hd' i); [set_solver|].
Qed.

Lemma other_not_phi t i x : visited_other native t i x → is_phi i = false ∧ it_inst x = i.
Proof.
  unfold is_phi. intros H. split; [|by destruct H as [[_ [? _]]|[[_ [? _]]|[[_ [? _]]|[[_ [? _]]|[[_ [? _]]|[[_ [? _]]|[[_ [? _]]|[[_ [? _]]|[_ [? _]]]]]]]]]]].
  unfold visited_other, straight, branch, switch, ret, access, select, gep, bulk, call in H.
  destruct (i_kind i); try done. naive_solver.
Qed.
Lemma final_split t l xs :
  Forall2 (final native t) l xs →
  it_inst <$> xs = l ∧
  Forall2 (λ i x, phi i ∧ phi_linked native t i x) (filter is_phi l) (filter (λ x, is_phi (it_inst x)) xs) ∧
  Forall2 (visited_other native t) (body l) (item_body xs).
Proof.
  unfold body, item_body. intros H. induction H as [|i x l xs Hx _ (IH1 & IH2 & IH3)]; [done|].
  assert (it_inst x = i) as Hi by (destruct Hx as [[_ ?]%other_not_phi|[_ [? _]]]; done).
  cbn [fmap list_fmap]. rewrite Hi, IH1. split; [done|]. rewrite !filter_cons, Hi.
  destruct Hx as [Hx|[Hp Hx]].
  - destruct (other_not_phi _ _ _ Hx) as [Hn _]. rewrite Hn. split; [done|]. by constructor.
  - assert (is_phi i = true) as -> by (destruct Hp as (inc & Hk & _); unfold is_phi; by rewrite Hk).
    split; [|done]. by constructor.
Qed.
Lemma enter_vals pred l m m' id :
  NoDup (i_id <$> l) → enter pred l m = Some m' →
  m' = set_vals (mc_vals m') m ∧
  match list_find (λ i, i_id i = id) (filter is_phi l) with
  | Some (_, i) => ∃ inc v n, i_kind i = IPhi inc ∧ incoming pred inc = Some v ∧ value_of m v = Some n ∧
      mc_vals m' !! id = Some n
  | None => mc_vals m' !! id = mc_vals m !! id
  end.
Proof.
  intros Hnd. unfold enter. destruct (mapM _ _) as [ns|] eqn:Hns; [|done]. intros [= <-]. split; [by destruct m|].
  apply phi_values in Hns as [H1 H2]; [|eapply sublist_NoDup; [exact Hnd|]; apply fmap_sublist, sublist_filter].
  cbn. destruct (list_find _ _) as [[k i]|] eqn:Hf.
  - apply list_find_Some in Hf as (Hi%list_elem_of_lookup_2 & <- & _).
    destruct (H1 i Hi) as (inc & v & n & ? & ? & ? & Hn). exists inc, v, n. split_and!; [done..|].
    by rewrite (lookup_union_Some_l _ _ _ _ Hn).
  - apply list_find_None in Hf. rewrite lookup_union_r; [done|]. apply H2. intros (i & -> & Hi)%list_elem_of_fmap.
    by eapply (proj1 (Forall_forall _ _) Hf).
Qed.
Lemma enter_same pred l m m2 :
  same_values m m2 →
  match enter pred l m, enter pred l m2 with
  | Some m', Some m2' => same_values m' m2'
  | None, None => True
  | _, _ => False
  end.
Proof.
  intros Hm. assert (mapM (phi_value pred m2) (filter is_phi l) = mapM (phi_value pred m) (filter is_phi l)) as He.
  { apply mapM_ext. intros i. unfold phi_value. destruct (i_kind i) as [| | | | | | | | | | |inc| | | | |]; try done.
    destruct (incoming pred inc); [|done]. cbn [mbind option_bind]. by rewrite (value_of_same m m2). }
  unfold enter. rewrite He. destruct (mapM (phi_value pred m) (filter is_phi l)); cbn [mbind option_bind]; [|done].
  destruct Hm as (H1 & H2 & H3). split_and!; [cbn; by rewrite H1|done|done].
Qed.
(** The phi node that defines a value. *)
Definition phi_for (l : list inst) (v : val) : option inst :=
  match v with VInst id => snd <$> list_find (λ i, i_id i = id) (filter is_phi l) | _ => None end.
Lemma phi_for_id l v i : phi_for l v = Some i → v = VInst (i_id i) ∧ i ∈ filter is_phi l.
Proof.
  destruct v as [|id| |]; try done. simpl. destruct (list_find _ _) as [[k i']|] eqn:Hf; [|done]. intros [= <-].
  by apply list_find_Some in Hf as (Hi%list_elem_of_lookup_2 & <- & _).
Qed.
Lemma enter_value pred l m m' v :
  NoDup (i_id <$> l) → enter pred l m = Some m' →
  match phi_for l v with
  | Some i => ∃ inc u, i_kind i = IPhi inc ∧ incoming pred inc = Some u ∧ value_of m' v = value_of m u
  | None => value_of m' v = value_of m v
  end.
Proof.
  intros Hnd He. destruct v as [n|id| |]; simpl; try done;
    [by destruct (enter_vals pred l m m' 0 Hnd He) as [-> _]|].
  destruct (enter_vals pred l m m' id Hnd He) as [_ Hv]. destruct (list_find _ _) as [[k i]|]; [|done].
  destruct Hv as (inc & u & n & ? & ? & Hn & Hm). exists inc, u. split_and!; [done|done|]. by rewrite Hn.
Qed.
Lemma entered_some pred l rs j mj' :
  entered pred l rs j = Some mj' → ∃ mj, rs j = Some mj ∧ enter pred l mj = Some mj'.
Proof. unfold entered. destruct (rs j) as [mj|]; [|done]. by exists mj. Qed.
(** Every value keeps its label, or takes that of the incoming value. *)
Lemma enter_label t m m1 l ls v s :
  own t → has native t v s → phi_for l v = None → m1 = set_vals (mc_vals m1) m →
  (∀ d, (∀ i, i ∈ filter is_phi l → tf_insts t !! i_id i ≠ Some (SVal d)) → (list_to_map ls : gmap Z Z) !! d = None) →
  label_of (set_shadows (list_to_map ls ∪ mc_shadows m) m1) s = label_of m s.
Proof.
  intros Ho Hh Hp Hm1 Hls. destruct s as [|k|k]; [done|by rewrite Hm1|]. simpl.
  rewrite lookup_union_r; [done|]. apply Hls. intros i Hi Hd.
  pose proof (own_has native t v (VInst (i_id i)) k Ho Hh Hd) as ->. simpl in Hp.
  destruct (list_find _ _) as [[]|] eqn:Hf; [done|]. apply list_find_None in Hf.
  by eapply (proj1 (Forall_forall _ _) Hf i).
Qed.
Lemma enter_consistent t pred l xs m m1 ls rs :
  own t → NoDup (i_id <$> l) → consistent t m rs → enter pred l m = Some m1 →
  Forall2 (λ i x, phi i ∧ phi_linked native t i x) (filter is_phi l) xs →
  (∀ i inc v, i ∈ filter is_phi l → i_kind i = IPhi inc → incoming pred inc = Some v → ∃ s d, has native t v s ∧
     tf_insts t !! i_id i = Some (SVal d) ∧ (list_to_map ls : gmap Z Z) !! d = Some (label_of m s)) →
  (∀ d, (∀ i, i ∈ filter is_phi l → tf_insts t !! i_id i ≠ Some (SVal d)) → (list_to_map ls : gmap Z Z) !! d = None) →
  consistent t (set_shadows (list_to_map ls ∪ mc_shadows m) m1) (entered pred l rs).
Proof.
  intros Ho Hnd Hc He Hphi Hlab Hnolab. destruct (enter_vals pred l m m1 0 Hnd He) as [Hm1 _].
  assert (mc_rt m1 = mc_rt m) as Hrt by by rewrite Hm1.
  split; cbn [mc_rt set_shadows]; rewrite ?Hrt; [apply Hc|apply Hc| | |apply Hc].
  2:{ apply (mem_symb_kept (mc_rt m) _ _ (λ j, mem_of <$> rs j)); [apply Hc|done| |apply Hc].
      intros j mem. cbv beta. destruct (entered pred l rs j) as [mj'|] eqn:Hj; [|done].
      apply entered_some in Hj as (mj & -> & Hej). by destruct (enter_vals pred l mj mj' 0 Hnd Hej) as [-> _]. }
  intros v s w n Hv Hh Hw Hn. change (value_of m1 v = Some n) in Hn.
  pose proof (enter_value pred l m m1 v Hnd He) as Hval. destruct (phi_for l v) as [i|] eqn:Hp.
  - destruct Hval as (inc & u & Hk & Hu & Hun). rewrite Hn in Hun. symmetry in Hun.
    pose proof (phi_for_id l v i Hp) as [-> Hi].
    destruct (Hlab i inc u Hi Hk Hu) as (su & d & Hsu & Hd & Hl). simpl in Hh. assert (s = SVal d) as -> by congruence.
    assert (operand_ok w u) as Hop.
    { apply list_elem_of_lookup in Hi as [k' Hi].
      destruct (Forall2_lookup_l _ _ _ _ _ Hphi Hi) as (x & _ & (inc' & Hk' & Hty) & _).
      rewrite Hk in Hk'. injection Hk' as <-. eapply (proj1 (Forall_forall _ _) (Hty w Hw)). by eapply incoming_elem. }
    destruct (operand_symb _ _ _ _ _ _ _ _ _ _ Hc Hop Hsu Hun) as (f & Hsym & Hfi & Hfj). exists f. split_and!; [|done|].
    + simpl. by rewrite (lookup_union_Some_l _ _ _ _ Hl).
    + intros j mj' (mj & Hrj & Hej)%entered_some. pose proof (enter_value pred l mj mj' (VInst (i_id i)) Hnd Hej) as Hvj.
      rewrite Hp in Hvj. destruct Hvj as (inc' & u' & Hk' & Hu' & ->). assert (u' = u) as -> by congruence. by apply Hfj.
  - rewrite (enter_label t m m1 l ls v s) by done. rewrite Hval in Hn.
    destruct (cs_vals _ _ _ _ _ _ Hc v s w n Hv Hh Hw Hn) as (f & Hfs & Hfi & Hfj). exists f. split_and!; [done|done|].
    intros j mj' (mj & Hrj & Hej)%entered_some. pose proof (enter_value pred l mj mj' v Hnd Hej) as Hvj.
    rewrite Hp in Hvj. rewrite Hvj. by apply Hfj.
Qed.
Lemma enter_agrees t pred l xs m m2 rs :
  own t → NoDup (i_id <$> l) → Forall2 (final native t) l xs → consistent t m rs → rs inp = Some m2 →
  same_values m m2 →
  match enter_items pred xs m with
  | Some m' => consistent t m' (entered pred l rs) ∧
      ∃ m2', entered pred l rs inp = Some m2' ∧ same_values m' m2'
  | None => entered pred l rs inp = None
  end.
Proof.
  intros Ho Hnd Hx Hc Hrs Hm. destruct (final_split _ _ _ Hx) as (Hl & Hphi & _).
  pose proof (enter_same pred l m m2 Hm) as Hsame. unfold enter_items. rewrite Hl.
  assert (entered pred l rs inp = enter pred l m2) as -> by (unfold entered; by rewrite Hrs).
  destruct (enter pred l m) as [m1|] eqn:He; cbn [mbind option_bind]; [|by destruct (enter pred l m2)].
  destruct (enter pred l m2) as [m2'|] eqn:He2; [|done].
  assert (NoDup (i_id <$> filter is_phi l)) as Hnd'
    by (eapply sublist_NoDup; [exact Hnd|]; apply fmap_sublist, sublist_filter).
  assert (∃ ns, mapM (phi_value pred m) (filter is_phi l) = Some ns) as [ns Hns].
  { unfold enter in He. destruct (mapM _ _); [by eexists|done]. }
  destruct (phi_labels t pred m _ _ ns Ho Hnd' (Forall2_impl _ _ _ _ Hphi (λ _ _ H, proj2 H)) Hns)
    as (ls & -> & Hlab & Hnolab). cbn [mbind option_bind].
  split; [by eapply enter_consistent|]. exists m2'. split; [done|]. by destruct Hsame as (? & ? & ?).
Qed.

(** ** Paths *)
Lemma block_agrees t pred l xs m m2 rs :
  own t → NoDup (i_id <$> l) → Forall2 (final native t) l xs →
  (∀ m', enter_items pred xs m = Some m' → clean_run (item_body xs) m') →
  consistent t m rs → rs inp = Some m2 → same_values m m2 →
  run_agrees (traced l) t (run_block (pred, xs) m) (after_block pred l rs).
Proof.
  intros Ho Hnd Hx Hcl Hc Hrs Hm. pose proof (enter_agrees t pred l xs m m2 rs Ho Hnd Hx Hc Hrs Hm) as He.
  unfold run_block. rewrite bind_get. cbn [fst snd]. destruct (enter_items pred xs m) as [m'|] eqn:Hen.
  - destruct He as (Hc' & m2' & Hr' & Hm'). rewrite (bind_run _ _ _ () m') by done. unfold after_block.
    apply (run_agrees_mono (traced (body l))).
    { intros (i & [_ Hi]%list_elem_of_filter & Htr). by exists i. }
    destruct (final_split _ _ _ Hx) as (_ & _ & Hb). eapply items_agree; [done|done|by apply Hcl|done..].
  - right; right. by apply (after_none inp).
Qed.
Lemma path_agrees t path m m2 rs :
  Forall (λ p, NoDup (i_id <$> p.1.2) ∧ Forall2 (final native t) p.1.2 p.2) path → own t →
  let items := (λ p : Z * list inst * list item, (p.1.1, p.2)) <$> path in
  clean_path items m → consistent t m rs → rs inp = Some m2 → same_values m m2 →
  run_agrees (traced (concat (path.*1).*2)) t (run_path items m) (after_path path.*1 rs).
Proof.
  intros Hp Ho items. unfold items. clear items. revert m m2 rs.
  induction Hp as [|[[pred l] xs] path [Hnd Hx] Hp IH]; intros m m2 rs Hcl Hc Hrs Hm.
  { split; [done|]. by exists m2. }
  destruct Hcl as [Hcl Hcls]. cbn [fst snd fmap list_fmap concat after_path] in *.
  pose proof (block_agrees t pred l xs m m2 rs Ho Hnd Hx Hcl Hc Hrs Hm) as H.
  unfold run_path. cbn [for_each]. unfold mbind, M_bind.
  assert (∀ i, i ∈ l → i ∈ l ++ concat (path.*1).*2) as Hl by set_solver.
  destruct (run_block (pred, xs) m) as [[] m'|e m'|h m'] eqn:Hrun; cbn [run_agrees] in H.
  - destruct H as (Hc' & m2' & Hr & Hm'). eapply run_agrees_mono; [|by apply (IH m' m2'); [apply Hcls|..]].
    intros (i & Hi & Htr). exists i. split; [set_solver|done].
  - destruct H as [(i & Hi & Htr)|H]; [left; exists i; auto|right]. by apply after_path_none.
  - destruct H as [(i & Hi & Htr)|[H|H]]; [left; exists i; auto|by right; left|right; right]. by apply after_path_none.
Qed.
End run.

(** ** Paths through the blocks of a function *)
Section code.
Context {Ops : LlvmOps} {DL : DataLayout} {PE : PassEnv}.
Context (native : bool).

(** The blocks of a path, before and after the instrumentation. *)
Definition path_code (path : list (Z * (block * (Z * list item)))) : list (Z * list inst) :=
  (λ p : Z * (block * (Z * list item)), (p.1, b_insts p.2.1)) <$> path.
Definition path_items (phis : list (Z * list shadow)) (path : list (Z * (block * (Z * list item))))
    : list (Z * list item) :=
  (λ p : Z * (block * (Z * list item)), (p.1, link (list_to_map phis) <$> p.2.2.2)) <$> path.
Definition path_steps (phis : list (Z * list shadow)) (path : list (Z * (block * (Z * list item))))
    : list (Z * list inst * list item) :=
  (λ p : Z * (block * (Z * list item)), (p.1, b_insts p.2.1, link (list_to_map phis) <$> p.2.2.2)) <$> path.
Lemma path_steps_code phis path : path_code path = (path_steps phis path).*1.
Proof. unfold path_code, path_steps. by rewrite <-list_fmap_compose. Qed.
Lemma path_steps_items phis path : path_items phis path = (λ p : Z * list inst * list item, (p.1.1, p.2)) <$> path_steps phis path.
Proof. unfold path_items, path_steps. by rewrite <-list_fmap_compose. Qed.
Lemma block_nodup bs (b : block) : ordered (concat (b_insts <$> bs)) → b ∈ bs → NoDup (i_id <$> b_insts b).
Proof.
  intros Hord Hb. apply ordered_nodup in Hord. apply list_elem_of_split in Hb as (l1 & l2 & ->).
  rewrite fmap_app, fmap_cons, concat_app in Hord. cbn [concat] in Hord. rewrite !fmap_app in Hord.
  apply NoDup_app in Hord as (_ & _ & Hord). by apply NoDup_app in Hord as (? & _ & _).
Qed.
Lemma path_steps_ok bs xs phis t path :
  ordered (concat (b_insts <$> bs)) → path.*2 ⊆ zip bs xs →
  Forall2 (λ b x, x.1 = b_id b ∧ Forall2 (final native t) (b_insts b) (link (list_to_map phis) <$> x.2)) bs xs →
  Forall (λ p, NoDup (i_id <$> p.1.2) ∧ Forall2 (final native t) p.1.2 p.2) (path_steps phis path).
Proof.
  intros Hord Hp Hxs. apply Forall_fmap, Forall_forall. intros [pred [b x]] Hin. cbn.
  assert ((b, x) ∈ zip bs xs) as Hz by (apply Hp; by apply (list_elem_of_fmap_2' snd _ (pred, (b, x)))).
  apply elem_of_lookup_zip_with in Hz as (k & b' & x' & Heq & Hb & Hx). simplify_eq. split.
  - eapply block_nodup; [done|]. by eapply list_elem_of_lookup_2.
  - by destruct (Forall2_lookup_lr _ _ _ _ _ _ Hxs Hb Hx) as [_ ?].
Qed.
End code.

(** C2: instrumented integer code computes what the original computes, and its
    labels say what the original would compute on any other input. The pass
    instruments the blocks of a function, in an order where definitions come
    before uses other than in phi nodes. Whatever path through the blocks is taken
    afterwards (each block with the block it was entered from), from a state in
    which the labels of the arguments and of memory denote their values for every
    input [j] ([rs j] is the original program about to run on [j]), the
    instrumented path ends with the values and the memory of the original path,
    and the label of every value and of every byte of memory denotes, for every
    input [j] on which the same path is defined and uses the same addresses, the
    value that path computes on [j]; or the label table is full, or the original
    path is undefined, or a condition was traced and the solver stopped the
    program. The path may fill and copy ranges of memory, and call functions that
    keep the contract of callees ([CalleesOk]). [clean_path]: no load or store of
    the path meets labels whose shapes the runtime confuses, and no label count
    wraps. *)
Theorem instrument_sound {Zi : Z3} {Ops : LlvmOps} {DL : DataLayout} {PE : PassEnv} {Cs : Callees}
    F native inp {Co : CalleesOk inp} bs t :
  own t → ordered (concat (b_insts <$> bs)) → unvisited (concat (b_insts <$> bs)) t →
  ∃ xs phis t', instrument F native bs t = Ret (xs, phis) t' ∧ extends t t' ∧ length xs = length bs ∧
    ∀ path past m rs, path.*2 ⊆ zip bs xs →
      consistent native inp past t' m rs → rs inp = Some m → clean_path (path_items phis path) m →
      run_agrees native inp past (traced (concat (path_code path).*2)) t'
        (run_path (path_items phis path) m) (after_path inp (path_code path) rs).
Proof.
  intros Ho Hord Hun. destruct (instrument_runs F native bs t Hord Ho Hun) as ([xs phis] & t' & Hr & He & Ho' & Hxs).
  exists xs, phis, t'. split_and!; [done|done|by symmetry; eapply Forall2_length|].
  intros path past m rs Hp Hc Hrs Hcl. rewrite (path_steps_code phis), path_steps_items in *.
  apply (path_agrees native inp past t' _ m m rs); [by eapply path_steps_ok|done..].
Qed.

(** ** A loop that counts up from a byte of memory, and returns the count *)
#[local] Program Instance layout64 : DataLayout := {|
  type_size_in_bits t := match t with TInt w => w | TPtr _ => 64 | _ => 0 end;
  type_store_size t := match t with TInt w => (w + 7) / 8 | TPtr _ => 8 | _ => 0 end;
  gep_offset t xs := default 0 (head xs);
|}.
Solve Obligations with done.
#[local] Instance plain_env : PassEnv := {|
  ClTraceFP := false;
  ClTraceGEPOffset := false;
  ABI := IA_TLS;
  type_of v :=
    match v with
    | VArgument _ => TPtr (TInt 8)
    | VInst id =>
        if id =? 1 then TInt 8 else if id =? 3 then TInt 1
        else if (id =? 2) || (id =? 5) || (id =? 6) then TInt 32 else TVoid
    | VConst w _ => TInt w
    | VGlobal _ => TPtr TVoid
    end;
  GetUnderlyingObjects v := [v];
  constant_object _ := false;
  UnwrappedFnMap _ := None;
  wrapper_kind _ := WK_Warning;
  fn_type _ := TFun TVoid [] false;
|}.
Definition first_block : block := Block 0
  [Inst 1 (TInt 8) (ILoad (VArgument 0)) false;
   Inst 2 (TInt 32) (ICast op_ZExt (VInst 1)) false;
   Inst 4 TVoid (IBranch None) false].
Definition loop_block : block := Block 1
  [Inst 5 (TInt 32) (IPhi [(VInst 2, 0); (VInst 6, 1)]) false;
   Inst 6 (TInt 32) (IBinary op_Add (VInst 5) (VConst 32 5)) false;
   Inst 3 (TInt 1) (ICompare true op_ICmp 36 (VInst 6) (VConst 32 100)) false;
   Inst 7 TVoid (IBranch (Some (VInst 3))) false].
Definition exit_block : block := Block 2 [Inst 8 TVoid (IReturn (Some (VInst 6))) false].
Definition small_func : func := Func "f" (TFun (TInt 32) [TPtr (TInt 8)] false) [first_block; loop_block; exit_block].
(** The byte is byte 0 of the input, with label 1. *)
Definition byte_addr : Z := 0x700000050000.
Definition sevens : input := Input (λ _, 7) 2.
Definition small_tf : tf := tf_init 101.
Definition small_start (j : input) : mach (Zi:=Ref.z3) :=
  Mach ∅ {[ 0 := byte_addr ]} ∅ ∅ ∅ ∅ 0
    (bytes_with {[ shadow_for byte_addr := 1 ]} {[ byte_addr := u8 (in_byte j 0) ]}).
Definition small_runs (j : input) : option mach := Some (small_start j).

Fixpoint order_check (l : list inst) : bool :=
  match l with
  | [] => true
  | i :: l' => bool_decide (i_id i ∉ (i_id <$> l')) &&
               forallb (λ j, bool_decide (VInst (i_id j) ∉ looked i)) l && order_check l'
  end.
Lemma order_check_ok {Ops : LlvmOps} {PE : PassEnv} l : Forall covered l → order_check l = true → ordered l.
Proof.
  induction 1 as [|i l Hi _ IH]; [done|]. cbn [order_check ordered].
  intros [[H1%bool_decide_eq_true H2]%andb_true_iff H3]%andb_true_iff. split_and!; [done|done| |by apply IH].
  intros j Hj. rewrite forallb_forall in H2. specialize (H2 j ltac:(by apply list_elem_of_In)).
  by apply bool_decide_eq_true in H2.
Qed.
Lemma small_ordered : ordered (b_insts first_block ++ b_insts loop_block ++ b_insts exit_block).
Proof.
  assert (op_Add ∈ binops) as Hadd by (left).
  assert (∀ id (l : list val), bool_decide (VInst id ∉ l) = true → VInst id ∉ l) as Hn by (intros id l; apply bool_decide_eq_true_1).
  apply order_check_ok; [|by vm_compute]. unfold covered.
  repeat apply Forall_cons_2; [..|constructor].
  - do 4 right. left. split; [done|]. split; [by apply Hn|]. split; [done|]. by exists 1.
  - left. split_and!; [done|by apply Hn|done|]. exists 8, 32. split_and!; [done|done|].
    left. split_and!; done.
  - right. left. by split.
  - do 9 right. eexists. split; [done|]. intros w [= <-]. repeat constructor.
  - left. split_and!; [done|by apply Hn|done|]. exists 32. split_and!; try done.
  - left. split_and!; [done|by apply Hn|done|]. split_and!; try done. exists 32. by split_and!.
  - right. left. by split.
  - do 3 right. left. split; [done|]. intros w Hw. by split.
Qed.
Lemma small_wf m : rt_wf (bytes_with {[ shadow_for byte_addr := 1 ]} m).
Proof. exists ∅. apply bytes_with_wf. Qed.
Lemma small_label j a :
  app_range a 1 → label_at (mc_rt (small_start j)) a = if decide (a = byte_addr) then 1 else 0.
Proof.
  intros [Hl Hh]. unfold label_at. cbn. unfold peek.
  assert (AppAddr = 7 * 2 ^ 44 + 0x40000) as HA by reflexivity.
  assert (AppBaseAddr = 7 * 2 ^ 44) as HB by reflexivity.
  assert (byte_addr = 7 * 2 ^ 44 + 0x50000) as HC by reflexivity.
  case_decide as Ha; [by rewrite Ha, lookup_singleton_eq|]. rewrite lookup_singleton_ne; [done|].
  rewrite !shadow_for_app by lia. lia.
Qed.
Lemma small_consistent t' :
  consistent false sevens (mc_rt (small_start sevens)) t' (small_start sevens) small_runs.
Proof.
  assert (∀ j k, sden (mc_rt (small_start k)) j 1 = Some (VBV 8 (u8 (in_byte j 0)))) as Hd.
  { intros j k. rewrite (sden_key _ _ (input_record 0)); [by vm_compute|apply small_wf|by vm_compute|by vm_compute]. }
  split; [apply small_wf| | | |done].
  - intros l Hl. change (1 ≤ l ≤ 2) in Hl. assert (l = 1 ∨ l = 2) as [->| ->] by lia; by vm_compute.
  - intros v s w n Hv Hh Ht Hn. destruct v as [k|k| |]; try done.
  - intros a Ha. pose proof (small_label sevens a Ha) as Hl. unfold byte_symb, byte_fun. rewrite Hl.
    case_decide as Heq; [subst a|].
    + split_and!; [right; split_and!; [done|done|by vm_compute|intros j; by rewrite Hd]|by rewrite Hd|].
      intros j mem [= <-]. rewrite Hd.
      change (u8 (peek {[ byte_addr := u8 (in_byte j 0) ]} byte_addr) = u8 (in_byte j 0)).
      unfold peek. rewrite lookup_singleton_eq. apply u8_idemp.
    + rewrite sden_zero. split_and!; [by left|done|]. intros j mem [= <-]. rewrite sden_zero.
      change (u8 (peek {[ byte_addr := u8 (in_byte j 0) ]} a) = u8 (peek {[ byte_addr := u8 (in_byte sevens 0) ]} a)).
      unfold peek. by rewrite !lookup_singleton_ne by done.
Qed.
Definition accesses (i : inst) : bool :=
  match i_kind i with
  | ILoad _ | IStore _ _ | IMemSet _ _ _ | IMemTransfer _ _ _ | ICall _ _ _ _ => true
  | _ => false
  end.
Lemma no_access_clean {Zi : Z3} {Ops : LlvmOps} {DL : DataLayout} {PE : PassEnv} {Cs : Callees} xs (m : mach) :
  Forall (λ x, accesses (it_inst x) = false) xs → clean_run xs m.
Proof.
  intros H. revert m. induction H as [|x xs Hx _ IH]; intros m; [done|]. split; [|intros m' _; apply IH].
  unfold clean_step, accesses in *. by destruct (i_kind (it_inst x)).
Qed.
(** Through the first block and twice through the loop. *)
Lemma enter_items_rt {Zi : Z3} {Ops : LlvmOps} {DL : DataLayout} {PE : PassEnv} pred xs (m m' : mach) :
  enter_items pred xs m = Some m' → mc_rt m' = mc_rt m ∧ mc_args m' = mc_args m.
Proof.
  unfold enter_items. destruct (enter pred (it_inst <$> xs) m) as [m1|] eqn:He; [|done]. cbn [mbind option_bind].
  destruct (mapM (phi_label pred m) (filter (λ x, is_phi (it_inst x)) xs)); [|done]. intros [= <-].
  unfold enter in He. destruct (mapM (phi_value pred m) (filter is_phi (it_inst <$> xs))); [|done].
  by injection He as <-.
Qed.
Lemma body_clean {Zi : Z3} {Ops : LlvmOps} {DL : DataLayout} {PE : PassEnv} {Cs : Callees} xs (m : mach) :
  Forall (λ x, accesses (it_inst x) = false) xs → clean_run (item_body xs) m.
Proof.
  intros H. apply no_access_clean. apply Forall_forall. intros x [_ Hx]%list_elem_of_filter.
  by apply (proj1 (Forall_forall _ _) H).
Qed.
Lemma paths_clean {Zi : Z3} {Ops : LlvmOps} {DL : DataLayout} {PE : PassEnv} {Cs : Callees} path (m : mach) :
  Forall (λ p : Z * list item, Forall (λ x, accesses (it_inst x) = false) p.2) path → clean_path path m.
Proof.
  intros H. revert m. induction H as [|[pred xs] path Hx _ IH]; intros m; [done|].
  split; [intros m' _; by apply body_clean|intros m' _; apply IH].
Qed.
#[local] Instance no_calls : Callees (Zi:=Ref.z3) := no_callees.
Lemma small_clean m : mc_rt m = mc_rt (small_start sevens) → mc_args m = mc_args (small_start sevens) →
  ∀ x, i_kind (it_inst x) = ILoad (VArgument 0) → i_ty (it_inst x) = TInt 8 → clean_step x m.
Proof.
  intros Hrt Hargs x Hk Hty. unfold clean_step. rewrite Hk, Hty, Hrt. intros a Ha.
  change (mc_args m !! 0 = Some a) in Ha. rewrite Hargs in Ha. assert (a = byte_addr) as -> by by injection Ha.
  change (type_store_size (TInt 8)) with 1. assert (app_range byte_addr 1) as Hr by by vm_compute.
  pose proof (small_label sevens byte_addr Hr) as Hl. rewrite decide_True in Hl by done.
  split_and!; [done| |done]. right. split; [by rewrite Hl|]. cbv zeta beta. rewrite !Z.add_0_r, Hl. split; [intros _ k Hk'; lia|].
  by intros Hop; vm_compute in Hop.
Qed.
Lemma small_clean_path x0 xs1 rest m :
  mc_rt m = mc_rt (small_start sevens) → mc_args m = mc_args (small_start sevens) →
  i_kind (it_inst x0) = ILoad (VArgument 0) → i_ty (it_inst x0) = TInt 8 →
  Forall (λ x, accesses (it_inst x) = false) xs1 →
  Forall (λ p : Z * list item, Forall (λ x, accesses (it_inst x) = false) p.2) rest →
  clean_path ((0, x0 :: xs1) :: rest) m.
Proof.
  intros Hrt Hargs Hk Hty Hxs Hrest. split; [|intros m' _; by apply paths_clean].
  intros m' [Hrt' Hargs']%enter_items_rt. unfold item_body. rewrite filter_cons_True by (unfold is_phi; by rewrite Hk).
  split; [apply small_clean; congruence|]. intros m2 _. by apply (body_clean xs1).
Qed.
Lemma instrument_sound_witness :
  ∃ x0 x1 x2 phis t', instrument small_func false (fn_blocks small_func) small_tf = Ret ([x0; x1; x2], phis) t' ∧
    let items x := link (list_to_map phis) <$> x.2 in
    run_agrees false sevens (mc_rt (small_start sevens))
      (traced (b_insts first_block ++ b_insts loop_block ++ b_insts loop_block ++ b_insts exit_block ++ [])) t'
      (run_path [(0, items x0); (0, items x1); (1, items x1); (1, items x2)] (small_start sevens))
      (after_path sevens [(0, b_insts first_block); (0, b_insts loop_block); (1, b_insts loop_block); (1, b_insts exit_block)]
         small_runs).
Proof.
  destruct (instrument_sound (Zi:=Ref.z3) (Cs:=no_calls) small_func false sevens (Co:=no_callees_ok _) [first_block; loop_block; exit_block] small_tf
    (own_init 101)) as (xs & phis & t' & Hr & He & Hl & Hpath).
  { exact small_ordered. }
  { apply unvisited_init. by repeat constructor. }
  pose proof Hr as Hr'. vm_compute in Hr'. injection Hr' as Hxs Hphis _.
  destruct xs as [|x0 [|x1 [|x2 [|? ?]]]]; [done|done|done| |done]. exists x0, x1, x2, phis, t'. split; [exact Hr|].
  apply (Hpath [(0, (first_block, x0)); (0, (loop_block, x1)); (1, (loop_block, x1)); (1, (exit_block, x2))]).
  - intros p Hp. apply elem_of_cons in Hp as [->|Hp]; [left|].
    apply elem_of_cons in Hp as [->|Hp]; [right; left|]. apply elem_of_cons in Hp as [->|Hp]; [right; left|].
    apply elem_of_cons in Hp as [->|Hp]; [right; right; left|]. by apply not_elem_of_nil in Hp.
  - apply small_consistent.
  - done.
  - injection Hxs as <- <- <-. subst phis. apply small_clean_path; [done|done|..]; by repeat constructor.
Defined.
