(* ===== verification/PassFun.v ===== *)
(** * Instrumented functions, from arguments to result

    Labels go from the caller to the callee in [__dfsan_arg_tls] and back in
    [__dfsan_retval_tls]: the entry code of an instrumented function loads the
    labels of the arguments it uses, and a return stores the label of the
    result. *)
From S2P Require Import Prelude Platform Labels UnionTable Union Z3 State Denote Shadow ShadowSpec Solver Libc Invariant Ir Pass PassModule PassRun PassSpec PassMem PassVisit PassStep PassSound.

(** ** The entry code *)
Section entry.
Context {Zi : Z3} {Ops : LlvmOps} {DL : DataLayout} {PE : PassEnv} {Cs : Callees}.

Lemma entry_run pc l m :
  Forall entry_emit l →
  ∃ sh, for_each l (run_emit pc) m = Ret () (set_shadows sh m) ∧
    ∀ d, (∃ n, (d, n) ∈ entry_loads l ∧ sh !! d = Some (arg_label m n)) ∨
         (∀ n, (d, n) ∉ entry_loads l) ∧ sh !! d = mc_shadows m !! d.
Proof.
  intros Hl. revert m. induction Hl as [|e l He _ IH]; intros m; cbn [for_each].
  { exists (mc_shadows m). split; [by destruct m|]. intros d. right. split; [set_solver|done]. }
  destruct e as [d0 n0| | | | | | | | | | | | | | | | | | | | | | | |]; try done.
  - set (m1 := set_shadows (<[d0 := arg_label m n0]> (mc_shadows m)) m).
    rewrite (bind_run _ _ m () m1) by done. destruct (IH m1) as (sh & Hr & Hsh). exists sh. split; [done|].
    intros d. cbn. destruct (Hsh d) as [(n & Hn & Hd)|[Hn Hd]].
    + left. exists n. split; [set_solver|done].
    + rewrite Hd. cbn. destruct (decide (d = d0)) as [->|Hne].
      * left. exists n0. split; [set_solver|by rewrite lookup_insert_eq].
      * right. split; [intros n; specialize (Hn n); set_solver|by rewrite lookup_insert_ne].
  - rewrite (bind_run _ _ m () m) by done. apply IH.
Qed.

(** The labels of the arguments denote them, at the call. *)
Definition args_symb (inp : input) (m : mach) (rs : input → option mach) : Prop :=
  ∀ n w x, type_of (VArgument n) = TInt w → mc_args m !! n = Some x →
    ∃ f, symb (mc_rt m) w (arg_label m n) x f ∧ f inp = x ∧
      ∀ j mj, rs j = Some mj → mc_args mj !! n = Some (f j).
(** A function about to run: no values yet, and right labels. *)
Record called (inp : input) (m : mach) (rs : input → option mach) : Prop := {
  cl_vals : mc_vals m = ∅;
  cl_free : rt_free (mc_rt m);
  cl_args : args_symb inp m rs;
  cl_mem : mem_symb (mc_rt m) inp (λ j, mem_of <$> rs j);
}.

Lemma entry_agrees inp t pc m rs :
  ABI = IA_TLS → own t → called inp m rs →
  ∃ sh, for_each (tf_entry t) (run_emit pc) m = Ret () (set_shadows sh m) ∧
    consistent false inp (mc_rt m) t (set_shadows sh m) rs.
Proof.
  intros HA Ho [Hv [Hwf Hf] Ha Hm]. destruct (entry_run pc (tf_entry t) m (own_entry _ Ho)) as (sh & Hr & Hsh).
  exists sh. split; [done|]. split; [done|done| |done|done].
  intros v s w n Hc Hh Hw Hn. destruct v as [k|k| |]; try done.
  - destruct Hh as [Hh|[? _]]; [|done]. destruct (own_tls _ Ho k s HA Hh) as [d ->].
    destruct (Ha k w n Hw Hn) as (f & Hs & Hi & Hj). exists f. split_and!; [|done|done].
    simpl. destruct (Hsh d) as [(n' & Hn' & Hd)|[Hno _]].
    + rewrite Hd. apply (own_load _ Ho) in Hn'. by rewrite (own_args _ Ho _ _ _ Hn' Hh).
    + apply (own_load _ Ho) in Hh. by destruct (Hno k).
  - simpl in Hn. by rewrite Hv in Hn.
Qed.
End entry.

(** ** Returns *)
Section returns.
Context {Zi : Z3} {Ops : LlvmOps} {DL : DataLayout} {PE : PassEnv} {Cs : Callees}.
Context (inp : input).

(** The value returned at the end of a path. *)
Definition returns (l : list inst) : option val :=
  i ← last l; match i_kind i with IReturn v => v | _ => None end.
Definition path_result (path : list (Z * list inst)) : option val := p ← last path; returns p.2.
(** The label left for the caller denotes the value. *)
Definition result_symb (v : val) (m : mach) (rs : input → option mach) : Prop :=
  ∀ w n, type_of v = TInt w → value_of m v = Some n →
    ∃ f, symb (mc_rt m) w (mc_retval m) n f ∧ f inp = n ∧
      ∀ j mj, rs j = Some mj → value_of mj v = Some (f j).

Lemma for_each_last {S A} (l : list A) x (f : A → M S ()) s s' :
  for_each (l ++ [x]) f s = Ret () s' → ∃ s1, f x s1 = Ret () s'.
Proof.
  rewrite for_each_snoc. unfold mbind, M_bind. destruct (for_each l f s) as [[] s1| |]; [|done..]. by exists s1.
Qed.
Lemma returns_last l v :
  returns l = Some v → ∃ l0 i, l = l0 ++ [i] ∧ i_kind i = IReturn (Some v).
Proof.
  unfold returns. destruct (last l) as [i|] eqn:Hl; [|done]. cbn [mbind option_bind]. intros Hv.
  apply last_Some in Hl as [l0 ->]. exists l0, i. split; [done|]. by destruct (i_kind i); simplify_eq.
Qed.
Lemma return_visited t i x v :
  i_kind i = IReturn (Some v) → final false t i x → ret i ∧ ret_ok false t i x.
Proof.
  intros Hk [H|[(inc & Hi & _) _]]; [|by rewrite Hk in Hi]. pose proof H as H'.
  unfold visited_other, straight, branch, switch, access, select, gep, bulk, call in H. rewrite Hk in H. naive_solver.
Qed.
Lemma block_returns past t pred l xs m m' rs v :
  Forall2 (final false t) l xs → returns l = Some v → run_block (pred, xs) m = Ret () m' →
  consistent false inp past t m' rs → result_symb v m' rs.
Proof.
  intros Hx (l0 & i & -> & Hk)%returns_last Hrun Hc.
  apply Forall2_app_inv_l in Hx as (xs0 & xs1 & _ & Hx & ->).
  apply Forall2_cons_inv_l in Hx as (x & xs2 & Hx & Hnil & ->). apply Forall2_nil_inv_l in Hnil as ->.
  destruct (return_visited t i x v Hk Hx) as [Hr Hok]. pose proof Hok as (Hi & _).
  unfold run_block in Hrun. rewrite bind_get in Hrun. cbn [fst snd] in Hrun.
  destruct (enter_items _ _ m) as [m1|]; [|done]. rewrite (bind_run _ _ _ () m1) in Hrun by done.
  assert (item_body (xs0 ++ [x]) = item_body xs0 ++ [x]) as Hb.
  { unfold item_body. rewrite filter_app, filter_cons_True; [done|]. unfold is_phi. by rewrite Hi, Hk. }
  rewrite Hb in Hrun. apply for_each_last in Hrun as [m2 Hrun].
  destruct (ret_run false t i x m2 Hr Hok) as (lb & Hrun' & Hlab). rewrite Hrun in Hrun'. injection Hrun' as ->.
  rewrite Hk in Hlab. destruct (Hlab eq_refl) as (s & Hs & ->). intros w n Hw Hn.
  unfold ret in Hr. rewrite Hk in Hr.
  destruct (operand_symb _ _ _ _ _ _ _ _ _ _ Hc (proj2 Hr w Hw) Hs Hn) as (f & Hf & Hfi & Hfj). exists f.
  split_and!; [|done|done]. replace (mc_retval _) with (label_of (set_retval (label_of m2 s) m2) s); [done|].
  by destruct s.
Qed.
Lemma path_returns past t (path : list (Z * list inst * list item)) m m' rs v :
  Forall (λ p, NoDup (i_id <$> p.1.2) ∧ Forall2 (final false t) p.1.2 p.2) path → path_result path.*1 = Some v →
  run_path ((λ p : Z * list inst * list item, (p.1.1, p.2)) <$> path) m = Ret () m' →
  consistent false inp past t m' rs → result_symb v m' rs.
Proof.
  intros Hp Hv Hrun Hc. destruct path as [|p path _] using rev_ind; [done|].
  apply Forall_app in Hp as [_ [[_ Hx] _]%Forall_cons]. rewrite fmap_app in Hv. unfold path_result in Hv.
  cbn [fmap list_fmap] in Hv. rewrite last_snoc in Hv.
  rewrite fmap_app in Hrun. apply for_each_last in Hrun as [m1 Hrun]. by eapply block_returns.
Qed.
End returns.

(** ** A call *)
Section body.
Context {Zi : Z3} {Ops : LlvmOps} {DL : DataLayout} {PE : PassEnv} {Cs : Callees}.
Context (inp : input) {Co : CalleesOk inp}.
(** the blocks of the function, instrumented *)
Record instrumented (bs : list block) (xs : list (Z * list item)) (phis : list (Z * list shadow)) (t : tf) : Prop := {
  in_abi : ABI = IA_TLS;
  in_ordered : ordered (concat (b_insts <$> bs));
  in_own : own t;
  in_items : Forall2 (λ b x, x.1 = b_id b ∧ Forall2 (final false t) (b_insts b) (link (list_to_map phis) <$> x.2)) bs xs;
}.
Lemma instrument_instrumented F bs first :
  ABI = IA_TLS → ordered (concat (b_insts <$> bs)) → Forall (λ i, i_id i < first) (concat (b_insts <$> bs)) →
  ∃ xs phis t, instrument F false bs (tf_init first) = Ret (xs, phis) t ∧ instrumented bs xs phis t.
Proof.
  intros HA Hord Hids. destruct (instrument_runs F false bs (tf_init first) Hord (own_init _) (unvisited_init _ _ Hids))
    as ([xs phis] & t & Hr & _ & Ho & Hxs). exists xs, phis, t. by split.
Qed.
Lemma function_agrees bs xs phis t path m m2 rs pc :
  instrumented bs xs phis t → path.*2 ⊆ zip bs xs → called inp m rs → rs inp = Some m2 → same_values m m2 →
  ∃ m0, for_each (tf_entry t) (run_emit pc) m = Ret () m0 ∧
    (clean_path (path_items phis path) m0 →
     let o := run_path (path_items phis path) m0 in
     let rs' := after_path inp (path_code path) rs in
     run_agrees false inp (mc_rt m) (traced (concat (path_code path).*2)) t o rs' ∧
     ∀ m' v, o = Ret () m' → path_result (path_code path) = Some v → result_symb inp v m' rs').
Proof.
  intros [HA Hord Ho Hxs] Hp Hcall Hrs Hm. destruct (entry_agrees inp t pc m rs HA Ho Hcall) as (sh & He & Hc).
  exists (set_shadows sh m). split; [done|]. rewrite (path_steps_code phis), path_steps_items in *. intros Hcl o rs'.
  pose proof (path_steps_ok false bs xs phis t path Hord Hp Hxs) as Hok.
  assert (run_agrees false inp (mc_rt m) (traced (concat ((path_steps phis path).*1).*2)) t o rs') as Hag
    by by apply (path_agrees false inp (mc_rt m) t _ _ m2 rs).
  split; [done|]. intros m' v Ho' Hv. unfold run_agrees in Hag. rewrite Ho' in Hag.
  eapply path_returns; [exact Hok|exact Hv|exact Ho'|apply Hag].
Qed.
End body.

(** C5: an instrumented function keeps its promise to its caller. A function is
    instrumented (with labels passed in thread-local memory) and called in a
    state where the labels of the arguments and of memory denote their values for
    every input. Then its entry code runs; and along any path through its blocks,
    with clean loads and stores, the instrumented function computes the values and
    the memory of the original with right labels (or the label table is full, or
    the original is undefined, or the solver stopped the program), and when the
    path ends in a return the label left for the caller denotes the value
    returned, for every input that takes the same path. Functions the path calls
    keep the contract of callees. *)
Theorem function_sound {Zi : Z3} {Ops : LlvmOps} {DL : DataLayout} {PE : PassEnv} {Cs : Callees}
    F inp {Co : CalleesOk inp} bs first :
  ABI = IA_TLS → ordered (concat (b_insts <$> bs)) → Forall (λ i, i_id i < first) (concat (b_insts <$> bs)) →
  ∃ xs phis t', instrument F false bs (tf_init first) = Ret (xs, phis) t' ∧ length xs = length bs ∧
    ∀ path m rs pc, path.*2 ⊆ zip bs xs → called inp m rs → rs inp = Some m →
      ∃ m0, for_each (tf_entry t') (run_emit pc) m = Ret () m0 ∧
        (clean_path (path_items phis path) m0 →
         let o := run_path (path_items phis path) m0 in
         let rs' := after_path inp (path_code path) rs in
         run_agrees false inp (mc_rt m) (traced (concat (path_code path).*2)) t' o rs' ∧
         ∀ m' v, o = Ret () m' → path_result (path_code path) = Some v → result_symb inp v m' rs').
Proof.
  intros HA Hord Hids. destruct (instrument_instrumented F bs first HA Hord Hids) as (xs & phis & t' & Hr & Hin).
  exists xs, phis, t'. split_and!; [done|by symmetry; eapply Forall2_length, Hin|].
  intros path m rs pc Hp Hcall Hrs. by apply (function_agrees inp bs xs phis t' path m m).
Qed.

(** ** A function that adds 1 to its argument, called on the first byte of the input *)
#[local] Existing Instance layout64.
#[local] Existing Instance no_calls.
Definition incr_env : PassEnv := {|
  ClTraceFP := false;
  ClTraceGEPOffset := false;
  ABI := IA_TLS;
  type_of v := match v with VArgument _ | VInst 1 => TInt 8 | VConst w _ => TInt w | _ => TVoid end;
  GetUnderlyingObjects v := [v];
  constant_object _ := false;
  UnwrappedFnMap _ := None;
  wrapper_kind _ := WK_Warning;
  fn_type _ := TFun TVoid [] false;
|}.
#[local] Existing Instance incr_env.
Definition incr_block : block := Block 0
  [Inst 1 (TInt 8) (IBinary op_Add (VArgument 0) (VConst 8 1)) false;
   Inst 2 TVoid (IReturn (Some (VInst 1))) false].
Definition incr_func : func := Func "incr" (TFun (TInt 8) [TInt 8] false) [incr_block].
Definition incr_start (j : input) : mach (Zi:=Ref.z3) :=
  Mach ∅ {[ 0 := u8 (in_byte j 0) ]} ∅ ∅ ∅ {[ 0 := 1 ]} 0 (bytes_with ∅ ∅).
Lemma incr_ordered : ordered (b_insts incr_block).
Proof.
  assert (op_Add ∈ binops) as Hadd by left.
  assert (∀ id (l : list val), bool_decide (VInst id ∉ l) = true → VInst id ∉ l) as Hn
    by (intros id l; apply bool_decide_eq_true_1).
  apply order_check_ok; [|by vm_compute]. repeat apply Forall_cons_2; [..|constructor].
  - left. split_and!; [done|by apply Hn|done|]. exists 8. by split_and!.
  - do 3 right. left. split; [done|]. intros w Hw. by split.
Qed.
Lemma incr_called : called sevens (incr_start sevens) (λ j, Some (incr_start j)).
Proof.
  assert (rt_wf (bytes_with ∅ ∅)) as Hwf by (exists ∅; apply bytes_with_wf).
  split; [done| | |].
  - split; [done|]. intros l Hl. change (1 ≤ l ≤ 2) in Hl. assert (l = 1 ∨ l = 2) as [->| ->] by lia; by vm_compute.
  - intros n w x Hw Hx. change (({[ 0 := u8 (in_byte sevens 0) ]} : gmap Z Z) !! n = Some x) in Hx.
    apply lookup_singleton_Some in Hx as [<- <-]. injection Hw as <-. exists (λ j, u8 (in_byte j 0)).
    split_and!; [|done|by intros j mj [= <-]]. split; [intros j; apply u8_range|]. right. split; [by vm_compute|].
    intros j. change (sden (bytes_with ∅ ∅) j 1 = Some (enc 8 (u8 (in_byte j 0)))).
    rewrite (sden_key _ _ (input_record 0)); [by vm_compute|done|by vm_compute|by vm_compute].
  - intros a _. assert (label_at (bytes_with ∅ ∅) a = 0) as Hl by done.
    split_and!; [by left|by rewrite byte_fun_const|]. intros j mem [= <-]. by rewrite byte_fun_const.
Qed.
Lemma function_sound_witness :
  ∃ x0 phis t', instrument incr_func false (fn_blocks incr_func) (tf_init 101) = Ret ([x0], phis) t' ∧
    let path := [(0, (incr_block, x0))] in
    ∃ m0, for_each (tf_entry t') (run_emit 0) (incr_start sevens) = Ret () m0 ∧
      let o := run_path (path_items phis path) m0 in
      let rs' := after_path sevens (path_code path) (λ j, Some (incr_start j)) in
      run_agrees false sevens (mc_rt (incr_start sevens)) (traced (Zi:=Ref.z3) (concat (path_code path).*2)) t' o rs' ∧
      ∀ m', o = Ret () m' → result_symb sevens (VInst 1) m' rs'.
Proof.
  destruct (function_sound (Zi:=Ref.z3) (PE:=incr_env) (Cs:=no_calls) incr_func sevens (Co:=no_callees_ok _) [incr_block] 101 eq_refl)
    as (xs & phis & t' & Hr & Hl & Hpath).
  { exact incr_ordered. }
  { by repeat constructor. }
  pose proof Hr as Hr'. vm_compute in Hr'. injection Hr' as Hxs Hphis _.
  destruct xs as [|x0 [|? ?]]; [done| |done]. exists x0, phis, t'. split; [exact Hr|]. intros path.
  destruct (Hpath path (incr_start sevens) (λ j, Some (incr_start j)) 0) as (m0 & Hm0 & Hrun).
  - intros p Hp. apply elem_of_cons in Hp as [->|Hp]; [left|]. by apply not_elem_of_nil in Hp.
  - exact incr_called.
  - done.
  - exists m0. split; [exact Hm0|]. intros o rs'. destruct Hrun as [Hag Hres].
    { injection Hxs as <-. subst phis. apply paths_clean. by repeat constructor. }
    split; [exact Hag|]. intros m' Ho. by apply (Hres m' (VInst 1)).
Defined.
