(* ===== verification/PassInter.v ===== *)
(** * Calls between instrumented functions

    An instrumented function keeps the promise its callers rely on ([CalleesOk]):
    it is a callee whose labels are right for the callers of [PassSound.v], and
    its own calls may go to such callees again, to any depth. *)
From S2P Require Import Prelude Platform Labels UnionTable Union Z3 State Denote Shadow ShadowSpec Solver Libc Invariant Ir Pass PassModule PassRun PassSpec PassMem PassVisit PassStep PassSound PassFun.

(** ** The original program along a path *)
Section plain.
Context {Zi : Z3} {Ops : LlvmOps} {DL : DataLayout} {PE : PassEnv} {Cs : Callees}.
Fixpoint plain_path (path : list (Z * list inst)) (m : mach) : option mach :=
  match path with
  | [] => Some m
  | (pred, l) :: path =>
      m1 ← enter pred l m;
      match for_each (body l) run_inst m1 with Ret _ m2 => plain_path path m2 | _ => None end
  end.
Lemma after_path_inp inp {Co : CalleesOk inp} path rs m :
  rs inp = Some m → after_path inp path rs inp = plain_path path m.
Proof.
  revert rs m. induction path as [|[pred l] path IH]; intros rs m Hr; [done|]. cbn [after_path plain_path].
  assert (entered pred l rs inp = enter pred l m) as He by (unfold entered; by rewrite Hr).
  destruct (enter pred l m) as [m1|]; cbn [mbind option_bind].
  - pose proof (after_inp inp (body l) (entered pred l rs) m1 He) as Ha. fold (after_block inp pred l rs) in Ha.
    destruct (for_each _ _ _) as [[] m2| |]; [by apply IH|by apply (after_path_none inp)..].
  - apply (after_path_none inp). by apply (after_none inp).
Qed.
End plain.

(** ** A function as a callee

    Its code before and after the instrumentation, and the way control takes
    through its blocks, a function of the arguments and of memory (the model of
    the IR has no targets of branches). *)
Record code {Zi : Z3} {Ops : LlvmOps} := Code {
  co_func : func;
  co_ret : ty;
  co_env : PassEnv;
  co_callees : Callees;
  co_blocks : list block;
  co_first : Z;
  co_items : list (Z * list item);
  co_phis : list (Z * list shadow);
  co_tf : tf;
  co_path : gmap Z Z → gmap Z Z → list (Z * (block * (Z * list item)));
}.

Section callee.
Context {Zi : Z3} {Ops : LlvmOps} {DL : DataLayout} {PE : PassEnv}.
Context (g : code).

Record code_ok (inp : input) : Prop := {
  ok_callees : CalleesOk (PE:=co_env g) (Cs:=co_callees g) inp;
  ok_abi : ABI (PassEnv:=co_env g) = IA_TLS;
  ok_ordered : ordered (PE:=co_env g) (concat (b_insts <$> co_blocks g));
  ok_first : Forall (λ i, i_id i < co_first g) (concat (b_insts <$> co_blocks g));
  ok_code :
    instrument (PE:=co_env g) (co_func g) false (co_blocks g) (tf_init (co_first g)) =
      Ret (co_items g, co_phis g) (co_tf g);
  ok_path args mem : (co_path g args mem).*2 ⊆ zip (co_blocks g) (co_items g);
  ok_result args mem v :
    path_result (path_code (co_path g args mem)) = Some v → type_of (PassEnv:=co_env g) v = co_ret g;
}.

(** The state of the callee: its arguments, and nothing else of the caller but
    thread-local labels, memory and the runtime. *)
Definition arg_values (i : inst) (m : mach) : option (list Z) :=
  match i_kind i with ICall _ fty args _ => mapM (value_of m) (call_args fty args) | _ => None end.
Definition frame (ns : list Z) (m : mach) : mach :=
  Mach ∅ (map_seqZ 0 ns) ∅ ∅ ∅ (mc_argtls m) (mc_retval m) (mc_rt m).
Definition way (m0 : mach) : list (Z * (block * (Z * list item))) := co_path g (mc_args m0) (mem_of m0).
(** Back in the caller, with the value returned. *)
Definition resume (i : inst) (n : option Z) (m m1 : mach) : mach :=
  Mach (match n with Some n => <[i_id i := n]> (mc_vals m) | None => mc_vals m end)
    (mc_args m) (mc_shadows m) (mc_params m) (mc_slots m) (mc_argtls m1) (mc_retval m1) (mc_rt m1).
Definition leave (i : inst) (r : option val) (m m1 : mach) : option mach :=
  if is_void (i_ty i) then Some (resume i None m m1)
  else v ← r; n ← value_of m1 v; Some (resume i (Some n) m m1).

Definition call_instrumented (i : inst) : M mach () := λ m,
  match arg_values i m with
  | None => Halt (HTerminate undefined) m
  | Some ns =>
      let m0 := frame ns m in
      match (for_each (tf_entry (co_tf g)) (run_emit (PE:=co_env g) (i_id i)) ;;
             run_path (PE:=co_env g) (Cs:=co_callees g) (path_items (co_phis g) (way m0))) m0 with
      | Ret _ m1 =>
          match leave i (path_result (path_code (way m0))) m m1 with
          | Some m' => Ret () m'
          | None => Halt (HTerminate undefined) m
          end
      | Throw e m1 => Throw e (resume i None m m1)
      | Halt h m1 => Halt h (resume i None m m1)
      end
  end.
Definition call_plain (i : inst) (m : mach) : option mach :=
  ns ← arg_values i m;
  let m0 := frame ns m in
  m1 ← plain_path (PE:=co_env g) (Cs:=co_callees g) (path_code (way m0)) m0;
  leave i (path_result (path_code (way m0))) m m1.
Definition call_original (i : inst) : M mach () := λ m,
  match call_plain i m with Some m' => Ret () m' | None => Halt (HTerminate undefined) m end.
(** On the input [inp] the callee takes its way; another input follows it as long
    as its original takes the same way, with the same addresses. *)
Definition framed (i : inst) (rs : input → option mach) (j : input) : option mach :=
  mj ← rs j; ns ← arg_values i mj; Some (frame ns mj).
Definition call_follows (inp : input) (i : inst) (rs : input → option mach) (j : input) : option mach :=
  m0 ← framed i rs inp;
  mj ← rs j;
  m1 ← after_path (PE:=co_env g) (Cs:=co_callees g) inp (path_code (way m0)) (framed i rs) j;
  leave i (path_result (path_code (way m0))) mj m1.
(** The call site has the type of the function. *)
Definition typed_call (i : inst) : Prop :=
  i_ty i = co_ret g ∧
  match i_kind i with
  | ICall _ fty args _ => ∀ (k : nat) v w, call_args fty args !! k = Some v →
      type_of (PassEnv:=co_env g) (VArgument (Z.of_nat k)) = TInt w → type_of v = TInt w
  | _ => False
  end.
Definition call_clean (i : inst) (m : mach) : Prop :=
  typed_call i ∧
  ∀ ns m0, arg_values i m = Some ns →
    for_each (tf_entry (co_tf g)) (run_emit (PE:=co_env g) (i_id i)) (frame ns m) = Ret () m0 →
    clean_path (PE:=co_env g) (Cs:=co_callees g) (path_items (co_phis g) (way (frame ns m))) m0.

Definition calls_it (i : inst) : bool :=
  match i_kind i with ICall (CalleeFun f) _ _ _ => String.eqb f (fn_name (co_func g)) | _ => false end.
(** The callees [Cs], and this function. *)
Definition with_function (Cs : Callees) : Callees := {|
  callee_instrumented i := if calls_it i then call_instrumented i else callee_instrumented i;
  callee_original i := if calls_it i then call_original i else callee_original i;
  callee_follows inp i := if calls_it i then call_follows inp i else callee_follows inp i;
  callee_clean i m := if calls_it i then call_clean i m else callee_clean i m;
  callee_traces i :=
    if calls_it i then traced (PE:=co_env g) (Cs:=co_callees g) (concat (b_insts <$> co_blocks g)) else callee_traces i;
|}.
End callee.

Section contract.
Context {Zi : Z3} {Ops : LlvmOps} {DL : DataLayout} {PE : PassEnv}.
Context (g : code) (inp : input) (Hg : code_ok g inp).

Lemma code_instrumented : instrumented (PE:=co_env g) (co_blocks g) (co_items g) (co_phis g) (co_tf g).
Proof.
  destruct (instrument_instrumented (PE:=co_env g) (co_func g) (co_blocks g) (co_first g))
    as (xs & phis & t & Hr & Hin); [apply Hg..|]. rewrite (ok_code _ _ Hg) in Hr. by injection Hr as <- <- <-.
Qed.
Lemma arg_values_same i m m2 : same_values m m2 → arg_values i m2 = arg_values i m.
Proof.
  intros Hm. unfold arg_values. destruct (i_kind i); try done. apply mapM_ext. intros v. by apply value_of_same.
Qed.
Lemma framed_some i rs j m0 :
  framed i rs j = Some m0 → ∃ mj ns, rs j = Some mj ∧ arg_values i mj = Some ns ∧ m0 = frame ns mj.
Proof.
  unfold framed. destruct (rs j) as [mj|]; [|done]. cbn [mbind option_bind].
  destruct (arg_values i mj) as [ns|] eqn:Hn; [|done]. intros [= <-]. by exists mj, ns.
Qed.
Lemma leave_keeps i r m m1 m' :
  leave i r m m1 = Some m' →
  call_keeps i m m' ∧ mc_shadows m' = mc_shadows m ∧ mc_params m' = mc_params m ∧
  mc_rt m' = mc_rt m1 ∧ mc_retval m' = mc_retval m1.
Proof.
  unfold leave. destruct (is_void (i_ty i)); [by intros [= <-]|]. destruct r as [v|]; [|done]. cbn [mbind option_bind].
  destruct (value_of m1 v) as [n|]; [|done]. intros [= <-]. split_and!; try done. split; [done|].
  intros id Hid. cbn. by rewrite lookup_insert_ne.
Qed.
Lemma call_follows_inp i rs : call_follows g inp i rs inp = m ← rs inp; call_plain g i m.
Proof.
  unfold call_follows. destruct (framed i rs inp) as [m0|] eqn:Hf; cbn [mbind option_bind].
  - pose proof (ok_callees _ _ Hg) as Co.
    rewrite (after_path_inp (PE:=co_env g) (Cs:=co_callees g) inp _ _ m0 Hf).
    destruct (framed_some _ _ _ _ Hf) as (m & ns & -> & Hn & ->). cbn [mbind option_bind].
    unfold call_plain. by rewrite Hn.
  - unfold framed in Hf. destruct (rs inp) as [m|]; [|done]. cbn [mbind option_bind] in *.
    unfold call_plain. by destruct (arg_values i m).
Qed.
Lemma call_follows_some i rs j mj' :
  call_follows g inp i rs j = Some mj' →
  ∃ m0 mj m1, framed i rs inp = Some m0 ∧ rs j = Some mj ∧
    after_path (PE:=co_env g) (Cs:=co_callees g) inp (path_code (way g m0)) (framed i rs) j = Some m1 ∧
    leave i (path_result (path_code (way g m0))) mj m1 = Some mj'.
Proof.
  unfold call_follows. destruct (framed i rs inp) as [m0|]; [|done]. cbn [mbind option_bind].
  destruct (rs j) as [mj|]; [|done]. cbn [mbind option_bind].
  destruct (after_path _ _ _ _) as [m1|] eqn:Ha; [|done]. intros Hl. by exists m0, mj, m1.
Qed.
(** The callee finds the arguments and their labels. *)
Lemma frame_called i f fty args m rs ns :
  i_kind i = ICall (CalleeFun f) fty args false → typed_call g i → rt_free (mc_rt m) →
  passed inp (call_args fty args) m rs → mem_symb (mc_rt m) inp (λ j, mem_of <$> rs j) →
  arg_values i m = Some ns → called (PE:=co_env g) inp (frame ns m) (framed i rs).
Proof.
  intros Hk [_ Ht] Hf Hp Hm Hns. rewrite Hk in Ht. split; [done|done| |].
  - intros n w x Hw Hx. cbn in Hx. apply lookup_map_seqZ_Some in Hx as [Hn Hx]. rewrite Z.sub_0_r in Hx.
    unfold arg_values in Hns. rewrite Hk in Hns. apply mapM_Some in Hns.
    destruct (Forall2_lookup_r _ _ _ _ _ Hns Hx) as (v & Hv & Hvx).
    assert (Z.of_nat (Z.to_nat n) = n) as Hz by lia.
    assert (type_of v = TInt w) as Htv by (apply (Ht (Z.to_nat n)); [done|by rewrite Hz]).
    destruct (Hp (Z.to_nat n) v w x Hv Htv Hvx) as (h & Hs & Hi & Hj). rewrite Hz in Hs.
    exists h. split_and!; [done|done|]. intros j mj0 (mj & nsj & Hrj & Hnsj & ->)%framed_some. cbn.
    apply lookup_map_seqZ_Some. split; [done|]. rewrite Z.sub_0_r.
    unfold arg_values in Hnsj. rewrite Hk in Hnsj. apply mapM_Some in Hnsj.
    destruct (Forall2_lookup_l _ _ _ _ _ Hnsj Hv) as (y & Hy & Hvy). rewrite (Hj j mj Hrj) in Hvy. congruence.
  - apply (mem_symb_kept (mc_rt m) _ _ (λ j, mem_of <$> rs j)); [apply Hf|done| |done].
    intros j mem. cbv beta. destruct (framed i rs j) as [mj0|] eqn:Hj; [|done]. intros [= <-].
    destruct (framed_some _ _ _ _ Hj) as (mj & nsj & -> & _ & ->). done.
Qed.
Lemma traced_blocks path :
  path.*2 ⊆ zip (co_blocks g) (co_items g) →
  traced (PE:=co_env g) (Cs:=co_callees g) (concat (path_code path).*2) →
  traced (PE:=co_env g) (Cs:=co_callees g) (concat (b_insts <$> co_blocks g)).
Proof.
  intros Hp (i & Hi & Ht). exists i. split; [|done]. apply list_elem_of_In, in_concat in Hi as (l & Hl & Hi).
  apply list_elem_of_In in Hl. apply list_elem_of_fmap in Hl as (p & -> & Hl).
  apply list_elem_of_fmap in Hl as ([pred [b x]] & -> & Hb). cbn in Hi.
  apply list_elem_of_In, in_concat. exists (b_insts b). split; [|done]. apply list_elem_of_In, list_elem_of_fmap_2.
  assert ((b, x) ∈ zip (co_blocks g) (co_items g)) as Hz by (apply Hp; by apply (list_elem_of_fmap_2' snd _ (pred, (b, x)))).
  by apply elem_of_zip_l in Hz.
Qed.
Lemma leave_same i r m m2 m1 m3 :
  same_values m m2 → same_values m1 m3 →
  match leave i r m m1 with
  | Some m' => ∃ m2', leave i r m2 m3 = Some m2' ∧ same_values m' m2'
  | None => leave i r m2 m3 = None
  end.
Proof.
  intros (Hv & Ha & _) H1. pose proof H1 as (_ & _ & Hm1). unfold leave.
  assert (∀ n, same_values (resume i n m m1) (resume i n m2 m3)) as Hr
    by (intros n; split_and!; cbn; [by rewrite Hv|done|done]).
  destruct (is_void (i_ty i)); [by eexists|]. destruct r as [v|]; [|done]. cbn [mbind option_bind].
  rewrite (value_of_same _ _ v H1). destruct (value_of m1 v) as [n|]; [|done]. by eexists.
Qed.
(** The label of the result, back in the caller. *)
Lemma leave_result i v m m' m1 (rs rs' : input → option mach) w n :
  i_ty i = TInt w → type_of (PassEnv:=co_env g) v = TInt w →
  result_symb (PE:=co_env g) inp v m1 rs' → leave i (Some v) m m1 = Some m' → mc_vals m' !! i_id i = Some n →
  (∀ j mj', rs j = Some mj' → ∃ mj m1j, rs' j = Some m1j ∧ leave i (Some v) mj m1j = Some mj') →
  ∃ f, symb (mc_rt m') w (mc_retval m') n f ∧ f inp = n ∧
    ∀ j mj, rs j = Some mj → mc_vals mj !! i_id i = Some (f j).
Proof.
  intros Ht Hv Hr Hl Hn Hrs. unfold leave in Hl, Hrs. rewrite Ht in Hl, Hrs. cbn [is_void mbind option_bind] in Hl, Hrs.
  destruct (value_of m1 v) as [k|] eqn:Hk; [|done]. injection Hl as <-. cbn in Hn. rewrite lookup_insert_eq in Hn.
  injection Hn as <-. destruct (Hr w k Hv Hk) as (f & Hf & Hi & Hj). exists f. split_and!; [done|done|].
  intros j mj' (mj & m1j & Hm1 & Hlj)%Hrs. rewrite (Hj _ _ Hm1) in Hlj. injection Hlj as <-. cbn. by rewrite lookup_insert_eq.
Qed.
Lemma leave_returns i r P t m m1 m2 rs (rs' rs'' : input → option mach) :
  i_ty i = co_ret g → (∀ v, r = Some v → type_of (PassEnv:=co_env g) v = co_ret g ∧ result_symb (PE:=co_env g) inp v m1 rs') →
  consistent (PE:=co_env g) false inp (mc_rt m) t m1 rs' → (∃ m3, rs' inp = Some m3 ∧ same_values m1 m3) →
  rs inp = Some m2 → same_values m m2 →
  (∀ j, rs'' j = mj ← rs j; m1 ← rs' j; leave i r mj m1) →
  call_returned inp i P m (match leave i r m m1 with Some m' => Ret () m' | None => Halt (HTerminate undefined) m end) rs''.
Proof.
  intros Ht Hv Hc (m3 & Hm3 & Hs3) Hrs Hm Hfol. pose proof (leave_same i r m m2 m1 m3 Hm Hs3) as Hl.
  pose proof (Hfol inp) as Hinp. rewrite Hrs, Hm3 in Hinp. cbn [mbind option_bind] in Hinp.
  assert (∀ j mj', rs'' j = Some mj' → ∃ mj m1j, rs' j = Some m1j ∧ leave i r mj m1j = Some mj') as Hj.
  { intros j mj'. rewrite Hfol. destruct (rs j) as [mj|]; [|done]. destruct (rs' j) as [m1j|]; [|done]. by exists mj, m1j. }
  destruct (leave i r m m1) as [m'|] eqn:Hlm; [|right; right; congruence]. destruct Hl as (m2' & Hl2 & Hs2).
  destruct (leave_keeps _ _ _ _ _ Hlm) as (Hk & Hsh & Hpa & Hrt & Hre). unfold call_returned. rewrite Hrt.
  split_and!; [apply Hk|done|done|split; [apply (cs_wf _ _ _ _ _ _ Hc)|apply (cs_free _ _ _ _ _ _ Hc)]|apply (cs_since _ _ _ _ _ _ Hc)| | |].
  - apply (mem_symb_kept (mc_rt m1) _ _ (λ j, mem_of <$> rs' j)); [apply (cs_wf _ _ _ _ _ _ Hc)|done| |apply (cs_mem _ _ _ _ _ _ Hc)].
    intros j mem. cbv beta. destruct (rs'' j) as [mj'|] eqn:Hr; [|done]. intros [= <-].
    destruct (Hj _ _ Hr) as (mj & m1j & -> & Hlj). destruct (leave_keeps _ _ _ _ _ Hlj) as (_ & _ & _ & Hrj & _).
    cbn. unfold mem_of. by rewrite Hrj.
  - intros w n Hw Hn. destruct r as [v|]; [|unfold leave in Hlm; by rewrite Hw in Hlm].
    destruct (Hv v eq_refl) as [Hvt Hvr]. rewrite <- Hrt. eapply (leave_result i v m m' m1); [done|by rewrite Hvt, <- Ht|done..].
  - exists m2'. split; [congruence|done].
Qed.
Lemma call_returns i f fty args m m2 rs :
  i_kind i = ICall (CalleeFun f) fty args false →
  rt_free (mc_rt m) → passed inp (call_args fty args) m rs → mem_symb (mc_rt m) inp (λ j, mem_of <$> rs j) →
  rs inp = Some m2 → same_values m m2 → call_clean g i m →
  call_returned inp i (traced (PE:=co_env g) (Cs:=co_callees g) (concat (b_insts <$> co_blocks g)))
    m (call_instrumented g i m) (call_follows g inp i rs).
Proof.
  intros Hk Hf Hp Hmem Hrs Hm [Ht Hcl]. pose proof (ok_callees _ _ Hg) as Co. unfold call_instrumented.
  destruct (arg_values i m) as [ns|] eqn:Hns.
  2:{ right. right. rewrite call_follows_inp, Hrs. cbn [mbind option_bind]. unfold call_plain.
      by rewrite (arg_values_same i m m2), Hns. }
  assert (framed i rs inp = Some (frame ns m2)) as Hfr.
  { unfold framed. rewrite Hrs. cbn [mbind option_bind]. by rewrite (arg_values_same i m m2), Hns. }
  assert (same_values (frame ns m) (frame ns m2)) as Hm0 by (split_and!; [done..|by apply Hm]).
  assert (way g (frame ns m2) = way g (frame ns m)) as Hway by (unfold way; by destruct Hm0 as (_ & -> & ->)).
  set (m0 := frame ns m) in *. set (path := way g m0) in *.
  pose proof (frame_called i f fty args m rs ns Hk Ht Hf Hp Hmem Hns) as Hcall.
  destruct (function_agrees (PE:=co_env g) (Cs:=co_callees g) inp _ _ _ _ path m0 (frame ns m2) (framed i rs) (i_id i)
              code_instrumented (ok_path _ _ Hg _ _) Hcall Hfr Hm0) as (me & He & Hrun).
  rewrite (bind_run _ _ _ () me He). destruct (Hrun (Hcl ns me eq_refl He)) as [Hag Hres]. clear Hrun.
  pose proof (traced_blocks path (ok_path _ _ Hg _ _)) as Htr.
  assert (∀ j, call_follows g inp i rs j =
            mj ← rs j; m1 ← after_path (PE:=co_env g) (Cs:=co_callees g) inp (path_code path) (framed i rs) j;
            leave i (path_result (path_code path)) mj m1) as Hfol.
  { intros j. unfold call_follows. rewrite Hfr. cbn [mbind option_bind]. by rewrite Hway. }
  assert (after_path (PE:=co_env g) (Cs:=co_callees g) inp (path_code path) (framed i rs) inp = None →
          call_follows g inp i rs inp = None) as Hnone.
  { intros Ha. rewrite Hfol, Hrs. cbn [mbind option_bind]. by rewrite Ha. }
  unfold run_agrees in Hag. destruct (run_path _ me) as [[] m1|e m1|h m1] eqn:Hrun.
  - destruct Hag as [Hc Hs]. eapply (leave_returns i _ _ _ m m1 m2 rs); [by apply Ht| |exact Hc|exact Hs|done..].
    intros v Hv. split; [by eapply (ok_result _ _ Hg)|by eapply Hres].
  - unfold call_returned. tauto.
  - unfold call_returned. tauto.
Qed.
End contract.

(** C6: an instrumented function can be called from instrumented code. A function
    is instrumented in the TLS ABI, its blocks are those the pass returned, and
    the functions it calls keep the contract of callees. Then the function keeps
    the contract too: called with labels that denote the arguments and the
    memory, it returns (unless the label table is full, the original is undefined,
    or the solver stopped the program) with the values of the original, only the
    result of the call set in the caller, a label of the result in
    [__dfsan_retval_tls] that denotes it for every input that takes the same way
    through the callee, and labels of memory that denote the bytes the original
    leaves. So the soundness of instrumented code extends to calls, of any depth. *)
Theorem function_contract {Zi : Z3} {Ops : LlvmOps} {DL : DataLayout} {PE : PassEnv} {Cs : Callees} g inp :
  code_ok g inp → CalleesOk (Cs:=Cs) inp → CalleesOk (Cs:=with_function g Cs) inp.
Proof.
  intros Hg [Hinp Hkeep Hret]. split.
  - intros i rs Hi. specialize (Hinp i rs Hi). unfold plain, run_inst, is_call in *. cbn [with_function callee_follows callee_original].
    destruct (i_kind i) eqn:Hk; try done. destruct (calls_it g i); [|done]. rewrite (call_follows_inp g inp Hg).
    destruct (rs inp) as [m|]; [|done]. cbn [mbind option_bind]. unfold call_original. by destruct (call_plain g i m).
  - intros i rs j mj. cbn [with_function callee_follows]. destruct (calls_it g i); [|apply Hkeep].
    intros (m0 & m & m1 & _ & Hr & _ & Hl)%call_follows_some. exists m. split; [done|]. by eapply leave_keeps.
  - intros i f fty args m m2 rs Hk Hf Hp Hm Hr Hs. cbn [with_function callee_clean callee_traces callee_instrumented callee_follows].
    destruct (calls_it g i); [by apply (call_returns g inp Hg i f fty args m m2)|by eapply Hret].
Qed.

(** ** The function that adds 1, as a callee *)
#[local] Existing Instance layout64.
Definition incr_code : code (Zi:=Ref.z3) :=
  let r := instrument (PE:=incr_env) incr_func false [incr_block] (tf_init 101) in
  let '(items, phis, t) := match r with Ret x t => (x, t) | Throw _ t | Halt _ t => ([], [], t) end in
  Code _ _ incr_func (TInt 8) incr_env no_calls [incr_block] 101 items phis t
    (λ _ _, match items with x :: _ => [(0, (incr_block, x))] | [] => [] end).
Definition incr_call : inst := Inst 7 (TInt 8) (ICall (CalleeFun "incr") (TFun (TInt 8) [TInt 8] false) [VInst 1] false) false.
(** A caller that holds the first byte of the input. *)
Definition incr_caller (j : input) : mach (Zi:=Ref.z3) :=
  Mach {[ 1 := u8 (in_byte j 0) ]} ∅ ∅ ∅ ∅ {[ 0 := 1 ]} 0 (bytes_with ∅ ∅).
Lemma incr_code_ok : code_ok incr_code sevens.
Proof.
  split.
  - apply (no_callees_ok (Zi:=Ref.z3)).
  - done.
  - exact incr_ordered.
  - by repeat constructor.
  - by vm_compute.
  - intros args mem. vm_compute. intros p Hp. exact Hp.
  - intros args mem v. vm_compute. by intros [= <-].
Qed.
(** The call returns 8 for the byte 7, with the label of the sum. *)
Lemma function_contract_witness :
  CalleesOk (PE:=incr_env) (Cs:=with_function (PE:=incr_env) incr_code no_calls) sevens ∧
  match callee_instrumented (Callees:=with_function (PE:=incr_env) incr_code no_calls) incr_call (incr_caller sevens) with
  | Ret _ m' => (mc_vals m' !! 7, mc_retval m') = (Some 8, 3)
  | _ => False
  end.
Proof.
  split; [|by vm_compute].
  apply (function_contract (PE:=incr_env) (Cs:=no_calls) incr_code sevens); [exact incr_code_ok|apply (no_callees_ok (Zi:=Ref.z3))].
Defined.
