(* ===== verification/PassContext.v ===== *)
(** * The calling context and shadow addresses of instrumented code

    The code [addContextRecording] inserts keeps in [__taint_trace_callstack]
    the xor of the identifiers of the functions on the stack. Its meaning is a
    relation on the value of that variable, with nested calls; the theorems say
    that the context is the caller's xor the function's identifier while the
    function runs and is restored on every path that returns. *)
From S2P Require Import Prelude Platform Ir Pass PassModule.

(** ** Execution *)

(** The functions of the program: identifier and blocks, entry first. *)
Definition program : Type := list (Z * list block).

(** A path through a function: the entry block, then blocks that are not the
    entry (which has no predecessors), ending with the first instruction that
    leaves. *)
Record frame := Frame { fr_cid : Z; fr_entry : block; fr_rest : list block; fr_exit : inst }.
Definition frame_code (fr : frame) : list inst :=
  concat (b_insts <$> fr_entry fr :: fr_rest fr).
Definition frame_ok (p : program) (fr : frame) : Prop :=
  ∃ others init, (fr_cid fr, fr_entry fr :: others) ∈ p ∧ fr_rest fr ⊆ others ∧
    frame_code fr = init ++ [fr_exit fr] ∧ leaves (fr_exit fr) = true ∧
    Forall (λ i, leaves i = false) init.
(** The instrumented code of the path. *)
Definition frame_items (fr : frame) : list ctx_inst :=
  concat ((λ x, x.2) <$> addContextRecording (fr_cid fr) (fr_entry fr :: fr_rest fr)).

Section context.
Context (p : program).

Definition is_call (i : inst) : bool := match i_kind i with ICall _ _ _ _ => true | _ => false end.

(** [steps l saved g saved' g']: running [l] with the function's saved value
    [saved], from context [g] to [g']. A call enters an instrumented function or
    one that leaves the variable alone. *)
Inductive steps : list ctx_inst → option Z → Z → option Z → Z → Prop :=
| steps_nil saved g : steps [] saved g saved g
| steps_enter cid l saved g saved' g' :
    steps l (Some g) (Z.lxor g cid) saved' g' → steps (CtxEnter cid :: l) saved g saved' g'
| steps_leave l s g saved' g' :
    steps l (Some s) s saved' g' → steps (CtxLeave :: l) (Some s) g saved' g'
| steps_orig i l saved g saved' g' :
    steps l saved g saved' g' → steps (CtxOrig i :: l) saved g saved' g'
| steps_call i l fr saved s1 g g1 saved' g' :
    is_call i = true → frame_ok p fr → steps (frame_items fr) None g s1 g1 →
    steps l saved g1 saved' g' → steps (CtxOrig i :: l) saved g saved' g'.

(** ** The code of a frame *)
Lemma context_block_plain l :
  Forall (λ i, leaves i = false) l → context_block l = CtxOrig <$> l.
Proof.
  unfold context_block. induction 1 as [|i l Hi Hl IH]; [done|]. simpl. rewrite Hi. simpl. f_equal. exact IH.
Qed.
Lemma context_block_app l1 l2 : context_block (l1 ++ l2) = context_block l1 ++ context_block l2.
Proof. unfold context_block. by rewrite fmap_app, concat_app. Qed.
Lemma context_blocks bs :
  concat ((λ b, context_block (b_insts b)) <$> bs) = context_block (concat (b_insts <$> bs)).
Proof. induction bs as [|b bs IH]; [done|]. simpl. rewrite context_block_app. f_equal. exact IH. Qed.
Lemma frame_items_code fr :
  frame_items fr = CtxEnter (u32 (fr_cid fr)) :: context_block (frame_code fr).
Proof.
  unfold frame_items, frame_code, addContextRecording. cbn [fmap list_fmap concat snd app].
  rewrite context_block_app, <-context_blocks, <-list_fmap_compose. done.
Qed.
Lemma frame_items_eq fr :
  frame_ok p fr → ∃ init, frame_code fr = init ++ [fr_exit fr] ∧
    frame_items fr =
      CtxEnter (u32 (fr_cid fr)) :: (CtxOrig <$> init) ++ [CtxLeave; CtxOrig (fr_exit fr)].
Proof.
  intros (others & init & _ & _ & Hcode & Hx & Hinit). exists init. split; [done|].
  rewrite frame_items_code, Hcode, context_block_app, (context_block_plain init) by done.
  unfold context_block at 1. simpl. by rewrite Hx.
Qed.

(** ** The invariant: calls give the context back *)

(** Code of this shape, from a function entered in context [g0]. *)
Definition balanced (l : list ctx_inst) (saved : option Z) (g : Z) (g' : Z) : Prop :=
  (∀ (is_ : list inst), l = CtxOrig <$> is_ → g' = g) ∧
  (∀ (is_ : list inst) i s, l = (CtxOrig <$> is_) ++ [CtxLeave; CtxOrig i] → saved = Some s →
     leaves i = true → g' = s) ∧
  (∀ fr, frame_ok p fr → l = frame_items fr → g' = g).

Lemma exit_not_call i : leaves i = true → is_call i = false.
Proof. unfold leaves, is_call. by destruct (i_kind i). Qed.
Lemma steps_balanced l saved g saved' g' : steps l saved g saved' g' → balanced l saved g g'.
Proof.
  induction 1 as [saved g|cid l saved g saved' g' H IH|l s g saved' g' H IH
                 |i l saved g saved' g' H IH|i l fr saved s1 g g1 saved' g' Hc Hfr H1 IH1 H IH].
  - split_and!; [done| |].
    + intros is_ i s Hl. by destruct is_.
    + intros fr Hfr Hl. by rewrite frame_items_code in Hl.
  - split_and!; [by intros []|by intros []|]. intros fr Hfr Hl.
    destruct (frame_items_eq fr Hfr) as (init & _ & Heq). rewrite Heq in Hl. injection Hl as -> ->.
    destruct IH as (_ & IH & _). destruct Hfr as (? & ? & _ & _ & _ & Hx & _). by eapply IH.
  - split_and!; [by intros []| |].
    + intros is_ i s' Hl [= <-] Hi. destruct is_; [|done]. injection Hl as ->.
      destruct IH as (IH & _). by apply (IH [i]).
    + intros fr Hfr Hl. by rewrite frame_items_code in Hl.
  - destruct IH as (IHa & IHb & _). split_and!.
    + intros [|j is_] Hl; [done|]. injection Hl as -> ->. by eapply IHa.
    + intros [|j is_] k s Hl Hs Hk; [done|]. injection Hl as -> ->. by eapply IHb.
    + intros fr Hfr Hl. by rewrite frame_items_code in Hl.
  - assert (g1 = g) as -> by (destruct IH1 as (_ & _ & IH1); by eapply IH1).
    destruct IH as (IHa & IHb & _). split_and!.
    + intros [|j is_] Hl; [done|]. injection Hl as -> ->. by eapply IHa.
    + intros [|j is_] k s Hl Hs Hk; [done|]. injection Hl as -> ->. by eapply IHb.
    + intros fr' Hfr' Hl. by rewrite frame_items_code in Hl.
Qed.

Lemma steps_body l cid g saved' g' :
  steps (CtxEnter cid :: (CtxOrig <$> l)) None g saved' g' → g' = Z.lxor g cid.
Proof.
  intros H. inversion H as [|? ? ? ? ? ? H'| | |]; subst.
  destruct (steps_balanced _ _ _ _ _ H') as (Hb & _). by apply (Hb l).
Qed.
End context.

(** C20: the calling context. A call of an instrumented function along any path
    to a return or a resume, nested calls included, ends in the context it
    started in; and before each instruction of the function but the last the
    context is the caller's xor the identifier of the function. *)
Theorem context_restored p fr g saved g' :
  frame_ok p fr → steps p (frame_items fr) None g saved g' →
  g' = g ∧
  ∀ init rest s1 g1, frame_code fr = init ++ rest → rest ≠ [] →
    steps p (CtxEnter (u32 (fr_cid fr)) :: (CtxOrig <$> init)) None g s1 g1 →
    take (S (length init)) (frame_items fr) = CtxEnter (u32 (fr_cid fr)) :: (CtxOrig <$> init) ∧
    g1 = Z.lxor g (u32 (fr_cid fr)).
Proof.
  intros Hfr H. split.
  { destruct (steps_balanced p _ _ _ _ _ H) as (_ & _ & Hb). by apply (Hb fr). }
  intros init rest s1 g1 Hcode Hne H1. split; [|by eapply steps_body].
  destruct (frame_items_eq p fr Hfr) as (init' & Hcode' & ->). rewrite Hcode' in Hcode.
  cbn [take]. f_equal. destruct (exists_last Hne) as (rest' & x & ->).
  rewrite app_assoc in Hcode. apply app_inj_tail in Hcode as [-> ->].
  rewrite fmap_app, <-app_assoc. apply take_app_length'. by rewrite length_fmap.
Qed.

(** [main] (identifier 5) calls [f] (identifier 9). *)
Definition ret_inst (id : Z) : inst := Inst id TVoid (IReturn None) false.
Definition call_inst : inst :=
  Inst 1 TVoid (ICall (CalleeFun "f") (TFun TVoid [] false) [] false) false.
Definition main_block : block := Block 0 [call_inst; ret_inst 2].
Definition f_block : block := Block 0 [ret_inst 3].
Definition two_functions : program := [(5, [main_block]); (9, [f_block])].
Definition main_frame : frame := Frame 5 main_block [] (ret_inst 2).
Definition f_frame : frame := Frame 9 f_block [] (ret_inst 3).

Lemma f_frame_ok : frame_ok two_functions f_frame.
Proof. exists [], []. split_and!; [set_solver|done|done|done|done]. Qed.
Lemma f_frame_steps g : steps two_functions (frame_items f_frame) None g (Some g) g.
Proof. apply steps_enter, steps_leave, steps_orig, steps_nil. Qed.
Lemma context_restored_witness :
  steps two_functions (frame_items main_frame) None 12 (Some 12) 12 ∧
  ∀ saved g', steps two_functions (frame_items main_frame) None 12 saved g' → g' = 12.
Proof.
  split.
  - apply steps_enter. eapply steps_call; [done|apply f_frame_ok|apply f_frame_steps|].
    apply steps_leave, steps_orig, steps_nil.
  - intros saved g' H. apply (context_restored two_functions main_frame 12 saved g'); [|exact H].
    exists [], [call_inst]. split_and!; [set_solver|done|done|done|by repeat constructor].
Defined.

(** ** Shadow addresses *)

(** The mask compiled in, or on AArch64 the runtime's
    [__dfsan_shadow_ptr_mask], which [dfsan_init] sets to [ShadowMask()]. *)
Definition triple_of (a : arch) : triple :=
  match a with x86_64 => X86_64 | mips64 => Mips64 | aarch64 _ => AArch64 end.
Definition pass_mask (a : arch) : option Z :=
  match ShadowPtrMask (triple_of a) with
  | Some (inl mask) => Some mask
  | Some (inr ()) => Some (MappingArchImpl a MAPPING_SHADOW_MASK)
  | None => None
  end.

(** The shadow address the inserted code computes inline is the runtime's
    [shadow_for], on every architecture. *)
Theorem shadow_address_agrees a ptr :
  ∃ mask, pass_mask a = Some mask ∧ getShadowAddress mask ptr = shadow_for_arch a ptr.
Proof.
  assert (∀ mask, getShadowAddress mask ptr = u64 (Z.shiftl (Z.land ptr mask) 2)) as Hmul.
  { intros mask. unfold getShadowAddress. by rewrite Z.shiftl_mul_pow2. }
  destruct a as [| |vma]; eexists; (split; [reflexivity|]); rewrite Hmul; reflexivity.
Qed.
