(* ===== verification/PassCall.v ===== *)
(** * Labels across calls

    What the pass makes of a call to a custom function, and of the trampolines it
    hands to the runtime in place of function pointers. *)
From stdpp Require Import pretty.
From S2P Require Import Prelude Platform Labels UnionTable Union Z3 State Denote Shadow ShadowSpec Solver Ir Pass PassModule PassRun PassSpec PassMem PassVisit PassStep PassSound.

(** ** Trampolines *)
Section trampoline_facts.
Context {Ops : LlvmOps} {DL : DataLayout} {PE : PassEnv}.
Context (F : func) (native : bool).

Definition add_before (es : list emit) (t : tf) : tf :=
  set_code (tf_entry t) (tf_before t ++ es) (tf_after t) (tf_fate t) t.

Lemma getShadow_arg n s t : tf_args t !! n = Some s → getShadow F native (VArgument n) t = Ret s t.
Proof. intros H. cbn [getShadow]. by rewrite bind_get, H. Qed.
Lemma store_args_run k args ss t :
  Forall2 (λ a s, ∃ n, a = VArgument n ∧ tf_args t !! n = Some s) args ss →
  store_args F native k args t = Ret () (add_before (arg_stores k ss) t).
Proof.
  revert k ss t. induction args as [|a args IH]; intros k ss t Hss.
  - apply Forall2_nil_inv_l in Hss as ->. cbn [store_args]. unfold add_before, arg_stores. cbn [imap]. rewrite app_nil_r. by destruct t.
  - apply Forall2_cons_inv_l in Hss as (s & ss' & (n & -> & Hn) & Hss & ->). cbn [store_args].
    rewrite (bind_run _ _ _ _ _ (getShadow_arg _ _ _ Hn)). unfold emit_before. rewrite bind_modify.
    erewrite IH; [|exact Hss]. unfold add_before, arg_stores, set_code. cbn.
    do 2 f_equal. rewrite <-app_assoc, Z.add_0_r. cbn. do 2 f_equal. apply imap_ext. intros j x _. cbn. f_equal. lia.
Qed.

Lemma trampoline_args n t :
  tf_args t = trampoline_shadows n →
  Forall2 (λ a s, ∃ k, a = VArgument k ∧ tf_args t !! k = Some s)
    (VArgument <$> range 1 (1 + Z.of_nat n)) ((λ k, SParam (Z.of_nat n + k)) <$> range 1 (1 + Z.of_nat n)).
Proof.
  intros ->. apply Forall2_fmap. apply Forall_Forall2_diag, Forall_forall. intros k Hk. exists k.
  split; [done|]. unfold trampoline_shadows. apply elem_of_list_to_map_1.
  - rewrite <-list_fmap_compose. unfold compose. cbn. rewrite list_fmap_id. apply NoDup_seqZ.
  - apply list_elem_of_fmap. exists k. done.
Qed.
Lemma trampoline_no_fn n : trampoline_shadows n !! 0 = None.
Proof.
  apply not_elem_of_list_to_map_1. rewrite <-list_fmap_compose. unfold compose. cbn.
  rewrite list_fmap_id. intros H%elem_of_range. lia.
Qed.
End trampoline_facts.

(** The call site of a trampoline, visited. *)
Section trampoline_sites.
Context {Ops : LlvmOps} {DL : DataLayout} {PE : PassEnv}.
Context (F : func).
Lemma trampoline_visit ft t :
  ABI = IA_TLS → UnwrappedFnMap (CalleeVal (VArgument 0)) = None →
  tf_args t = trampoline_shadows (length (fun_params ft)) → tf_insts t !! 0 = None →
  let n := Z.of_nat (length (fun_params ft)) in
  let t1 := add_before (arg_stores 0 ((λ k, SParam (n + k)) <$> range 1 (1 + n))) t in
  visit F true (trampoline_call ft) t =
    Ret () (if is_void (fun_ret ft) then t1
            else let d := tf_next t in
                 set_checks (NonZeroChecks t ++ [SVal d])
                   (set_insts (<[0 := SVal d]> (tf_insts t))
                     (set_skip ({[ d ]} ∪ SkipInsts t)
                       (set_code (tf_entry t) (tf_before t1) (tf_after t ++ [ERetLoad d]) (tf_fate t)
                         (set_next (d + 1) t1))))).
Proof.
  intros HA HU Ha Hi n t1. unfold visit, trampoline_call. cbn [i_kind visitCallSite].
  assert (getShadow F true (VArgument 0) t = Ret ZeroShadow t) as H0.
  { cbn [getShadow]. by rewrite bind_get, Ha, trampoline_no_fn. }
  erewrite bind_run; [|erewrite bind_run; [|exact H0]; by rewrite decide_True].
  rewrite HU. unfold instrumented_call. rewrite HA. unfold tls_call.
  assert (length (VArgument <$> range 1 (1 + n)) = length (fun_params ft)) as Hlen
    by (rewrite length_fmap; unfold range; rewrite length_seqZ; lia).
  rewrite <-Hlen at 1. rewrite firstn_all.
  rewrite (bind_run _ _ _ _ _ (store_args_run F true 0 _ _ t (trampoline_args _ t Ha))). fold n t1.
  cbn [i_ty i_id]. destruct (is_void (fun_ret ft)); [done|].
  erewrite bind_run; [|reflexivity]. unfold emit_after. rewrite bind_modify, bind_modify.
  erewrite bind_run.
  2:{ unfold setShadow. rewrite bind_get. erewrite bind_run; [reflexivity|]. apply assert_run.
      by apply bool_decide_true. }
  done.
Qed.
End trampoline_sites.

(** C30: trampolines. A trampoline for a function with [n] parameters, built for
    the runtime to call back with labels as arguments, stores each of its [n]
    label parameters in the thread-local slot of the corresponding argument
    before the call, and after it stores the label of the result through its
    last parameter; its own type has labels exactly at the parameters read. *)
Theorem trampoline_forwards {Zi : Z3} {Ops : LlvmOps} {DL : DataLayout} {PE : PassEnv}
    fname ft t (m : mach) :
  ABI = IA_TLS → UnwrappedFnMap (CalleeVal (VArgument 0)) = None →
  tf_insts t !! 0 = None → 0 ∉ SkipInsts t →
  let n := length (fun_params ft) in
  ∃ x t' m', getOrBuildTrampolineFunction fname ft t = Ret x t' ∧
    it_inst x = trampoline_call ft ∧ it_fate x = Kept ∧
    for_each (it_before x) (run_emit 0) m = Ret () m' ∧
    (∀ k : nat, (k < n)%nat →
       mc_argtls m' !! Z.of_nat k = Some (default 0 (mc_params m !! Z.of_nat (n + 1 + k))) ∧
       fun_params (getTrampolineFunctionType ft) !! (n + 1 + k)%nat = Some ShadowTy) ∧
    it_after x = if is_void (fun_ret ft) then []
                 else [ERetLoad (tf_next t); EParamStore (Z.of_nat (2 * n + 1)) (SVal (tf_next t))].
Proof.
  intros HA HU Hi Hsk n. unfold getOrBuildTrampolineFunction. rewrite bind_modify.
  set (t0 := set_args (trampoline_shadows (length (fun_params ft))) t).
  set (F := Func fname (getTrampolineFunctionType ft) []).
  set (tc := set_code (tf_entry t0) [] [] Kept t0).
  pose proof (trampoline_visit F ft tc HA HU eq_refl Hi) as Hv. cbv zeta in Hv. fold n in Hv.
  set (ss := (λ k, SParam (Z.of_nat n + k)) <$> range 1 (1 + Z.of_nat n)) in *.
  destruct (arg_stores_run 0 0 ss m) as (tls & Hm & _ & Hss). set (m' := set_argtls tls m) in Hm.
  assert (∀ k : nat, (k < n)%nat →
       mc_argtls m' !! Z.of_nat k = Some (default 0 (mc_params m !! Z.of_nat (n + 1 + k))) ∧
       fun_params (getTrampolineFunctionType ft) !! (n + 1 + k)%nat = Some ShadowTy) as Hk.
  { intros k Hk. split.
    - unfold m'. cbn [mc_argtls set_argtls]. rewrite <-(Z.add_0_l (Z.of_nat k)). erewrite Hss; [|].
      2:{ unfold ss, range. rewrite list_lookup_fmap, lookup_seqZ_lt by lia. reflexivity. }
      cbn. do 3 f_equal. lia.
    - assert (∀ (a : ty) l j, (a :: l) !! S j = l !! j) as Hcons by done.
      unfold getTrampolineFunctionType. cbn [fun_params]. replace (n + 1 + k)%nat with (S (n + k)) by lia.
      rewrite Hcons, lookup_app_r by (unfold n; lia).
      rewrite lookup_app_l by (rewrite length_replicate; unfold n in *; lia). apply lookup_replicate. unfold n in *. split; [done|lia]. }
  set (t1 := if is_void (fun_ret ft) then _ else _) in Hv.
  assert (visit_inst F true (trampoline_call ft) t0 =
            Ret (Item (tf_before t1) (trampoline_call ft) (tf_fate t1) (tf_after t1)) t1) as Hvi.
  { unfold visit_inst. rewrite bind_modify. fold tc. rewrite bind_get, decide_False by done.
    by rewrite (bind_run _ _ _ _ _ Hv). }
  rewrite (bind_run _ _ _ _ _ Hvi). unfold t1. clear Hvi Hv t1. destruct (is_void (fun_ret ft)).
  - eexists _, _, m'. split; [reflexivity|]. by split_and!.
  - eexists _, _, m'. split.
    { erewrite bind_run; [reflexivity|]. cbn [getShadow i_id trampoline_call]. rewrite bind_get. cbn.
      rewrite lookup_insert_eq. reflexivity. }
    split_and!; [done|done|exact Hm|exact Hk|]. cbn. do 3 f_equal. fold n. lia.
Qed.

(** ** Calls of custom functions *)
Section custom.
Context {Ops : LlvmOps} {DL : DataLayout} {PE : PassEnv}.
Context (F : func) (native : bool).

(** The types of the arguments of an inserted call. *)
Definition carg_ty (c : carg) : ty :=
  match c with
  | AVal v => type_of v
  | ATrampoline _ ft => TPtr (getTrampolineFunctionType ft)
  | AFnPtr _ => TPtr (TInt 8)
  | AShadow _ => ShadowTy
  | ASlot _ _ => ShadowPtrTy
  end.
(** What becomes of one parameter. *)
Definition expand (p : ty) : list ty :=
  match fn_pointee p with
  | Some ft => [TPtr (getTrampolineFunctionType ft); TPtr (TInt 8)]
  | None => [p]
  end.
Lemma custom_params_fst ps acc mp : (custom_params ps acc mp).1 = acc ++ concat (expand <$> ps).
Proof.
  revert acc mp. induction ps as [|p ps IH]; intros acc mp; cbn [custom_params fmap list_fmap concat].
  { by rewrite app_nil_r. }
  unfold expand at 1. destruct (fn_pointee p); rewrite IH, <-app_assoc; done.
Qed.
Fixpoint offsets (n : nat) (ps : list ty) : list nat :=
  match ps with [] => [] | p :: ps => n :: offsets (n + length (expand p)) ps end.
Lemma custom_params_snd ps acc mp : (custom_params ps acc mp).2 = mp ++ offsets (length acc) ps.
Proof.
  revert acc mp. induction ps as [|p ps IH]; intros acc mp; cbn [custom_params offsets].
  { by rewrite app_nil_r. }
  unfold expand at 1. destruct (fn_pointee p); rewrite IH, <-app_assoc, length_app; done.
Qed.
Lemma offsets_lookup n ps k p :
  ps !! k = Some p →
  ∃ pos, offsets n ps !! k = Some (n + pos)%nat ∧
    take (length (expand p)) (drop pos (concat (expand <$> ps))) = expand p.
Proof.
  revert n k. induction ps as [|q ps IH]; intros n k Hk; [done|]. destruct k as [|k].
  - simpl in Hk. simplify_eq. exists 0%nat. split; [by rewrite Nat.add_0_r|].
    cbn [fmap list_fmap concat drop]. apply take_app_length.
  - destruct (IH (n + length (expand q))%nat k Hk) as (pos & Ho & Ht).
    exists (length (expand q) + pos)%nat. split; [by rewrite Nat.add_assoc|].
    cbn [fmap list_fmap concat]. by rewrite Nat.add_comm, <-skipn_skipn, drop_app_length.
Qed.

(** The fixed arguments. *)
Definition only_trampolines (t t' : tf) : Prop := ∃ l, t' = set_trampolines l t.
Definition custom_arg (fname : string) (k : nat) (a : val) : list carg :=
  match fn_pointee (type_of a) with
  | Some ft => [ATrampoline ("dfst" +:+ pretty (Z.of_nat k) +:+ "$" +:+ fname)%string ft; AFnPtr a]
  | None => [AVal a]
  end.
Lemma custom_arg_ty fname k a : carg_ty <$> custom_arg fname k a = expand (type_of a).
Proof. unfold custom_arg, expand. by destruct (fn_pointee (type_of a)). Qed.
Lemma custom_args_ty fname k args :
  carg_ty <$> concat (imap (λ j, custom_arg fname (k + j)) args) = concat (expand <$> (type_of <$> args)).
Proof.
  revert k. induction args as [|a args IH]; intros k; [done|].
  cbn [imap concat fmap list_fmap]. rewrite fmap_app, custom_arg_ty. f_equal.
  erewrite imap_ext; [apply (IH (S k))|]. intros j x _. cbn. f_equal. lia.
Qed.
Lemma custom_args_runs fname k args t :
  runs (custom_args fname k args)
    (λ cs t', only_trampolines t t' ∧ cs = concat (imap (λ j, custom_arg fname (k + j)) args)) t.
Proof.
  revert k t. induction args as [|a args IH]; intros k t; cbn [custom_args].
  { apply runs_ret. split; [|done]. exists (tf_trampolines t). by destruct t. }
  apply runs_bind.
  apply (runs_mono _ (λ cs t', only_trampolines t t' ∧ cs = custom_arg fname k a)).
  - unfold custom_arg. destruct (fn_pointee (type_of a)) as [ft|].
    + apply runs_bind, runs_modify, runs_ret. split; [by eexists|done].
    + apply runs_ret. split; [|done]. exists (tf_trampolines t). by destruct t.
  - intros cs t1 [[l1 ->] ->]. apply runs_bind. eapply runs_mono; [apply IH|].
    intros cs2 t2 [[l2 ->] ->]. apply runs_ret. split; [by exists l2|].
    cbn [imap concat]. rewrite Nat.add_0_r. f_equal. f_equal. apply imap_ext.
    intros j x _. cbn. f_equal. lia.
Qed.

(** Code appended by a step that gives no label to an instruction. *)
Definition appends (l : list val) (es : list emit) (t t' : tf) : Prop :=
  looks l t t' ∧ tf_before t' = tf_before t ++ es ∧ tf_after t' = tf_after t ∧ tf_fate t' = tf_fate t.
Lemma appends_same l t t' :
  own t → same_labels t t' → same_code t t' → appends l [] t t'.
Proof.
  intros Ho Hl (H1 & H2 & H3). split_and!; [by apply same_labels_looks|by rewrite app_nil_r|done|done].
Qed.
Lemma appends_one l e t : own t → appends l [e] t (add_before [e] t).
Proof. intros Ho. split_and!; [by apply same_labels_looks|done|done|done]. Qed.
Lemma appends_trans l es es' t t1 t2 :
  appends l es t t1 → appends l es' t1 t2 → appends l (es ++ es') t t2.
Proof.
  intros (Hl & H1 & H2 & H3) (Hk & K1 & K2 & K3).
  split_and!; [by eapply looks_trans|by rewrite K1, H1, app_assoc|congruence|congruence].
Qed.
Lemma appends_weaken l l' es t t' : l ⊆ l' → appends l es t t' → appends l' es t t'.
Proof. intros Hl (H & ?). split; [by eapply looks_weaken|done]. Qed.
Lemma appends_own l es t t' : appends l es t t' → own t'.
Proof. intros ((_ & Ho & _) & _). done. Qed.
Lemma appends_extends l es t t' : appends l es t t' → extends t t'.
Proof. intros ((He & _) & _). done. Qed.

Lemma getShadow_appends v t :
  own t → runs (getShadow F native v) (λ s t', appends [v] [] t t' ∧ has native t' v s) t.
Proof.
  intros Ho. eapply runs_mono; [by apply getShadow_runs|].
  intros s t' (He & Ho' & Hh & (Hc1 & Hc2 & Hc3) & Hl).
  split; [|done]. split_and!; [|by rewrite app_nil_r|done|done]. split_and!; [done|done|].
  intros id Hid. apply Hl. unfold not_operand in Hid. set_solver.
Qed.
Lemma store_labels_runs slot k l t :
  own t →
  runs (store_labels F native slot k l)
    (λ _ t', ∃ ss, appends l (imap (λ j s, ESlotStore slot (k + Z.of_nat j) s) ss) t t' ∧
       Forall2 (has native t') l ss) t.
Proof.
  revert k t. induction l as [|a l IH]; intros k t Ho; cbn [store_labels].
  { apply runs_ret. exists []. split; [by apply appends_same|constructor]. }
  apply runs_bind. eapply runs_mono; [by apply getShadow_appends|]. intros s t1 [Ha Hs].
  pose proof (appends_own _ _ _ _ Ha) as Ho1. apply runs_bind, runs_modify.
  pose proof (appends_one (a :: l) (ESlotStore slot k s) t1 Ho1) as Hb.
  eapply runs_mono; [apply IH; by eapply appends_own|]. intros _ t2 (ss & Hc & Hss).
  exists (s :: ss). split.
  - apply (appends_weaken _ (a :: l)) in Ha, Hc; [|set_solver..].
    pose proof (appends_trans _ _ _ _ _ _ (appends_trans _ _ _ _ _ _ Ha Hb) Hc) as H.
    cbn [imap app]. rewrite Z.add_0_r. simpl in H.
    erewrite imap_ext; [exact H|]. intros j x _. cbn. f_equal. lia.
  - constructor; [|done]. eapply has_extends; [by eapply appends_extends|].
    eapply has_extends; [by eapply (appends_extends _ _ _ _ Hb)|done].
Qed.

(** The array of the labels of the variable arguments, and the slot of the label
    of the result. *)
Lemma label_array_runs l t :
  own t →
  runs (label_array F native l)
    (λ slot t', ∃ ss, appends l (imap (λ j s, ESlotStore slot (Z.of_nat j) s) ss) t t' ∧
       Forall2 (has native t') l ss) t.
Proof.
  intros Ho. unfold label_array. apply runs_bind. eexists _, _. split; [reflexivity|].
  apply runs_bind, runs_modify.
  set (t1 := set_code _ _ _ _ _).
  assert (appends l [] t t1) as H1 by (apply appends_same; [done|split_and!; first [done|split; [done|intros ?; by constructor]|cbn; lia]|done]).
  apply runs_bind. eapply runs_mono; [apply store_labels_runs; by eapply appends_own|].
  intros _ t2 (ss & H2 & Hss). apply runs_ret. exists ss. split; [|done].
  by pose proof (appends_trans _ _ _ _ _ _ H1 H2).
Qed.
Lemma label_return_runs l t :
  own t → runs label_return (λ slot t', appends l [] t t' ∧ LabelReturnAlloca t' = Some slot) t.
Proof.
  intros Ho. unfold label_return. apply runs_bind, runs_get.
  destruct (LabelReturnAlloca t) as [slot|] eqn:Hs.
  - apply runs_ret. split; [by apply appends_same|done].
  - eexists _, _. split; [reflexivity|]. split; [|done].
    apply appends_same; [done|split_and!; first [done|split; [done|intros ?; by constructor]|cbn; lia]|done].
Qed.
Lemma label_return_again slot t : LabelReturnAlloca t = Some slot → label_return t = Ret slot t.
Proof. intros H. unfold label_return. by rewrite bind_get, H. Qed.
End custom.

(** What a call of a custom function becomes: the inserted call with arguments
    [cs] has the type [ct], the labels of the fixed arguments follow the
    arguments, and the label of the result is loaded from the slot whose address
    is the last fixed argument. *)
Section custom_post.
Context {Ops : LlvmOps} {DL : DataLayout} {PE : PassEnv}.
Record custom_code (native : bool) (i : inst) (fname : string) (args : list val) (t' : tf)
    (stores loads : list emit) (cs : list carg) : Prop := {
  cc_types : take (length (fun_params (getCustomFunctionType (fn_type fname)).1)) (carg_ty <$> cs) =
    fun_params (getCustomFunctionType (fn_type fname)).1;
  cc_varargs : drop (length (fun_params (getCustomFunctionType (fn_type fname)).1)) cs =
    AVal <$> drop (length (fun_params (fn_type fname))) args;
  cc_labels : ∃ ss, Forall2 (has native t') (take (length (fun_params (fn_type fname))) args) ss ∧
    take (length ss) (drop (length (concat (expand <$> fun_params (fn_type fname)))) cs) = AShadow <$> ss;
  cc_return : if is_void (fun_ret (fn_type fname)) then loads = []
    else ∃ d slot, loads = [ESlotLoad d slot 0] ∧ tf_insts t' !! i_id i = Some (SVal d) ∧
      last (take (length (fun_params (getCustomFunctionType (fn_type fname)).1)) cs) = Some (ASlot slot 0);
}.

Definition fixed_code (ft : ty) (fixed : list carg) (ss : list shadow) (va ret : list carg) : Prop :=
  carg_ty <$> fixed = concat (expand <$> fun_params ft) ∧ length ss = length (fun_params ft) ∧
  carg_ty <$> va = (if fun_vararg ft then [ShadowPtrTy] else []) ∧
  carg_ty <$> ret = (if is_void (fun_ret ft) then [] else [ShadowPtrTy]).
Lemma custom_function_params ft :
  fun_params (getCustomFunctionType ft).1 =
    concat (expand <$> fun_params ft) ++ replicate (length (fun_params ft)) ShadowTy
    ++ (if fun_vararg ft then [ShadowPtrTy] else [])
    ++ (if is_void (fun_ret ft) then [] else [ShadowPtrTy]).
Proof.
  unfold getCustomFunctionType. pose proof (custom_params_fst (fun_params ft) [] []) as H.
  destruct (custom_params _ _ _) as [tys mp]. simpl in *. by rewrite H.
Qed.
Lemma fixed_code_types ft fixed ss va ret rest :
  fixed_code ft fixed ss va ret →
  let cs := fixed ++ (AShadow <$> ss) ++ va ++ ret ++ rest in
  let k := length (fun_params (getCustomFunctionType ft).1) in
  take k (carg_ty <$> cs) = fun_params (getCustomFunctionType ft).1 ∧ drop k cs = rest ∧
  take (length ss) (drop (length (concat (expand <$> fun_params ft))) cs) = AShadow <$> ss ∧
  take k cs = fixed ++ (AShadow <$> ss) ++ va ++ ret.
Proof.
  intros (Hf & Hs & Hv & Hr) cs k.
  set (pre := fixed ++ (AShadow <$> ss) ++ va ++ ret).
  assert (cs = pre ++ rest) as Hcs by (unfold cs, pre; by rewrite <-!app_assoc).
  assert (carg_ty <$> pre = fun_params (getCustomFunctionType ft).1) as Hpre.
  { rewrite custom_function_params. unfold pre. rewrite !fmap_app, Hf, Hv, Hr. do 2 f_equal.
    rewrite <-Hs. clear. induction ss as [|s ss IH]; [done|]. simpl. by f_equal. }
  assert (length pre = k) as Hk by (unfold k; by rewrite <-Hpre, length_fmap).
  rewrite Hcs. split_and!.
  - rewrite fmap_app, <-Hpre. apply take_app_length'. rewrite length_fmap. by symmetry.
  - by apply drop_app_length'.
  - rewrite <-Hcs. unfold cs. rewrite <-Hf, length_fmap, drop_app_length.
    apply take_app_length'. by rewrite length_fmap.
  - by apply take_app_length'.
Qed.
End custom_post.

Section custom_runs.
Context {Ops : LlvmOps} {DL : DataLayout} {PE : PassEnv}.
Context (F : func) (native : bool).

Lemma vararg_runs (va : bool) l t :
  own t →
  runs (if va then slot ← label_array F native l; mret [ASlot slot 0] else mret [])
    (λ cs t', ∃ es, appends l es t t' ∧
       if va then ∃ slot ss, cs = [ASlot slot 0] ∧ es = imap (λ j s, ESlotStore slot (Z.of_nat j) s) ss ∧
                    Forall2 (has native t') l ss
       else cs = [] ∧ es = []) t.
Proof.
  intros Ho. destruct va.
  - apply runs_bind. eapply runs_mono; [by apply label_array_runs|]. intros slot t1 (ss & Ha & Hss).
    apply runs_ret. eexists. split; [exact Ha|]. by exists slot, ss.
  - apply runs_ret. exists []. split; [by apply appends_same|done].
Qed.
Lemma return_runs (void : bool) l t :
  own t →
  runs (if void then mret [] else slot ← label_return; mret [ASlot slot 0])
    (λ cs t', appends l [] t t' ∧
       if void then cs = []
       else ∃ slot, cs = [ASlot slot 0] ∧ LabelReturnAlloca t' = Some slot) t.
Proof.
  intros Ho. destruct void.
  - apply runs_ret. split; [by apply appends_same|done].
  - apply runs_bind. eapply runs_mono; [by apply label_return_runs|]. intros slot t1 [Ha Hs].
    apply runs_ret. split; [done|by exists slot].
Qed.
(** After the call: the label of the result, then the old call is erased. *)
Lemma result_runs (void : bool) i slot t :
  unlabelled (i_id i) t → (void = false → LabelReturnAlloca t = Some slot) →
  runs ((if void then mret ()
         else slot ← label_return;
              d ← fresh; emit_before (ESlotLoad d slot 0) ;; setShadow (i_id i) (SVal d)) ;;
        erase)
    (λ _ t', ∃ loads, tf_before t' = tf_before t ++ loads ∧ tf_fate t' = Erased ∧ extends t t' ∧
       if void then loads = []
       else ∃ d, loads = [ESlotLoad d slot 0] ∧ tf_insts t' !! i_id i = Some (SVal d)) t.
Proof.
  intros Hu Hs. destruct void.
  - eexists _, _. split; [reflexivity|]. exists []. split_and!; [by rewrite app_nil_r|done|by split_and!; try (by left)|done].
  - unfold runs. erewrite bind_run.
    2:{ rewrite (bind_run _ _ _ _ _ (label_return_again slot t (Hs eq_refl))).
        erewrite bind_run; [|reflexivity]. unfold emit_before. rewrite bind_modify.
        unfold setShadow. rewrite bind_get. erewrite bind_run; [reflexivity|].
        apply assert_run. by apply bool_decide_true. }
    eexists _, _. split; [reflexivity|]. eexists. split; [reflexivity|].
    split_and!; [done|split_and!; [done|by apply insert_subseteq|cbn; lia|by left|done..]|].
    eexists. split; [reflexivity|]. cbn. by rewrite lookup_insert_eq.
Qed.
Lemma only_trampolines_appends l t t' : own t → only_trampolines t t' → appends l [] t t'.
Proof. intros Ho [x ->]. by apply appends_same. Qed.
Lemma shadows_appends l t :
  own t →
  runs (shadows_of F native l) (λ ss t', appends l [] t t' ∧ Forall2 (has native t') l ss) t.
Proof.
  intros Ho. eapply runs_mono; [by apply shadows_of_runs|].
  intros ss t' (Hl & (H1 & H2 & H3) & Hss). split; [|done]. split_and!; [done|by rewrite app_nil_r|done|done].
Qed.
End custom_runs.

(** The code of a call of [__dfsw_fname]: the fixed arguments, their labels, the
    array of the labels of the variable arguments and the slot of the result's
    label; then the variable arguments themselves. *)
Section custom_site.
Context {Ops : LlvmOps} {DL : DataLayout} {PE : PassEnv}.
Context (F : func) (native : bool).
Record custom_site (i : inst) (fname : string) (args : list val) (t t' : tf)
    (stores loads : list emit) (ss : list shadow) (va ret : list carg) : Prop := {
  cs_erased : tf_fate t' = Erased;
  cs_before :
    let ft := fn_type fname in let n := length (fun_params ft) in
    tf_before t' = tf_before t ++ stores ++
      ECall (i_id i) (CalleeFun ("__dfsw_" +:+ fname)) (getCustomFunctionType ft).1
        (concat (imap (custom_arg fname) (take n args)) ++ (AShadow <$> ss) ++ va ++ ret
         ++ (AVal <$> drop n args)) false
      :: loads;
  cs_labels : Forall2 (has native t') (take (length (fun_params (fn_type fname))) args) ss;
  cs_va :
    if fun_vararg (fn_type fname) then
      ∃ slot ls, va = [ASlot slot 0] ∧ stores = imap (λ j s, ESlotStore slot (Z.of_nat j) s) ls ∧
        Forall2 (has native t') (drop (length (fun_params (fn_type fname))) args) ls
    else va = [] ∧ stores = [];
  cs_ret :
    if is_void (fun_ret (fn_type fname)) then ret = [] ∧ loads = []
    else ∃ d slot, ret = [ASlot slot 0] ∧ loads = [ESlotLoad d slot 0] ∧
      tf_insts t' !! i_id i = Some (SVal d);
}.
Lemma custom_call_site i fname args t :
  own t → unlabelled (i_id i) t → VInst (i_id i) ∉ args →
  ∃ t' stores loads ss va ret, custom_call F native i fname args t = Ret () t' ∧
    custom_site i fname args t t' stores loads ss va ret.
Proof.
  intros Ho Hu Hni. set (ft := fn_type fname) in *. set (n := length (fun_params ft)) in *.
  cut (runs (custom_call F native i fname args)
         (λ _ t', ∃ stores loads ss va ret, custom_site i fname args t t' stores loads ss va ret) t).
  { intros ([] & t' & Hr & stores & loads & ss & va & ret & H). by exists t', stores, loads, ss, va, ret. }
  unfold custom_call. fold ft n. apply runs_bind. eapply runs_mono; [apply custom_args_runs|].
  intros fixed t1 [Ht1 Hfixed]. apply (only_trampolines_appends args) in Ht1; [|done].
  apply runs_bind. eapply runs_mono; [apply shadows_appends; by eapply appends_own|].
  intros ss t2 [Ht2 Hss]. apply (appends_weaken _ args) in Ht2; [|apply subseteq_take].
  apply runs_bind. eapply runs_mono; [apply vararg_runs; by eapply appends_own|].
  intros va t3 (es & Ht3 & Hva). apply (appends_weaken _ args) in Ht3; [|apply subseteq_drop].
  apply runs_bind. eapply runs_mono; [apply (return_runs _ args); by eapply appends_own|].
  intros ret t4 [Ht4 Hret]. apply runs_bind, runs_modify.
  pose proof (appends_trans _ _ _ _ _ _ (appends_trans _ _ _ _ _ _ (appends_trans _ _ _ _ _ _ Ht1 Ht2) Ht3) Ht4) as Hall.
  rewrite app_nil_r in Hall. simpl in Hall.
  assert (∃ slot, is_void (fun_ret ft) = false → ret = [ASlot slot 0] ∧ LabelReturnAlloca t4 = Some slot) as [slot Hslot].
  { destruct (is_void _); [by exists 0|]. destruct Hret as (slot & ? & ?). by exists slot. }
  eapply runs_mono; [apply (result_runs _ i slot)|].
  - apply Hall; [done|done].
  - intros Hv. by destruct (Hslot Hv) as [_ ?].
  - intros _ t' (loads & Hb & Hf & He & Hl). exists es, loads, ss, va, ret.
    assert (∀ v s, has native t3 v s → has native t' v s) as Hlater.
    { intros v s Hv. eapply has_extends; [exact He|].
      by eapply has_extends; [eapply (appends_extends _ _ _ _ Ht4)|]. }
    split; [done| | | |].
    + rewrite Hb. cbn [tf_before set_code]. destruct Hall as (_ & -> & _). by rewrite <-!app_assoc, Hfixed.
    + eapply Forall2_impl; [done|]. intros v s Hv. apply Hlater.
      by eapply has_extends; [eapply (appends_extends _ _ _ _ Ht3)|].
    + fold ft. destruct (fun_vararg ft); [|done]. destruct Hva as (sl & ls & -> & -> & Hls).
      exists sl, ls. split_and!; [done|done|]. by eapply Forall2_impl.
    + fold ft. destruct (is_void _); [by subst|]. destruct Hl as (d & -> & Hd). exists d, slot.
      destruct (Hslot eq_refl) as [-> _]. done.
Qed.
End custom_site.

(** C19: calls of custom functions. For a call whose fixed arguments have the
    types of the parameters, the pass inserts a call of the [__dfsw_] function
    whose arguments have exactly the transformed parameter types, with the
    labels of the arguments behind them, and loads the label of the result from
    the slot it passed; the old call is erased. *)
Theorem custom_call_typed {Ops : LlvmOps} {DL : DataLayout} {PE : PassEnv}
    F native i fname args t :
  own t → unlabelled (i_id i) t → VInst (i_id i) ∉ args →
  type_of <$> take (length (fun_params (fn_type fname))) args = fun_params (fn_type fname) →
  ∃ t' stores loads cs, custom_call F native i fname args t = Ret () t' ∧ tf_fate t' = Erased ∧
    tf_before t' = tf_before t ++ stores ++
      ECall (i_id i) (CalleeFun ("__dfsw_" +:+ fname)) (getCustomFunctionType (fn_type fname)).1 cs false
      :: loads ∧
    custom_code native i fname args t' stores loads cs.
Proof.
  intros Ho Hu Hni Hty.
  destruct (custom_call_site F native i fname args t Ho Hu Hni)
    as (t' & stores & loads & ss & va & ret & Hr & [He Hb Hss Hva Hret]). cbv zeta in Hb.
  set (ft := fn_type fname) in *. set (n := length (fun_params ft)) in *.
  assert (fixed_code ft (concat (imap (custom_arg fname) (take n args))) ss va ret) as Hfc.
  { split_and!.
    - by rewrite (custom_args_ty fname 0), Hty.
    - rewrite <-(Forall2_length _ _ _ Hss), <-Hty. by rewrite length_fmap.
    - destruct (fun_vararg ft); [by destruct Hva as (? & ? & -> & _)|by destruct Hva as [-> _]].
    - destruct (is_void _); [by destruct Hret as [-> _]|by destruct Hret as (? & ? & -> & _)]. }
  destruct (fixed_code_types ft _ ss va ret (AVal <$> drop n args) Hfc) as (H1 & H2 & H3 & H4).
  eexists t', stores, loads, _. split; [exact Hr|]. split; [exact He|]. split; [exact Hb|].
  split; [exact H1|exact H2|by exists ss|].
  fold ft. destruct (is_void _); [by destruct Hret|]. destruct Hret as (d & slot & -> & -> & Hd).
  exists d, slot. split_and!; [done|done|]. rewrite H4. by rewrite !app_assoc, last_snoc.
Qed.

(** ** Witnesses *)
#[local] Existing Instance layout64.
#[local] Existing Instance plain_env.

(** A trampoline for a function of one parameter that returns an integer. *)
Lemma trampoline_forwards_witness :
  ∃ x t' m', getOrBuildTrampolineFunction "dfst0$f" (TFun (TInt 32) [TInt 8] false) (tf_init 0) = Ret x t' ∧
    for_each (it_before x) (run_emit (Zi:=Ref.z3) 0)
      (Mach ∅ ∅ ∅ {[ 2 := 6 ]} ∅ ∅ 0 (bytes_with ∅ ∅)) = Ret () m' ∧
    mc_argtls m' !! 0 = Some 6 ∧ it_after x = [ERetLoad 0; EParamStore 3 (SVal 0)].
Proof.
  destruct (trampoline_forwards (Zi:=Ref.z3) "dfst0$f" (TFun (TInt 32) [TInt 8] false) (tf_init 0)
    (Mach ∅ ∅ ∅ {[ 2 := 6 ]} ∅ ∅ 0 (bytes_with ∅ ∅))) as (x & t' & m' & H1 & _ & _ & H4 & H5 & H6);
    [done|done|done|set_solver|].
  exists x, t', m'. split_and!; [exact H1|exact H4| |exact H6]. by destruct (H5 0%nat ltac:(simpl; lia)).
Defined.

(** [memcmp(a, b, n)] in a function of these three parameters. *)
Definition memcmp_env : PassEnv := {|
  ClTraceFP := false;
  ClTraceGEPOffset := false;
  ABI := IA_TLS;
  type_of v := match v with VArgument 2 => TInt 64 | VArgument _ => TPtr (TInt 8) | _ => TInt 32 end;
  GetUnderlyingObjects v := [v];
  constant_object _ := false;
  UnwrappedFnMap _ := Some "memcmp"%string;
  wrapper_kind _ := WK_Custom;
  fn_type _ := TFun (TInt 32) [TPtr (TInt 8); TPtr (TInt 8); TInt 64] false;
|}.
Definition memcmp_inst : inst :=
  Inst 1 (TInt 32)
    (ICall (CalleeFun "dfsw$memcmp") (TFun (TInt 32) [TPtr (TInt 8); TPtr (TInt 8); TInt 64] false)
       [VArgument 0; VArgument 1; VArgument 2] false) false.
Lemma custom_call_typed_witness :
  let args := [VArgument 0; VArgument 1; VArgument 2] in
  ∃ t' stores loads cs,
    custom_call (PE:=memcmp_env) small_func false memcmp_inst "memcmp" args small_tf = Ret () t' ∧
    tf_fate t' = Erased ∧
    custom_code (PE:=memcmp_env) false memcmp_inst "memcmp" args t' stores loads cs.
Proof.
  intros args.
  destruct (custom_call_typed (PE:=memcmp_env) small_func false memcmp_inst "memcmp" args small_tf)
    as (t' & stores & loads & cs & H1 & H2 & _ & H3).
  - apply (own_init 101).
  - done.
  - vm_compute. set_solver.
  - done.
  - exists t', stores, loads, cs. split_and!; [exact H1|exact H2|exact H3].
Defined.
