(* ===== verification/PassAbi.v ===== *)
(** * The interface between the pass and the custom functions

    The pass calls [__dfsw_f] with a parameter list it computes from the type of
    [f] ([getCustomFunctionType]); the runtime defines [__dfsw_f] with a
    parameter list written by hand ([dfsan_custom.cc]). Nothing checks that the
    two agree: the linker matches names only. Here the two lists are compared,
    by type and by the role of each parameter, and the comparison is carried to
    the call sites: what each parameter of a wrapper receives from the code the
    pass inserts. Pointers to data have one type. *)
From S2P Require Import Prelude Platform Labels Ir Pass PassModule PassRun PassSpec PassMem PassVisit PassStep PassSound PassCall.

(** ** Roles *)
Inductive role :=
| RArg (k : nat) (t : ty)
| RTrampoline (k : nat) (t : ty)
| RCallback (k : nat)
| RLabel (k : nat)
| RVaLabels
| RRetLabel.

Definition role_ty (r : role) : ty :=
  match r with
  | RArg _ t | RTrampoline _ t => t
  | RCallback _ => TPtr (TInt 8)
  | RLabel _ => ShadowTy
  | RVaLabels | RRetLabel => ShadowPtrTy
  end.

(** The roles of the parameters the pass passes. *)
Definition param_roles (k : nat) (p : ty) : list role :=
  match fn_pointee p with
  | Some ft => [RTrampoline k (TPtr (getTrampolineFunctionType ft)); RCallback k]
  | None => [RArg k p]
  end.
Definition pass_roles (ft : ty) : list role :=
  concat (imap param_roles (fun_params ft)) ++ (RLabel <$> seq 0 (length (fun_params ft)))
  ++ (if fun_vararg ft then [RVaLabels] else [])
  ++ (if is_void (fun_ret ft) then [] else [RRetLabel]).

Lemma param_roles_ty n ps :
  role_ty <$> concat (imap (λ k, param_roles (n + k)) ps) = concat (expand <$> ps).
Proof.
  revert n. induction ps as [|p ps IH]; intros n; [done|].
  cbn [imap concat fmap list_fmap]. rewrite fmap_app. f_equal.
  - unfold param_roles, expand. by destruct (fn_pointee p).
  - erewrite imap_ext; [apply (IH (S n))|]. intros j x _. cbn. f_equal. lia.
Qed.
(** The roles have the types of the function type the pass builds. *)
Lemma pass_roles_ty ft : role_ty <$> pass_roles ft = fun_params (getCustomFunctionType ft).1.
Proof.
  rewrite custom_function_params. unfold pass_roles. rewrite !fmap_app. f_equal; [apply (param_roles_ty 0)|].
  f_equal; [|by destruct (fun_vararg ft), (is_void (fun_ret ft))].
  rewrite <-list_fmap_compose. generalize 0%nat as k. generalize (length (fun_params ft)) as n.
  induction n as [|n IH]; intros k; [done|]. cbn. f_equal. apply IH.
Qed.

(** ** The parameter lists of [dfsan_custom.cc] *)

(** Name and type of the library function, then the return type, the parameters
    and the variadicity of its [__dfsw_] function. The types of the coverage
    hooks are those with which LLVM's SanitizerCoverage calls them; the runtime
    defines all ten without parameters. *)
Record wrapper_sig := Wrapper {
  w_name : string;
  w_libc : ty;
  w_ret : ty;
  w_roles : list role;
  w_vararg : bool;
}.
Definition i32 : ty := TInt 32.
Definition i64 : ty := TInt 64.
Definition ptr : ty := TPtr (TInt 8).
Definition lab : ty := ShadowTy.
Definition labp : ty := ShadowPtrTy.
Definition custom_wrappers : list wrapper_sig :=
  [
   Wrapper "stat" (TFun i32 [ptr; ptr] false) i32
     [RArg 0 ptr; RArg 1 ptr; RLabel 0; RLabel 1; RRetLabel] false;
   Wrapper "__xstat" (TFun i32 [i32; ptr; ptr] false) i32
     [RArg 0 i32; RArg 1 ptr; RArg 2 ptr; RLabel 0; RLabel 1; RLabel 2; RRetLabel] false;
   Wrapper "fstat" (TFun i32 [i32; ptr] false) i32
     [RArg 0 i32; RArg 1 ptr; RLabel 0; RLabel 1; RRetLabel] false;
   Wrapper "__fxstat" (TFun i32 [i32; i32; ptr] false) i32
     [RArg 0 i32; RArg 1 i32; RArg 2 ptr; RLabel 0; RLabel 1; RLabel 2; RRetLabel] false;
   Wrapper "lstat" (TFun i32 [ptr; ptr] false) i32
     [RArg 0 ptr; RArg 1 ptr; RLabel 0; RLabel 1; RRetLabel] false;
   Wrapper "__lxstat" (TFun i32 [i32; ptr; ptr] false) i32
     [RArg 0 i32; RArg 1 ptr; RArg 2 ptr; RLabel 0; RLabel 1; RLabel 2; RRetLabel] false;
   Wrapper "strchr" (TFun ptr [ptr; i32] false) ptr
     [RArg 0 ptr; RArg 1 i32; RLabel 0; RLabel 1; RRetLabel] false;
   Wrapper "memcmp" (TFun i32 [ptr; ptr; i64] false) i32
     [RArg 0 ptr; RArg 1 ptr; RArg 2 i64; RLabel 0; RLabel 1; RLabel 2; RRetLabel] false;
   Wrapper "strcmp" (TFun i32 [ptr; ptr] false) i32
     [RArg 0 ptr; RArg 1 ptr; RLabel 0; RLabel 1; RRetLabel] false;
   Wrapper "strcasecmp" (TFun i32 [ptr; ptr] false) i32
     [RArg 0 ptr; RArg 1 ptr; RLabel 0; RLabel 1; RRetLabel] false;
   Wrapper "strncmp" (TFun i32 [ptr; ptr; i64] false) i32
     [RArg 0 ptr; RArg 1 ptr; RArg 2 i64; RLabel 0; RLabel 1; RLabel 2; RRetLabel] false;
   Wrapper "strncasecmp" (TFun i32 [ptr; ptr; i64] false) i32
     [RArg 0 ptr; RArg 1 ptr; RArg 2 i64; RLabel 0; RLabel 1; RLabel 2; RRetLabel] false;
   Wrapper "calloc" (TFun ptr [i64; i64] false) ptr
     [RArg 0 i64; RArg 1 i64; RLabel 0; RLabel 1; RRetLabel] false;
   Wrapper "__libc_calloc" (TFun ptr [i64; i64] false) ptr
     [RArg 0 i64; RArg 1 i64; RLabel 0; RLabel 1; RRetLabel] false;
   Wrapper "strlen" (TFun i64 [ptr] false) i64
     [RArg 0 ptr; RLabel 0; RRetLabel] false;
   Wrapper "memcpy" (TFun ptr [ptr; ptr; i64] false) ptr
     [RArg 0 ptr; RArg 1 ptr; RArg 2 i64; RLabel 0; RLabel 1; RLabel 2; RRetLabel] false;
   Wrapper "memmove" (TFun ptr [ptr; ptr; i64] false) ptr
     [RArg 0 ptr; RArg 1 ptr; RArg 2 i64; RLabel 0; RLabel 1; RLabel 2; RRetLabel] false;
   Wrapper "memset" (TFun ptr [ptr; i32; i64] false) ptr
     [RArg 0 ptr; RArg 1 i32; RArg 2 i64; RLabel 0; RLabel 1; RLabel 2; RRetLabel] false;
   Wrapper "strcat" (TFun ptr [ptr; ptr] false) ptr
     [RArg 0 ptr; RArg 1 ptr; RLabel 0; RLabel 1; RRetLabel] false;
   Wrapper "strdup" (TFun ptr [ptr] false) ptr
     [RArg 0 ptr; RLabel 0; RRetLabel] false;
   Wrapper "__strdup" (TFun ptr [ptr] false) ptr
     [RArg 0 ptr; RLabel 0; RRetLabel] false;
   Wrapper "__strndup" (TFun ptr [ptr; i64] false) ptr
     [RArg 0 ptr; RArg 1 i64; RLabel 0; RLabel 1; RRetLabel] false;
   Wrapper "strncpy" (TFun ptr [ptr; ptr; i64] false) ptr
     [RArg 0 ptr; RArg 1 ptr; RArg 2 i64; RLabel 0; RLabel 1; RLabel 2; RRetLabel] false;
   Wrapper "pread" (TFun i64 [i32; ptr; i64; i64] false) i64
     [RArg 0 i32; RArg 1 ptr; RArg 2 i64; RArg 3 i64; RLabel 0; RLabel 1; RLabel 2; RLabel 3;
      RRetLabel] false;
   Wrapper "read" (TFun i64 [i32; ptr; i64] false) i64
     [RArg 0 i32; RArg 1 ptr; RArg 2 i64; RLabel 0; RLabel 1; RLabel 2; RRetLabel] false;
   Wrapper "clock_gettime" (TFun i32 [i32; ptr] false) i32
     [RArg 0 i32; RArg 1 ptr; RLabel 0; RLabel 1; RRetLabel] false;
   Wrapper "dlopen" (TFun ptr [ptr; i32] false) ptr
     [RArg 0 ptr; RArg 1 i32; RLabel 0; RLabel 1; RRetLabel] false;
   Wrapper "pthread_create" (TFun i32 [ptr; ptr; TPtr (TFun ptr [ptr] false); ptr] false) i32
     [RArg 0 ptr; RArg 1 ptr; RTrampoline 2 (TPtr (TFun ptr [ptr; ptr; lab; labp] false));
      RCallback 2; RArg 3 ptr; RLabel 0; RLabel 1; RLabel 2; RLabel 3; RRetLabel] false;
   Wrapper "dl_iterate_phdr" (TFun i32 [TPtr (TFun i32 [ptr; i64; ptr] false); ptr] false) i32
     [RTrampoline 0 (TPtr (TFun i32 [ptr; ptr; i64; ptr; lab; lab; lab; labp] false));
      RCallback 0; RArg 1 ptr; RLabel 0; RLabel 1; RRetLabel] false;
   Wrapper "ctime_r" (TFun ptr [ptr; ptr] false) ptr
     [RArg 0 ptr; RArg 1 ptr; RLabel 0; RLabel 1; RRetLabel] false;
   Wrapper "getcwd" (TFun ptr [ptr; i64] false) ptr
     [RArg 0 ptr; RArg 1 i64; RLabel 0; RLabel 1; RRetLabel] false;
   Wrapper "get_current_dir_name" (TFun ptr [] false) ptr
     [RRetLabel] false;
   Wrapper "gethostname" (TFun i32 [ptr; i64] false) i32
     [RArg 0 ptr; RArg 1 i64; RLabel 0; RLabel 1; RRetLabel] false;
   Wrapper "getrlimit" (TFun i32 [i32; ptr] false) i32
     [RArg 0 i32; RArg 1 ptr; RLabel 0; RLabel 1; RRetLabel] false;
   Wrapper "getrusage" (TFun i32 [i32; ptr] false) i32
     [RArg 0 i32; RArg 1 ptr; RLabel 0; RLabel 1; RRetLabel] false;
   Wrapper "stpcpy" (TFun ptr [ptr; ptr] false) ptr
     [RArg 0 ptr; RArg 1 ptr; RLabel 0; RLabel 1; RRetLabel] false;
   Wrapper "strcpy" (TFun ptr [ptr; ptr] false) ptr
     [RArg 0 ptr; RArg 1 ptr; RLabel 0; RLabel 1; RRetLabel] false;
   Wrapper "strtol" (TFun i64 [ptr; ptr; i32] false) i64
     [RArg 0 ptr; RArg 1 ptr; RArg 2 i32; RLabel 0; RLabel 1; RLabel 2; RRetLabel] false;
   Wrapper "strtod" (TFun (TFp FpDouble) [ptr; ptr] false) (TFp FpDouble)
     [RArg 0 ptr; RArg 1 ptr; RLabel 0; RLabel 1; RRetLabel] false;
   Wrapper "strtoll" (TFun i64 [ptr; ptr; i32] false) i64
     [RArg 0 ptr; RArg 1 ptr; RArg 2 i32; RLabel 0; RLabel 1; RLabel 2; RRetLabel] false;
   Wrapper "strtoul" (TFun i64 [ptr; ptr; i32] false) i64
     [RArg 0 ptr; RArg 1 ptr; RArg 2 i32; RLabel 0; RLabel 1; RLabel 2; RRetLabel] false;
   Wrapper "strtoull" (TFun i64 [ptr; ptr; i32] false) i64
     [RArg 0 ptr; RArg 1 ptr; RLabel 0; RArg 2 i32; RLabel 1; RLabel 2; RRetLabel] false;
   Wrapper "time" (TFun i64 [ptr] false) i64
     [RArg 0 ptr; RLabel 0; RRetLabel] false;
   Wrapper "inet_pton" (TFun i32 [i32; ptr; ptr] false) i32
     [RArg 0 i32; RArg 1 ptr; RArg 2 ptr; RLabel 0; RLabel 1; RLabel 2; RRetLabel] false;
   Wrapper "localtime_r" (TFun ptr [ptr; ptr] false) ptr
     [RArg 0 ptr; RArg 1 ptr; RLabel 0; RLabel 1; RRetLabel] false;
   Wrapper "getpwuid_r" (TFun i32 [i32; ptr; ptr; i64; ptr] false) i32
     [RArg 0 i32; RArg 1 ptr; RArg 2 ptr; RArg 3 i64; RArg 4 ptr; RLabel 0; RLabel 1; RLabel 2;
      RLabel 3; RLabel 4; RRetLabel] false;
   Wrapper "poll" (TFun i32 [ptr; i64; i32] false) i32
     [RArg 0 ptr; RArg 1 i64; RArg 2 i32; RLabel 0; RLabel 1; RLabel 2; RRetLabel] false;
   Wrapper "select" (TFun i32 [i32; ptr; ptr; ptr; ptr] false) i32
     [RArg 0 i32; RArg 1 ptr; RArg 2 ptr; RArg 3 ptr; RArg 4 ptr; RLabel 0; RLabel 1; RLabel 2;
      RLabel 3; RLabel 4; RRetLabel] false;
   Wrapper "sched_getaffinity" (TFun i32 [i32; i64; ptr] false) i32
     [RArg 0 i32; RArg 1 i64; RArg 2 ptr; RLabel 0; RLabel 1; RLabel 2; RRetLabel] false;
   Wrapper "sigemptyset" (TFun i32 [ptr] false) i32
     [RArg 0 ptr; RLabel 0; RRetLabel] false;
   Wrapper "sigaction" (TFun i32 [i32; ptr; ptr] false) i32
     [RArg 0 i32; RArg 1 ptr; RArg 2 ptr; RLabel 0; RLabel 1; RLabel 2; RRetLabel] false;
   Wrapper "gettimeofday" (TFun i32 [ptr; ptr] false) i32
     [RArg 0 ptr; RArg 1 ptr; RLabel 0; RLabel 1; RRetLabel] false;
   Wrapper "memchr" (TFun ptr [ptr; i32; i64] false) ptr
     [RArg 0 ptr; RArg 1 i32; RArg 2 i64; RLabel 0; RLabel 1; RLabel 2; RRetLabel] false;
   Wrapper "strrchr" (TFun ptr [ptr; i32] false) ptr
     [RArg 0 ptr; RArg 1 i32; RLabel 0; RLabel 1; RRetLabel] false;
   Wrapper "strstr" (TFun ptr [ptr; ptr] false) ptr
     [RArg 0 ptr; RArg 1 ptr; RLabel 0; RLabel 1; RRetLabel] false;
   Wrapper "nanosleep" (TFun i32 [ptr; ptr] false) i32
     [RArg 0 ptr; RArg 1 ptr; RLabel 0; RLabel 1; RRetLabel] false;
   Wrapper "socketpair" (TFun i32 [i32; i32; i32; ptr] false) i32
     [RArg 0 i32; RArg 1 i32; RArg 2 i32; RArg 3 ptr; RLabel 0; RLabel 1; RLabel 2; RLabel 3;
      RRetLabel] false;
     Wrapper "dfsan_set_write_callback" (TFun TVoid [TPtr (TFun TVoid [i32; ptr; i64] false)]
      false) TVoid
     [RTrampoline 0 (TPtr (TFun TVoid [ptr; i32; ptr; i64; lab; lab; lab] false)); RCallback 0;
      RLabel 0; RRetLabel] false;
   Wrapper "write" (TFun i64 [i32; ptr; i64] false) i32
     [RArg 0 i32; RArg 1 ptr; RArg 2 i64; RLabel 0; RLabel 1; RLabel 2; RRetLabel] false;
   Wrapper "sprintf" (TFun i32 [ptr; ptr] true) i32
     [RArg 0 ptr; RArg 1 ptr; RLabel 0; RLabel 1; RVaLabels; RRetLabel] true;
   Wrapper "snprintf" (TFun i32 [ptr; i64; ptr] true) i32
     [RArg 0 ptr; RArg 1 i64; RArg 2 ptr; RLabel 0; RLabel 1; RLabel 2; RVaLabels; RRetLabel] true;
   Wrapper "open" (TFun i32 [ptr; i32] true) i32
     [RArg 0 ptr; RArg 1 i32; RLabel 0; RLabel 1; RVaLabels; RRetLabel] true;
   Wrapper "fopen" (TFun ptr [ptr; ptr] false) ptr
     [RArg 0 ptr; RArg 1 ptr; RLabel 0; RLabel 1; RRetLabel] false;
   Wrapper "fopen64" (TFun ptr [ptr; ptr] false) ptr
     [RArg 0 ptr; RArg 1 ptr; RLabel 0; RLabel 1; RRetLabel] false;
   Wrapper "freopen" (TFun ptr [ptr; ptr; ptr] false) ptr
     [RArg 0 ptr; RArg 1 ptr; RArg 2 ptr; RLabel 0; RLabel 1; RLabel 2; RRetLabel] false;
   Wrapper "close" (TFun i32 [i32] false) i32
     [RArg 0 i32; RLabel 0; RRetLabel] false;
   Wrapper "fclose" (TFun i32 [ptr] false) i32
     [RArg 0 ptr; RLabel 0; RRetLabel] false;
   Wrapper "fread" (TFun i64 [ptr; i64; i64; ptr] false) i64
     [RArg 0 ptr; RArg 1 i64; RArg 2 i64; RArg 3 ptr; RLabel 0; RLabel 1; RLabel 2; RLabel 3;
      RRetLabel] false;
   Wrapper "fread_unlocked" (TFun i64 [ptr; i64; i64; ptr] false) i64
     [RArg 0 ptr; RArg 1 i64; RArg 2 i64; RArg 3 ptr; RLabel 0; RLabel 1; RLabel 2; RLabel 3;
      RRetLabel] false;
   Wrapper "getline" (TFun i64 [ptr; ptr; ptr] false) i64
     [RArg 0 ptr; RArg 1 ptr; RArg 2 ptr; RLabel 0; RLabel 1; RLabel 2; RRetLabel] false;
   Wrapper "getdelim" (TFun i64 [ptr; ptr; i32; ptr] false) i64
     [RArg 0 ptr; RArg 1 ptr; RArg 2 i32; RArg 3 ptr; RLabel 0; RLabel 1; RLabel 2; RLabel 3;
      RRetLabel] false;
   Wrapper "__getdelim" (TFun i64 [ptr; ptr; i32; ptr] false) i64
     [RArg 0 ptr; RArg 1 ptr; RArg 2 i32; RArg 3 ptr; RLabel 0; RLabel 1; RLabel 2; RLabel 3;
      RRetLabel] false;
   Wrapper "gets" (TFun ptr [ptr] false) ptr
     [RArg 0 ptr; RLabel 0; RRetLabel] false;
   Wrapper "utmpxname" (TFun i32 [ptr] false) i32
     [RArg 0 ptr; RLabel 0; RRetLabel] false;
   Wrapper "setutxent" (TFun TVoid [] false) TVoid
     [] false;
   Wrapper "getutxent" (TFun ptr [] false) ptr
     [RRetLabel] false;
   Wrapper "fgets" (TFun ptr [ptr; i32; ptr] false) ptr
     [RArg 0 ptr; RArg 1 i32; RArg 2 ptr; RLabel 0; RLabel 1; RLabel 2; RRetLabel] false;
   Wrapper "fgets_unlocked" (TFun ptr [ptr; i32; ptr] false) ptr
     [RArg 0 ptr; RArg 1 i32; RArg 2 ptr; RLabel 0; RLabel 1; RLabel 2; RRetLabel] false;
   Wrapper "realloc" (TFun ptr [ptr; i64] false) ptr
     [RArg 0 ptr; RArg 1 i64; RLabel 0; RLabel 1; RRetLabel] false;
   Wrapper "__libc_realloc" (TFun ptr [ptr; i64] false) ptr
     [RArg 0 ptr; RArg 1 i64; RLabel 0; RLabel 1; RRetLabel] false;
   Wrapper "malloc" (TFun ptr [i64] false) ptr
     [RArg 0 i64; RLabel 0; RRetLabel] false;
   Wrapper "__libc_malloc" (TFun ptr [i64] false) ptr
     [RArg 0 i64; RLabel 0; RRetLabel] false;
   Wrapper "free" (TFun TVoid [ptr] false) TVoid
     [RArg 0 ptr; RLabel 0] false;
   Wrapper "__libc_free" (TFun TVoid [ptr] false) TVoid
     [RArg 0 ptr; RLabel 0] false;
   Wrapper "fgetc" (TFun i32 [ptr] false) i32
     [RArg 0 ptr; RLabel 0; RRetLabel] false;
   Wrapper "getc" (TFun i32 [ptr] false) i32
     [RArg 0 ptr; RLabel 0; RRetLabel] false;
   Wrapper "getc_unlocked" (TFun i32 [ptr] false) i32
     [RArg 0 ptr; RLabel 0; RRetLabel] false;
   Wrapper "_IO_getc" (TFun i32 [ptr] false) i32
     [RArg 0 ptr; RLabel 0; RRetLabel] false;
   Wrapper "getchar" (TFun i32 [] false) i32
     [RRetLabel] false;
   Wrapper "mbrtowc" (TFun i64 [ptr; ptr; i64; ptr] false) i64
     [RArg 0 ptr; RArg 1 ptr; RArg 2 i64; RArg 3 ptr; RLabel 0; RLabel 1; RLabel 2; RLabel 3;
      RRetLabel] false;
   Wrapper "mmap" (TFun ptr [ptr; i64; i32; i32; i32; i64] false) ptr
     [RArg 0 ptr; RArg 1 i64; RArg 2 i32; RArg 3 i32; RArg 4 i32; RArg 5 i64; RLabel 0; RLabel
      1; RLabel 2; RLabel 3; RLabel 4; RLabel 5; RRetLabel] false;
   Wrapper "munmap" (TFun i32 [ptr; i64] false) i32
     [RArg 0 ptr; RArg 1 i64; RLabel 0; RLabel 1; RRetLabel] false;
   Wrapper "lseek" (TFun i64 [i32; i64; i32] false) i64
     [RArg 0 i32; RArg 1 i64; RArg 2 i32; RLabel 0; RLabel 1; RLabel 2; RRetLabel] false;
   Wrapper "fseek" (TFun i32 [ptr; i64; i32] false) i32
     [RArg 0 ptr; RArg 1 i64; RArg 2 i32; RLabel 0; RLabel 1; RLabel 2; RRetLabel] false;
   Wrapper "fseeko" (TFun i32 [ptr; i64; i32] false) i32
     [RArg 0 ptr; RArg 1 i64; RArg 2 i32; RLabel 0; RLabel 1; RLabel 2; RRetLabel] false;
   Wrapper "fseeko64" (TFun i32 [ptr; i64; i32] false) i32
     [RArg 0 ptr; RArg 1 i64; RArg 2 i32; RLabel 0; RLabel 1; RLabel 2; RRetLabel] false;
   Wrapper "__sanitizer_cov_trace_cmp" (TFun TVoid [i64; i64; i64] false) TVoid [] false;
   Wrapper "__sanitizer_cov_trace_cmp1" (TFun TVoid [TInt 8; TInt 8] false) TVoid [] false;
   Wrapper "__sanitizer_cov_trace_cmp2" (TFun TVoid [TInt 16; TInt 16] false) TVoid [] false;
   Wrapper "__sanitizer_cov_trace_cmp4" (TFun TVoid [TInt 32; TInt 32] false) TVoid [] false;
   Wrapper "__sanitizer_cov_trace_cmp8" (TFun TVoid [TInt 64; TInt 64] false) TVoid [] false;
   Wrapper "__sanitizer_cov_trace_const_cmp1" (TFun TVoid [TInt 8; TInt 8] false) TVoid [] false;
   Wrapper "__sanitizer_cov_trace_const_cmp2" (TFun TVoid [TInt 16; TInt 16] false) TVoid [] false;
   Wrapper "__sanitizer_cov_trace_const_cmp4" (TFun TVoid [TInt 32; TInt 32] false) TVoid [] false;
   Wrapper "__sanitizer_cov_trace_const_cmp8" (TFun TVoid [TInt 64; TInt 64] false) TVoid [] false;
   Wrapper "__sanitizer_cov_trace_switch" (TFun TVoid [i64; ptr] false) TVoid [] false
  ].

(** ** Agreement *)

(** Pointers are passed alike whatever they point to; of a trampoline the
    parameter types count. *)
Fixpoint erase_ty (depth : nat) (t : ty) : ty :=
  match depth, t with
  | S depth, TPtr (TFun r ps v) => TPtr (TFun (erase_ty depth r) (erase_ty depth <$> ps) v)
  | _, TPtr _ => ptr
  | _, t => t
  end.
Definition erase_role (r : role) : role :=
  match r with
  | RArg k t => RArg k (erase_ty 0 t)
  | RTrampoline k t => RTrampoline k (erase_ty 1 t)
  | r => r
  end.

(** A wrapper has the parameters, in order, and the result the pass expects. *)
Definition agrees_sig (w : wrapper_sig) : Prop :=
  erase_ty 0 (w_ret w) = erase_ty 0 (fun_ret (w_libc w)) ∧ w_vararg w = fun_vararg (w_libc w) ∧
  erase_role <$> w_roles w = erase_role <$> pass_roles (w_libc w).

(** Thirteen do not: [__dfsw_strtoull] takes a label where the base is passed;
    [__dfsw_write] returns an [int] for an [ssize_t];
    [__dfsw_dfsan_set_write_callback] expects a label pointer that is not passed;
    the ten coverage hooks take no parameters and are passed the operands and
    their labels. *)
Definition mismatched : list string :=
  ["strtoull"; "write"; "dfsan_set_write_callback";
   "__sanitizer_cov_trace_cmp"; "__sanitizer_cov_trace_cmp1"; "__sanitizer_cov_trace_cmp2";
   "__sanitizer_cov_trace_cmp4"; "__sanitizer_cov_trace_cmp8"; "__sanitizer_cov_trace_const_cmp1";
   "__sanitizer_cov_trace_const_cmp2"; "__sanitizer_cov_trace_const_cmp4";
   "__sanitizer_cov_trace_const_cmp8"; "__sanitizer_cov_trace_switch"]%string.

(** The kinds of parameter, and how a wrapper's differ from those passed. *)
Inductive kind := KVal | KTrampoline | KFnPtr | KLabel | KSlot.
Definition role_kind (r : role) : kind :=
  match r with
  | RArg _ _ => KVal
  | RTrampoline _ _ => KTrampoline
  | RCallback _ => KFnPtr
  | RLabel _ => KLabel
  | RVaLabels | RRetLabel => KSlot
  end.
Definition differs_sig (w : wrapper_sig) : Prop :=
  role_kind <$> w_roles w ≠ role_kind <$> pass_roles (w_libc w) ∨
  erase_ty 0 (w_ret w) ≠ erase_ty 0 (fun_ret (w_libc w)).

Lemma wrapper_table :
  Forall (λ w, if bool_decide (w_name w ∈ mismatched) then differs_sig w else agrees_sig w) custom_wrappers.
Proof.
  unfold custom_wrappers.
  repeat (apply Forall_cons; split;
    [match goal with |- if ?b then _ else _ => let v := eval vm_compute in b in change b with v end; cbv iota;
     solve [split_and!; reflexivity | left; vm_compute; congruence | right; vm_compute; congruence]|]).
  constructor.
Qed.

(** ** Types that are passed alike *)
Definition erase_param (p : ty) : ty + ty :=
  match fn_pointee p with
  | Some ft => inl (erase_ty 1 (TPtr (getTrampolineFunctionType ft)))
  | None => inr (erase_ty 0 p)
  end.
Definition like (ft ft' : ty) : Prop :=
  erase_ty 0 (fun_ret ft) = erase_ty 0 (fun_ret ft') ∧ fun_vararg ft = fun_vararg ft' ∧
  erase_param <$> fun_params ft = erase_param <$> fun_params ft'.

Lemma param_roles_erase k p :
  erase_role <$> param_roles k p =
    match erase_param p with inl t => [RTrampoline k t; RCallback k] | inr t => [RArg k t] end.
Proof. unfold param_roles, erase_param. by destruct (fn_pointee p). Qed.
Lemma params_roles_like n ps qs :
  erase_param <$> ps = erase_param <$> qs →
  erase_role <$> concat (imap (λ k, param_roles (n + k)) ps) =
    erase_role <$> concat (imap (λ k, param_roles (n + k)) qs).
Proof.
  revert n qs. induction ps as [|p ps IH]; intros n [|q qs]; [done..|].
  cbn [fmap list_fmap]. intros [= Hp Hps]. cbn [imap concat]. rewrite !fmap_app, !param_roles_erase, Hp.
  f_equal. erewrite (imap_ext _ (λ k, param_roles (S n + k)) ps), (imap_ext _ (λ k, param_roles (S n + k)) qs);
    [by apply IH|..]; intros j x _; cbn; f_equal; lia.
Qed.
Lemma is_void_erase t : is_void (erase_ty 0 t) = is_void t.
Proof. by destruct t. Qed.
Lemma pass_roles_like ft ft' : like ft ft' → erase_role <$> pass_roles ft = erase_role <$> pass_roles ft'.
Proof.
  intros (Hr & Hv & Hp). unfold pass_roles. rewrite !fmap_app, Hv.
  rewrite <-(is_void_erase (fun_ret ft)), Hr, is_void_erase.
  assert (length (fun_params ft) = length (fun_params ft')) as ->.
  { apply (f_equal length) in Hp. by rewrite !length_fmap in Hp. }
  f_equal. exact (params_roles_like 0 _ _ Hp).
Qed.

(** ** What the parameters receive *)
Section call_sites.
Context {Ops : LlvmOps} {DL : DataLayout} {PE : PassEnv}.

(** What the pass passes for a parameter with an (erased) role: the argument, a
    trampoline for it and the pointer itself, its label, the array of the labels
    of the variable arguments, the slot from which the label of the result is
    loaded. *)
Definition receives (native : bool) (n : nat) (args : list val) (t' : tf) (stores loads : list emit)
    (c : carg) (r : role) : Prop :=
  match r with
  | RArg k t => ∃ v, args !! k = Some v ∧ c = AVal v ∧ erase_ty 0 (type_of v) = t
  | RTrampoline k t => ∃ v name ft, args !! k = Some v ∧ fn_pointee (type_of v) = Some ft ∧
      c = ATrampoline name ft ∧ erase_ty 1 (TPtr (getTrampolineFunctionType ft)) = t
  | RCallback k => ∃ v, args !! k = Some v ∧ c = AFnPtr v
  | RLabel k => ∃ v s, args !! k = Some v ∧ has native t' v s ∧ c = AShadow s
  | RVaLabels => ∃ slot ls, c = ASlot slot 0 ∧
      stores = imap (λ j s, ESlotStore slot (Z.of_nat j) s) ls ∧ Forall2 (has native t') (drop n args) ls
  | RRetLabel => ∃ slot d, c = ASlot slot 0 ∧ loads = [ESlotLoad d slot 0]
  end.
Definition carg_kind (c : carg) : kind :=
  match c with
  | AVal _ => KVal
  | ATrampoline _ _ => KTrampoline
  | AFnPtr _ => KFnPtr
  | AShadow _ => KLabel
  | ASlot _ _ => KSlot
  end.
Lemma receives_kind native n args t' stores loads c r :
  receives native n args t' stores loads c r → carg_kind c = role_kind r.
Proof. destruct r; cbn; naive_solver. Qed.
Lemma receives_kinds native n args t' stores loads cs rs :
  Forall2 (receives native n args t' stores loads) cs rs → carg_kind <$> cs = role_kind <$> rs.
Proof. induction 1 as [|c r cs rs H _ IH]; [done|]. cbn. f_equal; [by eapply receives_kind|exact IH]. Qed.
Lemma erase_kind (rs : list role) : role_kind <$> (erase_role <$> rs) = role_kind <$> rs.
Proof. rewrite <-list_fmap_compose. apply list_fmap_ext. by intros ? []. Qed.

Definition from (k : nat) (args all : list val) : Prop :=
  ∀ j a, args !! j = Some a → all !! (k + j)%nat = Some a.
Lemma from_cons k a args all : from k (a :: args) all → all !! k = Some a ∧ from (S k) args all.
Proof.
  intros H. split; [specialize (H 0%nat a eq_refl); by rewrite Nat.add_0_r in H|].
  intros j x Hj. specialize (H (S j) x Hj). by rewrite Nat.add_succ_r in H.
Qed.
Lemma args_received native n all t' stores loads fname k args :
  from k args all →
  Forall2 (receives native n all t' stores loads)
    (concat (imap (λ j, custom_arg fname (k + j)) args))
    (erase_role <$> concat (imap (λ j, param_roles (k + j)) (type_of <$> args))).
Proof.
  revert k. induction args as [|a args IH]; intros k Hall; [constructor|].
  apply from_cons in Hall as [Hk Hall].
  cbn [imap concat fmap list_fmap]. rewrite fmap_app, Nat.add_0_r. apply Forall2_app.
  - rewrite param_roles_erase. unfold custom_arg, erase_param.
    destruct (fn_pointee (type_of a)) as [ft|] eqn:Hf; repeat constructor; cbn; eauto 10.
  - erewrite (imap_ext _ (λ j, custom_arg fname (S k + j)) args);
      [erewrite (imap_ext _ (λ j, param_roles (S k + j)) (type_of <$> args)); [by apply IH|]|];
      intros j x _; cbn; f_equal; lia.
Qed.
Lemma labels_received native n all t' stores loads k args ss :
  from k args all → Forall2 (has native t') args ss →
  Forall2 (receives native n all t' stores loads) (AShadow <$> ss)
    (erase_role <$> (RLabel <$> seq k (length args))).
Proof.
  intros Hall Hss. revert k Hall. induction Hss as [|a s args ss Ha _ IH]; intros k Hall; [constructor|].
  apply from_cons in Hall as [Hk Hall]. cbn [fmap list_fmap length seq]. constructor; [|by apply IH].
  by exists a, s.
Qed.

(** The code of a call site gives every role the pass assigns what it stands
    for. *)
Lemma site_received native i fname args t t' stores loads ss va ret :
  custom_site native i fname args t t' stores loads ss va ret →
  let ft := fn_type fname in let n := length (fun_params ft) in
  type_of <$> take n args = fun_params ft →
  Forall2 (receives native n args t' stores loads)
    (concat (imap (custom_arg fname) (take n args)) ++ (AShadow <$> ss) ++ va ++ ret)
    (erase_role <$> pass_roles ft).
Proof.
  intros [_ _ Hss Hva Hret] ft n Hty. fold ft n in Hss, Hva, Hret.
  assert (from 0 (take n args) args) as Hfrom by (intros j a [Ha _]%lookup_take_Some; exact Ha).
  unfold pass_roles. rewrite !fmap_app. repeat apply Forall2_app.
  - rewrite <-Hty. by apply (args_received _ _ _ _ _ _ _ 0).
  - rewrite <-Hty, length_fmap. by apply labels_received.
  - destruct (fun_vararg ft); [|by destruct Hva as [-> _]; constructor].
    destruct Hva as (slot & ls & -> & -> & Hls). constructor; [|constructor]. by exists slot, ls.
  - destruct (is_void (fun_ret ft)); [by destruct Hret as [-> _]; constructor|].
    destruct Hret as (d & slot & -> & -> & _). constructor; [|constructor]. by exists slot, d.
Qed.
End call_sites.

Lemma custom_function_ret ft : fun_ret (getCustomFunctionType ft).1 = fun_ret ft.
Proof. unfold getCustomFunctionType. by destruct (custom_params _ _ _). Qed.
Lemma custom_function_vararg ft : fun_vararg (getCustomFunctionType ft).1 = fun_vararg ft.
Proof. unfold getCustomFunctionType. by destruct (custom_params _ _ _). Qed.

(** C17: the prototypes of the custom functions. Take a function [f] of
    [dfsan_custom.cc], and a call of [f] whose fixed arguments have the types of
    its parameters, the program's type of [f] being that of the library up to
    what pointers point to. The pass replaces the call by one of [__dfsw_f]. Each
    parameter that the definition of [__dfsw_f] declares receives what it is
    meant to receive (the argument of its number; the trampoline and the pointer
    for a function pointer; the label of its argument; the labels of the variable
    arguments; the slot of the result's label), the types and the number of
    parameters agree, and so does the type of the result, if and only if [f] is
    not among the thirteen functions of [mismatched]. *)
Theorem custom_prototypes {Ops : LlvmOps} {DL : DataLayout} {PE : PassEnv} F native i w args t :
  let ft := fn_type (w_name w) in let n := length (fun_params ft) in
  w ∈ custom_wrappers → like ft (w_libc w) →
  own t → unlabelled (i_id i) t → VInst (i_id i) ∉ args → type_of <$> take n args = fun_params ft →
  ∃ t' stores loads cs,
    custom_call F native i (w_name w) args t = Ret () t' ∧ tf_fate t' = Erased ∧
    tf_before t' = tf_before t ++ stores ++
      ECall (i_id i) (CalleeFun ("__dfsw_" +:+ w_name w)) (getCustomFunctionType ft).1
        (cs ++ (AVal <$> drop n args)) false :: loads ∧
    (w_name w ∉ mismatched ↔
      Forall2 (receives native n args t' stores loads) cs (erase_role <$> w_roles w) ∧
      erase_ty 0 (fun_ret (getCustomFunctionType ft).1) = erase_ty 0 (w_ret w) ∧
      fun_vararg (getCustomFunctionType ft).1 = w_vararg w).
Proof.
  intros ft n Hw Hlike Ho Hu Hni Hty.
  destruct (custom_call_site F native i (w_name w) args t Ho Hu Hni)
    as (t' & stores & loads & ss & va & ret & Hr & Hs).
  eexists t', stores, loads, (concat (imap (custom_arg (w_name w)) (take n args)) ++ (AShadow <$> ss) ++ va ++ ret).
  split; [exact Hr|]. split; [exact (cs_erased _ _ _ _ _ _ _ _ _ _ _ Hs)|].
  split; [by rewrite <-!app_assoc; apply (cs_before _ _ _ _ _ _ _ _ _ _ _ Hs)|].
  pose proof (site_received _ _ _ _ _ _ _ _ _ _ _ Hs Hty) as Hrec. fold ft n in Hrec.
  rewrite (pass_roles_like _ _ Hlike) in Hrec. destruct Hlike as (Hret & Hva & _).
  rewrite custom_function_ret, custom_function_vararg, Hret, Hva.
  pose proof (proj1 (Forall_forall _ _) wrapper_table w Hw) as Ht. cbv beta in Ht.
  destruct (bool_decide_reflect (w_name w ∈ mismatched)) as [Hm|Hm].
  - split; [done|]. intros (H1 & H2 & _). exfalso. destruct Ht as [Hk|Hk]; [|by apply Hk].
    apply Hk. apply receives_kinds in Hrec, H1. rewrite erase_kind in Hrec, H1. congruence.
  - split; [|done]. intros _. destruct Ht as (H1 & H2 & H3). split_and!; [by rewrite H3|done|done].
Qed.

(** ** Witness: calls of [memcmp] and of [strtoull] *)
#[local] Existing Instance layout64.
Definition custom_env (fname : string) (ft : ty) : PassEnv := {|
  ClTraceFP := false;
  ClTraceGEPOffset := false;
  ABI := IA_TLS;
  type_of v := match v with VArgument k => default (TInt 32) (fun_params ft !! Z.to_nat k) | _ => TInt 32 end;
  GetUnderlyingObjects v := [v];
  constant_object _ := false;
  UnwrappedFnMap _ := Some fname;
  wrapper_kind _ := WK_Custom;
  fn_type _ := ft;
|}.
Definition abi_inst : inst := Inst 1 (TInt 32) (IOther []) false.
Definition memcmp_type : ty := TFun i32 [TPtr (TInt 32); TPtr (TStruct [i32]); i64] false.
Definition strtoull_type : ty := TFun i64 [ptr; ptr; i32] false.
Definition abi_args : list val := [VArgument 0; VArgument 1; VArgument 2].
Lemma custom_prototypes_witness :
  (∃ t' stores loads cs,
     custom_call (PE:=custom_env "memcmp" memcmp_type) small_func false abi_inst "memcmp" abi_args small_tf = Ret () t' ∧
     Forall2 (receives (PE:=custom_env "memcmp" memcmp_type) false 3 abi_args t' stores loads) cs
       [RArg 0 ptr; RArg 1 ptr; RArg 2 i64; RLabel 0; RLabel 1; RLabel 2; RRetLabel]) ∧
  (∃ t' stores loads cs,
     custom_call (PE:=custom_env "strtoull" strtoull_type) small_func false abi_inst "strtoull" abi_args small_tf = Ret () t' ∧
     ¬ Forall2 (receives (PE:=custom_env "strtoull" strtoull_type) false 3 abi_args t' stores loads) cs
       [RArg 0 ptr; RArg 1 ptr; RLabel 0; RArg 2 i32; RLabel 1; RLabel 2; RRetLabel]).
Proof.
  split.
  - destruct (custom_prototypes (PE:=custom_env "memcmp" memcmp_type) small_func false abi_inst
      (Wrapper "memcmp" (TFun i32 [ptr; ptr; i64] false) i32
         [RArg 0 ptr; RArg 1 ptr; RArg 2 i64; RLabel 0; RLabel 1; RLabel 2; RRetLabel] false) abi_args small_tf)
      as (t' & stores & loads & cs & H1 & _ & _ & H2).
    + do 7 right. left.
    + split_and!; reflexivity.
    + apply (own_init 101).
    + done.
    + vm_compute. set_solver.
    + reflexivity.
    + exists t', stores, loads, cs. split; [exact H1|].
      apply H2. apply (bool_decide_unpack _). by vm_compute.
  - destruct (custom_prototypes (PE:=custom_env "strtoull" strtoull_type) small_func false abi_inst
      (Wrapper "strtoull" (TFun i64 [ptr; ptr; i32] false) i64
         [RArg 0 ptr; RArg 1 ptr; RLabel 0; RArg 2 i32; RLabel 1; RLabel 2; RRetLabel] false) abi_args small_tf)
      as (t' & stores & loads & cs & H1 & _ & _ & H2).
    + do 41 right. left.
    + split_and!; reflexivity.
    + apply (own_init 101).
    + done.
    + vm_compute. set_solver.
    + reflexivity.
    + exists t', stores, loads, cs. split; [exact H1|]. intros H3.
      apply (proj2 H2); [by split_and!|left].
Defined.
