(* ===== verification/PassDecl.v ===== *)
(** * The functions of the runtime, as the pass declares and calls them

    The pass declares the functions of the runtime with types of its own
    ([doInitialization], [runOnModule]); the runtime defines them in C++
    ([dfsan.cc]). Here the declarations are compared with the definitions, and
    the calls the visitor inserts with the declarations. *)
From stdpp Require Import pretty.
From S2P Require Import Prelude Platform Labels Ir Pass PassModule PassVisit PassSound PassCall PassAbi.

(** ** Declarations ([doInitialization]), for a 64-bit target *)
Definition Int8Ty : ty := TInt 8.
Definition Int16Ty : ty := TInt 16.
Definition Int64Ty : ty := TInt 64.
Definition Int8PtrTy : ty := TPtr Int8Ty.
Definition IntptrTy : ty := TInt 64.

Definition TaintUnionFnTy : ty := TFun ShadowTy [ShadowTy; ShadowTy; Int16Ty; Int16Ty; Int64Ty; Int64Ty] false.
Definition TaintUnionLoadFnTy : ty := TFun ShadowTy [ShadowPtrTy; IntptrTy] false.
Definition TaintUnionStoreFnTy : ty := TFun TVoid [ShadowTy; ShadowPtrTy; IntptrTy] false.
Definition TaintUnimplementedFnTy : ty := TFun TVoid [Int8PtrTy] false.
Definition TaintSetLabelFnTy : ty := TFun TVoid [ShadowTy; Int8PtrTy; IntptrTy] false.
Definition TaintNonzeroLabelFnTy : ty := TFun TVoid [] false.
Definition TaintVarargWrapperFnTy : ty := TFun TVoid [Int8PtrTy] false.
Definition TaintTraceCmpFnTy : ty :=
  TFun TVoid [ShadowTy; ShadowTy; ShadowTy; ShadowTy; Int64Ty; Int64Ty] false.
Definition TaintTraceCondFnTy : ty := TFun TVoid [ShadowTy; Int8Ty] false.
Definition TaintTraceIndirectCallFnTy : ty := TFun TVoid [ShadowTy] false.
Definition TaintTraceGEPFnTy : ty := TFun TVoid [ShadowTy; Int64Ty] false.
Definition TaintDebugFnTy : ty := TFun TVoid [ShadowTy; ShadowTy; ShadowTy; ShadowTy; ShadowTy] false.

(** The functions inserted into the module ([runOnModule]), with the attributes of
    the function, and where a label is zero-extended. *)
Inductive fn_attr := NoUnwind | ReadNone | ReadOnly.
Record decl := Decl {
  d_name : string;
  d_ty : ty;
  d_attrs : list fn_attr;
  d_zext_ret : bool;
  d_zext_params : list nat;
}.
Definition runtime_decls : list decl :=
  [Decl "__taint_union" TaintUnionFnTy [NoUnwind; ReadNone] true [0; 1]%nat;
   Decl "taint_union" TaintUnionFnTy [NoUnwind; ReadNone] true [0; 1]%nat;
   Decl "__taint_union_load" TaintUnionLoadFnTy [NoUnwind; ReadOnly] true [];
   Decl "__taint_union_store" TaintUnionStoreFnTy [NoUnwind] false [0]%nat;
   Decl "__dfsan_unimplemented" TaintUnimplementedFnTy [] false [];
   Decl "__dfsan_set_label" TaintSetLabelFnTy [] false [0]%nat;
   Decl "__dfsan_nonzero_label" TaintNonzeroLabelFnTy [] false [];
   Decl "__dfsan_vararg_wrapper" TaintVarargWrapperFnTy [] false [];
   Decl "__taint_trace_cmp" TaintTraceCmpFnTy [] false [];
   Decl "__taint_trace_cond" TaintTraceCondFnTy [] false [];
   Decl "__taint_trace_indcall" TaintTraceIndirectCallFnTy [] false [];
   Decl "__taint_trace_gep" TaintTraceGEPFnTy [] false [];
   Decl "__taint_debug" TaintDebugFnTy [] false []]%string.
Definition declared (f : string) (t : ty) : Prop := (f, t) ∈ ((λ d, (d_name d, d_ty d)) <$> runtime_decls).

(** ** Definitions ([dfsan.cc]); [dfsan_label] is a [u32] *)
Definition dfsan_label_ty : ty := TInt 32.
Definition taint_union_proto : ty :=
  TFun dfsan_label_ty [dfsan_label_ty; dfsan_label_ty; TInt 16; TInt 16; TInt 64; TInt 64] false.
Definition taint_union_load_proto : ty := TFun dfsan_label_ty [TPtr dfsan_label_ty; TInt 64] false.
Definition taint_union_store_proto : ty := TFun TVoid [dfsan_label_ty; TPtr dfsan_label_ty; TInt 64] false.
Definition dfsan_unimplemented_proto : ty := TFun TVoid [TPtr (TInt 8)] false.
Definition dfsan_set_label_proto : ty := TFun TVoid [dfsan_label_ty; TPtr TVoid; TInt 64] false.
Definition dfsan_nonzero_label_proto : ty := TFun TVoid [] false.
Definition dfsan_vararg_wrapper_proto : ty := TFun TVoid [TPtr (TInt 8)] false.
Definition taint_trace_cmp_proto : ty :=
  TFun TVoid [dfsan_label_ty; dfsan_label_ty; TInt 32; TInt 32; TInt 64; TInt 64] false.
Definition taint_trace_cond_proto : ty := TFun TVoid [dfsan_label_ty; TInt 8] false.
Definition taint_trace_indcall_proto : ty := TFun TVoid [dfsan_label_ty] false.
Definition taint_trace_gep_proto : ty := TFun TVoid [dfsan_label_ty; TInt 64] false.
Definition taint_debug_proto : ty :=
  TFun TVoid [dfsan_label_ty; dfsan_label_ty; TInt 32; TInt 32; TInt 32] false.
Definition runtime_protos : list (string * ty) :=
  [("__taint_union", taint_union_proto);
   ("__taint_union_load", taint_union_load_proto);
   ("__taint_union_store", taint_union_store_proto);
   ("__dfsan_unimplemented", dfsan_unimplemented_proto);
   ("__dfsan_set_label", dfsan_set_label_proto);
   ("__dfsan_nonzero_label", dfsan_nonzero_label_proto);
   ("__dfsan_vararg_wrapper", dfsan_vararg_wrapper_proto);
   ("__taint_trace_cmp", taint_trace_cmp_proto);
   ("__taint_trace_cond", taint_trace_cond_proto);
   ("__taint_trace_indcall", taint_trace_indcall_proto);
   ("__taint_trace_gep", taint_trace_gep_proto);
   ("__taint_debug", taint_debug_proto)]%string.

(** Function types that are passed alike. *)
Definition erase_fun (t : ty) : ty := TFun (erase_ty 0 (fun_ret t)) (erase_ty 0 <$> fun_params t) (fun_vararg t).

(** ** Calls *)
Ltac in_list := solve [repeat first [left|right]].
Ltac in_decls := unfold declared, runtime_decls; cbn [fmap list_fmap d_name d_ty]; in_list.
Section calls.
Context {Ops : LlvmOps} {DL : DataLayout} {PE : PassEnv}.
Context (F : func) (native : bool).

Definition conv_ty (c : conv) : ty := match c with CvBitCast w | CvPtrToInt w | CvZExtOrTrunc w => TInt w end.
Definition arg64_ty (x : arg64) : ty := default (type_of x.1) (conv_ty <$> last x.2).

(** The runtime function an inserted instruction calls, and the types of the
    arguments built for it. *)
Definition call_types (e : emit) : option (string * list ty) :=
  match e with
  | EUnion _ _ _ _ _ x1 x2 =>
      Some ("__taint_union"%string, [ShadowTy; ShadowTy; Int16Ty; Int8Ty; arg64_ty x1; arg64_ty x2])
  | EUnionLoad _ _ _ => Some ("__taint_union_load"%string, [ShadowPtrTy; IntptrTy])
  | EUnionStore _ _ _ => Some ("__taint_union_store"%string, [ShadowTy; ShadowPtrTy; IntptrTy])
  | ETraceCmp _ _ _ _ x1 x2 =>
      Some ("__taint_trace_cmp"%string, [ShadowTy; ShadowTy; ShadowTy; ShadowTy; arg64_ty x1; arg64_ty x2])
  | ETraceCond _ c => Some ("__taint_trace_cond"%string, [ShadowTy; type_of c])
  | ETraceGep _ x => Some ("__taint_trace_gep"%string, [ShadowTy; arg64_ty x])
  | ETraceIndirectCall _ => Some ("__taint_trace_indcall"%string, [ShadowTy])
  | ESetLabel _ _ _ => Some ("__dfsan_set_label"%string, [ShadowTy; Int8PtrTy; IntptrTy])
  | EUnimplemented _ => Some ("__dfsan_unimplemented"%string, [Int8PtrTy])
  | _ => None
  end.
(** What LLVM would want: the types of the declaration. Two calls differ: the
    size of a union is an [i8] for an [i16], and a condition is passed as it is. *)
Definition passed_types (f : string) (ps args : list ty) : Prop :=
  if String.eqb f "__taint_union" then args = <[3%nat := Int8Ty]> ps
  else if String.eqb f "__taint_trace_cond" then ∃ t, args = <[1%nat := t]> ps
  else args = ps.
Definition typed (e : emit) : Prop :=
  match call_types e with
  | Some (f, args) => ∃ ft, declared f ft ∧ passed_types f (fun_params ft) args
  | None => True
  end.
Definition all_typed (t : tf) : Prop :=
  Forall typed (tf_entry t) ∧ Forall typed (tf_before t) ∧ Forall typed (tf_after t).

Lemma union_typed d s1 s2 op size x1 x2 :
  arg64_ty x1 = TInt 64 → arg64_ty x2 = TInt 64 → typed (EUnion d s1 s2 op size x1 x2).
Proof. intros H1 H2. exists TaintUnionFnTy. rewrite H1, H2. split; [in_decls|done]. Qed.
Lemma cmp_typed s1 s2 size p x1 x2 :
  arg64_ty x1 = TInt 64 → arg64_ty x2 = TInt 64 → typed (ETraceCmp s1 s2 size p x1 x2).
Proof. intros H1 H2. exists TaintTraceCmpFnTy. cbn [call_types]. rewrite H1, H2. split; [in_decls|done]. Qed.
(** *** Every visit inserts typed calls only *)
Lemma emit_entry_typed e : typed e → pres all_typed (emit_entry e).
Proof. intros He. apply pres_modify. intros t (H1 & H2 & H3). split_and!; [by constructor|done|done]. Qed.
Lemma emit_before_typed e : typed e → pres all_typed (emit_before e).
Proof. intros He. apply pres_modify. intros t (H1 & H2 & H3). split_and!; [done|by apply Forall_app_2; [|constructor]|done]. Qed.
Lemma emit_after_typed e : typed e → pres all_typed (emit_after e).
Proof. intros He. apply pres_modify. intros t (H1 & H2 & H3). split_and!; [done|done|by apply Forall_app_2; [|constructor]]. Qed.
Lemma untyped e : call_types e = None → typed e.
Proof. unfold typed. by intros ->. Qed.
Lemma same_typed f : (∀ t, tf_entry (f t) = tf_entry t ∧ tf_before (f t) = tf_before t ∧ tf_after (f t) = tf_after t) →
  pres all_typed (modify f).
Proof. intros H. apply pres_modify. intros t Ht. destruct (H t) as (H1 & H2 & H3). unfold all_typed. by rewrite H1, H2, H3. Qed.
Lemma fresh_typed : pres all_typed fresh.
Proof. by intros t Ht. Qed.
Lemma setShadow_typed id s : pres all_typed (setShadow id s).
Proof. intros t Ht. unfold setShadow. rewrite bind_get. unfold mbind, M_bind, assert_. by destruct (bool_decide _). Qed.
Lemma getShadow_typed v : pres all_typed (getShadow F native v).
Proof.
  intros t Ht. destruct v as [n|id| |]; cbn [getShadow]; [| |done|done]; rewrite bind_get.
  - destruct (tf_args t !! n); [done|]. destruct native; [done|]. destruct ABI; [done|].
    destruct Ht as (H1 & H2 & H3). split_and!; [by constructor|done|done].
  - by destruct (tf_insts t !! id).
Qed.
Lemma getShadow_entry v : hoare (λ t, Forall typed (tf_entry t)) (getShadow F native v)
  (λ _ t, Forall typed (tf_entry t)) (λ _, True).
Proof.
  intros t Ht.  destruct v as [n|id| |]; cbn [getShadow]; [| |done|done]; rewrite bind_get.
  - destruct (tf_args t !! n); [done|]. destruct native; [done|]. destruct ABI; [done|]. by constructor.
  - by destruct (tf_insts t !! id).
Qed.
Lemma slot_typed addr : pres all_typed (alloca_slot addr).
Proof. by intros t Ht. Qed.
#[local] Hint Resolve fresh_typed setShadow_typed getShadow_typed slot_typed : rt.
#[local] Hint Extern 1 (pres all_typed (emit_before _)) => (apply emit_before_typed; first [by apply untyped|done]) : rt.
#[local] Hint Extern 1 (pres all_typed (emit_entry _)) => (apply emit_entry_typed; first [by apply untyped|done]) : rt.
#[local] Hint Extern 1 (pres all_typed (emit_after _)) => (apply emit_after_typed; first [by apply untyped|done]) : rt.
#[local] Hint Extern 1 (pres all_typed (modify _)) => (by apply same_typed) : rt.
#[local] Hint Extern 1 (pres all_typed (nonzero_check _)) => (by apply same_typed) : rt.
#[local] Hint Extern 1 (pres all_typed erase) => (by apply same_typed) : rt.
#[local] Hint Extern 1 (pres all_typed (set_called_function _)) => (by apply same_typed) : rt.

Lemma runtime_typed f ft e :
  call_types e = Some (f, fun_params ft) → declared f ft →
  f ≠ "__taint_union"%string → f ≠ "__taint_trace_cond"%string → typed e.
Proof.
  intros He Hf H1 H2. unfold typed. rewrite He. exists ft. split; [done|]. unfold passed_types.
  by rewrite (proj2 (String.eqb_neq _ _) H1), (proj2 (String.eqb_neq _ _) H2).
Qed.
Lemma cond_typed s c : typed (ETraceCond s c).
Proof. exists TaintTraceCondFnTy. split; [in_decls|]. by exists (type_of c). Qed.
Lemma load_typed d addr size : typed (EUnionLoad d addr size).
Proof. by apply (runtime_typed "__taint_union_load" TaintUnionLoadFnTy); [|in_decls|..]. Qed.
Lemma store_typed s addr size : typed (EUnionStore s addr size).
Proof. by apply (runtime_typed "__taint_union_store" TaintUnionStoreFnTy); [|in_decls|..]. Qed.
Lemma set_label_typed s dest len : typed (ESetLabel s dest len).
Proof. by apply (runtime_typed "__dfsan_set_label" TaintSetLabelFnTy); [|in_decls|..]. Qed.
Lemma indcall_typed s : typed (ETraceIndirectCall s).
Proof. by apply (runtime_typed "__taint_trace_indcall" TaintTraceIndirectCallFnTy); [|in_decls|..]. Qed.
Lemma unimplemented_typed f : typed (EUnimplemented f).
Proof. by apply (runtime_typed "__dfsan_unimplemented" TaintUnimplementedFnTy); [|in_decls|..]. Qed.
Lemma gep_typed s v : typed (ETraceGep s (v, [CvZExtOrTrunc 64])).
Proof. by apply (runtime_typed "__taint_trace_gep" TaintTraceGEPFnTy); [|in_decls|..]. Qed.
Lemma operand_to_int64_ty v : arg64_ty (operand_to_int64 v) = TInt 64.
Proof. unfold arg64_ty, operand_to_int64. cbn [snd]. by rewrite last_snoc. Qed.
#[local] Hint Resolve cond_typed load_typed store_typed set_label_typed indcall_typed unimplemented_typed gep_typed : core.

Lemma combine_typed s1 s2 op pos : type_of (VConst 64 0) = TInt 64 → pres all_typed (combineShadows s1 s2 op pos).
Proof.
  intros Hc. unfold combineShadows. cbv zeta. repeat (case_decide || case_match); try by apply pres_ret.
  all: apply pres_bind; [apply fresh_typed|]; intros d; apply pres_bind; [|intros _; apply pres_ret];
    apply emit_before_typed, union_typed; [apply operand_to_int64_ty|].
  all: repeat case_match; first [apply operand_to_int64_ty|done].
Qed.

Context (Hconst : type_of (VConst 64 0) = TInt 64).
#[local] Hint Extern 1 (pres all_typed (combineShadows _ _ _ _)) => (by apply combine_typed) : rt.
Lemma loadShadow_typed addr size : pres all_typed (loadShadow addr size).
Proof. unfold loadShadow. pres_auto. Qed.
Lemma storeShadow_typed addr size s : pres all_typed (storeShadow addr size s).
Proof. unfold storeShadow. pres_auto. Qed.
Lemma condition_typed c : pres all_typed (visitCondition F native c).
Proof. unfold visitCondition. pres_auto. Qed.
#[local] Hint Resolve loadShadow_typed storeShadow_typed condition_typed : rt.
Lemma gep_indices_typed et idx : pres all_typed (gep_indices F native et idx).
Proof.
  revert et. induction idx as [|v idx IH]; intros et; cbn [gep_indices]; [pres_auto|].
  destruct (negb (is_composite et)); [destruct et; pres_auto|]. pres_auto.
Qed.
Lemma shadows_of_typed l : pres all_typed (shadows_of F native l).
Proof. induction l as [|a l IH]; cbn [shadows_of]; pres_auto. Qed.
Lemma store_labels_typed slot k l : pres all_typed (store_labels F native slot k l).
Proof. revert k. induction l as [|a l IH]; intros k; cbn [store_labels]; pres_auto. Qed.
Lemma store_args_typed k l : pres all_typed (store_args F native k l).
Proof. revert k. induction l as [|a l IH]; intros k; cbn [store_args]; pres_auto. Qed.
Lemma custom_args_typed fname k l : pres all_typed (custom_args fname k l).
Proof. revert k. induction l as [|a l IH]; intros k; cbn [custom_args]; pres_auto. Qed.
Lemma label_return_typed : pres all_typed label_return.
Proof.
  intros t Ht. unfold label_return. rewrite bind_get. destruct (LabelReturnAlloca t); [done|].
  destruct Ht as (H1 & H2 & H3). split_and!; [by constructor|done|done].
Qed.
#[local] Hint Resolve gep_indices_typed shadows_of_typed store_labels_typed store_args_typed custom_args_typed
  label_return_typed : rt.
Lemma label_array_typed l : pres all_typed (label_array F native l).
Proof. unfold label_array. pres_auto. Qed.
#[local] Hint Resolve label_array_typed : rt.
Lemma custom_call_typed_code i fname args : pres all_typed (custom_call F native i fname args).
Proof. unfold custom_call. cbv zeta. pres_auto. Qed.
Lemma instrumented_call_typed i f fty args inv : pres all_typed (instrumented_call F native i f fty args inv).
Proof. unfold instrumented_call, tls_call, args_call. cbv zeta. pres_auto. Qed.
#[local] Hint Resolve custom_call_typed_code instrumented_call_typed : rt.
Lemma call_site_typed i f fty args inv : pres all_typed (visitCallSite F native i f fty args inv).
Proof. unfold visitCallSite. pres_auto. Qed.
Lemma switch_typed i c cases : pres all_typed (visitSwitchInst F native i c cases).
Proof.
  unfold visitSwitchInst. cbv zeta. pres_step; [pres_auto|]. pres_step; [pres_auto|]. intros s.
  pres_step; [pres_auto|]. apply pres_for_each. intros k _. by apply emit_before_typed, cmp_typed.
Qed.
Lemma return_typed v : pres all_typed (visitReturnInst F native v).
Proof.
  destruct v as [v|]; [|pres_auto]. cbn [visitReturnInst]. destruct native eqn:Hn; [pres_auto|]. rewrite <-Hn.
  apply pres_bind; [apply getShadow_typed|]. intros s. destruct ABI; pres_auto.
Qed.
#[local] Hint Resolve call_site_typed switch_typed return_typed : rt.
Lemma visit_typed i : pres all_typed (visit F native i).
Proof.
  unfold visit. destruct (i_kind i);
    unfold visitBinaryOperator, visitCastInst, visitCmpInst, visitBranchInst, visitGetElementPtrInst, visitLoadInst,
      visitStoreInst, visitPHINode, visitAllocaInst, visitSelectInst, visitMemSetInst,
      visitMemTransferInst, combineBinaryOperatorShadows, combineCastInstShadows, combineCmpInstShadows; cbv zeta; pres_auto.
Qed.

(** *** Whole functions *)
Definition entry_typed (t : tf) : Prop := Forall typed (tf_entry t).
Definition item_typed (x : item) : Prop := Forall typed (it_before x) ∧ Forall typed (it_after x).
Lemma visit_inst_typed i :
  hoare entry_typed (visit_inst F native i) (λ x t, entry_typed t ∧ item_typed x) (λ _, True).
Proof.
  intros t Ht. unfold visit_inst. rewrite bind_modify, bind_get. set (t0 := set_code _ [] [] Kept t).
  set (c := if decide (i_id i ∈ SkipInsts t0) then mret () else visit F native i).
  assert (pres all_typed c) as Hv by (unfold c; case_decide; [pres_auto|apply visit_typed]).
  specialize (Hv t0 ltac:(by split_and!)). unfold mbind, M_bind. destruct (c t0) as [[] t1|e t1|h t1]; [|done|done].
  destruct Hv as (H1 & H2 & H3). by split_and!.
Qed.
Lemma visit_insts_typed l :
  hoare entry_typed (visit_insts F native l) (λ xs t, entry_typed t ∧ Forall item_typed xs) (λ _, True).
Proof.
  induction l as [|i l IH]; cbn [visit_insts]; [by intros t Ht|].
  eapply hoare_bind; [apply visit_inst_typed|]. intros x t [Ht Hx]. specialize (IH t Ht).
  unfold mbind, M_bind. destruct (visit_insts F native l t) as [xs t1| |]; [|done|done].
  destruct IH as [Ht1 Hxs]. split; [done|by constructor].
Qed.
Lemma visit_blocks_typed bs :
  hoare entry_typed (visit_blocks F native bs)
    (λ xs t, entry_typed t ∧ Forall (λ b, Forall item_typed b.2) xs) (λ _, True).
Proof.
  induction bs as [|b bs IH]; cbn [visit_blocks]; [by intros t Ht|].
  eapply hoare_bind; [apply visit_insts_typed|]. intros x t [Ht Hx]. specialize (IH t Ht).
  unfold mbind, M_bind. destruct (visit_blocks F native bs t) as [xs t1| |]; [|done|done].
  destruct IH as [Ht1 Hxs]. split; [done|by constructor].
Qed.
Lemma phis_entry_typed l : hoare entry_typed (fix_phis F native l) (λ _, entry_typed) (λ _, True).
Proof.
  induction l as [|[pn d] l IH]; cbn [fix_phis]; [by intros t Ht|].
  assert (∀ vs, hoare entry_typed (shadows_of F native vs) (λ _, entry_typed) (λ _, True)) as Hs.
  { induction vs as [|v vs IHv]; cbn [shadows_of]; [by intros t Ht|]. eapply hoare_bind; [apply getShadow_entry|].
    intros s. eapply hoare_bind; [exact IHv|]. by intros ss t Ht. }
  eapply hoare_bind; [apply Hs|]. intros ss. eapply hoare_bind; [exact IH|]. by intros r t Ht.
Qed.
Lemma instrument_typed bs :
  hoare entry_typed (instrument F native bs)
    (λ r t, entry_typed t ∧ Forall (λ b, Forall item_typed b.2) r.1) (λ _, True).
Proof.
  unfold instrument. eapply hoare_bind; [apply visit_blocks_typed|]. intros xs t [Ht Hx]. rewrite bind_get.
  pose proof (phis_entry_typed (PHIFixups t) t Ht) as Hp. unfold mbind, M_bind.
  destruct (fix_phis F native (PHIFixups t) t) as [r t1| |]; [|done|done]. by split.
Qed.
End calls.

(** C18: the interface between the pass and the runtime. Every function the pass
    declares, except [taint_union], is defined by the runtime with a type that is
    passed alike; [taint_union] is not defined. And every call of the runtime that
    the instrumentation of a function inserts, at its entry or around an
    instruction, is to a declared function, with arguments of the declared types,
    except that the size given to [__taint_union] is an [i8] for an [i16] and that
    [__taint_trace_cond] gets the condition with its own type. *)
Theorem runtime_interface {Ops : LlvmOps} {DL : DataLayout} {PE : PassEnv} F native bs t :
  type_of (VConst 64 0) = TInt 64 → entry_typed t →
  Forall (λ d, (∃ proto, (d_name d, proto) ∈ runtime_protos ∧ erase_fun proto = erase_fun (d_ty d)) ↔
               d_name d ≠ "taint_union"%string) runtime_decls ∧
  match instrument F native bs t with
  | Ret (xs, _) t' => entry_typed t' ∧ Forall (λ b, Forall item_typed b.2) xs
  | _ => True
  end.
Proof.
  intros Hc Ht. split.
  - unfold runtime_decls. repeat apply Forall_cons_2; [..|constructor].
    all: split; [|intros Hne; first [by destruct Hne|by eexists; split; [in_list|vm_compute]]].
    all: try done.
    intros (proto & Hp & _). unfold runtime_protos in Hp.
    repeat (apply elem_of_cons in Hp as [Hp|Hp]; [done|]). by apply not_elem_of_nil in Hp.
  - pose proof (instrument_typed F native Hc bs t Ht) as H. destruct (instrument F native bs t) as [[xs phis] t'| |]; [|done|done].
    exact H.
Qed.

(** The loop that counts up from a byte of memory. *)
Lemma runtime_interface_witness :
  ∃ xs phis t', instrument (DL:=layout64) (PE:=plain_env) small_func false (fn_blocks small_func) small_tf =
                  Ret (xs, phis) t' ∧
    entry_typed (PE:=plain_env) t' ∧ Forall (λ b, Forall (item_typed (PE:=plain_env)) b.2) xs.
Proof.
  destruct (runtime_interface (DL:=layout64) (PE:=plain_env) small_func false (fn_blocks small_func) small_tf)
    as [_ H]; [done|by constructor|].
  destruct (instrument_runs (DL:=layout64) (PE:=plain_env) small_func false (fn_blocks small_func) small_tf
    small_ordered (own_init 101)) as ([xs phis] & t' & Hr & _); [apply unvisited_init; by repeat constructor|].
  rewrite Hr in H. exists xs, phis, t'. split; [exact Hr|exact H].
Defined.
