(* ===== verification/EndToEnd.v ===== *)
(** * From an instrumented branch to a new input

    The pass, the label store, the serializer and the solver together: when
    instrumented code reaches a branch on a labelled condition, the input file
    the runtime writes makes the original program, after the same path, take the
    other side of that branch. *)
From S2P Require Import Prelude Platform Labels UnionTable Union Z3 State Files Denote Shadow ShadowSpec Serialize Solver Libc Invariant Ir Pass PassModule PassRun PassSpec PassMem PassVisit PassStep PassSound.

Section flip.
Context {Zi : Z3} {Laws : Z3Laws Zi} {Ops : LlvmOps} {DL : DataLayout} {PE : PassEnv} {Cs : Callees}.

(** The runtime is able to solve the branch at [addr] on the label [l]: the
    branch was not traced too often in this context, the label not flipped
    before, the offsets it depends on are those of the input, and the output
    file can be written. *)
Record ready (s : rt) (addr l : Z) (buf : list Z) : Prop := {
  rd_count : branch_count s addr < MAX_BRANCH_COUNT;
  rd_caches : caches_sound s;
  rd_flipped : flipped s l = false;
  rd_room b e d s1 : serialize l ∅ (set_branches b s) = Ret (e, d) s1 →
    ∀ x, x ∈ all_offsets s d → deps_room s x;
  rd_write : can_write s buf;
}.

Lemma count_run s addr :
  branch_count s addr < MAX_BRANCH_COUNT → ∃ b, count_branch addr s = Ret true (set_branches b s).
Proof.
  intros Hc. unfold branch_count in Hc. unfold count_branch. rewrite !bind_gets.
  destruct (rt_branches s !! _) as [n|]; simpl in Hc.
  - rewrite (proj2 (Z.ltb_lt n _)) by done. rewrite bind_modify. by eexists.
  - rewrite bind_modify. by eexists.
Qed.
Lemma trace_cond_solves s l n addr :
  l ≠ 0 → branch_count s addr < MAX_BRANCH_COUNT →
  ∃ b result, z3_sort result = SBool ∧ (∀ env, z3_eval env result = VBool (negb (n =? 0))) ∧
    taint_trace_cond l n addr s = solve_cond l result true (set_branches b s).
Proof.
  intros Hl Hc. destruct (count_run s addr Hc) as [b Hb].
  destruct (mk_well_sorted (ZBoolVal (negb (n =? 0))) [] SBool eq_refl) as (e & He & Hs & Hev).
  exists b, e. split_and!; [done|done|]. unfold taint_trace_cond.
  rewrite (proj2 (Z.eqb_neq l 0)) by done. rewrite (bind_run _ _ _ _ _ Hb). cbn [negb].
  rewrite (bind_run _ _ _ e (set_branches b s)); [done|]. unfold zmk. by rewrite He.
Qed.

Lemma enc_bool b n : in_range 1 n → enc 1 n = VBool b → n = Z.b2z b.
Proof.
  unfold enc. simpl. intros Hn [= <-].
  assert (n = 0 ∨ n = 1) as [->| ->] by (unfold in_range in Hn; lia); done.
Qed.
Lemma other_side n : in_range 1 n → Z.b2z (negb (negb (n =? 0))) = 1 - n.
Proof. intros Hn. assert (n = 0 ∨ n = 1) as [->| ->] by (unfold in_range in Hn; lia); done. Qed.
(** What running the branch does, the formula it asks the solver about, and what
    the answer leads to. *)
Lemma branch_run_solved native inp past t i x c s n m rs buf :
  branch i → i_kind i = IBranch (Some c) → branch_ok native t i x → it_before x = [ETraceCond s c] →
  consistent native inp past t m rs → has native t c s → value_of m c = Some n → label_of m s ≠ 0 →
  ready (mc_rt m) (i_id i) (label_of m s) buf →
  ∃ m', run_item x m = Ret () m' ∧ same_values m m' ∧ consistent native inp past t m' rs ∧
    ∃ ne es,
      (∀ j mj, rs j = Some mj → z3_eval (env_of j) ne = VBool true ↔ value_of mj c = Some (1 - n)) ∧
      match answer (sv_checks (rt_solver (mc_rt m))) ne es with
      | None => rt_os (mc_rt m') = rt_os (mc_rt m)
      | Some model =>
          byte_model model →
          ∃ file, os_files (rt_os (mc_rt m')) =
                    <[next_path (mc_rt m) := file]> (os_files (rt_os (mc_rt m))) ∧
            (∀ k, 0 ≤ k → (∀ v, (SInt k, v) ∉ model) →
               byte_at file k = byte_at (original (mc_rt m) buf) k) ∧
            ∀ mj, rs (input_of_file file) = Some mj → value_of mj c = Some (1 - n)
      end.
Proof.
  intros Hb Hk Hx Hcode Hc Hh Hn Hl Hready. pose proof Hb as [_ Hop]. rewrite Hk in Hop.
  destruct (operand_symb _ _ _ _ _ _ _ _ _ _ Hc Hop Hh Hn) as (f & Hf & Hfi & Hfj).
  destruct (symb_label _ _ _ _ _ (cs_wf _ _ _ _ _ _ Hc) Hf) as [Hl0 Hlast].
  pose proof (symb_range _ _ _ _ _ inp Hf) as Hrn. rewrite Hfi in Hrn.
  assert (∀ j, denote (rt_labels (mc_rt m)) (rt_mem (mc_rt m)) j (label_of m s) = Some (enc 1 (f j))) as Hden.
  { destruct Hf as [_ [[? _]|[_ Hd]]]; [done|exact Hd]. }
  assert (∀ j, enc 1 (f j) = VBool (negb (negb (n =? 0))) ↔ f j = 1 - n) as Hside.
  { intros j. rewrite <-(other_side n Hrn). pose proof (symb_range _ _ _ _ _ j Hf) as Hrj. split.
    - by apply enc_bool.
    - intros ->. by destruct (n =? 0). }
  destruct (trace_cond_solves (mc_rt m) (label_of m s) n (i_id i) Hl (rd_count _ _ _ _ Hready))
    as (b & result & Hrs & Hre & Hrun).
  destruct (solve_cond_solved (set_branches b (mc_rt m)) (label_of m s) result (negb (n =? 0)) inp buf)
    with (nested := true) as (s' & Hs' & ne & es & Hne & _ & Hans).
  - exact (cs_wf _ _ _ _ _ _ Hc).
  - exact (rd_caches _ _ _ _ Hready).
  - exact Hlast.
  - exact (rd_flipped _ _ _ _ Hready).
  - exists (f inp =? 1). exact (Hden inp).
  - done.
  - done.
  - exact (rd_room _ _ _ _ Hready b).
  - destruct (rd_write _ _ _ _ Hready). by split.
  - pose proof (settled_trace_cond (mc_rt m) (label_of m s) n (i_id i) ltac:(lia) (mc_rt m)
                  (settled_refl _ (cs_wf _ _ _ _ _ _ Hc))) as Hst.
    destruct Hx as (Hi & Hfate & Ha & _).
    exists (set_rt s' m). rewrite (branch_run i x c s n m) by done. rewrite Hrun, Hs' in *.
    split; [done|]. split; [split_and!; [done|done|apply Hst]|]. split; [by apply consistent_settled|].
    exists ne, es. split.
    + intros j mj Hj. rewrite Hne, (Hfj j mj Hj).
      change (denote (rt_labels (mc_rt m)) (rt_mem (mc_rt m)) j (label_of m s) =
                Some (VBool (negb (negb (n =? 0)))) ↔ Some (f j) = Some (1 - n)).
      rewrite Hden. split; intros H; apply (inj Some) in H; f_equal; by apply Hside.
    + cbn [rt_solver set_branches] in Hans. destruct (answer _ ne es) as [model|]; [|apply Hans].
      intros Hbm. destruct (Hans Hbm) as (_ & file & Hfile & Hd & _ & Hbytes). exists file.
      split_and!; [exact Hfile|exact Hbytes|]. intros mj Hj. rewrite (Hfj _ _ Hj). f_equal.
      apply Hside. specialize (Hden (input_of_file file)).
      change (denote (rt_labels (mc_rt m)) (rt_mem (mc_rt m)) (input_of_file file) (label_of m s) =
                Some (VBool (negb (negb (n =? 0))))) in Hd. congruence.
Qed.

(** The solver answers every query that the input [j] satisfies (it does not give
    up on it). *)
Definition answers (j : input) : Prop :=
  ∀ n e, z3_eval (env_of j) e = VBool true → ∃ model, z3_check n [e] = Sat model.
Lemma answers_answer j n ne es :
  answers j → z3_eval (env_of j) ne = VBool true → ∃ model, answer n ne es = Some model.
Proof. intros Ha He. unfold answer. destruct (Ha n ne He) as [model ->]. by eexists. Qed.
End flip.

(** C3: concolic execution of a branch. An instrumented branch on a condition
    with a label is reached in a state with right labels, and the runtime is
    ready to solve it. Then the branch runs, changes no value of the program and
    keeps the labels right; and there is a formula [ne] that holds of exactly
    the inputs on which the original program, after the same path, has the other
    value of the condition (wherever that path is defined), such that: if Z3
    finds no model, no file is written; and if the model it finds assigns input
    bytes, the next output file holds the current input changed only at the bytes
    of the model, and on it the condition has the other value. *)
Theorem branch_generates_other_side {Zi : Z3} {Laws : Z3Laws Zi} {Ops : LlvmOps} {DL : DataLayout}
    {PE : PassEnv} {Cs : Callees} native inp past t i x c s n m rs buf :
  branch i → i_kind i = IBranch (Some c) → branch_ok native t i x → it_before x = [ETraceCond s c] →
  consistent native inp past t m rs → has native t c s → value_of m c = Some n → label_of m s ≠ 0 →
  ready (mc_rt m) (i_id i) (label_of m s) buf →
  ∃ m', run_item x m = Ret () m' ∧ same_values m m' ∧ consistent native inp past t m' rs ∧
    ∃ ne es,
      (∀ j mj, rs j = Some mj → z3_eval (env_of j) ne = VBool true ↔ value_of mj c = Some (1 - n)) ∧
      match answer (sv_checks (rt_solver (mc_rt m))) ne es with
      | None => rt_os (mc_rt m') = rt_os (mc_rt m)
      | Some model =>
          byte_model model →
          ∃ file, os_files (rt_os (mc_rt m')) =
                    <[next_path (mc_rt m) := file]> (os_files (rt_os (mc_rt m))) ∧
            (∀ k, 0 ≤ k → (∀ v, (SInt k, v) ∉ model) →
               byte_at file k = byte_at (original (mc_rt m) buf) k) ∧
            ∀ mj, rs (input_of_file file) = Some mj → value_of mj c = Some (1 - n)
      end.
Proof. apply branch_run_solved. Qed.

(** C4: progress. In the situation of an instrumented branch that the runtime is
    ready to solve, suppose some input [j] makes the original program, after the
    same path, take the other side, and the solver does not give up on queries
    that [j] satisfies. Then the branch runs and the solver does find a model;
    and when that model assigns input bytes, an input file is written on which
    the condition has the other value (wherever the path is defined on it). *)
Theorem branch_reaches_other_side {Zi : Z3} {Laws : Z3Laws Zi} {Ops : LlvmOps} {DL : DataLayout}
    {PE : PassEnv} {Cs : Callees} native inp past t i x c s n m rs buf j mj :
  branch i → i_kind i = IBranch (Some c) → branch_ok native t i x → it_before x = [ETraceCond s c] →
  consistent native inp past t m rs → has native t c s → value_of m c = Some n → label_of m s ≠ 0 →
  ready (mc_rt m) (i_id i) (label_of m s) buf →
  rs j = Some mj → value_of mj c = Some (1 - n) → answers j →
  ∃ m' ne es model, run_item x m = Ret () m' ∧
    answer (sv_checks (rt_solver (mc_rt m))) ne es = Some model ∧
    (byte_model model → ∃ file,
       os_files (rt_os (mc_rt m')) !! next_path (mc_rt m) = Some file ∧
       ∀ mk, rs (input_of_file file) = Some mk → value_of mk c = Some (1 - n)).
Proof.
  intros Hb Hk Hx Hcode Hc Hh Hn Hl Hready Hj Hmj Hans.
  destruct (branch_run_solved native inp past t i x c s n m rs buf Hb Hk Hx Hcode Hc Hh Hn Hl Hready)
    as (m' & Hrun & _ & _ & ne & es & Hne & Hout).
  destruct (answers_answer j (sv_checks (rt_solver (mc_rt m))) ne es Hans) as [model Hmodel].
  { by apply (Hne j mj Hj). }
  exists m', ne, es, model. split_and!; [done|done|]. rewrite Hmodel in Hout. intros Hbm.
  destruct (Hout Hbm) as (file & Hf & _ & Hside). exists file. split; [|exact Hside].
  by rewrite Hf, lookup_insert_eq.
Qed.

(** ** A branch on [x == 5], for the first byte [x] of the input [1; 2] *)
#[local] Existing Instance layout64.
#[local] Existing Instance plain_env.
#[local] Existing Instance no_calls.

Definition is_five (j : input) : Z := Z.b2z (u8 (in_byte j 0) =? 5).
Definition five_branch : inst := Inst 4 TVoid (IBranch (Some (VInst 3))) false.
Definition five_item : item := Item [ETraceCond (SVal 100) (VInst 3)] five_branch Kept [].
Definition five_tf : tf := set_insts {[ 3 := SVal 100 ]} (tf_init 101).
Definition five_mach (j : input) : mach (Zi:=Ref.z3) :=
  Mach {[ 3 := is_five j ]} ∅ {[ 100 := 3 ]} ∅ ∅ ∅ 0 cond_rt.

Lemma five_denotes j : sden cond_rt j 3 = Some (enc 1 (is_five j)).
Proof.
  assert (sden cond_rt j 1 = Some (enc 8 (u8 (in_byte j 0)))) as H1.
  { rewrite (sden_key cond_rt 1 (input_record 0)); [by vm_compute|exact cond_rt_wf|by vm_compute|by vm_compute]. }
  rewrite (sden_key cond_rt 3
    (LabelInfo 1 0 (if 1 =? 0 then 0 else 0) (if 0 =? 0 then 5 else 0) (cmp_op 32) 8 0 0 0 None None));
    [|exact cond_rt_wf|by vm_compute|by vm_compute].
  rewrite (record_common cond_rt j 1 0 0 5 (cmp_op 32) 8); [|first [lia|by vm_compute|by left]..].
  unfold operand_sem. rewrite H1.
  change (bin_sem (cmp_op 32) 8 (enc 8 (u8 (in_byte j 0))) (enc 8 5) = Some (enc 1 (is_five j))).
  rewrite cmp_bin_sem by lia.
  rewrite (cmp_sem_enc 32 8 _ 5 (u8 (in_byte j 0) =? 5)); [unfold is_five; by destruct (u8 (in_byte j 0) =? 5)|lia|lia|apply u8_range|done|done].
Qed.
Lemma five_consistent : consistent false file_input cond_rt five_tf (five_mach file_input) (λ j, Some (five_mach j)).
Proof.
  split; [exact cond_rt_wf| | | |done].
  - intros l Hl. change (1 ≤ l ≤ 3) in Hl.
    assert (l = 1 ∨ l = 2 ∨ l = 3) as [->|[->| ->]] by lia; by vm_compute.
  - intros v s w n Hv Hh Ht Hn. destruct v as [k|k| |]; try done.
    simpl in Hh, Hn. change (({[ 3 := SVal 100 ]} : gmap Z shadow) !! k = Some s) in Hh.
    apply lookup_singleton_Some in Hh as [<- <-]. rewrite lookup_singleton_eq in Hn.
    injection Hn as <-. injection Ht as <-. exists is_five. split_and!; [|done|].
    + split; [intros j; unfold is_five; by destruct (_ =? 5)|]. right. split; [by vm_compute|apply five_denotes].
    + intros j mj [= <-]. simpl. by rewrite lookup_singleton_eq.
  - intros a _. assert (label_at cond_rt a = 0) as Hl by (unfold label_at; by replace (rt_shadow cond_rt) with (∅ : gmap Z Z) by by vm_compute).
    split_and!; [by left|by rewrite byte_fun_const|]. intros j mem [= <-]. by rewrite byte_fun_const.
Qed.
Lemma five_ready : ready cond_rt 4 3 [1; 2].
Proof.
  split; [by vm_compute|apply no_caches_sound; by vm_compute|by vm_compute| |exact cond_rt_can_write].
  intros b e d s1 Hs.
  assert (snd <$> returned (serialize 3 ∅ (set_branches b cond_rt)) = Some {[ 0 ]}) as Hd by by vm_compute.
  rewrite Hs in Hd. simpl in Hd. injection Hd as ->.
  assert (all_offsets cond_rt {[ 0 ]} = {[ 0 ]}) as -> by by vm_compute.
  intros x ->%elem_of_singleton. split; [done|left]. by vm_compute.
Qed.
Lemma branch_generates_other_side_witness :
  ∃ m', run_item five_item (five_mach file_input) = Ret () m' ∧
    consistent false file_input cond_rt five_tf m' (λ j, Some (five_mach j)) ∧
    ∃ (ne : expr (Z3:=Ref.z3)) es, (∀ j, z3_eval (env_of j) ne = VBool true ↔ is_five j = 1) ∧
      match answer (Zi:=Ref.z3) (sv_checks (rt_solver cond_rt)) ne es with
      | None => rt_os (mc_rt m') = rt_os cond_rt
      | Some model => byte_model model → ∃ file,
          os_files (rt_os (mc_rt m')) = <[next_path cond_rt := file]> (os_files (rt_os cond_rt)) ∧
          is_five (input_of_file file) = 1
      end.
Proof.
  destruct (branch_generates_other_side (Zi:=Ref.z3) (Cs:=no_calls) false file_input cond_rt five_tf five_branch five_item
    (VInst 3) (SVal 100) 0 (five_mach file_input) (λ j, Some (five_mach j)) [1; 2])
    as (m' & Hrun & _ & Hc & ne & es & Hne & Hans).
  - split; [done|]. by split.
  - done.
  - split_and!; [done|done|done|]. exists (SVal 100). by split.
  - done.
  - exact five_consistent.
  - done.
  - by vm_compute.
  - done.
  - exact five_ready.
  - assert (∀ j, value_of (five_mach j) (VInst 3) = Some (is_five j)) as Hval
      by (intros j; simpl; by rewrite lookup_singleton_eq).
    exists m'. split; [exact Hrun|]. split; [exact Hc|]. exists ne, es. split.
    + intros j. rewrite (Hne j _ eq_refl), Hval. split; [by intros [= ->]|by intros ->].
    + change (mc_rt (five_mach file_input)) with cond_rt in Hans.
      destruct (answer _ ne es) as [model|]; [|exact Hans]. intros Hbm.
      destruct (Hans Hbm) as (file & Hf & _ & Ho). exists file. split; [exact Hf|].
      specialize (Ho _ eq_refl). rewrite Hval in Ho. by injection Ho.
Defined.

(** The reference solver does not give up on the two-byte input [5; 2]. *)
Definition five_input : input := input_of_file [5; 2].
Lemma five_answers : answers (Zi:=Ref.z3) five_input.
Proof.
  intros n e He. apply (Ref.check_complete (env_of five_input)).
  - intros [k|x]; simpl; [|case_decide; lia]. unfold byte_at.
    destruct (Z.to_nat k) as [|[|q]]; destruct (k <? 0); simpl; lia.
  - by intros t ->%list_elem_of_singleton.
Qed.
Lemma branch_reaches_other_side_witness :
  ∃ m' (ne : expr (Z3:=Ref.z3)) es model, run_item five_item (five_mach file_input) = Ret () m' ∧
    answer (Zi:=Ref.z3) (sv_checks (rt_solver cond_rt)) ne es = Some model ∧
    (byte_model model → ∃ file,
       os_files (rt_os (mc_rt m')) !! next_path cond_rt = Some file ∧
       is_five (input_of_file file) = 1).
Proof.
  assert (∀ j, value_of (five_mach j) (VInst 3) = Some (is_five j)) as Hval
    by (intros j; simpl; by rewrite lookup_singleton_eq).
  destruct (branch_reaches_other_side (Zi:=Ref.z3) (Cs:=no_calls) false file_input cond_rt five_tf five_branch five_item
    (VInst 3) (SVal 100) 0 (five_mach file_input) (λ j, Some (five_mach j)) [1; 2]
    five_input (five_mach five_input)) as (m' & ne & es & model & Hrun & Hans & Hfile).
  - split; [done|]. by split.
  - done.
  - split_and!; [done|done|done|]. exists (SVal 100). by split.
  - done.
  - exact five_consistent.
  - done.
  - by vm_compute.
  - done.
  - exact five_ready.
  - done.
  - by vm_compute.
  - exact five_answers.
  - exists m', ne, es, model. split_and!; [exact Hrun|exact Hans|]. intros Hbm.
    destruct (Hfile Hbm) as (file & Hf & Ho). exists file. split; [exact Hf|].
    specialize (Ho _ eq_refl). rewrite Hval in Ho. by injection Ho.
Defined.
