(* ===== verification/FromStart.v ===== *)
(** * From start-up to instrumented code

    The runtime starts, the program opens its input file and reads from it: then
    the labels of memory are right in the sense the theorems on instrumented
    functions need, for every input the program could have been given. *)
From S2P Require Import Prelude Platform Labels UnionTable Union Z3 State Files Denote Shadow ShadowSpec Serialize Solver FlagParser Init Libc CustomFile CustomSpec Invariant Ir Pass PassModule PassRun PassSpec PassMem PassVisit PassStep PassSound PassFun.

Section from_start.
Context {Zi : Z3} {Ops : LlvmOps} {En : Env}.

(** The bytes [off], ..., [off + n - 1] of an input, as a read delivers them. *)
Definition input_bytes (off n : Z) (j : input) : list Z := (λ k, u8 (in_byte j (off + k))) <$> range 0 n.
Lemma length_input_bytes off n j : 0 ≤ n → Z.of_nat (length (input_bytes off n j)) = n.
Proof. intros Hn. unfold input_bytes, range. rewrite length_fmap, length_seqZ. lia. Qed.
Lemma input_bytes_lookup off n j k :
  0 ≤ k < n → input_bytes off n j !! Z.to_nat k = Some (u8 (in_byte j (off + k))).
Proof.
  intros Hk. unfold input_bytes, range. rewrite list_lookup_fmap, lookup_seqZ_lt by lia. cbn. do 3 f_equal. lia.
Qed.
(** The memory of the original program after a read of the input [j]. *)
Definition after_read (mem : gmap Z Z) (buf off n : Z) (j : input) : gmap Z Z :=
  store_bytes mem buf (input_bytes off n j).

Lemma open_source path fd s :
  fd ≠ 0 → (env_realpath (string_of_bytes (cstr (rt_mem s) path))).2 = tf_filename (rt_tainted s) →
  ∃ sv, dfsw_open path (Sys fd []) s = Ret (fd, 0) (set_solver_st sv (set_tainted (with_fd fd (rt_tainted s)) s)).
Proof.
  intros Hfd Hp. eexists. unfold dfsw_open, host. erewrite bind_run by reflexivity.
  cbn [sys_writes sys_ret foldl]. rewrite (proj2 (Z.eqb_neq fd 0)) by done. cbn [negb].
  replace (set_mem (rt_mem s) s) with s by (by destruct s). unfold path_at, in_mem.
  erewrite bind_run; [reflexivity|]. rewrite bind_gets. unfold taint_set_file.
  rewrite bind_gets, Hp, String.eqb_refl. reflexivity.
Qed.
(** A read writes to the buffer and sets labels, nothing else. *)
Lemma read_run fd buf count off bs s :
  rt_wf s → file_open s fd → CustomSpec.app_range buf (Z.of_nat (length bs)) → 0 ≤ off →
  off + Z.of_nat (length bs) ≤ tf_size (rt_tainted s) →
  ∃ s', dfsw_read fd buf count off (Sys (Z.of_nat (length bs)) [(buf, bs)]) s = Ret (Z.of_nat (length bs), 0) s' ∧
    labelled s s' buf off bs ∧ rt_mem s' = store_bytes (rt_mem s) buf bs.
Proof.
  intros Hwf Hop Hbuf Ho Hof. pose proof Hwf as [m Hm]. pose proof (last_bound _ _ Hm).
  destruct (read_labelled fd buf off bs s Hwf Hop Hbuf Ho Hof) as (s' & Hr & Hl). exists s'.
  destruct Hop as (Hfd & Hst & Hsz & Hlast & _). split_and!; [|done|].
  - unfold dfsw_read, host. erewrite bind_run by reflexivity. cbn [sys_ret sys_writes foldl fst snd].
    rewrite (proj2 (Z.leb_le 0 _)) by lia. rewrite (bind_run _ _ _ () s'); [done|].
    unfold taint_get_file. rewrite bind_gets. cbn [rt_tainted set_mem].
    rewrite Hfd, Z.eqb_refl, (proj2 (Z.eqb_neq _ 0)) by lia. exact Hr.
  - set (s1 := set_mem (store_bytes (rt_mem s) buf bs) s) in *.
    pose proof (label_bytes_run fd off buf (Z.of_nat (length bs)) s1 Hst ltac:(lia) Hbuf Ho ltac:(lia)) as Hw.
    unfold wp in Hw. rewrite Hr in Hw. destruct Hw as (-> & _). done.
Qed.

(** ** Labels after the first read *)

(** The labels are those of start-up: the input bytes, and no byte of memory has one. *)
Record fresh_labels (s : rt) : Prop := {
  fl_wf : rt_wf s;
  fl_records l : 1 ≤ l ≤ last_label (rt_labels s) → info_at (rt_labels s) l = input_record (l - 1);
  fl_shadow a : peek (rt_shadow s) a = 0;
}.
Lemma fresh_free s : fresh_labels s → mem_free (rt_labels s).
Proof. intros [_ Hr _] l Hl. rewrite Hr by done. cbn. op_lia. Qed.
Lemma app_ranges a n : PassMem.app_range a n → CustomSpec.app_range a n.
Proof. intros [H1 H2]. assert (AppBaseAddr ≤ AppAddr) by (by vm_compute). split; lia. Qed.

Lemma read_symb s s' fd buf off n inp :
  fresh_labels s → file_open s fd → PassMem.app_range buf n → 0 ≤ n → 0 ≤ off → off + n ≤ tf_size (rt_tainted s) →
  off + n < 2 ^ 31 →
  labelled s s' buf off (input_bytes off n inp) → rt_mem s' = after_read (rt_mem s) buf off n inp →
  mem_symb s' inp (λ j, Some (after_read (rt_mem s) buf off n j)).
Proof.
  intros Hfr Hop Hbuf Hn Ho Hof H31 (Hin & Hout & Hst) Hmem. pose proof (fl_wf _ Hfr) as Hwf.
  assert (rt_labels s' = rt_labels s) as Hlab by (by rewrite Hst).
  pose proof (λ j, length_input_bytes off n j Hn) as Hlen.
  apply mem_symb_bytes. intros b Hb. destruct (decide (buf ≤ b < buf + n)) as [Hk|Hk].
  - set (k := b - buf). assert (0 ≤ k < n) as Hkn by (unfold k; lia).
    assert (∀ j, u8 (peek (after_read (rt_mem s) buf off n j) b) = u8 (in_byte j (off + k))) as Hbyte.
    { intros j. unfold after_read. rewrite peek_store_bytes, Hlen, decide_True by lia. fold k.
      rewrite input_bytes_lookup by done. cbn. apply u8_idemp. }
    destruct (Hin (Z.to_nat k) _ (input_bytes_lookup off n inp k Hkn)) as (_ & Hl & Hd).
    rewrite Z2Nat.id in Hl, Hd by lia. unfold k in Hl at 1, Hd at 1. rewrite Z.add_sub_assoc, Z.add_simpl_l in Hl, Hd.
    destruct Hop as (_ & _ & _ & Hlast & _).
    assert (s32 (off + k) = off + k) as H32.
    { unfold s32, swrap. rewrite wrap_small by (unfold in_range; lia).
      by rewrite (proj2 (Z.ltb_lt _ _)) by lia. }
    exists (λ j, u8 (in_byte j (off + k))). split_and!; [right|by rewrite Hmem, Hbyte|by intros j mem [= <-]; rewrite Hbyte].
    unfold label_at. change (peek (rt_shadow s') (shadow_for b)) with (CustomSpec.byte_label s' b).
    rewrite Hl, Hlab, (fl_records _ Hfr) by lia. split_and!; [lia|lia|done|].
    intros j. by rewrite <-Hl, Hd, H32.
  - exists (λ _, u8 (peek (rt_mem s) b)).
    assert (∀ j, u8 (peek (after_read (rt_mem s) buf off n j) b) = u8 (peek (rt_mem s) b)) as Hbyte
      by (intros j; unfold after_read; by rewrite peek_store_bytes, Hlen, decide_False by lia).
    split_and!; [left; split|by rewrite Hmem, Hbyte|by intros j mem [= <-]; rewrite Hbyte].
    + unfold label_at. specialize (Hout b (app_ranges _ _ Hb)). rewrite Hlen in Hout.
      unfold CustomSpec.byte_label in Hout. rewrite Hout by lia. apply (fl_shadow _ Hfr).
    + intros j. by rewrite Hmem, Hbyte.
Qed.


(** The runtime when the file [c] was opened on [fd]. *)
Definition opened (F D p : string) (c : list Z) (mem : gmap Z Z) (o : os) (fd : Z) (sv : solver) (s : rt) : Prop :=
  ∃ shadow, (∀ a, peek shadow a = 0) ∧
    let s1 := started F D p c shadow mem o in s = set_solver_st sv (set_tainted (with_fd fd (rt_tainted s1)) s1).
Lemma opened_ready F D p c mem o fd sv s :
  c ≠ [] → label_addr (Z.of_nat (length c)) < HashTableAddr → opened F D p c mem o fd sv s →
  fresh_labels s ∧ file_open s fd.
Proof.
  intros Hc Hl (shadow & Hsh & ->). cbn. assert (0 < Z.of_nat (length c)) by (destruct c; [done|simpl; lia]).
  assert (last_label (input_labels (length c) (boot_lstate expr)) = Z.of_nat (length c)) as Hlast
    by by rewrite input_labels_last.
  split; split; cbn.
  - exists ∅. by apply input_labels_wf; [apply boot_wf| |].
  - intros l. rewrite Hlast. intros Hr. by rewrite input_labels_info, decide_True by done.
  - done.
  - done.
  - split_and!; [done|done|by rewrite Hlast|]. intros k Hk.
    rewrite input_labels_info, decide_True by (done || lia). rewrite Z.add_simpl_r. unfold input_record, key_of. cbn.
    pose proof (label_addr_bound _ Hl). unfold u64. by rewrite wrap_small by (unfold in_range; lia).
Qed.
Lemma file_small (c : list Z) : label_addr (Z.of_nat (length c)) < HashTableAddr → Z.of_nat (length c) < 2 ^ 31.
Proof. unfold label_addr. change sizeof_label_info with 56. change UnionTableAddr with 0x400000000000. change HashTableAddr with 0x400c00000000. lia. Qed.

Context {DL : DataLayout} {PE : PassEnv} {Cs : Callees}.
(** A function of the program about to run with the arguments [args]. *)
Definition entering (args : gmap Z Z) (s : rt) : mach := Mach ∅ args ∅ ∅ ∅ ∅ 0 s.
(** The same on the input [j]: memory holds what a read of [j] left. *)
Definition entering_on (args mem : gmap Z Z) (buf off n : Z) (s : rt) (j : input) : option mach :=
  Some (entering args (set_mem (after_read mem buf off n j) s)).

Lemma first_read_called F D p c mem o fd sv s buf count off n args :
  c ≠ [] → label_addr (Z.of_nat (length c)) < HashTableAddr → opened F D p c mem o fd sv s →
  PassMem.app_range buf n → 0 ≤ n → 0 ≤ off → off + n ≤ Z.of_nat (length c) →
  (∀ k w x, type_of (VArgument k) = TInt w → args !! k = Some x → in_range w x) →
  let inp := input_of_file c in
  ∃ s', dfsw_read fd buf count off (Sys n [(buf, input_bytes off n inp)]) s = Ret (n, 0) s' ∧
    called inp (entering args s') (entering_on args mem buf off n s') ∧
    entering_on args mem buf off n s' inp = Some (entering args s') ∧ only_memory s s'.
Proof.
  intros Hc Hl Hop Hbuf Hn Ho Hof Hargs inp. destruct (opened_ready _ _ _ _ _ _ _ _ _ Hc Hl Hop) as [Hfr Hfile].
  pose proof (length_input_bytes off n inp Hn) as Hlen. pose proof (file_small c Hl).
  assert (rt_mem s = mem) as Hmem by (by destruct Hop as (? & _ & ->)).
  assert (tf_size (rt_tainted s) = Z.of_nat (length c)) as Hsz by (by destruct Hop as (? & _ & ->)).
  destruct (read_run fd buf count off (input_bytes off n inp) s) as (s' & Hr & Hlab & Hm');
    [apply (fl_wf _ Hfr)|done|rewrite Hlen; by apply app_ranges|done|lia|].
  rewrite Hlen, Hmem in *. exists s'. split; [done|].
  assert (entering_on args mem buf off n s' inp = Some (entering args s')) as Hinp.
  { unfold entering_on, after_read. rewrite <-Hm'. by destruct s'. }
  destruct Hlab as (H1 & H2 & Hst). split; [|done].
  assert (rt_labels s' = rt_labels s) as Hls by (by rewrite Hst).
  split; [done| | |].
  - change (rt_free s'). unfold rt_free, rt_wf. rewrite Hls. by split; [apply (fl_wf _ Hfr)|apply fresh_free].
  - intros k w x Hw Hx. exists (λ _, x). split_and!; [|done|by intros j mj [= <-]].
    split; [intros _; by eapply Hargs|by left].
  - change (mem_symb s' inp (λ j, Some (after_read mem buf off n j))). rewrite <-Hmem.
    apply (read_symb s s' fd); rewrite ?Hmem, ?Hsz; try done. lia.
Qed.

(** A program that opens its input file, named [FN] in the options and by the
    string at [path], as [fd] and reads the [n] bytes at [off] to [buf]. The file
    holds [c] and can be read; the shadow is zero. *)
Record reading (FN D p : string) (c : list Z) (shadow mem : gmap Z Z) (o : os) (path fd buf off n : Z) : Prop := {
  rg_options : env_options = Some (print_settings (launch FN D));
  rg_printable : forallb printable (launch FN D) = true;
  rg_stdin : FN ≠ "stdin";
  rg_named : FN ≠ "";
  rg_mmap : env_mmap_ok = true;
  rg_real : env_realpath FN = (true, p);
  rg_allowed : FN ∉ os_denied o;
  rg_file : os_files o !! FN = Some c;
  rg_bytes : c ≠ [];
  rg_fds : 0 ≤ os_next_fd o;
  rg_room : label_addr (Z.of_nat (length c)) < HashTableAddr;
  rg_shadow a : peek shadow a = 0;
  rg_fd : fd ≠ 0;
  rg_path : (env_realpath (string_of_bytes (cstr mem path))).2 = p;
  rg_buf : PassMem.app_range buf n;
  rg_count : 0 ≤ n;
  rg_off : 0 ≤ off;
  rg_end : off + n ≤ Z.of_nat (length c);
}.
Definition args_range (args : gmap Z Z) : Prop :=
  ∀ k w x, type_of (VArgument k) = TInt w → args !! k = Some x → in_range w x.
(** From start-up to the call of a function. *)
Lemma first_call FN D p c shadow mem o path fd buf off n count args (inp := input_of_file c) :
  reading FN D p c shadow mem o path fd buf off n → args_range args →
  ∃ s1 s2 s3 sv, startup (rt_static shadow mem o) = Ret () s1 ∧
    dfsw_open path (Sys fd []) s1 = Ret (fd, 0) s2 ∧
    dfsw_read fd buf count off (Sys n [(buf, input_bytes off n inp)]) s2 = Ret (n, 0) s3 ∧
    opened FN D p c mem o fd sv s2 ∧ only_memory s2 s3 ∧
    called inp (entering args s3) (entering_on args mem buf off n s3) ∧
    entering_on args mem buf off n s3 inp = Some (entering args s3).
Proof.
  intros [He Hpr Hs0 He0 Hm Hrp Hden Hf Hc Hfd Hl Hsh Hnz Hpath Hbuf Hn Ho Hof] Hargs.
  pose proof (startup_run FN D p c shadow mem o He Hpr Hs0 He0 Hm Hrp Hden Hf Hc Hfd Hl) as Hst.
  destruct (open_source path fd (started FN D p c shadow mem o) Hnz Hpath) as [sv Hopen].
  set (s2 := set_solver_st sv _) in Hopen.
  assert (opened FN D p c mem o fd sv s2) as Hop by by exists shadow.
  destruct (first_read_called FN D p c mem o fd sv s2 buf count off n args) as (s3 & Hr & Hcall & Hinp & Hmem);
    [done|done|done|done..|].
  by exists (started FN D p c shadow mem o), s2, s3, sv.
Qed.
End from_start.

(** C7: from start-up to the result of a function. The options name a readable,
    non-empty input file; the shadow is zero. The runtime starts, the program
    opens the file and reads [n] of its bytes, and a function the pass
    instrumented is called with integer arguments that do not depend on the input.
    Then start-up, open and read return, the entry code of the function runs, and
    along any path through its blocks (with clean loads and stores) the function
    computes the values and the memory of the original, with labels that denote
    what the original would compute along this path had the file been [j], for
    every [j]; and so does the label of its result. *)
Theorem sound_from_start {Zi : Z3} {Ops : LlvmOps} {En : Env} {DL : DataLayout} {PE : PassEnv} {Cs : Callees}
    FN D p c shadow mem o path fd buf count off n args F bs first (inp := input_of_file c) {Co : CalleesOk inp} :
  reading FN D p c shadow mem o path fd buf off n → args_range args →
  ABI = IA_TLS → ordered (concat (b_insts <$> bs)) → Forall (λ i, i_id i < first) (concat (b_insts <$> bs)) →
  ∃ s1 s2 s3 xs phis t', startup (rt_static shadow mem o) = Ret () s1 ∧
    dfsw_open path (Sys fd []) s1 = Ret (fd, 0) s2 ∧
    dfsw_read fd buf count off (Sys n [(buf, input_bytes off n inp)]) s2 = Ret (n, 0) s3 ∧
    instrument F false bs (tf_init first) = Ret (xs, phis) t' ∧
    ∀ path pc, path.*2 ⊆ zip bs xs →
      ∃ m0, for_each (tf_entry t') (run_emit pc) (entering args s3) = Ret () m0 ∧
        (clean_path (path_items phis path) m0 →
         let o := run_path (path_items phis path) m0 in
         let rs' := after_path inp (path_code path) (entering_on args mem buf off n s3) in
         run_agrees false inp s3 (traced (concat (path_code path).*2)) t' o rs' ∧
         ∀ m' v, o = Ret () m' → path_result (path_code path) = Some v → result_symb inp v m' rs').
Proof.
  intros Hrd Hargs HA Hord Hids.
  destruct (first_call FN D p c shadow mem o path fd buf off n count args Hrd Hargs)
    as (s1 & s2 & s3 & sv & H1 & H2 & H3 & _ & _ & Hcall & Hinp).
  destruct (instrument_instrumented F bs first HA Hord Hids) as (xs & phis & t' & Hi & Hin).
  exists s1, s2, s3, xs, phis, t'. split_and!; [done..|].
  intros pth pc Hp. by apply (function_agrees inp bs xs phis t' pth (entering args s3) (entering args s3)).
Qed.

(** ** A program that reads two bytes of its input and calls the function that adds 1 *)
#[local] Existing Instance layout64.
Definition name_mem : gmap Z Z := store_bytes ∅ wbuf (bytes_of_string "seed" ++ [0]).
Lemma demo_reading off n :
  0 ≤ n → 0 ≤ off → off + n ≤ 3 →
  let En := demo_env (print_settings (launch "seed" "out")) None in
  reading "seed" "out" "/in/seed" [10; 20; 30] ∅ name_mem demo_os wbuf 5 byte_addr off n.
Proof.
  intros Hn Ho Hon En. split.
  - reflexivity.
  - reflexivity.
  - discriminate.
  - discriminate.
  - reflexivity.
  - reflexivity.
  - apply not_elem_of_empty.
  - reflexivity.
  - discriminate.
  - by vm_compute.
  - reflexivity.
  - intros a. unfold peek. by rewrite lookup_empty.
  - discriminate.
  - by vm_compute.
  - split; [by vm_compute|]. unfold byte_addr. lia.
  - exact Hn.
  - exact Ho.
  - exact Hon.
Qed.
Lemma sound_from_start_witness :
  let inp := input_of_file [10; 20; 30] in
  let En := demo_env (print_settings (launch "seed" "out")) None in
  ∃ s1 s2 s3 x0 phis t',
    startup (Zi:=Ref.z3) (En:=En) (rt_static (Zi:=Ref.z3) ∅ name_mem demo_os) = Ret () s1 ∧
    dfsw_open (En:=En) wbuf (Sys 5 []) s1 = Ret (5, 0) s2 ∧
    dfsw_read 5 byte_addr 8 1 (Sys 2 [(byte_addr, [20; 30])]) s2 = Ret (2, 0) s3 ∧
    instrument (PE:=incr_env) incr_func false [incr_block] (tf_init 101) = Ret ([x0], phis) t' ∧
    let path := [(0, (incr_block, x0))] in
    ∃ m0, for_each (tf_entry t') (run_emit (PE:=incr_env) 0) (entering {[ 0 := 7 ]} s3) = Ret () m0 ∧
      let o := run_path (PE:=incr_env) (Cs:=no_calls) (path_items phis path) m0 in
      let rs' := after_path (PE:=incr_env) (Cs:=no_calls) inp (path_code path) (entering_on {[ 0 := 7 ]} name_mem byte_addr 1 2 s3) in
      ∀ m', o = Ret () m' → result_symb (PE:=incr_env) inp (VInst 1) m' rs'.
Proof.
  intros inp En.
  destruct (sound_from_start (Zi:=Ref.z3) (En:=En) (PE:=incr_env) (Cs:=no_calls) "seed" "out" "/in/seed" [10; 20; 30] ∅ name_mem
    demo_os wbuf 5 byte_addr 8 1 2 {[ 0 := 7 ]} incr_func [incr_block] 101 (Co:=no_callees_ok _))
    as (s1 & s2 & s3 & xs & phis & t' & H1 & H2 & H3 & Hr & Hpath).
  - exact (demo_reading 1 2 ltac:(lia) ltac:(lia) ltac:(lia)).
  - intros k w x Hw Hx. apply lookup_singleton_Some in Hx as [<- <-]. injection Hw as <-. by split; vm_compute.
  - reflexivity.
  - exact incr_ordered.
  - by repeat constructor.
  - pose proof Hr as Hr'. vm_compute in Hr'. injection Hr' as Hxs Hphis _.
    destruct xs as [|x0 [|? ?]]; [done| |done]. exists s1, s2, s3, x0, phis, t'. split; [exact H1|]. split; [exact H2|].
    split; [exact H3|]. split; [exact Hr|]. intros path. destruct (Hpath path 0) as (m0 & Hm0 & Hrun).
    { intros q Hq. apply elem_of_cons in Hq as [->|Hq]; [left|]. destruct (not_elem_of_nil _ Hq). }
    exists m0. split; [exact Hm0|]. intros o rs'. destruct Hrun as [_ Hres].
    { injection Hxs as <-. subst phis. apply (paths_clean (PE:=incr_env) (Cs:=no_calls)). repeat constructor. }
    intros m' Ho. apply (Hres m' (VInst 1)); [exact Ho|reflexivity].
Defined.
