(* ===== verification/PlainLabels.v ===== *)
(** * Labels before any condition is solved

    Which offsets of the input a serialized expression can depend on, from above
    ([serialize_sound] of [Serialize.v] has them from below); and the states of
    the label store that loads, stores and operators reach as long as no condition
    is solved: no cached expression, no flag, and no offset outside the input. *)
From S2P Require Import Prelude Platform Labels UnionTable Union Z3 State Denote Shadow ShadowSpec Serialize Solver Libc Invariant Ir Pass PassRun PassSpec PassMem.

(** ** The offsets of an expression stay within those of the records *)
Section within.
Context {Zi : Z3} {Ops : LlvmOps}.

(** The offsets a record reads itself. *)
Definition leaf_deps (ls : lstate expr) (i : dfsan_label_info expr) : gset Z := deps_info ls (λ _, ∅) i.

Context (s0 : rt) (m : gmap (Z * Z * Z * Z * Z * Z) Z) (Hwf0 : wf (rt_labels s0) m) (U : gset Z).
Context (HU : ∀ l, 1 ≤ l ≤ last_label (rt_labels s0) → leaf_deps (rt_labels s0) (info_at (rt_labels s0) l) ⊆ U).

Definition capped (s : rt) : Prop :=
  caches_from s0 m s ∧ ∀ l d, li_deps (info_at (rt_labels s) l) = Some d → d ⊆ U.
Definition deps_within (c : M rt (expr * gset Z)) : Prop := hoare capped c (λ r s, capped s ∧ r.2 ⊆ U) capped.

Lemma within_ret e d : d ⊆ U → deps_within (mret (e, d)).
Proof. by intros Hd s Hs. Qed.
Lemma within_throw e : deps_within (throw e).
Proof. by intros s Hs. Qed.
Lemma within_bind {A} (c : M rt A) f : pres capped c → (∀ a, deps_within (f a)) → deps_within (c ≫= f).
Proof. apply hoare_bind. Qed.
Lemma within_rec c f : deps_within c → (∀ e d, d ⊆ U → deps_within (f (e, d))) → deps_within (c ≫= f).
Proof.
  intros Hc Hf. eapply hoare_bind; [exact Hc|]. intros [e d] s [Hs Hd]. by apply (Hf e d Hd).
Qed.
Lemma capped_update l f :
  0 ≤ l ≤ last_label (rt_labels s0) → (∀ i, key_of (f i) = key_of i ∧ li_flags (f i) = li_flags i) →
  (∀ i d, li_deps (f i) = Some d → li_deps i = Some d ∨ d ⊆ U) → pres capped (update_info l f).
Proof.
  intros Hl Hf Hd s [Hs Hds]. pose proof (update_info_pres s0 m l f Hl Hf s Hs) as H.
  unfold update_info, on_labels, zoom, modify in *. split; [done|]. intros l' d. cbn [rt_labels set_labels].
  rewrite info_at_set. case_decide as He; [|apply Hds]. intros [Hi|?]%Hd; [by apply (Hds l)|done].
Qed.
Lemma capped_tree l n : 0 ≤ l ≤ last_label (rt_labels s0) → pres capped (set_tree l n).
Proof. intros Hl. apply capped_update; [done|done|by left]. Qed.
Lemma capped_info l : pres capped (r_info l).
Proof. apply r_info_pres. Qed.
Lemma capped_copy l l' : 0 ≤ l ≤ last_label (rt_labels s0) → pres capped (copy_tree l l').
Proof. intros Hl. apply pres_bind; [apply capped_info|]. intros i. by apply capped_tree. Qed.
Lemma capped_cache l e d : 0 ≤ l ≤ last_label (rt_labels s0) → d ⊆ U → pres capped (cache_expr l e d).
Proof.
  intros Hl Hd. apply pres_bind; [|auto with rt]. apply capped_update; [done|done|].
  intros i d' [= <-]. by right.
Qed.
(** A record read keeps its key. *)
Lemma info_key l :
  hoare capped (r_info l) (λ i s, capped s ∧ i = info_at (rt_labels s) l ∧ key_of i = key_of (info_at (rt_labels s0) l)) capped.
Proof.
  intros s Hs. unfold r_info, on_labels, zoom, get_label_info. rewrite bind_get.
  destruct (_ <=? _); [done|]. cbn [mret M_ret]. replace (set_labels (rt_labels s) s) with s by by destruct s.
  split_and!; [done|done|]. apply Hs.
Qed.
Lemma within_info l f :
  (∀ i, key_of i = key_of (info_at (rt_labels s0) l) → deps_within (f i)) → deps_within (r_info l ≫= f).
Proof.
  intros Hf. eapply hoare_bind; [apply info_key|]. intros i s (Hs & _ & Hk). by apply (Hf i Hk).
Qed.
Lemma within_loop off idx out d :
  (∀ i, i ∈ idx → u32 (off + i) ∈ U) → d ⊆ U → deps_within (load_loop off idx out d).
Proof.
  revert out d. induction idx as [|i idx IH]; intros out d Hi Hd; cbn [load_loop]; [by apply within_ret|].
  apply within_bind; [apply zmk_pres|]. intros c. apply within_bind; [apply zmk_pres|]. intros e.
  apply IH; [set_solver|]. pose proof (Hi i ltac:(left)). set_solver.
Qed.

#[local] Hint Resolve zmk_pres read_loop_pres : rt.
#[local] Hint Extern 1 (pres _ (r_info _)) => (apply r_info_pres) : rt.
Ltac within_auto :=
  repeat match goal with
  | |- ∀ _, _ => intros ?
  | |- deps_within (if ?b then _ else _) => destruct b eqn:?
  | |- deps_within (_ ≫= _) =>
      first [ apply within_rec; [solve [auto | within_auto]|intros ? ? ?]
            | apply within_bind; [solve [apply capped_cache; [done|set_solver] | apply capped_tree; done | apply capped_copy; done
                | unfold read_concrete, bool_to_bv, bv_size, concat_size, bin_expr, get_cmd, input_const; cbv zeta; pres_auto]|] ]
  | |- deps_within _ => solve [apply within_ret; set_solver | apply within_throw | auto]
  end.

Lemma within_operand rec info l n w d :
  (∀ d, d ⊆ U → deps_within (rec l d)) → d ⊆ U → deps_within (ser_operand rec info l n w d).
Proof. intros Hr Hd. unfold ser_operand. within_auto. Qed.
#[local] Hint Resolve within_operand : core.
(** One record, when its operands stay within [U]. *)
Lemma within_case rec label info d :
  0 ≤ label ≤ last_label (rt_labels s0) → 0 ≤ li_l1 info ≤ last_label (rt_labels s0) →
  leaf_deps (rt_labels s0) info ⊆ U → d ⊆ U →
  (∀ d, d ⊆ U → deps_within (rec (li_l1 info) d)) → (∀ d, d ⊆ U → deps_within (rec (li_l2 info) d)) →
  deps_within (ser_case rec label info d).
Proof.
  intros Hl Hl1 Hleaf Hd H1 H2. unfold leaf_deps, deps_info in Hleaf. cbv zeta in Hleaf.
  unfold ser_case. cbv zeta. destruct (li_op info =? 0).
  { unfold ser_input. within_auto. }
  destruct (li_op info =? op_Load).
  { unfold ser_load. apply within_info. intros i1 Hk1. cbv zeta. apply within_bind; [apply zmk_pres|]. intros out.
    assert (∀ k, 0 ≤ k < Z.max 1 (li_l2 info) → u32 (li_op1 i1 + k) ∈ U) as Hk.
    { intros k Hk. apply Hleaf. rewrite (key_op1 _ _ Hk1). apply elem_of_list_to_set, list_elem_of_fmap.
      exists k. split; [done|]. by apply elem_of_range. }
    apply within_rec.
    - apply within_loop; [intros i Hi%elem_of_range; apply Hk; lia|]. pose proof (Hk 0 ltac:(lia)) as H0.
      rewrite Z.add_0_r in H0. set_solver.
    - within_auto. }
  clear Hleaf. pose proof (empty_subseteq U).
  unfold ser_zext, ser_sext, ser_extract, ser_not, ser_neg, ser_memcmp, ser_fsize, ser_common.
  repeat (match goal with |- deps_within (if li_op info =? _ then _ else _) => destruct (_ =? _) end).
  all: within_auto.
Qed.
(** The whole recursion. *)
Lemma within_serialize fuel label d :
  label ≤ last_label (rt_labels s0) → d ⊆ U → deps_within (serialize_fuel fuel label d).
Proof.
  revert label d. induction fuel as [|fuel IH]; intros label d Hl Hd; cbn [serialize_fuel].
  { destruct (_ || _); [apply within_throw|done]. }
  destruct ((label <? CONST_OFFSET) || _) eqn:Hlow; [apply within_throw|].
  apply orb_false_iff in Hlow as [Hlow%Z.ltb_ge _]. unfold CONST_OFFSET in Hlow.
  eapply hoare_bind; [apply info_key|]. intros i s (Hs & -> & Hk). revert s Hs Hk.
  enough (∀ i, key_of i = key_of (info_at (rt_labels s0) label) → (∀ d, li_deps i = Some d → d ⊆ U) →
    deps_within (match li_expr i with
    | Some e => match li_deps i with Some d' => mret (e, d ∪ d') | None => segv end
    | None => ser_case (serialize_fuel fuel) label i d end)) as H.
  { intros s Hs Hk. apply (H _ Hk); [|done]. intros d'. by apply Hs. }
  intros i Hk Hds. destruct (li_expr i) as [e|].
  - destruct (li_deps i) as [d'|]; [|done]. apply within_ret. pose proof (Hds d' eq_refl). set_solver.
  - destruct (operand_bounds _ _ label Hwf0 Hl) as [H1 H2].
    assert (li_l1 i = li_l1 (info_at (rt_labels s0) label) ∧ li_l2 i = li_l2 (info_at (rt_labels s0) label)) as [E1 E2]
      by (unfold key_of in Hk; split; congruence).
    apply within_case; [lia|lia| |done|intros d' Hd'; apply IH; [lia|done]..].
    unfold leaf_deps. rewrite (deps_info_key _ _ _ _ Hk). apply HU. lia.
Qed.
End within.

(** ** States in which no condition was solved *)
Section unsolved.
Context {Zi : Z3} {Ops : LlvmOps}.
Context (U : gset Z) (s0 : rt).

Record plain_store (ls : lstate expr) : Prop := {
  pl_cache l : li_expr (info_at ls l) = None ∧ li_deps (info_at ls l) = None;
  pl_flags l : li_flags (info_at ls l) = 0;
  pl_leaves l : 1 ≤ l ≤ last_label ls → leaf_deps ls (info_at ls l) ⊆ U;
}.
(** Only labels, shadow and memory differ from [s0]. *)
Definition untouched (s : rt) : Prop :=
  s = set_mem (rt_mem s) (set_shadow (rt_shadow s) (set_labels (rt_labels s) s0)).
Record unsolved (s : rt) : Prop := {
  un_wf : rt_wf s;
  un_plain : plain_store (rt_labels s);
  un_same : untouched s;
}.
Lemma unsolved_shadow f s : unsolved s → unsolved (set_shadow f s).
Proof. intros [H1 H2 H3]. split; [done|done|]. unfold untouched in *. by rewrite H3. Qed.
Lemma unsolved_mem f s : unsolved s → unsolved (set_mem f s).
Proof. intros [H1 H2 H3]. split; [done|done|]. unfold untouched in *. by rewrite H3. Qed.

(** The expression of a label depends on the offsets [U] only. *)
Lemma serialize_unsolved s s1 b l e d :
  unsolved s → l ≤ last_label (rt_labels s) → serialize l ∅ (set_branches b s) = Ret (e, d) s1 → d ⊆ U.
Proof.
  intros [[m Hm] Hp _] Hl Hr.
  pose proof (within_serialize (set_branches b s) m Hm U (pl_leaves _ Hp) (S (Z.to_nat l)) l ∅ Hl (empty_subseteq U)) as H.
  specialize (H (set_branches b s)). unfold serialize in Hr. rewrite Hr in H. apply H. split.
  - split; [done|]. done.
  - intros k d'. cbn. by rewrite (proj2 (pl_cache _ Hp k)).
Qed.
Lemma unsolved_flipped s l : unsolved s → flipped s l = false.
Proof. intros [_ Hp _]. unfold flipped. by rewrite (pl_flags _ Hp). Qed.
Lemma unsolved_caches s : unsolved s → caches_sound s.
Proof. intros [_ Hp _] l e He. by rewrite (proj1 (pl_cache _ Hp l)) in He. Qed.

(** Recording one more expression. *)
Lemma leaf_deps_same ls ls' i :
  key_of (info_at ls' (li_l1 i)) = key_of (info_at ls (li_l1 i)) → leaf_deps ls' i = leaf_deps ls i.
Proof. intros Hk. unfold leaf_deps, deps_info. by rewrite (key_op1 _ _ Hk). Qed.
Lemma leaf_deps_key ls i j : key_of i = key_of j → leaf_deps ls i = leaf_deps ls j.
Proof. apply deps_info_key. Qed.
Lemma plain_recorded ls m i :
  wf ls m → plain_store ls → li_expr i = None → li_deps i = None → li_flags i = 0 → li_l1 i ≤ last_label ls →
  leaf_deps ls i ⊆ U → plain_store (recorded i ls).
Proof.
  intros Hm Hp H1 H2 H3 Hl Hi. split.
  - intros l. rewrite recorded_info. case_decide; [by split|apply Hp].
  - intros l. rewrite recorded_info. case_decide; [done|apply Hp].
  - intros l Hr. change (last_label (recorded i ls)) with (last_label ls + 1) in Hr.
    rewrite !recorded_info. case_decide as Hd.
    + rewrite (leaf_deps_same ls); [done|]. by rewrite recorded_info, decide_False by lia.
    + destruct (operand_bounds ls m l Hm ltac:(lia)) as [? _].
      rewrite (leaf_deps_same ls); [apply Hp; lia|]. by rewrite recorded_info, decide_False by lia.
Qed.
Lemma union_unsolved l1 l2 op size a b s :
  unsolved s →
  (∀ i, union_request l1 l2 op size a b = inr i → leaf_deps (rt_labels s) i ⊆ U) →
  match r_union l1 l2 op size a b s with Ret _ s' | Throw _ s' => unsolved s' | Halt _ _ => True end.
Proof.
  intros Hs Hi. pose proof Hs as [[m Hm] Hp Hu]. unfold r_union, on_labels, zoom. rewrite taint_union_intern.
  destruct (union_request l1 l2 op size a b) as [l|i] eqn:Hreq; [by destruct s|].
  pose proof (union_request_range _ _ _ _ _ _ _ Hreq) as Hr. pose proof (intern_cases _ m i Hm Hr) as Hc.
  destruct (intern i (rt_labels s)) as [l ls'|e ls'|h ls']; [|done|done].
  destruct Hc as [[_ ->]|(_ & _ & H1 & _ & [h ->] & Hwf')]; [by destruct s|]. split.
  - by eexists.
  - apply (plain_recorded _ m); [done|done|..|by rewrite (leaf_deps_key _ _ i); [apply Hi|]].
    all: revert Hreq; unfold union_request; destruct (swap_operands _ _ _ _ _) as [[[? ?] ?] ?];
      destruct (_ && _ && _); [done|]; destruct (_ || _); [done|]; by intros [= <-].
  - unfold untouched in *. by rewrite Hu.
Qed.
(** Operators that read no input themselves. *)
Lemma operator_unsolved l1 l2 op size a b :
  0 < op < 2 ^ 16 → op ≠ op_Load → pres unsolved (r_union l1 l2 op size a b).
Proof.
  intros Hop Hld s Hs.
  pose proof (union_unsolved l1 l2 op size a b s Hs) as H. destruct (r_union _ _ _ _ _ _ s); [apply H..|done].
  all: intros i; unfold union_request; destruct (swap_operands _ _ _ _ _) as [[[? ?] ?] ?];
    destruct (_ && _ && _); [done|]; destruct (_ || _); [done|]; intros [= <-]; unfold leaf_deps, deps_info; cbn [li_op];
    unfold u16; rewrite wrap_small by (unfold in_range; lia);
    rewrite (proj2 (Z.eqb_neq op 0)), (proj2 (Z.eqb_neq op op_Load)) by lia;
    repeat (case_match; try apply empty_subseteq); set_solver.
Qed.

(** ** Stores and loads *)
#[local] Hint Extern 1 (pres unsolved (r_info _)) => (apply r_info_pres) : rt.
#[local] Hint Extern 1 (pres unsolved (r_union _ _ _ _ _ _)) => (apply operator_unsolved; op_lia) : rt.
#[local] Hint Extern 1 (pres unsolved (shadow_at _ _)) => (apply pres_gets) : rt.
Lemma shadow_put_unsolved ls i l : pres unsolved (shadow_put ls i l).
Proof. apply pres_modify. intros s. apply unsolved_shadow. Qed.
#[local] Hint Resolve shadow_put_unsolved : rt.
Lemma store_unsolved l ls n : pres unsolved (taint_union_store l ls n).
Proof. unfold taint_union_store. pres_auto. Qed.
Lemma set_label_unsolved l a n : pres unsolved (dfsan_set_label l a n).
Proof. unfold dfsan_set_label. pres_auto. Qed.
Lemma extract_unsolved fuel ls n p off i : pres unsolved (extract_loop fuel ls n p off i).
Proof. revert off i. induction fuel; intros off i; cbn [extract_loop]; pres_auto. Qed.
Lemma concat_unsolved fuel ls n l i : pres unsolved (concat_loop fuel ls n l i).
Proof. revert l i. induction fuel; intros l i; cbn [concat_loop]; cbv zeta; pres_auto. Qed.
#[local] Hint Resolve extract_unsolved concat_unsolved : rt.

(** The label of a load of consecutive input bytes reads those bytes. *)
Lemma run_unsolved s a n :
  unsolved s → 2 ≤ n ≤ 8 → app_range a n → (∀ k, 0 ≤ k < n → byte_symb s (a + k)) →
  label_at s a ≠ 0 →
  (let rec_at k := info_at (rt_labels s) (label_at s (a + k)) in
   ∀ k, 0 ≤ k < n → label_at s (a + k) ≠ 0 ∧ li_op (rec_at k) = 0 ∧ (1 ≤ k → li_op1 (rec_at k) = u64 (li_op1 (rec_at 0) + k))) →
  match r_union (label_at s a) n op_Load (n * 8) 0 0 s with Ret _ s' | Throw _ s' => unsolved s' | Halt _ _ => True end.
Proof.
  intros Hs Hn Ha Hb H0 Hrec. apply union_unsolved; [done|]. intros i Hi.
  pose proof (un_wf _ Hs) as [m Hm]. pose proof (last_bound _ _ Hm).
  assert (∀ k, 0 ≤ k < n → 1 ≤ label_at s (a + k) ≤ last_label (rt_labels s)) as Hl
    by (intros k Hk; destruct (Hb k Hk) as [?|[? _]]; [by destruct (Hrec k Hk)|lia]).
  pose proof (Hl 0 ltac:(lia)) as Hl0. rewrite Z.add_0_r in Hl0.
  rewrite request_left in Hi; [|lia|lia|op_lia|apply load_noncomm|unfold in_range; lia]. injection Hi as <-.
  unfold leaf_deps, deps_info. cbn [li_op li_l1 li_l2]. cbv zeta. op_tests.
  intros x [k [-> Hk%elem_of_range]]%elem_of_list_to_set%list_elem_of_fmap.
  rewrite Z.max_r in Hk by lia. destruct (Hrec k Hk) as (_ & Hop & Hk1).
  pose proof (pl_leaves _ (un_plain _ Hs) _ (Hl k Hk)) as Hleaf.
  unfold leaf_deps, deps_info in Hleaf. cbv zeta in Hleaf. rewrite Hop in Hleaf. apply Hleaf, elem_of_singleton.
  destruct (decide (k = 0)) as [->|]; [by rewrite !Z.add_0_r|]. rewrite Hk1, Z.add_0_r by lia.
  unfold u32, u64, wrap. rewrite Z.mod_mod_divide; [done|]. by exists (2 ^ 32).
Qed.
Lemma load_unsolved s a n :
  unsolved s → 1 ≤ n ≤ 8 → app_range a n → (∀ k, 0 ≤ k < n → byte_symb s (a + k)) → clean_load s a n →
  match taint_union_load (shadow_for a) n s with Ret _ s' | Throw _ s' => unsolved s' | Halt _ _ => True end.
Proof.
  intros Hs Hn Ha Hb [Hz|(H0 & H1 & _)]; [by rewrite zero_load_run by (done || lia)|].
  pose proof (un_wf _ Hs) as Hwf. pose proof (load_bytes s a n Ha Hb) as Hok.
  pose proof (Hb 0 ltac:(lia)) as Hb0. rewrite Z.add_0_r in Hb0, H1. destruct Hb0 as [?|(Hl0 & Hsz0 & _)]; [done|].
  assert (∀ k, 0 ≤ k < n → peek (rt_shadow s) (slot (shadow_for a) k) = label_at s (a + k)) as Hlab
    by (intros k Hk; by rewrite (slot_app a n)).
  pose proof (Hlab 0 ltac:(lia)) as Hlab0. rewrite Z.add_0_r in Hlab0.
  rewrite load_start, Hlab0 by (rewrite ?Hlab0; done || lia).
  set (i0 := info_at (rt_labels s) (label_at s a)) in *.
  destruct (Z.eqb_spec (li_op i0) 0) as [Hop|Hop]; cbn [negb].
  - pose proof (shape_loop_ok s (shadow_for a) n _ Hwf Hok (li_op1 i0) (Z.to_nat n) 1 ltac:(lia) ltac:(lia)) as Hsh.
    unfold wpd in Hsh. unfold mbind at 1, M_bind at 1.
    destruct (shape_loop _ _ _ _ _ s) as [r s'|e s'|h s']; [|done|done]. destruct Hsh as (-> & c & -> & Hc).
    destruct c.
    + destruct (Z.eqb_spec n 1); [done|]. apply run_unsolved; [exact Hs|lia|exact Ha|exact Hb|exact H0|]. cbv beta zeta. intros k Hk.
      rewrite Z.add_0_r. destruct (decide (k = 0)) as [->|]; [rewrite Z.add_0_r; split_and!; [done|done|lia]|].
      assert (li_op1 (info_at (rt_labels s) (label_at s (a + k))) = u64 (li_op1 i0 + k)) as Hk1.
      { rewrite <-(Hc eq_refl k ltac:(lia)). unfold rec_at, lab. by rewrite Hlab. }
      destruct (H1 Hop k ltac:(lia) Hk1) as [? ?]. by split_and!.
    + rewrite Hop. op_tests. rewrite (bind_run _ _ s None s) by done. by apply concat_unsolved.
  - rewrite (bind_run _ _ s (inr false) s) by done.
    match goal with |- match ?c s with _ => _ end => enough (pres unsolved c) as Hp by by apply Hp end. pres_auto.
Qed.
End unsolved.
