(* ===== verification/FirstBranch.v ===== *)
(** * From start-up to the first new input

    Start-up, the first read, an instrumented function and the solver together:
    the program runs from its start to the first branch whose condition depends on
    the input, and the runtime writes the input that takes the other side of it.
    That the runtime is ready to solve this branch follows from what no operation
    before it has changed ([unsolved] of [PlainLabels.v]). *)
From S2P Require Import Prelude Platform FlagParser Init Labels UnionTable Union Z3 State Files Denote Shadow ShadowSpec Serialize Solver Libc CustomFile CustomSpec Invariant Ir Pass PassModule PassRun PassSpec PassMem PassVisit PassStep PassSound PassFun EndToEnd FromStart PlainLabels.

(** ** Runs that trace no labelled condition *)
Section quiet.
Context {Zi : Z3} {Ops : LlvmOps} {DL : DataLayout} {PE : PassEnv} {Cs : Callees}.

Definition quiet_emit (m : mach) (e : emit) : bool :=
  match e with
  | ETraceCond s _ => label_of m s =? 0
  | ETraceCmp s1 s2 _ _ _ _ => (label_of m s1 =? 0) && (label_of m s2 =? 0)
  | _ => true
  end.
Fixpoint quiet_emits (pc : Z) (es : list emit) (m : mach) : bool :=
  match es with
  | [] => true
  | e :: es => quiet_emit m e && match run_emit pc e m with Ret _ m' => quiet_emits pc es m' | _ => true end
  end.
Definition quiet_item (x : item) (m : mach) : bool :=
  negb (is_call (it_inst x)) && quiet_emits (i_id (it_inst x)) (it_before x) m.
Fixpoint quiet_items (xs : list item) (m : mach) : bool :=
  match xs with
  | [] => true
  | x :: xs => quiet_item x m && match run_item x m with Ret _ m' => quiet_items xs m' | _ => true end
  end.
(** Along a path, no call is made, and no condition with a label is traced. *)
Fixpoint quiet_path (path : list (Z * list item)) (m : mach) : bool :=
  match path with
  | [] => true
  | p :: path =>
      match enter_items p.1 p.2 m with Some m' => quiet_items (item_body p.2) m' | None => true end &&
      match run_block p m with Ret _ m' => quiet_path path m' | _ => true end
  end.

Context (U : gset Z) (s0 : rt).
Abbreviation unsolved m := (unsolved U s0 (mc_rt m)).

(** The code other than loads and traces makes no label of input bytes. *)
Definition operator_emit (e : emit) : Prop :=
  match e with
  | EUnion _ _ _ op _ _ _ => 0 < op < 2 ^ 16 ∧ op ≠ op_Load
  | EUnionLoad _ _ _ => False
  | _ => True
  end.
Lemma pres_rt {A} (c : M rt A) : pres (PlainLabels.unsolved U s0) c → pres (λ m, unsolved m) (on_rt c).
Proof. intros Hc. by apply (pres_zoom (PlainLabels.unsolved U s0)). Qed.
Lemma pres_operand v : pres (λ m, unsolved m) (operand v).
Proof. apply pres_bind; [apply pres_get|]. intros m. destruct (value_of m v); auto with rt. Qed.
Lemma pres_operand64 x : pres (λ m, unsolved m) (operand64 x).
Proof. apply pres_bind; [apply pres_operand|auto with rt]. Qed.
Lemma pres_address v : pres (λ m, unsolved m) (shadow_address v).
Proof. apply pres_bind; [apply pres_operand|auto with rt]. Qed.
Lemma pres_define_shadow d l : pres (λ m, unsolved m) (define_shadow d l).
Proof. by apply pres_modify. Qed.
Lemma pres_define id n : pres (λ m, unsolved m) (define id n).
Proof. destruct n; [by apply pres_modify|apply pres_terminate]. Qed.
#[local] Hint Resolve pres_operand pres_operand64 pres_address pres_define_shadow pres_define : rt.
#[local] Hint Extern 1 (pres _ (label _)) => (apply pres_gets) : rt.
#[local] Hint Extern 1 (pres _ (modify _)) => (apply pres_modify; done) : rt.
#[local] Hint Resolve store_unsolved set_label_unsolved : rt.
#[local] Hint Extern 1 (pres _ (on_rt _)) => (apply pres_rt) : rt.

(** What a computation that keeps [unsolved] leaves. *)
Lemma pres_run {A} (c : M mach A) m :
  pres (λ m, unsolved m) c → unsolved m → match c m with Ret _ m' | Throw _ m' => unsolved m' | _ => True end.
Proof. intros Hc. apply Hc. Qed.
Lemma gep_unsolved l r : pres (PlainLabels.unsolved U s0) (taint_trace_gep l r).
Proof. unfold taint_trace_gep, is_flipped. pres_auto. apply r_info_pres. Qed.
Lemma trace_unsolved pc e m :
  match e with ETraceCond _ _ | ETraceCmp _ _ _ _ _ _ => True | _ => False end →
  quiet_emit m e = true → unsolved m → match run_emit pc e m with Ret _ m' | Throw _ m' => unsolved m' | _ => True end.
Proof.
  intros He Hq Hm. destruct e; try done; cbn [run_emit quiet_emit] in *; unfold label; rewrite ?bind_gets.
  - apply andb_true_iff in Hq as [Hq1%Z.eqb_eq Hq2%Z.eqb_eq]. rewrite Hq1, Hq2. apply pres_run; [|done].
    pres_auto. apply pres_rt. by intros s1' Hs1.
  - apply Z.eqb_eq in Hq. rewrite Hq. apply pres_run; [|done]. pres_auto. apply pres_rt. by intros s1' Hs1.
Qed.
Lemma emit_unsolved pc e m :
  operator_emit e → quiet_emit m e = true → unsolved m →
  match run_emit pc e m with Ret _ m' | Throw _ m' => unsolved m' | _ => True end.
Proof.
  intros He Hq Hm. destruct e; try done; try (by apply trace_unsolved); cbn [run_emit operator_emit] in *; apply pres_run; try done.
  all: pres_auto; apply pres_rt.
  - apply operator_unsolved; apply He.
  - pres_auto. apply shadow_put_unsolved.
  - apply gep_unsolved.
  - apply pres_modify. intros s. apply unsolved_shadow.
Qed.
Lemma emits_unsolved pc es m m' :
  Forall operator_emit es → quiet_emits pc es m = true → unsolved m → for_each es (run_emit pc) m = Ret () m' → unsolved m'.
Proof.
  intros Hes. revert m. induction Hes as [|e es He _ IH]; intros m Hq Hm; [by intros [= <-]|].
  cbn [quiet_emits for_each] in *. apply andb_true_iff in Hq as [Hq Hqs]. pose proof (emit_unsolved pc e m He Hq Hm) as Hs.
  unfold mbind, M_bind. destruct (run_emit pc e m) as [[] m1| |]; [|done|done]. by apply IH.
Qed.

(** An instruction of the program writes memory at most. *)
Lemma inst_unsolved i : is_call i = false → pres (λ m, unsolved m) (run_inst i).
Proof.
  intros Hc. unfold run_inst, is_call in *. destruct (i_kind i); try done; pres_auto.
  all: apply pres_rt, pres_modify; intros s; apply unsolved_mem.
Qed.

(** ** Items *)
Lemma union_operator i a b op size :
  straight i → union_of i = (a, b, op, size) → 0 < op < 2 ^ 16 ∧ op ≠ op_Load.
Proof.
  intros (_ & _ & _ & H) Hu. unfold union_of in Hu. destruct (i_kind i) as [o x y|o x|ok o p x y| | | | | | | | | | | | | |]; try done.
  - injection Hu as _ _ <- _. destruct H as (w & _ & Ho & _). destruct (binop_other o Ho) as [? _].
    unfold bin_op. destruct (_ && _ && _); op_lia.
  - injection Hu as _ _ <- _. destruct H as (w & w' & _ & _ & [(-> & _)|[(-> & _)|(-> & _)]]); op_lia.
  - injection Hu as _ _ <- _. destruct H as (_ & _ & _ & Hp & _). unfold cmp_op. destruct ok; op_lia.
Qed.
Lemma operators_trace s c : Forall operator_emit (trace_code s c).
Proof. unfold trace_code. case_decide; by repeat constructor. Qed.
(** Without calls and loads, the inserted code reads no input. *)
Lemma visited_operators native t i x :
  visited_other native t i x → is_call i = false →
  it_inst x = i ∧ it_after x = [] ∧ ((∃ p, i_kind i = ILoad p) ∨ Forall operator_emit (it_before x)).
Proof.
  intros [[Hi Hx]|[[Hi Hx]|[[Hi Hx]|[[Hi Hx]|[[Hi Hx]|[[Hi Hx]|[[Hi Hx]|[[Hi Hx]|[Hi Hx]]]]]]]]] Hc.
  all: pose proof Hx as (Hinst & _ & Hcode).
  - destruct Hcode as [Ha Hcode]. split_and!; [done|done|right]. destruct (union_of i) as [[[a b] op] size] eqn:Hu.
    destruct Hcode as (s1 & s2 & _ & _ & [(_ & _ & _ & ->)|(d & _ & ->)]); [constructor|].
    apply Forall_singleton. exact (union_operator i a b op size Hi Hu).
  - destruct Hcode as [Ha Hcode]. split_and!; [done|done|right]. destruct (i_kind i) as [| | |[c|]| | | | | | | | | | | | |]; try (rewrite Hcode; constructor).
    destruct Hcode as (s & _ & ->). apply operators_trace.
  - destruct Hcode as [Ha Hcode]. split_and!; [done|done|right]. destruct (i_kind i); try done. destruct Hcode as (s & _ & ->).
    case_decide; [constructor|]. by apply Forall_fmap, Forall_true.
  - destruct Hcode as [Ha Hcode]. split_and!; [done|done|right]. destruct (i_kind i) as [| | | | | | | |[v|]| | | | | | | |]; try (rewrite Hcode; constructor).
    destruct native; [rewrite Hcode; constructor|]. destruct Hcode as (s & _ & ->). by repeat constructor.
  - destruct Hcode as [Ha Hcode]. split_and!; [done|done|]. destruct (i_kind i); try done; [left; eauto|right].
    destruct Hcode as (s & _ & ->). by case_decide; repeat constructor.
  - destruct Hcode as [Ha Hcode]. split_and!; [done|done|right]. destruct (i_kind i); try done.
    destruct Hcode as (sa & sb & sc & _ & _ & _ & [(_ & _ & _ & ->)|(d & _ & ->)]); [apply operators_trace|].
    constructor; [done|apply operators_trace].
  - destruct Hcode as [Ha Hcode]. split_and!; [done|done|right]. destruct (i_kind i); try done.
    eapply Forall_impl; [exact Hcode|]. by intros e (s & v & -> & _).
  - destruct Hcode as [Ha Hcode]. split_and!; [done|done|right]. destruct (i_kind i); try done.
    + destruct Hcode as (s & _ & ->). by repeat constructor.
    + rewrite Hcode. by repeat constructor.
  - unfold call in Hi. unfold is_call in Hc. by destruct (i_kind i).
Qed.

Context (native : bool) (inp : input) (past : rt) {Co : CalleesOk inp}.
Lemma kept_unsolved x m m' :
  is_call (it_inst x) = false → it_after x = [] → unsolved m →
  (match it_fate x with Kept => run_kept (it_inst x) | _ => mret () end ;;
     for_each (it_after x) (run_emit (i_id (it_inst x)))) m = Ret () m' → unsolved m'.
Proof.
  intros Hc -> Hm Hr.
  enough (pres (λ m, unsolved m) (match it_fate x with Kept => run_kept (it_inst x) | _ => mret () end ;; mret ())) as Hp.
  { specialize (Hp m Hm). cbn [for_each] in Hr. by rewrite Hr in Hp. }
  apply pres_bind; [|auto with rt]. destruct (it_fate x); auto with rt.
  unfold run_kept. pose proof (inst_unsolved (it_inst x) Hc) as Hi. unfold is_call in Hc. by destruct (i_kind (it_inst x)).
Qed.
Lemma load_code_unsolved t i x p m m' rs :
  access i → i_kind i = ILoad p → access_ok native t i x → clean_step x m → consistent native inp past t m rs → unsolved m →
  for_each (it_before x) (run_emit (i_id i)) m = Ret () m' → unsolved m'.
Proof.
  intros (_ & _ & H) Hk (Hi & _ & _ & Hx) Hcl Hc Hm. rewrite Hk in H, Hx. destruct H as (_ & n & Hty & Hn).
  unfold clean_step in Hcl. rewrite Hi, Hk in Hcl. rewrite Hty, store_size in Hcl, Hx by lia.
  destruct Hx as [(_ & _ & ->)|(d & _ & ->)]; [by intros [= <-]|]. rewrite access_code_run, load_emit_run.
  destruct (value_of m p) as [a|]; [|done]. destruct (Hcl a eq_refl) as (Hrange & Hclean & _).
  pose proof (load_unsolved U s0 (mc_rt m) a n Hm Hn Hrange (λ k Hk, accessed_bytes _ _ _ _ _ _ _ _ _ Hc Hrange Hk) Hclean) as Hl.
  destruct (taint_union_load _ _ _); [|done|done]. by intros [= <-].
Qed.
Lemma item_unsolved t i x m m' rs :
  visited_other native t i x → clean_step x m → quiet_item x m = true → consistent native inp past t m rs → unsolved m →
  run_item x m = Ret () m' → unsolved m'.
Proof.
  intros Hv Hcl Hq Hc Hm Hr. unfold quiet_item in Hq. apply andb_true_iff in Hq as [Hcall%negb_true_iff Hq].
  assert (it_inst x = i) as Hi by by destruct (other_not_phi _ _ _ _ Hv). rewrite Hi in *.
  destruct (visited_operators native t i x Hv Hcall) as (_ & Ha & Hb). unfold run_item in Hr. rewrite Hi in Hr.
  unfold mbind at 1, M_bind at 1 in Hr. destruct (for_each (it_before x) _ m) as [[] m1| |] eqn:Hbefore; [|done|done].
  apply (kept_unsolved x m1 m'); [by rewrite Hi|done| |by rewrite Hi].
  destruct Hb as [[p Hp]|Hb]; [|by eapply emits_unsolved].
  assert (access i ∧ access_ok native t i x) as [Hacc Hok].
  { unfold visited_other, straight, branch, switch, ret, select, gep, bulk, call in Hv. rewrite Hp in Hv. naive_solver. }
  by eapply load_code_unsolved.
Qed.
Lemma items_unsolved t l xs m m2 m' rs :
  Forall2 (visited_other native t) l xs → own t → clean_run xs m → quiet_items xs m = true → consistent native inp past t m rs →
  rs inp = Some m2 → same_values m m2 → unsolved m → run_items xs m = Ret () m' → unsolved m'.
Proof.
  intros Hl Ho. revert m m2 rs. induction Hl as [|i x l xs Hx Hl IH]; intros m m2 rs Hcl Hq Hc Hrs Hm Hun; [by intros [= <-]|].
  destruct Hcl as [Hcl Hcls]. cbn [quiet_items] in Hq. apply andb_true_iff in Hq as [Hq Hqs].
  pose proof (visited_item native inp past t i x m m2 rs Hx Hcl Ho Hc Hrs Hm) as H.
  unfold run_items. cbn [for_each]. unfold mbind, M_bind.
  destruct (run_item x m) as [[] m1|e m1|h m1] eqn:Hrun; [|done|done]. destruct H as (Hc1 & m2' & Hr1 & Hm1).
  apply (IH m1 m2' (next inp i rs)); [by apply Hcls|done..|]. by eapply item_unsolved.
Qed.
Lemma path_unsolved t path m m2 m' rs :
  Forall (λ p, NoDup (i_id <$> p.1.2) ∧ Forall2 (final native t) p.1.2 p.2) path → own t →
  let items := (λ p : Z * list inst * list item, (p.1.1, p.2)) <$> path in
  clean_path items m → quiet_path items m = true → consistent native inp past t m rs → rs inp = Some m2 → same_values m m2 →
  unsolved m → run_path items m = Ret () m' → unsolved m'.
Proof.
  intros Hp Ho items. unfold items. clear items. revert m m2 rs.
  induction Hp as [|[[pred l] xs] path [Hnd Hx] Hp IH]; intros m m2 rs Hcl Hq Hc Hrs Hm Hun; [by intros [= <-]|].
  destruct Hcl as [Hcl Hcls]. cbn [fst snd fmap list_fmap quiet_path] in *. apply andb_true_iff in Hq as [Hq Hqs].
  pose proof (block_agrees native inp past t pred l xs m m2 rs Ho Hnd Hx Hcl Hc Hrs Hm) as H.
  pose proof (enter_agrees native inp past t pred l xs m m2 rs Ho Hnd Hx Hc Hrs Hm) as He.
  unfold run_path. cbn [for_each]. unfold mbind, M_bind.
  destruct (run_block (pred, xs) m) as [[] m1|e m1|h m1] eqn:Hrun; [|done|done]. destruct H as (Hc1 & m2' & Hr1 & Hm1).
  apply (IH m1 m2' (after_block inp pred l rs)); [by apply Hcls|done..|].
  unfold run_block in Hrun. rewrite bind_get in Hrun. cbn [fst snd] in Hrun.
  destruct (enter_items pred xs m) as [me|] eqn:Hen; [|done]. rewrite (bind_run _ _ _ () me) in Hrun by done.
  destruct He as (Hce & m2e & Hre & Hme). destruct (final_split _ _ _ _ Hx) as (_ & _ & Hb).
  eapply items_unsolved; [exact Hb|exact Ho|by apply Hcl|exact Hq|exact Hce|exact Hre|exact Hme| |exact Hrun].
  by rewrite (proj1 (enter_items_rt _ _ _ _ Hen)).
Qed.
End quiet.

(** ** The runtime is ready for the first branch *)
Section ready.
Context {Zi : Z3} {Ops : LlvmOps}.

Definition file_offsets (n : Z) : gset Z := list_to_set (range 0 n).
Lemma elem_of_file_offsets n x : x ∈ file_offsets n ↔ 0 ≤ x < n.
Proof. unfold file_offsets. rewrite elem_of_list_to_set. apply elem_of_range. Qed.
Lemma boot_info l :
  let i := info_at (boot_lstate expr) l in li_expr i = None ∧ li_deps i = None ∧ li_flags i = 0.
Proof.
  unfold info_at, boot_lstate. cbn [infos]. destruct (decide (l = 0)) as [->|]; [by rewrite lookup_singleton_eq|].
  by rewrite lookup_singleton_ne.
Qed.
Lemma opened_unsolved F D p c mem o fd sv s s' :
  c ≠ [] → label_addr (Z.of_nat (length c)) < HashTableAddr → opened F D p c mem o fd sv s → only_memory s s' →
  unsolved (file_offsets (Z.of_nat (length c))) s' s'.
Proof.
  intros Hc Hl Hop Hm. destruct (opened_ready _ _ _ _ _ _ _ _ _ Hc Hl Hop) as [Hfr _].
  assert (rt_labels s' = rt_labels s) as Hls by by rewrite Hm.
  assert (rt_labels s = input_labels (length c) (boot_lstate expr)) as Hin by (by destruct Hop as (sh & _ & ->)).
  assert (last_label (rt_labels s) = Z.of_nat (length c)) as Hlast by (rewrite Hin, input_labels_last; done).
  assert (∀ l, info_at (rt_labels s) l = input_record (l - 1) ∨ info_at (rt_labels s) l = info_at (boot_lstate expr) l) as Hinfo.
  { intros l. rewrite Hin, input_labels_info by done. case_decide; auto. }
  split; [unfold rt_wf; rewrite Hls; apply (fl_wf _ Hfr)| |by destruct s']. rewrite Hls. split.
  - intros l. destruct (boot_info l) as (? & ? & ?). by destruct (Hinfo l) as [-> | ->].
  - intros l. destruct (boot_info l) as (? & ? & ?). by destruct (Hinfo l) as [-> | ->].
  - intros l Hr. rewrite (fl_records _ Hfr l Hr). unfold leaf_deps, deps_info. cbn. intros x ->%elem_of_singleton.
    apply elem_of_file_offsets. rewrite Hlast in Hr. pose proof (file_small c Hl).
    unfold u32, u64. rewrite !wrap_small; unfold in_range; rewrite ?wrap_small; unfold in_range; lia.
Qed.
Lemma no_deps n : omap id (replicate n (None : option branch_dep_t)) = [].
Proof. induction n as [|n IH]; [done|]. exact IH. Qed.
Lemma unsolved_ready n s0 s addr l buf :
  unsolved (file_offsets (Z.of_nat n)) s0 s → rt_branches s0 = ∅ → rt_branch_deps s0 = replicate n None → can_write s0 buf →
  l ≤ last_label (rt_labels s) → ready s addr l buf.
Proof.
  intros Hs Hb Hd Hw Hl. pose proof (un_same _ _ _ Hs) as Hu.
  assert (rt_branch_deps s = replicate n None) as Hds by by rewrite Hu.
  split.
  - unfold branch_count. rewrite Hu. cbn. by rewrite Hb, lookup_empty.
  - by eapply unsolved_caches.
  - by eapply unsolved_flipped.
  - intros b e d s1 Hr x Hx. pose proof (serialize_unsolved _ _ _ _ _ _ _ _ Hs Hl Hr) as Hsub.
    assert (x ∈ d) as Hxd.
    { unfold all_offsets in Hx. rewrite Hds in Hx. rewrite no_deps in Hx. set_solver. }
    apply Hsub, elem_of_file_offsets in Hxd. split; [lia|left]. rewrite Hds, length_replicate. lia.
  - rewrite Hu. by destruct Hw; split.
Qed.
End ready.

(** ** The path to a branch *)
Section reach.
Context {Zi : Z3} {Ops : LlvmOps} {DL : DataLayout} {PE : PassEnv} {Cs : Callees}.

(** The blocks of a path, then the first [k] instructions of a block. *)
Definition code_to (path : list (Z * (block * (Z * list item)))) (pred : Z) (b : block) (k : nat) : list (Z * list inst) :=
  path_code path ++ [(pred, take k (b_insts b))].
Definition linked (phis : list (Z * list shadow)) (x : Z * list item) : list item := link (list_to_map phis) <$> x.2.
Definition items_to (phis : list (Z * list shadow)) (path : list (Z * (block * (Z * list item)))) (pred : Z)
    (x : Z * list item) (k : nat) : list (Z * list item) :=
  path_items phis path ++ [(pred, take k (linked phis x))].

Context (inp : input).
(** Without calls, the run on [j] depends on [j] through the first state only. *)
Lemma after_at l rs j k :
  Forall (λ i, is_call i = false) l → rs j = rs k → after inp l rs j = after inp l rs k.
Proof.
  intros Hl. revert rs. induction Hl as [|i l Hi _ IH]; intros rs He; [done|]. cbn [after]. apply IH.
  unfold next. by rewrite Hi, He.
Qed.
Lemma after_path_at path rs j k :
  Forall (λ p : Z * list inst, Forall (λ i, is_call i = false) p.2) path → rs j = rs k →
  after_path inp path rs j = after_path inp path rs k.
Proof.
  intros Hp. revert rs. induction Hp as [|[pred l] path Hl _ IH]; intros rs He; [done|]. cbn [after_path]. apply IH.
  apply after_at; [|unfold entered; by rewrite He].
  apply Forall_forall. intros i [_ Hi]%list_elem_of_filter. by apply (proj1 (Forall_forall _ _) Hl).
Qed.

Context {Co : CalleesOk inp} (U : gset Z) (s0 : rt).
Lemma steps_to_ok bs xs phis t path pred b x k :
  instrumented bs xs phis t → (path ++ [(pred, (b, x))]).*2 ⊆ zip bs xs →
  Forall (λ p, NoDup (i_id <$> p.1.2) ∧ Forall2 (final false t) p.1.2 p.2)
    (path_steps phis path ++ [(pred, take k (b_insts b), take k (linked phis x))]) ∧
  Forall2 (final false t) (b_insts b) (linked phis x).
Proof.
  intros [_ Hord _ Hxs] Hp. pose proof (path_steps_ok false bs xs phis t _ Hord Hp Hxs) as H.
  unfold path_steps in H. rewrite fmap_app in H. apply Forall_app in H as [H [[Hnd Hf] _]%Forall_cons]. cbn in Hnd, Hf.
  split; [|exact Hf]. apply Forall_app. split; [exact H|]. apply Forall_singleton. cbn. split; [|by apply Forall2_take].
  rewrite fmap_take. eapply sublist_NoDup; [exact Hnd|]. apply sublist_take.
Qed.
(** The state in which the branch is reached. *)
Lemma branch_reached bs xs phis t path pred b x k i c it m m2 rs pc :
  instrumented bs xs phis t → (path ++ [(pred, (b, x))]).*2 ⊆ zip bs xs →
  b_insts b !! k = Some i → i_kind i = IBranch (Some c) → linked phis x !! k = Some it →
  called inp m rs → rs inp = Some m2 → same_values m m2 → unsolved U s0 (mc_rt m) →
  ∃ m0, for_each (tf_entry t) (run_emit pc) m = Ret () m0 ∧
    ∀ m1, clean_path (items_to phis path pred x k) m0 → quiet_path (items_to phis path pred x k) m0 = true →
      run_path (items_to phis path pred x k) m0 = Ret () m1 →
      consistent false inp (mc_rt m) t m1 (after_path inp (code_to path pred b k) rs) ∧
      unsolved U s0 (mc_rt m1) ∧ branch i ∧ branch_ok false t i it.
Proof.
  intros Hin Hp Hi Hk Hit Hcall Hrs Hm Hun. pose proof Hin as [HA _ Ho _].
  destruct (entry_agrees inp t pc m rs HA Ho Hcall) as (sh & He & Hc). exists (set_shadows sh m). split; [done|].
  intros m1 Hcl Hq Hrun. destruct (steps_to_ok bs xs phis t path pred b x k Hin Hp) as [Hok Hf].
  set (steps := path_steps phis path ++ _) in Hok.
  assert (items_to phis path pred x k = (λ p : Z * list inst * list item, (p.1.1, p.2)) <$> steps) as Hitems.
  { unfold steps. rewrite fmap_app, <-path_steps_items. done. }
  assert (code_to path pred b k = steps.*1) as Hcode.
  { unfold steps. rewrite fmap_app, <-path_steps_code. done. }
  rewrite Hitems in Hcl, Hq, Hrun. rewrite Hcode.
  pose proof (path_agrees false inp (mc_rt m) t steps _ m2 rs Hok Ho Hcl Hc Hrs Hm) as Hag. cbv zeta in Hag.
  rewrite Hrun in Hag. split; [apply Hag|]. split; [by eapply path_unsolved|].
  pose proof (Forall2_lookup_lr _ _ _ _ _ _ Hf Hi Hit) as [Hv|[(inc & Hk' & _) _]]; [|by rewrite Hk in Hk'].
  unfold visited_other, straight, switch, ret, access, select, gep, bulk, call in Hv. rewrite Hk in Hv. naive_solver.
Qed.
End reach.

(** ** The branch is solved *)
Section solved.
Context {Zi : Z3} {Laws : Z3Laws Zi} {Ops : LlvmOps} {En : Env} {DL : DataLayout} {PE : PassEnv} {Cs : Callees}.

(** What the first branch leads to, on a condition [cnd] of value [v]: the item
    [it] runs; there is the formula [ne] of the inputs that take the other side;
    and a model of it becomes the first output file. *)
Definition other_side_tried (D : string) (c : list Z) (files : gmap string (list Z)) (checks : Z)
    (rs : input → option mach) (cnd : val) (v : Z) (it : item) (m1 : mach) : Prop :=
  ∃ m2 ne es, run_item it m1 = Ret () m2 ∧ same_values m1 m2 ∧
    (∀ j mj, rs j = Some mj → z3_eval (env_of j) ne = VBool true ↔ value_of mj cnd = Some (1 - v)) ∧
    match answer checks ne es with
    | None => os_files (rt_os (mc_rt m2)) = files
    | Some model =>
        byte_model model →
        ∃ file, os_files (rt_os (mc_rt m2)) = <[input_path (Output D 0 0 0) 0 := file]> files ∧
          (∀ k, 0 ≤ k → (∀ x, (SInt k, x) ∉ model) → byte_at file k = byte_at c k) ∧
          ∀ mj, rs (input_of_file file) = Some mj → value_of mj cnd = Some (1 - v)
    end.

Lemma opened_can_write F D p c mem o fd sv s s' :
  c ≠ [] → 0 ≤ os_next_fd o → os_write_ok o = true → input_path (Output D 0 0 0) 0 ∉ os_denied o →
  opened F D p c mem o fd sv s → only_memory s s' →
  rt_branches s' = ∅ ∧ rt_branch_deps s' = replicate (length c) None ∧ rt_output s' = Output D 0 0 0 ∧
  os_files (rt_os s') = os_files o ∧ ∃ buf, can_write s' buf ∧ original s' buf = c.
Proof.
  intros Hc Hfd Hw Hden (sh & _ & ->) Hm. rewrite Hm. cbn. split_and!; [done..|].
  eexists. split; [split; cbn; [done|done|lia|done|done]|]. unfold original. cbn. by rewrite Nat2Z.id, take_app_length.
Qed.
Lemma first_branch_solved D c files inp past t i it cnd s v m1 rs s0 n buf :
  unsolved (file_offsets (Z.of_nat n)) s0 (mc_rt m1) → rt_branches s0 = ∅ → rt_branch_deps s0 = replicate n None →
  rt_output s0 = Output D 0 0 0 → os_files (rt_os s0) = files → can_write s0 buf → original s0 buf = c →
  consistent false inp past t m1 rs → branch i → branch_ok false t i it → i_kind i = IBranch (Some cnd) →
  it_before it = [ETraceCond s cnd] → label_of m1 s ≠ 0 → value_of m1 cnd = Some v →
  other_side_tried D c files (sv_checks (rt_solver s0)) rs cnd v it m1.
Proof.
  intros Hun Hb Hd Ho Hf Hw Hor Hc Hbr Hok Hk Hcode Hl Hv. pose proof (un_same _ _ _ Hun) as Hu.
  assert (has false t cnd s) as Hh.
  { pose proof Hok as (_ & _ & _ & H). rewrite Hk in H. destruct H as (s' & Hs & Hx). rewrite Hcode in Hx.
    unfold trace_code in Hx. case_decide; simplify_eq. done. }
  assert (operand_ok 1 cnd) as Hop by (destruct Hbr as [_ H]; by rewrite Hk in H).
  pose proof (label_bound _ _ _ _ _ _ _ _ _ _ Hc Hop Hh Hv) as Hlast.
  pose proof (unsolved_ready n s0 (mc_rt m1) (i_id i) (label_of m1 s) buf Hun Hb Hd Hw ltac:(lia)) as Hready.
  assert (rt_os (mc_rt m1) = rt_os s0) as Hos by by rewrite Hu.
  assert (original (mc_rt m1) buf = c) as Hor' by (by rewrite Hu).
  assert (next_path (mc_rt m1) = input_path (Output D 0 0 0) 0) as Hnext.
  { unfold next_path. assert (rt_output (mc_rt m1) = Output D 0 0 0) as -> by by rewrite Hu. done. }
  assert (rt_solver (mc_rt m1) = rt_solver s0) as Hsv by by rewrite Hu.
  destruct (branch_run_solved false inp past t i it cnd s v m1 rs buf Hbr Hk Hok Hcode Hc Hh Hv Hl Hready)
    as (m2 & Hrun & Hsame & _ & ne & es & Hne & Hout).
  exists m2, ne, es. split_and!; [exact Hrun|exact Hsame|exact Hne|]. rewrite Hsv in Hout.
  destruct (answer _ ne es) as [model|]; [|by rewrite Hout, Hos]. intros Hbm.
  destruct (Hout Hbm) as (file & Hfile & Hbytes & Hside). exists file.
  split_and!; [by rewrite Hfile, Hnext, Hos, Hf|by rewrite <-Hor'|exact Hside].
Qed.
End solved.

(** C1: the program's whole purpose, from start to new input. The options name a
    readable, non-empty input file with the bytes [c] and an output directory that
    can be written to. The runtime starts, the program opens its file, reads [n]
    bytes of it and calls a function the pass instrumented, with arguments that do
    not depend on the input. The function runs along a path (with clean loads and
    stores, and without calls) on which no labelled condition is traced, up to a
    branch whose condition has a label. Then start-up, open, read, entry code and
    branch run; there is a formula that holds of exactly the inputs on which the
    original program, having read that input and taken the same path (wherever
    that is defined), goes to the other side of the branch; when Z3 finds no model of it no file is written; and
    when it finds one that assigns input bytes, the first file [id-0-0-0] of the
    output directory is the input file changed only at the bytes of the model, and
    on it the original program goes to the other side. *)
Theorem first_branch_other_side {Zi : Z3} {Laws : Z3Laws Zi} {Ops : LlvmOps} {En : Env} {DL : DataLayout}
    {PE : PassEnv} {Cs : Callees}
    FN D p c shadow mem o path fd buf count off n args F bs first (inp := input_of_file c) {Co : CalleesOk inp} :
  reading FN D p c shadow mem o path fd buf off n → args_range args →
  os_write_ok o = true → input_path (Output D 0 0 0) 0 ∉ os_denied o →
  ABI = IA_TLS → ordered (concat (b_insts <$> bs)) → Forall (λ i, i_id i < first) (concat (b_insts <$> bs)) →
  ∃ s1 s2 s3 xs phis t', startup (rt_static shadow mem o) = Ret () s1 ∧
    dfsw_open path (Sys fd []) s1 = Ret (fd, 0) s2 ∧
    dfsw_read fd buf count off (Sys n [(buf, input_bytes off n inp)]) s2 = Ret (n, 0) s3 ∧
    instrument F false bs (tf_init first) = Ret (xs, phis) t' ∧
    ∀ path pred b x k i cnd it pc, (path ++ [(pred, (b, x))]).*2 ⊆ zip bs xs →
      b_insts b !! k = Some i → i_kind i = IBranch (Some cnd) → linked phis x !! k = Some it →
      ∃ m0, for_each (tf_entry t') (run_emit pc) (entering args s3) = Ret () m0 ∧
        ∀ m1 s v, clean_path (items_to phis path pred x k) m0 → quiet_path (items_to phis path pred x k) m0 = true →
          run_path (items_to phis path pred x k) m0 = Ret () m1 →
          it_before it = [ETraceCond s cnd] → label_of m1 s ≠ 0 → value_of m1 cnd = Some v →
          other_side_tried D c (os_files o) (sv_checks (rt_solver s3))
            (after_path inp (code_to path pred b k) (entering_on args mem buf off n s3)) cnd v it m1.
Proof.
  intros Hrd Hargs Hw Hden HA Hord Hids.
  destruct (first_call FN D p c shadow mem o path fd buf off n count args Hrd Hargs)
    as (s1 & s2 & s3 & sv & H1 & H2 & H3 & Hop & Hmem & Hcall & Hinp).
  destruct (instrument_instrumented F bs first HA Hord Hids) as (xs & phis & t' & Hi & Hin).
  pose proof (opened_unsolved _ _ _ _ _ _ _ _ _ _ (rg_bytes _ _ _ _ _ _ _ _ _ _ _ _ Hrd) (rg_room _ _ _ _ _ _ _ _ _ _ _ _ Hrd) Hop Hmem) as Hun.
  destruct (opened_can_write _ _ _ _ _ _ _ _ _ _ (rg_bytes _ _ _ _ _ _ _ _ _ _ _ _ Hrd) (rg_fds _ _ _ _ _ _ _ _ _ _ _ _ Hrd) Hw Hden Hop Hmem)
    as (Hb & Hd & Hou & Hfs & ob & Hcw & Hor).
  exists s1, s2, s3, xs, phis, t'. split_and!; [done..|].
  intros pth pred b x k i cnd it pc Hp Hbi Hk Hit.
  destruct (branch_reached inp (file_offsets (Z.of_nat (length c))) s3 bs xs phis t' pth pred b x k i cnd it
    (entering args s3) (entering args s3) _ pc Hin Hp Hbi Hk Hit Hcall Hinp ltac:(done) Hun) as (m0 & He & Hreach).
  exists m0. split; [exact He|]. intros m1 s v Hcl Hq Hrun Hcode Hl Hv.
  destruct (Hreach m1 Hcl Hq Hrun) as (Hc & Hun1 & Hbr & Hok).
  by apply (first_branch_solved D c (os_files o) inp s3 t' i it cnd s v m1 _ s3 (length c) ob).
Qed.

(** ** A program that reads one byte of its input and compares it with 5 *)
#[local] Existing Instance layout64.
#[local] Existing Instance plain_env.
#[local] Existing Instance no_calls.
Definition five_block : block := Block 0
  [Inst 1 (TInt 8) (ILoad (VArgument 0)) false;
   Inst 3 (TInt 1) (ICompare true op_ICmp 32 (VInst 1) (VConst 8 5)) false;
   Inst 4 TVoid (IBranch (Some (VInst 3))) false].
Definition five_func : func := Func "five" (TFun TVoid [TPtr (TInt 8)] false) [five_block].
Definition five_args : gmap Z Z := {[ 0 := byte_addr ]}.
Definition five_runs (s : rt (Zi:=Ref.z3)) : input → option (mach (Zi:=Ref.z3)) :=
  after_path (input_of_file [10; 20; 30]) (code_to [] 0 five_block 2) (entering_on five_args name_mem byte_addr 1 1 s).
Lemma five_ordered : ordered (b_insts five_block).
Proof.
  assert (∀ id (l : list val), bool_decide (VInst id ∉ l) = true → VInst id ∉ l) as Hn by (intros id l; apply bool_decide_eq_true_1).
  apply order_check_ok; [|by vm_compute]. unfold covered. repeat apply Forall_cons_2; [..|constructor].
  - do 4 right. left. split; [done|]. split; [by apply Hn|]. split; [done|]. by exists 1.
  - left. split_and!; [done|by apply Hn|done|]. split_and!; try done. exists 8. by split_and!.
  - right. left. by split.
Qed.
(** On the input [j], the condition compares byte 1. *)
Lemma five_follows s j :
  ∃ mj, five_runs s j = Some mj ∧ value_of mj (VInst 3) = Some (Z.b2z (u8 (in_byte j 1) =? 5)).
Proof.
  enough ((λ m, value_of m (VInst 3)) <$> five_runs s j = Some (Some (Z.b2z (u8 (in_byte j 1) =? 5)))) as H.
  { destruct (five_runs s j) as [mj|]; [|done]. injection H as H. by exists mj. }
  set (k := Input (λ _, u8 (in_byte j 1)) 3).
  assert (five_runs s j = five_runs s k) as ->.
  { apply after_path_at; [by repeat constructor|]. unfold entering_on, after_read, input_bytes, k. cbn [in_byte].
    change (range 0 1) with [0]. cbn [fmap list_fmap]. by rewrite u8_idemp. }
  pose proof (u8_range (in_byte j 1)) as Hb. unfold k. clear k. generalize dependent (u8 (in_byte j 1)). intros b Hb.
  assert (forallb (λ b, bool_decide ((λ m, value_of m (VInst 3)) <$> five_runs s (Input (λ _, b) 3) = Some (Some (Z.b2z (b =? 5)))))
    (range 0 256) = true) as Hall by (vm_compute; reflexivity).
  rewrite forallb_forall in Hall. apply (bool_decide_eq_true_1 _), Hall, list_elem_of_In, elem_of_range. exact Hb.
Qed.
Definition five_file : input := input_of_file [0; 5].
Lemma five_file_answers : answers (Zi:=Ref.z3) five_file.
Proof.
  intros n e He. apply (Ref.check_complete (env_of five_file)).
  - intros [k|x]; simpl; [|case_decide; lia]. unfold byte_at.
    destruct (Z.to_nat k) as [|[|q]]; destruct (k <? 0); simpl; lia.
  - by intros t ->%list_elem_of_singleton.
Qed.
(** The states of this program. *)
Definition five_env : Env := demo_env (print_settings (launch "seed" "out")) None.
Definition five_s1 : rt (Zi:=Ref.z3) := at_state (startup (Zi:=Ref.z3) (En:=five_env) (rt_static (Zi:=Ref.z3) ∅ name_mem demo_os)).
Definition five_s2 : rt (Zi:=Ref.z3) := at_state (dfsw_open (Zi:=Ref.z3) (En:=five_env) wbuf (Sys 5 []) five_s1).
Definition five_s3 : rt (Zi:=Ref.z3) := at_state (dfsw_read (Zi:=Ref.z3) 5 byte_addr 8 1 (Sys 1 [(byte_addr, [20])]) five_s2).
Definition five_items : Z * list item :=
  Eval vm_compute in
    match instrument five_func false [five_block] (tf_init 101) with Ret ([x], _) _ => x | _ => (0, []) end.
Definition five_start : mach (Zi:=Ref.z3) := entering five_args five_s3.
Definition five_reached : mach (Zi:=Ref.z3) := at_state (run_path (items_to [] [] 0 five_items 2) five_start).
Definition five_test : item := Item [ETraceCond (SVal 102) (VInst 3)] (Inst 4 TVoid (IBranch (Some (VInst 3))) false) Kept [].

Lemma five_clean : clean_path (items_to [] [] 0 five_items 2) five_start.
Proof.
  split; [|done]. intros m' [Hrt Hargs]%enter_items_rt. split; [|by split].
  unfold clean_step. cbv zeta. cbn [it_inst i_kind i_ty link]. intros a Ha. change (mc_args m' !! 0 = Some a) in Ha. rewrite Hargs in Ha. assert (a = byte_addr) as -> by by injection Ha.
  rewrite Hrt. change (type_store_size (TInt 8)) with 1. split; [by split; vm_compute|]. split; [|done]. right.
  assert (label_at (mc_rt five_start) byte_addr = 2) as Hl by (vm_compute; reflexivity).
  rewrite Hl. split; [done|]. cbv zeta beta. rewrite !Z.add_0_r, Hl. split; [intros _ k Hk; lia|].
  intros Hop. exfalso. vm_compute in Hop. discriminate Hop.
Qed.
Lemma five_run : run_path (items_to [] [] 0 five_items 2) five_start = Ret () five_reached.
Proof.
  assert (returned (run_path (items_to [] [] 0 five_items 2) five_start) = Some ()) as Hr by (vm_compute; reflexivity).
  unfold five_reached. destruct (run_path _ five_start) as [[] m1| |]; [reflexivity|discriminate Hr|discriminate Hr].
Qed.
(** From start-up to the file [out/id-0-0-0], whose byte 1 is 5. *)
Lemma first_branch_other_side_witness :
  ∃ t' m2 ne es model,
    startup (Zi:=Ref.z3) (En:=five_env) (rt_static (Zi:=Ref.z3) ∅ name_mem demo_os) = Ret () five_s1 ∧
    dfsw_open (En:=five_env) wbuf (Sys 5 []) five_s1 = Ret (5, 0) five_s2 ∧
    dfsw_read 5 byte_addr 8 1 (Sys 1 [(byte_addr, [20])]) five_s2 = Ret (1, 0) five_s3 ∧
    instrument five_func false [five_block] (tf_init 101) = Ret ([five_items], []) t' ∧
    for_each (tf_entry t') (run_emit 0) (entering five_args five_s3) = Ret () five_start ∧
    run_path (items_to [] [] 0 five_items 2) five_start = Ret () five_reached ∧
    linked [] five_items !! 2%nat = Some five_test ∧ run_item five_test five_reached = Ret () m2 ∧
    answer (Zi:=Ref.z3) (sv_checks (rt_solver five_s3)) ne es = Some model ∧
    (byte_model model → ∃ file,
       os_files (rt_os (mc_rt m2)) = <["out/id-0-0-0" := file]> (os_files demo_os) ∧ u8 (in_byte (input_of_file file) 1) = 5).
Proof.
  destruct (first_branch_other_side (Zi:=Ref.z3) (En:=five_env) (Cs:=no_calls) "seed" "out" "/in/seed" [10; 20; 30] ∅ name_mem
    demo_os wbuf 5 byte_addr 8 1 1 five_args five_func [five_block] 101 (Co:=no_callees_ok _))
    as (s1 & s2 & s3 & xs & phis & t' & H1 & H2 & H3 & Hr & Hpath).
  - exact (demo_reading 1 1 ltac:(lia) ltac:(lia) ltac:(lia)).
  - intros k w x Hw Hx. discriminate Hw.
  - reflexivity.
  - apply not_elem_of_empty.
  - reflexivity.
  - exact five_ordered.
  - by repeat constructor.
  - assert (s1 = five_s1) as -> by (unfold five_s1; rewrite H1; reflexivity).
    assert (s2 = five_s2) as -> by (unfold five_s2; rewrite H2; reflexivity).
    assert (s3 = five_s3) as -> by (unfold five_s3; change [20] with (input_bytes 1 1 (input_of_file [10; 20; 30])); rewrite H3; reflexivity).
    pose proof Hr as Hr'. vm_compute in Hr'. injection Hr' as Hxs Hphis Ht.
    assert (xs = [five_items]) as -> by (symmetry; exact Hxs). subst phis.
    destruct (Hpath [] 0 five_block five_items 2%nat (Inst 4 TVoid (IBranch (Some (VInst 3))) false) (VInst 3) five_test 0)
      as (m0 & Hm0 & Hreach).
    + intros q Hq. exact Hq.
    + reflexivity.
    + reflexivity.
    + reflexivity.
    + assert (m0 = five_start) as -> by (rewrite <-Ht in Hm0; injection Hm0 as <-; reflexivity).
      destruct (Hreach five_reached (SVal 102) 0 five_clean) as (m2 & ne & es & Hrun & _ & Hne & Hout).
      * vm_compute; reflexivity.
      * exact five_run.
      * reflexivity.
      * vm_compute; discriminate.
      * vm_compute; reflexivity.
      * destruct (five_follows five_s3 five_file) as (mj & Hj & Hvj).
        destruct (answers_answer five_file (sv_checks (rt_solver five_s3)) ne es five_file_answers) as [model Hmodel].
        { apply (Hne five_file mj Hj). rewrite Hvj. reflexivity. }
        exists t', m2, ne, es, model. split_and!; [exact H1|exact H2|exact H3|exact Hr|exact Hm0|exact five_run|reflexivity|exact Hrun|exact Hmodel|].
        rewrite Hmodel in Hout. intros Hbm. destruct (Hout Hbm) as (file & Hfile & _ & Hside). exists file.
        split; [exact Hfile|]. destruct (five_follows five_s3 (input_of_file file)) as (mk & Hk & Hvk).
        specialize (Hside mk Hk). rewrite Hvk in Hside. apply (inj Some) in Hside.
        apply Z.eqb_eq. by destruct (u8 (in_byte (input_of_file file) 1) =? 5).
Defined.
