(* ===== verification/Angora.v ===== *)
(** * The coverage and comparison pass

    [pass/AngoraPass.cc] instruments a program for the fuzzer this project derives
    from: it counts edges in a shared map, keeps a calling context, and reports
    the operands of comparisons, switches and chosen calls. [pass/UnfoldBranchPass.cc],
    which runs before it, marks the targets of branches with calls that this pass
    removes. *)
From Stdlib Require Import Ascii.
From S2P Require Import Prelude Ir.

(** ** Constants ([include/defs.h]) *)
Definition MAP_SIZE_POW2 : Z := 20.
Definition MAP_SIZE : Z := Z.shiftl 1 MAP_SIZE_POW2.
Definition COND_EQ_OP : Z := 32.
Definition COND_SIGN_MASK : Z := 0x100.
Definition COND_BOOL_MASK : Z := 0x200.
Definition COND_EXPLOIT_MASK : Z := 0x4000.
Definition MAX_EXPLOIT_CATEGORY : nat := 5.
Definition ExploitCategoryAll : string := "all".
Definition ExploitCategory : list string := ["i0"; "i1"; "i2"; "i3"; "i4"].
Definition CompareFuncCat : string := "cmpfn".

(** ** What LLVM, the host and the lists tell the pass *)
Class AngoraEnv := {
  (** the type of a value, the operands of an instruction, its opcode *)
  v_type : val → ty;
  getOperand : inst → list val;
  getOpcode : inst → Z;
  getOpcodeName : inst → string;
  is_eh_pad : inst → bool;
  (** line and column, where there is debug information *)
  getDebugLoc : inst → option (Z * Z);
  (** [SpecialCaseList::inSection] of the exploitation list, section [angora] *)
  inSection : string → string → string → bool;
  (** the sequence of [random()] after [srandom] *)
  random_at : Z → nat → Z;
  random_range s n : 0 ≤ random_at s n < 2 ^ 31;
}.

(** [AngoraABIList::isIn(Instruction &, ...)]: a call by the name of its function,
    any other instruction by its opcode. *)
Definition isIn `{AngoraEnv} (i : inst) (Category : string) : bool :=
  match i_kind i with
  | ICall (CalleeFun f) _ _ false => inSection "fun" f Category
  | _ => inSection "ins" (getOpcodeName i) Category
  end.

(** ** Inserted code *)
Inductive gvar := GMapPtr | GPrevLoc | GContext | GCondId | GCallSite.
Inductive tracefn := TraceCmp | TraceSw | TraceCmpTT | TraceSwTT | TraceFnTT | TraceExploitTT.
(** A value: of the program, of an inserted instruction, a constant, or the array
    of the cases of a switch. *)
Inductive aval :=
| AProg (v : val)
| ATmp (d : Z) (t : ty)
| AConst (w n : Z)
| AArr (cases : list Z).
Inductive aop :=
| OLoad (g : gvar)
| OLoadAt (p : aval)
| OZExt (v : aval)
| OFPToUI (v : aval)
| OPtrToInt (v : aval)
| OXor (a b : aval)
| OLShr (a : aval) (n : Z)
| OAdd (a b : aval)
| OICmpEQ (a b : aval)
| OGEP (p i : aval).
Inductive aemit :=
| ADef (d : Z) (t : ty) (o : aop)
| AStore (v : aval) (g : gvar)
| AStoreAt (v p : aval)
| ATrace (f : tracefn) (args : list aval)
| AIf (c : aval) (th : list aemit).

Definition Int1 : ty := TInt 1.
Definition Int8 : ty := TInt 8.
Definition Int32 : ty := TInt 32.
Definition Int64 : ty := TInt 64.
Definition Int8Ptr : ty := TPtr Int8.
Definition Int64Ptr : ty := TPtr Int64.

(** ** The pass object *)
Record config := Config {
  TrackMode : bool;
  DFSanMode : bool;
  ModId : Z;
  is_bc : bool;
  inst_ratio : Z;
  gen_id_random : bool;
  num_fn_ctx : Z;
}.
(** [FastMode] is set when neither option is given. *)
Definition FastMode (c : config) : bool := negb (TrackMode c) && negb (DFSanMode c).
(** The state that changes: the generator of identifiers, the calls of [random()]
    so far, the ids in use; and, of LLVM's builder, the next instruction and the
    code inserted at the current point. *)
Record ast := Ast {
  RandSeed : Z;
  randoms : nat;
  CidCounter : Z;
  UniqCidSet : gset Z;
  a_next : Z;
  a_code : list aemit;
}.
Definition ast_init (ModId : Z) : ast := Ast ModId 0 0 ∅ 0 [].
Definition set_seed (x : Z) (s : ast) : ast := Ast x (randoms s) (CidCounter s) (UniqCidSet s) (a_next s) (a_code s).
Definition set_randoms (x : nat) (s : ast) : ast := Ast (RandSeed s) x (CidCounter s) (UniqCidSet s) (a_next s) (a_code s).
Definition set_counter (x : Z) (s : ast) : ast := Ast (RandSeed s) (randoms s) x (UniqCidSet s) (a_next s) (a_code s).
Definition set_ids (x : gset Z) (s : ast) : ast := Ast (RandSeed s) (randoms s) (CidCounter s) x (a_next s) (a_code s).
Definition set_next (x : Z) (s : ast) : ast := Ast (RandSeed s) (randoms s) (CidCounter s) (UniqCidSet s) x (a_code s).
Definition set_acode (x : list aemit) (s : ast) : ast := Ast (RandSeed s) (randoms s) (CidCounter s) (UniqCidSet s) (a_next s) x.

(** ** Start-up of the pass *)

(** [hashName]: the size of the file is [tellg] at its end, -1 if it cannot be
    opened. *)
Definition hashName (fsize : Z) (str : list Z) : Z :=
  foldl (λ hash c, u32 (u32 (u32 (Z.shiftl hash 5) + hash) + c)) (u32 (5381 + u32 (u32 fsize * 223))) str.

(** The leading integer of a text, as [strtol] reads it. *)
Definition is_c_space (c : Ascii.ascii) : bool :=
  let n := Z.of_nat (Ascii.nat_of_ascii c) in (n =? 32) || (9 <=? n) && (n <=? 13).
Fixpoint digits (s : string) (acc : option Z) : option Z :=
  match s with
  | String c s' =>
      let n := Z.of_nat (Ascii.nat_of_ascii c) - 48 in
      if (0 <=? n) && (n <=? 9) then digits s' (Some (default 0 acc * 10 + n)) else acc
  | EmptyString => acc
  end.
Fixpoint leading_int (s : string) : option Z :=
  match s with
  | String c s' =>
      if is_c_space c then leading_int s'
      else if Ascii.eqb c "-"%char then Z.opp <$> digits s' None
      else if Ascii.eqb c "+"%char then digits s' None
      else digits s None
  | EmptyString => None
  end.
Definition atoi (s : string) : Z := s32 (default 0 (leading_int s)).
(** [sscanf(s, "%u", &x) == 1] *)
Definition sscanf_u (s : string) : option Z := u32 <$> leading_int s.

(** The environment variables the pass reads. *)
Record getenv := Getenv {
  ANGORA_INST_RATIO : option string;
  GEN_ID_RANDOM_VAR : option string;
  CUSTOM_FN_CTX : option string;
}.
Definition has {A} (x : option A) : bool := match x with Some _ => true | None => false end.
Definition ends_with (s e : string) : bool := String.eqb (String.substring (String.length s - String.length e) (String.length e) s) e.
Definition bytes_of_name (s : string) : list Z := (λ c, Z.of_nat (Ascii.nat_of_ascii c)) <$> String.list_ascii_of_string s.

(** [initVariables], up to the declarations it makes: [compare] at a position
    past the end throws. *)
Definition initVariables (track dfsan : bool) (ModName : string) (fsize : Z) (e : getenv) : M () config :=
  if String.eqb ModName "" then die "No ModName!" else
  let ModId := hashName fsize (bytes_of_name ModName) in
  bc ← (if (String.length ModName <? 3)%nat then terminate "std::out_of_range" else mret (ends_with ModName ".bc"));
  ratio ← match ANGORA_INST_RATIO e with
          | None => mret 100
          | Some s =>
              match sscanf_u s with
              | Some r => if (r =? 0) || (100 <? r) then die "Bad value of ANGORA_INST_RATIO" else mret r
              | None => die "Bad value of ANGORA_INST_RATIO"
              end
          end;
  ctx ← match CUSTOM_FN_CTX e with
        | None => mret (-1)
        | Some s =>
            let n := atoi s in
            if (n <? 0) || (32 <=? n) then die "custom context should be: >= 0 && < 32" else mret n
        end;
  mret (Config track dfsan ModId bc ratio (has (GEN_ID_RANDOM_VAR e)) ctx).

(** ** Identifiers *)
Section ids.
Context (cfg : config).

Definition getRandomNum : M ast Z :=
  s ← get;
  let x := u64 (RandSeed s * 1103515245 + 12345) in
  put (set_seed x s) ;; mret (u32 x).
Definition getRandomContextId : M ast Z := x ← getRandomNum; mret (x mod MAP_SIZE).
Definition getRandomInstructionId : M ast Z := getRandomNum.

(** [while (UniqCidSet.count(h) > 0) h = h * 3 + 1] *)
Fixpoint probe (fuel : nat) (h : Z) (ids : gset Z) : option Z :=
  match fuel with
  | O => None
  | S fuel => if decide (h ∈ ids) then probe fuel (u32 (h * 3 + 1)) ids else Some h
  end.
(** One more round than there are ids. *)
Definition unique_id (h : Z) : M ast Z :=
  s ← get;
  match probe (S (size (UniqCidSet s))) h (UniqCidSet s) with
  | Some h => put (set_ids ({[ h ]} ∪ UniqCidSet s) s) ;; mret h
  | None => out_of_fuel
  end.

Context {AE : AngoraEnv}.
Definition random : M ast Z :=
  s ← get; put (set_randoms (S (randoms s)) s) ;; mret (random_at (ModId cfg) (randoms s)).
Definition getRandomBasicBlockId : M ast Z := x ← random; mret (x mod MAP_SIZE).
Definition skipBasicBlock : M ast bool := x ← random; mret (inst_ratio cfg <=? x mod 100).

Definition getInstructionId (i : inst) : M ast Z :=
  if is_bc cfg then
    s ← get;
    let h := u32 (CidCounter s + 1) in
    put (set_counter h s) ;; mret h
  else
    h ← (if gen_id_random cfg then getRandomInstructionId
         else match getDebugLoc i with
              | Some (Line, Col) => mret (u32 (u32 (u32 (Col * 33 + Line) * 33) + ModId cfg))
              | None => getRandomInstructionId
              end);
    unique_id h.
End ids.

(** ** The builder *)
Section builder.
Context {AE : AngoraEnv}.
Definition aval_type (v : aval) : ty :=
  match v with
  | AProg v => v_type v
  | ATmp _ t => t
  | AConst w _ => TInt w
  | AArr _ => Int64Ptr
  end.
Definition emit (e : aemit) : M ast () := modify (λ s, set_acode (a_code s ++ [e]) s).
Definition def (t : ty) (o : aop) : M ast aval :=
  s ← get; put (set_next (a_next s + 1) s) ;; emit (ADef (a_next s) t o) ;; mret (ATmp (a_next s) t).
(** [CreateZExt], [CreateIntCast]: nothing is done at the same type. *)
Definition createZExt (v : aval) (w : Z) : M ast aval :=
  if match aval_type v with TInt w' => w' =? w | _ => false end then mret v else def (TInt w) (OZExt v).
Definition load (g : gvar) (t : ty) : M ast aval := def t (OLoad g).
(** [SplitBlockAndInsertIfThen] and the code built in the new block *)
Definition insert_if_then (c : aval) (th : M ast ()) : M ast () :=
  s ← get;
  put (set_acode [] s) ;; th ;;
  s' ← get;
  put (set_acode (a_code s ++ [AIf c (a_code s')]) s').
End builder.

(** ** Edges and calling contexts *)
Section visit.
Context (cfg : config) {AE : AngoraEnv}.

Definition countEdge : M ast () :=
  if negb (FastMode cfg) then mret () else
  skip ← skipBasicBlock cfg;
  if skip : bool then mret () else
  cur_loc ← getRandomBasicBlockId cfg;
  PrevLoc ← load GPrevLoc Int32;
  MapPtr ← load GMapPtr Int8Ptr;
  BrId ← def Int32 (OXor PrevLoc (AConst 32 cur_loc));
  MapPtrIdx ← def Int8Ptr (OGEP MapPtr BrId);
  Counter ← def Int8 (OLoadAt MapPtrIdx);
  Inc ← def Int8 (OAdd Counter (AConst 8 1));
  IsZero ← def Int1 (OICmpEQ Inc (AConst 8 0));
  IncVal ← createZExt IsZero 8;
  IncRet ← def Int8 (OAdd Inc IncVal);
  emit (AStoreAt IncRet MapPtrIdx) ;;
  NewPrevLoc ← (if negb (num_fn_ctx cfg =? 0) then
                  CtxVal ← load GContext Int32;
                  def Int32 (OXor CtxVal (AConst 32 (Z.shiftr cur_loc 1)))
                else mret (AConst 32 (Z.shiftr cur_loc 1)));
  emit (AStore NewPrevLoc GPrevLoc).

(** An instruction of a block: of the program, or inserted by [addFnWrap]. *)
Inductive slot := Orig (i : inst) | New (e : aemit).
(** The position of [getFirstInsertionPt]: behind the phi nodes and a landing pad. *)
Definition is_phi (i : inst) : bool := match i_kind i with IPhi _ => true | _ => false end.
Fixpoint first_insertion (l : list slot) : nat :=
  match l with
  | Orig i :: l => if is_phi i then S (first_insertion l) else if is_eh_pad i then 1 else 0
  | _ => 0
  end.
Definition insert_at (n : nat) (es : list aemit) (l : list slot) : list slot :=
  take n l ++ (New <$> es) ++ drop n l.
Definition leaves_fn (i : inst) : bool :=
  match i_kind i with IReturn _ | IResume => true | _ => false end.
(** Before the terminator of a block that leaves the function. *)
Fixpoint before_leave (es : list aemit) (l : list slot) : list slot :=
  match l with
  | [] => []
  | [Orig i] => if leaves_fn i then (New <$> es) ++ [Orig i] else [Orig i]
  | x :: l => x :: before_leave es l
  end.
(** What [addFnWrap] inserts at the entry and before every way out: with a number
    of contexts, [OriCtxVal] is the shifted value from then on. *)
Definition fn_wrap : M ast (list aemit * list aemit) :=
  s ← get;
  put (set_acode [] s) ;;
  CallSite ← load GCallSite Int32;
  OriCtxVal ← load GContext Int32;
  OriCtxVal ← (if 0 <? num_fn_ctx cfg then def Int32 (OLShr OriCtxVal (32 / num_fn_ctx cfg)) else mret OriCtxVal);
  UpdatedCtx ← def Int32 (OXor OriCtxVal CallSite);
  emit (AStore UpdatedCtx GContext) ;;
  s' ← get;
  put (set_acode (a_code s) s') ;;
  mret (a_code s', [AStore OriCtxVal GContext]).
Definition slots (b : block) : list slot := Orig <$> b_insts b.
Definition addFnWrap (bs : list block) : M ast (list (list slot)) :=
  if num_fn_ctx cfg =? 0 then mret (slots <$> bs) else
  '(pre, post) ← fn_wrap;
  mret (match slots <$> bs with
        | [] => []
        | entry :: rest => before_leave post <$> insert_at (first_insertion entry) pre entry :: rest
        end).

(** ** Comparisons *)
Definition castArgType (V : aval) : M ast aval :=
  match aval_type V with
  | TFp FpFloat => NV ← def Int32 (OFPToUI V); createZExt NV 64
  | TFp FpDouble => def Int64 (OFPToUI V)
  | TPtr _ => def Int64 (OPtrToInt V)
  | TInt w => if w <? 64 then def Int64 (OZExt V) else mret V
  | _ => mret V
  end.
(** [getScalarSizeInBits] *)
Definition scalar_bits (t : ty) : Z :=
  match match t with TVec e => e | _ => t end with
  | TInt w => w
  | TFp FpHalf => 16 | TFp FpFloat => 32 | TFp FpDouble => 64 | TFp FpOther => 80
  | _ => 0
  end.
Definition traced_type (t : ty) : bool :=
  match t with
  | TInt w => w <=? 64
  | TFp FpFloat | TFp FpDouble | TPtr _ => true
  | _ => false
  end.
Definition is_negative (v : val) : bool :=
  match v with VConst w n => 2 ^ (w - 1) <=? n | _ => false end.

(** The operands are reported when the condition is the one looked for. *)
Definition when_cond (Cid : Z) (th : M ast ()) : M ast () :=
  CurCid ← load GCondId Int32;
  CmpEq ← def Int1 (OICmpEQ (AConst 32 Cid) CurCid);
  insert_if_then CmpEq th.
Definition processBoolCmp (Cond : val) (Cid : Z) : M ast () :=
  match v_type Cond with
  | TInt w =>
      if 32 <? w then mret ()
      else if FastMode cfg then
        when_cond Cid
          (CondExt ← createZExt (AProg Cond) 32;
           Arg0 ← createZExt CondExt 64;
           CurCtx ← load GContext Int32;
           emit (ATrace TraceCmp [CondExt; AConst 32 Cid; CurCtx; Arg0; AConst 64 1]))
      else if TrackMode cfg then
        CondExt ← createZExt (AProg Cond) 32;
        Arg0 ← createZExt CondExt 64;
        CurCtx ← load GContext Int32;
        emit (ATrace TraceCmpTT [AConst 32 Cid; CurCtx; AConst 32 1; AConst 32 (Z.lor COND_EQ_OP COND_BOOL_MASK);
                                 Arg0; AConst 64 1; CondExt])
      else mret ()
  | _ => mret ()
  end.
Definition processCmp (i : inst) (predicate : Z) (a b : val) (Cid : Z) : M ast () :=
  let OpType := v_type a in
  let Cond := VInst (i_id i) in
  if negb (traced_type OpType) then processBoolCmp Cond Cid else
  let num_bytes := scalar_bits OpType / 8 in
  if (num_bytes =? 0) && negb (is_ptr OpType) then mret () else
  let num_bytes := if num_bytes =? 0 then 8 else num_bytes in
  if FastMode cfg then
    when_cond Cid
      (Arg0 ← castArgType (AProg a);
       Arg1 ← castArgType (AProg b);
       CondExt ← createZExt (AProg Cond) 32;
       CurCtx ← load GContext Int32;
       emit (ATrace TraceCmp [CondExt; AConst 32 Cid; CurCtx; Arg0; Arg1]))
  else if TrackMode cfg then
    let predicate := if is_negative b then Z.lor predicate COND_SIGN_MASK else predicate in
    CondExt ← createZExt (AProg Cond) 32;
    Arg0 ← castArgType (AProg a);
    Arg1 ← castArgType (AProg b);
    CurCtx ← load GContext Int32;
    emit (ATrace TraceCmpTT [AConst 32 Cid; CurCtx; AConst 32 num_bytes; AConst 32 predicate; Arg0; Arg1; CondExt])
  else mret ().
(** The code goes behind the comparison. *)
Definition visitCmpInst (i : inst) : M ast () :=
  match i_kind i with
  | ICompare _ _ predicate a b => Cid ← getInstructionId cfg i; processCmp i predicate a b Cid
  | _ => mret ()
  end.
(** A branch on a value that is not a comparison; [is_cmp] tells those apart. *)
Definition visitBranchInst (is_cmp : val → bool) (i : inst) : M ast () :=
  match i_kind i with
  | IBranch (Some Cond) =>
      let konst := match Cond with VConst _ _ => true | _ => false end in
      if is_int (v_type Cond) && negb konst && negb (is_cmp Cond) then
        Cid ← getInstructionId cfg i; processBoolCmp Cond Cid
      else mret ()
  | _ => mret ()
  end.
Definition visitSwitchInst (i : inst) : M ast () :=
  match i_kind i with
  | ISwitch Cond cases =>
      let konst := match Cond with VConst _ _ => true | _ => false end in
      if negb (is_int (v_type Cond) && negb konst) then mret () else
      let num_bits := scalar_bits (v_type Cond) in
      let num_bytes := num_bits / 8 in
      if (num_bytes =? 0) || (0 <? num_bits mod 8) then mret () else
      Cid ← getInstructionId cfg i;
      if FastMode cfg then
        when_cond Cid
          (CondExt ← createZExt (AProg Cond) 64;
           CurCtx ← load GContext Int32;
           emit (ATrace TraceSw [AConst 32 Cid; CurCtx; CondExt]))
      else if TrackMode cfg then
        let ArgList := if 64 <? num_bits then [] else cases in
        CondExt ← createZExt (AProg Cond) 64;
        CurCtx ← load GContext Int32;
        emit (ATrace TraceSwTT [AConst 32 Cid; CurCtx; AConst 32 num_bytes; CondExt;
                                AConst 32 (Z.of_nat (length ArgList)); AArr ArgList])
      else mret ()
  | _ => mret ()
  end.

(** ** Calls *)
Definition exploit_param (i : inst) (p : val) : M ast () :=
  if negb (is_int (v_type p) || is_ptr (v_type p)) then mret () else
  if match p with VConst _ _ => true | _ => false end then mret () else
  Cid ← getInstructionId cfg i;
  let size := if is_ptr (v_type p) then 8 else scalar_bits (v_type p) / 8 in
  ParamVal ← (if is_ptr (v_type p) then mret (AProg p) else createZExt (AProg p) 64);
  if TrackMode cfg then
    CurCtx ← load GContext Int32;
    emit (ATrace TraceExploitTT [AConst 32 Cid; CurCtx; AConst 32 size;
                                 AConst 32 (Z.lor COND_EXPLOIT_MASK (getOpcode i)); ParamVal])
  else mret ().
Definition visitExploitation (i : inst) : M ast () :=
  let exploit_all := isIn i ExploitCategoryAll in
  let params := match i_kind i with ICall _ _ args false => args | _ => getOperand i end in
  for_each (zip (take MAX_EXPLOIT_CATEGORY params) ExploitCategory)
    (λ x, if exploit_all || isIn i x.2 then exploit_param i x.1 else mret ()).
(** [getArgOperand] asserts that the argument exists. *)
Definition visitCompareFunc (i : inst) : M ast () :=
  match i_kind i with
  | ICall _ _ args false =>
      if negb (isIn i CompareFuncCat) then mret () else
      Cid ← getInstructionId cfg i;
      if negb (TrackMode cfg) then mret () else
      match args with
      | a :: b :: rest =>
          if negb (is_ptr (v_type a) && is_ptr (v_type b)) then mret () else
          let ArgSize := match rest with n :: _ => AProg n | [] => AConst 32 0 end in
          CurCtx ← load GContext Int32;
          emit (ATrace TraceFnTT [AConst 32 Cid; CurCtx; ArgSize; AProg a; AProg b])
      | _ => assert_ "getArgOperand" false
      end
  | _ => mret ()
  end.
Definition processCall (i : inst) : M ast () :=
  visitCompareFunc i ;;
  visitExploitation i ;;
  if negb (num_fn_ctx cfg =? 0) then
    c ← getRandomContextId; emit (AStore (AConst 32 c) GCallSite)
  else mret ().
Definition unfold_fn : string := "__unfold_branch_fn".
(** [true]: the call is erased. *)
Definition visitCallInst (F : func) (i : inst) : M ast bool :=
  match i_kind i with
  | ICall (CalleeFun f) _ _ _ =>
      if String.eqb f unfold_fn then mret (bool_decide (users F (i_id i) = []))
      else processCall i ;; mret false
  | _ => mret false
  end.
Definition visitInvokeInst (i : inst) : M ast () :=
  match i_kind i with ICall (CalleeFun _) _ _ _ => processCall i | _ => mret () end.
End visit.

(** ** The walk over the module *)

(** What became of an instruction, with the code inserted before and behind it. *)
Record aitem := AItem { ai_before : list aemit; ai_slot : slot; ai_after : list aemit; ai_erased : bool }.
Definition item_code (x : aitem) : list slot :=
  (New <$> ai_before x) ++ (if ai_erased x then [] else [ai_slot x]) ++ (New <$> ai_after x).
Definition block_code (l : list aitem) : list slot := concat (item_code <$> l).

Section walk.
Context (cfg : config) {AE : AngoraEnv} (F : func).

Definition is_compare (i : inst) : bool := match i_kind i with ICompare _ _ _ _ _ => true | _ => false end.
Definition is_cmp (v : val) : bool :=
  existsb (λ i, is_compare i && bool_decide (VInst (i_id i) = v)) (insts F).
(** The code built since the last call. *)
Definition built : M ast (list aemit) := s ← get; put (set_acode [] s) ;; mret (a_code s).
(** [Inst == &*BB->getFirstInsertionPt()], of the block as it is by then *)
Definition at_first (done : list aitem) (i : inst) : bool :=
  Nat.eqb (first_insertion (block_code done ++ [Orig i])) (length (block_code done)).
Definition dispatch (i : inst) : M ast bool :=
  match i_kind i with
  | ICall _ _ _ false | IMemSet _ _ _ | IMemTransfer _ _ _ => visitCallInst cfg F i
  | ICall _ _ _ true => visitInvokeInst cfg i ;; mret false
  | IBranch _ => visitBranchInst cfg is_cmp i ;; mret false
  | ISwitch _ _ => visitSwitchInst cfg i ;; mret false
  | ICompare _ _ _ _ _ => visitCmpInst cfg i ;; mret false
  | _ => visitExploitation cfg i ;; mret false
  end.
Definition visit_slot (done : list aitem) (x : slot) : M ast aitem :=
  match x with
  | New _ => mret (AItem [] x [] false)
  | Orig i =>
      if i_nosanitize i then mret (AItem [] x [] false) else
      (if at_first done i then countEdge cfg else mret ()) ;;
      edge ← built;
      erased ← dispatch i;
      code ← built;
      mret (if is_compare i then AItem edge x code erased else AItem (edge ++ code) x [] erased)
  end.
Fixpoint visit_block (done : list aitem) (l : list slot) : M ast (list aitem) :=
  match l with
  | [] => mret done
  | x :: l => y ← visit_slot done x; visit_block (done ++ [y]) l
  end.
Fixpoint visit_all (bs : list (list slot)) : M ast (list (list slot)) :=
  match bs with
  | [] => mret []
  | b :: bs => items ← visit_block [] b; rest ← visit_all bs; mret (block_code items :: rest)
  end.
Definition runOnFunction : M ast (list (list slot)) :=
  if bool_decide (fn_blocks F = []) || String.prefix "asan.module" (fn_name F) then mret (slots <$> fn_blocks F) else
  bs ← addFnWrap cfg (fn_blocks F);
  visit_all bs.
End walk.
Fixpoint run_functions (cfg : config) {AE : AngoraEnv} (fs : list func) : M ast (list (list (list slot))) :=
  match fs with
  | [] => mret []
  | F :: fs => x ← runOnFunction cfg F; rest ← run_functions cfg fs; mret (x :: rest)
  end.
Definition runOnModule (cfg : config) {AE : AngoraEnv} (fs : list func) : M ast (list (list (list slot))) :=
  if DFSanMode cfg then mret ((λ F, slots <$> fn_blocks F) <$> fs) else run_functions cfg fs.

(** ** The unfolding pass ([UnfoldBranchPass.cc]) *)
Section unfold.
Context (succs : inst → list Z) (rnd : nat → Z) (fresh_id : nat → Z).
(** The targets of conditional branches, each once. *)
Fixpoint new_targets (ids : list Z) (seen : gset Z) : list Z * gset Z :=
  match ids with
  | [] => ([], seen)
  | b :: ids =>
      if decide (b ∈ seen) then new_targets ids seen
      else let '(l, seen) := new_targets ids ({[ b ]} ∪ seen) in (b :: l, seen)
  end.
Definition branch_targets (b : block) : list Z :=
  match last (b_insts b) with
  | Some i =>
      match i_kind i with
      | IBranch (Some _) => if (length (succs i) <? 2)%nat then [] else succs i
      | _ => []
      end
  | None => []
  end.
Definition VisitedBB (bs : list block) : list Z := (new_targets (concat (branch_targets <$> bs)) ∅).1.
(** The call inserted at the [n]th of them, of the unfold function with a random
    number. *)
Definition unfold_call (n : nat) : inst :=
  Inst (fresh_id n) TVoid
    (ICall (CalleeFun unfold_fn) (TFun TVoid [Int32] false) [VConst 32 (rnd n mod 1048576)] false) false.
Definition unfold_block {AE : AngoraEnv} (targets : list Z) (b : block) : block :=
  match list_find (b_id b =.) targets with
  | Some (n, _) =>
      let at_ := first_insertion (slots b) in
      Block (b_id b) (take at_ (b_insts b) ++ [unfold_call n] ++ drop at_ (b_insts b))
  | None => b
  end.
(** [ENABLE_UNFOLD_BRANCH] is defined. *)
Definition UnfoldBranch {AE : AngoraEnv} (F : func) : func :=
  Func (fn_name F) (fn_ty F) (unfold_block (VisitedBB (fn_blocks F)) <$> fn_blocks F).
End unfold.
