(* ===== verification/AngoraIds.v ===== *)
(** * Identifiers of instructions

    The identifiers the coverage pass gives to comparisons are unique in a module:
    where one is taken, it walks along [h * 3 + 1] modulo 2^32 to a free one. All
    walks of less than 2^31 steps meet different numbers, so the loop ends while
    less than 2^31 identifiers are in use. *)
From S2P Require Import Prelude Ir Angora.

(** ** The order of 3 *)
Lemma pow9 (k : nat) : ∃ r, 9 ^ Z.of_nat k = 1 + 8 * r.
Proof.
  induction k as [|k [r IH]]; [by exists 0|]. exists (9 * r + 1).
  rewrite Nat2Z.inj_succ, Z.pow_succ_r, IH by lia. ring.
Qed.
Lemma pow81 (k : nat) : ∃ r, 81 ^ Z.of_nat k = 1 + 16 * r.
Proof.
  induction k as [|k [r IH]]; [by exists 0|]. exists (81 * r + 5).
  rewrite Nat2Z.inj_succ, Z.pow_succ_r, IH by lia. ring.
Qed.
(** [3^d - 1] has at most as many factors 2 as [4 d]. *)
Lemma pow3_val d : 0 < d → ∃ v q, 3 ^ d = 1 + 2 ^ v * (2 * q + 1) ∧ 1 ≤ v ∧ 2 ^ v ≤ 4 * d ∧ (Z.even d = true → 3 ≤ v).
Proof.
  intros Hd. assert (0 ≤ d) as Hd0 by lia. revert Hd. pattern d. apply Zlt_0_ind; [|done]. clear d Hd0.
  intros d IH _ Hd. destruct (Z.even d) eqn:He.
  - apply Z.even_spec in He as [d' ->]. assert (3 ^ (2 * d') = 3 ^ d' * 3 ^ d') as Hsq
      by (rewrite <-Z.pow_add_r by lia; f_equal; lia).
    destruct (Z.even d') eqn:He'.
    + destruct (IH d' ltac:(lia) ltac:(lia)) as (v & q & Hv & Hv1 & Hle & Hv3). specialize (Hv3 He').
      exists (v + 1), (q + 2 ^ (v - 2) * ((2 * q + 1) * (2 * q + 1))). rewrite Hsq, Hv, Z.pow_add_r by lia.
      change (2 ^ 1) with 2. split_and!; [|lia|lia|lia].
      replace v with (v - 2 + 2) by lia. rewrite !Z.pow_add_r by lia. change (2 ^ 2) with 4.
      replace (v - 2 + 2 - 2) with (v - 2) by lia. ring.
    + assert (Z.Odd d') as [k Hk] by (apply Z.odd_spec; by rewrite <-Z.negb_even, He').
      destruct (pow81 (Z.to_nat k)) as [r Hr]. rewrite Z2Nat.id in Hr by lia. exists 3, (9 * r).
      split_and!; [|lia|lia|lia]. replace (2 * d') with (2 * (2 * k + 1)) by lia.
      rewrite Z.pow_mul_r by lia. change (3 ^ 2) with 9. rewrite Z.pow_add_r, Z.pow_mul_r by lia.
      change (9 ^ 2) with 81. rewrite Hr. change (2 ^ 3) with 8. ring.
  - assert (Z.Odd d) as [k Hk] by (apply Z.odd_spec; by rewrite <-Z.negb_even, He).
    destruct (pow9 (Z.to_nat k)) as [r Hr]. rewrite Z2Nat.id in Hr by lia. exists 1, (6 * r).
    split_and!; [|lia|lia|done]. rewrite Hk, Z.pow_add_r, Z.pow_mul_r by lia.
    change (3 ^ 2) with 9. rewrite Hr. ring.
Qed.
Lemma order3 d : 0 < d < 2 ^ 31 → 3 ^ d mod 2 ^ 33 ≠ 1.
Proof.
  intros Hd H. destruct (pow3_val d) as (v & q & Hv & Hv1 & Hle & _); [lia|].
  assert (v < 33) as Hv33. { apply (Z.pow_lt_mono_r_iff 2); lia. }
  pose proof (Z.div_mod (3 ^ d) (2 ^ 33) ltac:(lia)) as Hdiv. rewrite H in Hdiv.
  set (x := 3 ^ d / 2 ^ 33) in *. assert (2 ^ v * (2 * q + 1) = 2 ^ 33 * x) as He by lia.
  replace 33 with (v + (33 - v)) in He by lia. rewrite Z.pow_add_r, <-Z.mul_assoc in He by lia.
  apply Z.mul_reg_l in He; [|lia]. replace (33 - v) with (1 + (32 - v)) in He by lia.
  rewrite Z.pow_add_r in He by lia. change (2 ^ 1) with 2 in He. lia.
Qed.

(** ** The walk *)
Definition step3 (h : Z) : Z := u32 (h * 3 + 1).
Lemma step3_iter (k : nat) h : ∃ q, 2 * Nat.iter k step3 h + 1 = 3 ^ Z.of_nat k * (2 * h + 1) + 2 ^ 33 * q.
Proof.
  induction k as [|k [q IH]]; [exists 0; simpl; lia|]. set (x := Nat.iter k step3 h) in *.
  change (Nat.iter (S k) step3 h) with (step3 x).
  exists (3 * q - (x * 3 + 1) / 2 ^ 32). rewrite Nat2Z.inj_succ, Z.pow_succ_r by lia.
  assert (step3 x = x * 3 + 1 - 2 ^ 32 * ((x * 3 + 1) / 2 ^ 32)) as ->
    by (unfold step3, u32, wrap; rewrite Z.mod_eq by lia; done).
  assert (2 * (x * 3 + 1 - 2 ^ 32 * ((x * 3 + 1) / 2 ^ 32)) + 1 =
          3 * (2 * x + 1) - 2 ^ 33 * ((x * 3 + 1) / 2 ^ 32)) as -> by (change (2 ^ 33) with (2 * 2 ^ 32); ring).
  rewrite IH. ring.
Qed.
Lemma odd_cancel (n : nat) a b : (2 ^ Z.of_nat n | a * (2 * b + 1)) → (2 ^ Z.of_nat n | a).
Proof.
  revert a. induction n as [|n IH]; intros a [q Hq]; [exists a; simpl; lia|].
  rewrite Nat2Z.inj_succ, Z.pow_succ_r in * by lia.
  assert (Z.Even a) as [a' ->].
  { apply Z.even_spec. destruct (Z.even a) eqn:Ha; [done|].
    assert (Z.Odd a) as [k ->] by (apply Z.odd_spec; by rewrite <-Z.negb_even, Ha). lia. }
  destruct (IH a') as [r ->]; [exists q; lia|]. exists r. ring.
Qed.
Lemma odd_pow3 k : 0 ≤ k → ∃ r, 3 ^ k = 2 * r + 1.
Proof.
  intros Hk. assert (Z.Odd (3 ^ k)) as [r Hr]; [|by exists r].
  apply Z.odd_spec. destruct (Z.eq_dec k 0) as [->|Hne]; [done|]. by rewrite Z.odd_pow by lia.
Qed.
Lemma iter_distinct h (i j : nat) :
  (i < j)%nat → Z.of_nat j < 2 ^ 31 → Nat.iter i step3 h ≠ Nat.iter j step3 h.
Proof.
  intros Hij Hj He. destruct (step3_iter i h) as [p Hp], (step3_iter j h) as [q Hq]. rewrite He in Hp.
  set (d := Z.of_nat j - Z.of_nat i). assert (Z.of_nat j = Z.of_nat i + d) as Hd by lia.
  destruct (odd_pow3 (Z.of_nat i) ltac:(lia)) as [r Hr].
  rewrite Hd, Z.pow_add_r in Hq by lia.
  assert ((2 ^ Z.of_nat 33 | 3 ^ d - 1)) as [x Hx].
  { apply (odd_cancel 33 _ h), (odd_cancel 33 _ r). exists (p - q). rewrite <-Hr. change (Z.of_nat 33) with 33. lia. }
  apply (order3 d); [lia|]. replace (3 ^ d) with (1 + x * 2 ^ 33) by (change (Z.of_nat 33) with 33 in Hx; lia).
  by rewrite Z.mod_add.
Qed.
Lemma probe_spec fuel h ids :
  match probe fuel h ids with
  | Some x => x ∉ ids ∧ (h ∉ ids → x = h) ∧ ∃ k, x = Nat.iter k step3 h
  | None => ∀ k : nat, (k < fuel)%nat → Nat.iter k step3 h ∈ ids
  end.
Proof.
  revert h. induction fuel as [|fuel IH]; intros h; [intros k; lia|]. cbn [probe]. destruct (decide (h ∈ ids)) as [Hin|Hout].
  - specialize (IH (step3 h)). change (u32 (h * 3 + 1)) with (step3 h).
    assert (∀ k, Nat.iter k step3 (step3 h) = Nat.iter (S k) step3 h) as Hi by (intros k; by rewrite <-Nat.iter_succ_r).
    destruct (probe fuel (step3 h) ids) as [x|].
    + destruct IH as (Hx & _ & k & ->). split_and!; [done|done|]. exists (S k). apply Hi.
    + intros [|k] Hk; [done|]. rewrite <-Hi. apply IH. lia.
  - split_and!; [done|done|by exists 0%nat].
Qed.
Lemma probe_found h ids : Z.of_nat (size ids) < 2 ^ 31 → ∃ x, probe (S (size ids)) h ids = Some x ∧ x ∉ ids ∧ (h ∉ ids → x = h).
Proof.
  intros Hs. pose proof (probe_spec (S (size ids)) h ids) as Hp. destruct (probe _ h ids) as [x|]; [exists x; naive_solver|].
  exfalso. set (l := (λ k, Nat.iter k step3 h) <$> seq 0 (S (size ids))).
  assert (NoDup l) as Hnd.
  { apply NoDup_fmap_2_strong; [|apply NoDup_seq]. intros i j Hi Hj He. apply elem_of_seq in Hi, Hj.
    destruct (lt_eq_lt_dec i j) as [[Hl|Hl]|Hl]; [|done|].
    - by destruct (iter_distinct h i j Hl ltac:(lia)).
    - by destruct (iter_distinct h j i Hl ltac:(lia)). }
  assert (list_to_set (C:=gset Z) l ⊆ ids) as Hsub.
  { intros x Hx. apply elem_of_list_to_set, list_elem_of_fmap in Hx as (k & -> & Hk). apply elem_of_seq in Hk. apply Hp. lia. }
  apply subseteq_size in Hsub. rewrite size_list_to_set in Hsub by done. unfold l in Hsub.
  rewrite length_fmap, length_seq in Hsub. lia.
Qed.

(** ** The identifiers of a module *)
Lemma getRandomNum_run s :
  getRandomNum s = let x := u64 (RandSeed s * 1103515245 + 12345) in Ret (u32 x) (set_seed x s).
Proof. done. Qed.
Section requests.
Context (cfg : config) {AE : AngoraEnv}.

(** The identifiers of a sequence of requests. *)
Fixpoint instruction_ids (l : list inst) : M ast (list Z) :=
  match l with
  | [] => mret []
  | i :: l => id ← getInstructionId cfg i; ids ← instruction_ids l; mret (id :: ids)
  end.
(** The identifiers given out: counted in bitcode mode, else the set. *)
Definition given (s : ast) (ids : gset Z) : Prop :=
  if is_bc cfg then CidCounter s = Z.of_nat (size ids) ∧ ∀ x, x ∈ ids ↔ 1 ≤ x ≤ CidCounter s
  else UniqCidSet s = ids.
Lemma unique_id_run h s :
  Z.of_nat (size (UniqCidSet s)) < 2 ^ 31 → in_range 32 h →
  ∃ x, unique_id h s = Ret x (set_ids ({[ x ]} ∪ UniqCidSet s) s) ∧ x ∉ UniqCidSet s ∧ (h ∉ UniqCidSet s → x = h) ∧ in_range 32 x.
Proof.
  intros Hs Hh. destruct (probe_found h (UniqCidSet s) Hs) as (x & Hp & Hx & Hsame). exists x.
  split_and!; [unfold unique_id; by rewrite bind_get, Hp|done|done|].
  pose proof (probe_spec (S (size (UniqCidSet s))) h (UniqCidSet s)) as H. rewrite Hp in H.
  destruct H as (_ & _ & [|k] & ->); [done|]. cbn. unfold step3, in_range, u32, wrap. apply Z.mod_pos_bound. lia.
Qed.
Lemma getInstructionId_run i s ids :
  given s ids → Z.of_nat (size ids) < 2 ^ 31 - 1 →
  ∃ x s', getInstructionId cfg i s = Ret x s' ∧ x ∉ ids ∧ in_range 32 x ∧ given s' ({[ x ]} ∪ ids).
Proof.
  unfold given, getInstructionId. destruct (is_bc cfg).
  - intros [Hc Hi] Hsz. rewrite bind_get. unfold u32. rewrite wrap_small by (unfold in_range; lia).
    eexists _, _. split; [reflexivity|]. cbn [CidCounter set_counter].
    assert (CidCounter s + 1 ∉ ids) as Hout by (rewrite Hi; lia). split_and!; [done|unfold in_range; lia| |].
    + rewrite size_union by set_solver. rewrite size_singleton. lia.
    + intros x. rewrite elem_of_union, elem_of_singleton, Hi. lia.
  - intros <- Hsz. assert (∀ h s1, UniqCidSet s1 = UniqCidSet s → in_range 32 h →
      ∃ x s', unique_id h s1 = Ret x s' ∧ x ∉ UniqCidSet s ∧ in_range 32 x ∧ UniqCidSet s' = {[ x ]} ∪ UniqCidSet s) as Hun.
    { intros h s1 He Hh. rewrite <-He in *. destruct (unique_id_run h s1) as (x & Hr & Hx & _ & Hx32); [lia|done|].
      by exists x, (set_ids ({[ x ]} ∪ UniqCidSet s1) s1). }
    assert (∀ x, in_range 32 (u32 x)) as H32 by (intros x; unfold in_range, u32, wrap; apply Z.mod_pos_bound; lia).
    assert (∃ h s1, (if gen_id_random cfg then getRandomInstructionId
         else match getDebugLoc i with
              | Some (Line, Col) => mret (u32 (u32 (u32 (Col * 33 + Line) * 33) + ModId cfg))
              | None => getRandomInstructionId
              end) s = Ret h s1 ∧ UniqCidSet s1 = UniqCidSet s ∧ in_range 32 h) as (h & s1 & Hr & He & Hh).
    { destruct (gen_id_random cfg); [|destruct (getDebugLoc i) as [[Line Col]|]].
      all: unfold getRandomInstructionId; rewrite ?getRandomNum_run; eexists _, _; split; [reflexivity|]; split; [done|apply H32]. }
    rewrite (bind_run _ _ _ _ _ Hr). by apply Hun.
Qed.
Lemma instruction_ids_run l s ids :
  given s ids → Z.of_nat (size ids) + Z.of_nat (length l) < 2 ^ 31 →
  ∃ xs s', instruction_ids l s = Ret xs s' ∧ length xs = length l ∧ NoDup xs ∧ Forall (λ x, x ∉ ids ∧ in_range 32 x) xs.
Proof.
  revert s ids. induction l as [|i l IH]; intros s ids Hg Hs; cbn [instruction_ids].
  { exists [], s. split_and!; [done|done|constructor|constructor]. }
  cbn [length] in Hs. destruct (getInstructionId_run i s ids Hg) as (x & s1 & Hr & Hx & H32 & Hg1); [lia|].
  rewrite (bind_run _ _ _ _ _ Hr).
  destruct (IH s1 ({[ x ]} ∪ ids) Hg1) as (xs & s2 & Hr2 & Hl & Hnd & Hf).
  { rewrite size_union, size_singleton by set_solver. lia. }
  rewrite (bind_run _ _ _ _ _ Hr2). exists (x :: xs), s2. split_and!; [done|simpl; lia| |].
  - constructor; [|done]. intros Hin. pose proof (proj1 (Forall_forall _ _) Hf x Hin) as [Hn _]. set_solver.
  - constructor; [done|]. eapply Forall_impl; [exact Hf|]. intros y [Hy ?]. split; [set_solver|done].
Qed.
End requests.

(** C23: the identifiers of comparisons are unique. For less than 2^31 requests,
    from bitcode (a counter), from debug locations or from the generator,
    [getInstructionId] returns every time, although its loop has no bound of its
    own, and gives 32-bit numbers that are all different. *)
Theorem instruction_ids_unique cfg {AE : AngoraEnv} l :
  Z.of_nat (length l) < 2 ^ 31 →
  ∃ ids s', instruction_ids cfg l (ast_init (ModId cfg)) = Ret ids s' ∧
    length ids = length l ∧ NoDup ids ∧ Forall (in_range 32) ids.
Proof.
  intros Hl. destruct (instruction_ids_run cfg l (ast_init (ModId cfg)) ∅) as (ids & s' & Hr & Hlen & Hnd & Hf).
  - unfold given. destruct (is_bc cfg); [|done]. split; [done|]. intros x. cbn. split; [by intros ?%not_elem_of_empty|lia].
  - by rewrite size_empty.
  - exists ids, s'. split_and!; [done..|]. eapply Forall_impl; [exact Hf|]. by intros x [_ ?].
Qed.
(** Three comparisons of the same line and column: the second and the third move on. *)
Definition plain_angora : AngoraEnv := {|
  v_type v := match v with VConst w _ => TInt w | VInst 1 => TInt 1 | VInst 9 => TInt 128 | _ => TInt 32 end;
  getOperand i := operands (i_kind i);
  getOpcode _ := 32;
  getOpcodeName _ := "load"%string;
  is_eh_pad _ := false;
  getDebugLoc _ := Some (1, 2);
  inSection _ q c := String.eqb q "memcmp" && String.eqb c "cmpfn";
  random_at _ n := Z.of_nat n mod 2 ^ 31;
  random_range _ n := Z.mod_pos_bound (Z.of_nat n) (2 ^ 31) eq_refl;
|}.
Lemma instruction_ids_unique_witness :
  let i := Inst 1 (TInt 1) (ICompare true 53 32 (VArgument 0) (VArgument 1)) false in
  let cfg := Config false false 7 false 100 false (-1) in
  ∃ ids s', instruction_ids (AE:=plain_angora) cfg [i; i; i] (ast_init 7) = Ret ids s' ∧ NoDup ids ∧ ids = [2218; 6655; 19966].
Proof.
  intros i cfg. destruct (instruction_ids_unique (AE:=plain_angora) cfg [i; i; i] ltac:(simpl; lia)) as (ids & s' & Hr & _ & Hnd & _).
  exists ids, s'. split_and!; [exact Hr|exact Hnd|]. vm_compute in Hr. by injection Hr as <- _.
Defined.
