(* ===== verification/AngoraSpec.v ===== *)
(** * What the coverage pass does to a program

    The pass only inserts code. That code counts edges inside the shared map,
    whatever the program does, and keeps the calling context; the calls that
    [UnfoldBranchPass.cc] added are gone afterwards. *)
From S2P Require Import Prelude Ir Angora AngoraIds.

(** ** Shape of the output *)
Create HintDb builds discriminated.
Section shape.
Context (cfg : config) {AE : AngoraEnv}.

(** Code that reports to the runtime: definitions of values from [lo] on and traces. *)
Fixpoint quiet (lo : Z) (e : aemit) : Prop :=
  match e with
  | ADef d _ _ => lo ≤ d
  | ATrace _ _ => True
  | AIf _ th => (fix all l := match l with [] => True | e :: l => quiet lo e ∧ all l end) th
  | _ => False
  end.
Lemma quiet_if lo c th : quiet lo (AIf c th) ↔ Forall (quiet lo) th.
Proof. cbn. induction th as [|e th IH]; [by split|]. rewrite Forall_cons. by rewrite IH. Qed.
(** The code that counts an edge to the block [cur], from the values [n] on. *)
Definition edge_code (n cur : Z) : list aemit :=
  let n1 := n + 1 in let n2 := n1 + 1 in let n3 := n2 + 1 in let n4 := n3 + 1 in let n5 := n4 + 1 in
  let n6 := n5 + 1 in let n7 := n6 + 1 in let n8 := n7 + 1 in let n9 := n8 + 1 in let n10 := n9 + 1 in
  [ADef n Int32 (OLoad GPrevLoc);
   ADef n1 Int8Ptr (OLoad GMapPtr);
   ADef n2 Int32 (OXor (ATmp n Int32) (AConst 32 cur));
   ADef n3 Int8Ptr (OGEP (ATmp n1 Int8Ptr) (ATmp n2 Int32));
   ADef n4 Int8 (OLoadAt (ATmp n3 Int8Ptr));
   ADef n5 Int8 (OAdd (ATmp n4 Int8) (AConst 8 1));
   ADef n6 Int1 (OICmpEQ (ATmp n5 Int8) (AConst 8 0));
   ADef n7 Int8 (OZExt (ATmp n6 Int1));
   ADef n8 Int8 (OAdd (ATmp n5 Int8) (ATmp n7 Int8));
   AStoreAt (ATmp n8 Int8) (ATmp n3 Int8Ptr)] ++
  (if num_fn_ctx cfg =? 0 then [AStore (AConst 32 (Z.shiftr cur 1)) GPrevLoc]
   else [ADef n9 Int32 (OLoad GContext);
         ADef n10 Int32 (OXor (ATmp n9 Int32) (AConst 32 (Z.shiftr cur 1)));
         AStore (ATmp n10 Int32) GPrevLoc]).
(** Code inserted at an instruction. *)
Inductive chunk (lo : Z) : list aemit → Prop :=
| chunk_nil : chunk lo []
| chunk_quiet e l : quiet lo e → chunk lo l → chunk lo (e :: l)
| chunk_site c l : 0 ≤ c < MAP_SIZE → num_fn_ctx cfg ≠ 0 → chunk lo l → chunk lo (AStore (AConst 32 c) GCallSite :: l)
| chunk_edge n cur l :
    lo ≤ n → 0 ≤ cur < MAP_SIZE → FastMode cfg = true → chunk lo l → chunk lo (edge_code n cur ++ l).
Lemma chunk_app lo l1 l2 : chunk lo l1 → chunk lo l2 → chunk lo (l1 ++ l2).
Proof.
  induction 1; intros; [done|apply chunk_quiet; auto|apply chunk_site; auto|].
  rewrite <-app_assoc. apply chunk_edge; auto.
Qed.
Lemma chunk_quiets lo l : Forall (quiet lo) l → chunk lo l.
Proof. induction 1; [constructor|by apply chunk_quiet]. Qed.

(** ** Builders insert chunks *)

(** [m] appends code of the kind [P] to the current code, and takes fresh values. *)
Definition builds {A} (P : Z → list aemit → Prop) (m : M ast A) : Prop :=
  ∀ s, match m s with
       | Ret _ s' => a_next s ≤ a_next s' ∧ ∃ es, a_code s' = a_code s ++ es ∧ P (a_next s) es
       | _ => True
       end.
Definition quiets (lo : Z) (l : list aemit) : Prop := Forall (quiet lo) l.
Class code_kind (P : Z → list aemit → Prop) : Prop := {
  kind_nil lo : P lo [];
  kind_app lo l1 l2 : P lo l1 → P lo l2 → P lo (l1 ++ l2);
  kind_mono lo lo' l : lo ≤ lo' → P lo' l → P lo l;
  kind_quiet lo l : quiets lo l → P lo l;
}.
Lemma quiet_mono lo lo' e : lo ≤ lo' → quiet lo' e → quiet lo e.
Proof.
  intros Hl. revert e. fix IH 1. intros [d t o|v g|v p|f args|c th]; cbn; [lia|done|done|done|].
  induction th as [|e th IHth]; [done|]. intros [H1 H2]. split; [by apply IH|by apply IHth].
Qed.
#[export] Instance quiets_kind : code_kind quiets.
Proof.
  split.
  - intros lo. apply Forall_nil_2.
  - intros lo l1 l2. apply Forall_app_2.
  - intros lo lo' l Hl H. eapply Forall_impl; [exact H|]. intros e. by apply quiet_mono.
  - done.
Qed.
#[export] Instance chunk_kind : code_kind chunk.
Proof.
  split; [constructor|apply chunk_app| |apply chunk_quiets].
  intros lo lo' l Hl. induction 1; [constructor|apply chunk_quiet; [by eapply quiet_mono|done]|by apply chunk_site|apply chunk_edge; [lia|done..]].
Qed.
Context (P : Z → list aemit → Prop) {K : code_kind P}.
Lemma builds_ret {A} (a : A) : builds P (mret a).
Proof. intros s. cbn. split; [lia|]. exists []. split; [by rewrite app_nil_r|apply kind_nil]. Qed.
Lemma builds_bind {A B} (m : M ast A) (f : A → M ast B) : builds P m → (∀ a, builds P (f a)) → builds P (m ≫= f).
Proof.
  intros Hm Hf s. unfold mbind, M_bind. specialize (Hm s). destruct (m s) as [a s1| |]; [|done..].
  destruct Hm as (Hn & es & Hc & He). specialize (Hf a s1). destruct (f a s1) as [b s2| |]; [|done..].
  destruct Hf as (Hn2 & es2 & Hc2 & He2). split; [lia|]. exists (es ++ es2).
  split; [by rewrite Hc2, Hc, app_assoc|]. apply kind_app; [done|by eapply kind_mono].
Qed.
(** Operations that do not build. *)
Lemma builds_still {A} (m : M ast A) :
  (∀ s, match m s with Ret _ s' => a_next s' = a_next s ∧ a_code s' = a_code s | _ => True end) → builds P m.
Proof.
  intros H s. specialize (H s). destruct (m s) as [a s'| |]; [|done..]. destruct H as [-> ->]. split; [lia|].
  exists []. split; [by rewrite app_nil_r|apply kind_nil].
Qed.
Lemma builds_def t o : builds P (def t o).
Proof.
  intros s. split; [change (a_next s ≤ a_next s + 1); lia|]. exists [ADef (a_next s) t o]. split; [done|]. apply kind_quiet.
  apply Forall_cons_2; [apply Z.le_refl|apply Forall_nil_2].
Qed.
Lemma builds_trace f args : builds P (emit (ATrace f args)).
Proof.
  intros s. split; [apply Z.le_refl|]. exists [ATrace f args]. split; [done|]. apply kind_quiet. by apply Forall_cons_2; [|apply Forall_nil_2].
Qed.
Lemma builds_if c th : builds quiets th → builds P (insert_if_then c th).
Proof.
  intros Hth s. unfold insert_if_then. rewrite bind_get. unfold mbind, M_bind. cbn [put].
  specialize (Hth (set_acode [] s)). destruct (th _) as [[] s'| |]; [|done..].
  destruct Hth as (Hn & es & Hc & He). split; [done|]. exists [AIf c (a_code s')]. split; [done|]. apply kind_quiet.
  apply Forall_cons_2; [|apply Forall_nil_2]. apply quiet_if. rewrite Hc. exact He.
Qed.
End shape.

#[export] Hint Resolve builds_ret builds_def builds_trace : builds.

(** Follows a builder through its branches. *)
Ltac builds_hook := fail.
Ltac builds_step :=
  match goal with
  | |- builds _ (_ ≫= _) => apply builds_bind; [apply _| |intros ?]
  | |- builds _ (if ?b then _ else _) => destruct b
  | |- builds _ (match ?x with _ => _ end) => destruct x
  | |- builds _ (let _ := _ in _) => cbv zeta
  | |- _ => builds_hook
  end.
Ltac builds_auto := repeat first [solve [eauto 2 with builds typeclass_instances] | builds_step].

Section visits.
Context (cfg : config) {AE : AngoraEnv} (P : Z → list aemit → Prop) {K : code_kind P}.
Lemma builds_load g t : builds P (load g t).
Proof. apply builds_def, K. Qed.
Lemma builds_zext v w : builds P (createZExt v w).
Proof. unfold createZExt. builds_auto. Qed.
Lemma builds_random : builds P getRandomNum.
Proof. by apply (builds_still P). Qed.
Lemma builds_id i : builds P (getInstructionId cfg i).
Proof.
  unfold getInstructionId. destruct (is_bc cfg); [by apply (builds_still P)|].
  apply (builds_bind P).
  - destruct (gen_id_random cfg); [apply builds_random|]. destruct (getDebugLoc i) as [[Line Col]|]; [by apply builds_ret|apply builds_random].
  - intros h. apply (builds_still P). intros s. unfold unique_id. rewrite bind_get. by destruct (probe _ _ _).
Qed.
#[local] Hint Resolve builds_load builds_zext builds_id : builds.
Lemma builds_cast v : builds P (castArgType v).
Proof. unfold castArgType. builds_auto. Qed.
Lemma builds_when Cid th : builds quiets th → builds P (when_cond Cid th).
Proof. intros H. unfold when_cond. builds_auto. by apply builds_if. Qed.
End visits.
#[export] Hint Resolve builds_load builds_zext builds_id builds_cast builds_when : builds.

Ltac builds_hook ::= apply builds_when; [apply _|].

Section reports.
Context (cfg : config) {AE : AngoraEnv} (P : Z → list aemit → Prop) {K : code_kind P}.
Lemma builds_for_each {A} (l : list A) f : (∀ x, builds P (f x)) → builds P (for_each l f).
Proof. intros Hf. induction l as [|x l IH]; cbn [for_each]; [by apply builds_ret|]. by apply builds_bind. Qed.
Lemma builds_bool Cond Cid : builds P (processBoolCmp cfg Cond Cid).
Proof. unfold processBoolCmp. builds_auto. Qed.
Lemma builds_cmp i p a b Cid : builds P (processCmp cfg i p a b Cid).
Proof. unfold processCmp. cbv zeta. builds_auto; try apply builds_bool; builds_auto. Qed.
#[local] Hint Resolve builds_bool builds_cmp : builds.
Lemma builds_visit_cmp i : builds P (visitCmpInst cfg i).
Proof. unfold visitCmpInst. builds_auto. Qed.
Lemma builds_visit_branch c i : builds P (visitBranchInst cfg c i).
Proof. unfold visitBranchInst. cbv zeta. builds_auto. Qed.
Lemma builds_visit_switch i : builds P (visitSwitchInst cfg i).
Proof. unfold visitSwitchInst. cbv zeta. builds_auto. Qed.
Lemma builds_exploit i : builds P (visitExploitation cfg i).
Proof. unfold visitExploitation. cbv zeta. apply builds_for_each. intros x. unfold exploit_param. cbv zeta. builds_auto. Qed.
Lemma builds_compare_fn i : builds P (visitCompareFunc cfg i).
Proof.
  unfold visitCompareFunc. destruct (i_kind i); try by apply builds_ret. destruct invoke; [by apply builds_ret|].
  destruct (negb _); [by apply builds_ret|]. apply builds_bind; [done|apply builds_id, K|]. intros Cid.
  destruct (negb _); [by apply builds_ret|]. destruct args as [|x [|y rest]]; [by apply (builds_still P)..|].
  builds_auto.
Qed.
End reports.

Section chunks.
Context (cfg : config) {AE : AngoraEnv}.
Abbreviation chunk := (chunk cfg).
#[local] Instance chunks_kind : code_kind chunk := chunk_kind cfg.
Lemma map_mod x : 0 ≤ x mod MAP_SIZE < MAP_SIZE.
Proof. by apply Z.mod_pos_bound. Qed.
Lemma builds_call i : builds chunk (processCall cfg i).
Proof.
  unfold processCall. apply builds_bind; [apply _|apply builds_compare_fn, _|intros _].
  apply builds_bind; [apply _|apply builds_exploit, _|intros _].
  destruct (num_fn_ctx cfg =? 0) eqn:Hn; [by apply builds_ret, _|]. intros s. split; [apply Z.le_refl|].
  eexists. split; [reflexivity|]. apply Z.eqb_neq in Hn. apply chunk_site; [apply map_mod|done|constructor].
Qed.
Lemma def_run t o seed r c ids n code :
  def t o (Ast seed r c ids n code) = Ret (ATmp n t) (Ast seed r c ids (n + 1) (code ++ [ADef n t o])).
Proof. done. Qed.
Lemma def2_run t1 o1 t2 o2 seed r c ids n code :
  (v ← def t1 o1; def t2 (o2 v)) (Ast seed r c ids n code) =
    Ret (ATmp (n + 1) t2) (Ast seed r c ids (n + 1 + 1) ((code ++ [ADef n t1 o1]) ++ [ADef (n + 1) t2 (o2 (ATmp n t1))])).
Proof. done. Qed.
Lemma emit_run e seed r c ids n code : emit e (Ast seed r c ids n code) = Ret () (Ast seed r c ids n (code ++ [e])).
Proof. done. Qed.
Lemma skip_run seed r c ids n code :
  skipBasicBlock cfg (Ast seed r c ids n code) = Ret (inst_ratio cfg <=? random_at (ModId cfg) r mod 100) (Ast seed (S r) c ids n code).
Proof. done. Qed.
Lemma block_id_run seed r c ids n code :
  getRandomBasicBlockId cfg (Ast seed r c ids n code) = Ret (random_at (ModId cfg) r mod MAP_SIZE) (Ast seed (S r) c ids n code).
Proof. done. Qed.
Ltac run_edge cur :=
  repeat (erewrite bind_run;
          [|lazymatch goal with
            | |- (def _ _ ≫= _) _ = _ => apply (def2_run Int32 (OLoad GContext) Int32 (λ v, OXor v (AConst 32 (Z.shiftr cur 1))))
            | |- def _ _ _ = _ => apply def_run
            | |- emit _ _ = _ => apply emit_run
            | |- createZExt _ _ _ = _ => apply (def_run Int8)
            | |- _ => reflexivity
            end]);
  rewrite ?emit_run.
Lemma builds_edge : builds chunk (countEdge cfg).
Proof.
  intros s. destruct (FastMode cfg) eqn:Hf.
  2:{ unfold countEdge. rewrite Hf. split; [apply Z.le_refl|]. exists []. split; [by rewrite app_nil_r|constructor]. }
  destruct s as [seed r c ids n code].
  set (cur := random_at (ModId cfg) (S r) mod MAP_SIZE).
  assert (∃ n', n ≤ n' ∧ ∃ es, countEdge cfg (Ast seed r c ids n code) = Ret () (Ast seed (if inst_ratio cfg <=? random_at (ModId cfg) r mod 100 then S r else S (S r)) c ids n' (code ++ es)) ∧ (es = [] ∨ es = edge_code cfg n cur))
    as (n' & Hn & es & Hr & Hes).
  { unfold countEdge. rewrite Hf. cbn [negb].
    erewrite bind_run by apply skip_run. destruct (inst_ratio cfg <=? _).
    { exists n. split; [lia|]. exists []. split; [by rewrite app_nil_r|by left]. }
    erewrite bind_run by apply block_id_run. fold cur. clearbody cur. unfold load, edge_code. destruct (num_fn_ctx cfg =? 0); cbn [negb].
    all: eexists; split; [|eexists; split; [|right; reflexivity]]; [|run_edge cur; rewrite <-!app_assoc; reflexivity]; lia. }
  rewrite Hr. split; [exact Hn|]. exists es. split; [done|].
  destruct Hes as [->| ->]; [constructor|]. rewrite <-(app_nil_r (edge_code _ _ _)).
  apply chunk_edge; [cbn; lia|apply map_mod|done|constructor].
Qed.

(** ** The walk only inserts *)
Definition is_unfold (i : inst) : bool :=
  match i_kind i with ICall (CalleeFun f) _ _ false => String.eqb f unfold_fn | _ => false end.
(** Code before and after the walk, with fresh values from [lo] on. *)
Inductive expands (lo : Z) : list slot → list slot → Prop :=
| exp_nil : expands lo [] []
| exp_new e l l' : expands lo l l' → expands lo (New e :: l) (New e :: l')
| exp_item i before after keep l l' :
    chunk lo before → chunk lo after → (keep = false → is_unfold i = true) →
    (leaves_fn i = true → after = []) → expands lo l l' →
    expands lo (Orig i :: l) ((New <$> before) ++ (if keep : bool then [Orig i] else []) ++ (New <$> after) ++ l').

Context (F : func).
Lemma builds_dispatch i : builds chunk (dispatch cfg F i).
Proof.
  assert (∀ m : M ast (), builds chunk m → builds chunk (m ;; mret false)) as Hret
    by (intros m Hm; apply builds_bind; [apply _|done|intros _; apply builds_ret, _]).
  assert (builds chunk (visitCallInst cfg F i)) as Hcall.
  { unfold visitCallInst. destruct (i_kind i) as [| | | | | | | | | |[f| | |] fty args inv| | | | | |]; try by apply builds_ret, _.
    destruct (String.eqb f _); [by apply builds_ret, _|]. apply Hret, builds_call. }
  unfold dispatch. destruct (i_kind i) as [| | | | | | | | | |f fty args [|]| | | | | |] eqn:Hk; try done.
  all: apply Hret; first [apply builds_exploit, _|apply builds_visit_cmp, _|apply builds_visit_branch, _|apply builds_visit_switch, _|idtac].
  unfold visitInvokeInst. rewrite Hk. destruct f; first [apply builds_call|apply builds_ret, _].
Qed.
Lemma dispatch_erases i s :
  match dispatch cfg F i s with
  | Ret erased s' => erased = true → is_unfold i = true
  | _ => True
  end.
Proof.
  assert (∀ m : M ast (), match (m ;; mret false) s with Ret erased _ => erased = true → is_unfold i = true | _ => True end) as Hret
    by (intros m; unfold mbind, M_bind; by destruct (m s)).
  unfold dispatch. destruct (i_kind i) as [| | | | | | | | | |f fty args [|]| | | | | |] eqn:Hk; try by apply Hret.
  - unfold visitCallInst, is_unfold. rewrite Hk. destruct f as [f| | |]; [|done..].
    destruct (String.eqb f _); [done|]. unfold mbind, M_bind. by destruct (processCall cfg i s).
  - unfold visitCallInst. by rewrite Hk.
  - unfold visitCallInst. by rewrite Hk.
Qed.
Lemma built_run s : built s = Ret (a_code s) (set_acode [] s).
Proof. done. Qed.
Lemma visit_slot_spec done x s :
  a_code s = [] →
  match visit_slot cfg F done x s with
  | Ret y s' => a_code s' = [] ∧ a_next s ≤ a_next s' ∧
      ∀ lo l l', lo ≤ a_next s → expands lo l l' → expands lo (x :: l) (item_code y ++ l')
  | _ => True
  end.
Proof.
  intros Hs. destruct x as [i|e]; cbn [visit_slot].
  2:{ split_and!; [done|lia|]. intros lo l l' _ Hl. by apply exp_new. }
  destruct (i_nosanitize i).
  { split_and!; [done|lia|]. intros lo l l' _ Hl. apply (exp_item lo i [] [] true); try done; constructor. }
  assert (builds chunk (if at_first done i then countEdge cfg else mret ())) as He
    by (destruct (at_first done i); [apply builds_edge|apply builds_ret, _]).
  set (m0 := if at_first done i then _ else _) in *. specialize (He s).
  destruct (m0 s) as [[] s1|e s1|h s1] eqn:H0; [|by rewrite (bind_throw _ _ _ _ _ H0)|by rewrite (bind_halt _ _ _ _ _ H0)].
  destruct He as (Hn1 & edge & Hc1 & Hedge). rewrite Hs in Hc1. cbn [app] in Hc1.
  rewrite (bind_run _ _ _ _ _ H0), (bind_run _ _ _ _ _ (built_run s1)).
  pose proof (builds_dispatch i (set_acode [] s1)) as Hd. pose proof (dispatch_erases i (set_acode [] s1)) as Her.
  destruct (dispatch cfg F i (set_acode [] s1)) as [erased s2|e s2|h s2] eqn:H1;
    [|by rewrite (bind_throw _ _ _ _ _ H1)|by rewrite (bind_halt _ _ _ _ _ H1)].
  rewrite (bind_run _ _ _ _ _ H1), (bind_run _ _ _ _ _ (built_run s2)).
  destruct Hd as (Hn2 & code & Hc2 & Hcode). cbn [app a_code set_acode] in Hc2.
  change (a_next (set_acode [] s1)) with (a_next s1) in *. cbv beta in Hc2. rewrite Hc1, Hc2.
  split_and!; [done|change (a_next s ≤ a_next s2); lia|]. intros lo l l' Hlo Hl.
  assert (chunk lo edge) as Hce by by eapply (kind_mono lo (a_next s)).
  assert (chunk lo code) as Hcc by (eapply (kind_mono lo (a_next s1)); [lia|done]).
  destruct (is_compare i) eqn:Hcmp; unfold item_code; cbn [ai_before ai_slot ai_after ai_erased].
  - rewrite <-!app_assoc. replace (if erased then [] else [Orig i]) with (if negb erased then [Orig i] else []) by by destruct erased.
    apply exp_item; [done|done|intros Hk; apply Her; by destruct erased|by unfold is_compare, leaves_fn in *; destruct (i_kind i)|done].
  - rewrite <-!app_assoc. cbn [fmap list_fmap].
    replace (if erased then [] else [Orig i]) with (if negb erased then [Orig i] else []) by by destruct erased.
    apply (exp_item lo i (edge ++ code) [] (negb erased)); [by apply (kind_app lo)|constructor|intros Hk; apply Her; by destruct erased|done|done].
Qed.
Lemma visit_block_spec done l s :
  a_code s = [] →
  match visit_block cfg F done l s with
  | Ret items s' => a_code s' = [] ∧ a_next s ≤ a_next s' ∧
      ∃ rest, items = done ++ rest ∧ ∀ lo, lo ≤ a_next s → expands lo l (block_code rest)
  | _ => True
  end.
Proof.
  revert done s. induction l as [|x l IH]; intros done s Hs; cbn [visit_block].
  { split_and!; [done|lia|]. exists []. split; [by rewrite app_nil_r|]. intros. constructor. }
  pose proof (visit_slot_spec done x s Hs) as Hx.
  destruct (visit_slot cfg F done x s) as [y s1|e s1|h s1] eqn:H1;
    [|by rewrite (bind_throw _ _ _ _ _ H1)|by rewrite (bind_halt _ _ _ _ _ H1)].
  rewrite (bind_run _ _ _ _ _ H1). destruct Hx as (Hs1 & Hn1 & Hx). specialize (IH (done ++ [y]) s1 Hs1).
  destruct (visit_block _ _ _ _ _) as [items s2| |]; [|done..]. destruct IH as (Hs2 & Hn2 & rest & -> & Hr).
  split_and!; [done|lia|]. exists (y :: rest). split; [by rewrite <-app_assoc|]. intros lo Hlo. apply Hx; [done|]. apply Hr. lia.
Qed.
Lemma visit_all_spec bs s :
  a_code s = [] →
  match visit_all cfg F bs s with
  | Ret out s' => a_code s' = [] ∧ a_next s ≤ a_next s' ∧ Forall2 (expands (a_next s)) bs out
  | _ => True
  end.
Proof.
  intros Hs. assert (∀ lo, lo ≤ a_next s → match visit_all cfg F bs s with
  | Ret out s' => a_code s' = [] ∧ a_next s ≤ a_next s' ∧ Forall2 (expands lo) bs out | _ => True end) as H; [|by apply H].
  revert s Hs. induction bs as [|b bs IH]; intros s Hs lo Hlo; cbn [visit_all].
  { split_and!; [done|lia|constructor]. }
  pose proof (visit_block_spec [] b s Hs) as Hb.
  destruct (visit_block cfg F [] b s) as [items s1|e s1|h s1] eqn:H1;
    [|by rewrite (bind_throw _ _ _ _ _ H1)|by rewrite (bind_halt _ _ _ _ _ H1)].
  rewrite (bind_run _ _ _ _ _ H1). destruct Hb as (Hs1 & Hn1 & rest & -> & Hr). specialize (IH s1 Hs1 lo ltac:(lia)).
  destruct (visit_all _ _ _ s1) as [out s2|e s2|h s2] eqn:H2;
    [|by rewrite (bind_throw _ _ _ _ _ H2)|by rewrite (bind_halt _ _ _ _ _ H2)].
  rewrite (bind_run _ _ _ _ _ H2). destruct IH as (Hs2 & Hn2 & Hout). split_and!; [done|lia|].
  constructor; [by apply Hr|done].
Qed.
End chunks.

(** ** What [addFnWrap] inserts *)
Section wrap.
Context (cfg : config) {AE : AngoraEnv}.
(** The value restored at the end, and the first free one. *)
Definition saved_ctx (n : Z) : Z := if 0 <? num_fn_ctx cfg then n + 1 + 1 else n + 1.
Definition pre_code (n : Z) : list aemit :=
  [ADef n Int32 (OLoad GCallSite); ADef (n + 1) Int32 (OLoad GContext)] ++
  (if 0 <? num_fn_ctx cfg then [ADef (n + 1 + 1) Int32 (OLShr (ATmp (n + 1) Int32) (32 / num_fn_ctx cfg))] else []) ++
  [ADef (saved_ctx n + 1) Int32 (OXor (ATmp (saved_ctx n) Int32) (ATmp n Int32));
   AStore (ATmp (saved_ctx n + 1) Int32) GContext].
Definition post_code (n : Z) : list aemit := [AStore (ATmp (saved_ctx n) Int32) GContext].
Lemma fn_wrap_run seed r c ids n code :
  fn_wrap cfg (Ast seed r c ids n code) =
    Ret (pre_code n, post_code n) (Ast seed r c ids (saved_ctx n + 1 + 1) code).
Proof. unfold fn_wrap, pre_code, post_code, saved_ctx. by destruct (0 <? num_fn_ctx cfg). Qed.
End wrap.
