(* ===== verification/AngoraRun.v ===== *)
(** * Instrumented programs running

    The meaning of the code the coverage pass inserts, and of a program with it:
    calls nest, and what the program itself does to its values and its memory is
    arbitrary. *)
From S2P Require Import Prelude Ir Angora AngoraIds AngoraSpec.

(** ** The state of the inserted code *)

(** Its values in the running function, the memory it shares with the program,
    the pass's global variables, the reports to the runtime so far, and the
    bytes it wrote, with their addresses. *)
Record amach := AMach {
  am_tmp : gmap Z Z;
  am_mem : gmap Z Z;
  am_map : Z;
  am_prev : Z;
  am_ctx : Z;
  am_cond : Z;
  am_site : Z;
  am_trace : list (tracefn * list Z);
  am_writes : list (Z * Z);
}.
Definition upd_tmp (x : gmap Z Z) (m : amach) : amach :=
  AMach x (am_mem m) (am_map m) (am_prev m) (am_ctx m) (am_cond m) (am_site m) (am_trace m) (am_writes m).
Definition upd_amem (x : gmap Z Z) (m : amach) : amach :=
  AMach (am_tmp m) x (am_map m) (am_prev m) (am_ctx m) (am_cond m) (am_site m) (am_trace m) (am_writes m).
Definition write_at (a v : Z) (m : amach) : amach :=
  AMach (am_tmp m) (<[a := v]> (am_mem m)) (am_map m) (am_prev m) (am_ctx m) (am_cond m) (am_site m) (am_trace m) ((a, v) :: am_writes m).
Definition report (f : tracefn) (args : list Z) (m : amach) : amach :=
  AMach (am_tmp m) (am_mem m) (am_map m) (am_prev m) (am_ctx m) (am_cond m) (am_site m) ((f, args) :: am_trace m) (am_writes m).
Definition global (m : amach) (g : gvar) : Z :=
  match g with
  | GMapPtr => am_map m | GPrevLoc => am_prev m | GContext => am_ctx m | GCondId => am_cond m | GCallSite => am_site m
  end.
Definition set_global (g : gvar) (v : Z) (m : amach) : amach :=
  match g with
  | GMapPtr => AMach (am_tmp m) (am_mem m) v (am_prev m) (am_ctx m) (am_cond m) (am_site m) (am_trace m) (am_writes m)
  | GPrevLoc => AMach (am_tmp m) (am_mem m) (am_map m) v (am_ctx m) (am_cond m) (am_site m) (am_trace m) (am_writes m)
  | GContext => AMach (am_tmp m) (am_mem m) (am_map m) (am_prev m) v (am_cond m) (am_site m) (am_trace m) (am_writes m)
  | GCondId => AMach (am_tmp m) (am_mem m) (am_map m) (am_prev m) (am_ctx m) v (am_site m) (am_trace m) (am_writes m)
  | GCallSite => AMach (am_tmp m) (am_mem m) (am_map m) (am_prev m) (am_ctx m) (am_cond m) v (am_trace m) (am_writes m)
  end.

(** ** Inserted code *)
Section code.
(** the values of the program, the address of an array of cases, and what the
    conversion of a floating-point number gives *)
Context (pv : val → option Z) (arr : list Z → Z) (fptoui : Z → Z).
Definition aval_of (m : amach) (v : aval) : option Z :=
  match v with
  | AProg v => pv v
  | ATmp d _ => am_tmp m !! d
  | AConst w n => Some (wrap w n)
  | AArr l => Some (arr l)
  end.
Definition int_bits (t : ty) : Z := match t with TInt w => w | _ => 64 end.
(** A shift by the width or more is poison, here no value. *)
Definition aop_val (m : amach) (t : ty) (o : aop) : option Z :=
  match o with
  | OLoad g => Some (global m g)
  | OLoadAt p => a ← aval_of m p; Some (u8 (default 0 (am_mem m !! a)))
  | OZExt v | OPtrToInt v => aval_of m v
  | OFPToUI v => wrap (int_bits t) ∘ fptoui <$> aval_of m v
  | OXor a b => x ← aval_of m a; y ← aval_of m b; Some (Z.lxor x y)
  | OLShr a n => x ← aval_of m a; if n <? int_bits t then Some (Z.shiftr x n) else None
  | OAdd a b => x ← aval_of m a; y ← aval_of m b; Some (wrap (int_bits t) (x + y))
  | OICmpEQ a b => x ← aval_of m a; y ← aval_of m b; Some (Z.b2z (x =? y))
  | OGEP p i => a ← aval_of m p; x ← aval_of m i; Some (u64 (a + swrap 32 x))
  end.
Fixpoint values (m : amach) (l : list aval) : option (list Z) :=
  match l with
  | [] => Some []
  | v :: l => x ← aval_of m v; xs ← values m l; Some (x :: xs)
  end.
Fixpoint run_aemit (e : aemit) (m : amach) : option amach :=
  match e with
  | ADef d t o => x ← aop_val m t o; Some (upd_tmp (<[d := x]> (am_tmp m)) m)
  | AStore v g => x ← aval_of m v; Some (set_global g x m)
  | AStoreAt v p => x ← aval_of m v; a ← aval_of m p; Some (write_at a x m)
  | ATrace f args => xs ← values m args; Some (report f xs m)
  | AIf c th =>
      x ← aval_of m c;
      if x =? 1 then
        (fix go l m := match l with [] => Some m | e :: l => m1 ← run_aemit e m; go l m1 end) th m
      else Some m
  end.
Fixpoint run_code (l : list aemit) (m : amach) : option amach :=
  match l with
  | [] => Some m
  | e :: l => m1 ← run_aemit e m; run_code l m1
  end.
Lemma run_if c th m : run_aemit (AIf c th) m = x ← aval_of m c; if x =? 1 then run_code th m else Some m.
Proof.
  cbn [run_aemit]. destruct (aval_of m c) as [x|]; [|done]. cbn [mbind option_bind]. destruct (x =? 1); [|done].
  revert m. induction th as [|e th IH]; intros m; [done|]. cbn [run_code]. by destruct (run_aemit e m).
Qed.
Lemma run_code_app l1 l2 m : run_code (l1 ++ l2) m = m1 ← run_code l1 m; run_code l2 m1.
Proof.
  revert m. induction l1 as [|e l1 IH]; intros m; [done|]. cbn [app run_code].
  destruct (run_aemit e m) as [m1|]; [apply IH|done].
Qed.
End code.

(** Single steps, the values apart from the rest. *)
Section steps.
Context (pv : val → option Z) (arr : list Z → Z) (fptoui : Z → Z).
Lemma run_def d t o l T m :
  run_code pv arr fptoui (ADef d t o :: l) (upd_tmp T m) =
    x ← aop_val pv arr fptoui (upd_tmp T m) t o; run_code pv arr fptoui l (upd_tmp (<[d := x]> T) m).
Proof. cbn [run_code run_aemit]. by destruct (aop_val _ _ _ _ _ _). Qed.
Lemma run_store_at v p l T m :
  run_code pv arr fptoui (AStoreAt v p :: l) (upd_tmp T m) =
    x ← aval_of pv arr (upd_tmp T m) v; a ← aval_of pv arr (upd_tmp T m) p; run_code pv arr fptoui l (upd_tmp T (write_at a x m)).
Proof. cbn [run_code run_aemit]. destruct (aval_of _ _ _ v); [|done]. cbn. by destruct (aval_of _ _ _ p). Qed.
Lemma run_store v g T m :
  run_code pv arr fptoui [AStore v g] (upd_tmp T m) = x ← aval_of pv arr (upd_tmp T m) v; Some (set_global g x (upd_tmp T m)).
Proof. cbn [run_code run_aemit]. by destruct (aval_of _ _ _ v). Qed.
Lemma run_trace f args T m :
  run_code pv arr fptoui [ATrace f args] (upd_tmp T m) = xs ← values pv arr (upd_tmp T m) args; Some (upd_tmp T (report f xs m)).
Proof. cbn [run_code run_aemit]. by destruct (values _ _ _ args). Qed.
End steps.
(** One definition, its value computed from those before. *)
Ltac step_val :=
  cbn [aop_val aval_of mbind option_bind global upd_tmp am_tmp am_mem am_map am_prev am_ctx am_cond am_site write_at];
  repeat (rewrite lookup_insert_eq || rewrite lookup_insert_ne by lia);
  cbn [mbind option_bind].
Ltac step_def := rewrite run_def; step_val.

(** ** Programs *)

(** The blocks of a function before and after the pass. *)
Definition afunc : Type := list block * list (list slot).
(** A block leaves the function at its end or nowhere. *)
Definition stays (b : block) : Prop := Forall (λ i, leaves_fn i = false) (b_insts b).
Definition exits (b : block) : Prop :=
  ∃ init x, b_insts b = init ++ [x] ∧ leaves_fn x = true ∧ Forall (λ i, leaves_fn i = false) init.
(** A path through a function: from the entry block to the first block that
    leaves. Only the entry block is not entered again. *)
Definition path_of (f : afunc) (path : list (block * list slot)) : Prop :=
  ∃ p0 others rest, zip f.1 f.2 = p0 :: others ∧ path = p0 :: rest ∧ rest ⊆ others ∧
    ∃ pre last, path = pre ++ [last] ∧ Forall (λ p, stays p.1) pre ∧ exits last.1.
Definition path_slots (path : list (block * list slot)) : list slot := concat path.*2.

Section programs.
Context (arr : list Z → Z) (fptoui : Z → Z) (prog : list afunc).
Definition is_a_call (i : inst) : bool := match i_kind i with ICall _ _ _ _ => true | _ => false end.
(** [runs d l pv m pv' m']: an instruction of the program leaves any values and any
    memory behind, and a call may run a function of the program, with calls nested
    up to [d] deep. *)
Inductive runs : nat → list slot → (val → option Z) → amach → (val → option Z) → amach → Prop :=
| runs_nil d pv m : runs d [] pv m pv m
| runs_new d e l pv m m1 pv' m' :
    run_aemit pv arr fptoui e m = Some m1 → runs d l pv m1 pv' m' → runs d (New e :: l) pv m pv' m'
| runs_orig d i l pv m pv1 mem1 pv' m' :
    runs d l pv1 (upd_amem mem1 m) pv' m' → runs d (Orig i :: l) pv m pv' m'
| runs_call d i l pv m f path pvc pvc' mc pv1 pv' m' :
    is_a_call i = true → f ∈ prog → path_of f path →
    runs d (path_slots path) pvc (upd_tmp ∅ m) pvc' mc →
    runs (S d) l pv1 (upd_tmp (am_tmp m) mc) pv' m' → runs (S d) (Orig i :: l) pv m pv' m'.
Lemma runs_app d l1 l2 pv m pv' m' :
  runs d (l1 ++ l2) pv m pv' m' → ∃ pv1 m1, runs d l1 pv m pv1 m1 ∧ runs d l2 pv1 m1 pv' m'.
Proof.
  revert pv m. induction l1 as [|x l1 IH]; intros pv m H; [exists pv, m; split; [constructor|done]|].
  cbn [app] in H. inversion H; subst.
  - edestruct IH as (pv1 & m2 & Hr1 & Hr2); [eassumption|]. exists pv1, m2. split; [by eapply runs_new|done].
  - edestruct IH as (pv2 & m2 & Hr1 & Hr2); [eassumption|]. exists pv2, m2. split; [by eapply runs_orig|done].
  - edestruct IH as (pv2 & m2 & Hr1 & Hr2); [eassumption|]. exists pv2, m2. split; [by eapply runs_call|done].
Qed.
Lemma runs_code d es pv m pv' m' : runs d (New <$> es) pv m pv' m' → pv' = pv ∧ run_code pv arr fptoui es m = Some m'.
Proof.
  revert m. induction es as [|e es IH]; intros m H; inversion H; subst; [done|].
  cbn [run_code]. match goal with He : run_aemit _ _ _ _ _ = Some _ |- _ => rewrite He end. by apply IH.
Qed.
End programs.
