(* ===== verification/AngoraSafe.v ===== *)
(** * Counters stay inside the map, and contexts

    What holds of every run of a program the coverage pass instrumented. *)
From S2P Require Import Prelude Ir Angora AngoraIds AngoraSpec AngoraRun.

(** ** Inserted code *)

(** The map is where the runtime put it; the location and the contexts are below
    its size; and every byte written so far is a nonzero counter inside it. *)
Record map_safe (m : amach) : Prop := {
  ms_map : 0 ≤ am_map m ∧ am_map m + MAP_SIZE ≤ 2 ^ 64;
  ms_prev : in_range 20 (am_prev m);
  ms_ctx : in_range 20 (am_ctx m);
  ms_site : in_range 20 (am_site m);
  ms_writes : Forall (λ w, am_map m ≤ w.1 < am_map m + MAP_SIZE ∧ 1 ≤ w.2 < 256) (am_writes m);
}.
(** Only the values from [lo] on and the reports differ. *)
Definition reported (lo : Z) (m m' : amach) : Prop :=
  am_mem m' = am_mem m ∧ am_map m' = am_map m ∧ am_prev m' = am_prev m ∧ am_ctx m' = am_ctx m ∧
  am_cond m' = am_cond m ∧ am_site m' = am_site m ∧ am_writes m' = am_writes m ∧
  ∀ d, d < lo → am_tmp m' !! d = am_tmp m !! d.
#[export] Instance reported_preorder lo : PreOrder (reported lo).
Proof.
  split; [done|]. intros a b c (A1 & A2 & A3 & A4 & A5 & A6 & A7 & A8) (B1 & B2 & B3 & B4 & B5 & B6 & B7 & B8).
  split_and!; try congruence. intros d Hd. by rewrite B8, A8.
Qed.
Lemma reported_safe lo m m' : reported lo m m' → map_safe m → map_safe m'.
Proof. intros (_ & E2 & E3 & E4 & _ & E6 & E7 & _) [H1 H2 H3 H4 H5]. split; rewrite ?E2, ?E3, ?E4, ?E6, ?E7; done. Qed.

Section code.
Context (cfg : config) (pv : val → option Z) (arr : list Z → Z) (fptoui : Z → Z).
Abbreviation run := (run_code pv arr fptoui).
Abbreviation run1 := (run_aemit pv arr fptoui).
Lemma quiet_run lo e m m' : quiet lo e → run1 e m = Some m' → reported lo m m'.
Proof.
  revert e m m'. fix IH 1. intros [d t o|v g|v p|f args|c th] m m' Hq; [|done|done| |].
  - cbn. destruct (aop_val _ _ _ _ _ _) as [x|]; [|done]. intros [= <-]. split_and!; try done.
    intros d' Hd. cbn in Hq |- *. by rewrite lookup_insert_ne by lia.
  - cbn. destruct (values _ _ _ _) as [xs|]; [|done]. by intros [= <-].
  - rewrite run_if. destruct (aval_of _ _ _ _) as [x|]; [|done]. cbn [mbind option_bind].
    destruct (x =? 1); [|by intros [= <-]]. cbn in Hq. revert m. induction th as [|e th IHth]; intros m.
    { by intros [= <-]. }
    destruct Hq as [He Hth]. cbn [run_code]. destruct (run1 e m) as [m1|] eqn:H1; [|done]. cbn [mbind option_bind].
    intros Hr. transitivity m1; [by apply (IH e)|]. by apply IHth.
Qed.

(** The counter goes from 255 to 1. *)
Definition next_count (c : Z) : Z := let x := wrap 8 (c + 1) in wrap 8 (x + Z.b2z (x =? 0)).
Lemma next_count_range c : 1 ≤ next_count c < 256.
Proof.
  unfold next_count. cbv zeta. pose proof (wrap_range 8 (c + 1) ltac:(lia)) as H. unfold in_range in H.
  set (x := wrap 8 (c + 1)) in *. change (2 ^ 8) with 256 in H. destruct (Z.eqb_spec x 0) as [->|Hx]; [by vm_compute|].
  change (Z.b2z false) with 0. rewrite wrap_small by (unfold in_range; lia). lia.
Qed.
Lemma edge_run n cur m m' :
  0 ≤ cur < MAP_SIZE → map_safe m → run (edge_code cfg n cur) m = Some m' →
  let a := u64 (am_map m + swrap 32 (Z.lxor (am_prev m) cur)) in
  am_map m ≤ a < am_map m + MAP_SIZE ∧
  am_writes m' = (a, next_count (u8 (default 0 (am_mem m !! a)))) :: am_writes m ∧
  in_range 20 (am_prev m') ∧ am_map m' = am_map m ∧ am_ctx m' = am_ctx m ∧ am_site m' = am_site m ∧
  ∀ d, d < n → am_tmp m' !! d = am_tmp m !! d.
Proof.
  intros Hcur [H1 H2 H3 H4 H5] Hrun a. change MAP_SIZE with (2 ^ 20) in *.
  assert (in_range 20 cur) as Hc by done. assert (wrap 32 cur = cur) as Hw by (apply wrap_small; unfold in_range in *; lia).
  pose proof (lxor_range 20 _ _ ltac:(lia) H2 Hc) as Hx. unfold in_range in Hx.
  assert (swrap 32 (Z.lxor (am_prev m) cur) = Z.lxor (am_prev m) cur) as Hs.
  { unfold swrap. rewrite wrap_small by (unfold in_range; lia). by rewrite (proj2 (Z.ltb_lt _ _)) by lia. }
  assert (in_range 20 (Z.shiftr cur 1)) as Hcs.
  { rewrite Z.shiftr_div_pow2 by lia. unfold in_range in *. change (2 ^ 1) with 2. split; [apply Z.div_pos; lia|]. apply Z.div_lt_upper_bound; lia. }
  assert (wrap 32 (Z.shiftr cur 1) = Z.shiftr cur 1) as Hw1 by (apply wrap_small; unfold in_range in *; lia).
  assert (a = am_map m + Z.lxor (am_prev m) cur) as Ha.
  { unfold a, u64. rewrite Hs. apply wrap_small. unfold in_range. lia. }
  split; [lia|]. revert Hrun. replace m with (upd_tmp (am_tmp m) m) at 1 by by destruct m.
  unfold edge_code. cbv zeta. cbn [app]. do 9 step_def. rewrite Hw. fold a.
  set (c := u8 (default 0 (am_mem m !! a))). change (int_bits Int8) with 8.
  assert (wrap 8 1 = 1) as -> by done. assert (wrap 8 0 = 0) as -> by done.
  rewrite run_store_at. step_val. fold (next_count c).
  destruct (num_fn_ctx cfg =? 0); [|do 2 step_def]; rewrite run_store; step_val; rewrite ?Hw1; intros [= <-].
  all: cbn [set_global am_writes am_prev am_map am_ctx am_site am_tmp upd_tmp write_at].
  all: split_and!; try done; try (intros d Hd; by rewrite !lookup_insert_ne by lia).
  apply lxor_range; [lia|exact H3|exact Hcs].
Qed.
Lemma edge_safe n cur m m' :
  0 ≤ cur < MAP_SIZE → map_safe m → run (edge_code cfg n cur) m = Some m' →
  map_safe m' ∧ am_ctx m' = am_ctx m ∧ ∀ d, d < n → am_tmp m' !! d = am_tmp m !! d.
Proof.
  intros Hcur Hs Hr. destruct (edge_run n cur m m' Hcur Hs Hr) as (Ha & Hw & Hp & Hm & Hc & Hsi & Ht).
  destruct Hs as [H1 H2 H3 H4 H5]. split_and!; [split|done|done]; rewrite ?Hm, ?Hc, ?Hsi; try done.
  rewrite Hw. constructor; [|done]. split; [exact Ha|apply next_count_range].
Qed.
(** Code inserted at an instruction keeps the map safe and the context. *)
Lemma chunk_run lo l m m' :
  chunk cfg lo l → map_safe m → run l m = Some m' →
  map_safe m' ∧ am_ctx m' = am_ctx m ∧ ∀ d, d < lo → am_tmp m' !! d = am_tmp m !! d.
Proof.
  intros Hl. revert m. induction Hl as [|e l He Hl IH|c l Hc Hn Hl IH|n cur l Hlo Hcur Hf Hl IH]; intros m Hs.
  - by intros [= <-].
  - cbn [run_code]. destruct (run1 e m) as [m1|] eqn:H1; [|done]. cbn [mbind option_bind]. intros Hr.
    pose proof (quiet_run lo e m m1 He H1) as Hq. destruct (IH m1 (reported_safe _ _ _ Hq Hs) Hr) as (H2 & H3 & H4).
    destruct Hq as (_ & _ & _ & Hq & _ & _ & _ & Ht). split_and!; [done|congruence|]. intros d Hd. by rewrite H4, Ht.
  - cbn [run_code run_aemit aval_of mbind option_bind]. intros Hr. destruct Hs as [H1 H2 H3 H4 H5].
    destruct (IH (set_global GCallSite (wrap 32 c) m)) as (G1 & G2 & G3); [|done|done].
    split; try done. cbn. change MAP_SIZE with (2 ^ 20) in Hc. rewrite wrap_small; unfold in_range; lia.
  - rewrite run_code_app. destruct (run (edge_code cfg n cur) m) as [m1|] eqn:H1; [|done]. cbn [mbind option_bind]. intros Hr.
    destruct (edge_safe n cur m m1 Hcur Hs H1) as (Hs1 & Hc1 & Ht1). destruct (IH m1 Hs1 Hr) as (H2 & H3 & H4).
    split_and!; [done|congruence|]. intros d Hd. rewrite H4, Ht1 by lia. done.
Qed.

(** ** The code at the entry and the exits *)

(** What the entry saves, and an exit restores: the context, shifted when the
    number of contexts is given. *)
Definition shifted (c : Z) : Z := if 0 <? num_fn_ctx cfg then Z.shiftr c (32 / num_fn_ctx cfg) else c.
Lemma shifted_range c : in_range 20 c → in_range 20 (shifted c).
Proof.
  unfold shifted, in_range. intros Hc. destruct (Z.ltb_spec 0 (num_fn_ctx cfg)); [|done].
  pose proof (Z.div_pos 32 (num_fn_ctx cfg) ltac:(lia) ltac:(lia)) as Hn. rewrite Z.shiftr_div_pow2 by done.
  pose proof (Z.pow_pos_nonneg 2 (32 / num_fn_ctx cfg) ltac:(lia) Hn).
  split; [apply Z.div_pos; lia|]. apply Z.div_lt_upper_bound; nia.
Qed.
Lemma pre_run n m m' :
  map_safe m → run (pre_code cfg n) m = Some m' →
  map_safe m' ∧ am_tmp m' !! saved_ctx cfg n = Some (shifted (am_ctx m)) ∧ am_ctx m' = Z.lxor (shifted (am_ctx m)) (am_site m).
Proof.
  intros Hs. pose proof (shifted_range _ (ms_ctx _ Hs)) as Hsh. destruct Hs as [H1 H2 H3 H4 H5].
  replace m with (upd_tmp (am_tmp m) m) at 1 by by destruct m. unfold pre_code. cbn [app]. do 2 step_def.
  unfold shifted, saved_ctx in *. destruct (0 <? num_fn_ctx cfg); cbn [app].
  - step_def. destruct (32 / num_fn_ctx cfg <? int_bits Int32); [|done]. cbn [mbind option_bind].
    step_def. rewrite run_store; step_val. intros [= <-]. cbn [set_global am_tmp am_ctx].
    split_and!; [|by rewrite lookup_insert_ne, lookup_insert_eq by lia|done].
    split; cbn [set_global am_map am_prev am_ctx am_site am_writes upd_tmp]; try done. by apply lxor_range.
  - step_def. rewrite run_store; step_val. intros [= <-]. cbn [set_global am_tmp am_ctx].
    split_and!; [|by rewrite lookup_insert_ne, lookup_insert_eq by lia|done].
    split; cbn [set_global am_map am_prev am_ctx am_site am_writes upd_tmp]; try done. by apply lxor_range.
Qed.
End code.

(** ** The shape of a path *)
Section paths.
Context (cfg : config) {AE : AngoraEnv}.
Lemma expands_app lo l1 l2 l' :
  expands cfg lo (l1 ++ l2) l' → ∃ a b, l' = a ++ b ∧ expands cfg lo l1 a ∧ expands cfg lo l2 b.
Proof.
  revert l'. induction l1 as [|x l1 IH]; intros l' H; [exists [], l'; split_and!; [done|constructor|done]|].
  cbn [app] in H. inversion H as [|e l l0 H0|i before after keep l l0 Hb Ha Hk Hlv H0]; subst.
  - destruct (IH l0 H0) as (a & b & -> & H1 & H2). exists (New e :: a), b. split_and!; [done|by constructor|done].
  - destruct (IH l0 H0) as (a & b & -> & H1 & H2).
    exists ((New <$> before) ++ (if keep then [Orig i] else []) ++ (New <$> after) ++ a), b.
    split_and!; [by rewrite <-!app_assoc|by apply exp_item|done].
Qed.
Lemma expands_join lo l1 l2 a b : expands cfg lo l1 a → expands cfg lo l2 b → expands cfg lo (l1 ++ l2) (a ++ b).
Proof.
  intros H1 H2. induction H1 as [|e l l0 H0 IH|i before after keep l l0 Hb Ha Hk Hlv H0 IH]; cbn [app]; [done|by constructor|].
  rewrite <-!app_assoc. by apply exp_item.
Qed.
Lemma expands_concat lo ls ls' : Forall2 (expands cfg lo) ls ls' → expands cfg lo (concat ls) (concat ls').
Proof. induction 1; [constructor|by apply expands_join]. Qed.
Lemma expands_new lo es l' : expands cfg lo (New <$> es) l' → l' = New <$> es.
Proof.
  revert l'. induction es as [|e es IH]; intros l' H; inversion H; subst; [done|]. cbn. f_equal. by apply IH.
Qed.

Lemma before_leave_snoc es l x :
  before_leave es (l ++ [Orig x]) = l ++ (if leaves_fn x then (New <$> es) ++ [Orig x] else [Orig x]).
Proof.
  induction l as [|y l IH]; [done|]. cbn [app]. rewrite <-IH. destruct (l ++ [Orig x]) as [|z l'] eqn:Hl; [by destruct l|].
  by destruct y.
Qed.
Lemma before_leave_stays es l1 l2 :
  Forall (λ i, leaves_fn i = false) l2 → before_leave es (l1 ++ (Orig <$> l2)) = l1 ++ (Orig <$> l2) ∨ l2 = [].
Proof.
  intros Hl. destruct l2 as [|x l2 _] using rev_ind; [by right|left]. rewrite fmap_app. cbn [fmap list_fmap].
  apply Forall_app in Hl as [_ [Hx _]%Forall_cons]. by rewrite app_assoc, before_leave_snoc, Hx.
Qed.
Lemma before_leave_new es l e : before_leave es (l ++ [New e]) = l ++ [New e].
Proof.
  induction l as [|y l IH]; [done|]. cbn [app]. destruct (l ++ [New e]) as [|z l'] eqn:Hl; [by destruct l|].
  transitivity (y :: before_leave es (z :: l')); [by destruct y|by rewrite IH].
Qed.
Lemma before_leave_origs es l : Forall (λ i, leaves_fn i = false) l → before_leave es (Orig <$> l) = Orig <$> l.
Proof. intros Hl. destruct (before_leave_stays es [] l Hl) as [H| ->]; [exact H|done]. Qed.

(** Blocks as LLVM has them: a way out is the last instruction, and a landing pad
    is neither a way out nor a call. *)
Definition pads_ok (l : list inst) : Prop := Forall (λ i, is_eh_pad i = true → leaves_fn i = false ∧ is_a_call i = false) l.
Definition block_ok (b : block) : Prop := (stays b ∨ exits b) ∧ pads_ok (b_insts b).
Lemma first_insertion_exit init x :
  leaves_fn x = true → is_eh_pad x = false → (first_insertion (Orig <$> init ++ [x]) ≤ length init)%nat.
Proof.
  intros Hx He. assert (is_phi x = false) as Hp by (unfold is_phi, leaves_fn in *; by destruct (i_kind x)).
  induction init as [|i init IH]; cbn; [by rewrite Hp, He|]. destruct (is_phi i); [lia|]. destruct (is_eh_pad i); lia.
Qed.
Lemma insertion_no_call l : pads_ok l → Forall (λ i, is_a_call i = false) (take (first_insertion (Orig <$> l)) l).
Proof.
  intros Hl. induction Hl as [|i l Hi Hl IH]; cbn; [constructor|]. destruct (is_phi i) eqn:Hp.
  - cbn. constructor; [unfold is_phi, is_a_call in *; by destruct (i_kind i)|exact IH].
  - destruct (is_eh_pad i); [|constructor]. cbn. constructor; [by apply Hi|]. constructor.
Qed.
Lemma slots_split k is_ pre : insert_at k pre (Orig <$> is_) = (Orig <$> take k is_) ++ (New <$> pre) ++ (Orig <$> drop k is_).
Proof. unfold insert_at. by rewrite fmap_take, fmap_drop. Qed.

(** The code of a path before the walk: the saving code somewhere near the start,
    the restoring code before the way out. *)
Definition framed_code (pre post : list aemit) (l : list slot) : Prop :=
  ∃ i1 i2 x, l = (Orig <$> i1) ++ (New <$> pre) ++ (Orig <$> i2) ++ (New <$> post) ++ [Orig x] ∧
    Forall (λ i, is_a_call i = false) i1 ∧ leaves_fn x = true.
Lemma entry_exits pre post b :
  exits b → pads_ok (b_insts b) →
  framed_code pre post (before_leave post (insert_at (first_insertion (slots b)) pre (slots b))).
Proof.
  intros (init & x & Hb & Hx & _) Hok. pose proof (insertion_no_call _ Hok) as Hnc. rewrite Hb in Hok, Hnc.
  assert (is_eh_pad x = false) as He.
  { apply Forall_app in Hok as [_ [Hx' _]%Forall_cons]. destruct (is_eh_pad x); [|done]. destruct (Hx' eq_refl). congruence. }
  unfold slots. rewrite Hb, slots_split. pose proof (first_insertion_exit init x Hx He) as Hk.
  set (k := first_insertion _) in *. exists (take k init), (drop k init), x.
  rewrite take_app_le in Hnc |- * by done. rewrite drop_app_le by done. rewrite fmap_app. cbn [fmap list_fmap].
  split; [|done]. by rewrite !app_assoc, before_leave_snoc, Hx, <-!app_assoc.
Qed.
Lemma entry_stays pre post b :
  stays b → pads_ok (b_insts b) → pre ≠ [] →
  ∃ i1 i2, before_leave post (insert_at (first_insertion (slots b)) pre (slots b)) = (Orig <$> i1) ++ (New <$> pre) ++ (Orig <$> i2) ∧
    Forall (λ i, is_a_call i = false) i1.
Proof.
  intros Hb Hok Hne. pose proof (insertion_no_call _ Hok) as Hnc. unfold slots. rewrite slots_split.
  set (k := first_insertion _) in *. exists (take k (b_insts b)), (drop k (b_insts b)). split; [|done].
  rewrite app_assoc. destruct (before_leave_stays post ((Orig <$> take k (b_insts b)) ++ (New <$> pre)) (drop k (b_insts b))) as [->|Hd].
  - by apply Forall_drop.
  - done.
  - rewrite Hd. cbn [fmap list_fmap]. rewrite app_nil_r. destruct pre as [|e pre _] using rev_ind; [done|].
    rewrite fmap_app. cbn [fmap list_fmap]. by rewrite !app_assoc, before_leave_new, ?app_nil_r.
Qed.
Lemma exit_code post b : exits b → ∃ is_ x, before_leave post (slots b) = (Orig <$> is_) ++ (New <$> post) ++ [Orig x] ∧ leaves_fn x = true.
Proof.
  intros (init & x & Hb & Hx & _). exists init, x. unfold slots. rewrite Hb, fmap_app. cbn [fmap list_fmap].
  split; [by rewrite before_leave_snoc, Hx|done].
Qed.
Lemma stay_blocks post bs :
  Forall stays bs → concat (before_leave post <$> (slots <$> bs)) = Orig <$> concat (b_insts <$> bs).
Proof.
  induction 1 as [|b bs Hb Hbs IH]; [done|]. cbn [fmap list_fmap concat]. rewrite IH, fmap_app. unfold slots.
  by rewrite before_leave_origs.
Qed.
Lemma path_framed pre post b0 rest :
  pre ≠ [] → Forall block_ok (b0 :: rest) →
  (∃ init last, b0 :: rest = init ++ [last] ∧ Forall stays init ∧ exits last) →
  framed_code pre post (concat (before_leave post <$> (insert_at (first_insertion (slots b0)) pre (slots b0) :: (slots <$> rest)))).
Proof.
  intros Hne Hok (init & lst & Hp & Hst & Hex). destruct init as [|b init]; injection Hp as -> ->; cbn [fmap list_fmap concat].
  - rewrite app_nil_r. apply Forall_cons in Hok as [[_ Hok] _]. by apply entry_exits.
  - apply Forall_cons in Hok as [[_ Hok] _]. apply Forall_cons in Hst as [Hb Hst].
    destruct (entry_stays pre post b Hb Hok Hne) as (i1 & i2 & -> & Hi1).
    rewrite !fmap_app, concat_app, stay_blocks by done. cbn [fmap list_fmap concat]. rewrite app_nil_r.
    destruct (exit_code post lst Hex) as (is_ & x & -> & Hx).
    exists i1, (i2 ++ concat (b_insts <$> init) ++ is_), x. split; [|done]. by rewrite !fmap_app, <-!app_assoc.
Qed.
End paths.

(** ** Runs *)
Section safety.
Context (cfg : config) {AE : AngoraEnv} (arr : list Z → Z) (fptoui : Z → Z) (prog : list afunc).

(** The blocks of a function the pass went over. *)
Definition instrumented_by (f : afunc) : Prop :=
  ∃ F s s', fn_blocks F = f.1 ∧ f.1 ≠ [] ∧ String.prefix "asan.module" (fn_name F) = false ∧ a_code s = [] ∧
    Forall block_ok f.1 ∧ runOnFunction cfg F s = Ret f.2 s'.
(** What callers rely on, for calls less than [d] deep. *)
Definition callees_safe (d : nat) : Prop :=
  ∀ d' f path pv m pv' m', (d' < d)%nat → f ∈ prog → path_of f path →
    runs arr fptoui prog d' (path_slots path) pv m pv' m' → map_safe m →
    map_safe m' ∧ am_ctx m' = shifted cfg (am_ctx m).
Lemma map_safe_upd t mem m : map_safe m → map_safe (upd_tmp t (upd_amem mem m)).
Proof. by intros []. Qed.
Lemma origs_run d lo is_ l pv m pv' m' :
  callees_safe d → expands cfg lo (Orig <$> is_) l → runs arr fptoui prog d l pv m pv' m' → map_safe m →
  map_safe m' ∧ (∃ n, am_ctx m' = Nat.iter n (shifted cfg) (am_ctx m) ∧ (Forall (λ i, is_a_call i = false) is_ → n = 0%nat)) ∧
  ∀ k, k < lo → am_tmp m' !! k = am_tmp m !! k.
Proof.
  intros Hd He. remember (Orig <$> is_) as l0 eqn:Hl0. revert is_ Hl0 pv m.
  induction He as [|e l0 l He IH|i before after keep l0 l Hb Ha Hk Hlv He IH]; intros is_ Hl0 pv m Hr Hs.
  - inversion Hr; subst. split_and!; [done|by exists 0%nat|done].
  - by destruct is_.
  - destruct is_ as [|j is_]; [done|]. injection Hl0 as -> Hl0.
    apply runs_app in Hr as (pv1 & m1 & [-> H1]%runs_code & Hr).
    destruct (chunk_run cfg _ _ _ _ _ _ _ Hb Hs H1) as (Hs1 & Hc1 & Ht1).
    apply runs_app in Hr as (pv2 & m2 & H2 & Hr).
    assert (map_safe m2 ∧ (∃ n, am_ctx m2 = Nat.iter n (shifted cfg) (am_ctx m1) ∧ (is_a_call j = false → n = 0%nat)) ∧ am_tmp m2 = am_tmp m1)
      as (Hs2 & (n2 & Hc2 & Hz2) & Ht2).
    { destruct keep.
      - inversion H2 as [| |? ? ? ? ? ? mem1 ? ? H3|d' ? ? ? ? f path pvc pvc' mc ? ? ? Hi Hf Hp Hc H3]; subst.
        + inversion H3; subst. split_and!; [by destruct Hs1|by exists 0%nat|done].
        + inversion H3; subst. destruct (Hd d' f path pvc (upd_tmp ∅ m1) pvc' mc) as [Hsc Hcc]; [lia|done|done|done|by destruct Hs1|].
          split_and!; [by destruct Hsc|exists 1%nat; split; [done|congruence]|done].
      - inversion H2; subst. split_and!; [done|by exists 0%nat|done]. }
    apply runs_app in Hr as (pv3 & m3 & [-> H3]%runs_code & Hr).
    destruct (chunk_run cfg _ _ _ _ _ _ _ Ha Hs2 H3) as (Hs3 & Hc3 & Ht3).
    destruct (IH is_ Hl0 _ _ Hr Hs3) as (Hs4 & (n4 & Hc4 & Hz4) & Ht4). split_and!; [done| |].
    + exists (n4 + n2)%nat. split; [by rewrite Hc4, Hc3, Hc2, Hc1, Nat.iter_add|].
      intros [Hj Hrest]%Forall_cons. by rewrite Hz2, Hz4.
    + intros k Hlt. by rewrite Ht4, Ht3, Ht2, Ht1.
Qed.
Lemma framed_run d lo n l l' pv m pv' m' :
  callees_safe d → saved_ctx cfg n < lo → framed_code (pre_code cfg n) (post_code cfg n) l → expands cfg lo l l' →
  runs arr fptoui prog d l' pv m pv' m' → map_safe m → map_safe m' ∧ am_ctx m' = shifted cfg (am_ctx m).
Proof.
  intros Hd Hlo (i1 & i2 & x & -> & Hi1 & Hx) He Hr Hs.
  apply expands_app in He as (l1 & lb & -> & H1 & He). apply expands_app in He as (l2 & lc & -> & ->%expands_new & He).
  apply expands_app in He as (l3 & ld & -> & H3 & He). apply expands_app in He as (l4 & l5 & -> & ->%expands_new & H5).
  apply runs_app in Hr as (pv1 & m1 & Hr1 & Hr). destruct (origs_run d lo i1 l1 _ _ _ _ Hd H1 Hr1 Hs) as (Hs1 & (k & Hc1 & Hk) & _).
  rewrite (Hk Hi1) in Hc1. cbn in Hc1.
  apply runs_app in Hr as (pv2 & m2 & [-> Hr2]%runs_code & Hr).
  destruct (pre_run cfg _ _ _ _ _ _ Hs1 Hr2) as (Hs2 & Ht2 & _).
  apply runs_app in Hr as (pv3 & m3 & Hr3 & Hr). destruct (origs_run d lo i2 l3 _ _ _ _ Hd H3 Hr3 Hs2) as (Hs3 & _ & Ht3).
  apply runs_app in Hr as (pv4 & m4 & [-> Hr4]%runs_code & Hr5).
  cbn [post_code run_code run_aemit aval_of] in Hr4. rewrite Ht3, Ht2 in Hr4 by done. cbn [mbind option_bind] in Hr4.
  injection Hr4 as Hm4. assert (map_safe m4) as Hs4.
  { rewrite <-Hm4. pose proof (shifted_range cfg _ (ms_ctx _ Hs1)). destruct Hs3. by split. }
  destruct (origs_run d lo [x] l5 _ _ _ _ Hd H5 Hr5 Hs4) as (Hs5 & (k5 & Hc5 & Hk5) & _). split; [done|].
  rewrite Hk5 in Hc5 by (constructor; [unfold leaves_fn, is_a_call in *; by destruct (i_kind x)|constructor]).
  rewrite Hc5, <-Hm4. cbn. by rewrite Hc1.
Qed.
Lemma zip_expands {A} (g : A → list slot) lo bs out :
  Forall2 (expands cfg lo) (g <$> bs) out → Forall (λ p, expands cfg lo (g p.1) p.2) (zip bs out).
Proof.
  revert out. induction bs as [|b bs IH]; intros out H; [constructor|]. cbn [fmap list_fmap] in H.
  inversion H; subst. constructor; [done|by apply IH].
Qed.
Lemma path_expands (g : block → list slot) lo (path : list (block * list slot)) :
  Forall (λ p, expands cfg lo (g p.1) p.2) path → expands cfg lo (concat (g <$> path.*1)) (path_slots path).
Proof. intros H. apply expands_concat. induction H; cbn [fmap list_fmap]; by constructor. Qed.
Lemma iter_shifted_id n c : num_fn_ctx cfg = 0 → Nat.iter n (shifted cfg) c = c.
Proof. intros H0. induction n as [|n IH]; [done|]. change (shifted cfg (Nat.iter n (shifted cfg) c) = c).
  rewrite IH. unfold shifted. by rewrite H0. Qed.
Lemma zip_fst (bs : list block) (out : list (list slot)) p : p ∈ zip bs out → p.1 ∈ bs.
Proof. destruct p. apply elem_of_zip_l. Qed.

(** A call of an instrumented function, given what its callees keep. *)
Lemma function_safe d f path pv m pv' m' :
  callees_safe d → instrumented_by f → path_of f path →
  runs arr fptoui prog d (path_slots path) pv m pv' m' → map_safe m →
  map_safe m' ∧ am_ctx m' = shifted cfg (am_ctx m).
Proof.
  intros Hd (F & s & s' & HF & Hne & Hasan & Hs & Hok & Hrun) (p0 & others & rest & Hz & -> & Hsub & pre & last & Hpath & Hstay & Hexit) Hr Hm.
  unfold runOnFunction in Hrun. rewrite HF, Hasan, bool_decide_false in Hrun by done. cbn [orb] in Hrun. unfold addFnWrap in Hrun.
  destruct (Z.eqb_spec (num_fn_ctx cfg) 0) as [H0|H0].
  - change (visit_all cfg F (slots <$> f.1) s = Ret f.2 s') in Hrun.
    pose proof (visit_all_spec cfg F (slots <$> f.1) s Hs) as Hv. rewrite Hrun in Hv. destruct Hv as (_ & _ & Hv).
    apply zip_expands in Hv. rewrite Hz in Hv.
    assert (Forall (λ p, expands cfg (a_next s) (slots p.1) p.2) (p0 :: rest)) as Hp.
    { apply Forall_cons in Hv as [Hv0 Hv]. constructor; [done|]. rewrite Forall_forall in Hv |- *. intros x Hx. by apply Hv, Hsub. }
    apply path_expands in Hp.
    assert (concat (slots <$> (p0 :: rest).*1) = Orig <$> concat (b_insts <$> (p0 :: rest).*1)) as Hc.
    { generalize ((p0 :: rest).*1). intros bs. induction bs as [|b bs IH]; [done|]. cbn [fmap list_fmap concat]. by rewrite IH, fmap_app. }
    rewrite Hc in Hp. destruct (origs_run d _ _ _ _ _ _ _ Hd Hp Hr Hm) as (Hm' & (n & Hn & _) & _). split; [done|].
    rewrite Hn, iter_shifted_id by done. unfold shifted. by rewrite H0.
  - destruct s as [seed r c ids n code]. cbn [a_code] in Hs. subst code.
    unfold mbind in Hrun. destruct f as [bs out]. cbn [fst snd] in *. destruct bs as [|b0 bs]; [done|].
    unfold M_bind in Hrun. rewrite fn_wrap_run in Hrun. cbn [fmap list_fmap] in Hrun. cbv beta iota in Hrun.
    set (s1 := Ast seed r c ids (saved_ctx cfg n + 1 + 1) []) in *.
    change (visit_all cfg F (before_leave (post_code cfg n) <$> insert_at (first_insertion (slots b0)) (pre_code cfg n) (slots b0) :: (slots <$> bs)) s1 = Ret out s') in Hrun.
    match type of Hrun with visit_all _ _ ?w _ = _ => pose proof (visit_all_spec cfg F w s1 eq_refl) as Hv end.
    rewrite Hrun in Hv. destruct Hv as (_ & _ & Hv). cbn [fmap list_fmap] in Hv.
    inversion Hv as [|x o0 y os Hv0 Hvs]; subst. cbn [zip zip_with] in Hz. injection Hz as <- <-.
    rewrite <-list_fmap_compose in Hvs. apply zip_expands in Hvs.
    assert (Forall (λ p, expands cfg (a_next s1) ((before_leave (post_code cfg n) ∘ slots) p.1) p.2) rest) as Hp.
    { rewrite Forall_forall in Hvs |- *. intros x Hx. by apply Hvs, Hsub. }
    apply path_expands in Hp.
    eapply (framed_run d (a_next s1) n); [exact Hd|cbn; lia| | |exact Hr|exact Hm].
    + apply (path_framed (pre_code cfg n) (post_code cfg n) b0 (rest.*1)); [done| |].
      * apply Forall_cons in Hok as [Hb0 Hok]. constructor; [done|]. rewrite Forall_forall in Hok |- *.
        intros b Hb. apply Hok. apply list_elem_of_fmap in Hb as (p & -> & Hin). by eapply zip_fst, Hsub.
      * exists (pre.*1), last.1. split; [|split; [by apply Forall_fmap|done]].
        change (b0 :: rest.*1) with (((b0, o0) :: rest).*1). by rewrite Hpath, fmap_app.
    + cbn [fmap list_fmap concat path_slots]. apply expands_join; [exact Hv0|]. by rewrite <-list_fmap_compose.
Qed.
End safety.

(** C8: A run of any function of a program the pass went over, with calls nested as
    deep as they like, leaves every byte the inserted code wrote a nonzero counter
    inside the map, and the location and the contexts below the size of the map;
    and the context at the function's return is the one at its call, shifted when
    a number of contexts was given. *)
Theorem counters_stay_in_map (cfg : config) {AE : AngoraEnv} arr fptoui prog d f path pv m pv' m' :
  Forall (instrumented_by cfg) prog → f ∈ prog → path_of f path →
  runs arr fptoui prog d (path_slots path) pv m pv' m' → map_safe m →
  map_safe m' ∧ am_ctx m' = shifted cfg (am_ctx m).
Proof.
  intros Hprog. revert f path pv m pv' m'. induction d as [d IH] using lt_wf_ind. intros f path pv m pv' m' Hf Hp Hr Hm.
  rewrite Forall_forall in Hprog. eapply (function_safe cfg arr fptoui prog d f path); [|by apply Hprog|done|exact Hr|done].
  intros d' f' path' pv1 m1 pv2 m2 Hlt Hf' Hp' Hr' Hm'. by eapply (IH d' Hlt f').
Qed.

(** ** A program *)

(** A run in which every call, up to [d] deep, takes the same path through the
    program, and the program's own instructions change nothing. *)
Fixpoint run_self (pv : val → option Z) (path : list slot) (d : nat) : list slot → amach → option amach :=
  fix go l m :=
    match l with
    | [] => Some m
    | New e :: l => m1 ← run_aemit pv (λ _, 0) (λ x, x) e m; go l m1
    | Orig i :: l =>
        match d with
        | S d =>
            if is_a_call i then mc ← run_self pv path d path (upd_tmp ∅ m); go l (upd_tmp (am_tmp m) mc) else go l m
        | O => go l m
        end
    end.
Lemma run_self_runs pv prog f path d l m m' :
  f ∈ prog → path_of f path → run_self pv (path_slots path) d l m = Some m' → runs (λ _, 0) (λ x, x) prog d l pv m pv m'.
Proof.
  intros Hf Hp. assert (∀ m, upd_amem (am_mem m) m = m) as Hmem by by intros [].
  revert l m m'. induction d as [|d IHd]; intros l; induction l as [|[i|e] l IHl]; intros m m'; cbn [run_self].
  1, 4: intros [= <-]; constructor.
  - intros Hr. eapply (runs_orig _ _ _ _ i _ _ _ pv (am_mem m)). rewrite Hmem. by apply IHl.
  - destruct (run_aemit _ _ _ _ _) as [m1|] eqn:He; [|done]. intros Hr. eapply runs_new; [exact He|by apply IHl].
  - destruct (is_a_call i) eqn:Hi.
    + destruct (run_self pv (path_slots path) d _ _) as [mc|] eqn:Hc; [|done]. intros Hr.
      eapply runs_call; [done|exact Hf|exact Hp|by apply IHd|by apply IHl].
    + intros Hr. eapply (runs_orig _ _ _ _ i _ _ _ pv (am_mem m)). rewrite Hmem. by apply IHl.
  - destruct (run_aemit _ _ _ _ _) as [m1|] eqn:He; [|done]. intros Hr. eapply runs_new; [exact He|by apply IHl].
Qed.
(** A function that compares, calls itself, and leaves from a second block, with
    two contexts. *)
Definition sample_cfg : config := Config false false 7 false 100 false 2.
Definition sample_fn : func :=
  Func "f" (TFun TVoid [] false)
    [Block 0 [Inst 1 (TInt 1) (ICompare true 53 32 (VArgument 0) (VArgument 1)) false;
              Inst 2 TVoid (ICall (CalleeFun "f") (TFun TVoid [] false) [] false) false;
              Inst 3 TVoid (IBranch None) false];
     Block 1 [Inst 4 (TInt 32) (ILoad (VArgument 2)) false; Inst 5 TVoid (IReturn None) false]].
Definition sample_run : outcome ast (list (list slot)) := runOnFunction sample_cfg (AE:=plain_angora) sample_fn (ast_init 7).
Definition sample_out : list (list slot) := Eval vm_compute in default [] (returned sample_run).
Definition sample : afunc := (fn_blocks sample_fn, sample_out).
Definition sample_path : list (block * list slot) := zip sample.1 sample.2.
Definition sample_mach : amach := AMach ∅ ∅ (2 ^ 40) 5 70000 0 9 [] [].
Lemma outcome_returned {S A} (a : A) (r : outcome S A) : returned r = Some a → r = Ret a (at_state r).
Proof. by destruct r; intros [=]; subst. Qed.
Lemma sample_exits : exits (Block 1 [Inst 4 (TInt 32) (ILoad (VArgument 2)) false; Inst 5 TVoid (IReturn None) false]).
Proof.
  exists [Inst 4 (TInt 32) (ILoad (VArgument 2)) false], (Inst 5 TVoid (IReturn None) false). by split_and!; [..|repeat constructor].
Qed.
Lemma sample_instrumented : instrumented_by sample_cfg (AE:=plain_angora) sample.
Proof.
  exists sample_fn, (ast_init 7), (at_state sample_run). split_and!; [done..| |].
  - assert (∀ l, pads_ok (AE:=plain_angora) l) as Hpads by (intros l; apply Forall_forall; by intros).
    apply Forall_cons; split; [split; [left; repeat constructor|apply Hpads]|].
    apply Forall_cons; split; [split; [right; apply sample_exits|apply Hpads]|done].
  - unfold sample, sample_run. cbn [snd]. apply outcome_returned. vm_compute. reflexivity.
Qed.
Lemma sample_path_ok : path_of sample sample_path.
Proof.
  eexists _, _, _. split_and!; [reflexivity|reflexivity|done|]. eexists [_], _. split_and!; [reflexivity| |].
  - repeat constructor.
  - apply sample_exits.
Qed.
Lemma counters_stay_in_map_witness :
  ∃ pv' m', runs (λ _, 0) (λ x, x) [sample] 1 (path_slots sample_path) (λ _, Some 0) sample_mach pv' m' ∧
    map_safe m' ∧ am_ctx m' = 1 ∧ length (am_writes m') = 2%nat.
Proof.
  destruct (run_self (λ _, Some 0) (path_slots sample_path) 1 (path_slots sample_path) sample_mach) as [m'|] eqn:Hr; [|by vm_compute in Hr].
  pose proof (run_self_runs _ [sample] sample _ _ _ _ _ ltac:(by left) sample_path_ok Hr) as Hruns.
  exists (λ _, Some 0), m'. split; [exact Hruns|].
  destruct (counters_stay_in_map sample_cfg (AE:=plain_angora) (λ _, 0) (λ x, x) [sample] 1 sample sample_path
    (λ _, Some 0) sample_mach (λ _, Some 0) m') as [Hs Hc].
  - repeat constructor. apply sample_instrumented.
  - by left.
  - apply sample_path_ok.
  - exact Hruns.
  - split; change MAP_SIZE with (2 ^ 20); cbn; unfold in_range; [lia|lia|lia|lia|constructor].
  - split; [exact Hs|]. split; [rewrite Hc; by vm_compute|].
    assert (Some (length (am_writes m')) = Some 2%nat) as [= ->]; [|done]. 
    transitivity (length ∘ am_writes <$> run_self (λ _, Some 0) (path_slots sample_path) 1 (path_slots sample_path) sample_mach);
      [by rewrite Hr|by vm_compute].
Defined.
