(* ===== verification/AngoraErase.v ===== *)
(** * What the coverage pass leaves of the program

    The pass returns on every function, and what it adds aside, its output is the
    program it was given, without the calls that [UnfoldBranchPass.cc] planted: the
    two passes together leave every instruction where it was. *)
From S2P Require Import Prelude Ir Angora AngoraIds AngoraSpec AngoraSafe.

(** ** Requests for identifiers *)
Create HintDb costs discriminated.

(** [m] returns, and asks for at most [k] identifiers. *)
Definition costs {A} (k : nat) (m : M ast A) : Prop :=
  ∀ s, Z.of_nat (size (UniqCidSet s) + k) < 2 ^ 31 →
    ∃ a s', m s = Ret a s' ∧ (size (UniqCidSet s') ≤ size (UniqCidSet s) + k)%nat.
Lemma costs_le {A} k k' (m : M ast A) : (k ≤ k')%nat → costs k m → costs k' m.
Proof. intros Hk Hm s Hs. destruct (Hm s) as (a & s' & Hr & Hle); [lia|]. exists a, s'. split; [done|lia]. Qed.
Lemma costs_bind {A B} k1 k2 (m : M ast A) (f : A → M ast B) :
  costs k1 m → (∀ a, costs k2 (f a)) → costs (k1 + k2) (m ≫= f).
Proof.
  intros Hm Hf s Hs. destruct (Hm s) as (a & s1 & Hr & H1); [lia|]. destruct (Hf a s1) as (b & s2 & Hr2 & H2); [lia|].
  exists b, s2. rewrite (bind_run _ _ _ _ _ Hr). split; [done|lia].
Qed.
Lemma costs_free {A B} k (m : M ast A) (f : A → M ast B) : costs 0 m → (∀ a, costs k (f a)) → costs k (m ≫= f).
Proof. apply (costs_bind 0). Qed.
Lemma costs_one {A B} k (m : M ast A) (f : A → M ast B) : costs 1 m → (∀ a, costs k (f a)) → costs (S k) (m ≫= f).
Proof. apply (costs_bind 1). Qed.
(** Operations that keep the set. *)
Lemma costs_still {A} k (m : M ast A) :
  (∀ s, match m s with Ret _ s' => UniqCidSet s' = UniqCidSet s | _ => False end) → costs k m.
Proof.
  intros H s _. specialize (H s). destruct (m s) as [a s'| |]; [|done..]. exists a, s'. split; [done|]. rewrite H. lia.
Qed.
Lemma costs_ret {A} k (a : A) : costs k (mret a : M ast A).
Proof. by apply costs_still. Qed.
Lemma costs_emit k e : costs k (emit e).
Proof. by apply costs_still. Qed.
Lemma costs_def k t o : costs k (def t o).
Proof. by apply costs_still. Qed.
Lemma costs_load k g t : costs k (load g t).
Proof. apply costs_def. Qed.
Lemma costs_if k c th : costs k th → costs k (insert_if_then c th).
Proof.
  intros Hth s Hs. unfold insert_if_then. rewrite bind_get. unfold mbind, M_bind. cbn [put].
  destruct (Hth (set_acode [] s) Hs) as ([] & s' & -> & Hle). by eexists _, _.
Qed.
#[export] Hint Resolve costs_ret costs_emit costs_def costs_load costs_if : costs.

Ltac costs_hook := fail.
Ltac costs_step :=
  match goal with
  | |- _ => costs_hook
  | |- costs _ (_ ≫= _) => apply costs_free; [|intros ?]
  | |- costs _ (if ?b then _ else _) => destruct b
  | |- costs _ (match ?x with _ => _ end) => destruct x
  end.
Ltac costs_auto := cbv zeta; repeat first [solve [eauto 2 with costs] | costs_step].

Section builders.
Context (cfg : config) {AE : AngoraEnv}.
Lemma costs_zext k v w : costs k (createZExt v w).
Proof. unfold createZExt. costs_auto. Qed.
#[local] Hint Resolve costs_zext : costs.
Lemma costs_cast k v : costs k (castArgType v).
Proof. unfold castArgType. costs_auto. Qed.
#[local] Hint Resolve costs_cast : costs.
Lemma costs_when k Cid th : costs k th → costs k (when_cond Cid th).
Proof. intros H. unfold when_cond. costs_auto. Qed.
Lemma costs_edge k : costs k (countEdge cfg).
Proof.
  unfold countEdge. apply (costs_le 0); [lia|]. destruct (negb _); [costs_auto|].
  apply costs_free; [by apply costs_still|intros skip]. destruct skip; [costs_auto|].
  apply costs_free; [by apply costs_still|intros cur]. costs_auto.
Qed.
Lemma costs_unique h : costs 1 (unique_id h).
Proof.
  intros s Hs. destruct (probe_found h (UniqCidSet s)) as (x & Hp & Hx & _); [lia|].
  exists x, (set_ids ({[ x ]} ∪ UniqCidSet s) s). unfold unique_id. rewrite bind_get, Hp. split; [done|].
  change (UniqCidSet (set_ids _ s)) with ({[ x ]} ∪ UniqCidSet s). rewrite size_union by set_solver. rewrite size_singleton. lia.
Qed.
Lemma costs_id i : costs 1 (getInstructionId cfg i).
Proof.
  unfold getInstructionId. destruct (is_bc cfg); [by apply costs_still|].
  apply costs_free; [|intros h; apply costs_unique].
  destruct (gen_id_random cfg); [|destruct (getDebugLoc i) as [[Line Col]|]]; by apply costs_still.
Qed.
End builders.
#[export] Hint Resolve costs_zext costs_cast costs_when costs_edge costs_id : costs.
Ltac costs_hook ::= first [apply costs_when | apply costs_one; [apply costs_id|intros ?]].

Section visits.
Context (cfg : config) {AE : AngoraEnv}.
Lemma costs_bool k Cond Cid : costs k (processBoolCmp cfg Cond Cid).
Proof. unfold processBoolCmp. costs_auto. Qed.
#[local] Hint Resolve costs_bool : costs.
Lemma costs_cmp k i p a b Cid : costs k (processCmp cfg i p a b Cid).
Proof. unfold processCmp. costs_auto. Qed.
#[local] Hint Resolve costs_cmp : costs.
(** The functions of the list that compare take two arguments at least. *)
Definition two_args (i : inst) : Prop :=
  match i_kind i with ICall _ _ args false => isIn i CompareFuncCat = true → (2 ≤ length args)%nat | _ => True end.
Definition compares_two (i : inst) : Prop := is_unfold i = false → two_args i.
Lemma costs_visit_cmp i : costs 1 (visitCmpInst cfg i).
Proof. unfold visitCmpInst. costs_auto. Qed.
Lemma costs_visit_branch c i : costs 1 (visitBranchInst cfg c i).
Proof. unfold visitBranchInst. costs_auto. Qed.
Lemma costs_visit_switch i : costs 1 (visitSwitchInst cfg i).
Proof. unfold visitSwitchInst. costs_auto. Qed.
Lemma costs_for_each {A} (l : list A) f : (∀ x, costs 1 (f x)) → costs (length l) (for_each l f).
Proof. intros Hf. induction l as [|x l IH]; cbn [for_each length]; [apply costs_ret|]. by apply costs_one. Qed.
Lemma costs_exploit i : costs 5 (visitExploitation cfg i).
Proof.
  unfold visitExploitation. cbv zeta. eapply costs_le; [|apply costs_for_each; intros x].
  - rewrite length_zip, length_take. cbn. lia.
  - destruct (_ || _); [|apply costs_ret]. unfold exploit_param. costs_auto.
Qed.
Lemma costs_compare_fn i : two_args i → costs 1 (visitCompareFunc cfg i).
Proof.
  unfold two_args, visitCompareFunc. intros Hc. destruct (i_kind i) as [| | | | | | | | | |f fty args [|]| | | | | |]; try apply costs_ret.
  destruct (isIn i CompareFuncCat); cbn [negb]; [|apply costs_ret]. apply costs_one; [apply costs_id|intros Cid].
  destruct (negb _); [apply costs_ret|]. specialize (Hc eq_refl). destruct args as [|a [|b rest]]; [cbn in Hc; lia..|]. costs_auto.
Qed.
Lemma costs_call i : two_args i → costs 6 (processCall cfg i).
Proof.
  intros Hc. unfold processCall. apply costs_one; [by apply costs_compare_fn|intros _].
  apply (costs_bind 5 0); [apply costs_exploit|intros _]. destruct (negb _); [|apply costs_ret].
  apply costs_free; [by apply costs_still|intros c]. costs_auto.
Qed.

(** ** The walk *)
Context (F : func).
(** The calls that go away. *)
Definition erased (i : inst) : bool := negb (i_nosanitize i) && is_unfold i && bool_decide (users F (i_id i) = []).
Definition origs (l : list slot) : list inst := omap (λ x, match x with Orig i => Some i | New _ => None end) l.
Lemma origs_app l1 l2 : origs (l1 ++ l2) = origs l1 ++ origs l2.
Proof. apply omap_app. Qed.
Lemma origs_new es : origs (New <$> es) = [].
Proof. by induction es. Qed.
Lemma origs_orig is_ : origs (Orig <$> is_) = is_.
Proof. induction is_ as [|i is_ IH]; [done|]. cbn. by rewrite <-IH at 2. Qed.
Lemma origs_item x : origs (item_code x) = if ai_erased x then [] else origs [ai_slot x].
Proof. unfold item_code. rewrite !origs_app, !origs_new, app_nil_r. by destruct (ai_erased x). Qed.
Lemma dispatch_total i s :
  compares_two i → Z.of_nat (size (UniqCidSet s) + 6) < 2 ^ 31 →
  ∃ s', dispatch cfg F i s = Ret (is_unfold i && bool_decide (users F (i_id i) = [])) s' ∧ (size (UniqCidSet s') ≤ size (UniqCidSet s) + 6)%nat.
Proof.
  intros Hc Hs. assert (∀ m : M ast (), costs 6 m → ∃ s', (m ;; mret false) s = Ret false s' ∧ (size (UniqCidSet s') ≤ size (UniqCidSet s) + 6)%nat) as Hret.
  { intros m Hm. destruct (Hm s Hs) as (a & s' & Hr & Hle). exists s'. by rewrite (bind_run _ _ _ _ _ Hr). }
  pose proof (costs_le 5 6 _ ltac:(lia) (costs_exploit i)) as Hx.
  unfold compares_two in Hc. unfold dispatch, is_unfold in *. destruct (i_kind i) as [| | | | | | | | | |f fty args [|]| | | | | |] eqn:Hk; cbn [andb]; try by apply Hret.
  - apply Hret, (costs_le 1); [lia|apply costs_visit_cmp].
  - apply Hret, (costs_le 1); [lia|apply costs_visit_branch].
  - apply Hret, (costs_le 1); [lia|apply costs_visit_switch].
  - destruct f; apply Hret; unfold visitInvokeInst; rewrite Hk; try apply costs_ret. apply costs_call. unfold two_args. by rewrite Hk.
  - unfold visitCallInst. rewrite Hk. destruct f as [f| | |]; [|exists s; split; [done|lia]..].
    destruct (String.eqb f unfold_fn); [exists s; split; [done|lia]|]. by apply Hret, costs_call, Hc.
  - unfold visitCallInst. rewrite Hk. exists s. split; [done|lia].
  - unfold visitCallInst. rewrite Hk. exists s. split; [done|lia].
Qed.
Lemma visit_slot_total done x s :
  Forall compares_two (origs [x]) → Z.of_nat (size (UniqCidSet s) + 6 * length (origs [x])) < 2 ^ 31 →
  ∃ y s', visit_slot cfg F done x s = Ret y s' ∧ (size (UniqCidSet s') ≤ size (UniqCidSet s) + 6 * length (origs [x]))%nat ∧
    origs (item_code y) = filter (λ i, erased i = false) (origs [x]).
Proof.
  destruct x as [i|e]; cbn [visit_slot]; intros Hc Hs.
  2:{ eexists _, s. split_and!; [done|lia|done]. }
  change (origs [Orig i]) with [i] in *. apply Forall_cons in Hc as [Hc _]. cbn [length Nat.mul Nat.add] in *. rewrite filter_cons, filter_nil.
  unfold erased. destruct (i_nosanitize i); cbn [negb andb].
  { eexists _, s. split_and!; [done|lia|]. by rewrite origs_item. }
  destruct ((if at_first done i then countEdge cfg else mret ()) s) as [u s1| |] eqn:H0.
  2, 3: destruct (at_first done i); [destruct (costs_edge cfg 0 s ltac:(lia)) as (? & ? & ? & _); congruence|done].
  assert (size (UniqCidSet s1) ≤ size (UniqCidSet s))%nat as Hs1.
  { destruct (at_first done i); [|by injection H0 as _ <-]. destruct (costs_edge cfg 0 s ltac:(lia)) as (a & s2 & H2 & Hle).
    assert (s2 = s1) as <- by congruence. lia. }
  destruct (dispatch_total i (set_acode [] s1) Hc) as (s2 & Hd & Hs2); [cbn; lia|]. cbn in Hs2.
  eexists _, (set_acode [] s2). split_and!.
  - rewrite (bind_run _ _ _ _ _ H0), (bind_run _ _ _ _ _ (built_run s1)), (bind_run _ _ _ _ _ Hd), (bind_run _ _ _ _ _ (built_run s2)). reflexivity.
  - cbn. lia.
  - rewrite origs_item. destruct (is_compare i); cbn [ai_erased ai_slot]; by destruct (is_unfold i && _).
Qed.
Lemma visit_block_total done l s :
  Forall compares_two (origs l) → Z.of_nat (size (UniqCidSet s) + 6 * length (origs l)) < 2 ^ 31 →
  ∃ rest s', visit_block cfg F done l s = Ret (done ++ rest) s' ∧ (size (UniqCidSet s') ≤ size (UniqCidSet s) + 6 * length (origs l))%nat ∧
    origs (block_code rest) = filter (λ i, erased i = false) (origs l).
Proof.
  revert done s. induction l as [|x l IH]; intros done s Hc Hs; cbn [visit_block].
  { exists [], s. split_and!; [by rewrite app_nil_r|lia|done]. }
  change (x :: l) with ([x] ++ l) in *. rewrite origs_app in *. rewrite length_app in *. apply Forall_app in Hc as [Hx Hc].
  destruct (visit_slot_total done x s Hx) as (y & s1 & Hr & Hs1 & Ho); [lia|]. rewrite (bind_run _ _ _ _ _ Hr).
  destruct (IH (done ++ [y]) s1 Hc) as (rest & s2 & Hr2 & Hs2 & Ho2); [lia|]. exists (y :: rest), s2.
  rewrite Hr2, <-app_assoc. split_and!; [done|lia|]. unfold block_code in *. cbn [fmap list_fmap concat].
  by rewrite origs_app, filter_app, Ho, Ho2.
Qed.
Lemma visit_all_total bs s :
  Forall compares_two (concat (origs <$> bs)) → Z.of_nat (size (UniqCidSet s) + 6 * length (concat (origs <$> bs))) < 2 ^ 31 →
  ∃ out s', visit_all cfg F bs s = Ret out s' ∧ origs <$> out = filter (λ i, erased i = false) <$> (origs <$> bs).
Proof.
  revert s. induction bs as [|b bs IH]; intros s Hc Hs; cbn [visit_all]; [by exists [], s|].
  cbn [fmap list_fmap concat] in *. rewrite length_app in *. apply Forall_app in Hc as [Hb Hc].
  destruct (visit_block_total [] b s Hb) as (rest & s1 & Hr & Hs1 & Ho); [lia|]. rewrite (bind_run _ _ _ _ _ Hr).
  destruct (IH s1 Hc) as (out & s2 & Hr2 & Ho2); [lia|]. rewrite (bind_run _ _ _ _ _ Hr2).
  exists (block_code rest :: out), s2. split; [done|]. cbn [fmap list_fmap]. by rewrite Ho, Ho2.
Qed.
Lemma origs_before_leave es l : origs (before_leave es l) = origs l.
Proof.
  induction l as [|x l _] using rev_ind; [done|]. destruct x as [i|e]; [|by rewrite before_leave_new].
  rewrite before_leave_snoc, !origs_app. f_equal. destruct (leaves_fn i); [|done]. by rewrite origs_app, origs_new.
Qed.
Lemma origs_insert n es l : origs (insert_at n es l) = origs l.
Proof. unfold insert_at. by rewrite !origs_app, origs_new, app_nil_l, <-origs_app, take_drop. Qed.
Lemma addFnWrap_total bs s :
  ∃ out s', addFnWrap cfg bs s = Ret out s' ∧ UniqCidSet s' = UniqCidSet s ∧ origs <$> out = b_insts <$> bs.
Proof.
  assert (∀ bs : list block, origs <$> (slots <$> bs) = b_insts <$> bs) as Hsl.
  { intros bs'. rewrite <-list_fmap_compose. apply list_fmap_ext. intros k b _. apply origs_orig. }
  unfold addFnWrap. destruct (num_fn_ctx cfg =? 0); [by exists (slots <$> bs), s|]. destruct s as [seed r c ids n code].
  unfold mbind, M_bind. rewrite fn_wrap_run. eexists _, _. split_and!; [reflexivity|done|].
  destruct bs as [|b bs]; [done|]. cbn [fmap list_fmap]. rewrite origs_before_leave, origs_insert. f_equal; [apply origs_orig|].
  rewrite <-Hsl, <-!list_fmap_compose. apply list_fmap_ext. intros k b' _. apply origs_before_leave.
Qed.
(** The pass returns, and its output is the program without the erased calls. *)
Lemma runOnFunction_total s :
  String.prefix "asan.module" (fn_name F) = false →
  Forall compares_two (insts F) → Z.of_nat (size (UniqCidSet s) + 6 * length (insts F)) < 2 ^ 31 →
  ∃ out s', runOnFunction cfg F s = Ret out s' ∧
    origs <$> out = filter (λ i, erased i = false) <$> (b_insts <$> fn_blocks F).
Proof.
  intros Hn Hc Hs. unfold runOnFunction. rewrite Hn, orb_false_r. case_bool_decide as He.
  { rewrite He. by exists [], s. }
  destruct (addFnWrap_total (fn_blocks F) s) as (bs & s1 & Hr & Hids & Ho). rewrite (bind_run _ _ _ _ _ Hr).
  unfold insts in *. rewrite <-Ho in *. rewrite <-Hids in Hs. by apply visit_all_total.
Qed.
End visits.

(** ** Unfolding and erasing *)
Section unfold.
Context (succs : inst → list Z) (rnd : nat → Z) (fresh_id : nat → Z) {AE : AngoraEnv} (F : func).
Abbreviation call := (unfold_call rnd fresh_id).
Abbreviation unfolded := (UnfoldBranch succs rnd fresh_id F).
Lemma unfold_block_insts ts b :
  b_insts (unfold_block rnd fresh_id ts b) = b_insts b ∨
  ∃ n l1 l2, b_insts b = l1 ++ l2 ∧ b_insts (unfold_block rnd fresh_id ts b) = l1 ++ call n :: l2.
Proof.
  unfold unfold_block. destruct (list_find _ ts) as [[n t]|]; [|by left]. right.
  exists n, (take (first_insertion (slots b)) (b_insts b)), (drop (first_insertion (slots b)) (b_insts b)). by rewrite take_drop.
Qed.
Lemma unfold_blocks_all (P : inst → Prop) ts bs :
  (∀ n, P (call n)) → Forall P (concat (b_insts <$> bs)) → Forall P (concat (b_insts <$> (unfold_block rnd fresh_id ts <$> bs))).
Proof.
  intros Hcall. induction bs as [|b bs IH]; [done|]. cbn [fmap list_fmap concat]. rewrite !Forall_app. intros [Hb Hbs]. split; [|by apply IH].
  destruct (unfold_block_insts ts b) as [->|(n & l1 & l2 & He & ->)]; [done|]. rewrite He in Hb.
  apply Forall_app in Hb as [Hl1 Hl2]. apply Forall_app. split; [done|]. by constructor.
Qed.
Lemma unfold_blocks_length ts bs :
  (length (concat (b_insts <$> (unfold_block rnd fresh_id ts <$> bs))) ≤ length (concat (b_insts <$> bs)) + length bs)%nat.
Proof.
  induction bs as [|b bs IH]; [done|]. cbn [fmap list_fmap concat length]. rewrite !length_app.
  destruct (unfold_block_insts ts b) as [->|(n & l1 & l2 & -> & ->)]; [lia|]. rewrite !length_app. cbn [length]. lia.
Qed.
Lemma users_none (G : func) id : users G id = [] ↔ Forall (λ i, VInst id ∉ operands (i_kind i)) (insts G).
Proof.
  unfold users. induction (insts G) as [|i l IH]; [done|]. rewrite filter_cons, Forall_cons, <-IH.
  destruct (decide _) as [Hin|Hin]; [split; [done|by intros [Hn _]]|split; [done|by intros [_ ?]]].
Qed.
Lemma erase_block ts b :
  Forall (λ i, is_unfold i = false) (b_insts b) → (∀ n, users unfolded (fresh_id n) = []) →
  filter (λ i, erased unfolded i = false) (b_insts (unfold_block rnd fresh_id ts b)) = b_insts b.
Proof.
  intros Hb Hu. assert (∀ l, Forall (λ i, is_unfold i = false) l → filter (λ i, erased unfolded i = false) l = l) as Hkeep.
  { induction 1 as [|i l Hi Hl IH]; [done|]. rewrite filter_cons_True by (unfold erased; by rewrite Hi, andb_false_r). by rewrite IH. }
  destruct (unfold_block_insts ts b) as [->|(n & l1 & l2 & He & ->)]; [by apply Hkeep|].
  rewrite He in Hb |- *. apply Forall_app in Hb as [Hl1 Hl2].
  assert (erased unfolded (call n) = true) as Hn by (unfold erased, call; cbn [i_nosanitize i_id]; by rewrite Hu).
  by rewrite filter_app, filter_cons_False, !Hkeep by (done || by rewrite Hn).
Qed.
Lemma erase_blocks ts bs :
  Forall (λ i, is_unfold i = false) (concat (b_insts <$> bs)) → (∀ n, users unfolded (fresh_id n) = []) →
  filter (λ i, erased unfolded i = false) <$> (b_insts <$> (unfold_block rnd fresh_id ts <$> bs)) = b_insts <$> bs.
Proof.
  intros Hun Hu. induction bs as [|b bs IH]; [done|]. cbn [fmap list_fmap concat] in *.
  apply Forall_app in Hun as [Hb Hbs]. f_equal; [by apply erase_block|by apply IH].
Qed.
End unfold.

(** C21: the two passes undo each other. On a function that has no call of the
    unfold function of its own, whose listed comparison functions have two
    arguments, and with room for the identifiers, the coverage pass returns on
    what the unfolding pass made of it; and the instructions of its output, its
    own insertions aside, are those of the original function, block by block. *)
Theorem unfold_branch_roundtrip cfg succs rnd fresh_id {AE : AngoraEnv} F s :
  String.prefix "asan.module" (fn_name F) = false →
  Forall (λ i, is_unfold i = false) (insts F) → Forall compares_two (insts F) → (∀ n, users F (fresh_id n) = []) →
  Z.of_nat (size (UniqCidSet s) + 6 * (length (insts F) + length (fn_blocks F))) < 2 ^ 31 →
  ∃ out s', runOnFunction cfg (UnfoldBranch succs rnd fresh_id F) s = Ret out s' ∧ origs <$> out = b_insts <$> fn_blocks F.
Proof.
  intros Hn Hun Hc Hfresh Hs. set (G := UnfoldBranch succs rnd fresh_id F).
  assert (∀ n, users G (fresh_id n) = []) as HuG.
  { intros n. apply users_none, unfold_blocks_all; [|by apply users_none].
    intros k. cbn. rewrite list_elem_of_singleton. done. }
  destruct (runOnFunction_total cfg G s) as (out & s' & Hr & Ho).
  - done.
  - by apply unfold_blocks_all.
  - pose proof (unfold_blocks_length rnd fresh_id (VisitedBB succs (fn_blocks F)) (fn_blocks F)). unfold insts in *. cbn [fn_blocks G UnfoldBranch]. lia.
  - exists out, s'. split; [exact Hr|]. rewrite Ho. unfold insts in Hun. cbn [fn_blocks G UnfoldBranch].
    by apply erase_blocks.
Qed.
(** A comparison, a branch on it, and two ways out: both are marked on the way. *)
Definition branching_fn : func :=
  Func "g" (TFun TVoid [] false)
    [Block 0 [Inst 1 (TInt 1) (ICompare true 53 32 (VArgument 0) (VArgument 1)) false; Inst 2 TVoid (IBranch (Some (VInst 1))) false];
     Block 1 [Inst 3 TVoid (IReturn None) false]; Block 2 [Inst 4 TVoid (IReturn None) false]].
Definition marked_fn : func := UnfoldBranch (AE:=plain_angora) (λ _, [1; 2]) (λ n, Z.of_nat n) (λ n, 100 + Z.of_nat n) branching_fn.
Lemma unfold_branch_roundtrip_witness :
  (length (insts branching_fn), length (insts marked_fn)) = (4, 6)%nat ∧
  ∃ out s', runOnFunction (AE:=plain_angora) sample_cfg marked_fn (ast_init 7) = Ret out s' ∧ origs <$> out = b_insts <$> fn_blocks branching_fn.
Proof.
  split; [by vm_compute|].
  apply (unfold_branch_roundtrip (AE:=plain_angora) sample_cfg (λ _, [1; 2]) (λ n, Z.of_nat n) (λ n, 100 + Z.of_nat n) branching_fn (ast_init 7)).
  - done.
  - repeat constructor.
  - repeat constructor.
  - intros n. apply users_none. unfold insts. cbn.
    repeat apply Forall_cons_2; try apply Forall_nil_2; cbn; rewrite ?elem_of_cons, ?elem_of_nil; intros H; intuition (try done).
    injection H0 as H0. lia.
  - by vm_compute.
Defined.
