(* ===== verification/AngoraCmp.v ===== *)
(** * What the coverage pass reports of a comparison

    The runtime gets the two operands as they are, the outcome, the identifier of
    the comparison and the calling context: in the fast mode only while the
    condition looked for is this one. *)
From S2P Require Import Prelude Ir Angora AngoraIds AngoraSpec AngoraRun.

(** ** The code *)
Section codes.
Context (cfg : config) {AE : AngoraEnv}.
(** An operand of [w] bits, as 64 bits, from the value [n] on. *)
Definition cast_code (n w : Z) (v : val) : list aemit := if w <? 64 then [ADef n Int64 (OZExt (AProg v))] else [].
Definition cast_value (n w : Z) (v : val) : aval := if w <? 64 then ATmp n Int64 else AProg v.
Definition cast_next (n w : Z) : Z := if w <? 64 then n + 1 else n.
Lemma cast_run v w seed r c ids n code :
  v_type v = TInt w → castArgType (AProg v) (Ast seed r c ids n code) =
    Ret (cast_value n w v) (Ast seed r c ids (cast_next n w) (code ++ cast_code n w v)).
Proof.
  intros Hv. unfold castArgType, cast_value, cast_next, cast_code. cbn [aval_type]. rewrite Hv.
  destruct (w <? 64); [apply def_run|by rewrite app_nil_r].
Qed.
Lemma cond_run v seed r c ids n code :
  v_type v = TInt 1 → createZExt (AProg v) 32 (Ast seed r c ids n code) =
    Ret (ATmp n Int32) (Ast seed r c ids (n + 1) (code ++ [ADef n Int32 (OZExt (AProg v))])).
Proof. intros Hv. unfold createZExt. cbn [aval_type]. rewrite Hv. apply def_run. Qed.
Lemma if_run c th u seed r k ids n n' es code :
  th (Ast seed r k ids n []) = Ret u (Ast seed r k ids n' es) →
  insert_if_then c th (Ast seed r k ids n code) = Ret () (Ast seed r k ids n' (code ++ [AIf c es])).
Proof. intros H. unfold insert_if_then. rewrite bind_get. unfold mbind, M_bind. cbn [put]. change (set_acode [] _) with (Ast seed r k ids n []). by rewrite H; destruct u. Qed.
Lemma id_still i s : Z.of_nat (size (UniqCidSet s)) < 2 ^ 31 - 1 →
  ∃ Cid s', getInstructionId cfg i s = Ret Cid s' ∧ in_range 32 Cid ∧ a_code s' = a_code s ∧ a_next s' = a_next s.
Proof.
  intros Hs. unfold getInstructionId. destruct (is_bc cfg).
  { eexists _, _. split; [reflexivity|]. split; [|done]. unfold in_range, u32, wrap. apply Z.mod_pos_bound. lia. }
  set (m := if gen_id_random cfg then _ else _).
  assert (∃ h s1, m s = Ret h s1 ∧ in_range 32 h ∧ UniqCidSet s1 = UniqCidSet s ∧ a_code s1 = a_code s ∧ a_next s1 = a_next s)
    as (h & s1 & Hr & Hh & Hi & Hcode & Hn).
  { assert (∀ x, in_range 32 (u32 x)) as H32 by (intros x; unfold in_range, u32, wrap; apply Z.mod_pos_bound; lia).
    unfold m. destruct (gen_id_random cfg); [|destruct (getDebugLoc i) as [[Line Col]|]].
    all: unfold getRandomInstructionId; rewrite ?getRandomNum_run; eexists _, _; split; [reflexivity|]; split; [apply H32|done]. }
  rewrite (bind_run _ _ _ _ _ Hr). destruct (unique_id_run h s1) as (x & Hu & _ & _ & Hx); [rewrite Hi; lia|done|].
  rewrite Hu. by eexists _, _.
Qed.
Definition fast_then (n Cid w : Z) (cond a b : val) : list aemit :=
  let n1 := cast_next n w in let k := cast_next n1 w in
  cast_code n w a ++ cast_code n1 w b ++
  [ADef k Int32 (OZExt (AProg cond)); ADef (k + 1) Int32 (OLoad GContext);
   ATrace TraceCmp [ATmp k Int32; AConst 32 Cid; ATmp (k + 1) Int32; cast_value n w a; cast_value n1 w b]].
Definition fast_code (n Cid w : Z) (cond a b : val) : list aemit :=
  [ADef n Int32 (OLoad GCondId); ADef (n + 1) Int1 (OICmpEQ (AConst 32 Cid) (ATmp n Int32));
   AIf (ATmp (n + 1) Int1) (fast_then (n + 1 + 1) Cid w cond a b)].
(** The predicate as it is reported. *)
Definition shown_predicate (predicate : Z) (b : val) : Z := if is_negative b then Z.lor predicate COND_SIGN_MASK else predicate.
Definition track_code (n Cid w predicate : Z) (cond a b : val) : list aemit :=
  let n1 := cast_next (n + 1) w in let k := cast_next n1 w in
  [ADef n Int32 (OZExt (AProg cond))] ++ cast_code (n + 1) w a ++ cast_code n1 w b ++
  [ADef k Int32 (OLoad GContext);
   ATrace TraceCmpTT [AConst 32 Cid; ATmp k Int32; AConst 32 (w / 8); AConst 32 (shown_predicate predicate b);
                      cast_value (n + 1) w a; cast_value n1 w b; ATmp n Int32]].
Definition cmp_code (n Cid w predicate : Z) (cond a b : val) : list aemit :=
  if FastMode cfg then fast_code n Cid w cond a b
  else if TrackMode cfg then track_code n Cid w predicate cond a b else [].
Lemma processCmp_run i predicate a b Cid w s :
  v_type a = TInt w → v_type b = TInt w → v_type (VInst (i_id i)) = TInt 1 → 8 ≤ w ≤ 64 →
  ∃ s', processCmp cfg i predicate a b Cid s = Ret () s' ∧
    a_code s' = a_code s ++ cmp_code (a_next s) Cid w predicate (VInst (i_id i)) a b.
Proof.
  intros Ha Hb Hc Hw. destruct s as [seed r c ids n code]. unfold processCmp, cmp_code. rewrite Ha. cbn [traced_type scalar_bits is_ptr].
  rewrite (proj2 (Z.leb_le w 64)) by lia. cbn [negb].
  pose proof (Z.div_le_mono 8 w 8 ltac:(lia) ltac:(lia)) as Hb8. change (8 / 8) with 1 in Hb8.
  rewrite (proj2 (Z.eqb_neq (w / 8) 0)) by lia. cbn [andb negb]. destruct (FastMode cfg).
  - unfold when_cond, load. do 2 (erewrite bind_run by apply def_run). erewrite if_run.
    2:{ erewrite bind_run by by apply (cast_run a w). erewrite bind_run by by apply (cast_run b w).
        erewrite bind_run by by apply cond_run. erewrite bind_run by apply def_run. apply emit_run. }
    eexists. split; [reflexivity|]. cbn [a_code a_next]. unfold fast_code, fast_then. by rewrite <-!app_assoc.
  - destruct (TrackMode cfg); [|eexists; split; [reflexivity|by rewrite app_nil_r]]. unfold load.
    erewrite bind_run by by apply cond_run. erewrite bind_run by by apply (cast_run a w). erewrite bind_run by by apply (cast_run b w).
    erewrite bind_run by apply def_run. rewrite emit_run.
    eexists. split; [reflexivity|]. cbn [a_code a_next]. unfold track_code. by rewrite <-!app_assoc.
Qed.
End codes.

(** ** Its runs *)
Section runs.
Context (cfg : config) {AE : AngoraEnv} (pv : val → option Z) (arr : list Z → Z) (fptoui : Z → Z).
Abbreviation run := (run_code pv arr fptoui).
(** Values aside, the code may only have added to the reports. *)
Definition only_reports (m m' : amach) (reports : list (tracefn * list Z)) : Prop :=
  am_trace m' = reports ++ am_trace m ∧ am_writes m' = am_writes m ∧ am_mem m' = am_mem m ∧ ∀ g, global m' g = global m g.
Context (Cid w x y c : Z) (cond a b : val).
Context (HC : in_range 32 Cid) (Hw : 8 ≤ w ≤ 64) (Ha : pv a = Some x) (Hb : pv b = Some y) (Hc : pv cond = Some c).
Ltac value := step_val; rewrite ?Ha, ?Hb, ?Hc, ?(wrap_small 32 Cid HC); cbn [mbind option_bind].
Ltac define := rewrite run_def; value.
Ltac reports := rewrite run_trace; cbn [values]; repeat value; eexists; split; [reflexivity|]; split_and!; [done|done|done|by intros []].
Lemma fast_then_run n T m :
  ∃ m', run (fast_then n Cid w cond a b) (upd_tmp T m) = Some m' ∧ only_reports m m' [(TraceCmp, [c; Cid; am_ctx m; x; y])].
Proof.
  unfold fast_then, cast_code, cast_value, cast_next. cbv zeta.
  destruct (w <? 64); cbn [app]; repeat define; reports.
Qed.
Lemma fast_run n T m m0 :
  m0 = upd_tmp T m → ∃ m', run (fast_code n Cid w cond a b) m0 = Some m' ∧
    only_reports m m' (if am_cond m =? Cid then [(TraceCmp, [c; Cid; am_ctx m; x; y])] else []).
Proof.
  intros ->. unfold fast_code.
  do 2 define.
  cbn [run_code]. rewrite run_if. value. rewrite (Z.eqb_sym Cid). destruct (am_cond m =? Cid).
  - change (Z.b2z true =? 1) with true. cbv iota. destruct (fast_then_run (n + 1 + 1) (<[n + 1:=Z.b2z true]> (<[n:=am_cond m]> T)) m) as (m' & Hr & Ho).
    exists m'. by rewrite Hr.
  - eexists. split; [reflexivity|]. split_and!; [done|done|done|by intros []].
Qed.
Lemma track_run n predicate T m m0 :
  m0 = upd_tmp T m → ∃ m', run (track_code n Cid w predicate cond a b) m0 = Some m' ∧
    only_reports m m' [(TraceCmpTT, [Cid; am_ctx m; w / 8; u32 (shown_predicate predicate b); x; y; c])].
Proof.
  intros ->. assert (wrap 32 (w / 8) = w / 8) as Hw8.
  { apply wrap_small. unfold in_range. pose proof (Z.div_pos w 8). pose proof (Z.div_le_upper_bound w 8 8). lia. }
  unfold track_code, cast_code, cast_value, cast_next. cbv zeta.
  destruct (w <? 64); cbn [app]; repeat define; rewrite run_trace; cbn [values]; repeat value; rewrite ?Hw8;
    (eexists; split; [reflexivity|]; split_and!; [done|done|done|by intros []]).
Qed.
End runs.

(** C22: what the pass inserts behind an integer comparison of 8 to 64 bits reports
    it: in the fast mode, exactly when the condition looked for is this one, its
    outcome, identifier, context and operands; when tracking, always, with the size
    and the predicate; and the program's memory and the pass's variables stay. *)
Theorem comparison_reported cfg {AE : AngoraEnv} i integer op predicate a b w s :
  i_kind i = ICompare integer op predicate a b → v_type a = TInt w → v_type b = TInt w → v_type (VInst (i_id i)) = TInt 1 →
  8 ≤ w ≤ 64 → Z.of_nat (size (UniqCidSet s)) < 2 ^ 31 - 1 → a_code s = [] →
  ∃ Cid s', visitCmpInst cfg i s = Ret () s' ∧ in_range 32 Cid ∧
    ∀ pv arr fptoui m x y c, pv a = Some x → pv b = Some y → pv (VInst (i_id i)) = Some c →
    ∃ m', run_code pv arr fptoui (a_code s') m = Some m' ∧
      only_reports m m'
        (if FastMode cfg then if am_cond m =? Cid then [(TraceCmp, [c; Cid; am_ctx m; x; y])] else []
         else if TrackMode cfg then [(TraceCmpTT, [Cid; am_ctx m; w / 8; u32 (shown_predicate predicate b); x; y; c])] else []).
Proof.
  intros Hk Hta Htb Htc Hw Hs Hcode. unfold visitCmpInst. rewrite Hk.
  destruct (id_still cfg i s Hs) as (Cid & s1 & Hr & HC & Hcode1 & _). rewrite (bind_run _ _ _ _ _ Hr).
  destruct (processCmp_run cfg i predicate a b Cid w s1 Hta Htb Htc Hw) as (s2 & Hr2 & Hcode2).
  exists Cid, s2. split_and!; [done|done|]. intros pv arr fptoui m x y c Ha Hb Hc. rewrite Hcode2, Hcode1, Hcode. cbn [app]. unfold cmp_code.
  assert (upd_tmp (am_tmp m) m = m) as Hm by by destruct m.
  destruct (FastMode cfg); [by apply (fast_run pv arr fptoui Cid w x y c _ _ _ HC Ha Hb Hc _ (am_tmp m))|].
  destruct (TrackMode cfg); [by apply (track_run pv arr fptoui Cid w x y c _ _ _ HC Hw Ha Hb Hc _ _ (am_tmp m))|].
  exists m. split; [done|]. by split_and!.
Qed.
Lemma comparison_reported_witness :
  let i := Inst 1 (TInt 1) (ICompare true 53 36 (VArgument 0) (VConst 32 (2 ^ 32 - 1))) false in
  let pv v := match v with VConst _ n => Some n | VInst 1 => Some 0 | _ => Some 77 end in
  let m := AMach ∅ ∅ 0 0 11 2218 0 [] [] in
  ∃ s' m', visitCmpInst (AE:=plain_angora) (Config true false 7 false 100 false (-1)) i (ast_init 7) = Ret () s' ∧
    run_code pv (λ _, 0) (λ x, x) (a_code s') m = Some m' ∧
    ∃ Cid, am_trace m' = [(TraceCmpTT, [Cid; 11; 4; 292; 77; 2 ^ 32 - 1; 0])].
Proof.
  intros i pv m.
  destruct (comparison_reported (AE:=plain_angora) (Config true false 7 false 100 false (-1)) i true 53 36 (VArgument 0) (VConst 32 (2 ^ 32 - 1)) 32 (ast_init 7))
    as (Cid & s' & Hr & _ & Hrun); [done|done|done|done|lia|by vm_compute|done|].
  destruct (Hrun pv (λ _, 0) (λ x, x) m 77 (2 ^ 32 - 1) 0 eq_refl eq_refl eq_refl) as (m' & Hm & Ht & _).
  exists s', m'. split_and!; [exact Hr|exact Hm|]. exists Cid. exact Ht.
Defined.
