(* ===== verification/AllocInl.v ===== *)
(** * The checking allocator of the compiler driver

    [include/alloc_inl.h], which [ko_clang.c] allocates with: blocks between
    canaries, as the build without [DEBUG_BUILD] has them. A user pointer is 8
    bytes behind the start of a block of the C library; in front of it are a magic
    number and the size, behind the user's bytes a last byte. *)
From S2P Require Import Prelude State Libc SanLibc.

(** ** Constants *)
Definition MAX_ALLOC : Z := 0x40000000.
Definition ALLOC_MAGIC_C1 : Z := 0xFF00FF00.
Definition ALLOC_MAGIC_F : Z := 0xFE00FE00.
Definition ALLOC_MAGIC_C2 : Z := 0xF0.
Definition ALLOC_OFF_HEAD : Z := 8.
Definition ALLOC_OFF_TOTAL : Z := ALLOC_OFF_HEAD + 1.
Definition ALLOC_BLK_INC : Z := 256.

(** ** Memory and the C library's allocator *)

(** The bytes, and the blocks [malloc] gave out, with their sizes. *)
Record heap := Heap { h_mem : gmap Z Z; h_live : gmap Z Z }.
(** [n] bytes from [p] are an object of their own. *)
Definition free_space (live : gmap Z Z) (p n : Z) : Prop :=
  0 < p ∧ p + n ≤ 2 ^ 64 ∧ ∀ b s, live !! b = Some s → b + s ≤ p ∨ p + n ≤ b.
(** [malloc], [free] and [realloc], by what ISO C says of them: where a block is
    put, and what the other blocks hold after one is given back or moved. *)
Class Host := {
  host_malloc : heap → Z → option Z;
  host_free : heap → Z → gmap Z Z;
  host_realloc : heap → Z → Z → option (Z * gmap Z Z);
  malloc_ok h n p : host_malloc h n = Some p → free_space (h_live h) p n;
  free_ok h p b n a : is_Some (h_live h !! p) → h_live h !! b = Some n → b ≠ p → b ≤ a < b + n →
    peek (host_free h p) a = peek (h_mem h) a;
  realloc_ok h p old n q m : h_live h !! p = Some old → host_realloc h p n = Some (q, m) →
    free_space (delete p (h_live h)) q n ∧
    (∀ i, 0 ≤ i < old `min` n → peek m (q + i) = peek (h_mem h) (p + i)) ∧
    ∀ b k a, h_live h !! b = Some k → b ≠ p → b ≤ a < b + k → peek m a = peek (h_mem h) a;
}.
(** A [u32] in memory, little-endian. *)
Definition dword (m : gmap Z Z) (a : Z) : Z :=
  peek m a + 2 ^ 8 * peek m (a + 1) + 2 ^ 16 * peek m (a + 2) + 2 ^ 24 * peek m (a + 3).
Definition le32 (v : Z) : list Z := [v mod 256; v / 2 ^ 8 mod 256; v / 2 ^ 16 mod 256; v / 2 ^ 24 mod 256].
Definition ALLOC_C1 (m : gmap Z Z) (ptr : Z) : Z := dword m (ptr - 8).
Definition ALLOC_S (m : gmap Z Z) (ptr : Z) : Z := dword m (ptr - 4).
Definition ALLOC_C2 (m : gmap Z Z) (ptr : Z) : Z := peek m (ptr + ALLOC_S m ptr).

Definition in_heap (f : gmap Z Z → gmap Z Z) : M heap () := modify (λ h, Heap (f (h_mem h)) (h_live h)).
Definition of_heap {A} (f : gmap Z Z → A) : M heap A := gets (λ h, f (h_mem h)).

Section alloc.
Context {Ho : Host}.
(** With the checks [ALLOC_CHECK_RESULT]. *)
Definition no_memory {A} : M heap A := die "Out of memory: can't allocate bytes".
Definition malloc (n : Z) : M heap Z :=
  h ← get;
  match host_malloc h n with
  | Some p => put (Heap (h_mem h) (<[p := n]> (h_live h))) ;; mret p
  | None => no_memory
  end.
Definition free (p : Z) : M heap () :=
  h ← get;
  match h_live h !! p with
  | Some _ => put (Heap (host_free h p) (delete p (h_live h)))
  | None => die "free(): invalid pointer"
  end.
Definition realloc (p n : Z) : M heap Z :=
  if p =? 0 then malloc n else
  h ← get;
  match h_live h !! p with
  | Some _ =>
      match host_realloc h p n with
      | Some (q, m) => put (Heap m (<[q := n]> (delete p (h_live h)))) ;; mret q
      | None => no_memory
      end
  | None => die "realloc(): invalid pointer"
  end.

(** ** The routines *)
Definition ALLOC_CHECK_SIZE (s : Z) : M heap () := if MAX_ALLOC <? s then die "Bad alloc request" else mret ().
Definition CHECK_PTR (p : Z) : M heap () :=
  if p =? 0 then mret () else
  c1 ← of_heap (λ m, ALLOC_C1 m p);
  (if negb (Z.lxor c1 ALLOC_MAGIC_C1 =? 0) then
     if c1 =? ALLOC_MAGIC_F then die "Use after free." else die "Corrupted head alloc canary."
   else mret ()) ;;
  c2 ← of_heap (λ m, ALLOC_C2 m p);
  if negb (Z.lxor c2 ALLOC_MAGIC_C2 =? 0) then die "Corrupted tail alloc canary." else mret ().
Definition set_C1 (p magic : Z) : M heap () := in_heap (λ m, store_bytes m (p - 8) (le32 magic)).
(** The three stores behind every allocation. *)
Definition set_guards (p size : Z) : M heap () :=
  set_C1 p ALLOC_MAGIC_C1 ;;
  in_heap (λ m, store_bytes m (p - 4) (le32 size)) ;;
  in_heap (λ m, poke m (p + ALLOC_S m p) ALLOC_MAGIC_C2).

Definition DFL_ck_alloc_nozero (size : Z) : M heap Z :=
  if size =? 0 then mret 0 else
  ALLOC_CHECK_SIZE size ;;
  ret ← malloc (u32 (size + ALLOC_OFF_TOTAL));
  let ret := ret + ALLOC_OFF_HEAD in
  set_guards ret size ;;
  mret ret.
Definition DFL_ck_alloc (size : Z) : M heap Z :=
  if size =? 0 then mret 0 else
  mem ← DFL_ck_alloc_nozero size;
  in_heap (λ m, fill m mem 0 size) ;;
  mret mem.
Definition DFL_ck_free (mem : Z) : M heap () :=
  if mem =? 0 then mret () else
  CHECK_PTR mem ;;
  set_C1 mem ALLOC_MAGIC_F ;;
  free (mem - ALLOC_OFF_HEAD).
Definition DFL_ck_realloc (orig size : Z) : M heap Z :=
  if size =? 0 then DFL_ck_free orig ;; mret 0 else
  '(old_size, orig) ← (if orig =? 0 then mret (0, 0) else
    CHECK_PTR orig ;;
    set_C1 orig ALLOC_MAGIC_F ;;
    old_size ← of_heap (λ m, ALLOC_S m orig);
    ALLOC_CHECK_SIZE old_size ;;
    mret (old_size, orig - ALLOC_OFF_HEAD));
  ALLOC_CHECK_SIZE size ;;
  ret ← realloc orig (u32 (size + ALLOC_OFF_TOTAL));
  let ret := ret + ALLOC_OFF_HEAD in
  set_guards ret size ;;
  (if old_size <? size then in_heap (λ m, fill m (ret + old_size) 0 (size - old_size)) else mret ()) ;;
  mret ret.
Definition DFL_ck_realloc_block (orig size : Z) : M heap Z :=
  if orig =? 0 then DFL_ck_realloc orig size else
  CHECK_PTR orig ;;
  s ← of_heap (λ m, ALLOC_S m orig);
  if size <=? s then mret orig else DFL_ck_realloc orig (u32 (size + ALLOC_BLK_INC)).
Definition DFL_ck_strdup (str : Z) : M heap Z :=
  if str =? 0 then mret 0 else
  size ← of_heap (λ m, u32 (strlen m str + 1));
  ALLOC_CHECK_SIZE size ;;
  ret ← malloc (u32 (size + ALLOC_OFF_TOTAL));
  let ret := ret + ALLOC_OFF_HEAD in
  set_guards ret size ;;
  in_heap (λ m, copy_fwd 1 m ret str size) ;;
  mret ret.
Definition DFL_ck_memdup (mem size : Z) : M heap Z :=
  if (mem =? 0) || (size =? 0) then mret 0 else
  ALLOC_CHECK_SIZE size ;;
  ret ← malloc (u32 (size + ALLOC_OFF_TOTAL));
  let ret := ret + ALLOC_OFF_HEAD in
  set_guards ret size ;;
  in_heap (λ m, copy_fwd 1 m ret mem size) ;;
  mret ret.
Definition DFL_ck_memdup_str (mem size : Z) : M heap Z :=
  if (mem =? 0) || (size =? 0) then mret 0 else
  ALLOC_CHECK_SIZE size ;;
  ret ← malloc (u32 (size + ALLOC_OFF_TOTAL + 1));
  let ret := ret + ALLOC_OFF_HEAD in
  set_guards ret size ;;
  in_heap (λ m, copy_fwd 1 m ret mem size) ;;
  in_heap (λ m, poke m (ret + size) 0) ;;
  mret ret.
(** [alloc_printf], of the text that [snprintf] makes. *)
Definition alloc_printf (text : list Z) : M heap Z :=
  let len := Z.of_nat (length text) in
  if 2 ^ 31 - 1 <? len then die "Whoa, snprintf() fails?!" else
  tmp ← DFL_ck_alloc (u32 (len + 1));
  in_heap (λ m, store_bytes m tmp (text ++ [0])) ;;
  mret tmp.
End alloc.

(** ** Words and canaries *)
Lemma dword_ext m m' a : (∀ i, 0 ≤ i < 4 → peek m' (a + i) = peek m (a + i)) → dword m' a = dword m a.
Proof.
  intros H. unfold dword. pose proof (H 0 ltac:(lia)) as H0. rewrite Z.add_0_r in H0.
  by rewrite H0, (H 1), (H 2), (H 3) by lia.
Qed.
Lemma dword_stored m a v : in_range 32 v → dword (store_bytes m a (le32 v)) a = v.
Proof.
  intros Hv. unfold dword. rewrite !peek_store_bytes. cbn [le32 length]. rewrite !decide_True by lia.
  replace (a - a) with 0 by lia. replace (a + 1 - a) with 1 by lia. replace (a + 2 - a) with 2 by lia. replace (a + 3 - a) with 3 by lia.
  change (default 0 (le32 v !! Z.to_nat 0)) with (v mod 256). change (default 0 (le32 v !! Z.to_nat 1)) with (v / 2 ^ 8 mod 256).
  change (default 0 (le32 v !! Z.to_nat 2)) with (v / 2 ^ 16 mod 256). change (default 0 (le32 v !! Z.to_nat 3)) with (v / 2 ^ 24 mod 256).
  unfold in_range in Hv. rewrite (Z.mod_small (v / 2 ^ 24)) by (split; [apply Z.div_pos; lia|apply Z.div_lt_upper_bound; lia]).
  change (2 ^ 16) with (256 * 256). change (2 ^ 24) with (256 * 256 * 256). change (2 ^ 8) with 256.
  rewrite <-!Z.div_div by lia. pose proof (Z.div_mod v 256). pose proof (Z.div_mod (v / 256) 256). pose proof (Z.div_mod (v / 256 / 256) 256). lia.
Qed.
(** The canaries around the [size] bytes at [p]. *)
Definition guarded (m : gmap Z Z) (p size : Z) : Prop :=
  ALLOC_C1 m p = ALLOC_MAGIC_C1 ∧ ALLOC_S m p = size ∧ peek m (p + size) = ALLOC_MAGIC_C2.
Lemma guarded_ext m m' p size :
  (∀ a, p - 8 ≤ a < p ∨ a = p + size → peek m' a = peek m a) → guarded m p size → guarded m' p size.
Proof.
  intros He (H1 & H2 & H3). unfold guarded, ALLOC_C1, ALLOC_S in *.
  rewrite (dword_ext m m' (p - 8)), (dword_ext m m' (p - 4)), (He (p + size)) by (intros; apply He; lia) || lia. done.
Qed.
Definition guards (m : gmap Z Z) (p size : Z) : gmap Z Z :=
  let m := store_bytes (store_bytes m (p - 8) (le32 ALLOC_MAGIC_C1)) (p - 4) (le32 size) in
  poke m (p + ALLOC_S m p) ALLOC_MAGIC_C2.
Lemma set_guards_run p size h : set_guards p size h = Ret () (Heap (guards (h_mem h) p size) (h_live h)).
Proof. done. Qed.
Lemma guards_frame m p size a : in_range 32 size → ¬ (p - 8 ≤ a < p) → a ≠ p + size → peek (guards m p size) a = peek m a.
Proof.
  intros Hs Ha Hne. unfold guards, ALLOC_S. cbv zeta. rewrite dword_stored by done.
  rewrite peek_poke_ne by lia. rewrite !peek_store_bytes. cbn [le32 length]. by rewrite !decide_False by lia.
Qed.
Lemma guards_guarded m p size : in_range 32 size → guarded (guards m p size) p size.
Proof.
  intros Hs. pose proof Hs as [H0 _]. unfold guards, ALLOC_S. cbv zeta. rewrite dword_stored by done. set (m1 := store_bytes m _ _).
  assert (∀ b v w, b + 4 ≤ p → dword (poke w (p + size) v) b = dword w b) as Hp.
  { intros b v w Hb. apply dword_ext. intros i Hi. apply peek_poke_ne. lia. }
  unfold guarded, ALLOC_C1, ALLOC_S. rewrite !Hp by lia. split_and!.
  - rewrite (dword_ext m1); [unfold m1; by apply dword_stored|]. intros i Hi. rewrite peek_store_bytes. cbn [le32 length]. by rewrite decide_False by lia.
  - by apply dword_stored.
  - apply peek_poke_eq.
Qed.
Lemma check_guarded p size h : p ≠ 0 → guarded (h_mem h) p size → CHECK_PTR p h = Ret () h.
Proof.
  intros Hp (H1 & H2 & H3). unfold CHECK_PTR. rewrite (proj2 (Z.eqb_neq p 0)) by done.
  unfold of_heap. rewrite bind_gets, H1. change (negb (Z.lxor ALLOC_MAGIC_C1 ALLOC_MAGIC_C1 =? 0)) with false. cbv iota.
  rewrite (bind_run _ _ _ () h) by done. rewrite bind_gets. unfold ALLOC_C2. rewrite H2, H3. done.
Qed.

(** ** What the heap holds *)

(** The block of [n] bytes in front of [p] holds [bs]. *)
Definition holds (h : heap) (p : Z) (bs : list Z) : Prop :=
  ∃ n, h_live h !! (p - 8) = Some n ∧ Z.of_nat (length bs) + ALLOC_OFF_TOTAL ≤ n ∧
    0 < Z.of_nat (length bs) ≤ MAX_ALLOC ∧ guarded (h_mem h) p (Z.of_nat (length bs)) ∧
    bytes_of (h_mem h) p (Z.of_nat (length bs)) = bs.
(** The blocks of the C library are apart. *)
Definition apart (live : gmap Z Z) : Prop :=
  ∀ b n, live !! b = Some n → 0 < b ∧ b + n ≤ 2 ^ 64 ∧
    ∀ b' n', live !! b' = Some n' → b ≠ b' → b + n ≤ b' ∨ b' + n' ≤ b.
(** The heap holds exactly the buffers [A], by their pointers. *)
Record models (h : heap) (A : gmap Z (list Z)) : Prop := {
  mo_apart : apart (h_live h);
  mo_holds p bs : A !! p = Some bs → holds h p bs;
  mo_only b n : h_live h !! b = Some n → is_Some (A !! (b + 8));
}.
Lemma apart_delete live b : apart live → apart (delete b live).
Proof.
  intros H a n [_ Ha]%lookup_delete_Some. destruct (H a n Ha) as (H1 & H2 & H3). split_and!; [done..|].
  intros b' n' [_ Hb]%lookup_delete_Some. by apply H3.
Qed.
Lemma apart_insert live b n : apart live → free_space live b n → apart (<[b := n]> live).
Proof.
  intros H (F1 & F2 & F3) a k Ha. apply lookup_insert_Some in Ha as [[<- <-]|[Hne Ha]].
  - split_and!; [done..|]. intros b' n' [[<- _]|[_ Hb]]%lookup_insert_Some Hd; [done|]. destruct (F3 b' n' Hb); lia.
  - destruct (H a k Ha) as (H1 & H2 & H3). split_and!; [done..|].
    intros b' n' [[<- <-]|[_ Hb]]%lookup_insert_Some Hd; [apply F3 in Ha; lia|by apply H3].
Qed.
(** A buffer whose block and bytes stay. *)
Lemma holds_frame h h' p bs n :
  holds h p bs → h_live h !! (p - 8) = Some n → h_live h' !! (p - 8) = Some n →
  (∀ a, p - 8 ≤ a < p - 8 + n → peek (h_mem h') a = peek (h_mem h) a) → holds h' p bs.
Proof.
  intros (k & Hk & Hn & Hb & Hg & Hc) Hl Hl' He. assert (k = n) as -> by congruence. unfold ALLOC_OFF_TOTAL, ALLOC_OFF_HEAD in *.
  exists n. split_and!; [done|done|apply Hb|apply Hb| |].
  - eapply guarded_ext; [|exact Hg]. intros a Ha. apply He. lia.
  - rewrite <-Hc at 2. apply bytes_of_ext. intros i Hi. apply He. lia.
Qed.
Lemma models_live h A p bs : models h A → A !! p = Some bs → ∃ n, h_live h !! (p - 8) = Some n ∧ Z.of_nat (length bs) + 9 ≤ n.
Proof. intros H Hp. destruct (mo_holds _ _ H p bs Hp) as (n & Hn & Hl & _). by exists n. Qed.
(** Giving the block of [p] back; what memory holds elsewhere stays. *)
Lemma models_delete h A p bs n m :
  models h A → A !! p = Some bs → h_live h !! (p - 8) = Some n →
  (∀ b k a, h_live h !! b = Some k → b ≠ p - 8 → b ≤ a < b + k → peek m a = peek (h_mem h) a) →
  models (Heap m (delete (p - 8) (h_live h))) (delete p A).
Proof.
  intros H Hp Hn He. split.
  - by apply apart_delete, H.
  - intros q cs [Hne Hq]%lookup_delete_Some. destruct (models_live h A q cs H Hq) as (k & Hk & Hlen).
    destruct (mo_apart _ _ H _ _ Hk) as (_ & _ & Hap). specialize (Hap _ _ Hn ltac:(lia)).
    eapply holds_frame; [by apply H|exact Hk|cbn; rewrite lookup_delete_ne by lia; done|].
    intros a Ha. apply (He _ _ a Hk); lia.
  - intros b k Hb. cbn in Hb. apply lookup_delete_Some in Hb as [Hne Hb]. rewrite lookup_delete_ne by lia. by apply (mo_only _ _ H) in Hb.
Qed.
(** A new buffer; what memory holds in the other blocks stays. *)
Lemma models_insert h A b n m bs :
  models h A → free_space (h_live h) b n →
  (∀ b' k a, h_live h !! b' = Some k → b' ≤ a < b' + k → peek m a = peek (h_mem h) a) →
  Z.of_nat (length bs) + 9 ≤ n → 0 < Z.of_nat (length bs) ≤ MAX_ALLOC →
  guarded m (b + 8) (Z.of_nat (length bs)) → bytes_of m (b + 8) (Z.of_nat (length bs)) = bs →
  models (Heap m (<[b := n]> (h_live h))) (<[b + 8 := bs]> A) ∧ A !! (b + 8) = None.
Proof.
  intros H Hf He Hn Hb Hg Hc.
  assert (∀ q cs, A !! q = Some cs → q ≠ b + 8) as Hfresh.
  { intros q cs Hq ->. destruct (models_live h A _ cs H Hq) as (k & Hk & Hlen). apply Hf in Hk. lia. }
  split; [split|].
  - apply apart_insert; [apply H|done].
  - intros q cs Hq. apply lookup_insert_Some in Hq as [[<- <-]|[Hne Hq]].
    + exists n. cbn. replace (b + 8 - 8) with b by lia. by rewrite lookup_insert_eq.
    + destruct (models_live h A q cs H Hq) as (k & Hk & Hlen). destruct Hf as (_ & _ & Hf). specialize (Hf _ _ Hk).
      eapply holds_frame; [by apply H|exact Hk|cbn; rewrite lookup_insert_ne by lia; done|].
      intros a Ha. by apply (He _ _ a Hk).
  - intros b' k Hk. cbn in Hk. apply lookup_insert_Some in Hk as [[<- _]|[Hne Hk]]; [by rewrite lookup_insert_eq|].
    rewrite lookup_insert_ne by lia. by apply (mo_only _ _ H) in Hk.
  - destruct (A !! (b + 8)) as [cs|] eqn:Hq; [|done]. by destruct (Hfresh _ _ Hq).
Qed.

(** ** What each routine does to the buffers *)
Section routines.
Context {Ho : Host}.

(** How a routine that allocates may end early. *)
Definition refuses (size : Z) {A} (o : outcome heap A) : Prop :=
  match o with
  | Halt (HDie msg) _ => (msg = "Bad alloc request" ∧ MAX_ALLOC < size) ∨ msg = "Out of memory: can't allocate bytes"
  | _ => False
  end.
(** [m] makes a new buffer of the bytes [bs]. *)
Definition makes (A : gmap Z (list Z)) (bs : list Z) (o : outcome heap Z) : Prop :=
  match o with
  | Ret p h' => 8 < p ∧ A !! p = None ∧ models h' (<[p := bs]> A)
  | _ => refuses (Z.of_nat (length bs)) o
  end.
Lemma check_size_run s h : ALLOC_CHECK_SIZE s h = if MAX_ALLOC <? s then Halt (HDie "Bad alloc request") h else Ret () h.
Proof. unfold ALLOC_CHECK_SIZE. by destruct (_ <? _). Qed.
Lemma total_size size : 0 ≤ size ≤ MAX_ALLOC → u32 (size + ALLOC_OFF_TOTAL) = size + 9.
Proof. intros H. apply wrap_small. unfold in_range, MAX_ALLOC, ALLOC_OFF_TOTAL, ALLOC_OFF_HEAD in *. lia. Qed.
Lemma small_size size : 0 ≤ size ≤ MAX_ALLOC → in_range 32 size.
Proof. unfold in_range, MAX_ALLOC. lia. Qed.
Lemma malloc_cases n h :
  malloc n h = Halt (HDie "Out of memory: can't allocate bytes") h ∨
  ∃ b, malloc n h = Ret b (Heap (h_mem h) (<[b := n]> (h_live h))) ∧ free_space (h_live h) b n.
Proof.
  unfold malloc. rewrite bind_get. destruct (host_malloc h n) as [b|] eqn:Hm; [right|by left].
  exists b. split; [done|by apply malloc_ok].
Qed.
(** Canaries around a new block, and [m] that writes between them. *)
Lemma fresh_buffer h A size n b m bs :
  models h A → 0 < size ≤ MAX_ALLOC → size + 9 ≤ n → Z.of_nat (length bs) = size → free_space (h_live h) b n →
  (∀ a, ¬ (b + 8 ≤ a < b + 8 + size) → peek m a = peek (guards (h_mem h) (b + 8) size) a) →
  bytes_of m (b + 8) size = bs →
  makes A bs (Ret (b + 8) (Heap m (<[b := n]> (h_live h)))).
Proof.
  intros HA Hsize Hn Hlen Hf He Hc. pose proof (small_size size ltac:(lia)) as H32.
  destruct (models_insert h A b n m bs HA Hf) as [Hmo Hnone]; rewrite ?Hlen; try done.
  - intros b' k a Hk Ha. pose proof (proj2 (proj2 Hf) _ _ Hk). rewrite He by lia. apply guards_frame; [done|lia|lia].
  - eapply guarded_ext; [|by apply guards_guarded]. intros a Ha. apply He. lia.
  - split_and!; [|done|done]. destruct Hf as [Hf _]. lia.
Qed.
(** What the allocating routines begin with. *)
Lemma prefix_cases {B} size n (k : Z → M heap B) h :
  let o := (ALLOC_CHECK_SIZE size ;; ret ← malloc n; let ret := ret + ALLOC_OFF_HEAD in set_guards ret size ;; k ret) h in
  refuses size o ∨
  size ≤ MAX_ALLOC ∧ ∃ b, free_space (h_live h) b n ∧ o = k (b + 8) (Heap (guards (h_mem h) (b + 8) size) (<[b := n]> (h_live h))).
Proof.
  cbv zeta. pose proof (check_size_run size h) as Hc. destruct (Z.ltb_spec MAX_ALLOC size).
  { left. rewrite (bind_halt _ _ _ _ _ Hc). by left. }
  rewrite (bind_run _ _ _ _ _ Hc). destruct (malloc_cases n h) as [Hm|(b & Hm & Hf)].
  { left. rewrite (bind_halt _ _ _ _ _ Hm). by right. }
  right. split; [done|]. exists b. split; [done|]. by rewrite (bind_run _ _ _ _ _ Hm).
Qed.
Lemma nozero_cases size h :
  0 < size → let o := DFL_ck_alloc_nozero size h in
  refuses size o ∨
  size ≤ MAX_ALLOC ∧ ∃ b, free_space (h_live h) b (size + 9) ∧
    o = Ret (b + 8) (Heap (guards (h_mem h) (b + 8) size) (<[b := size + 9]> (h_live h))).
Proof.
  intros Hs. cbv zeta. unfold DFL_ck_alloc_nozero. rewrite (proj2 (Z.eqb_neq size 0)) by lia.
  destruct (prefix_cases size (u32 (size + ALLOC_OFF_TOTAL)) mret h) as [H|(Hle & b & Hf & H)]; [by left|right].
  rewrite total_size in Hf, H by lia. split; [done|]. exists b. split; [done|]. rewrite total_size by lia. exact H.
Qed.
Lemma refuses_bind {A B} size (m : M heap A) (k : A → M heap B) h : refuses size (m h) → refuses size ((m ≫= k) h).
Proof. unfold mbind, M_bind. by destruct (m h). Qed.

Lemma bytes_filled m p n : 0 ≤ n → bytes_of (fill m p 0 n) p n = replicate (Z.to_nat n) 0.
Proof.
  intros Hn. apply list_eq. intros i. unfold bytes_of. rewrite list_lookup_fmap. unfold range.
  destruct (decide (i < Z.to_nat n)%nat) as [Hi|Hi].
  - rewrite lookup_seqZ_lt, lookup_replicate_2 by lia. cbn [fmap option_fmap option_map]. by rewrite peek_fill, decide_True by lia.
  - rewrite lookup_seqZ_ge by lia. symmetry. apply lookup_ge_None_2. rewrite length_replicate. lia.
Qed.
Lemma makes_refused A bs o : refuses (Z.of_nat (length bs)) o → makes A bs o.
Proof. by destruct o. Qed.
Lemma body_run (f : gmap Z Z → gmap Z Z) p h : (in_heap f ≫= λ _ : (), (mret p : M heap Z)) h = Ret p (Heap (f (h_mem h)) (h_live h)).
Proof. done. Qed.
(** A zeroed buffer. *)
Lemma ck_alloc_run h A size :
  models h A → 0 < size → makes A (replicate (Z.to_nat size) 0) (DFL_ck_alloc size h).
Proof.
  intros HA Hs. unfold DFL_ck_alloc. rewrite (proj2 (Z.eqb_neq size 0)) by lia.
  assert (Z.of_nat (length (replicate (Z.to_nat size) 0)) = size) as Hl by (rewrite length_replicate; lia).
  destruct (nozero_cases size h Hs) as [H|(Hle & b & Hf & H)].
  { apply makes_refused. rewrite Hl. by apply refuses_bind. }
  rewrite (bind_run _ _ _ _ _ H), body_run. cbn [h_mem h_live].
  apply (fresh_buffer h A size); [done|lia|lia|done|done| |by apply bytes_filled; lia].
  intros a Ha. by rewrite peek_fill, decide_False.
Qed.

(** *** Giving a buffer back *)
Lemma holds_ptr h A p bs : models h A → A !! p = Some bs →
  ∃ n, h_live h !! (p - 8) = Some n ∧ 8 < p ∧ Z.of_nat (length bs) + 9 ≤ n ∧ 0 < Z.of_nat (length bs) ≤ MAX_ALLOC ∧
    guarded (h_mem h) p (Z.of_nat (length bs)) ∧ bytes_of (h_mem h) p (Z.of_nat (length bs)) = bs.
Proof.
  intros H Hp. destruct (mo_holds _ _ H p bs Hp) as (n & Hn & Hl & Hb & Hg & Hc).
  exists n. destruct (mo_apart _ _ H _ _ Hn) as (H0 & _). split_and!; [done|lia|done|lia|lia|done|done].
Qed.
Lemma set_C1_run p magic h : set_C1 p magic h = Ret () (Heap (store_bytes (h_mem h) (p - 8) (le32 magic)) (h_live h)).
Proof. done. Qed.
Lemma magic_frame m p magic a : ¬ (p - 8 ≤ a < p - 4) → peek (store_bytes m (p - 8) (le32 magic)) a = peek m a.
Proof. intros Ha. rewrite peek_store_bytes. cbn [le32 length]. by rewrite decide_False by lia. Qed.
Lemma ck_free_run h A p bs :
  models h A → A !! p = Some bs → ∃ h', DFL_ck_free p h = Ret () h' ∧ models h' (delete p A).
Proof.
  intros HA Hp. destruct (holds_ptr h A p bs HA Hp) as (n & Hn & H8 & Hl & Hb & Hg & Hc).
  unfold DFL_ck_free. rewrite (proj2 (Z.eqb_neq p 0)) by lia.
  rewrite (bind_run _ _ _ _ _ (check_guarded p _ h ltac:(lia) Hg)), (bind_run _ _ _ _ _ (set_C1_run p ALLOC_MAGIC_F h)).
  set (h1 := Heap (store_bytes _ _ _) _). unfold free. rewrite bind_get. unfold ALLOC_OFF_HEAD.
  change (h_live h1) with (h_live h). rewrite Hn. eexists. split; [reflexivity|].
  apply (models_delete h A p bs n); [done|done|done|]. intros b k a Hb' Hne Ha.
  pose proof (proj2 (proj2 (mo_apart _ _ HA _ _ Hn)) _ _ Hb' (not_eq_sym Hne)).
  rewrite (free_ok h1 (p - 8) b k a ltac:(by eexists) Hb' Hne Ha). apply magic_frame. lia.
Qed.
(** *** Copies *)
Lemma holds_slice m p bs off size :
  bytes_of m p (Z.of_nat (length bs)) = bs → 0 ≤ off → 0 ≤ size → off + size ≤ Z.of_nat (length bs) →
  bytes_of m (p + off) size = take (Z.to_nat size) (drop (Z.to_nat off) bs).
Proof.
  intros Hb Ho' Hs Hl. rewrite <-Hb.
  replace (Z.of_nat (length bs)) with (off + (size + (Z.of_nat (length bs) - off - size))) by lia.
  rewrite (bytes_of_app m p off), (bytes_of_app m (p + off) size) by lia.
  rewrite drop_app_length', take_app_length' by (rewrite length_bytes_of; lia). done.
Qed.
(** Canaries around a copy of a part of a buffer. *)
Lemma copy_buffer h A p bs off size n :
  models h A → A !! p = Some bs → 0 ≤ off → 0 < size → off + size ≤ Z.of_nat (length bs) → size + 9 ≤ n →
  makes A (take (Z.to_nat size) (drop (Z.to_nat off) bs))
    ((ALLOC_CHECK_SIZE size ;; ret ← malloc n; let ret := ret + ALLOC_OFF_HEAD in
      set_guards ret size ;; in_heap (λ m, copy_fwd 1 m ret (p + off) size) ;; mret ret) h).
Proof.
  intros HA Hp Ho' Hs Hl Hn. destruct (holds_ptr h A p bs HA Hp) as (np & Hnp & _ & Hlp & _ & _ & Hc).
  assert (Z.of_nat (length (take (Z.to_nat size) (drop (Z.to_nat off) bs))) = size) as Hlen
    by (rewrite length_take, length_drop; lia).
  destruct (prefix_cases size n (λ ret, in_heap (λ m, copy_fwd 1 m ret (p + off) size) ;; mret ret) h) as [H|(Hle & b & Hf & H)].
  { apply makes_refused. by rewrite Hlen. }
  cbv beta zeta in H |- *. rewrite H, body_run. cbn [h_mem h_live]. set (m := guards _ _ _).
  pose proof (proj2 (proj2 Hf) _ _ Hnp) as Hap.
  destruct (copy_fwd_copied 1 m (b + 8) (p + off) size) as [C1 C2]; [lia|lia|].
  apply (fresh_buffer h A size); [done|lia|done|done|done| |].
  - intros a Ha. apply C2. intros i Hi. lia.
  - rewrite <-(holds_slice (h_mem h) p bs off size) by (done || lia). apply bytes_of_ext. intros i Hi.
    specialize (C1 i Hi). rewrite !Z.mul_1_l in C1. rewrite C1. unfold m. apply guards_frame; [apply small_size; lia|lia|lia].
Qed.
Lemma buffer_pos h A p bs : models h A → A !! p = Some bs → 8 < p.
Proof. intros HA Hp. by destruct (holds_ptr h A p bs HA Hp) as (_ & _ & ? & _). Qed.
Lemma ck_memdup_run h A p bs off size :
  models h A → A !! p = Some bs → 0 ≤ off → 0 < size → off + size ≤ Z.of_nat (length bs) →
  makes A (take (Z.to_nat size) (drop (Z.to_nat off) bs)) (DFL_ck_memdup (p + off) size h).
Proof.
  intros HA Hp Ho' Hs Hl. pose proof (buffer_pos h A p bs HA Hp). destruct (holds_ptr h A p bs HA Hp) as (_ & _ & _ & _ & Hmax & _).
  unfold DFL_ck_memdup. rewrite (proj2 (Z.eqb_neq (p + off) 0)), (proj2 (Z.eqb_neq size 0)) by lia. cbn [orb].
  eapply copy_buffer; [done..|]. rewrite total_size by lia. lia.
Qed.
(** The bytes up to the first NUL. *)
Fixpoint cstring (l : list Z) : list Z := match l with [] => [] | b :: l => if b =? 0 then [] else b :: cstring l end.
Lemma cstring_spec l : 0 ∈ l → ∃ rest, l = cstring l ++ 0 :: rest ∧ Forall (λ b, b ≠ 0) (cstring l).
Proof.
  induction l as [|b l IH]; intros Hin; [by apply elem_of_nil in Hin|]. cbn [cstring]. destruct (Z.eqb_spec b 0) as [->|Hb].
  - exists l. split; [done|constructor].
  - apply elem_of_cons in Hin as [<-|Hin]; [done|]. destruct (IH Hin) as (rest & Hl & Hnz). exists rest.
    split; [cbn; f_equal; exact Hl|by constructor].
Qed.
Lemma strlen_buffer m p bs off :
  bytes_of m p (Z.of_nat (length bs)) = bs → 0 ≤ off → 0 ∈ drop (Z.to_nat off) bs →
  strlen m (p + off) = Z.of_nat (length (cstring (drop (Z.to_nat off) bs))).
Proof.
  intros Hb Ho' Hin. destruct (cstring_spec _ Hin) as (rest & Hl & Hnz). set (s := cstring _) in *.
  assert (length (drop (Z.to_nat off) bs) = length s + S (length rest))%nat as Hlen by by rewrite Hl, length_app.
  rewrite length_drop in Hlen.
  assert (bytes_of m (p + off) (Z.of_nat (length s) + 1) = s ++ [0]) as Hs.
  { rewrite (holds_slice m p bs) by (done || lia). rewrite Hl. change (0 :: rest) with ([0] ++ rest). rewrite app_assoc.
    rewrite take_app_length' by (rewrite length_app; cbn; lia). done. }
  rewrite bytes_of_app in Hs by lia. apply app_inj_2 in Hs as [Hs Hz]; [|by rewrite length_bytes_of by lia].
  rewrite (bytes_of_cons _ _ 1) in Hz by lia. injection Hz as Hz.
  apply strlen_unique; [lia| |done]. intros i Hi. rewrite Forall_lookup in Hnz. apply (Hnz (Z.to_nat i)).
  rewrite <-Hs. unfold bytes_of. rewrite list_lookup_fmap. unfold range. rewrite lookup_seqZ_lt by lia. cbn. do 2 f_equal. lia.
Qed.
Lemma ck_strdup_run h A p bs off :
  models h A → A !! p = Some bs → 0 ≤ off → 0 ∈ drop (Z.to_nat off) bs →
  makes A (cstring (drop (Z.to_nat off) bs) ++ [0]) (DFL_ck_strdup (p + off) h).
Proof.
  intros HA Hp Ho' Hin. pose proof (buffer_pos h A p bs HA Hp). destruct (holds_ptr h A p bs HA Hp) as (_ & _ & _ & _ & Hmax & _ & Hc).
  destruct (cstring_spec _ Hin) as (rest & Hl & _). set (s := cstring _) in *.
  assert (length (drop (Z.to_nat off) bs) = length s + S (length rest))%nat as Hlen by by rewrite Hl, length_app.
  rewrite length_drop in Hlen.
  unfold DFL_ck_strdup. rewrite (proj2 (Z.eqb_neq (p + off) 0)) by lia. unfold of_heap. rewrite bind_gets.
  rewrite (strlen_buffer _ p bs off Hc Ho' Hin). fold s.
  assert (u32 (Z.of_nat (length s) + 1) = Z.of_nat (length s) + 1) as -> by (apply wrap_small, small_size; lia).
  replace (s ++ [0]) with (take (Z.to_nat (Z.of_nat (length s) + 1)) (drop (Z.to_nat off) bs)).
  - eapply copy_buffer; [done..|lia|lia|lia|]. rewrite total_size by lia. lia.
  - rewrite Hl. change (0 :: rest) with ([0] ++ rest). rewrite app_assoc. apply take_app_length'. rewrite length_app. cbn. lia.
Qed.

(** *** Resizing *)
Definition resized (size : Z) (bs : list Z) : list Z := take (Z.to_nat size) bs ++ replicate (Z.to_nat size - length bs) 0.
Lemma length_resized size bs : 0 ≤ size → Z.of_nat (length (resized size bs)) = size.
Proof. intros Hs. unfold resized. rewrite length_app, length_take, length_replicate. lia. Qed.
(** A buffer whose first bytes were kept, with zeros behind them. *)
Lemma bytes_resized m0 m m' p q bs size :
  bytes_of m0 p (Z.of_nat (length bs)) = bs → 0 < size →
  (∀ i, 0 ≤ i < Z.of_nat (length bs) `min` size → peek m (q + i) = peek m0 (p + i)) →
  m' = (if Z.of_nat (length bs) <? size then fill m (q + Z.of_nat (length bs)) 0 (size - Z.of_nat (length bs)) else m) →
  bytes_of m' q size = resized size bs.
Proof.
  intros Hb Hs Hk ->. unfold resized. set (old := Z.of_nat (length bs)) in *. assert (0 ≤ old) as H0 by lia. destruct (Z.ltb_spec old size).
  - replace size with (old + (size - old)) at 2 by lia. rewrite bytes_of_app by lia. f_equal.
    + rewrite take_ge by lia. etransitivity; [|exact Hb]. apply bytes_of_ext. intros i Hi. rewrite peek_fill, decide_False by lia. apply Hk. lia.
    + rewrite bytes_filled by lia. f_equal. lia.
  - rewrite (proj2 (Nat.sub_0_le _ _)), app_nil_r by lia. pose proof (holds_slice m0 p bs 0 size Hb ltac:(lia) ltac:(lia) ltac:(lia)) as Hsl.
    rewrite Z.add_0_r in Hsl. change (drop (Z.to_nat 0) bs) with bs in Hsl. rewrite <-Hsl. apply bytes_of_ext. intros i Hi. apply Hk. lia.
Qed.
Lemma realloc_cases p n h old :
  p ≠ 0 → h_live h !! p = Some old →
  realloc p n h = Halt (HDie "Out of memory: can't allocate bytes") h ∨
  ∃ q m, realloc p n h = Ret q (Heap m (<[q := n]> (delete p (h_live h)))) ∧ free_space (delete p (h_live h)) q n ∧
    (∀ i, 0 ≤ i < old `min` n → peek m (q + i) = peek (h_mem h) (p + i)) ∧
    ∀ b k a, h_live h !! b = Some k → b ≠ p → b ≤ a < b + k → peek m a = peek (h_mem h) a.
Proof.
  intros Hp Ho'. unfold realloc. rewrite (proj2 (Z.eqb_neq p 0)) by done. rewrite bind_get, Ho'.
  destruct (host_realloc h p n) as [[q m]|] eqn:Hr; [right|by left]. exists q, m. split; [done|by eapply realloc_ok].
Qed.
Lemma ck_realloc_run h A p bs size :
  models h A → A !! p = Some bs → 0 < size → makes (delete p A) (resized size bs) (DFL_ck_realloc p size h).
Proof.
  intros HA Hp Hs. destruct (holds_ptr h A p bs HA Hp) as (n & Hn & H8 & Hl & Hb & Hg & Hc).
  pose proof (length_resized size bs ltac:(lia)) as Hlen. set (old := Z.of_nat (length bs)) in *.
  unfold DFL_ck_realloc. rewrite (proj2 (Z.eqb_neq size 0)), (proj2 (Z.eqb_neq p 0)) by lia.
  set (h1 := Heap (store_bytes (h_mem h) (p - 8) (le32 ALLOC_MAGIC_F)) (h_live h)).
  assert (ALLOC_S (h_mem h1) p = old) as Hold.
  { destruct Hg as (_ & <- & _). apply dword_ext. intros i Hi. apply magic_frame. lia. }
  erewrite bind_run.
  2:{ rewrite (bind_run _ _ _ _ _ (check_guarded p _ h ltac:(lia) Hg)), (bind_run _ _ _ _ _ (set_C1_run p ALLOC_MAGIC_F h)).
      fold h1. unfold of_heap. rewrite bind_gets, Hold. erewrite bind_run; [reflexivity|].
      rewrite check_size_run. by rewrite (proj2 (Z.ltb_ge _ _)) by lia. }
  pose proof (check_size_run size h1) as Hck. destruct (Z.ltb_spec MAX_ALLOC size) as [Hbig|Hle].
  { apply makes_refused. rewrite Hlen, (bind_halt _ _ _ _ _ Hck). by left. }
  rewrite (bind_run _ _ _ _ _ Hck), total_size by lia. unfold ALLOC_OFF_HEAD.
  destruct (realloc_cases (p - 8) (size + 9) h1 n) as [Hm|(q & m & Hm & Hf & Hk & He)]; [lia|done| |].
  { apply makes_refused. rewrite (bind_halt _ _ _ _ _ Hm). by right. }
  rewrite (bind_run _ _ _ _ _ Hm). cbv zeta. rewrite (bind_run _ _ _ _ _ (set_guards_run _ _ _)). cbn [h_mem h_live].
  set (m2 := guards m (q + 8) size). set (m3 := if old <? size then fill m2 (q + 8 + old) 0 (size - old) else m2).
  replace (_ _) with (Ret (S:=heap) (q + 8) (Heap m3 (<[q := size + 9]> (delete (p - 8) (h_live h))))) by (unfold m3; by destruct (old <? size)).
  pose proof (small_size size ltac:(lia)) as H32.
  assert (∀ a, ¬ (q + 8 + old ≤ a < q + 8 + size) → peek m3 a = peek m2 a) as H3.
  { intros a Ha. unfold m3. destruct (old <? size); [|done]. by rewrite peek_fill, decide_False by lia. }
  pose proof (models_delete h A p bs n (h_mem h) HA Hp Hn (λ _ _ _ _ _ _, eq_refl)) as Hd.
  destruct (models_insert _ (delete p A) q (size + 9) m3 (resized size bs) Hd Hf) as [Hmo Hnone]; rewrite ?Hlen; [|lia|lia| | |].
  - intros b' k a Hb' Ha. pose proof (proj2 (proj2 Hf) _ _ Hb') as Hap. cbn in Hb'. apply lookup_delete_Some in Hb' as [Hne Hb'].
    pose proof (proj2 (proj2 (mo_apart _ _ HA _ _ Hn)) _ _ Hb' Hne). cbn [h_mem].
    rewrite H3 by lia. unfold m2. rewrite guards_frame by (done || lia). rewrite (He _ _ a Hb') by (done || lia). apply magic_frame. lia.
  - eapply guarded_ext; [|by apply guards_guarded]. intros a Ha. apply H3. lia.
  - apply (bytes_resized (h_mem h) m2 m3 p (q + 8)); [done|done| |done]. intros i Hi. unfold m2. rewrite guards_frame by (done || lia).
    replace (q + 8 + i) with (q + (8 + i)) by lia. rewrite Hk by lia. replace (p + i) with (p - 8 + (8 + i)) by lia. apply magic_frame. lia.
  - destruct Hf as [Hf _]. split_and!; [lia|done|done].
Qed.
(** Of a null pointer it allocates. *)
Lemma ck_realloc_null_run h A size : models h A → 0 < size → makes A (replicate (Z.to_nat size) 0) (DFL_ck_realloc 0 size h).
Proof.
  intros HA Hs. unfold DFL_ck_realloc. rewrite (proj2 (Z.eqb_neq size 0)) by lia. rewrite (bind_run _ _ _ (0, 0) h) by done.
  assert (Z.of_nat (length (replicate (Z.to_nat size) 0)) = size) as Hl by (rewrite length_replicate; lia).
  pose proof (prefix_cases size (u32 (size + ALLOC_OFF_TOTAL)) (λ ret,
    (if 0 <? size then in_heap (λ m, fill m (ret + 0) 0 (size - 0)) else mret ()) ;; mret ret) h) as Hc.
  cbv beta zeta in Hc. destruct Hc as [H|(Hle & b & Hf & H)]; [apply makes_refused; rewrite Hl; exact H|].
  change (realloc 0 ?n) with (malloc n). cbv zeta. rewrite H. rewrite total_size in * by lia. rewrite (proj2 (Z.ltb_lt 0 size)) by lia.
  rewrite body_run. cbn [h_mem h_live]. rewrite Z.add_0_r, Z.sub_0_r.
  apply (fresh_buffer h A size); [done|lia|lia|done|done| |by apply bytes_filled; lia].
  intros a Ha. by rewrite peek_fill, decide_False.
Qed.
Lemma ck_realloc_block_run h A p bs size :
  models h A → A !! p = Some bs →
  DFL_ck_realloc_block p size h =
    if size <=? Z.of_nat (length bs) then Ret p h else DFL_ck_realloc p (u32 (size + ALLOC_BLK_INC)) h.
Proof.
  intros HA Hp. destruct (holds_ptr h A p bs HA Hp) as (n & Hn & H8 & Hl & Hb & Hg & Hc).
  unfold DFL_ck_realloc_block. rewrite (proj2 (Z.eqb_neq p 0)) by lia.
  rewrite (bind_run _ _ _ _ _ (check_guarded p _ h ltac:(lia) Hg)). unfold of_heap. rewrite bind_gets.
  destruct Hg as (_ & -> & _). by destruct (size <=? _).
Qed.
Lemma ck_null_size p h A bs : models h A → A !! p = Some bs → ∃ h', DFL_ck_realloc p 0 h = Ret 0 h' ∧ models h' (delete p A).
Proof.
  intros HA Hp. destruct (ck_free_run h A p bs HA Hp) as (h' & Hr & Hm). exists h'. split; [|done].
  unfold DFL_ck_realloc. rewrite Z.eqb_refl. by rewrite (bind_run _ _ _ _ _ Hr).
Qed.
(** *** Writing into a buffer *)
Definition written (i : Z) (cs bs : list Z) : list Z := take (Z.to_nat i) bs ++ cs ++ drop (Z.to_nat i + length cs) bs.
Lemma bytes_store_bytes m p bs i cs :
  bytes_of m p (Z.of_nat (length bs)) = bs → 0 ≤ i → i + Z.of_nat (length cs) ≤ Z.of_nat (length bs) →
  bytes_of (store_bytes m (p + i) cs) p (Z.of_nat (length bs)) = written i cs bs.
Proof.
  intros Hb Hi Hl. apply list_eq. intros k. unfold bytes_of. rewrite list_lookup_fmap. unfold range, written.
  destruct (decide (k < length bs)%nat) as [Hk|Hk].
  2:{ rewrite lookup_seqZ_ge by lia. symmetry. apply lookup_ge_None_2. rewrite !length_app, length_take, length_drop. lia. }
  rewrite lookup_seqZ_lt by lia. cbn [fmap option_fmap option_map]. rewrite peek_store_bytes.
  assert (Some (peek m (p + (0 + Z.of_nat k))) = bs !! k) as Hpk.
  { transitivity (bytes_of m p (Z.of_nat (length bs)) !! k); [|by rewrite Hb]. unfold bytes_of. rewrite list_lookup_fmap. unfold range. by rewrite lookup_seqZ_lt by lia. }
  destruct (decide (_ ≤ _ < _)) as [Hin|Hout].
  - rewrite lookup_app_r, lookup_app_l by (rewrite length_take; lia). rewrite length_take.
    replace (Z.to_nat (p + (0 + Z.of_nat k) - (p + i))) with (k - Z.to_nat i `min` length bs)%nat by lia.
    destruct (lookup_lt_is_Some_2 cs (k - Z.to_nat i `min` length bs)%nat) as [x ->]; [lia|done].
  - rewrite Hpk. destruct (decide (k < Z.to_nat i)%nat).
    + rewrite lookup_app_l by (rewrite length_take; lia). by rewrite lookup_take_lt by lia.
    + rewrite !lookup_app_r by (rewrite ?length_take; lia). rewrite length_take, lookup_drop. f_equal. lia.
Qed.
Lemma models_write h A p bs i cs :
  models h A → A !! p = Some bs → 0 ≤ i → i + Z.of_nat (length cs) ≤ Z.of_nat (length bs) →
  models (Heap (store_bytes (h_mem h) (p + i) cs) (h_live h)) (<[p := written i cs bs]> A).
Proof.
  intros HA Hp Hi Hl. destruct (holds_ptr h A p bs HA Hp) as (n & Hn & H8 & Hln & Hb & Hg & Hc).
  assert (length (written i cs bs) = length bs) as Hlen.
  { unfold written. rewrite !length_app, length_take, length_drop. lia. }
  assert (∀ a, ¬ (p ≤ a < p + Z.of_nat (length bs)) → peek (store_bytes (h_mem h) (p + i) cs) a = peek (h_mem h) a) as Hout.
  { intros a Ha. by rewrite peek_store_bytes, decide_False by lia. }
  split; [apply HA| |].
  - intros q ds Hq. apply lookup_insert_Some in Hq as [[<- <-]|[Hne Hq]].
    + exists n. rewrite Hlen. split_and!; [done|exact Hln|lia|lia| |by apply bytes_store_bytes].
      eapply guarded_ext; [|exact Hg]. intros a Ha. apply Hout. lia.
    + destruct (holds_ptr h A q ds HA Hq) as (k & Hk & _). pose proof (proj2 (proj2 (mo_apart _ _ HA _ _ Hn)) _ _ Hk ltac:(lia)).
      eapply holds_frame; [by apply HA|exact Hk|done|]. intros a Ha. apply Hout. lia.
  - intros b k Hb'. destruct (decide (p = b + 8)) as [->|]; [by rewrite lookup_insert_eq|].
    rewrite lookup_insert_ne by done. by apply (mo_only _ _ HA) in Hb'.
Qed.
Lemma alloc_printf_run h A text :
  models h A → Z.of_nat (length text) < 2 ^ 31 → makes A (text ++ [0]) (alloc_printf text h).
Proof.
  intros HA Ht. unfold alloc_printf. rewrite (proj2 (Z.ltb_ge _ _)) by lia. set (len := Z.of_nat (length text)) in *.
  assert (u32 (len + 1) = len + 1) as -> by (apply wrap_small; unfold in_range; lia).
  assert (Z.of_nat (length (text ++ [0])) = len + 1) as Hl by (rewrite length_app; cbn; lia).
  pose proof (ck_alloc_run h A (len + 1) HA ltac:(lia)) as Hm. unfold makes in Hm.
  destruct (DFL_ck_alloc (len + 1) h) as [p h'|e h'|x h'] eqn:Hr; [| |].
  - rewrite (bind_run _ _ _ _ _ Hr). destruct Hm as (Hp & Hnone & Hm). split_and!; [done|done|].
    pose proof (models_write h' _ p _ 0 (text ++ [0]) Hm (lookup_insert_eq _ _ _) ltac:(lia)) as Hw.
    rewrite length_replicate, insert_insert_eq, Z.add_0_r in Hw. unfold written in Hw. change (Z.to_nat 0) with 0%nat in Hw.
    rewrite drop_ge, app_nil_r in Hw by (rewrite length_replicate; lia). apply Hw. lia.
  - done.
  - rewrite (bind_halt _ _ _ _ _ Hr). rewrite length_replicate, Z2Nat.id in Hm by lia. by rewrite <-Hl in Hm.
Qed.
End routines.

(** *** A lost tail canary *)
Lemma copy_fwd_frame m d src n a : ¬ (d ≤ a < d + n) → peek (copy_fwd 1 m d src n) a = peek m a.
Proof.
  intros Ha. unfold copy_fwd. assert (Forall (λ i, 0 ≤ i < n) (range 0 n)) as Hr.
  { apply Forall_forall. by intros i Hi%elem_of_range. }
  revert m Hr. generalize (range 0 n) as l. intros l.
  induction l as [|i l IH]; intros m Hr; [done|]. apply Forall_cons in Hr as [Hi Hl].
  cbn [foldl]. rewrite IH by done. rewrite peek_poke_ne by lia. done.
Qed.
(** Between intact head canaries and a zero for the tail. *)
Definition tail_lost (m : gmap Z Z) (p size : Z) : Prop :=
  ALLOC_C1 m p = ALLOC_MAGIC_C1 ∧ ALLOC_S m p = size ∧ peek m (p + size) = 0.
Lemma check_tail_lost p size h :
  p ≠ 0 → tail_lost (h_mem h) p size → CHECK_PTR p h = Halt (HDie "Corrupted tail alloc canary.") h.
Proof.
  intros Hp (H1 & H2 & H3). unfold CHECK_PTR. rewrite (proj2 (Z.eqb_neq p 0)) by done.
  unfold of_heap. rewrite bind_gets, H1. change (negb (Z.lxor ALLOC_MAGIC_C1 ALLOC_MAGIC_C1 =? 0)) with false. cbv iota.
  rewrite (bind_run _ _ _ () h) by done. rewrite bind_gets. unfold ALLOC_C2. by rewrite H2, H3.
Qed.
Definition aborts {A} (m : M heap A) (h : heap) : Prop := m h = Halt (HDie "Corrupted tail alloc canary.") h.
Lemma tail_lost_aborts {Ho : Host} p size h :
  p ≠ 0 → tail_lost (h_mem h) p size →
  aborts (DFL_ck_free p) h ∧ ∀ n, aborts (DFL_ck_realloc p n) h ∧ aborts (DFL_ck_realloc_block p n) h.
Proof.
  unfold aborts. intros Hp Ht. pose proof (check_tail_lost p size h Hp Ht) as Hc.
  assert (aborts (DFL_ck_free p) h) as Hfree.
  { unfold aborts, DFL_ck_free. rewrite (proj2 (Z.eqb_neq p 0)) by done. by apply bind_halt. }
  split; [exact Hfree|]. intros n. split.
  - unfold DFL_ck_realloc. destruct (n =? 0); [by apply bind_halt|].
    rewrite (proj2 (Z.eqb_neq p 0)) by done. do 2 apply bind_halt. exact Hc.
  - unfold DFL_ck_realloc_block. rewrite (proj2 (Z.eqb_neq p 0)) by done. by apply bind_halt.
Qed.
Lemma memdup_str_run {Ho : Host} mem size h :
  mem ≠ 0 → 0 < size →
  let o := DFL_ck_memdup_str mem size h in
  refuses size o ∨
  size ≤ MAX_ALLOC ∧ ∃ b, free_space (h_live h) b (size + 10) ∧
    o = Ret (b + 8) (Heap (poke (copy_fwd 1 (guards (h_mem h) (b + 8) size) (b + 8) mem size) (b + 8 + size) 0)
                       (<[b := size + 10]> (h_live h))).
Proof.
  intros Hm Hs o. unfold o, DFL_ck_memdup_str.
  rewrite (proj2 (Z.eqb_neq mem 0)), (proj2 (Z.eqb_neq size 0)) by lia. cbn [orb].
  destruct (prefix_cases size (u32 (size + ALLOC_OFF_TOTAL + 1)) (λ ret, in_heap (λ m, copy_fwd 1 m ret mem size) ;;
    in_heap (λ m, poke m (ret + size) 0) ;; mret ret) h) as [H0|(Hle & b & Hf & H0)]; cbv beta zeta in H0; [by left|right].
  assert (u32 (size + ALLOC_OFF_TOTAL + 1) = size + 10) as Hn.
  { replace (size + ALLOC_OFF_TOTAL + 1) with (size + 10) by (unfold ALLOC_OFF_TOTAL, ALLOC_OFF_HEAD; lia).
    apply wrap_small. unfold in_range, MAX_ALLOC in *. lia. }
  split; [done|]. exists b. rewrite H0, Hn in *. done.
Qed.

(** C39: the byte behind the copy that [DFL_ck_memdup_str] ends with NUL is the tail
    canary of the buffer. Whatever is copied from wherever, the program aborts when
    the buffer is given to [DFL_ck_free], [DFL_ck_realloc] or
    [DFL_ck_realloc_block], in every heap in which the head of the buffer and the
    terminator still are what the routine stored. The buffer does hold the copy
    and its terminator, when the source is apart from the new block. *)
Theorem memdup_str_unfreeable {Ho : Host} h mem size :
  mem ≠ 0 → 0 < size →
  match DFL_ck_memdup_str mem size h with
  | Ret p h1 =>
      (mem + size ≤ p - 8 ∨ p + size + 2 ≤ mem →
        bytes_of (h_mem h1) p (size + 1) = bytes_of (h_mem h) mem size ++ [0]) ∧
      ∀ h2, (∀ a, p - 8 ≤ a < p ∨ a = p + size → peek (h_mem h2) a = peek (h_mem h1) a) →
        aborts (DFL_ck_free p) h2 ∧ ∀ n, aborts (DFL_ck_realloc p n) h2 ∧ aborts (DFL_ck_realloc_block p n) h2
  | o => refuses size o
  end.
Proof.
  intros Hm Hs. destruct (memdup_str_run mem size h Hm Hs) as [H|(Hle & b & (Hb & _) & ->)]; cbv zeta in *.
  { by destruct (DFL_ck_memdup_str mem size h). }
  set (m := guards _ _ _). cbn [h_mem]. pose proof (small_size size ltac:(lia)) as H32. split.
  - intros Hap. rewrite bytes_of_app by lia. f_equal.
    + apply bytes_of_ext. intros i Hi. rewrite peek_poke_ne by lia.
      destruct (copy_fwd_copied 1 m (b + 8) mem size) as [C1 _]; [lia|lia|]. specialize (C1 i Hi).
      rewrite !Z.mul_1_l in C1. rewrite C1. unfold m. apply guards_frame; [done|lia|lia].
    + rewrite (bytes_of_cons _ _ 1) by lia. by rewrite peek_poke_eq.
  - intros h2 He. destruct (guards_guarded (h_mem h) (b + 8) size H32) as (G1 & G2 & _). fold m in G1, G2.
    assert (∀ a, b ≤ a → a + 4 ≤ b + 8 → dword (h_mem h2) a = dword m a) as Hd.
    { intros a Ha Ha4. apply dword_ext. intros i Hi. rewrite He by lia. rewrite peek_poke_ne by lia.
      apply copy_fwd_frame. lia. }
    apply (tail_lost_aborts (b + 8) size h2); [lia|].
    unfold tail_lost, ALLOC_C1, ALLOC_S in *. rewrite !Hd by lia. split_and!; [exact G1|exact G2|].
    rewrite He by lia. apply peek_poke_eq.
Qed.

(** ** The contract of the routines *)

(** What a caller does: the routines, and writes into its buffers. *)
Inductive cmd :=
| CkAlloc (size : Z)
| CkFree (p : Z)
| CkRealloc (p size : Z)
| CkReallocBlock (p size : Z)
| CkStrdup (p off : Z)
| CkMemdup (p off size : Z)
| AllocPrintf (text : list Z)
| Write (p i : Z) (bytes : list Z).
Definition run_cmd {Ho : Host} (c : cmd) : M heap Z :=
  match c with
  | CkAlloc size => DFL_ck_alloc size
  | CkFree p => DFL_ck_free p ;; mret 0
  | CkRealloc p size => DFL_ck_realloc p size
  | CkReallocBlock p size => DFL_ck_realloc_block p size
  | CkStrdup p off => DFL_ck_strdup (p + off)
  | CkMemdup p off size => DFL_ck_memdup (p + off) size
  | AllocPrintf text => alloc_printf text
  | Write p i cs => in_heap (λ m, store_bytes m (p + i) cs) ;; mret 0
  end.
(** Pointers are null or of a buffer, sizes of their type, accesses inside. *)
Definition pointer (A : gmap Z (list Z)) (p : Z) : Prop := p = 0 ∨ is_Some (A !! p).
Definition legal (A : gmap Z (list Z)) (c : cmd) : Prop :=
  match c with
  | CkAlloc size => in_range 32 size
  | CkFree p => pointer A p
  | CkRealloc p size | CkReallocBlock p size => pointer A p ∧ in_range 32 size
  | CkStrdup p off => ∃ bs, A !! p = Some bs ∧ 0 ≤ off ∧ 0 ∈ drop (Z.to_nat off) bs
  | CkMemdup p off size => ∃ bs, A !! p = Some bs ∧ 0 ≤ off ∧ 0 ≤ size ∧ off + size ≤ Z.of_nat (length bs)
  | AllocPrintf text => Z.of_nat (length text) < 2 ^ 31
  | Write p i cs => ∃ bs, A !! p = Some bs ∧ 0 ≤ i ∧ i + Z.of_nat (length cs) ≤ Z.of_nat (length bs)
  end.
(** The buffers afterwards: a fresh pointer, or none of no bytes. *)
Definition fresh_of (A : gmap Z (list Z)) (bs : list Z) (v : Z) (A' : gmap Z (list Z)) : Prop :=
  if decide (bs = []) then v = 0 ∧ A' = A else v ≠ 0 ∧ A !! v = None ∧ A' = <[v := bs]> A.
Definition contents (A : gmap Z (list Z)) (p : Z) : list Z := default [] (A !! p).
Definition effect (A : gmap Z (list Z)) (c : cmd) (v : Z) (A' : gmap Z (list Z)) : Prop :=
  match c with
  | CkAlloc size => fresh_of A (replicate (Z.to_nat size) 0) v A'
  | CkFree p => A' = delete p A
  | CkRealloc p size => fresh_of (delete p A) (resized size (contents A p)) v A'
  | CkReallocBlock p size =>
      match A !! p with
      | Some bs =>
          if size <=? Z.of_nat (length bs) then v = p ∧ A' = A
          else fresh_of (delete p A) (resized (u32 (size + ALLOC_BLK_INC)) bs) v A'
      | None => fresh_of A (replicate (Z.to_nat size) 0) v A'
      end
  | CkStrdup p off => fresh_of A (cstring (drop (Z.to_nat off) (contents A p)) ++ [0]) v A'
  | CkMemdup p off size => fresh_of A (take (Z.to_nat size) (drop (Z.to_nat off) (contents A p))) v A'
  | AllocPrintf text => fresh_of A (text ++ [0]) v A'
  | Write p i cs => A' = <[p := written i cs (contents A p)]> A
  end.
(** The bytes a routine asks for. *)
Definition wanted (A : gmap Z (list Z)) (c : cmd) : Z :=
  match c with
  | CkAlloc size | CkRealloc _ size | CkMemdup _ _ size => size
  | CkFree _ | Write _ _ _ => 0
  | CkReallocBlock p size => match A !! p with Some _ => u32 (size + ALLOC_BLK_INC) | None => size end
  | CkStrdup p off => Z.of_nat (length (cstring (drop (Z.to_nat off) (contents A p)))) + 1
  | AllocPrintf text => Z.of_nat (length text) + 1
  end.
Section contract.
Context {Ho : Host}.
(** A routine that returns had its effect; one that does not asked for memory. *)
Definition keeps (A : gmap Z (list Z)) (c : cmd) (o : outcome heap Z) : Prop :=
  match o with
  | Ret v h' => ∃ A', effect A c v A' ∧ models h' A'
  | o => 0 < wanted A c ∧ refuses (wanted A c) o
  end.
Lemma pointer_cases h A p : models h A → pointer A p → p = 0 ∧ A !! p = None ∨ p ≠ 0 ∧ ∃ bs, A !! p = Some bs.
Proof.
  intros HA Hp. destruct (A !! p) as [bs|] eqn:Hl; [right|left].
  - split; [|by eexists]. pose proof (buffer_pos h A p bs HA Hl). lia.
  - split; [|done]. destruct Hp as [|[? ?]]; [done|congruence].
Qed.
Lemma makes_keeps A A1 c bs size o :
  makes A1 bs o → Z.of_nat (length bs) = size → 0 < size → wanted A c = size →
  (∀ v A', fresh_of A1 bs v A' → effect A c v A') → keeps A c o.
Proof.
  intros Hm Hl Hs Hw He. destruct o as [v h'|e h'|x h']; cbn [makes keeps] in *; rewrite ?Hw, <-?Hl.
  - destruct Hm as (Hv & Hnone & Hm). exists (<[v := bs]> A1). split; [|done]. apply He. unfold fresh_of.
    rewrite decide_False by (intros ->; cbn in Hl; lia). split_and!; [lia|done|done].
  - by split; [lia|].
  - by split; [lia|].
Qed.
Lemma fresh_none A v A' : v = 0 → A' = A → fresh_of A [] v A'.
Proof. done. Qed.
Lemma ck_realloc_keeps h A p bs size :
  models h A → A !! p = Some bs → 0 ≤ size → keeps A (CkRealloc p size) (DFL_ck_realloc p size h).
Proof.
  intros HA Hp H0. destruct (decide (size = 0)) as [->|Hne].
  - destruct (ck_null_size p h A bs HA Hp) as (h' & -> & Hm). exists (delete p A). split; [|done]. cbn.
    by apply fresh_none.
  - eapply makes_keeps; [apply ck_realloc_run; [done..|lia]|by apply length_resized|lia|done|].
    intros v A' Hf. cbn. unfold contents. by rewrite Hp.
Qed.
End contract.

(** C35: the routines refine a map from pointers to byte strings. From a heap that
    holds the buffers [A], a routine called with pointers and sizes a caller may
    pass, or a write inside a buffer, returns what the map says and leaves a heap
    that holds the buffers the map has then; the canaries never fire, and a routine
    ends the program only for want of memory or for more than [MAX_ALLOC] bytes. *)
Theorem ck_heap_refines {Ho : Host} h A c :
  models h A → legal A c →
  match run_cmd c h with
  | Ret v h' => ∃ A', effect A c v A' ∧ models h' A'
  | o => 0 < wanted A c ∧ refuses (wanted A c) o
  end.
Proof.
  intros HA Hc. enough (keeps A c (run_cmd c h)) as Hk by by destruct (run_cmd c h).
  assert (∀ size, 0 ≤ size → length (replicate (Z.to_nat size) 0) = Z.to_nat size) as Hrep by (intros; apply length_replicate).
  destruct c as [size|p|p size|p size|p off|p off size|text|p i cs]; cbn [legal run_cmd] in *.
  - destruct (decide (size = 0)) as [->|Hne]; [by exists A|]. destruct Hc as [H0 _].
    eapply (makes_keeps _ _ _ _ size); [apply ck_alloc_run; [done|lia]|rewrite Hrep; lia|lia|done|done].
  - destruct (pointer_cases h A p HA Hc) as [[-> Hnone]|(Hp & bs & Hl)].
    + exists A. split; [|done]. cbn. by rewrite delete_id.
    + destruct (ck_free_run h A p bs HA Hl) as (h' & Hr & Hm). rewrite (bind_run _ _ _ _ _ Hr). by exists (delete p A).
  - destruct Hc as [Hc [H0 _]]. destruct (pointer_cases h A p HA Hc) as [[-> Hnone]|(Hp & bs & Hl)]; [|by eapply ck_realloc_keeps].
    destruct (decide (size = 0)) as [->|Hne]; [exists A; split; [cbn; by rewrite delete_id|done]|].
    eapply (makes_keeps _ _ _ _ size); [apply ck_realloc_null_run; [done|lia]|rewrite Hrep; lia|lia|done|].
    intros v A' Hf. cbn. unfold contents, resized. rewrite Hnone, delete_id by done. cbn. rewrite take_nil, Nat.sub_0_r. exact Hf.
  - destruct Hc as [Hc H32]. destruct (pointer_cases h A p HA Hc) as [[-> Hnone]|(Hp & bs & Hl)].
    + destruct (decide (size = 0)) as [->|Hne]; [exists A; split; [cbn; by rewrite Hnone|done]|]. destruct H32 as [H0 _].
      eapply (makes_keeps _ _ _ _ size); [apply ck_realloc_null_run; [done|lia]|rewrite Hrep; lia|lia|cbn; by rewrite Hnone|].
      intros v A' Hf. cbn. by rewrite Hnone.
    + rewrite (ck_realloc_block_run h A p bs size HA Hl). destruct (size <=? Z.of_nat (length bs)) eqn:Hle.
      { exists A. split; [cbn; by rewrite Hl, Hle|done]. }
      pose proof (ck_realloc_keeps h A p bs (u32 (size + ALLOC_BLK_INC)) HA Hl (proj1 (u32_range _))) as Hk.
      unfold keeps in *. cbn [wanted effect] in *. rewrite Hl, ?Hle. unfold contents in Hk. rewrite Hl in Hk. exact Hk.
  - destruct Hc as (bs & Hl & H0 & Hin). eapply makes_keeps; [by eapply ck_strdup_run|reflexivity|rewrite length_app; cbn; lia| |].
    + cbn. unfold contents. rewrite Hl, length_app. cbn. lia.
    + intros v A' Hf. cbn. unfold contents. by rewrite Hl.
  - destruct Hc as (bs & Hl & H0 & Hs & Hle). destruct (decide (size = 0)) as [->|Hne].
    { assert (DFL_ck_memdup (p + off) 0 h = Ret 0 h) as -> by (unfold DFL_ck_memdup; by rewrite orb_true_r). by exists A. }
    eapply (makes_keeps _ _ _ _ size); [eapply ck_memdup_run; [done|exact Hl|lia..]|rewrite length_take, length_drop; lia|lia|done|].
    intros v A' Hf. cbn. unfold contents. by rewrite Hl.
  - eapply (makes_keeps _ _ _ _ (Z.of_nat (length text) + 1)); [by apply alloc_printf_run|rewrite length_app; cbn; lia|lia|done|done].
  - destruct Hc as (bs & Hl & H0 & Hle). exists (<[p := written i cs bs]> A). split; [cbn; unfold contents; by rewrite Hl|].
    by apply models_write.
Qed.

(** ** A host *)

(** New blocks go behind all others; [free] leaves memory as it is. *)
Definition top (live : gmap Z Z) : Z := foldr (λ x acc, (x.1 + x.2) `max` acc) 16 (map_to_list live).
Lemma top_above live b s : live !! b = Some s → b + s ≤ top live.
Proof.
  intros Hb%elem_of_map_to_list. unfold top. revert Hb. generalize (map_to_list live). intros l.
  induction l as [|x l IH]; intros Hb; [by apply elem_of_nil in Hb|]. cbn [foldr].
  apply elem_of_cons in Hb as [<-|Hb]; [cbn; lia|specialize (IH Hb); lia].
Qed.
Lemma top_pos live : 16 ≤ top live.
Proof. unfold top. induction (map_to_list live) as [|x l IH]; cbn [foldr]; lia. Qed.
Lemma top_free live live' n : live' ⊆ live → top live + n ≤ 2 ^ 64 → free_space live' (top live) n.
Proof.
  intros Hsub Hn. pose proof (top_pos live). split_and!; [lia|done|]. intros b s Hb. left. apply top_above. by eapply lookup_weaken.
Qed.
Definition bump_malloc (h : heap) (n : Z) : option Z := if top (h_live h) + n <=? 2 ^ 64 then Some (top (h_live h)) else None.
Definition bump_realloc (h : heap) (p n : Z) : option (Z * gmap Z Z) :=
  q ← bump_malloc h n; Some (q, copy_fwd 1 (h_mem h) q p (default 0 (h_live h !! p) `min` n)).
Lemma bump_malloc_ok h n p : bump_malloc h n = Some p → free_space (h_live h) p n.
Proof.
  unfold bump_malloc. destruct (Z.leb_spec (top (h_live h) + n) (2 ^ 64)); [|done]. intros [= <-]. by apply top_free.
Qed.
Lemma bump_free_ok h p b n a :
  is_Some (h_live h !! p) → h_live h !! b = Some n → b ≠ p → b ≤ a < b + n → peek (h_mem h) a = peek (h_mem h) a.
Proof. done. Qed.
Lemma bump_realloc_ok h p old n q m :
  h_live h !! p = Some old → bump_realloc h p n = Some (q, m) →
  free_space (delete p (h_live h)) q n ∧
  (∀ i, 0 ≤ i < old `min` n → peek m (q + i) = peek (h_mem h) (p + i)) ∧
  ∀ b k a, h_live h !! b = Some k → b ≠ p → b ≤ a < b + k → peek m a = peek (h_mem h) a.
Proof.
  intros Hp. unfold bump_realloc, bump_malloc. destruct (Z.leb_spec (top (h_live h) + n) (2 ^ 64)); [|done].
  cbn [mbind option_bind]. intros [= <- <-]. rewrite Hp. cbn [default]. pose proof (top_above _ _ _ Hp) as Ht.
  set (q := top (h_live h)) in *. destruct (copy_fwd_copied 1 (h_mem h) q p (old `min` n)) as [C1 C2]; [lia|lia|].
  split_and!.
  - apply top_free; [apply delete_subseteq|done].
  - intros i Hi. specialize (C1 i Hi). by rewrite !Z.mul_1_l in C1.
  - intros b k a Hb _ Ha. apply C2. pose proof (top_above _ _ _ Hb). fold q in H. lia.
Qed.
Definition bump_host : Host := {|
  host_malloc := bump_malloc;
  host_free h _ := h_mem h;
  host_realloc := bump_realloc;
  malloc_ok := bump_malloc_ok;
  free_ok := bump_free_ok;
  realloc_ok := bump_realloc_ok;
|}.
Definition no_blocks : heap := Heap ∅ ∅.
Lemma no_blocks_models : models no_blocks ∅.
Proof. split; [intros b n Hb|intros p bs Hb|intros b n Hb]; cbn in Hb; by apply lookup_empty_Some in Hb. Qed.
(** Allocate three bytes and resize them to five. *)
Definition sample_cmds : list cmd := [CkAlloc 3; CkRealloc 24 5].
Fixpoint run_cmds (l : list cmd) : M heap (list Z) :=
  match l with [] => mret [] | c :: l => v ← run_cmd (Ho:=bump_host) c; vs ← run_cmds l; mret (v :: vs) end.
Lemma sample_pointers : returned (run_cmds sample_cmds no_blocks) = Some [24; 36].
Proof. vm_compute. reflexivity. Qed.
Lemma ck_heap_refines_witness :
  ∃ h1 h2, run_cmd (Ho:=bump_host) (CkAlloc 3) no_blocks = Ret 24 h1 ∧ models h1 {[ 24 := [0; 0; 0] ]} ∧
    run_cmd (Ho:=bump_host) (CkRealloc 24 5) h1 = Ret 36 h2 ∧ models h2 {[ 36 := [0; 0; 0; 0; 0] ]}.
Proof.
  pose proof sample_pointers as Hs. cbn [sample_cmds run_cmds] in Hs. unfold mbind, M_bind in Hs.
  assert (legal ∅ (CkAlloc 3)) as Hlegal0 by (cbn; unfold in_range; lia).
  pose proof (ck_heap_refines (Ho:=bump_host) no_blocks ∅ (CkAlloc 3) no_blocks_models Hlegal0) as H1.
  destruct (run_cmd (Ho:=bump_host) (CkAlloc 3) no_blocks) as [v h1| |]; [|discriminate Hs..].
  destruct H1 as (A1 & (_ & _ & ->) & Hm1).
  destruct (run_cmd (Ho:=bump_host) (CkRealloc 24 5) h1) as [w h2| |] eqn:Hr; [|discriminate Hs..].
  cbn in Hs. injection Hs as -> ->. exists h1, h2. split; [reflexivity|]. split; [exact Hm1|]. split; [exact Hr|].
  assert (legal (<[24 := [0; 0; 0]]> ∅) (CkRealloc 24 5)) as Hlegal by (split; [right; by eexists|done]).
  pose proof (ck_heap_refines (Ho:=bump_host) h1 _ (CkRealloc 24 5) Hm1 Hlegal) as H2. rewrite Hr in H2.
  destruct H2 as (A2 & (_ & _ & ->) & Hm2). exact Hm2.
Defined.
(** A copy of two bytes of that buffer. *)
Lemma memdup_str_unfreeable_witness :
  ∃ h1 h2, run_cmd (Ho:=bump_host) (CkAlloc 3) no_blocks = Ret 24 h1 ∧
    DFL_ck_memdup_str (Ho:=bump_host) (24 + 1) 2 h1 = Ret 36 h2 ∧
    bytes_of (h_mem h2) 36 3 = [0; 0; 0] ∧
    DFL_ck_free (Ho:=bump_host) 36 h2 = Halt (HDie "Corrupted tail alloc canary.") h2 ∧
    DFL_ck_realloc (Ho:=bump_host) 36 9 h2 = Halt (HDie "Corrupted tail alloc canary.") h2.
Proof.
  assert (returned ((v ← run_cmd (Ho:=bump_host) (CkAlloc 3); w ← DFL_ck_memdup_str (Ho:=bump_host) (24 + 1) 2;
      c ← of_heap (λ m, bytes_of m 36 3); mret (v, w, c)) no_blocks) = Some (24, 36, [0; 0; 0]))
    as Hs by (vm_compute; reflexivity).
  unfold mbind, M_bind in Hs.
  destruct (run_cmd (Ho:=bump_host) (CkAlloc 3) no_blocks) as [v h1| |]; [|discriminate Hs..].
  destruct (DFL_ck_memdup_str (24 + 1) 2 h1) as [w h2| |] eqn:Hr; [|discriminate Hs..].
  change (Some (v, w, bytes_of (h_mem h2) 36 3) = Some (24, 36, [0; 0; 0])) in Hs.
  apply (inj Some) in Hs. pose proof (f_equal snd Hs) as Hc. apply (f_equal fst) in Hs. cbn [fst snd] in *.
  injection Hs as -> ->. exists h1, h2. split; [reflexivity|]. split; [exact Hr|]. split; [exact Hc|].
  pose proof (memdup_str_unfreeable (Ho:=bump_host) h1 (24 + 1) 2 ltac:(lia) ltac:(lia)) as H2. rewrite Hr in H2.
  destruct H2 as [_ H2]. destruct (H2 h2 (λ _ _, eq_refl)) as [H3 H4]. split; [exact H3|exact (proj1 (H4 9))].
Defined.
