(* ===== verification/KoClang.v ===== *)
(** * The compiler driver ([compiler/ko_clang.c])

    [ko-clang] finds its libraries next to its own executable, edits the command
    line and replaces itself by clang. The array [cc_params] has the size the
    code allocates and a write past its end is a crash; the environment, the
    file system and [realpath] are parameters. The result of [main] is the
    argument vector given to [execvp]. *)
From Stdlib Require Import Ascii.
From S2P Require Import Prelude AllocInl.

(** ** Strings *)

(** [strrchr]: the string from the last [c] on *)
Fixpoint strrchr (s : string) (c : ascii) : option string :=
  match s with
  | EmptyString => None
  | String d rest =>
      match strrchr rest c with
      | Some t => Some t
      | None => if Ascii.eqb d c then Some s else None
      end
  end.
Definition after_first (s : string) : string :=
  match s with EmptyString => EmptyString | String _ t => t end.
(** [strstr], as a condition *)
Fixpoint strstr (s t : string) : bool :=
  String.prefix t s || match s with EmptyString => false | String _ s => strstr s t end.

(** ** State: the static variables *)
Inductive clang := CLANG_FAST_TYPE | CLANG_TRACK_TYPE | CLANG_DFSAN_TYPE | CLANG_PIN_TYPE.
Record driver := Driver {
  obj_path : string;
  cc_params : list (option string);
  cc_par_cnt : nat;
  clang_type : clang;
  is_cxx : bool;
}.
Definition driver_init : driver := Driver "" [] 1 CLANG_FAST_TYPE false.
Definition upd_params (ps : list (option string)) (n : nat) (d : driver) : driver :=
  Driver (obj_path d) ps n (clang_type d) (is_cxx d).
Definition set_obj_path (p : string) (d : driver) : driver :=
  Driver p (cc_params d) (cc_par_cnt d) (clang_type d) (is_cxx d).
Definition set_type (t : clang) (d : driver) : driver :=
  Driver (obj_path d) (cc_params d) (cc_par_cnt d) t (is_cxx d).
Definition set_cxx (d : driver) : driver :=
  Driver (obj_path d) (cc_params d) (cc_par_cnt d) (clang_type d) true.

(** [cc_params[i] = v], inside the array *)
Definition store_param (i : nat) (v : option string) : M driver () :=
  d ← get;
  if Nat.ltb i (length (cc_params d)) then put (upd_params (<[i := v]> (cc_params d)) (cc_par_cnt d) d)
  else segv.
(** [cc_params[cc_par_cnt++] = s] *)
Definition push (s : string) : M driver () :=
  n ← gets cc_par_cnt;
  modify (λ d, upd_params (cc_params d) (S n) d) ;;
  store_param n (Some s).
Definition push_all (l : list string) : M driver () := for_each l push.
(** [cc_params[cc_par_cnt] = NULL] *)
Definition finish_params : M driver () := n ← gets cc_par_cnt; store_param n None.

(** [cc_params = ck_alloc((argc + 128) * sizeof(u8 * ))], zeroed *)
Definition alloc_params (argc : nat) : M driver () :=
  if MAX_ALLOC <? u32 ((Z.of_nat argc + 128) * 8) then die "Bad alloc request" else
  modify (λ d, upd_params (replicate (argc + 128) None) (cc_par_cnt d) d).

Section driver.
(** The environment, [realpath] and [access(.., R_OK)] *)
Variable getenv : string → option string.
Variable realpath : string → option string.
Variable accessible : string → bool.

Definition env_set (v : string) : bool := match getenv v with Some _ => true | None => false end.

Definition find_obj (argv0 : string) : M driver () :=
  match realpath argv0 with
  | None => die "Cannot get real path of the compiler"
  | Some path =>
      match strrchr path "/" with
      | Some slash =>
          let dir := String.substring 0 (String.length path - String.length slash) path in
          if accessible (dir +:+ "/pass/libTaintPass.so") then modify (set_obj_path dir)
          else die "Unable to find 'libTaintPass.so'"
      | None => die "Unable to find 'libTaintPass.so'"
      end
  end.

Definition check_type (name : string) : M driver () :=
  modify (set_type (if env_set "USE_PIN" then CLANG_PIN_TYPE else CLANG_DFSAN_TYPE)) ;;
  if String.eqb name "ko-clang++" then modify set_cxx else mret ().

(** The arguments after [argv[0]] *)
Fixpoint check_if_assembler (args : list string) : bool :=
  match args with
  | [] => false
  | cur :: args =>
      match strrchr cur "." with
      | Some ext =>
          if String.eqb (after_first ext) "s" || String.eqb (after_first ext) "S" then true
          else check_if_assembler args
      | None => check_if_assembler args
      end
  end.

Definition add_runtime : M driver () :=
  d ← get;
  let o := obj_path d in
  (match clang_type d with
   | CLANG_DFSAN_TYPE =>
       push_all ["-Wl,--whole-archive"; o +:+ "/lib/libdfsan_rt-x86_64.a"; "-Wl,--no-whole-archive";
                 "-Wl,--dynamic-list=" +:+ o +:+ "/lib/libdfsan_rt-x86_64.a.syms";
                 "-Wl,-T" +:+ o +:+ "/lib/taint.ld"]
   | CLANG_PIN_TYPE => push (o +:+ "/lib/pin_stub.o")
   | _ => mret ()
   end) ;;
  (if is_cxx d && negb (env_set "KO_USE_NATIVE_LIBCXX") then
     push_all ["-Wl,--whole-archive"; o +:+ "/lib/libc++.a"; o +:+ "/lib/libc++abi.a";
               "-Wl,--no-whole-archive"]
   else push_all ["-lc++"; "-lc++abi"]) ;;
  push_all ["-lrt"; "-Wl,--no-as-needed"; "-Wl,--gc-sections"; "-ldl"; "-lpthread"; "-lm"; "-lz3"] ;;
  if negb (env_set "KO_NO_NATIVE_ZLIB") then push "-lz" else mret ().

Definition add_dfsan_pass : M driver () :=
  d ← get;
  let o := obj_path d in
  push_all ["-Xclang"; "-load"; "-Xclang"; o +:+ "/pass/libTaintPass.so"; "-mllvm";
            "-taint-abilist=" +:+ o +:+ "/rules/dfsan_abilist.txt"] ;;
  (if negb (env_set "KO_NO_NATIVE_ZLIB")
   then push_all ["-mllvm"; "-taint-abilist=" +:+ o +:+ "/rules/zlib_abilist.txt"] else mret ()) ;;
  (if env_set "KO_TRACE_FP" then push_all ["-mllvm"; "-taint-trace-float-pointer"] else mret ()) ;;
  if is_cxx d && env_set "KO_USE_NATIVE_LIBCXX"
  then push_all ["-mllvm"; "-taint-abilist=" +:+ o +:+ "/rules/abilibstdc++.txt"] else mret ().

(** The flags the loop over the arguments sets ([bit_mode] has no effect). *)
Record seen := Seen { fortify_set : bool; asan_set : bool; x_set : bool; maybe_linking : bool }.
Definition one_of (cur : string) (l : list string) : bool := existsb (String.eqb cur) l.
Definition look (cur : string) (f : seen) : seen :=
  Seen (fortify_set f || strstr cur "FORTIFY_SOURCE")
    (asan_set f || one_of cur ["-fsanitize=address"; "-fsanitize=memory"])
    (x_set f || String.eqb cur "-x")
    (maybe_linking f && negb (one_of cur ["-c"; "-S"; "-E"; "-shared"])).
Fixpoint params_loop (args : list string) (f : seen) : M driver seen :=
  match args with
  | [] => mret f
  | cur :: args =>
      let f := look cur f in
      (if one_of cur ["-Wl,-z,defs"; "-Wl,--no-undefined"] then mret () else push cur) ;;
      params_loop args f
  end.

(** The ASan and MSan options, for a type of clang that [check_type] never sets. *)
Definition add_sanitizers (f : seen) : M driver () :=
  d ← get;
  match asan_set f, clang_type d with
  | false, CLANG_FAST_TYPE =>
      if env_set "KO_USE_ASAN" then
        if env_set "KO_USE_MSAN" then die "ASAN and MSAN are mutually exclusive" else
        if env_set "KO_HARDEN" then die "ASAN and KO_HARDEN are mutually exclusive" else
        push_all ["-U_FORTIFY_SOURCE"; "-fsanitize=address"]
      else if env_set "KO_USE_MSAN" then
        if env_set "KO_USE_ASAN" then die "ASAN and MSAN are mutually exclusive" else
        if env_set "KO_HARDEN" then die "MSAN and KO_HARDEN are mutually exclusive" else
        push_all ["-U_FORTIFY_SOURCE"; "-fsanitize=memory"]
      else mret ()
  | _, _ => mret ()
  end.

(** [argv] is [argv0 :: args]; [argc == 1 && !strcmp(argv[1], "-v")] reads the
    null pointer that ends [argv]. *)
Definition edit_params (argv0 : string) (args : list string) : M driver () :=
  alloc_params (S (length args)) ;;
  check_type (match strrchr argv0 "/" with None => argv0 | Some s => after_first s end) ;;
  cxx ← gets is_cxx;
  store_param 0 (Some (if (cxx : bool) then default "clang++" (getenv "KO_CXX")
                       else default "clang" (getenv "KO_CC"))) ;;
  let maybe_assembler := check_if_assembler args in
  (if bool_decide (args = []) then segv else mret ()) ;;
  f ← params_loop args (Seen false false false true);
  if env_set "KO_CONFIG" then finish_params else
  (if maybe_assembler then mret () else add_dfsan_pass) ;;
  push_all ["-pie"; "-fpic"; "-Qunused-arguments"; "-fno-vectorize"; "-fno-slp-vectorize"] ;;
  (if env_set "KO_HARDEN" then
     push "-fstack-protector-all" ;;
     if negb (fortify_set f) then push "-D_FORTIFY_SOURCE=2" else mret ()
   else mret ()) ;;
  add_sanitizers f ;;
  (if negb (env_set "KO_DONT_OPTIMIZE") then push_all ["-g"; "-O3"] else mret ()) ;;
  (if (cxx : bool) && negb (env_set "KO_USE_NATIVE_LIBCXX") then push "-stdlib=libc++" else mret ()) ;;
  (if maybe_linking f then
     (if x_set f then push_all ["-x"; "none"] else mret ()) ;;
     add_runtime
   else mret ()) ;;
  finish_params.

(** What [execvp] reads: the parameters up to the null pointer. *)
Fixpoint exec_args (l : list (option string)) : list string :=
  match l with Some s :: l => s :: exec_args l | _ => [] end.
Definition main (argv0 : string) (args : list string) : M driver (list string) :=
  if bool_decide (args = []) then die "usage" else
  find_obj argv0 ;;
  edit_params argv0 args ;;
  gets (λ d, exec_args (cc_params d)).
End driver.

(** ** What is pushed

    [holding d l k] is the state with the parameters [l] and [k] free slots. *)
Definition holding (d : driver) (l : list string) (k : nat) : driver :=
  upd_params ((Some <$> l) ++ replicate k None) (length l) d.
(** In a state with the static variables of [d] and room for them, [m] pushes [ss]. *)
Definition pushes (m : M driver ()) (d : driver) (ss : list string) : Prop :=
  ∀ l k, (length ss ≤ k)%nat → m (holding d l k) = Ret () (holding d (l ++ ss) (k - length ss)).

Lemma store_holding d l k v :
  store_param (length l) v (holding d l (S k)) =
    Ret () (upd_params ((Some <$> l) ++ v :: replicate k None) (length l) d).
Proof.
  unfold store_param. rewrite bind_get. unfold holding at 1. cbn [cc_params upd_params].
  rewrite (proj2 (Nat.ltb_lt _ _)) by (rewrite length_app, length_fmap, length_replicate; lia).
  unfold put, holding. cbn [cc_params cc_par_cnt upd_params obj_path clang_type is_cxx].
  f_equal. unfold upd_params at 1. cbn. f_equal. rewrite <- (length_fmap Some l) at 1.
  by rewrite <- (Nat.add_0_r (length (Some <$> l))), insert_app_r.
Qed.
Lemma pushes_ret d : pushes (mret ()) d [].
Proof. intros l k _. cbn [length]. by rewrite app_nil_r, Nat.sub_0_r. Qed.
Lemma pushes_push d s : pushes (push s) d [s].
Proof.
  intros l [|k] Hk; cbn [length] in Hk; [lia|]. unfold push. rewrite bind_gets, bind_modify.
  change (store_param (length l) (Some s)
    (upd_params (cc_params (holding d l (S k))) (S (length l)) d) = Ret () (holding d (l ++ [s]) (S k - 1))).
  unfold store_param. rewrite bind_get. unfold holding. cbn [cc_params upd_params].
  rewrite (proj2 (Nat.ltb_lt _ _)) by (rewrite length_app, length_fmap, length_replicate; lia).
  unfold put, upd_params. cbn [cc_params cc_par_cnt obj_path clang_type is_cxx]. f_equal.
  rewrite length_app, fmap_app, <- app_assoc. cbn [length fmap list_fmap app].
  replace (length l + 1)%nat with (S (length l)) by lia. f_equal.
  rewrite <- (length_fmap Some l) at 1.
  rewrite <- (Nat.add_0_r (length (Some <$> l))), insert_app_r. by rewrite Nat.sub_succ, Nat.sub_0_r.
Qed.
Lemma pushes_seq m m' d ss ss' : pushes m d ss → pushes m' d ss' → pushes (m ;; m') d (ss ++ ss').
Proof.
  intros H H' l k Hk. rewrite length_app in Hk. erewrite bind_run by (apply H; lia).
  rewrite H' by lia. rewrite length_app, <- app_assoc. do 2 f_equal. lia.
Qed.
Lemma pushes_all d ss : pushes (push_all ss) d ss.
Proof.
  induction ss as [|s ss IH]; [apply pushes_ret|]. apply (pushes_seq _ _ _ [s]); [apply pushes_push|exact IH].
Qed.
Lemma pushes_if (b : bool) m m' d ss ss' :
  pushes m d ss → pushes m' d ss' → pushes (if b then m else m') d (if b then ss else ss').
Proof. by destruct b. Qed.
Lemma pushes_get (f : driver → M driver ()) d ss :
  (∀ l k, f (holding d l k) (holding d l k) = f d (holding d l k)) → pushes (f d) d ss → pushes (d ← get; f d) d ss.
Proof. intros Hf H l k Hk. rewrite bind_get, Hf. by apply H. Qed.

Create HintDb ko discriminated.
#[export] Hint Resolve pushes_ret pushes_push pushes_all pushes_if pushes_seq : ko.

Section spec.
Variable getenv : string → option string.
Variable realpath : string → option string.
Variable accessible : string → bool.

Definition pass_options (d : driver) : list string :=
  let o := obj_path d in
  ["-Xclang"; "-load"; "-Xclang"; o +:+ "/pass/libTaintPass.so"; "-mllvm";
   "-taint-abilist=" +:+ o +:+ "/rules/dfsan_abilist.txt"] ++
  (if negb (env_set getenv "KO_NO_NATIVE_ZLIB")
   then ["-mllvm"; "-taint-abilist=" +:+ o +:+ "/rules/zlib_abilist.txt"] else []) ++
  (if env_set getenv "KO_TRACE_FP" then ["-mllvm"; "-taint-trace-float-pointer"] else []) ++
  (if is_cxx d && env_set getenv "KO_USE_NATIVE_LIBCXX"
   then ["-mllvm"; "-taint-abilist=" +:+ o +:+ "/rules/abilibstdc++.txt"] else []).
Lemma add_dfsan_pass_pushes d : pushes (add_dfsan_pass getenv) d (pass_options d).
Proof. apply pushes_get; [done|]. unfold pass_options. auto 10 with ko. Qed.

Definition runtime_options (d : driver) : list string :=
  let o := obj_path d in
  match clang_type d with
  | CLANG_DFSAN_TYPE =>
      ["-Wl,--whole-archive"; o +:+ "/lib/libdfsan_rt-x86_64.a"; "-Wl,--no-whole-archive";
       "-Wl,--dynamic-list=" +:+ o +:+ "/lib/libdfsan_rt-x86_64.a.syms"; "-Wl,-T" +:+ o +:+ "/lib/taint.ld"]
  | CLANG_PIN_TYPE => [o +:+ "/lib/pin_stub.o"]
  | _ => []
  end ++
  (if is_cxx d && negb (env_set getenv "KO_USE_NATIVE_LIBCXX") then
     ["-Wl,--whole-archive"; o +:+ "/lib/libc++.a"; o +:+ "/lib/libc++abi.a"; "-Wl,--no-whole-archive"]
   else ["-lc++"; "-lc++abi"]) ++
  ["-lrt"; "-Wl,--no-as-needed"; "-Wl,--gc-sections"; "-ldl"; "-lpthread"; "-lm"; "-lz3"] ++
  (if negb (env_set getenv "KO_NO_NATIVE_ZLIB") then ["-lz"] else []).
Lemma add_runtime_pushes d : pushes (add_runtime getenv) d (runtime_options d).
Proof.
  apply pushes_get; [done|]. unfold runtime_options. destruct (clang_type d); auto 10 with ko.
Qed.
Definition mode_options (d : driver) (f : seen) : list string :=
  ["-pie"; "-fpic"; "-Qunused-arguments"; "-fno-vectorize"; "-fno-slp-vectorize"] ++
  (if env_set getenv "KO_HARDEN" then
     ["-fstack-protector-all"] ++ (if negb (fortify_set f) then ["-D_FORTIFY_SOURCE=2"] else []) else []) ++
  [] ++
  (if negb (env_set getenv "KO_DONT_OPTIMIZE") then ["-g"; "-O3"] else []) ++
  (if is_cxx d && negb (env_set getenv "KO_USE_NATIVE_LIBCXX") then ["-stdlib=libc++"] else []).
Definition link_options (d : driver) (f : seen) : list string :=
  if maybe_linking f then (if x_set f then ["-x"; "none"] else []) ++ runtime_options d else [].

(** The sanitizer options are for a type that [check_type] does not set. *)
Lemma add_sanitizers_none d f : clang_type d ≠ CLANG_FAST_TYPE → pushes (add_sanitizers getenv f) d [].
Proof.
  intros Ht. apply pushes_get; [done|]. destruct (asan_set f), (clang_type d); try done; apply pushes_ret.
Qed.

Definition dropped (cur : string) : bool := one_of cur ["-Wl,-z,defs"; "-Wl,--no-undefined"].
Definition kept (args : list string) : list string := filter (λ cur, dropped cur = false) args.
Lemma params_loop_run d args f l k :
  (length args ≤ k)%nat →
  ∃ k', params_loop args f (holding d l k) = Ret (foldl (λ f cur, look cur f) f args) (holding d (l ++ kept args) k') ∧
    (k ≤ k' + length args)%nat.
Proof.
  revert f l k. induction args as [|cur args IH]; intros f l k Hk; cbn [params_loop foldl length] in *.
  { exists k. unfold kept. rewrite filter_nil, app_nil_r. split; [done|lia]. }
  unfold kept. rewrite filter_cons. fold (dropped cur). destruct (dropped cur) eqn:Hd.
  - erewrite bind_run by done. rewrite decide_False by done.
    destruct (IH (look cur f) l k) as (k' & Hrun & Hk'); [lia|]. exists k'. split; [exact Hrun|lia].
  - erewrite bind_run by (apply pushes_push; simpl; lia). rewrite decide_True by done. cbn [length].
    destruct (IH (look cur f) (l ++ [cur]) (k - 1)%nat) as (k' & Hrun & Hk'); [lia|].
    exists k'. split; [|lia]. rewrite Hrun, <- app_assoc. done.
Qed.
Lemma exec_args_holding d l k : exec_args (cc_params (holding d l k)) = l.
Proof.
  unfold holding. cbn [cc_params upd_params]. induction l as [|s l IH]; cbn.
  - by destruct k.
  - by rewrite IH.
Qed.
Lemma finish_run d l k : finish_params (holding d l (S k)) = Ret () (holding d l (S k)).
Proof. unfold finish_params. rewrite bind_gets. apply store_holding. Qed.

(** The command as a whole *)
Definition program_name (argv0 : string) : string :=
  match strrchr argv0 "/" with None => argv0 | Some s => after_first s end.
Definition compiler (cxx : bool) : string :=
  if cxx then default "clang++" (getenv "KO_CXX") else default "clang" (getenv "KO_CC").
Definition settings (argv0 dir : string) : driver :=
  Driver dir [] 1 (if env_set getenv "USE_PIN" then CLANG_PIN_TYPE else CLANG_DFSAN_TYPE)
    (String.eqb (program_name argv0) "ko-clang++").
Definition flags_seen (args : list string) : seen :=
  foldl (λ f cur, look cur f) (Seen false false false true) args.
Definition added_options (d : driver) (args : list string) : list string :=
  if env_set getenv "KO_CONFIG" then [] else
  (if check_if_assembler args then [] else pass_options d) ++
  mode_options d (flags_seen args) ++ link_options d (flags_seen args).

Lemma length_if {A} (b : bool) (l l' : list A) n :
  (length l ≤ n)%nat → (length l' ≤ n)%nat → (length (if b then l else l') ≤ n)%nat.
Proof. by destruct b. Qed.
Lemma length_app_le {A} (l l' : list A) n n' :
  (length l ≤ n)%nat → (length l' ≤ n')%nat → (length (l ++ l') ≤ n + n')%nat.
Proof. rewrite length_app. lia. Qed.
Lemma options_bound d args : (length (added_options d args) ≤ 41)%nat.
Proof.
  assert (length (pass_options d) ≤ 6 + (2 + (2 + 2)))%nat as H1.
  { unfold pass_options. repeat apply length_app_le; try apply length_if; simpl; lia. }
  assert (length (runtime_options d) ≤ 5 + (4 + (7 + 1)))%nat as H2.
  { unfold runtime_options. repeat apply length_app_le; try apply length_if; try (destruct (clang_type d)); simpl; lia. }
  assert (length (mode_options d (flags_seen args)) ≤ 5 + (2 + (0 + (2 + 1))))%nat as H3.
  { unfold mode_options. repeat apply length_app_le; try apply length_if; try destruct (negb _); simpl; lia. }
  assert (length (link_options d (flags_seen args)) ≤ 2 + 17)%nat as H4.
  { unfold link_options. apply length_if; [apply length_app_le; [apply length_if; simpl; lia|exact H2]|simpl; lia]. }
  unfold added_options. apply length_if; [simpl; lia|].
  eapply Nat.le_trans; [apply length_app_le; [apply length_if; [|exact H1]; simpl; lia|apply length_app_le; [exact H3|exact H4]]|simpl; lia].
Qed.

(** Code that ends by closing the array. *)
Definition closes (m : M driver ()) (d : driver) (ss : list string) : Prop :=
  ∀ l k, (length ss < k)%nat → m (holding d l k) = Ret () (holding d (l ++ ss) (k - length ss)).
Lemma closes_finish d : closes finish_params d [].
Proof.
  intros l [|k] Hk; [simpl in Hk; lia|]. rewrite finish_run, app_nil_r. done.
Qed.
Lemma closes_seq m m' d ss ss' : pushes m d ss → closes m' d ss' → closes (m ;; m') d (ss ++ ss').
Proof.
  intros H H' l k Hk. rewrite length_app in Hk. erewrite bind_run by (apply H; lia).
  rewrite H' by lia. rewrite length_app, <- app_assoc. do 2 f_equal. lia.
Qed.

Lemma edit_params_run argv0 dir args :
  args ≠ [] → Z.of_nat (length args) < 2 ^ 26 →
  let d := settings argv0 dir in
  ∃ k, edit_params getenv argv0 args (set_obj_path dir driver_init) =
    Ret () (holding d (compiler (is_cxx d) :: kept args ++ added_options d args) (S k)).
Proof.
  intros Hargs Hlen d. unfold edit_params, alloc_params.
  assert (u32 ((Z.of_nat (S (length args)) + 128) * 8) = (Z.of_nat (S (length args)) + 128) * 8) as ->.
  { unfold u32, wrap. rewrite Z.mod_small; lia. }
  rewrite (proj2 (Z.ltb_ge _ _)) by (unfold MAX_ALLOC; lia). rewrite bind_modify.
  set (k := (length args + 128)%nat).
  erewrite (bind_run _ _ _ () (upd_params (replicate (S k) None) 1 d)).
  2:{ unfold check_type. fold (program_name argv0). rewrite bind_modify. unfold d, settings.
      destruct (String.eqb (program_name argv0) "ko-clang++"); reflexivity. }
  rewrite bind_gets.
  erewrite (bind_run _ _ _ () (holding d [compiler (is_cxx d)] k)).
  2:{ unfold store_param, compiler. rewrite bind_get. cbn [cc_params upd_params].
      rewrite (proj2 (Nat.ltb_lt _ _)) by (rewrite length_replicate; lia). reflexivity. }
  rewrite bool_decide_eq_false_2 by done. erewrite bind_run by done. cbv zeta.
  destruct (params_loop_run d args (Seen false false false true) [compiler (is_cxx d)] k) as (k1 & Hloop & Hk1);
    [unfold k; lia|]. fold (flags_seen args) in Hloop. erewrite bind_run by exact Hloop.
  set (l := [compiler (is_cxx d)] ++ kept args).
  pose proof (options_bound d args) as Hb. unfold added_options in *.
  destruct (env_set getenv "KO_CONFIG").
  { destruct k1 as [|k1]; [unfold k in Hk1; lia|]. exists k1. rewrite finish_run. by rewrite app_nil_r. }
  set (added := (if check_if_assembler args then [] else pass_options d) ++
    mode_options d (flags_seen args) ++ link_options d (flags_seen args)) in *.
  assert (∀ m, closes m d added → ∃ k', m (holding d l k1) = Ret () (holding d (l ++ added) (S k'))) as Hend.
  { intros m Hm. rewrite Hm by (unfold k in Hk1; lia). exists (k1 - length added - 1)%nat. do 2 f_equal.
    unfold k in Hk1. lia. }
  apply Hend. unfold added.
  apply closes_seq; [apply pushes_if; [apply pushes_ret|apply add_dfsan_pass_pushes]|].
  unfold mode_options. rewrite <- !app_assoc.
  apply closes_seq; [apply pushes_all|]. apply closes_seq; [auto with ko|].
  apply closes_seq; [apply add_sanitizers_none; unfold d, settings; simpl; by destruct (env_set getenv "USE_PIN")|].
  apply closes_seq; [auto with ko|]. apply closes_seq; [auto with ko|].
  rewrite <- (app_nil_r (link_options _ _)). apply closes_seq; [|apply closes_finish].
  apply pushes_if; [|apply pushes_ret]. apply pushes_seq; [auto with ko|apply add_runtime_pushes].
Qed.

(** The flags in terms of the arguments. *)
Lemma flags_seen_spec args f :
  let g := foldl (λ f cur, look cur f) f args in
  fortify_set g = fortify_set f || existsb (λ cur, strstr cur "FORTIFY_SOURCE") args ∧
  x_set g = x_set f || existsb (λ cur, String.eqb cur "-x") args ∧
  maybe_linking g =
    maybe_linking f && negb (existsb (λ cur, one_of cur ["-c"; "-S"; "-E"; "-shared"]) args).
Proof.
  revert f. induction args as [|cur args IH]; intros f; cbn [foldl existsb].
  { by rewrite !orb_false_r, andb_true_r. }
  destruct (IH (look cur f)) as (H1 & H2 & H3). cbv zeta in *. rewrite H1, H2, H3. cbn [look fortify_set x_set maybe_linking].
  by rewrite negb_orb, !orb_assoc, andb_assoc.
Qed.
End spec.

Lemma if_negb {A} (b : bool) (x y : A) : (if negb b then x else y) = if b then y else x.
Proof. by destruct b. Qed.

Section command.
Variable getenv : string → option string.
Variable realpath : string → option string.
Variable accessible : string → bool.

(** C36: the command the driver runs. With its pass where it looks for it, and
    arguments, [ko-clang] runs without writing outside [cc_params]: it executes
    the compiler with the arguments of the user in their order, but for the two
    linker options it drops, followed by its own options. These are none under
    [KO_CONFIG]; else they are, in this order: unless an argument is an assembler
    file, those that load the taint pass of the driver's directory with its
    rules; the code generation options; and unless an argument asks not to link,
    those that link the runtime: all of [libdfsan_rt-x86_64.a] with its list of
    dynamic symbols and its linker script (or [pin_stub.o] under [USE_PIN]), the
    C++ libraries, and the libraries the runtime needs. *)
Theorem main_command argv0 args path slash :
  args ≠ [] → Z.of_nat (length args) < 2 ^ 26 →
  realpath argv0 = Some path → strrchr path "/" = Some slash →
  let dir := String.substring 0 (String.length path - String.length slash) path in
  let cxx := String.eqb (program_name argv0) "ko-clang++" in
  let set v := env_set getenv v in
  let any (p : string → bool) := existsb p args in
  accessible (dir +:+ "/pass/libTaintPass.so") = true →
  ∃ own d, main getenv realpath accessible argv0 args driver_init =
      Ret (compiler getenv cxx :: kept args ++ own) d ∧
    own = if set "KO_CONFIG" then [] else
      (if check_if_assembler args then [] else
         ["-Xclang"; "-load"; "-Xclang"; dir +:+ "/pass/libTaintPass.so"; "-mllvm";
          "-taint-abilist=" +:+ dir +:+ "/rules/dfsan_abilist.txt"] ++
         (if set "KO_NO_NATIVE_ZLIB" then []
          else ["-mllvm"; "-taint-abilist=" +:+ dir +:+ "/rules/zlib_abilist.txt"]) ++
         (if set "KO_TRACE_FP" then ["-mllvm"; "-taint-trace-float-pointer"] else []) ++
         (if cxx && set "KO_USE_NATIVE_LIBCXX"
          then ["-mllvm"; "-taint-abilist=" +:+ dir +:+ "/rules/abilibstdc++.txt"] else [])) ++
      ["-pie"; "-fpic"; "-Qunused-arguments"; "-fno-vectorize"; "-fno-slp-vectorize"] ++
      (if set "KO_HARDEN" then
         "-fstack-protector-all" :: (if any (λ cur, strstr cur "FORTIFY_SOURCE") then [] else ["-D_FORTIFY_SOURCE=2"])
       else []) ++
      (if set "KO_DONT_OPTIMIZE" then [] else ["-g"; "-O3"]) ++
      (if cxx && negb (set "KO_USE_NATIVE_LIBCXX") then ["-stdlib=libc++"] else []) ++
      (if any (λ cur, one_of cur ["-c"; "-S"; "-E"; "-shared"]) then [] else
         (if any (λ cur, String.eqb cur "-x") then ["-x"; "none"] else []) ++
         (if set "USE_PIN" then [dir +:+ "/lib/pin_stub.o"] else
            ["-Wl,--whole-archive"; dir +:+ "/lib/libdfsan_rt-x86_64.a"; "-Wl,--no-whole-archive";
             "-Wl,--dynamic-list=" +:+ dir +:+ "/lib/libdfsan_rt-x86_64.a.syms";
             "-Wl,-T" +:+ dir +:+ "/lib/taint.ld"]) ++
         (if cxx && negb (set "KO_USE_NATIVE_LIBCXX") then
            ["-Wl,--whole-archive"; dir +:+ "/lib/libc++.a"; dir +:+ "/lib/libc++abi.a"; "-Wl,--no-whole-archive"]
          else ["-lc++"; "-lc++abi"]) ++
         ["-lrt"; "-Wl,--no-as-needed"; "-Wl,--gc-sections"; "-ldl"; "-lpthread"; "-lm"; "-lz3"] ++
         (if set "KO_NO_NATIVE_ZLIB" then [] else ["-lz"])).
Proof.
  intros Hargs Hlen Hpath Hslash dir cxx set any Hacc.
  destruct (edit_params_run getenv argv0 dir args Hargs Hlen) as [k Hrun].
  eexists (added_options getenv (settings getenv argv0 dir) args), _. split.
  { unfold main. rewrite bool_decide_eq_false_2 by done.
    erewrite bind_run; [|unfold find_obj; rewrite Hpath, Hslash; cbv zeta; fold dir; by rewrite Hacc].
    erewrite bind_run by exact Hrun. unfold gets. by rewrite exec_args_holding. }
  unfold added_options. fold (set "KO_CONFIG"). destruct (set "KO_CONFIG"); [done|].
  destruct (flags_seen_spec args (Seen false false false true)) as (Hf & Hx & Hl).
  cbv zeta in Hf, Hx, Hl. fold (flags_seen args) in Hf, Hx, Hl. cbn [orb andb fortify_set x_set maybe_linking] in Hf, Hx, Hl.
  unfold pass_options, mode_options, link_options, runtime_options. rewrite Hf, Hx, Hl. cbv zeta.
  cbn [settings obj_path is_cxx clang_type]. fold cxx dir.
  repeat match goal with |- context [env_set getenv ?v] => fold (set v) end.
  repeat match goal with |- context [existsb ?p args] => fold (any p) end.
  rewrite !if_negb, <-!app_assoc. by destruct (set "USE_PIN").
Qed.
End command.

(** ** Running [ko-clang -v]

    The runtime is linked: the check for a lone [-v] wants an [argc] of 1, with
    which [main] never calls [edit_params]. *)
Definition no_env : string → option string := λ _, None.
Definition installed : string → option string := λ _, Some "/opt/ko/bin/ko-clang".

Example assembler_example :
  exec_args (cc_params (at_state (main no_env installed (λ _, true) "ko-clang" ["-c"; "crt.S"] driver_init))) =
    ["clang"; "-c"; "crt.S"; "-pie"; "-fpic"; "-Qunused-arguments"; "-fno-vectorize"; "-fno-slp-vectorize";
     "-g"; "-O3"].
Proof. by vm_compute. Qed.

Lemma main_command_witness :
  ∃ d, main no_env installed (λ _, true) "ko-clang" ["-v"] driver_init =
    Ret ["clang"; "-v"; "-Xclang"; "-load"; "-Xclang"; "/opt/ko/bin/pass/libTaintPass.so"; "-mllvm";
         "-taint-abilist=/opt/ko/bin/rules/dfsan_abilist.txt"; "-mllvm";
         "-taint-abilist=/opt/ko/bin/rules/zlib_abilist.txt";
         "-pie"; "-fpic"; "-Qunused-arguments"; "-fno-vectorize"; "-fno-slp-vectorize"; "-g"; "-O3";
         "-Wl,--whole-archive"; "/opt/ko/bin/lib/libdfsan_rt-x86_64.a"; "-Wl,--no-whole-archive";
         "-Wl,--dynamic-list=/opt/ko/bin/lib/libdfsan_rt-x86_64.a.syms";
         "-Wl,-T/opt/ko/bin/lib/taint.ld"; "-lc++"; "-lc++abi"; "-lrt"; "-Wl,--no-as-needed";
         "-Wl,--gc-sections"; "-ldl"; "-lpthread"; "-lm"; "-lz3"; "-lz"] d.
Proof.
  destruct (main_command no_env installed (λ _, true) "ko-clang" ["-v"] "/opt/ko/bin/ko-clang" "/ko-clang")
    as (own & d & Hrun & Hown).
  - done.
  - done.
  - done.
  - done.
  - done.
  - exists d. rewrite Hrun, Hown. reflexivity.
Defined.
